(* ===== verification/_CoqProject ===== *)
-Q . S2P
Prelude.v
Persister.v
RaftTypes.v
RaftHandlers.v
RaftLeader.v
RaftNet.v
RaftEffects.v
RaftInv.v
RaftSafety.v
RaftTraces.v
RaftLocal.v
RaftTree.v
RaftMoves.v
RaftCommit.v
RaftPreserve.v
RaftAgreement.v
RaftConsensus.v
RaftStream.v
KVServer.v
KVMachine.v
KVReplica.v
KVCluster.v
KVHttp.v
KVClerk.v
KVService.v
Models.v
Json.v
Controller.v
Gateway.v
Worker.v
Http.v
System.v
Bitset.v
PorcupineModel.v
PorcupineList.v
PorcupineSpec.v
PorcupineSearch.v
PorcupineProof.v
PorcupineHistory.v
PorcupineCheck.v
KvModel.v
Linearizable.v
KVHistory.v
PorcupineEvents.v
PorcupineCorrect.v
Visualization.v
Labrpc.v
Cluster.v
Programs.v
KVConfig.v
RaftConfig.v
RaftWiring.v
RaftVerdict.v
RaftRpc.v
Labgob.v
