(* ===== verification/Prelude.v ===== *)
(** * AiFS: a verification library for the replicated key/value store, the
    control plane and the data plane

    ** The program

    AiFS (src/) is a small inference platform in Go.  Its state lives in a
    key/value service replicated with Raft; a controller keeps the registry of
    worker nodes in that service; a gateway takes chat requests, asks the
    controller for the best worker and forwards them; a worker runs them on its
    GPUs.  The parts call each other as follows:

    - raft/raft.go with raft/persister.go: one Raft peer.  Handlers and
      goroutines share the peer's state under one mutex, talk to other peers by
      RPC, save term, vote and log with the persister, and deliver committed
      commands and snapshots to the service on a channel.
    - kvraft/server.go: the service on top of one peer.  RPC handlers start
      commands in Raft and wait on a channel per log index; [applier] executes
      delivered commands, suppresses duplicates with a table of last replies
      per client, and makes and restores snapshots.
    - kvraft/http.go, kvraft/client.go, controlplane/kvclient/client.go: the
      HTTP front end and the two clients.
    - controlplane/controller/controller.go with models/worker.go: the worker
      registry and the choice of a worker, through kvclient.
    - gateway/gateway.go, worker/*.go with models/chat.go: two pipelines of
      goroutines connected by bounded channels.
    - labrpc/labrpc.go with labgob/labgob.go: the simulated network that carries
      the RPCs, and the checks around the encoder; kvraft/runtime/cluster.go
      starts a cluster on it, kvraft/config.go and raft/config.go are the test
      benches that also cut connections and crash servers.
    - cmd/*/main.go: the programs; the worker program registers its node with the
      controller over HTTP and keeps sending heartbeats.
    - porcupine/*.go with models/kv.go: the linearizability checker of the tests.

    ** How the code is modelled

    A definition is the code between two points where other goroutines can run:
    a critical section, or the code between two channel operations.  Its state
    is a record with the fields of the Go struct, and it returns what the code
    returns.  [None] (an [option] result) is a Go run-time panic: slice accesses
    go through [go_nth], [go_set], [go_from] and [go_upto] below.  Errors are
    the right side of a sum.  Goroutines are put together again as executable
    transition systems ([RaftNet.step]) or step relations ([KVServer.sys_step],
    [Gateway.gstep], [Worker.pstep]) over which every interleaving is allowed;
    where a method takes its lock several times, what other goroutines do between
    its sections is an argument ([KVClerk.execute_req]) or they are interleaved
    ([Controller.cstep]).
    Go's [int] is [Z] where values count up by one from 0; widths are kept
    where they matter (64-bit words of bit sets, wrapping counters, IEEE 754
    utilizations).  Time, random numbers, the order of map iteration and what
    the network answers are arguments.  The codecs are classes: [Gob] (labgob
    over encoding/gob) and [Json.Json] (encoding/json), each with the round-trip
    law that the code relies on (for JSON: of texts that are valid UTF-8, since
    encoding/json replaces what is not) and a concrete instance.

    ** Files

    - [Prelude] (this file): Go slices and panics, tactics ([case_all], [b2p],
      [go_inv]), the class [Gob], quorums, search lemmas.
    - [Persister]: raft/persister.go.
    - [RaftTypes]: the peer's data, index arithmetic, persistence and [Make];
      the invariant [synced] that the saved bytes are what a restart needs.
    - [RaftHandlers]: [RequestVote], [AppendEntries], [InstallSnapshot],
      [Snapshot], [Start].
    - [RaftLeader]: elections, replication, the commit rule, snapshots to
      lagging peers, delivery.
    - [RaftNet]: a cluster.  A world holds the peers, the elections with their
      shared vote counters, the other goroutines, and what each service has
      received; [step] runs one action (timer, client call, goroutine section,
      RPC that is delivered or loses its request or reply, crash and restart).
      A timer or a delivery after [Kill] is allowed, as the loops of the code
      test [killed] before they sleep or not at all.
    - [RaftEffects], [RaftInv]: what each section does to a history of created
      entries and granted votes, and the cluster invariant [Inv].
    - [RaftSafety]: the invariant holds in every reachable world; election
      safety, one vote per term, log matching, durability.
    - [RaftTraces]: instances of these theorems, and executions that show that
      agreement on delivered commands does not hold of this code, with the
      three defects that cause it.
    - [RaftLocal]: each section against its specification (vote condition, log
      reconciliation, conflict hint, commit rule, compaction), freedom from
      panics, and one round of replication.
    - [RaftTree] (the tree of created entries), [RaftMoves] (what each section
      does to a log as a path in it), [RaftCommit] (acknowledged, choosable,
      chosen and committed entries; the invariant [Agr]), [RaftPreserve] (how it
      is kept), [RaftAgreement] (it holds over every careful execution):
      agreement.  An execution is [careful] when a replication goroutine only
      goes on while its server leads and an elected server starts with match
      indices 0, the two points at which [RaftTraces] shows the code fail.
      [RaftConsensus]: state machine safety, leader completeness and freedom
      from panics; [RaftStream]: without compaction the services receive
      prefixes of one log, and a leader gets its own commands back.
    - [KVServer]: the service; [KVMachine]: its state machine as a function of
      the log (exactly-once execution, replies to duplicates); [KVReplica]: the
      interleaved server ([applier] never blocks, a server is a prefix of the
      log, the snapshots it makes are prefixes, the first section of a request)
      and executions that show defects.
    - [KVCluster]: all servers with their handlers and appliers on the peers of
      [RaftNet], as one executable transition system [kstep]; it implements one
      log that only grows, which the execution determines ([klog]: the longest
      list of commands that a service was given).  [KVHistory]: the operations
      that its clients completed, with the logged ones that are still pending,
      are a linearizable history.
    - [KVHttp]: the HTTP front end; [KVClerk]: [Clerk] and kvclient.Client, whose
      unbounded retry loops have fuel: the theorems say how much is enough (one
      call per server), and that no amount is in the stuck case.  The retry round
      of kvclient is shown with other goroutines using the client in between.
    - [KVService]: the interface [KVService] between the controller and the
      store, discharged by a [Client] in front of the state machine.  A failed
      write promises nothing: it may take effect later.
    - [Json]: encoding/json as a class, and which texts survive it.
    - [Models], [Controller]: the registry, proved against [KVService], with
      requests whose sections interleave.
    - [Gateway], [Worker]: the two pipelines: no job is lost or answered twice.
    - [Http]: what the code uses of net/http, the servers on their paths, and the
      clients: kvclient.doOnce, pickWorker, forwardToWorker, the worker program.
      [System]: servers and clients together.
    - [Bitset]: porcupine/bitset.go as an implementation of finite sets.
    - [PorcupineModel] (model.go and what linearizable means), [PorcupineList]
      (the linked list of entries on a heap of nodes, lift and unlift),
      [PorcupineSearch] (checkSingle, its loop with fuel), [PorcupineHistory]
      and [PorcupineEvents] (operations and events as entries), [PorcupineCheck]
      (checkParallel and the entry points): the checker.  [PorcupineSpec] states
      the search without its data structures, [PorcupineProof] shows that the
      loop implements it and ends, [PorcupineCorrect] draws the conclusions.
      Fuel is existential: the theorems give one that every larger fuel
      agrees with, so the loop is shown to end.
    - [KvModel]: models/kv.go; checking each key on its own decides
      linearizability of the whole store.  [Linearizable]: the histories of the
      replicated state machine are linearizable, and the checker says so.
      [Visualization]: visualization.go.
    - [Labrpc]: the network.  A call is a state machine whose steps interleave
      with everything else ([net_step]); [rank] bounds what is left of a call.
    - [Cluster]: runtime/cluster.go over [Labrpc] and [KVServer]; [KVConfig]:
      kvraft/config.go over the same; [Programs]: cmd/kvcluster, cmd/controller
      and cmd/gateway.
    - [RaftConfig]: raft/config.go, servers and connections and the readers of
      applyCh; [RaftWiring]: which call reaches which instance, and what a
      restart restores; [RaftVerdict]: the checks that the tests call, which run
      beside a cluster that goes on ([Moment]); the loop of [one] has fuel, and
      its theorem says which is enough.
    - [RaftRpc]: the three calls of Raft over [Labrpc].
    - [Labgob]: the checks of labgob.go over a graph of types; fuel above the
      number of types is enough.

    ** What the theorems show

    The safety core of Raft that does not depend on who sends AppendEntries
    holds for any cluster size and any interleaving: at most one leader per
    term, one vote per term, log matching, durability across crashes.  State
    machine safety does not hold of all executions, because a deposed leader's
    replication goroutine keeps sending under the new term and because match
    indices survive a change of leadership; [RaftTraces] exhibits the runs.
    These two are all that is missing: in every execution that avoids them
    ([careful], an executable test of the schedule) the services never disagree
    on a command, a later leader has every committed entry, and no goroutine
    panics, with loss, delay, reordering, crashes, restarts and snapshots.

    On top of that, for servers that do not compact their logs (maxraftstate -1,
    a setting of cmd/kvcluster), the whole cluster implements one log that only
    grows: every store is the result of a prefix, and every answer that leaves a
    server is a refusal, the log's answer to that request (the check of
    [waitApplied] makes sure that the handler's index holds its own command), or,
    from the record table, which answers an old request with the last reply, the
    log's answer to that or a later-numbered request of the same client.  What
    the clerks record is linearizable as long as the log keeps each client's
    order.  A server alone
    is correct for what Raft is meant to deliver: commands and snapshots in
    order give exactly the state of the log prefix, each request once.  The
    theorems named in findings show where the code departs from that (late
    snapshots, a record table that goes back, shared client numbers).

    The checker of the tests is a decision procedure: its search ends without a
    panic, its answer is right for every order of the goroutines' answers, with
    a timer it never gives a wrong answer, and what it reports, also when the
    timer stopped its searches, can be shown.
    The network runs a handler at most once per call, answers every call, and
    lets no deleted server answer; the cluster runtime and the test bench wire
    servers to the right peers, isolate partitions, and restart a server from
    what it had persisted.

    The composition theorems join the parts: a Raft call that returns true ran
    the handler of the right peer once ([RaftRpc]); the bench of the Raft tests
    fails a correct cluster neither for two leaders nor for what it delivers in
    order and in agreement ([RaftVerdict]); clerks in front of one log see a
    linearizable store ([Linearizable]); a worker that has registered is found by
    the gateway unless the store fails to read its record, a forwarded prompt
    reaches the worker's pool at most once whatever the network does, and a
    key/value request the server ([System]); the programs find each other ([Programs]).

    ** Not modelled

    The text of the HTML template of the visualization, which is an argument;
    logging (internal/logx, raft/util.go); flag parsing, signals, listening on
    ports and the shutdown of an http.Server, which are library code.
    encoding/gob, encoding/json and reflection are arguments or classes with
    their laws.  RaftNet keeps its own, more abstract network (requests and
    replies that are delivered or lost); [RaftRpc] relates one call of it to
    [Labrpc], not whole runs.  What is left to do: a simulation between runs of
    [Labrpc] with peers and runs of [RaftNet], and [KVCluster]'s theorems for
    servers that compact their logs. *)

From Stdlib Require Export Init.Byte Lia.
From stdpp Require Export prelude gmap strings list list_numbers countable.

(** ** Scope of the Go primitives *)

Declare Scope go_scope.
Delimit Scope go_scope with go.

(** A Go computation that may stop with a run-time panic is an [option]:
    [None] is the panic (index or slice bounds out of range).  stdpp's
    [x ← m; k] notation sequences such computations. *)

Definition zlen {A} (l : list A) : Z := Z.of_nat (length l).

(** [l[i]] *)
Definition go_nth {A} (l : list A) (i : Z) : option A :=
  if bool_decide (0 ≤ i)%Z then l !! Z.to_nat i else None.

(** [l[i] = x] *)
Definition go_set {A} (l : list A) (i : Z) (x : A) : option (list A) :=
  if bool_decide (0 ≤ i ∧ i < zlen l)%Z then Some (<[Z.to_nat i := x]> l) else None.

(** [l[i:]] *)
Definition go_from {A} (l : list A) (i : Z) : option (list A) :=
  if bool_decide (0 ≤ i ∧ i ≤ zlen l)%Z then Some (drop (Z.to_nat i) l) else None.

(** [l[:i]]; the code only reslices inside the length, and an [i] past the
    length is kept a panic. *)
Definition go_upto {A} (l : list A) (i : Z) : option (list A) :=
  if bool_decide (0 ≤ i ∧ i ≤ zlen l)%Z then Some (take (Z.to_nat i) l) else None.

Notation "l '.[' i ']'" := (go_nth l i) (at level 1, left associativity, format "l .[ i ]") : go_scope.
Notation "l '.[' i ':]'" := (go_from l i) (at level 1, left associativity, format "l .[ i :]") : go_scope.
Notation "l '.[:' i ']'" := (go_upto l i) (at level 1, left associativity, format "l .[: i ]") : go_scope.

(** ** Tactics *)

(** Split every [if]/[match] of the goal and of the hypotheses. *)
Ltac case_all :=
  repeat match goal with
  | H : context [ match ?x with _ => _ end ] |- _ =>
      lazymatch x with context [ match _ with _ => _ end ] => fail | _ => idtac end;
      destruct x eqn:?; simplify_eq
  | |- context [ match ?x with _ => _ end ] =>
      lazymatch x with context [ match _ with _ => _ end ] => fail | _ => idtac end;
      destruct x eqn:?; simplify_eq
  end.

(** Turn boolean comparisons into propositions. *)
Ltac b2p :=
  repeat match goal with
  | H : bool_decide _ = true |- _ => apply bool_decide_eq_true in H
  | H : bool_decide _ = false |- _ => apply bool_decide_eq_false in H
  | H : (_ && _) = true |- _ => apply andb_true_iff in H; destruct H
  | H : (_ && _) = false |- _ => apply andb_false_iff in H
  | H : (_ || _) = true |- _ => apply orb_true_iff in H
  | H : (_ || _) = false |- _ => apply orb_false_iff in H; destruct H
  | H : negb _ = true |- _ => apply negb_true_iff in H
  | H : negb _ = false |- _ => apply negb_false_iff in H
  | H : (_ <? _)%Z = true |- _ => apply Z.ltb_lt in H
  | H : (_ <? _)%Z = false |- _ => apply Z.ltb_ge in H
  | H : (_ <=? _)%Z = true |- _ => apply Z.leb_le in H
  | H : (_ <=? _)%Z = false |- _ => apply Z.leb_gt in H
  | H : (_ =? _)%Z = true |- _ => apply Z.eqb_eq in H
  | H : (_ =? _)%Z = false |- _ => apply Z.eqb_neq in H
  | H : (_ >? _)%Z = _ |- _ => rewrite Z.gtb_ltb in H
  | H : (_ >=? _)%Z = _ |- _ => rewrite Z.geb_leb in H
  end.

(** Invert a sequence of panicking steps that returned. *)
Ltac go_inv :=
  repeat match goal with
  | H : mbind _ _ = Some _ |- _ => apply bind_Some in H as (? & ? & ?)
  | H : (_ ≫= _) = Some _ |- _ => apply bind_Some in H as (? & ? & ?)
  | H : Some _ = Some _ |- _ => injection H as H; subst
  | H : (_, _) = (_, _) |- _ => injection H as H; subst
  | H : None = Some _ |- _ => discriminate H
  end.

(** ** Lemmas on the slice primitives *)

Create HintDb go_slice discriminated.
Create Rewrite HintDb go_len.

Section slices.
Context {A : Type}.
Implicit Types (l : list A) (i : Z) (x : A).

Lemma zlen_nonneg l : (0 ≤ zlen l)%Z.
Proof. unfold zlen. lia. Qed.

Lemma zlen_nil : zlen (@nil A) = 0%Z.
Proof. done. Qed.

Lemma zlen_cons x l : zlen (x :: l) = (1 + zlen l)%Z.
Proof. unfold zlen. simpl. lia. Qed.

Lemma zlen_app l1 l2 : zlen (l1 ++ l2) = (zlen l1 + zlen l2)%Z.
Proof. unfold zlen. rewrite length_app. lia. Qed.

Lemma zlen_drop n l : (Z.of_nat n ≤ zlen l)%Z → zlen (drop n l) = (zlen l - Z.of_nat n)%Z.
Proof. unfold zlen. rewrite length_drop. lia. Qed.

Lemma zlen_take n l : (Z.of_nat n ≤ zlen l)%Z → zlen (take n l) = Z.of_nat n.
Proof. unfold zlen. rewrite length_take. lia. Qed.

Lemma go_nth_Some l i x :
  go_nth l i = Some x ↔ (0 ≤ i)%Z ∧ l !! Z.to_nat i = Some x.
Proof.
  unfold go_nth. case_bool_decide; split; [auto | by intros [] | done | by intros []].
Qed.

Lemma go_nth_bounds l i x : go_nth l i = Some x → (0 ≤ i < zlen l)%Z.
Proof.
  intros [Hi Hl]%go_nth_Some. apply lookup_lt_Some in Hl. unfold zlen. lia.
Qed.

Lemma go_nth_is_Some l i : (0 ≤ i < zlen l)%Z → ∃ x, go_nth l i = Some x.
Proof.
  intros [H1 H2]. unfold go_nth. rewrite bool_decide_true by done.
  apply lookup_lt_is_Some. unfold zlen in H2. lia.
Qed.

Lemma go_nth_of_nat l (n : nat) : go_nth l (Z.of_nat n) = l !! n.
Proof. unfold go_nth. rewrite bool_decide_true by lia. by rewrite Nat2Z.id. Qed.

Lemma go_nth_0 x l : go_nth (x :: l) 0 = Some x.
Proof. done. Qed.

Lemma go_nth_cons x l i : (0 < i)%Z → go_nth (x :: l) i = go_nth l (i - 1).
Proof.
  intros Hi. unfold go_nth. rewrite !bool_decide_true by lia.
  replace (Z.to_nat i) with (S (Z.to_nat (i - 1))) by lia. done.
Qed.

Lemma go_nth_app_l l1 l2 i : (i < zlen l1)%Z → go_nth (l1 ++ l2) i = go_nth l1 i.
Proof.
  intros Hi. unfold go_nth, zlen in *. case_bool_decide; [|done].
  apply lookup_app_l. lia.
Qed.

Lemma go_nth_app_r l1 l2 i :
  (zlen l1 ≤ i)%Z → go_nth (l1 ++ l2) i = go_nth l2 (i - zlen l1).
Proof.
  intros Hi. unfold go_nth, zlen in *. rewrite !bool_decide_true by lia.
  rewrite lookup_app_r by lia. f_equal. lia.
Qed.

Lemma go_nth_take l (n : nat) i :
  (i < Z.of_nat n)%Z → go_nth (take n l) i = go_nth l i.
Proof.
  intros Hi. unfold go_nth. case_bool_decide; [|done]. apply lookup_take_lt. lia.
Qed.

Lemma go_nth_drop l (n : nat) i :
  (0 ≤ i)%Z → go_nth (drop n l) i = go_nth l (i + Z.of_nat n).
Proof.
  intros Hi. unfold go_nth. rewrite !bool_decide_true by lia.
  rewrite lookup_drop. f_equal. lia.
Qed.

Lemma go_set_Some l i x l' :
  go_set l i x = Some l' ↔ (0 ≤ i < zlen l)%Z ∧ l' = <[Z.to_nat i := x]> l.
Proof. unfold go_set. case_bool_decide; split; intros; destruct_and?; simplify_eq; auto; lia. Qed.

Lemma go_from_Some l i l' :
  go_from l i = Some l' ↔ (0 ≤ i ≤ zlen l)%Z ∧ l' = drop (Z.to_nat i) l.
Proof. unfold go_from. case_bool_decide; split; intros; destruct_and?; simplify_eq; auto; lia. Qed.

Lemma go_upto_Some l i l' :
  go_upto l i = Some l' ↔ (0 ≤ i ≤ zlen l)%Z ∧ l' = take (Z.to_nat i) l.
Proof. unfold go_upto. case_bool_decide; split; intros; destruct_and?; simplify_eq; auto; lia. Qed.

Lemma go_from_ok l i : (0 ≤ i ≤ zlen l)%Z → go_from l i = Some (drop (Z.to_nat i) l).
Proof. intros. by apply go_from_Some. Qed.

Lemma go_upto_ok l i : (0 ≤ i ≤ zlen l)%Z → go_upto l i = Some (take (Z.to_nat i) l).
Proof. intros. by apply go_upto_Some. Qed.

Lemma go_set_ok l i x : (0 ≤ i < zlen l)%Z → go_set l i x = Some (<[Z.to_nat i := x]> l).
Proof. intros. by apply go_set_Some. Qed.

Lemma go_set_nth l i x l' q v :
  go_set l i x = Some l' → go_nth l' q = Some v → (q = i ∧ v = x) ∨ go_nth l q = Some v.
Proof.
  intros [Hi ->]%go_set_Some [Hq Hv]%go_nth_Some. rewrite list_lookup_insert in Hv.
  case_decide as Hd; [left; split; [lia|congruence]|right]. by apply go_nth_Some.
Qed.

Lemma zlen_insert l n x : zlen (<[n := x]> l) = zlen l.
Proof. unfold zlen. by rewrite length_insert. Qed.
End slices.

#[export] Hint Rewrite @zlen_nil @zlen_cons @zlen_app @zlen_insert : go_len.
#[export] Hint Resolve zlen_nonneg : go_slice.

(** ** The serializer boundary

    [labgob] wraps Go's [encoding/gob], which is not part of the repository.
    What the code relies on is that decoding what was encoded gives the value
    back, and that an encoding is never empty ([readPersist] and
    [StartKVServer] take an empty buffer to mean "nothing was saved"). *)

Class Gob (A : Type) := {
  gob_encode : A → list byte;
  gob_decode : list byte → option A;
  gob_roundtrip : ∀ a, gob_decode (gob_encode a) = Some a;
  gob_nonempty : ∀ a, gob_encode a ≠ []
}.

(** A concrete serializer for every countable type, so that the hypotheses of
    [Gob] are inhabited and the model runs: one byte per bit of stdpp's
    [encode], most significant bit last. *)

Fixpoint pos_bytes (p : positive) : list byte :=
  match p with
  | xH => [x00]
  | xO p' => x01 :: pos_bytes p'
  | xI p' => x02 :: pos_bytes p'
  end.

Fixpoint bytes_pos (l : list byte) : option positive :=
  match l with
  | x00 :: _ => Some xH
  | x01 :: l' => xO <$> bytes_pos l'
  | x02 :: l' => xI <$> bytes_pos l'
  | _ => None
  end.

Lemma bytes_pos_bytes p : bytes_pos (pos_bytes p) = Some p.
Proof. by induction p as [p IH|p IH|]; simpl; rewrite ?IH. Qed.

#[export] Program Instance gob_countable `{Countable A} : Gob A := {
  gob_encode a := pos_bytes (encode a);
  gob_decode l := bytes_pos l ≫= decode
}.
Next Obligation. intros. simpl. by rewrite bytes_pos_bytes; simpl; rewrite decode_encode. Qed.
Next Obligation. intros A ?? a. simpl. by destruct (encode a). Qed.

(** ** Quorums of a set of [n] servers *)

Definition ids (n : Z) : gset Z := list_to_set (seqZ 0 n).

Lemma elem_of_ids n p : p ∈ ids n ↔ (0 ≤ p < n)%Z.
Proof. unfold ids. rewrite elem_of_list_to_set, elem_of_seqZ. lia. Qed.

Lemma size_ids n : (0 ≤ n)%Z → Z.of_nat (size (ids n)) = n.
Proof.
  intros Hn. unfold ids. rewrite size_list_to_set by apply NoDup_seqZ.
  rewrite length_seqZ. lia.
Qed.

(** Two sets of servers that each hold more than half of them meet. *)
Lemma quorum_meet n (Q1 Q2 : gset Z) :
  (0 ≤ n)%Z → Q1 ⊆ ids n → Q2 ⊆ ids n →
  (n / 2 < Z.of_nat (size Q1))%Z → (n / 2 < Z.of_nat (size Q2))%Z →
  ∃ p, p ∈ Q1 ∧ p ∈ Q2.
Proof.
  intros Hn H1 H2 Hs1 Hs2.
  destruct (decide (Q1 ∩ Q2 ≡ ∅)) as [He|Hne].
  - exfalso. assert (Q1 ## Q2) as Hd by set_solver.
    pose proof (size_union Q1 Q2 Hd) as Hsz.
    assert (size (Q1 ∪ Q2) ≤ size (ids n)) as Hle by (apply subseteq_size; set_solver).
    pose proof (size_ids n Hn). pose proof (Z.div_mod n 2). pose proof (Z.mod_pos_bound n 2). lia.
  - apply set_choose in Hne as [p Hp]. exists p. set_solver.
Qed.

(** ** Search *)

Lemma least_nat (P : nat → Prop) `{!∀ k, Decision (P k)} (k : nat) :
  P k → ∃ m, m ≤ k ∧ P m ∧ ∀ j, j < m → ¬ P j.
Proof.
  assert ((∃ m, m ≤ k ∧ P m ∧ ∀ j, j < m → ¬ P j) ∨ ∀ j, j ≤ k → ¬ P j) as [?|Hno];
    [|done|intros Hk; by destruct (Hno k)].
  induction k as [|k [(m & Hm & HP)|Hno]].
  - destruct (decide (P 0)); [left; exists 0|right; intros j Hj; by replace j with 0 by lia].
    split_and!; [lia|done|lia].
  - left. exists m. split; [lia|done].
  - destruct (decide (P (S k))).
    + left. exists (S k). split_and!; [lia|done|]. intros j Hj. apply Hno. lia.
    + right. intros j Hj. destruct (decide (j = S k)) as [->|]; [done|]. apply Hno. lia.
Qed.

(** Every position is on the round from any other. *)
Lemma round_reaches (n c p : Z) :
  (0 ≤ p < n)%Z → ∃ k : nat, (Z.of_nat k < n)%Z ∧ ((c + Z.of_nat k) mod n = p)%Z.
Proof.
  intros Hp. exists (Z.to_nat ((p - c) mod n)).
  pose proof (Z.mod_pos_bound (p - c) n ltac:(lia)). rewrite Z2Nat.id by lia. split; [lia|].
  rewrite Z.add_mod_idemp_r by lia. replace (c + (p - c))%Z with p by lia. by apply Z.mod_small.
Qed.

(** ** Order of elements in a list *)

Lemma sublist_pair {A} (l : list A) x y :
  [x; y] `sublist_of` l ↔ ∃ i j, i < j ∧ l !! i = Some x ∧ l !! j = Some y.
Proof.
  rewrite sublist_cons_l. setoid_rewrite singleton_sublist_l. split.
  - intros (k1 & k2 & -> & [j Hj]%list_elem_of_lookup). exists (length k1), (length k1 + S j).
    split_and!; [lia|by apply list_lookup_middle|]. by rewrite lookup_app_r, Nat.add_comm, Nat.add_sub by lia.
  - intros (i & j & Hij & Hi & Hj). exists (take i l), (drop (S i) l).
    split; [by rewrite take_drop_middle|]. apply list_elem_of_lookup. exists (j - S i).
    rewrite lookup_drop. by replace (S i + (j - S i)) with j by lia.
Qed.

Lemma sublist_pair_asym {A} (l : list A) x y :
  NoDup l → [x; y] `sublist_of` l → [y; x] `sublist_of` l → False.
Proof.
  rewrite !sublist_pair. intros Hnd (i & j & Hij & Hi & Hj) (i' & j' & Hij' & Hi' & Hj').
  pose proof (NoDup_lookup _ _ _ _ Hnd Hi Hj'). pose proof (NoDup_lookup _ _ _ _ Hnd Hj Hi'). lia.
Qed.

Lemma sublist_pair_total {A} (l : list A) x y :
  x ∈ l → y ∈ l → x ≠ y → [x; y] `sublist_of` l ∨ [y; x] `sublist_of` l.
Proof.
  rewrite !sublist_pair. intros [i Hi]%list_elem_of_lookup [j Hj]%list_elem_of_lookup Hne.
  destruct (Nat.lt_trichotomy i j) as [?|[->|?]]; [left; eauto| |right; eauto 6]. congruence.
Qed.

Lemma sublist_pair_before {A} (l1 l2 : list A) x y :
  NoDup (l1 ++ y :: l2) → [x; y] `sublist_of` l1 ++ y :: l2 → x ∈ l1.
Proof.
  intros Hnd (i & j & Hij & Hi & Hj)%sublist_pair.
  assert (j = length l1) as -> by (eapply NoDup_lookup; [done|done|]; by apply list_lookup_middle).
  rewrite lookup_app_l in Hi by done. by eapply list_elem_of_lookup_2.
Qed.

Lemma sublist_pair_split {A} (l1 l2 : list A) x y :
  NoDup (l1 ++ x :: l2) → [x; y] `sublist_of` l1 ++ x :: l2 → y ∈ l2.
Proof.
  intros Hnd (i & j & Hij & Hi & Hj)%sublist_pair.
  assert (i = length l1) as -> by (eapply NoDup_lookup; [done|done|]; by apply list_lookup_middle).
  rewrite lookup_app_r in Hj by lia. apply list_elem_of_lookup.
  exists (j - length l1 - 1). by replace (j - length l1) with (S (j - length l1 - 1)) in Hj by lia.
Qed.

Lemma filter_all {A} (P : A → Prop) `{!∀ x, Decision (P x)} (l : list A) : (∀ x, x ∈ l → P x) → filter P l = l.
Proof.
  induction l as [|x l IH]; intros Hl; [done|]. rewrite filter_cons_True by (apply Hl; set_solver).
  f_equal. apply IH. set_solver.
Qed.
