(* ===== verification/Persister.v ===== *)
(** * Stable storage of one server (raft/persister.go)

    A [Persister] holds the last saved Raft state and the last saved service
    snapshot.  Every method runs under the persister's own mutex, so each is
    one function on the pair. *)

From S2P Require Import Prelude.

Record Persister := mkPersister {
  raftstate : list byte;
  snapshot : list byte
}.

Definition MakePersister : Persister := mkPersister [] [].

(** [clone] copies a byte slice: a fresh slice with the same contents. *)
Definition clone (orig : list byte) : list byte :=
  take (length orig) orig.

Definition Copy (ps : Persister) : Persister :=
  mkPersister (raftstate ps) (snapshot ps).

Definition SaveRaftState (st : list byte) (ps : Persister) : Persister :=
  mkPersister (clone st) (snapshot ps).

Definition ReadRaftState (ps : Persister) : list byte := clone (raftstate ps).

Definition RaftStateSize (ps : Persister) : Z := zlen (raftstate ps).

Definition SaveStateAndSnapshot (st snap : list byte) (ps : Persister) : Persister :=
  mkPersister (clone st) (clone snap).

Definition ReadSnapshot (ps : Persister) : list byte := clone (snapshot ps).

Definition SnapshotSize (ps : Persister) : Z := zlen (snapshot ps).

Lemma clone_eq l : clone l = l.
Proof. unfold clone. by apply take_ge. Qed.

Lemma read_after_save st ps : ReadRaftState (SaveRaftState st ps) = st.
Proof. unfold ReadRaftState, SaveRaftState. simpl. by rewrite !clone_eq. Qed.

Lemma read_after_save_both st snap ps :
  ReadRaftState (SaveStateAndSnapshot st snap ps) = st ∧
  ReadSnapshot (SaveStateAndSnapshot st snap ps) = snap.
Proof. unfold ReadRaftState, ReadSnapshot; simpl. by rewrite !clone_eq. Qed.

Lemma snapshot_survives_save st ps :
  ReadSnapshot (SaveRaftState st ps) = ReadSnapshot ps.
Proof. done. Qed.
