(* ===== verification/RaftTypes.v ===== *)
(** * The Raft peer: data, indices, persistence, construction (raft/raft.go)

    The record [Raft] has the fields of the Go struct.  [peers] is the number
    of peers ([len(rf.peers)], the code uses the slice only for its length and
    to send), [applyCh] is modelled where messages are sent ([RaftNet]), and
    the mutex is the atomicity of each definition below: a definition is the
    code between one [rf.mu.Lock()] and the matching [rf.mu.Unlock()].  Go's
    64-bit [int]s are [Z]: terms and log indices only grow by one at a time
    from 0, so they do not reach 2^63.  [time.Now()] is an argument. *)

From S2P Require Import Prelude Persister.

(** The roles as the code numbers them in [rf.state]. *)
Definition Leader : Z := 0.
Definition Candidate : Z := 1.
Definition Follower : Z := 2.

Section types.
Context (Cmd : Type).

(** [Command] is an [interface{}]: [None] is Go's [nil]. *)
Record LogEntry := mkLogEntry {
  Term : Z;
  Command : option Cmd
}.

Record ApplyMsg := mkApplyMsg {
  CommandValid : bool;
  MsgCommand : option Cmd;
  CommandIndex : Z;
  SnapshotValid : bool;
  Snapshot_ : list byte;
  SnapshotTerm : Z;
  SnapshotIndex : Z
}.

Record Raft := mkRaft {
  peers : Z;
  me : Z;
  persister : Persister;
  dead : Z;
  currLeader : Z;
  currTerm : Z;
  votedFor : Z;
  state : Z;
  logs : list LogEntry;
  timer : Z;
  lastIncludedIndex : Z;
  lastIncludedTerm : Z;
  commitIndex : Z;
  lastApplied : Z;
  nextIndex : list Z;
  matchIndex : list Z
}.

Record RequestVoteArgs := mkRequestVoteArgs {
  rva_Term : Z;
  rva_CandidateId : Z;
  rva_LastLogIndex : Z;
  rva_LastLogTerm : Z
}.

Record RequestVoteReply := mkRequestVoteReply {
  rvr_Term : Z;
  rvr_VoteGranted : bool
}.

Record AppendEntriesArgs := mkAppendEntriesArgs {
  aea_Term : Z;
  aea_LeaderId : Z;
  aea_PrevLogIndex : Z;
  aea_PrevLogTerm : Z;
  aea_Entries : list LogEntry;
  aea_LeaderCommit : Z
}.

Record AppendEntriesReply := mkAppendEntriesReply {
  aer_Success : bool;
  aer_Term : Z;
  aer_ConflictIndex : Z;
  aer_ConflictTerm : Z
}.

Record InstallSnapshotArgs := mkInstallSnapshotArgs {
  isa_Term : Z;
  isa_LeaderId : Z;
  isa_LastIncludedIndex : Z;
  isa_LastIncludedTerm : Z;
  isa_Offset : Z;
  isa_Data : list byte;
  isa_Done : bool
}.

Record InstallSnapshotReply := mkInstallSnapshotReply {
  isr_Term : Z
}.
End types.

Arguments mkLogEntry {Cmd}.
Arguments Term {Cmd}.
Arguments Command {Cmd}.
Arguments mkApplyMsg {Cmd}.
Arguments CommandValid {Cmd}.
Arguments MsgCommand {Cmd}.
Arguments CommandIndex {Cmd}.
Arguments SnapshotValid {Cmd}.
Arguments Snapshot_ {Cmd}.
Arguments SnapshotTerm {Cmd}.
Arguments SnapshotIndex {Cmd}.
Arguments mkRaft {Cmd}.
Arguments peers {Cmd}.
Arguments me {Cmd}.
Arguments persister {Cmd}.
Arguments dead {Cmd}.
Arguments currLeader {Cmd}.
Arguments currTerm {Cmd}.
Arguments votedFor {Cmd}.
Arguments state {Cmd}.
Arguments logs {Cmd}.
Arguments timer {Cmd}.
Arguments lastIncludedIndex {Cmd}.
Arguments lastIncludedTerm {Cmd}.
Arguments commitIndex {Cmd}.
Arguments lastApplied {Cmd}.
Arguments nextIndex {Cmd}.
Arguments matchIndex {Cmd}.
Arguments mkAppendEntriesArgs {Cmd}.
Arguments aea_Term {Cmd}.
Arguments aea_LeaderId {Cmd}.
Arguments aea_PrevLogIndex {Cmd}.
Arguments aea_PrevLogTerm {Cmd}.
Arguments aea_Entries {Cmd}.
Arguments aea_LeaderCommit {Cmd}.

(** The zero value of the reply structs, as the callers allocate them. *)
Definition zero_RequestVoteReply := mkRequestVoteReply 0 false.
Definition zero_AppendEntriesReply := mkAppendEntriesReply false 0 0 0.
Definition zero_InstallSnapshotReply := mkInstallSnapshotReply 0.

(** ** Field updates *)

Section setters.
Context {Cmd : Type}.
Implicit Types rf : Raft Cmd.

Definition set_persister (v : Persister) rf : Raft Cmd :=
  mkRaft (peers rf) (me rf) v (dead rf) (currLeader rf) (currTerm rf) (votedFor rf)
    (state rf) (logs rf) (timer rf) (lastIncludedIndex rf) (lastIncludedTerm rf)
    (commitIndex rf) (lastApplied rf) (nextIndex rf) (matchIndex rf).
Definition set_dead (v : Z) rf : Raft Cmd :=
  mkRaft (peers rf) (me rf) (persister rf) v (currLeader rf) (currTerm rf) (votedFor rf)
    (state rf) (logs rf) (timer rf) (lastIncludedIndex rf) (lastIncludedTerm rf)
    (commitIndex rf) (lastApplied rf) (nextIndex rf) (matchIndex rf).
Definition set_currLeader (v : Z) rf : Raft Cmd :=
  mkRaft (peers rf) (me rf) (persister rf) (dead rf) v (currTerm rf) (votedFor rf)
    (state rf) (logs rf) (timer rf) (lastIncludedIndex rf) (lastIncludedTerm rf)
    (commitIndex rf) (lastApplied rf) (nextIndex rf) (matchIndex rf).
Definition set_currTerm (v : Z) rf : Raft Cmd :=
  mkRaft (peers rf) (me rf) (persister rf) (dead rf) (currLeader rf) v (votedFor rf)
    (state rf) (logs rf) (timer rf) (lastIncludedIndex rf) (lastIncludedTerm rf)
    (commitIndex rf) (lastApplied rf) (nextIndex rf) (matchIndex rf).
Definition set_votedFor (v : Z) rf : Raft Cmd :=
  mkRaft (peers rf) (me rf) (persister rf) (dead rf) (currLeader rf) (currTerm rf) v
    (state rf) (logs rf) (timer rf) (lastIncludedIndex rf) (lastIncludedTerm rf)
    (commitIndex rf) (lastApplied rf) (nextIndex rf) (matchIndex rf).
Definition set_state (v : Z) rf : Raft Cmd :=
  mkRaft (peers rf) (me rf) (persister rf) (dead rf) (currLeader rf) (currTerm rf)
    (votedFor rf) v (logs rf) (timer rf) (lastIncludedIndex rf) (lastIncludedTerm rf)
    (commitIndex rf) (lastApplied rf) (nextIndex rf) (matchIndex rf).
Definition set_logs (v : list (LogEntry Cmd)) rf : Raft Cmd :=
  mkRaft (peers rf) (me rf) (persister rf) (dead rf) (currLeader rf) (currTerm rf)
    (votedFor rf) (state rf) v (timer rf) (lastIncludedIndex rf) (lastIncludedTerm rf)
    (commitIndex rf) (lastApplied rf) (nextIndex rf) (matchIndex rf).
Definition set_timer (v : Z) rf : Raft Cmd :=
  mkRaft (peers rf) (me rf) (persister rf) (dead rf) (currLeader rf) (currTerm rf)
    (votedFor rf) (state rf) (logs rf) v (lastIncludedIndex rf) (lastIncludedTerm rf)
    (commitIndex rf) (lastApplied rf) (nextIndex rf) (matchIndex rf).
Definition set_lastIncludedIndex (v : Z) rf : Raft Cmd :=
  mkRaft (peers rf) (me rf) (persister rf) (dead rf) (currLeader rf) (currTerm rf)
    (votedFor rf) (state rf) (logs rf) (timer rf) v (lastIncludedTerm rf)
    (commitIndex rf) (lastApplied rf) (nextIndex rf) (matchIndex rf).
Definition set_lastIncludedTerm (v : Z) rf : Raft Cmd :=
  mkRaft (peers rf) (me rf) (persister rf) (dead rf) (currLeader rf) (currTerm rf)
    (votedFor rf) (state rf) (logs rf) (timer rf) (lastIncludedIndex rf) v
    (commitIndex rf) (lastApplied rf) (nextIndex rf) (matchIndex rf).
Definition set_commitIndex (v : Z) rf : Raft Cmd :=
  mkRaft (peers rf) (me rf) (persister rf) (dead rf) (currLeader rf) (currTerm rf)
    (votedFor rf) (state rf) (logs rf) (timer rf) (lastIncludedIndex rf)
    (lastIncludedTerm rf) v (lastApplied rf) (nextIndex rf) (matchIndex rf).
Definition set_lastApplied (v : Z) rf : Raft Cmd :=
  mkRaft (peers rf) (me rf) (persister rf) (dead rf) (currLeader rf) (currTerm rf)
    (votedFor rf) (state rf) (logs rf) (timer rf) (lastIncludedIndex rf)
    (lastIncludedTerm rf) (commitIndex rf) v (nextIndex rf) (matchIndex rf).
Definition set_nextIndex (v : list Z) rf : Raft Cmd :=
  mkRaft (peers rf) (me rf) (persister rf) (dead rf) (currLeader rf) (currTerm rf)
    (votedFor rf) (state rf) (logs rf) (timer rf) (lastIncludedIndex rf)
    (lastIncludedTerm rf) (commitIndex rf) (lastApplied rf) v (matchIndex rf).
Definition set_matchIndex (v : list Z) rf : Raft Cmd :=
  mkRaft (peers rf) (me rf) (persister rf) (dead rf) (currLeader rf) (currTerm rf)
    (votedFor rf) (state rf) (logs rf) (timer rf) (lastIncludedIndex rf)
    (lastIncludedTerm rf) (commitIndex rf) (lastApplied rf) (nextIndex rf) v.
End setters.

Section basics.
Context {Cmd : Type}.
Implicit Types rf : Raft Cmd.

(** ** Index arithmetic: logical indices count from the start of the history,
    physical ones from the start of the (compacted) slice [rf.logs]. *)

Definition getPhysicalIndex rf (logicalIndex : Z) : Z :=
  (logicalIndex - lastIncludedIndex rf)%Z.

Definition getLogicalIndex rf (physicalIndex : Z) : Z :=
  (physicalIndex + lastIncludedIndex rf)%Z.

Definition lastLogicalIndex rf : Z :=
  (lastIncludedIndex rf + zlen (logs rf) - 1)%Z.

Definition go_min (a b : Z) : Z := if (a <? b)%Z then a else b.
Definition go_max (a b : Z) : Z := if (a >? b)%Z then a else b.

Lemma go_min_eq a b : go_min a b = Z.min a b.
Proof. unfold go_min. destruct (Z.ltb_spec a b); lia. Qed.

Lemma go_max_eq a b : go_max a b = Z.max a b.
Proof. unfold go_max. destruct (Z.gtb_spec a b); lia. Qed.

Definition GetState rf : Z * bool := (currTerm rf, (state rf =? Leader)%Z).

Definition Kill rf : Raft Cmd := set_dead 1 rf.
Definition killed rf : bool := (dead rf =? 1)%Z.

(** [rf.peers] as the index range of [for peer := range rf.peers]. *)
Definition peer_range rf : list Z := seqZ 0 (peers rf).
End basics.

(** ** Persistence

    [persist] and [readPersist] write and read five values with one gob
    encoder: current term, vote, log, and the index and term of the last
    entry of the snapshot. *)

Definition PersistentState (Cmd : Type) : Type :=
  (Z * Z * list (LogEntry Cmd) * Z * Z)%type.

Section persistence.
Context {Cmd : Type} `{!Gob (PersistentState Cmd)}.
Implicit Types rf : Raft Cmd.

Definition persistent rf : PersistentState Cmd :=
  (currTerm rf, votedFor rf, logs rf, lastIncludedIndex rf, lastIncludedTerm rf).

Definition persist rf : Raft Cmd :=
  set_persister (SaveRaftState (gob_encode (persistent rf)) (persister rf)) rf.

(** The [SaveStateAndSnapshot] blocks that end [Snapshot] and
    [InstallSnapshot]. *)
Definition persistWithSnapshot (data : list byte) rf : Raft Cmd :=
  set_persister
    (SaveStateAndSnapshot (gob_encode (persistent rf)) data (persister rf)) rf.

Definition readPersist (data : list byte) rf : Raft Cmd :=
  if bool_decide (length data < 1) then rf
  else
    let rf1 :=
      match gob_decode (A := PersistentState Cmd) data with
      | None => rf
      | Some (term, voted, lg, lii, lit) =>
          set_lastIncludedTerm lit (set_lastIncludedIndex lii
            (set_logs lg (set_votedFor voted (set_currTerm term rf))))
      end in
    if (lastIncludedIndex rf1 >? 0)%Z
    then set_lastApplied (lastIncludedIndex rf1)
           (set_commitIndex (lastIncludedIndex rf1) rf1)
    else rf1.

(** [Make]: the peer it returns and, when a snapshot was saved, the message
    its first goroutine sends on [applyCh]. *)
Definition Make (n self : Z) (ps : Persister) (now : Z) : Raft Cmd * option (ApplyMsg Cmd) :=
  let rf0 := mkRaft n self ps 0 0 0 (-1) Follower [mkLogEntry 0 None] now 0 0 0 0
               (replicate (Z.to_nat n) 0%Z) (replicate (Z.to_nat n) 0%Z) in
  let rf1 := readPersist (ReadRaftState ps) rf0 in
  let rf2 :=
    if (lastIncludedIndex rf1 >? 0)%Z
    then set_lastApplied (lastIncludedIndex rf1)
           (set_commitIndex (lastIncludedIndex rf1) rf1)
    else rf1 in
  (rf2,
   if bool_decide (0 < length (ReadSnapshot ps))
   then Some (mkApplyMsg false None 0 true (ReadSnapshot ps)
                (lastIncludedTerm rf2) (lastIncludedIndex rf2))
   else None).

(** [Persist]: the exported, locking version. *)
Definition Persist rf : Raft Cmd := persist rf.

(** ** The persistence invariant

    What is on disk is what a restart needs: either nothing was ever saved
    and the five persistent fields still have their initial values, or the
    saved bytes decode to the five fields. *)

Definition synced rf : Prop :=
  (raftstate (persister rf) = [] ∧ persistent rf = (0, -1, [mkLogEntry 0 None], 0, 0)%Z) ∨
  (raftstate (persister rf) ≠ [] ∧ gob_decode (raftstate (persister rf)) = Some (persistent rf)).

Lemma synced_persist rf : synced (persist rf).
Proof.
  right. unfold persist; simpl. rewrite clone_eq. split; [apply gob_nonempty|].
  apply gob_roundtrip.
Qed.

Lemma synced_persistWithSnapshot data rf : synced (persistWithSnapshot data rf).
Proof.
  right. unfold persistWithSnapshot; simpl. rewrite clone_eq. split; [apply gob_nonempty|].
  apply gob_roundtrip.
Qed.

(** [synced] only looks at the persister and the persistent fields. *)
Lemma synced_ext rf rf' :
  persister rf' = persister rf → persistent rf' = persistent rf → synced rf → synced rf'.
Proof. intros H1 H2. unfold synced. by rewrite H1, H2. Qed.

(** A restart from a synced persister gives the five fields back. *)
Lemma Make_persistent n self rf now :
  synced rf → persistent (Make n self (persister rf) now).1 = persistent rf.
Proof.
  intros Hs. unfold Make, readPersist, ReadRaftState. rewrite clone_eq. simpl.
  destruct Hs as [[H1 H2]|[H1 H2]].
  - rewrite H1, H2. simpl. done.
  - rewrite bool_decide_false by (destruct (raftstate (persister rf)); simpl; [done|lia]).
    rewrite H2. unfold persistent at 1. simpl.
    case_all; done.
Qed.

Lemma Make_synced n self rf now :
  synced rf → synced (Make n self (persister rf) now).1.
Proof.
  intros Hs. apply (synced_ext rf); [|by apply Make_persistent|done].
  unfold Make, readPersist; simpl. case_all; done.
Qed.
End persistence.

#[export] Instance LogEntry_eq_dec `{EqDecision Cmd} : EqDecision (LogEntry Cmd).
Proof. solve_decision. Defined.

#[export] Instance LogEntry_countable `{Countable Cmd} : Countable (LogEntry Cmd).
Proof.
  refine (inj_countable' (λ e, (Term e, Command e)) (λ p, mkLogEntry p.1 p.2) _).
  by intros [].
Defined.

(** The concrete serializer of [Prelude] at the persistent fields. *)
#[export] Instance PersistentState_gob `{Countable Cmd} : Gob (PersistentState Cmd) :=
  gob_countable (A := (Z * Z * list (LogEntry Cmd) * Z * Z)).
