(* ===== verification/RaftHandlers.v ===== *)
(** * RPC handlers and service calls of a Raft peer (raft/raft.go)

    [RequestVote], [AppendEntries], [InstallSnapshot], [Snapshot], [Start].
    Each handler holds the peer's mutex from its first to its last line, so it
    is one function from the peer's state to [None] (a run-time panic) or the
    new state with the reply. *)

From S2P Require Import Prelude Persister RaftTypes.

Section handlers.
Context {Cmd : Type} `{!Gob (PersistentState Cmd)}.
Implicit Types rf : Raft Cmd.

(** ** RequestVote *)

(** The step-down block: a higher term makes the peer a follower without a
    vote, and is persisted. *)
Definition RequestVote_stepdown (args : RequestVoteArgs) rf : Raft Cmd :=
  if (rva_Term args >? currTerm rf)%Z
  then persist (set_currTerm (rva_Term args) (set_votedFor (-1) (set_state Follower rf)))
  else rf.

Definition RequestVote (now : Z) (args : RequestVoteArgs) rf
    : option (Raft Cmd * RequestVoteReply) :=
  let rf1 := RequestVote_stepdown args rf in
  let rterm := currTerm rf1 in
  if (rva_Term args <? rterm)%Z then Some (rf1, mkRequestVoteReply rterm false)
  else if (votedFor rf1 =? -1)%Z || (votedFor rf1 =? rva_CandidateId args)%Z then
    lastlog ← go_nth (logs rf1) (getPhysicalIndex rf1 (lastLogicalIndex rf1));
    if (rva_LastLogTerm args >? Term lastlog)%Z ||
       ((rva_LastLogTerm args =? Term lastlog)%Z &&
        (rva_LastLogIndex args >=? lastLogicalIndex rf1)%Z)
    then
      let rf2 := persist (set_votedFor (rva_CandidateId args) rf1) in
      Some (set_state Follower (set_timer now rf2), mkRequestVoteReply rterm true)
    else Some (rf1, mkRequestVoteReply rterm false)
  else Some (rf1, mkRequestVoteReply rterm false).

(** ** AppendEntries *)

(** [for i := args.PrevLogIndex; i > rf.lastIncludedIndex; i--]: [k] is
    [i - lastIncludedIndex], [ci] the value of [reply.ConflictIndex] so far. *)
Fixpoint conflict_scan rf (ct : Z) (k : nat) (ci : Z) : option Z :=
  match k with
  | O => Some ci
  | S k' =>
      let i := (lastIncludedIndex rf + Z.of_nat k)%Z in
      e ← go_nth (logs rf) (getPhysicalIndex rf i);
      if (Term e =? ct)%Z then conflict_scan rf ct k' i else Some ci
  end.

(** [for i, entry := range args.Entries]: the value of [rf.logs] after the
    loop, started at [currIndex] with [entries = args.Entries[i:]]. *)
Fixpoint sync_logs rf (currIndex : Z) (entries : list (LogEntry Cmd))
    : option (list (LogEntry Cmd)) :=
  match entries with
  | [] => Some (logs rf)
  | entry :: rest =>
      if (currIndex <=? lastLogicalIndex rf)%Z then
        e ← go_nth (logs rf) (getPhysicalIndex rf currIndex);
        if negb (Term e =? Term entry)%Z then
          kept ← go_upto (logs rf) (getPhysicalIndex rf currIndex);
          Some (kept ++ entries)
        else sync_logs rf (currIndex + 1) rest
      else Some (logs rf ++ entries)
  end.

(** Role, timer, leader and term once the request's term was accepted. *)
Definition AppendEntries_accept (now : Z) (args : AppendEntriesArgs Cmd) rf : Raft Cmd :=
  let rf1 := set_currLeader (aea_LeaderId args) (set_timer now (set_state Follower rf)) in
  if (aea_Term args >? currTerm rf1)%Z
  then persist (set_currTerm (aea_Term args) (set_votedFor (-1) rf1))
  else rf1.

Definition AppendEntries (now : Z) (args : AppendEntriesArgs Cmd) rf
    : option (Raft Cmd * AppendEntriesReply) :=
  if (aea_Term args <? currTerm rf)%Z
  then Some (rf, mkAppendEntriesReply false (currTerm rf) 0 0)
  else
    let rf1 := AppendEntries_accept now args rf in
    if (aea_PrevLogIndex args >? lastLogicalIndex rf1)%Z
    then Some (rf1, mkAppendEntriesReply false 0 (lastLogicalIndex rf1 + 1) (-1))
    else if (aea_PrevLogIndex args <? lastIncludedIndex rf1)%Z
    then Some (rf1, mkAppendEntriesReply false (currTerm rf1) (lastIncludedIndex rf1 + 1) (-1))
    else
      prev ← go_nth (logs rf1) (getPhysicalIndex rf1 (aea_PrevLogIndex args));
      if negb (aea_PrevLogTerm args =? Term prev)%Z then
        ci ← conflict_scan rf1 (Term prev)
               (Z.to_nat (aea_PrevLogIndex args - lastIncludedIndex rf1)) 0;
        Some (rf1, mkAppendEntriesReply false 0 ci (Term prev))
      else
        newlogs ← sync_logs rf1 (aea_PrevLogIndex args + 1) (aea_Entries args);
        let rf2 := persist (set_logs newlogs rf1) in
        let rf3 :=
          if (aea_LeaderCommit args >? commitIndex rf2)%Z
          then set_commitIndex (go_min (aea_LeaderCommit args) (lastLogicalIndex rf2)) rf2
          else rf2 in
        Some (rf3, mkAppendEntriesReply true 0 0 0).

(** ** InstallSnapshot *)

(** [for i := range rf.logs]: the last position whose logical index and term
    are the snapshot's ([splitIdx], with [hasFound] as the [option]). *)
Fixpoint find_split rf (args : InstallSnapshotArgs) (i : Z) (l : list (LogEntry Cmd))
    (found : option Z) : option Z :=
  match l with
  | [] => found
  | e :: l' =>
      find_split rf args (i + 1) l'
        (if (getLogicalIndex rf i =? isa_LastIncludedIndex args)%Z &&
            (Term e =? isa_LastIncludedTerm args)%Z
         then Some i else found)
  end.

(** The peer after the handler, the reply, and the message that the handler's
    goroutine will send on [applyCh]. *)
Definition InstallSnapshot (now : Z) (args : InstallSnapshotArgs) rf
    : option (Raft Cmd * InstallSnapshotReply * option (ApplyMsg Cmd)) :=
  if (currTerm rf >? isa_Term args)%Z
  then Some (rf, mkInstallSnapshotReply (currTerm rf), None)
  else
    let rf1 := set_currLeader (isa_LeaderId args) (set_timer now (set_state Follower rf)) in
    let rf2 :=
      if (isa_Term args >? currTerm rf1)%Z
      then persist (set_votedFor (-1) (set_currTerm (isa_Term args) rf1))
      else rf1 in
    let reply := mkInstallSnapshotReply (currTerm rf2) in
    if (lastIncludedIndex rf2 >=? isa_LastIncludedIndex args)%Z
    then Some (rf2, reply, None)
    else
      newlogs ←
        match find_split rf2 args 0 (logs rf2) None with
        | Some splitIdx =>
            rest ← go_from (logs rf2) (splitIdx + 1);
            Some (mkLogEntry (isa_LastIncludedTerm args) None :: rest)
        | None => Some [mkLogEntry (isa_LastIncludedTerm args) None]
        end;
      let rf3 :=
        set_lastApplied (go_max (isa_LastIncludedIndex args) (lastApplied rf2))
          (set_commitIndex (go_max (isa_LastIncludedIndex args) (commitIndex rf2))
            (set_lastIncludedTerm (isa_LastIncludedTerm args)
              (set_lastIncludedIndex (isa_LastIncludedIndex args)
                (set_currTerm (isa_Term args) (set_logs newlogs rf2))))) in
      let rf4 := persistWithSnapshot (isa_Data args) rf3 in
      Some (rf4, reply,
            Some (mkApplyMsg false None 0 true (isa_Data args)
                    (lastIncludedTerm rf4) (lastIncludedIndex rf4))).

(** ** Snapshot, CondInstallSnapshot, Start *)

Definition CondInstallSnapshot (lit lii : Z) (snap : list byte) rf : bool := true.

Definition Snapshot (index : Z) (snap : list byte) rf : option (Raft Cmd) :=
  if (index <=? lastIncludedIndex rf)%Z then Some rf
  else
    e ← go_nth (logs rf) (getPhysicalIndex rf index);
    newlogs ←
      (if (getPhysicalIndex rf index + 1 <? zlen (logs rf))%Z
       then rest ← go_from (logs rf) (getPhysicalIndex rf (index + 1));
            Some (mkLogEntry (Term e) None :: rest)
       else Some [mkLogEntry (Term e) None]);
    let rf1 := set_lastIncludedIndex index (set_logs newlogs (set_lastIncludedTerm (Term e) rf)) in
    let rf2 := set_lastApplied (go_max index (lastApplied rf1)) rf1 in
    Some (persistWithSnapshot snap rf2).

(** [Start]: on [true] the code also starts [replicationLog]. *)
Definition Start (command : Cmd) rf : Raft Cmd * (Z * Z * bool) :=
  if negb (state rf =? Leader)%Z then (rf, (-1, -1, false)%Z)
  else
    let index := (lastLogicalIndex rf + 1)%Z in
    (persist (set_logs (logs rf ++ [mkLogEntry (currTerm rf) (Some command)]) rf),
     (index, currTerm rf, true)).
End handlers.

(** Conversion unfolds the sections before the primitives they are made of. *)
#[global] Strategy expand [RequestVote_stepdown RequestVote conflict_scan sync_logs
  AppendEntries_accept AppendEntries find_split InstallSnapshot Snapshot Start].
