(* ===== verification/RaftLeader.v ===== *)
(** * Elections, replication, commitment and delivery (raft/raft.go)

    The goroutines of a Raft peer.  Each definition is one critical section:
    the code that a goroutine runs between taking and releasing the mutex.
    [RaftNet] puts the sections back together as goroutines. *)

From S2P Require Import Prelude Persister RaftTypes.

Section leader.
Context {Cmd : Type} `{!Gob (PersistentState Cmd)}.
Implicit Types rf : Raft Cmd.

(** ** Elections *)

(** [ticker]: after sleeping for [timeout]. *)
Definition ticker_need (now timeout : Z) rf : bool :=
  negb (state rf =? Leader)%Z && (now - timer rf >? timeout)%Z.

(** [randomElectionTimeout] is 500 to 999 milliseconds (in nanoseconds). *)
Definition electionTimeout_ok (timeout : Z) : bool :=
  (500 * 1000000 <=? timeout)%Z && (timeout <? 1000 * 1000000)%Z &&
  (timeout mod 1000000 =? 0)%Z.

(** First section of [startElection]; the vote counter starts at 1. *)
Definition startElection (now : Z) rf : option (Raft Cmd * RequestVoteArgs) :=
  let rf1 :=
    persist (set_state Candidate (set_timer now
      (set_votedFor (me rf) (set_currTerm (currTerm rf + 1)%Z rf)))) in
  lastlog ← go_nth (logs rf1) (getPhysicalIndex rf1 (lastLogicalIndex rf1));
  Some (rf1, mkRequestVoteArgs (currTerm rf1) (me rf1) (lastLogicalIndex rf1) (Term lastlog)).

(** The tail of a vote goroutine: a reply with a higher term deposes. *)
Definition vote_termCheck (reply : RequestVoteReply) rf : Raft Cmd :=
  if (rvr_Term reply >? currTerm rf)%Z
  then persist (set_votedFor (-1) (set_state Follower (set_currTerm (rvr_Term reply) rf)))
  else rf.

(** A vote goroutine after its [Call] returned: the peer, the shared counter
    [votes], and whether the goroutine goes on to call [becomeLeader]. *)
Definition vote_reply (startTerm votes : Z) (reply : RequestVoteReply) rf
    : Raft Cmd * Z * bool :=
  if negb (state rf =? Candidate)%Z || negb (currTerm rf =? startTerm)%Z
  then (rf, votes, false)
  else if rvr_VoteGranted reply then
    if (votes + 1 >? peers rf / 2)%Z then (rf, (votes + 1)%Z, true)
    else (vote_termCheck reply rf, (votes + 1)%Z, false)
  else (vote_termCheck reply rf, votes, false).

(** [becomeLeader]; the flag says whether [broadcastHeartbeat] is started. *)
Definition becomeLeader (electionTerm : Z) rf : option (Raft Cmd * bool) :=
  if negb (state rf =? Candidate)%Z || negb (electionTerm =? currTerm rf)%Z
  then Some (rf, false)
  else
    let rf1 := set_state Leader rf in
    next ← foldl (λ acc peer,
             nx ← acc;
             if (peer =? me rf1)%Z then Some nx
             else go_set nx peer (lastLogicalIndex rf1 + 1)%Z)
           (Some (nextIndex rf1)) (peer_range rf1);
    Some (set_nextIndex next rf1, true).

(** [broadcastHeartbeat] and [replicationLog] go on while this holds. *)
Definition is_leader rf : bool := (state rf =? Leader)%Z.

(** ** Replication *)

(** What a [makeAppendEntry] goroutine decides in its first section. *)
Inductive AppendPlan :=
  | PlanSnapshot
  | PlanAppend (args : AppendEntriesArgs Cmd).

Definition makeAppendEntry (peer : Z) rf : option AppendPlan :=
  ni ← go_nth (nextIndex rf) peer;
  if (ni <=? lastIncludedIndex rf)%Z then Some PlanSnapshot
  else
    entries ← go_from (logs rf) (getPhysicalIndex rf ni);
    prev ← go_nth (logs rf) (getPhysicalIndex rf ni - 1)%Z;
    Some (PlanAppend (mkAppendEntriesArgs (currTerm rf) (me rf) (ni - 1)%Z (Term prev)
                        entries (commitIndex rf))).

(** [count] in [commitIndexUpdate]: this peer and the others whose
    [matchIndex] reached [N]. *)
Definition match_count rf (N : Z) : option Z :=
  foldl (λ acc peer,
    count ← acc;
    if (peer =? me rf)%Z then Some count
    else m ← go_nth (matchIndex rf) peer;
         Some (if (m >=? N)%Z then (count + 1)%Z else count))
  (Some 1%Z) (peer_range rf).

(** [for N := rf.lastLogicalIndex(); N > rf.commitIndex; N--], [k] being
    [N - rf.commitIndex]. *)
Fixpoint commit_scan rf (k : nat) : option (Raft Cmd) :=
  match k with
  | O => Some rf
  | S k' =>
      let N := (commitIndex rf + Z.of_nat k)%Z in
      e ← go_nth (logs rf) (getPhysicalIndex rf N);
      if negb (Term e =? currTerm rf)%Z then commit_scan rf k'
      else
        count ← match_count rf N;
        if (count >? peers rf / 2)%Z then Some (set_commitIndex N rf)
        else commit_scan rf k'
  end.

Definition commitIndexUpdate rf : option (Raft Cmd) :=
  commit_scan rf (Z.to_nat (lastLogicalIndex rf - commitIndex rf)).

(** [for i := ...; i >= 0; i--]: the physical position of the last entry with
    term [ct] among the first [k]. *)
Fixpoint last_with_term (l : list (LogEntry Cmd)) (ct : Z) (k : nat) : option (option Z) :=
  match k with
  | O => Some None
  | S k' =>
      e ← go_nth l (Z.of_nat k');
      if (Term e =? ct)%Z then Some (Some (Z.of_nat k')) else last_with_term l ct k'
  end.

(** The new [nextIndex] of a peer that refused; [None] inside means that the
    goroutine leaves and a snapshot is sent. *)
Definition backup_index (peer : Z) (reply : AppendEntriesReply) rf : option (option (list Z)) :=
  if (aer_ConflictTerm reply =? -1)%Z
  then nx ← go_set (nextIndex rf) peer (aer_ConflictIndex reply); Some (Some nx)
  else if (aer_ConflictIndex reply <? lastIncludedIndex rf)%Z then Some None
  else
    found ← last_with_term (logs rf) (aer_ConflictTerm reply)
              (Z.to_nat (getPhysicalIndex rf (lastLogicalIndex rf) + 1));
    nx ← go_set (nextIndex rf) peer
           (match found with
            | Some i => (getLogicalIndex rf i + 1)%Z
            | None => aer_ConflictIndex reply
            end);
    Some (Some nx).

(** [if rf.nextIndex[peer] < 1 { rf.nextIndex[peer] = 1 }] *)
Definition clamp_next (peer : Z) rf : option (Raft Cmd) :=
  ni ← go_nth (nextIndex rf) peer;
  if (ni <? 1)%Z then nx ← go_set (nextIndex rf) peer 1%Z; Some (set_nextIndex nx rf)
  else Some rf.

(** A [makeAppendEntry] goroutine after a successful [Call]; the flag says
    whether [sendInstallSnapshotToPeers] is started. *)
Definition append_reply (now peer : Z) (args : AppendEntriesArgs Cmd)
    (reply : AppendEntriesReply) rf : option (Raft Cmd * bool) :=
  if negb (currTerm rf =? aea_Term args)%Z then Some (rf, false)
  else if (aer_Term reply >? currTerm rf)%Z then
    Some (set_timer now (set_state Follower
            (persist (set_votedFor (-1) (set_currTerm (aer_Term reply) rf)))), false)
  else if negb (state rf =? Leader)%Z then Some (rf, false)
  else if aer_Success reply then
    m ← go_nth (matchIndex rf) peer;
    let m' := go_max (aea_PrevLogIndex args + zlen (aea_Entries args)) m in
    mi ← go_set (matchIndex rf) peer m';
    nx ← go_set (nextIndex rf) peer (m' + 1)%Z;
    rf1 ← commitIndexUpdate (set_nextIndex nx (set_matchIndex mi rf));
    rf2 ← clamp_next peer rf1;
    Some (rf2, false)
  else
    plan ← backup_index peer reply rf;
    match plan with
    | None => Some (rf, true)
    | Some nx =>
        rf1 ← clamp_next peer (set_nextIndex nx rf);
        Some (rf1, false)
    end.

(** ** Snapshots sent to lagging peers *)

Definition sendInstallSnapshotToPeers rf : InstallSnapshotArgs :=
  mkInstallSnapshotArgs (currTerm rf) (me rf) (lastIncludedIndex rf) (lastIncludedTerm rf)
    0 (ReadSnapshot (persister rf)) true.

Definition snapshot_reply (now peer : Z) (args : InstallSnapshotArgs)
    (reply : InstallSnapshotReply) rf : option (Raft Cmd) :=
  if (isr_Term reply >? currTerm rf)%Z then
    Some (set_timer now
      (persist (set_votedFor (-1) (set_state Follower (set_currTerm (isr_Term reply) rf)))))
  else if negb (state rf =? Leader)%Z || negb (currTerm rf =? isa_Term args)%Z then Some rf
  else
    m ← go_nth (matchIndex rf) peer;
    let m' := go_max (isa_LastIncludedIndex args) m in
    mi ← go_set (matchIndex rf) peer m';
    ni ← go_nth (nextIndex rf) peer;
    nx ← go_set (nextIndex rf) peer (go_max (m' + 1) ni);
    Some (set_nextIndex nx (set_matchIndex mi rf)).

(** ** Delivery to the service *)

(** One iteration of the inner loop of [sendApplyMsg]; no message means that
    the inner loop ends. *)
Definition sendApplyMsg rf : option (Raft Cmd * option (ApplyMsg Cmd)) :=
  if (lastApplied rf <? commitIndex rf)%Z then
    let rf1 := set_lastApplied (lastApplied rf + 1)%Z rf in
    if (lastApplied rf1 >? lastLogicalIndex rf1)%Z
    then Some (set_lastApplied (lastApplied rf1 - 1)%Z rf1, None)
    else
      e ← go_nth (logs rf1) (getPhysicalIndex rf1 (lastApplied rf1));
      Some (rf1, Some (mkApplyMsg true (Command e) (lastApplied rf1) false [] 0 0))
  else Some (rf, None).
End leader.

Arguments PlanSnapshot {Cmd}.
Arguments PlanAppend {Cmd}.

#[global] Strategy expand [startElection vote_termCheck vote_reply becomeLeader
  makeAppendEntry match_count commit_scan commitIndexUpdate backup_index clamp_next
  append_reply snapshot_reply sendApplyMsg].
