(* ===== verification/RaftNet.v ===== *)
(** * A cluster of Raft peers as an executable transition system

    The goroutines that raft/raft.go starts, the RPCs they make through
    labrpc, and crashes.  A goroutine is a [Task] that stands before its next
    critical section; the goroutines of one election are keyed by (election,
    peer), since [startElection] starts exactly one per other peer, and share
    the counter [votes] of their election.  labrpc delivers a request at most
    once ([Network.processReq] dispatches it once); it may lose the request or
    the reply, and may delay either for any time, which is any interleaving
    of the actions below.  [step] executes one action: it can be disabled,
    stop with a Go panic, or give the next world. *)

From S2P Require Import Prelude Persister RaftTypes RaftHandlers RaftLeader.

Section net.
Context {Cmd : Type} `{!Gob (PersistentState Cmd)}.

(** Where a vote goroutine of an election stands. *)
Inductive VotePhase :=
  | VCall                               (** about to run [Call] *)
  | VReply (reply : RequestVoteReply)   (** [Call] returned *)
  | VElected (reply : RequestVoteReply) (** about to run [becomeLeader] *)
  | VTail (reply : RequestVoteReply).   (** back from [becomeLeader] *)

(** One run of [startElection]: its candidate, its request (the term of the
    election is the request's term), the counter [votes], and whether the
    candidate's process is still the one that started it. *)
Record Election := mkElection {
  el_cand : Z;
  el_args : RequestVoteArgs;
  el_votes : Z;
  el_alive : bool
}.

(** The other goroutines; the first argument is the peer that runs them. *)
Inductive Task :=
  | TElection (i : Z)
  | TBroadcast (i : Z)
  | TReplicate (i : Z)
  | TAppend (i peer : Z)
  | TAppendCall (i peer : Z) (args : AppendEntriesArgs Cmd)
  | TAppendReply (i peer : Z) (args : AppendEntriesArgs Cmd) (reply : AppendEntriesReply)
  | TSnapshot (i peer : Z)
  | TSnapshotCall (i peer : Z) (args : InstallSnapshotArgs)
  | TSnapshotReply (i peer : Z) (args : InstallSnapshotArgs) (reply : InstallSnapshotReply)
  | TSendCommand (i : Z) (msg : ApplyMsg Cmd)
  | TSendSnapshot (i : Z) (msg : ApplyMsg Cmd).

Definition owner (t : Task) : Z :=
  match t with
  | TElection i | TBroadcast i | TReplicate i | TAppend i _ | TAppendCall i _ _
  | TAppendReply i _ _ _ | TSnapshot i _ | TSnapshotCall i _ _ | TSnapshotReply i _ _ _
  | TSendCommand i _ | TSendSnapshot i _ => i
  end.

(** [delivered i] is what peer [i]'s service has received on [applyCh]. *)
Record World := mkWorld {
  nodes : gmap Z (Raft Cmd);
  elections : list Election;
  vcalls : gmap (nat * Z) VotePhase;
  tasks : list (bool * Task);
  delivered : gmap Z (list (ApplyMsg Cmd))
}.

(** What the network does with one [Call]. *)
Inductive RpcOutcome := Delivered | ReplyLost | RequestLost.

Inductive Action :=
  | ATick (i now timeout : Z)            (** [ticker], after its sleep *)
  | AStart (i : Z) (c : Cmd)             (** the service calls [Start] *)
  | ASnapshot (i index : Z) (data : list byte) (** the service calls [Snapshot] *)
  | AApply (i : Z)                       (** an iteration of [sendApplyMsg]'s inner loop *)
  | AKill (i : Z)
  | ARestart (i now : Z)                 (** crash, then [Make] on the persister *)
  | AVote (eid : nat) (peer now : Z) (net : RpcOutcome)
  | ARun (k : nat) (now : Z) (net : RpcOutcome).

Inductive Outcome := Disabled | Panicked | Next (w : World).

Definition set_node (i : Z) (rf : Raft Cmd) (w : World) : World :=
  mkWorld (<[i := rf]> (nodes w)) (elections w) (vcalls w) (tasks w) (delivered w).
Definition set_tasks (ts : list (bool * Task)) (w : World) : World :=
  mkWorld (nodes w) (elections w) (vcalls w) ts (delivered w).
Definition set_vcalls (m : gmap (nat * Z) VotePhase) (w : World) : World :=
  mkWorld (nodes w) (elections w) m (tasks w) (delivered w).
Definition set_elections (es : list Election) (w : World) : World :=
  mkWorld (nodes w) es (vcalls w) (tasks w) (delivered w).
Definition set_delivered (d : gmap Z (list (ApplyMsg Cmd))) (w : World) : World :=
  mkWorld (nodes w) (elections w) (vcalls w) (tasks w) d.

(** Start new goroutines. *)
Definition spawn (ts : list Task) (w : World) : World :=
  set_tasks (tasks w ++ ((λ t, (true, t)) <$> ts)) w.

(** A goroutine ends, or moves on to its next section. *)
Definition finish (k : nat) (w : World) : World := set_tasks (delete k (tasks w)) w.
Definition become (k : nat) (t : Task) (w : World) : World :=
  set_tasks (alter (λ p, (p.1, t)) k (tasks w)) w.

Definition other_peers (rf : Raft Cmd) : list Z :=
  filter (λ p, p ≠ me rf) (peer_range rf).

Definition option_task {A} (f : A → Task) (o : option A) : list Task :=
  match o with Some a => [f a] | None => [] end.

(** Run a section of node [i]; a panic stops the process. *)
Definition run_section {A} (w : World) (i : Z) (f : Raft Cmd → option A)
    (k : A → World) : Outcome :=
  match nodes w !! i with
  | None => Disabled
  | Some rf => match f rf with None => Panicked | Some a => Next (k a) end
  end.

(** ** Vote goroutines *)

Definition run_vote (w : World) (eid : nat) (peer now : Z) (net : RpcOutcome)
    (e : Election) (ph : VotePhase) : Outcome :=
  let key := (eid, peer) in
  match ph with
  | VCall =>
      match net with
      | RequestLost =>
          Next (set_vcalls (<[key := VReply zero_RequestVoteReply]> (vcalls w)) w)
      | _ =>
          run_section w peer (RequestVote now (el_args e)) (λ '(rf, reply),
            set_vcalls
              (<[key := VReply (match net with Delivered => reply
                                             | _ => zero_RequestVoteReply end)]> (vcalls w))
              (set_node peer rf w))
      end
  | VReply reply =>
      if el_alive e then
        run_section w (el_cand e)
          (λ rf, Some (vote_reply (rva_Term (el_args e)) (el_votes e) reply rf))
          (λ '(rf, votes, elected),
            set_vcalls
              (if (elected : bool) then <[key := VElected reply]> (vcalls w)
               else delete key (vcalls w))
              (set_elections
                (<[eid := mkElection (el_cand e) (el_args e) votes (el_alive e)]> (elections w))
                (set_node (el_cand e) rf w)))
      else Disabled
  | VElected reply =>
      if el_alive e then
        run_section w (el_cand e) (becomeLeader (rva_Term (el_args e)))
          (λ '(rf, started),
            spawn (if (started : bool) then [TBroadcast (el_cand e)] else [])
              (set_vcalls (<[key := VTail reply]> (vcalls w)) (set_node (el_cand e) rf w)))
      else Disabled
  | VTail reply =>
      if el_alive e then
        run_section w (el_cand e) (λ rf, Some (vote_termCheck reply rf))
          (λ rf, set_vcalls (delete key (vcalls w)) (set_node (el_cand e) rf w))
      else Disabled
  end.

(** [startElection]'s first section registers the election and starts one
    goroutine per other peer. *)
Definition open_election (rf : Raft Cmd) (args : RequestVoteArgs) (w : World) : World :=
  let eid := length (elections w) in
  set_vcalls
    (foldr (λ peer m, <[(eid, peer) := VCall]> m) (vcalls w) (other_peers rf))
    (set_elections (elections w ++ [mkElection (me rf) args 1 true]) w).

(** ** The other goroutines *)

Definition run_task (w : World) (k : nat) (now : Z) (net : RpcOutcome)
    (alive : bool) (t : Task) : Outcome :=
  match t with
  | TAppendCall i peer args =>
      match net with
      | RequestLost => Next (finish k w)
      | _ =>
          run_section w peer (AppendEntries now args) (λ '(rf, reply),
            match net with
            | Delivered => become k (TAppendReply i peer args reply) (set_node peer rf w)
            | _ => finish k (set_node peer rf w)
            end)
      end
  | TSnapshotCall i peer args =>
      match net with
      | RequestLost => Next (finish k w)
      | _ =>
          run_section w peer (InstallSnapshot now args) (λ '(rf, reply, msg),
            spawn (option_task (TSendSnapshot peer) msg)
              match net with
              | Delivered => become k (TSnapshotReply i peer args reply) (set_node peer rf w)
              | _ => finish k (set_node peer rf w)
              end)
      end
  | _ =>
    if negb alive then Disabled else
    match t with
    | TElection i =>
        run_section w i (startElection now) (λ '(rf, args),
          open_election rf args (finish k (set_node i rf w)))
    | TBroadcast i =>
        run_section w i Some (λ rf,
          if killed rf || negb (is_leader rf) then finish k w
          else spawn (TAppend i <$> other_peers rf) w)
    | TReplicate i =>
        run_section w i Some (λ rf,
          if negb (is_leader rf) then finish k w
          else spawn (TAppend i <$> other_peers rf) (finish k w))
    | TAppend i peer =>
        run_section w i (makeAppendEntry peer) (λ plan,
          match plan with
          | PlanSnapshot => become k (TSnapshot i peer) w
          | PlanAppend args => become k (TAppendCall i peer args) w
          end)
    | TAppendReply i peer args reply =>
        run_section w i (append_reply now peer args reply) (λ '(rf, snap),
          spawn (if (snap : bool) then [TSnapshot i peer] else [])
            (finish k (set_node i rf w)))
    | TSnapshot i peer =>
        run_section w i Some (λ rf,
          become k (TSnapshotCall i peer (sendInstallSnapshotToPeers rf)) w)
    | TSnapshotReply i peer args reply =>
        run_section w i (snapshot_reply now peer args reply) (λ rf,
          finish k (set_node i rf w))
    | TSendCommand i msg | TSendSnapshot i msg =>
        Next (finish k (set_delivered
          (<[i := (default [] (delivered w !! i)) ++ [msg]]> (delivered w)) w))
    | _ => Disabled
    end
  end.

(** [sendApplyMsg] is one goroutine per peer: it is blocked while a message
    of its own waits on [applyCh]. *)
Definition sending_command (i : Z) (p : bool * Task) : bool :=
  match p with (true, TSendCommand j _) => bool_decide (i = j) | _ => false end.

(** ** One action

    [ticker] tests [killed] before it sleeps, and the inner loop of
    [sendApplyMsg] does not test it at all: after [Kill] an election can still
    start and commands are still delivered.  An action is never forced, so a
    killed peer whose loops have ended is one whose [ATick] and [AApply] are not
    taken any more; the model does not say when that is, and allows every
    execution of the code. *)

Definition step (a : Action) (w : World) : Outcome :=
  match a with
  | ATick i now timeout =>
      run_section w i Some (λ rf,
        if electionTimeout_ok timeout && ticker_need now timeout rf
        then spawn [TElection i] w else w)
  | AStart i c =>
      run_section w i (λ rf, Some (Start c rf)) (λ '(rf, (_, _, ok)),
        spawn (if (ok : bool) then [TReplicate i] else []) (set_node i rf w))
  | ASnapshot i index data =>
      match nodes w !! i with
      | None => Disabled
      | Some rf =>
          if (index <=? lastApplied rf)%Z
          then run_section w i (Snapshot index data) (λ rf', set_node i rf' w)
          else Disabled
      end
  | AApply i =>
      if existsb (sending_command i) (tasks w) then Disabled else
      run_section w i sendApplyMsg (λ '(rf', msg),
        spawn (option_task (TSendCommand i) msg) (set_node i rf' w))
  | AKill i => run_section w i Some (λ rf, set_node i (Kill rf) w)
  | ARestart i now =>
      match nodes w !! i with
      | None => Disabled
      | Some rf =>
          let '(rf', msg) := Make (peers rf) i (persister rf) now in
          Next (spawn (option_task (TSendSnapshot i) msg)
            (mkWorld (<[i := rf']> (nodes w))
              ((λ e, mkElection (el_cand e) (el_args e) (el_votes e)
                       (el_alive e && negb (el_cand e =? i)%Z)) <$> elections w)
              (vcalls w)
              ((λ p, (p.1 && negb (owner p.2 =? i)%Z, p.2)) <$> tasks w)
              (<[i := []]> (delivered w))))
      end
  | AVote eid peer now net =>
      match elections w !! eid, vcalls w !! (eid, peer) with
      | Some e, Some ph => run_vote w eid peer now net e ph
      | _, _ => Disabled
      end
  | ARun k now net =>
      match tasks w !! k with
      | Some (alive, t) => run_task w k now net alive t
      | None => Disabled
      end
  end.

(** ** Executions *)

(** A cluster of [n] fresh servers, as [NewCluster] starts them. *)
Definition init (n now : Z) : World :=
  mkWorld
    (list_to_map ((λ i, (i, (Make n i MakePersister now).1)) <$> seqZ 0 n))
    [] ∅ [] ∅.

Inductive reachable (n : Z) : World → Prop :=
  | reach_init now : reachable n (init n now)
  | reach_step a w w' : reachable n w → step a w = Next w' → reachable n w'.

(** Run a list of actions. *)
Fixpoint run (acts : list Action) (w : World) : Outcome :=
  match acts with
  | [] => Next w
  | a :: acts' => match step a w with Next w' => run acts' w' | o => o end
  end.

Lemma run_reachable n acts w w' : reachable n w → run acts w = Next w' → reachable n w'.
Proof.
  revert w. induction acts as [|a acts IH]; intros w Hr Hrun; simpl in *; [by simplify_eq|].
  destruct (step a w) as [| |w1] eqn:Hs; try done.
  eapply IH; [|done]. by eapply reach_step.
Qed.
End net.

Arguments VotePhase : clear implicits.
Arguments Task : clear implicits.
Arguments World : clear implicits.
Arguments Action : clear implicits.
Arguments Outcome : clear implicits.
