(* ===== verification/RaftEffects.v ===== *)
(** * What the critical sections do to a peer's term, vote, role and log

    Every section of [RaftHandlers] and [RaftLeader] is classified by how it
    moves the term, the vote and the role ([mild], or the vote of
    [RequestVote], or the candidacy of [startElection], or the promotion of
    [becomeLeader]), and is shown to keep the disk in step with the persistent
    fields and the log a path of the entry history [Born].  [RaftSafety]
    builds the cluster invariants from these lemmas. *)

From S2P Require Import Prelude Persister RaftTypes RaftHandlers RaftLeader.

(** ** Entry histories

    A history records, for each (index, term) at which a leader ever created
    an entry, the command and the term of the entry before it. *)

Abbreviation Born Cmd := (gmap (Z * Z) (option Cmd * Z)).

Section chains.
Context {Cmd : Type}.
Implicit Types (b : Born Cmd) (l : list (LogEntry Cmd)) (i t : Z).

(** [l] follows, in the history, an entry with index [i] and term [t]. *)
Fixpoint chain b i t l : Prop :=
  match l with
  | [] => True
  | e :: l' => b !! ((i + 1)%Z, Term e) = Some (Command e, t) ∧ chain b (i + 1)%Z (Term e) l'
  end.

(** A nonempty log whose first element stands at index [i]; its first element
    may be the placeholder that compaction leaves, so only its term counts. *)
Definition lchain b i l : Prop :=
  match l with [] => False | e :: l' => chain b i (Term e) l' end.

Lemma chain_mono b b' i t l : b ⊆ b' → chain b i t l → chain b' i t l.
Proof.
  intros Hb. revert i t. induction l as [|e l IH]; intros i t; simpl; [done|].
  intros [H1 H2]. split; [by eapply lookup_weaken | by apply IH].
Qed.

Lemma lchain_mono b b' i l : b ⊆ b' → lchain b i l → lchain b' i l.
Proof. destruct l; [done|]. by apply chain_mono. Qed.

Lemma lchain_nonempty b i l : lchain b i l → l ≠ [].
Proof. by destruct l. Qed.

Lemma lchain_drop b i l (k : nat) :
  lchain b i l → k < length l → lchain b (i + Z.of_nat k)%Z (drop k l).
Proof.
  revert i l. induction k as [|k IH]; intros i l Hl Hk.
  - by rewrite Z.add_0_r, drop_0.
  - destruct l as [|e [|e' l]]; simpl in Hk; try lia.
    simpl in Hl. destruct Hl as [_ Hl].
    replace (i + Z.of_nat (S k))%Z with ((i + 1) + Z.of_nat k)%Z by lia.
    apply (IH (i + 1)%Z (e' :: l)); [done | simpl; lia].
Qed.

(** Appending after the last element of a prefix. *)
Lemma lchain_take_app b i l (k : nat) e es :
  lchain b i l → l !! k = Some e → chain b (i + Z.of_nat k)%Z (Term e) es →
  lchain b i (take (S k) l ++ es).
Proof.
  revert i l. induction k as [|k IH]; intros i l Hl Hk Hes.
  - destruct l as [|e' l]; simplify_eq/=. rewrite Z.add_0_r in Hes. done.
  - destruct l as [|e0 [|e1 l]]; simplify_eq/=. destruct Hl as [Hb Hl].
    split; [done|]. apply (IH (i + 1)%Z (e1 :: l)); [done..|].
    by replace (i + 1 + Z.of_nat k)%Z with (i + Z.of_nat (S k))%Z by lia.
Qed.

Lemma lchain_app b i l e es :
  lchain b i l → list.last l = Some e → chain b (i + zlen l - 1)%Z (Term e) es →
  lchain b i (l ++ es).
Proof.
  intros Hl He Hes. rewrite last_lookup in He.
  assert (length l ≠ 0) by (destruct l; [done|simpl; lia]).
  replace l with (take (S (pred (length l))) l) at 1
    by (rewrite take_ge; [done|lia]).
  eapply lchain_take_app; [done..|].
  by replace (i + Z.of_nat (pred (length l)))%Z with (i + zlen l - 1)%Z
    by (unfold zlen; lia).
Qed.

(** Two paths that meet at one (index, term) agree below it, as far back as
    both go. *)
Lemma lchain_lookup_S b i l (k : nat) e e' :
  lchain b i l → l !! k = Some e → l !! S k = Some e' →
  b !! ((i + Z.of_nat (S k))%Z, Term e') = Some (Command e', Term e).
Proof.
  revert i l. induction k as [|k IH]; intros i l Hl H0 H1.
  - destruct l as [|e0 [|e1 l]]; simplify_eq/=. destruct Hl as [Hb _].
    by replace (i + Z.of_nat 1)%Z with (i + 1)%Z by lia.
  - destruct l as [|e0 [|e1 l]]; simplify_eq/=. destruct Hl as [_ Hl].
    replace (i + Z.of_nat (S (S k)))%Z with ((i + 1) + Z.of_nat (S k))%Z by lia.
    by apply (IH (i + 1)%Z (e1 :: l)).
Qed.
End chains.

(** ** Sections on one peer *)

Section effects.
Context {Cmd : Type} `{!Gob (PersistentState Cmd)}.
Implicit Types (rf : Raft Cmd) (b : Born Cmd).

(** What every section keeps of peer [i] in a cluster of [n]. *)
Record node_ok (n : Z) b (i : Z) rf : Prop := {
  nok_me : me rf = i;
  nok_peers : peers rf = n;
  nok_synced : synced rf;
  nok_chain : lchain b (lastIncludedIndex rf) (logs rf);
  nok_term : (0 ≤ currTerm rf)%Z
}.

(** Term and vote stay and the role stays or drops to follower (a leader that
    stays one does not lose entries), or the term grows, the vote is cleared
    and the peer follows. *)
Definition mild rf rf' : Prop :=
  (currTerm rf' = currTerm rf ∧ votedFor rf' = votedFor rf ∧
   (state rf' = Follower ∨
    state rf' = state rf ∧ (lastLogicalIndex rf ≤ lastLogicalIndex rf')%Z)) ∨
  ((currTerm rf < currTerm rf')%Z ∧ votedFor rf' = (-1)%Z ∧ state rf' = Follower).

Lemma mild_refl rf : mild rf rf.
Proof. left. split_and!; [done..|]. right. done. Qed.

Lemma node_ok_mono n b b' i rf : b ⊆ b' → node_ok n b i rf → node_ok n b' i rf.
Proof. intros Hb []. split; try done. by eapply lchain_mono. Qed.

Lemma node_ok_len n b i rf : node_ok n b i rf → (1 ≤ zlen (logs rf))%Z.
Proof.
  intros [_ _ _ Hc _]. apply lchain_nonempty in Hc. destruct (logs rf); [done|].
  rewrite zlen_cons. pose proof (zlen_nonneg l0). lia.
Qed.

(** A section that does not touch the persistent fields. *)
Lemma quiet_ok n b i rf rf' :
  me rf' = me rf → peers rf' = peers rf → persister rf' = persister rf →
  persistent rf' = persistent rf → (state rf' = Follower ∨ state rf' = state rf) →
  node_ok n b i rf → node_ok n b i rf' ∧ mild rf rf'.
Proof.
  intros Hm Hp Hps Hpe Hst []. pose proof Hpe as Hpe'.
  unfold persistent in Hpe'. injection Hpe' as H1 H2 H3 H4 H5.
  split.
  - split; [congruence | congruence | by eapply synced_ext | by rewrite H3, H4 | lia].
  - left. split_and!; [done..|]. destruct Hst as [?|?]; [by left|right].
    split; [done|]. unfold lastLogicalIndex. rewrite H3, H4. lia.
Qed.

(** A section that moves to a higher term and saves. *)
Lemma down_ok n b i rf rf' t :
  me rf' = me rf → peers rf' = peers rf → synced rf' →
  persistent rf' = (t, -1, logs rf, lastIncludedIndex rf, lastIncludedTerm rf)%Z →
  state rf' = Follower → (currTerm rf < t)%Z →
  node_ok n b i rf → node_ok n b i rf' ∧ mild rf rf'.
Proof.
  intros Hm Hp Hs Hpe Hst Ht []. pose proof Hpe as Hpe'.
  unfold persistent in Hpe'. injection Hpe' as H1 H2 H3 H4 H5.
  split.
  - split; [congruence | congruence | done | by rewrite H3, H4 | lia].
  - right. split_and!; [lia|done..].
Qed.

(** *** RequestVote *)

Definition grants (c t : Z) rf rf' : Prop :=
  (currTerm rf ≤ t)%Z ∧ currTerm rf' = t ∧ votedFor rf' = c ∧ state rf' = Follower ∧
  (currTerm rf = t → votedFor rf = (-1)%Z ∨ votedFor rf = c).

Lemma RequestVote_stepdown_ok n b i args rf :
  node_ok n b i rf →
  node_ok n b i (RequestVote_stepdown args rf) ∧ mild rf (RequestVote_stepdown args rf) ∧
  (rva_Term args ≤ currTerm (RequestVote_stepdown args rf))%Z ∧
  (currTerm rf ≤ currTerm (RequestVote_stepdown args rf))%Z ∧
  (currTerm rf = currTerm (RequestVote_stepdown args rf) →
   votedFor (RequestVote_stepdown args rf) = votedFor rf).
Proof.
  intros Hok. unfold RequestVote_stepdown. case_all; b2p.
  - pose proof (down_ok n b i rf
      (persist (set_currTerm (rva_Term args) (set_votedFor (-1) (set_state Follower rf))))
      (rva_Term args)) as [? ?]; [done|done|apply synced_persist|done..|].
    split_and!; try done; simpl; lia.
  - split_and!; try done; try lia. apply mild_refl.
Qed.

Lemma RequestVote_ok n b i now args rf rf' reply :
  node_ok n b i rf → RequestVote now args rf = Some (rf', reply) →
  node_ok n b i rf' ∧
  ((rvr_VoteGranted reply = false ∧ mild rf rf') ∨
   (rvr_VoteGranted reply = true ∧ grants (rva_CandidateId args) (rva_Term args) rf rf')).
Proof.
  intros Hok H. unfold RequestVote in H.
  pose proof (RequestVote_stepdown_ok n b i args rf Hok) as (Hok1 & Hm & Ht & Ht2 & Hv).
  set (rf1 := RequestVote_stepdown args rf) in *.
  destruct (rva_Term args <? currTerm rf1)%Z eqn:E1; [go_inv; eauto|].
  destruct ((votedFor rf1 =? -1) || (votedFor rf1 =? rva_CandidateId args))%Z eqn:E2;
    [|go_inv; eauto].
  go_inv. case_match; go_inv; [|eauto]. b2p.
  split.
  - destruct Hok1. split; [done..| |done|done].
    eapply (synced_ext (persist (set_votedFor (rva_CandidateId args) rf1)));
      [done|done|apply synced_persist].
  - right. simpl. unfold grants; simpl. split_and!; try done; try lia.
Qed.

(** *** AppendEntries *)

Lemma AppendEntries_accept_ok n b i now args rf :
  node_ok n b i rf →
  node_ok n b i (AppendEntries_accept now args rf) ∧ mild rf (AppendEntries_accept now args rf) ∧
  state (AppendEntries_accept now args rf) = Follower ∧
  logs (AppendEntries_accept now args rf) = logs rf ∧
  lastIncludedIndex (AppendEntries_accept now args rf) = lastIncludedIndex rf.
Proof.
  intros Hok. unfold AppendEntries_accept. case_match; b2p.
  - match goal with |- node_ok _ _ _ ?x ∧ _ =>
      pose proof (down_ok n b i rf x (aea_Term args)) as [? ?] end;
      [done|done|apply synced_persist|done|done|done|done|]. done.
  - match goal with |- node_ok _ _ _ ?x ∧ _ =>
      pose proof (quiet_ok n b i rf x) as [? ?] end; auto.
Qed.

Lemma sync_logs_chain b rf p prev entries newlogs :
  lchain b (lastIncludedIndex rf) (logs rf) →
  (lastIncludedIndex rf ≤ p)%Z →
  go_nth (logs rf) (getPhysicalIndex rf p) = Some prev →
  chain b p (Term prev) entries →
  sync_logs rf (p + 1) entries = Some newlogs →
  lchain b (lastIncludedIndex rf) newlogs.
Proof.
  intros Hl. revert p prev. induction entries as [|e rest IH]; intros p prev Hp Hprev Hc H.
  - simpl in H. by simplify_eq.
  - cbn [sync_logs] in H. unfold getPhysicalIndex in *.
    apply go_nth_Some in Hprev as [Hp0 Hprev].
    destruct (p + 1 <=? lastLogicalIndex rf)%Z eqn:E; b2p.
    + apply bind_Some in H as (x & Hx & H).
      destruct (negb (Term x =? Term e)%Z) eqn:Et; b2p.
      * go_inv. apply go_upto_Some in H as [_ ->].
        replace (Z.to_nat (p + 1 - lastIncludedIndex rf))
          with (S (Z.to_nat (p - lastIncludedIndex rf))) by lia.
        eapply lchain_take_app; [done..|].
        by replace (lastIncludedIndex rf + Z.of_nat (Z.to_nat (p - lastIncludedIndex rf)))%Z
          with p by lia.
      * apply (IH (p + 1)%Z x); [lia|done| |done]. simpl in Hc. rewrite Et. tauto.
    + go_inv. unfold lastLogicalIndex in E.
      pose proof (lookup_lt_Some _ _ _ Hprev) as Hlt. unfold zlen in E.
      eapply lchain_app; [done| |].
      * rewrite last_lookup.
        replace (pred (length (logs rf))) with (Z.to_nat (p - lastIncludedIndex rf)) by lia.
        done.
      * by replace (lastIncludedIndex rf + zlen (logs rf) - 1)%Z with p by (unfold zlen; lia).
Qed.

Lemma AppendEntries_ok n b i now args rf rf' reply :
  node_ok n b i rf →
  chain b (aea_PrevLogIndex args) (aea_PrevLogTerm args) (aea_Entries args) →
  AppendEntries now args rf = Some (rf', reply) →
  node_ok n b i rf' ∧ mild rf rf'.
Proof.
  intros Hok Hc H. unfold AppendEntries in H.
  destruct (aea_Term args <? currTerm rf)%Z; [go_inv; split; [done|apply mild_refl]|].
  pose proof (AppendEntries_accept_ok n b i now args rf Hok) as (Hok1 & Hm & Hst & Hlg & Hli).
  set (rf1 := AppendEntries_accept now args rf) in *.
  destruct (aea_PrevLogIndex args >? lastLogicalIndex rf1)%Z eqn:E1; [by go_inv|].
  destruct (aea_PrevLogIndex args <? lastIncludedIndex rf1)%Z eqn:E2; [by go_inv|].
  apply bind_Some in H as (prev & Hprev & H).
  destruct (negb (aea_PrevLogTerm args =? Term prev)%Z) eqn:E3; [by go_inv|]. b2p.
  apply bind_Some in H as (newlogs & Hs & H).
  assert (lchain b (lastIncludedIndex rf1) newlogs) as Hl.
  { eapply sync_logs_chain; [apply Hok1|exact E2|done| |done]. by rewrite <- E3. }
  set (rf2 := persist (set_logs newlogs rf1)) in *.
  assert (node_ok n b i rf2) as Hok2.
  { destruct Hok1. split; [done..|apply synced_persist|done|done]. }
  assert (mild rf rf2) as Hm2.
  { destruct Hm as [(?&?&?)|?]; [left|right; done]. split_and!; [done..|]. by left. }
  case_match; go_inv; [|done].
  pose proof (quiet_ok n b i rf2
    (set_commitIndex (go_min (aea_LeaderCommit args) (lastLogicalIndex rf2)) rf2))
    as [? _]; auto.
Qed.

(** *** InstallSnapshot and Snapshot *)

Lemma find_split_spec rf args i l found s :
  find_split rf args i l found = Some s →
  found = Some s ∨
  ∃ e, l !! Z.to_nat (s - i) = Some e ∧ (i ≤ s)%Z ∧
       getLogicalIndex rf s = isa_LastIncludedIndex args ∧ Term e = isa_LastIncludedTerm args.
Proof.
  revert i found. induction l as [|e l IH]; intros i found H; simpl in H; [by left|].
  apply IH in H as [H|(e' & He' & Hi & Hx)].
  - case_match; [|by left]. b2p. simplify_eq. right. exists e.
    replace (Z.to_nat (s - s)) with 0 by lia. split_and!; [done|lia|done..].
  - right. exists e'. replace (Z.to_nat (s - i)) with (S (Z.to_nat (s - (i + 1)))) by lia.
    split_and!; [done|lia|apply Hx..].
Qed.

Lemma InstallSnapshot_ok n b i now args rf rf' reply msg :
  node_ok n b i rf → InstallSnapshot now args rf = Some (rf', reply, msg) →
  node_ok n b i rf' ∧ mild rf rf'.
Proof.
  intros Hok H. unfold InstallSnapshot in H.
  destruct (currTerm rf >? isa_Term args)%Z eqn:E0; [go_inv; split; [done|apply mild_refl]|].
  set (rf1 := set_currLeader (isa_LeaderId args) (set_timer now (set_state Follower rf))) in *.
  set (rf2 := if (isa_Term args >? currTerm rf1)%Z then _ else _) in H.
  assert (node_ok n b i rf2 ∧ mild rf rf2 ∧ state rf2 = Follower ∧ currTerm rf2 = isa_Term args)
    as (Hok2 & Hm2 & Hst2 & Ht2).
  { clear H. unfold rf2. destruct (isa_Term args >? currTerm rf1)%Z eqn:E; b2p.
    - pose proof (down_ok n b i rf
        (persist (set_votedFor (-1) (set_currTerm (isa_Term args) rf1))) (isa_Term args))
        as [? ?]; auto using synced_persist.
    - pose proof (quiet_ok n b i rf rf1) as [? ?]; auto.
      split_and!; try done. subst rf1; simpl in *; lia. }
  destruct (lastIncludedIndex rf2 >=? isa_LastIncludedIndex args)%Z; [by go_inv|].
  apply bind_Some in H as (newlogs & Hnew & H). go_inv.
  split.
  - destruct Hok2 as [? ? ? Hch ?]. split; [done|done|apply synced_persistWithSnapshot| |simpl; lia]. simpl.
    case_match eqn:Hf; go_inv; [|done].
    apply find_split_spec in Hf as [?|(e & He & Hz & Hx & Hte)]; [done|].
    rewrite Z.sub_0_r in He. apply go_from_Some in H as [? ->]. cbn [lchain Term].
    unfold getLogicalIndex in Hx.
    pose proof (lchain_drop _ _ _ _ Hch (lookup_lt_Some _ _ _ He)) as Hd.
    rewrite (drop_S _ _ _ He) in Hd. simpl in Hd.
    replace (Z.to_nat (z + 1)) with (S (Z.to_nat z)) by lia.
    rewrite <- Hte, <- Hx.
    by replace (z + lastIncludedIndex rf2)%Z
      with (lastIncludedIndex rf2 + Z.of_nat (Z.to_nat z))%Z by lia.
  - destruct Hm2 as [(?&?&?)|(?&?&?)]; [left|right]; simpl.
    + split_and!; [congruence|done|by left].
    + split_and!; [lia|done..].
Qed.

Lemma Snapshot_ok n b i index snap rf rf' :
  node_ok n b i rf → Snapshot index snap rf = Some rf' → node_ok n b i rf' ∧ mild rf rf'.
Proof.
  intros Hok H. unfold Snapshot in H.
  destruct (index <=? lastIncludedIndex rf)%Z eqn:E0; [go_inv; split; [done|apply mild_refl]|].
  apply bind_Some in H as (e & He & H). apply bind_Some in H as (newlogs & Hnew & H). go_inv.
  unfold getPhysicalIndex in *. b2p.
  apply go_nth_Some in He as [Hi He]. pose proof (lookup_lt_Some _ _ _ He) as Hlt.
  assert (newlogs = mkLogEntry (Term e) None
            :: drop (S (Z.to_nat (index - lastIncludedIndex rf))) (logs rf)) as ->.
  { destruct (_ <? zlen _)%Z eqn:E1 in Hnew; b2p.
    - apply bind_Some in Hnew as (rest & Hr & Hnew). simplify_eq.
      apply go_from_Some in Hr as [_ ->]. do 2 f_equal. lia.
    - simplify_eq. f_equal. symmetry. apply drop_ge. unfold zlen in *. lia. }
  destruct Hok as [? ? ? Hch ?].
  split.
  - split; [done|done|apply synced_persistWithSnapshot| |done]. simpl.
    pose proof (lchain_drop _ _ _ _ Hch Hlt) as Hd.
    rewrite (drop_S _ _ _ He) in Hd. simpl in Hd.
    by replace index with (lastIncludedIndex rf + Z.of_nat (Z.to_nat (index - lastIncludedIndex rf)))%Z
      at 1 by lia.
  - left. simpl. split_and!; [done..|]. right. split; [done|].
    unfold lastLogicalIndex; simpl. rewrite zlen_cons. unfold zlen. rewrite length_drop. lia.
Qed.

(** *** Start: the only section that creates an entry *)

Lemma Start_follower c rf : state rf ≠ Leader → Start c rf = (rf, (-1, -1, false)%Z).
Proof. intros H. unfold Start. by rewrite (proj2 (Z.eqb_neq _ _) H). Qed.

Lemma Start_leader c rf :
  state rf = Leader →
  Start c rf =
    (persist (set_logs (logs rf ++ [mkLogEntry (currTerm rf) (Some c)]) rf),
     ((lastLogicalIndex rf + 1)%Z, currTerm rf, true)).
Proof. intros H. unfold Start. by rewrite H. Qed.

Lemma Start_ok n b i c rf e :
  node_ok n b i rf → list.last (logs rf) = Some e →
  node_ok n (<[((lastLogicalIndex rf + 1)%Z, currTerm rf) := (Some c, Term e)]> b) i
    (persist (set_logs (logs rf ++ [mkLogEntry (currTerm rf) (Some c)]) rf)) ∨
  is_Some (b !! ((lastLogicalIndex rf + 1)%Z, currTerm rf)).
Proof.
  intros [? ? ? Hch ?] He.
  destruct (b !! ((lastLogicalIndex rf + 1)%Z, currTerm rf)) eqn:Hb; [right; eauto|left].
  split; [done|done|apply synced_persist| |done]. simpl.
  eapply lchain_app; [eapply lchain_mono; [|done]; by apply insert_subseteq|done|].
  simpl. split; [|done]. unfold lastLogicalIndex in *. by rewrite lookup_insert_eq.
Qed.

(** *** Elections *)

Lemma startElection_ok n b i now rf rf' args :
  node_ok n b i rf → startElection now rf = Some (rf', args) →
  node_ok n b i rf' ∧ currTerm rf' = (currTerm rf + 1)%Z ∧ votedFor rf' = i ∧
  state rf' = Candidate ∧ rva_Term args = currTerm rf' ∧ rva_CandidateId args = i.
Proof.
  intros [Hme Hp Hs Hc Ht] H. unfold startElection in H.
  set (rf1 := persist _) in H. assert (synced rf1) as Hs1 by apply synced_persist.
  apply bind_Some in H as (e & _ & H). injection H as <- <-.
  split_and!; [split|..]; try done; simpl; lia.
Qed.

Lemma vote_termCheck_ok n b i reply rf :
  node_ok n b i rf → node_ok n b i (vote_termCheck reply rf) ∧ mild rf (vote_termCheck reply rf).
Proof.
  intros Hok. unfold vote_termCheck. case_match; b2p; [|split; [done|apply mild_refl]].
  eapply (down_ok n b i rf _ (rvr_Term reply)); auto using synced_persist.
Qed.

(** A counted vote is a granted one, for an election of the current term. *)
Lemma vote_reply_ok n b i startTerm votes reply rf rf' votes' elected :
  node_ok n b i rf → vote_reply startTerm votes reply rf = (rf', votes', elected) →
  node_ok n b i rf' ∧ mild rf rf' ∧
  ((votes' = votes ∧ elected = false) ∨
   (votes' = (votes + 1)%Z ∧ rvr_VoteGranted reply = true)) ∧
  (elected = true → (n / 2 < votes')%Z).
Proof.
  intros Hok H. unfold vote_reply in H. pose proof (vote_termCheck_ok n b i reply rf Hok) as [? ?].
  pose proof (nok_peers _ _ _ _ Hok) as Hp.
  case_all; split_and!; auto using mild_refl; b2p; intros; try done.
Qed.

Lemma becomeLeader_ok n b i t rf rf' started :
  node_ok n b i rf → becomeLeader t rf = Some (rf', started) →
  node_ok n b i rf' ∧
  ((started = false ∧ rf' = rf) ∨
   (started = true ∧ state rf = Candidate ∧ currTerm rf = t ∧ state rf' = Leader ∧
    persistent rf' = persistent rf)).
Proof.
  intros Hok H. unfold becomeLeader in H.
  destruct (negb (state rf =? Candidate)%Z || negb (t =? currTerm rf)%Z) eqn:E; [go_inv; auto|].
  apply bind_Some in H as (nx & Hnx & H). go_inv. b2p.
  split; [|right; by split_and!].
  destruct Hok. split; [done..| |done|done]. eapply synced_ext; [| |done]; done.
Qed.

(** *** Replication and delivery *)

Lemma makeAppendEntry_ok n b i peer rf args :
  node_ok n b i rf → makeAppendEntry peer rf = Some (PlanAppend args) →
  chain b (aea_PrevLogIndex args) (aea_PrevLogTerm args) (aea_Entries args) ∧
  aea_Term args = currTerm rf.
Proof.
  intros [_ _ _ Hch] H. unfold makeAppendEntry in H.
  apply bind_Some in H as (ni & Hni & H). case_match; [go_inv; done|].
  apply bind_Some in H as (es & Hes & H). apply bind_Some in H as (prev & Hprev & H).
  go_inv. simpl. split; [|done]. unfold getPhysicalIndex in *. b2p.
  apply go_from_Some in Hes as [? ->]. apply go_nth_Some in Hprev as [Hp Hprev].
  pose proof (lchain_drop _ _ _ _ Hch (lookup_lt_Some _ _ _ Hprev)) as Hd.
  rewrite (drop_S _ _ _ Hprev) in Hd. simpl in Hd.
  replace (lastIncludedIndex rf + Z.of_nat (Z.to_nat (ni - lastIncludedIndex rf - 1)))%Z
    with (ni - 1)%Z in Hd by lia.
  by replace (Z.to_nat (ni - lastIncludedIndex rf))
    with (S (Z.to_nat (ni - lastIncludedIndex rf - 1))) by lia.
Qed.

(** [set_commitIndex], [set_nextIndex], [set_matchIndex], ... are quiet. *)
Definition quiet rf rf' : Prop :=
  me rf' = me rf ∧ peers rf' = peers rf ∧ persister rf' = persister rf ∧
  persistent rf' = persistent rf ∧ state rf' = state rf.

Lemma quiet_node_ok n b i rf rf' :
  quiet rf rf' → node_ok n b i rf → node_ok n b i rf' ∧ mild rf rf'.
Proof. intros (?&?&?&?&?). apply quiet_ok; auto. Qed.

Lemma commit_scan_quiet rf k rf' : commit_scan rf k = Some rf' → quiet rf rf'.
Proof.
  induction k as [|k IH]; cbn [commit_scan]; intros H; [by go_inv|].
  apply bind_Some in H as (e & He & H). case_match; [by apply IH|].
  apply bind_Some in H as (m & Hm & H). case_match; [by go_inv|by apply IH].
Qed.

Lemma clamp_next_quiet p rf rf' : clamp_next p rf = Some rf' → quiet rf rf'.
Proof.
  unfold clamp_next. intros H. apply bind_Some in H as (ni & Hni & H).
  case_match; [|by go_inv]. apply bind_Some in H as (nx & Hnx & H). by go_inv.
Qed.

Lemma quiet_trans rf1 rf2 rf3 : quiet rf1 rf2 → quiet rf2 rf3 → quiet rf1 rf3.
Proof. unfold quiet. intuition congruence. Qed.

Lemma append_reply_ok n b i now peer args reply rf rf' snap :
  node_ok n b i rf → append_reply now peer args reply rf = Some (rf', snap) →
  node_ok n b i rf' ∧ mild rf rf'.
Proof.
  intros Hok H. unfold append_reply in H.
  case_match; [go_inv; split; [done|apply mild_refl]|].
  case_match; [go_inv; b2p|].
  { eapply (down_ok n b i rf _ (aer_Term reply)); try done.
    eapply (synced_ext (persist (set_votedFor (-1) (set_currTerm (aer_Term reply) rf))));
      auto using synced_persist. }
  case_match; [go_inv; split; [done|apply mild_refl]|].
  case_match.
  - apply bind_Some in H as (m & Hm & H). apply bind_Some in H as (mi & Hmi & H).
    apply bind_Some in H as (nx & Hnx & H). apply bind_Some in H as (rf1 & Hc & H).
    apply bind_Some in H as (rf2 & Hn & H). go_inv.
    eapply quiet_node_ok; [|done].
    eapply quiet_trans; [|by eapply clamp_next_quiet].
    apply (commit_scan_quiet (set_nextIndex nx (set_matchIndex mi rf)) _ _ Hc).
  - apply bind_Some in H as (plan & Hplan & H).
    case_match; [|go_inv; split; [done|apply mild_refl]].
    apply bind_Some in H as (rf1 & Hc & H). go_inv.
    eapply quiet_node_ok; [|done]. apply (clamp_next_quiet _ (set_nextIndex l rf) _ Hc).
Qed.

Lemma snapshot_reply_ok n b i now peer args reply rf rf' :
  node_ok n b i rf → snapshot_reply now peer args reply rf = Some rf' →
  node_ok n b i rf' ∧ mild rf rf'.
Proof.
  intros Hok H. unfold snapshot_reply in H.
  case_match; [go_inv; b2p|].
  { eapply (down_ok n b i rf _ (isr_Term reply)); try done.
    eapply (synced_ext (persist (set_votedFor (-1)
      (set_state Follower (set_currTerm (isr_Term reply) rf))))); auto using synced_persist. }
  case_match; [go_inv; split; [done|apply mild_refl]|].
  apply bind_Some in H as (m & Hm & H). apply bind_Some in H as (mi & Hmi & H).
  apply bind_Some in H as (ni & Hni & H). apply bind_Some in H as (nx & Hnx & H). go_inv.
  eapply quiet_node_ok; done.
Qed.

Lemma sendApplyMsg_ok n b i rf rf' msg :
  node_ok n b i rf → sendApplyMsg rf = Some (rf', msg) → node_ok n b i rf' ∧ mild rf rf'.
Proof.
  intros Hok H. unfold sendApplyMsg in H.
  case_match; [|go_inv; split; [done|apply mild_refl]].
  case_match; [go_inv; by eapply quiet_node_ok|].
  apply bind_Some in H as (e & He & H). go_inv. by eapply quiet_node_ok.
Qed.

(** *** Restart *)

Lemma Make_ok n b i rf now :
  node_ok n b i rf →
  node_ok n b i (Make (peers rf) i (persister rf) now).1 ∧
  mild rf (Make (peers rf) i (persister rf) now).1.
Proof.
  intros Hok. pose proof Hok as [? ? Hs ?].
  pose proof (Make_persistent (peers rf) i rf now Hs) as Hp.
  apply quiet_ok; auto.
  - unfold Make, readPersist; simpl. case_all; done.
  - unfold Make, readPersist; simpl. case_all; done.
  - unfold Make, readPersist; simpl. case_all; done.
  - left. unfold Make, readPersist; simpl. case_all; done.
Qed.
End effects.
