(* ===== verification/RaftInv.v ===== *)
(** * The cluster invariant of Raft and how the sections preserve it

    The invariant [Inv] relates a world of [RaftNet] to history variables:
    who ever voted for whom in which term, which voters an election has
    counted, and which entries leaders ever created.  Each lemma below
    preserves it over one kind of change of the world; [RaftSafety] combines
    them over the actions and reads the theorems off. *)

From S2P Require Import Prelude Persister RaftTypes RaftHandlers RaftLeader RaftNet RaftEffects.

Section inv.
Context {Cmd : Type} `{!Gob (PersistentState Cmd)}.
Implicit Types (rf : Raft Cmd) (w : World Cmd) (b : Born Cmd).

(** ** History variables *)

Record Hist := mkHist {
  granted : gmap (Z * Z) Z;   (** (voter, term) to candidate *)
  counted : nat → gset Z;     (** election to the voters its counter counts *)
  born : Born Cmd             (** entries ever created *)
}.

(** Histories only grow. *)
Definition extends (h h' : Hist) : Prop := granted h ⊆ granted h' ∧ born h ⊆ born h'.

(** In term [t], more than half of the [n] servers voted for [i]. *)
Definition leads (h : Hist) (n i t : Z) : Prop :=
  ∃ Q : gset Z, Q ⊆ ids n ∧ (n / 2 < Z.of_nat (size Q))%Z ∧
    ∀ p, p ∈ Q → granted h !! (p, t) = Some i.

Definition task_ok b (t : Task Cmd) : Prop :=
  match t with
  | TAppendCall _ _ args =>
      chain b (aea_PrevLogIndex args) (aea_PrevLogTerm args) (aea_Entries args)
  | _ => True
  end.

Definition pending (ph : option VotePhase) : Prop :=
  match ph with Some VCall | Some (VReply _) => True | _ => False end.

(** A vote goroutine of an election. *)
Definition call_ok (h : Hist) (n : Z) (e : Election) (p : Z) (ph : VotePhase) : Prop :=
  p ≠ el_cand e ∧ (0 ≤ p < n)%Z ∧
  match ph with
  | VReply r =>
      rvr_VoteGranted r = true → granted h !! (p, rva_Term (el_args e)) = Some (el_cand e)
  | VElected _ => (n / 2 < el_votes e)%Z
  | _ => True
  end.

(** An election: its candidate voted for itself, and its counter is one more
    than the number of other voters it counted, each of which voted for the
    candidate and will not be counted again. *)
Record election_ok (h : Hist) (n : Z) w (eid : nat) (e : Election) : Prop := {
  eok_cand : (0 ≤ el_cand e < n)%Z;
  eok_args : rva_CandidateId (el_args e) = el_cand e;
  eok_self : granted h !! (el_cand e, rva_Term (el_args e)) = Some (el_cand e);
  eok_votes : el_votes e = (1 + Z.of_nat (size (counted h eid)))%Z;
  eok_counted p : p ∈ counted h eid →
    p ≠ el_cand e ∧ (0 ≤ p < n)%Z ∧
    granted h !! (p, rva_Term (el_args e)) = Some (el_cand e) ∧
    ¬ pending (vcalls w !! (eid, p))
}.

Record Inv (n : Z) w (h : Hist) : Prop := {
  inv_n : (0 ≤ n)%Z;
  inv_dom i : is_Some (nodes w !! i) ↔ (0 ≤ i < n)%Z;
  inv_node i rf : nodes w !! i = Some rf → node_ok n (born h) i rf;
  inv_granted p t c : granted h !! (p, t) = Some c →
    (0 ≤ c)%Z ∧ ∃ rf, nodes w !! p = Some rf ∧ (t ≤ currTerm rf)%Z ∧
    (t = currTerm rf → votedFor rf = c);
  inv_voted p rf : nodes w !! p = Some rf → votedFor rf ≠ (-1)%Z →
    granted h !! (p, currTerm rf) = Some (votedFor rf);
  inv_election eid e : elections w !! eid = Some e → election_ok h n w eid e;
  inv_call eid p ph : vcalls w !! (eid, p) = Some ph →
    ∃ e, elections w !! eid = Some e ∧ call_ok h n e p ph;
  inv_leader i rf : nodes w !! i = Some rf → state rf = Leader →
    leads h n i (currTerm rf) ∧
    ∀ j x, born h !! (j, currTerm rf) = Some x → (j ≤ lastLogicalIndex rf)%Z;
  inv_born j t x : born h !! (j, t) = Some x →
    ∃ i rf, leads h n i t ∧ nodes w !! i = Some rf ∧
      ((t < currTerm rf)%Z ∨ (t = currTerm rf ∧ state rf ≠ Candidate));
  inv_task al t : (al, t) ∈ tasks w → task_ok (born h) t
}.

(** ** Quorum arguments *)

Lemma leads_unique h n i j t : (0 ≤ n)%Z → leads h n i t → leads h n j t → i = j.
Proof.
  intros Hn (Q1 & Hs1 & Hz1 & H1) (Q2 & Hs2 & Hz2 & H2).
  destruct (quorum_meet n Q1 Q2) as (p & Hp1 & Hp2); auto.
  specialize (H1 p Hp1). specialize (H2 p Hp2). congruence.
Qed.

Lemma leads_mono h h' n i t :
  granted h ⊆ granted h' → leads h n i t → leads h' n i t.
Proof.
  intros Hg (Q & ? & ? & HQ). exists Q. split_and!; [done..|].
  intros p Hp. eapply lookup_weaken; eauto.
Qed.

(** The counted voters and the candidate itself. *)
Lemma election_leads h n w eid e :
  election_ok h n w eid e → (n / 2 < el_votes e)%Z →
  leads h n (el_cand e) (rva_Term (el_args e)).
Proof.
  intros [Hc _ Hself Hv Hcnt] Hmaj. exists ({[el_cand e]} ∪ counted h eid).
  assert (el_cand e ∉ counted h eid) as Hnot by (intros H; by destruct (Hcnt _ H)).
  split_and!.
  - intros p. rewrite elem_of_union, elem_of_singleton, elem_of_ids.
    intros [->|Hp]; [done|]. by destruct (Hcnt _ Hp) as (_ & ? & _).
  - rewrite size_union by set_solver. rewrite size_singleton. lia.
  - intros p. rewrite elem_of_union, elem_of_singleton. intros [->|Hp]; [done|].
    by destruct (Hcnt _ Hp) as (_ & _ & ? & _).
Qed.

(** ** Preservation: nodes *)

(** A section of node [i] that is [mild] keeps the invariant. *)
Lemma inv_mild n w h i rf rf' :
  Inv n w h → nodes w !! i = Some rf → node_ok n (born h) i rf' → mild rf rf' →
  Inv n (set_node i rf' w) h.
Proof.
  intros HI Hi Hok Hm. destruct HI as [Hn Hdom Hnode Hgr Hvo Hel Hca Hle Hbo Hta].
  assert (currTerm rf ≤ currTerm rf')%Z as Hmono by (destruct Hm as [(->&_)|(?&_)]; lia).
  split; simpl; try done.
  - intros j. rewrite lookup_insert. case_decide; [subst|apply Hdom].
    rewrite <- Hdom. split; eauto.
  - intros j rfj Hj. rewrite lookup_insert in Hj. case_decide; simplify_eq; eauto.
  - intros p t c Hg. destruct (Hgr p t c Hg) as (Hc & rfp & Hp & Hle1 & Hv1). split; [done|].
    rewrite lookup_insert. case_decide; [subst p|eauto].
    simplify_eq. exists rf'. split_and!; [done|lia|]. intros Heq.
    destruct Hm as [(Ht&Hvv&_)|(Ht&_)]; [|lia]. rewrite Hvv. apply Hv1. lia.
  - intros p rfp Hp Hne. rewrite lookup_insert in Hp. case_decide; [subst p|eauto].
    simplify_eq. destruct Hm as [(Ht&Hvv&_)|(_&Hvv&_)]; [|done].
    rewrite Ht, Hvv. apply Hvo; congruence.
  - intros eid e He. destruct (Hel eid e He). by split.
  - intros j rfj Hj Hst. rewrite lookup_insert in Hj. case_decide; [subst j|eauto].
    simplify_eq. destruct Hm as [(Ht&_&[Hf|[Hs Hl]])|(_&_&Hf)];
      [by rewrite Hf in Hst| |by rewrite Hf in Hst].
    destruct (Hle i rf Hi) as [Hlead Hb]; [congruence|]. rewrite Ht. split; [done|].
    intros j x Hx. specialize (Hb j x Hx). lia.
  - intros j t x Hx. destruct (Hbo j t x Hx) as (k & rfk & Hlead & Hk & Hcase).
    destruct (decide (i = k)) as [<-|Hne].
    + simplify_eq. exists i, rf'. rewrite lookup_insert_eq. split_and!; [done..|].
      destruct Hm as [(Ht&_&Hs)|(Ht&_)]; [rewrite Ht|left; lia].
      destruct Hcase as [?|[? Hc]]; [by left|right]. split; [done|].
      destruct Hs as [->|[-> _]]; done.
    + exists k, rfk. rewrite lookup_insert_ne by done. done.
Qed.

(** Changes of the goroutines and of the channel alone. *)
Lemma inv_set_tasks n w h ts :
  Inv n w h → (∀ al t, (al, t) ∈ ts → task_ok (born h) t) → Inv n (set_tasks ts w) h.
Proof.
  intros [] Hts. split; simpl; try done.
  intros eid e He. destruct (inv_election0 eid e He). by split.
Qed.

Lemma inv_set_delivered n w h d : Inv n w h → Inv n (set_delivered d w) h.
Proof.
  intros []. split; simpl; try done.
  intros eid e He. destruct (inv_election0 eid e He). by split.
Qed.

Lemma inv_spawn n w h ts :
  Inv n w h → (∀ t, t ∈ ts → task_ok (born h) t) → Inv n (spawn ts w) h.
Proof.
  intros HI Hts. apply inv_set_tasks; [done|]. intros al t.
  rewrite elem_of_app, list_elem_of_fmap. intros [H|(t' & ? & ?)].
  - by eapply (inv_task _ _ _ HI).
  - simplify_eq. by apply Hts.
Qed.

Lemma inv_finish n w h k : Inv n w h → Inv n (finish k w) h.
Proof.
  intros HI. apply inv_set_tasks; [done|]. intros al t Ht.
  eapply (inv_task _ _ _ HI), list_elem_of_delete_inv, Ht.
Qed.

Lemma inv_become n w h k t : Inv n w h → task_ok (born h) t → Inv n (become k t w) h.
Proof.
  intros HI Ht. apply inv_set_tasks; [done|]. intros al t' Hin.
  apply list_elem_of_lookup in Hin as (j & Hj). rewrite list_lookup_alter in Hj.
  case_decide; [subst j|eapply (inv_task _ _ _ HI), list_elem_of_lookup_2, Hj].
  destruct (tasks w !! k); simplify_eq/=. done.
Qed.

(** ** Preservation: votes *)

(** Recording a vote that is consistent with the invariant. *)
Definition record_vote (p t c : Z) (h : Hist) : Hist :=
  mkHist (<[(p, t) := c]> (granted h)) (counted h) (born h).

Lemma record_vote_mono n w h p rf t c :
  Inv n w h → nodes w !! p = Some rf → (currTerm rf ≤ t)%Z →
  (currTerm rf = t → votedFor rf = (-1)%Z ∨ votedFor rf = c) →
  granted h ⊆ granted (record_vote p t c h).
Proof.
  intros HI Hp Ht Hv. apply map_subseteq_spec. intros [q u] d Hd. simpl.
  rewrite lookup_insert. case_decide; [|done]. simplify_eq.
  destruct (inv_granted _ _ _ HI q u d Hd) as (Hd0 & rf0 & Hq & Hle & Hv0). simplify_eq.
  assert (u = currTerm rf) as -> by lia. specialize (Hv0 eq_refl).
  destruct (Hv eq_refl); [lia|congruence].
Qed.

Lemma election_ok_mono h h' n w w' eid e :
  granted h ⊆ granted h' → counted h' = counted h → vcalls w' = vcalls w →
  election_ok h n w eid e → election_ok h' n w' eid e.
Proof.
  intros Hg Hc Hv []. split; rewrite ?Hc, ?Hv; eauto using lookup_weaken.
  intros p Hp. destruct (eok_counted0 p Hp) as (?&?&?&?).
  split_and!; eauto using lookup_weaken; lia.
Qed.

Lemma call_ok_mono h h' n e p ph :
  granted h ⊆ granted h' → call_ok h n e p ph → call_ok h' n e p ph.
Proof.
  intros Hg (?&?&Hph). do 2 (split; [done|]). destruct ph; eauto using lookup_weaken.
Qed.

(** A node votes for [c] in term [t] and becomes (or stays) follower or
    candidate. *)
Lemma inv_grant n w h p rf rf' t c :
  Inv n w h → nodes w !! p = Some rf → node_ok n (born h) p rf' → (0 ≤ c)%Z →
  (currTerm rf ≤ t)%Z → currTerm rf' = t → votedFor rf' = c → state rf' ≠ Leader →
  (state rf' = Candidate → (currTerm rf < t)%Z) →
  (currTerm rf = t → votedFor rf = (-1)%Z ∨ votedFor rf = c) →
  Inv n (set_node p rf' w) (record_vote p t c h).
Proof.
  intros HI Hp Hok Hc0 Ht Ht' Hv' Hst Hcand Hv.
  pose proof (record_vote_mono n w h p rf t c HI Hp Ht Hv) as Hmono.
  destruct HI as [Hn Hdom Hnode Hgr Hvo Hel Hca Hle Hbo Hta].
  split; simpl; try done.
  - intros j. rewrite lookup_insert. case_decide; [subst|apply Hdom].
    rewrite <- Hdom. split; eauto.
  - intros j rfj Hj. rewrite lookup_insert in Hj. case_decide; simplify_eq; eauto.
  - intros q u d Hd. rewrite lookup_insert in Hd. case_decide as Hqu.
    + simplify_eq. split; [done|]. exists rf'. rewrite lookup_insert_eq. done.
    + destruct (Hgr q u d Hd) as (Hd0 & rfq & Hq & Hleq & Hvq). split; [done|].
      rewrite lookup_insert. case_decide; [|eauto]. simplify_eq.
      exists rf'. split_and!; [done|lia|]. intros ->. done.
  - intros q rfq Hq Hne. rewrite lookup_insert in Hq. case_decide.
    + simplify_eq. by rewrite lookup_insert_eq.
    + eapply lookup_weaken; [|exact Hmono]. eauto.
  - intros eid e He. by apply (election_ok_mono h _ n w); auto.
  - intros eid q ph Hph. destruct (Hca eid q ph Hph) as (e & ? & ?).
    exists e. eauto using call_ok_mono.
  - intros j rfj Hj Hs. rewrite lookup_insert in Hj. case_decide; [by simplify_eq|].
    destruct (Hle j rfj Hj Hs). split; [by eapply leads_mono|done].
  - intros j u x Hx. destruct (Hbo j u x Hx) as (k & rfk & Hlead & Hk & Hcase).
    exists k. destruct (decide (p = k)) as [<-|Hne].
    + simplify_eq. exists rf'. rewrite lookup_insert_eq.
      split_and!; [by eapply leads_mono|done|].
      destruct Hcase as [?|[? Hcs]]; [left; lia|].
      destruct (decide (state rf' = Candidate)) as [Hc|Hc].
      * specialize (Hcand Hc). left. lia.
      * destruct (decide (u = currTerm rf')); [by right|left; lia].
    + exists rfk. rewrite lookup_insert_ne by done.
      split_and!; [by eapply leads_mono|done..].
Qed.

(** Moving a vote goroutine of an election that exists. *)
Lemma inv_set_call n w h eid e p ph ph' :
  Inv n w h → elections w !! eid = Some e → vcalls w !! (eid, p) = Some ph →
  call_ok h n e p ph' → (pending (Some ph') → p ∉ counted h eid) →
  Inv n (set_vcalls (<[(eid, p) := ph']> (vcalls w)) w) h.
Proof.
  intros HI He Hph Hok Hpend. destruct HI as [Hn Hdom Hnode Hgr Hvo Hel Hca Hle Hbo Hta].
  split; simpl; try done.
  - intros eid' e' He'. destruct (Hel eid' e' He') as [? ? ? ? Hcnt]. split; try done.
    intros q Hq. destruct (Hcnt q Hq) as (?&?&?&Hnp). do 3 (split; [done|]). simpl.
    rewrite lookup_insert. case_decide; [|done]. simplify_eq. intros Hx. by apply Hpend.
  - intros eid' q ph'' H. rewrite lookup_insert in H. case_decide; [|eauto].
    simplify_eq. eauto.
Qed.

Lemma inv_delete_call n w h eid p :
  Inv n w h → Inv n (set_vcalls (delete (eid, p) (vcalls w)) w) h.
Proof.
  intros HI. destruct HI as [Hn Hdom Hnode Hgr Hvo Hel Hca Hle Hbo Hta].
  split; simpl; try done.
  - intros eid' e' He'. destruct (Hel eid' e' He') as [? ? ? ? Hcnt]. split; try done.
    intros q Hq. destruct (Hcnt q Hq) as (?&?&?&Hnp). do 3 (split; [done|]). simpl.
    rewrite lookup_delete. case_decide; [|done]. intros [].
  - intros eid' q ph'' H. rewrite lookup_delete in H. case_decide; [done|eauto].
Qed.

(** A pending goroutine's voter has not been counted. *)
Lemma pending_not_counted n w h eid e p ph :
  Inv n w h → elections w !! eid = Some e → vcalls w !! (eid, p) = Some ph →
  pending (Some ph) → p ∉ counted h eid.
Proof.
  intros HI He Hph Hpend Hin.
  destruct (eok_counted _ _ _ _ _ (inv_election _ _ _ HI eid e He) p Hin) as (_&_&_&Hn).
  apply Hn. by rewrite Hph.
Qed.

(** Counting a granted vote: the goroutine leaves the pending phases. *)
Definition count_voter (eid : nat) (p : Z) (h : Hist) : Hist :=
  mkHist (granted h) (λ x, if decide (x = eid) then {[p]} ∪ counted h x else counted h x) (born h).

Definition count_vote (eid : nat) (p : Z) (e : Election) (after : option VotePhase) w : World Cmd :=
  set_vcalls
    (match after with Some ph => <[(eid, p) := ph]> (vcalls w)
                    | None => delete (eid, p) (vcalls w) end)
    (set_elections (<[eid := mkElection (el_cand e) (el_args e) (el_votes e + 1) (el_alive e)]>
      (elections w)) w).

Lemma inv_count n w h eid e p r after :
  Inv n w h → elections w !! eid = Some e → vcalls w !! (eid, p) = Some (VReply r) →
  rvr_VoteGranted r = true →
  (∀ ph, after = Some ph →
     ph = VElected r ∧ (n / 2 < el_votes e + 1)%Z) →
  Inv n (count_vote eid p e after w) (count_voter eid p h).
Proof.
  intros HI He Hph Hr Hafter.
  pose proof (pending_not_counted n w h eid e p _ HI He Hph I) as Hnc.
  pose proof (inv_call _ _ _ HI eid p _ Hph) as (e0 & He0 & Hpc & Hpn & Hgr0).
  rewrite He in He0. injection He0 as <-. specialize (Hgr0 Hr).
  pose proof (lookup_lt_Some _ _ _ He) as Hlt.
  destruct HI as [Hn Hdom Hnode Hgr Hvo Hel Hca Hle Hbo Hta].
  split; simpl; try done.
  - intros eid' e' He'. rewrite list_lookup_insert in He'. case_decide as Hd.
    + destruct Hd as [<- _]. injection He' as <-. destruct (Hel eid e He) as [? ? ? Hvotes Hcnt].
      split; simpl; try done.
      * rewrite decide_True by done. rewrite size_union by set_solver.
        rewrite size_singleton. lia.
      * intros q. rewrite decide_True, elem_of_union, elem_of_singleton by done.
        intros [->|Hq].
        -- do 3 (split; [done|]). destruct after as [ph|].
           ++ rewrite lookup_insert_eq. destruct (Hafter ph eq_refl) as [-> _]. intros [].
           ++ rewrite lookup_delete_eq. intros [].
        -- destruct (Hcnt q Hq) as (?&?&?&Hnp). do 3 (split; [done|]).
           destruct (decide (q = p)) as [->|Hne]; [done|].
           destruct after; [rewrite lookup_insert_ne|rewrite lookup_delete_ne]; congruence.
    + assert (eid ≠ eid') as Hne by naive_solver.
      destruct (Hel eid' e' He') as [? ? ? ? Hcnt]. split; simpl; rewrite ?decide_False by done; try done.
      intros q Hq. destruct (Hcnt q Hq) as (?&?&?&?). do 3 (split; [done|]).
      destruct after; [rewrite lookup_insert_ne|rewrite lookup_delete_ne]; congruence.
  - intros eid' q ph H.
    assert (((eid', q) = (eid, p) ∧ after = Some ph) ∨ vcalls w !! (eid', q) = Some ph) as Hcase.
    { destruct after as [ph0|].
      - rewrite lookup_insert in H. case_decide; simplify_eq; auto.
      - rewrite lookup_delete in H. case_decide; simplify_eq; auto. }
    rewrite list_lookup_insert. destruct Hcase as [[Heq Ha]|Hold].
    + simplify_eq. rewrite decide_True by done. eexists. split; [done|].
      destruct (Hafter ph eq_refl) as [-> Hmaj]. do 2 (split; [done|]). simpl. lia.
    + destruct (Hca eid' q ph Hold) as (e' & He' & Hpc' & Hpn' & Hok).
      case_decide as Hd.
      * destruct Hd as [<- _]. rewrite He in He'. injection He' as <-.
        eexists. split; [done|]. do 2 (split; [done|]). destruct ph; simpl in *; auto. lia.
      * eauto.
Qed.

(** ** Preservation: leadership, new elections, new entries, restarts *)

(** No entry of term [t] exists before a candidate of [t] takes office. *)
Lemma no_born_before n w h i rf j x :
  Inv n w h → nodes w !! i = Some rf → state rf = Candidate →
  leads h n i (currTerm rf) → born h !! (j, currTerm rf) = Some x → False.
Proof.
  intros HI Hi Hst Hlead Hx.
  destruct (inv_born _ _ _ HI _ _ _ Hx) as (k & rfk & Hk & Hnk & Hcase).
  assert (k = i) as -> by (eapply leads_unique; [apply HI|done..]).
  simplify_eq. destruct Hcase as [?|[_ ?]]; [lia|done].
Qed.

Lemma inv_promote n w h i rf rf' :
  Inv n w h → nodes w !! i = Some rf → node_ok n (born h) i rf' →
  state rf = Candidate → state rf' = Leader → persistent rf' = persistent rf →
  leads h n i (currTerm rf) → Inv n (set_node i rf' w) h.
Proof.
  intros HI Hi Hok Hc Hl Hp Hlead. unfold persistent in Hp. injection Hp as Ht Hv _ _ _.
  pose proof (λ j x, no_born_before n w h i rf j x HI Hi Hc Hlead) as Hno.
  destruct HI as [Hn Hdom Hnode Hgr Hvo Hel Hca Hle Hbo Hta]. split; simpl; try done.
  - intros j. rewrite lookup_insert. case_decide; [subst|apply Hdom].
    rewrite <- Hdom. split; eauto.
  - intros j rfj Hj. rewrite lookup_insert in Hj. case_decide; simplify_eq; eauto.
  - intros p t c Hg. destruct (Hgr p t c Hg) as (? & rfp & Hp & ? & ?). split; [done|].
    rewrite lookup_insert. case_decide; [subst p|eauto]. simplify_eq.
    exists rf'. rewrite Ht, Hv. done.
  - intros p rfp Hp Hne. rewrite lookup_insert in Hp. case_decide; [subst p|eauto].
    simplify_eq. rewrite Ht, Hv in *. eauto.
  - intros eid e He. by apply (election_ok_mono h _ n w); auto.
  - intros j rfj Hj Hst. rewrite lookup_insert in Hj. case_decide; [subst j|eauto].
    simplify_eq. rewrite Ht. split; [done|]. intros j x Hx. by destruct (Hno j x).
  - intros j t x Hx. destruct (Hbo j t x Hx) as (k & rfk & Hlk & Hk & Hcase).
    exists k. destruct (decide (i = k)) as [<-|Hne].
    + simplify_eq. exists rf'. rewrite lookup_insert_eq. split_and!; [done..|].
      rewrite Ht, Hl. destruct Hcase as [?|[? ?]]; [by left|done].
    + exists rfk. by rewrite lookup_insert_ne.
Qed.

Lemma foldr_calls_lookup (eid : nat) (ps : list Z) (m : gmap (nat * Z) VotePhase) eid' p ph :
  foldr (λ peer m, <[(eid, peer) := VCall]> m) m ps !! (eid', p) = Some ph →
  (eid' = eid ∧ p ∈ ps ∧ ph = VCall) ∨ m !! (eid', p) = Some ph.
Proof.
  induction ps as [|q ps IH]; simpl; [by right|].
  rewrite lookup_insert. case_decide; [intros; simplify_eq; left; set_solver|].
  intros Hl. destruct (IH Hl) as [(?&?&?)|?]; [left; set_solver|by right].
Qed.

Lemma foldr_calls_ne (eid : nat) (ps : list Z) (m : gmap (nat * Z) VotePhase) eid' p :
  eid ≠ eid' → foldr (λ peer m, <[(eid, peer) := VCall]> m) m ps !! (eid', p) = m !! (eid', p).
Proof.
  intros Hne. induction ps as [|q ps IH]; simpl; [done|].
  by rewrite lookup_insert_ne by congruence.
Qed.

(** A candidate that has voted for itself opens an election. *)
Definition open_count (eid : nat) (h : Hist) : Hist :=
  mkHist (granted h) (λ x, if decide (x = eid) then ∅ else counted h x) (born h).

Lemma inv_open n w h i rf args :
  Inv n w h → nodes w !! i = Some rf → rva_CandidateId args = i →
  granted h !! (i, rva_Term args) = Some i →
  Inv n (open_election rf args w) (open_count (length (elections w)) h).
Proof.
  intros HI Hi Hci Hself. pose proof (inv_node _ _ _ HI i rf Hi) as [Hme Hpe _ _].
  assert (0 ≤ i < n)%Z as Hin by (apply (inv_dom _ _ _ HI); eauto).
  destruct HI as [Hn Hdom Hnode Hgr Hvo Hel Hca Hle Hbo Hta]. split; simpl; try done.
  - intros eid e He. apply lookup_app_Some in He as [He|[Hge He]].
    + pose proof (lookup_lt_Some _ _ _ He). destruct (Hel eid e He) as [? ? ? ? Hcnt].
      split; simpl; rewrite ?decide_False by lia; try done.
      intros q Hq. destruct (Hcnt q Hq) as (?&?&?&?). do 3 (split; [done|]).
      by rewrite foldr_calls_ne by lia.
    + apply list_lookup_singleton_Some in He as [Hz <-].
      split; simpl; rewrite ?decide_True by lia; try (rewrite Hme; done); try done.
  - intros eid p ph Hph. apply foldr_calls_lookup in Hph as [(-> & Hps & ->)|Hph].
    + eexists. split; [apply list_lookup_middle; done|].
      unfold other_peers, peer_range in Hps. rewrite list_elem_of_filter, elem_of_seqZ in Hps.
      simpl. split; [naive_solver|]. split; [simpl; lia|done].
    + destruct (Hca eid p ph Hph) as (e & He & Hok). exists e. split; [|done].
      by apply lookup_app_l_Some.
Qed.

(** A leader appends an entry: the only way an entry comes to be. *)
Definition record_entry (j t : Z) (x : option Cmd * Z) (h : Hist) : Hist :=
  mkHist (granted h) (counted h) (<[(j, t) := x]> (born h)).

Definition record_start rf (c : Cmd) (h : Hist) : Hist :=
  match list.last (logs rf) with
  | Some e => record_entry (lastLogicalIndex rf + 1) (currTerm rf) (Some c, Term e) h
  | None => h
  end.

Lemma inv_start n w h i rf c :
  Inv n w h → nodes w !! i = Some rf → state rf = Leader →
  extends h (record_start rf c h) ∧ Inv n (set_node i (Start c rf).1 w) (record_start rf c h).
Proof.
  unfold record_start.
  intros HI Hi Hl. pose proof (inv_leader _ _ _ HI i rf Hi Hl) as [Hlead Hbound].
  pose proof (inv_node _ _ _ HI i rf Hi) as Hok. rewrite Start_leader by done. simpl.
  destruct (list.last (logs rf)) as [e|] eqn:He.
  2: { apply last_None in He. destruct Hok as [_ _ _ Hc]. by rewrite He in Hc. }
  destruct (Start_ok n (born h) i c rf e Hok He) as [Hok'|[x Hx]].
  2: { specialize (Hbound _ _ Hx). lia. }
  set (rf' := persist _) in *.
  assert (lastLogicalIndex rf' = lastLogicalIndex rf + 1)%Z as Hlast.
  { unfold lastLogicalIndex, rf'; simpl. rewrite zlen_app, zlen_cons, zlen_nil. lia. }
  assert (born h ⊆ <[((lastLogicalIndex rf + 1)%Z, currTerm rf) := (Some c, Term e)]> (born h))
    as Hmono.
  { apply insert_subseteq. destruct (born h !! _) eqn:Hx; [|done]. specialize (Hbound _ _ Hx). lia. }
  pose proof (inv_n _ _ _ HI) as Hn0. split; [by split|].
  destruct HI as [Hn Hdom Hnode Hgr Hvo Hel Hca Hle Hbo Hta]. split; simpl; try done.
  - intros j. rewrite lookup_insert. case_decide; [subst|apply Hdom].
    rewrite <- Hdom. split; eauto.
  - intros j rfj Hj. rewrite lookup_insert in Hj. case_decide; simplify_eq; [done|].
    eapply node_ok_mono; eauto.
  - intros p t d Hg. destruct (Hgr p t d Hg) as (? & rfp & Hp & ? & ?). split; [done|].
    rewrite lookup_insert. case_decide; [subst p|eauto]. simplify_eq. by exists rf'.
  - intros p rfp Hp Hne. rewrite lookup_insert in Hp. case_decide; [subst p|eauto].
    simplify_eq. apply (Hvo i rf Hi Hne).
  - intros eid el Hel'. by apply (election_ok_mono h _ n w); auto.
  - intros j rfj Hj Hst. rewrite lookup_insert in Hj. case_decide as Hd.
    + simplify_eq. split; [done|]. intros k x. rewrite lookup_insert, Hlast.
      case_decide; [intros; simplify_eq; lia|]. intros Hx. specialize (Hbound k x Hx). lia.
    + destruct (Hle j rfj Hj Hst) as [Hlj Hb]. split; [done|]. intros k x.
      rewrite lookup_insert. case_decide as Hk; [|eauto]. injection Hk as _ Hk.
      rewrite Hk in Hlead. by destruct (Hd (leads_unique _ _ _ _ _ Hn0 Hlead Hlj)).
  - intros j t x Hx. rewrite lookup_insert in Hx. case_decide as Hk.
    + simplify_eq. exists i, rf'. rewrite lookup_insert_eq. split_and!; [done..|].
      right. split; [done|]. change (state rf' ) with (state rf). by rewrite Hl.
    + destruct (Hbo j t x Hx) as (k & rfk & Hlk & Hnk & Hcase). exists k.
      destruct (decide (i = k)) as [<-|]; [|exists rfk; by rewrite lookup_insert_ne].
      simplify_eq. exists rf'. by rewrite lookup_insert_eq.
  - intros al t Ht. specialize (Hta al t Ht). destruct t; try done. by eapply chain_mono.
Qed.
End inv.
