(* ===== verification/RaftSafety.v ===== *)
(** * Safety of the Raft cluster: election safety and log matching

    Every action of [RaftNet] preserves the invariant of [RaftInv] for some
    extension of the history, so it holds in every reachable world. *)

From S2P Require Import Prelude Persister RaftTypes RaftHandlers RaftLeader RaftNet RaftEffects RaftInv.

Section safety.
Context {Cmd : Type} `{!Gob (PersistentState Cmd)}.
Implicit Types (rf : Raft Cmd) (w : World Cmd).

(** Invert [run_section]. *)
Lemma run_section_Next {A} w i (f : Raft Cmd → option A) (k : A → World Cmd) w' :
  run_section w i f k = Next w' →
  ∃ rf a, nodes w !! i = Some rf ∧ f rf = Some a ∧ w' = k a.
Proof.
  unfold run_section. destruct (nodes w !! i) as [rf|]; [|done].
  destruct (f rf) as [a|] eqn:Ha; [|done]. intros [= <-]. eauto.
Qed.

Ltac section_inv H :=
  let rf := fresh "rf" in let a := fresh "a" in let Hi := fresh "Hi" in let Ha := fresh "Ha" in
  apply run_section_Next in H as (rf & a & Hi & Ha & ->).

(** The history does not change. *)
Ltac keep := split; [by split|].

(** ** The history variables, action by action

    A vote goroutine adds the vote that [RequestVote] grants, and the voter
    that [vote_reply] counts; [startElection] adds the candidate's own vote;
    [Start] adds the entry it creates. *)
Definition evolve_vote w (eid : nat) (p now : Z) (net : RpcOutcome) (e : Election)
    (ph : VotePhase) (h : Hist (Cmd := Cmd)) : Hist :=
  match ph, net with
  | VCall, RequestLost => h
  | VCall, _ =>
      match nodes w !! p ≫= RequestVote now (el_args e) with
      | Some (_, reply) =>
          if rvr_VoteGranted reply then record_vote p (rva_Term (el_args e)) (el_cand e) h else h
      | None => h
      end
  | VReply r, _ =>
      match nodes w !! el_cand e with
      | Some rf =>
          if ((vote_reply (rva_Term (el_args e)) (el_votes e) r rf).1.2 =? el_votes e)%Z
          then h else count_voter eid p h
      | None => h
      end
  | _, _ => h
  end.

Definition evolve_task w (t : Task Cmd) (h : Hist (Cmd := Cmd)) : Hist :=
  match t with
  | TElection i =>
      match nodes w !! i with
      | Some rf => open_count (length (elections w)) (record_vote i (currTerm rf + 1) i h)
      | None => h
      end
  | _ => h
  end.

Definition evolve (a : Action Cmd) w (h : Hist (Cmd := Cmd)) : Hist :=
  match a with
  | AStart i c =>
      match nodes w !! i with
      | Some rf => if is_leader rf then record_start rf c h else h
      | None => h
      end
  | AVote eid p now net =>
      match elections w !! eid, vcalls w !! (eid, p) with
      | Some e, Some ph => evolve_vote w eid p now net e ph h
      | _, _ => h
      end
  | ARun k _ _ =>
      match tasks w !! k with Some (_, t) => evolve_task w t h | None => h end
  | _ => h
  end.

(** A [mild] section of node [i], packaged with what it returns. *)
Lemma inv_section n w h i rf rf' :
  Inv n w h → nodes w !! i = Some rf →
  node_ok n (born h) i rf' ∧ mild rf rf' → Inv n (set_node i rf' w) h.
Proof. intros HI Hi [Hok Hm]. by eapply inv_mild. Qed.

Lemma inv_set_elections_id n w h eid e :
  elections w !! eid = Some e → Inv n w h →
  Inv n (set_elections (<[eid := mkElection (el_cand e) (el_args e) (el_votes e) (el_alive e)]>
    (elections w)) w) h.
Proof.
  intros He HI. destruct e as [ec ea ev el]; simpl. rewrite list_insert_id by done. by destruct w.
Qed.

(** ** Vote goroutines *)

Lemma vote_call_inv n w h eid p now net e w' :
  Inv n w h → elections w !! eid = Some e → vcalls w !! (eid, p) = Some VCall →
  run_vote w eid p now net e VCall = Next w' →
  extends h (evolve_vote w eid p now net e VCall h) ∧
  Inv n w' (evolve_vote w eid p now net e VCall h).
Proof.
  intros HI He Hph H.
  pose proof (pending_not_counted n w h eid e p _ HI He Hph I) as Hnc.
  pose proof (inv_call _ _ _ HI eid p _ Hph) as (e0 & He0 & Hpc & Hpn & _). simplify_eq.
  pose proof (inv_election _ _ _ HI eid e He) as [Hcand Hargs _ _ _].
  assert (∀ (h' : Hist (Cmd := Cmd)) r, (rvr_VoteGranted r = true →
            granted h' !! (p, rva_Term (el_args e)) = Some (el_cand e)) →
          call_ok h' n e p (VReply r)) as Hcall by (intros h' r Hr; split_and!; lia || done).
  assert (∀ rf reply r, nodes w !! p = Some rf → RequestVote now (el_args e) rf = Some (reply) →
            (r = reply.2 ∨ r = zero_RequestVoteReply) →
            let h' := if rvr_VoteGranted reply.2
              then record_vote p (rva_Term (el_args e)) (el_cand e) h else h in
            extends h h' ∧ Inv n (set_vcalls (<[(eid, p) := VReply r]> (vcalls w))
                           (set_node p reply.1 w)) h') as Hrun.
  { intros rf [rf' reply] r Hi Hrv Hr. simpl in *.
    destruct (RequestVote_ok n (born h) p now (el_args e) rf rf' reply) as [Hok Hc];
      [by apply HI|done|]. destruct Hc as [[Hg Hm]|[Hg (Hle & Ht & Hv & Hs & Hcond)]].
    - rewrite Hg. keep. eapply (inv_set_call n (set_node p rf' w)); [by eapply inv_mild|done|done| |done].
      apply Hcall. intros Hg'. destruct Hr as [->| ->]; [congruence|done].
    - rewrite Hg. rewrite Hargs in *.
      split; [split; [by eapply record_vote_mono|done]|].
      eapply (inv_set_call n (set_node p rf' w)); [|done|done| |done].
      + eapply inv_grant; try done; [lia|by rewrite Hs..].
      + apply Hcall. intros _. simpl. by rewrite lookup_insert_eq. }
  destruct net; simpl in H.
  - section_inv H. cbn [evolve_vote]. rewrite Hi. cbn [mbind option_bind]. rewrite Ha.
    destruct a as [rf' reply].
    apply (Hrun rf (rf', reply) reply); auto.
  - section_inv H. cbn [evolve_vote]. rewrite Hi. cbn [mbind option_bind]. rewrite Ha.
    destruct a as [rf' reply].
    apply (Hrun rf (rf', reply) zero_RequestVoteReply); auto.
  - injection H as <-. keep. eapply inv_set_call; [done..| |done]. by apply Hcall.
Qed.

Lemma vote_reply_inv n w h eid p now net e r w' :
  Inv n w h → elections w !! eid = Some e → vcalls w !! (eid, p) = Some (VReply r) →
  run_vote w eid p now net e (VReply r) = Next w' →
  extends h (evolve_vote w eid p now net e (VReply r) h) ∧
  Inv n w' (evolve_vote w eid p now net e (VReply r) h).
Proof.
  intros HI He Hph H. simpl in H. destruct (el_alive e) eqn:Hal; [|done].
  section_inv H. destruct a as [[rf' votes'] elected]. injection Ha as Ha.
  cbn [evolve_vote]. rewrite Hi, Ha. cbn [fst snd].
  destruct (vote_reply_ok n (born h) (el_cand e) _ _ _ _ _ _ _ (inv_node _ _ _ HI _ _ Hi) Ha)
    as (Hok & Hm & Hcase & Hel).
  pose proof (inv_mild n w h _ _ _ HI Hi Hok Hm) as HI'.
  destruct Hcase as [[-> ->]|[-> Hg]].
  - rewrite Z.eqb_refl. keep. apply (inv_delete_call n (set_elections _ (set_node (el_cand e) rf' w))).
    rewrite <- Hal. by apply (inv_set_elections_id n (set_node (el_cand e) rf' w)).
  - rewrite (proj2 (Z.eqb_neq _ _)) by lia. keep.
    pose proof (inv_count n (set_node (el_cand e) rf' w) h eid e p r
      (if elected then Some (VElected r) else None) HI' He Hph Hg) as HI2.
    unfold count_vote in HI2. rewrite Hal in HI2. destruct elected; apply HI2.
    + intros ph [= <-]. auto.
    + done.
Qed.

Lemma vote_elected_inv n w h eid p now net e r w' :
  Inv n w h → elections w !! eid = Some e → vcalls w !! (eid, p) = Some (VElected r) →
  run_vote w eid p now net e (VElected r) = Next w' → Inv n w' h.
Proof.
  intros HI He Hph H. simpl in H. destruct (el_alive e); [|done].
  section_inv H. destruct a as [rf' started].
  pose proof (inv_call _ _ _ HI eid p _ Hph) as (e0 & He0 & Hpc & Hpn & Hmaj). simplify_eq.
  pose proof (election_leads _ _ _ _ _ (inv_election _ _ _ HI eid e He) Hmaj) as Hlead.
  destruct (becomeLeader_ok n (born h) (el_cand e) _ _ _ _ (inv_node _ _ _ HI _ _ Hi) Ha)
    as [Hok Hcase].
  apply inv_spawn; [|by destruct started; intros t; rewrite ?list_elem_of_singleton;
                               [intros ->|intros ?%not_elem_of_nil]].
  eapply (inv_set_call n (set_node (el_cand e) rf' w)); [|done|done|by split_and!; lia|done].
  destruct Hcase as [[-> ->]|(-> & Hc & Ht & Hl & Hp)].
  - eapply inv_mild; eauto using mild_refl.
  - eapply inv_promote; eauto. by rewrite Ht.
Qed.

Lemma run_vote_inv n w h eid p now net e ph w' :
  Inv n w h → elections w !! eid = Some e → vcalls w !! (eid, p) = Some ph →
  run_vote w eid p now net e ph = Next w' →
  extends h (evolve_vote w eid p now net e ph h) ∧ Inv n w' (evolve_vote w eid p now net e ph h).
Proof.
  intros HI He Hph H. destruct ph as [|r|r|r].
  - by eapply vote_call_inv.
  - by eapply vote_reply_inv.
  - keep. by eapply vote_elected_inv.
  - simpl in H. destruct (el_alive e); [|done]. section_inv H. injection Ha as <-.
    keep. apply (inv_delete_call n (set_node (el_cand e) _ w)).
    eapply inv_section; [done..|]. apply vote_termCheck_ok. by apply HI.
Qed.

(** ** The other goroutines *)

(** Goroutine lists of at most one element, none of them a request. *)
Ltac plain_tasks :=
  intros ?t; simpl; rewrite ?list_elem_of_singleton;
  solve [ by intros -> | by intros ?%not_elem_of_nil ].

Lemma spawn_plain n w h ts :
  Inv n w h → (∀ t, t ∈ ts → match t with TAppendCall _ _ _ => False | _ => True end) →
  Inv n (spawn ts w) h.
Proof.
  intros HI Hts. apply inv_spawn; [done|]. intros t Ht. specialize (Hts t Ht). by destruct t.
Qed.

Lemma spawn_appends n w h i (ps : list Z) :
  Inv n w h → Inv n (spawn (TAppend i <$> ps) w) h.
Proof.
  intros HI. apply spawn_plain; [done|]. intros t Ht.
  apply list_elem_of_fmap in Ht as (p & -> & _). done.
Qed.

Lemma append_call_inv n w h k i p args now net al w' :
  Inv n w h → tasks w !! k = Some (al, TAppendCall i p args) →
  run_task w k now net al (TAppendCall i p args) = Next w' → Inv n w' h.
Proof.
  intros HI Hk H.
  pose proof (inv_task _ _ _ HI al _ (list_elem_of_lookup_2 _ _ _ Hk)) as Hch. simpl in Hch.
  assert (∀ rf res, nodes w !! p = Some rf → AppendEntries now args rf = Some res →
            Inv n (set_node p res.1 w) h) as Hrun.
  { intros rf [rf' reply] Hi Ha. eapply inv_section; [done..|].
    eapply AppendEntries_ok; eauto. by apply HI. }
  destruct net; simpl in H.
  - section_inv H. destruct a as [rf' reply].
    apply inv_become; [by apply (Hrun rf (rf', reply))|done].
  - section_inv H. destruct a as [rf' reply]. apply inv_finish. by apply (Hrun rf (rf', reply)).
  - injection H as <-. by apply inv_finish.
Qed.

Lemma snapshot_call_inv n w h k i p args now net al w' :
  Inv n w h → run_task w k now net al (TSnapshotCall i p args) = Next w' → Inv n w' h.
Proof.
  intros HI H.
  assert (∀ rf res, nodes w !! p = Some rf → InstallSnapshot now args rf = Some res →
            Inv n (set_node p res.1.1 w) h) as Hrun.
  { intros rf [[rf' reply] msg] Hi Ha. eapply inv_section; [done..|].
    eapply InstallSnapshot_ok; eauto. by apply HI. }
  assert (∀ (msg : option (ApplyMsg Cmd)) t, t ∈ option_task (TSendSnapshot p) msg →
            match t with TAppendCall _ _ _ => False | _ => True end) as Hmsg.
  { intros [m|]; plain_tasks. }
  destruct net; simpl in H.
  - section_inv H. destruct a as [[rf' reply] msg]. apply spawn_plain; [|apply Hmsg].
    apply inv_become; [by apply (Hrun rf (rf', reply, msg))|done].
  - section_inv H. destruct a as [[rf' reply] msg]. apply spawn_plain; [|apply Hmsg].
    apply inv_finish. by apply (Hrun rf (rf', reply, msg)).
  - injection H as <-. by apply inv_finish.
Qed.

(** Opening an election: the candidate's own vote, then the goroutines. *)
Lemma election_inv n w h k i now rf rf' args :
  Inv n w h → nodes w !! i = Some rf → startElection now rf = Some (rf', args) →
  let h' := open_count (length (elections w)) (record_vote i (currTerm rf + 1) i h) in
  extends h h' ∧ Inv n (open_election rf' args (finish k (set_node i rf' w))) h'.
Proof.
  intros HI Hi Ha.
  destruct (startElection_ok n (born h) i now rf rf' args) as (Hok & Ht & Hv & Hs & Hat & Hac);
    [by apply HI|done|].
  assert (0 ≤ i)%Z as Hi0 by (eapply (inv_dom _ _ _ HI); eauto).
  split; [|apply (inv_open n (finish k (set_node i rf' w))
    (record_vote i (currTerm rf + 1) i h) i rf' args); simpl].
  - split; [|done]. eapply (record_vote_mono n w); eauto; lia.
  - apply inv_finish. eapply inv_grant; eauto; try lia. by rewrite Hs.
  - by rewrite lookup_insert_eq.
  - done.
  - rewrite Hat, Ht. by rewrite lookup_insert_eq.
Qed.

Lemma run_task_inv n w h k now net al t w' :
  Inv n w h → tasks w !! k = Some (al, t) →
  run_task w k now net al t = Next w' →
  extends h (evolve_task w t h) ∧ Inv n w' (evolve_task w t h).
Proof.
  intros HI Hk H.
  destruct t as [i|i|i|i p|i p args|i p args reply|i p|i p args|i p args reply|i msg|i msg];
    try (keep; by eapply append_call_inv); try (keep; by eapply snapshot_call_inv);
    simpl in H; destruct al; simpl in H; try done.
  - section_inv H. destruct a as [rf' args]. cbn [evolve_task]. rewrite Hi. by eapply election_inv.
  - section_inv H. keep. case_match; auto using inv_finish, spawn_appends.
  - section_inv H. keep. case_match; auto using inv_finish, spawn_appends.
  - section_inv H. keep. destruct a as [|args]; apply inv_become; try done.
    eapply makeAppendEntry_ok; eauto. by apply HI.
  - section_inv H. destruct a as [rf' snap]. keep. apply spawn_plain.
    + apply inv_finish. eapply inv_section; [done..|]. eapply append_reply_ok; eauto. by apply HI.
    + destruct snap; plain_tasks.
  - section_inv H. keep. by apply inv_become.
  - section_inv H. keep. apply inv_finish. eapply inv_section; [done..|].
    eapply snapshot_reply_ok; eauto. by apply HI.
  - injection H as <-. keep. by apply inv_finish, inv_set_delivered.
  - injection H as <-. keep. by apply inv_finish, inv_set_delivered.
Qed.

(** ** Crashes *)

(** Marking elections and goroutines of a dead process. *)
Lemma inv_mark n w h f g d :
  Inv n w h →
  Inv n (mkWorld (nodes w)
    ((λ e, mkElection (el_cand e) (el_args e) (el_votes e) (f e)) <$> elections w)
    (vcalls w) ((λ p, (g p, p.2)) <$> tasks w) d) h.
Proof.
  intros [Hn Hdom Hnode Hgr Hvo Hel Hca Hle Hbo Hta]. split; simpl; try done.
  - intros eid e He. apply list_lookup_fmap_Some in He as (e0 & -> & He0).
    destruct (Hel eid e0 He0). by split.
  - intros eid p ph Hph. destruct (Hca eid p ph Hph) as (e & He & Hok).
    eexists. rewrite list_lookup_fmap, He. split; [done|].
    destruct Hok as (?&?&?). split_and!; done || lia.
  - intros al t Ht. apply list_elem_of_fmap in Ht as ([al' t'] & ? & Hin). simplify_eq/=. eauto.
Qed.

Lemma restart_inv n w h i now rf w' :
  Inv n w h → nodes w !! i = Some rf → step (ARestart i now) w = Next w' → Inv n w' h.
Proof.
  intros HI Hi H. unfold step in H. rewrite Hi in H.
  pose proof (inv_section n w h i rf _ HI Hi
    (Make_ok n (born h) i rf now (inv_node _ _ _ HI i rf Hi))) as HI'.
  destruct (Make (peers rf) i (persister rf) now) as [rf' msg] eqn:Hmk. simplify_eq.
  apply spawn_plain.
  - exact (inv_mark n (set_node i rf' w) h (λ e, el_alive e && negb (el_cand e =? i)%Z)
             (λ p, p.1 && negb (owner p.2 =? i)%Z) (<[i := []]> (delivered w)) HI').
  - destruct msg; plain_tasks.
Qed.

(** ** The invariant is inductive *)

Lemma step_inv n w h a w' :
  Inv n w h → step a w = Next w' → extends h (evolve a w h) ∧ Inv n w' (evolve a w h).
Proof.
  intros HI H. destruct a as [i now timeout|i c|i index data|i|i|i now|eid p now net|k now net].
  - section_inv H. injection Ha as <-. keep. case_match; [|done].
    apply spawn_plain; [done|plain_tasks].
  - section_inv H. injection Ha as <-. cbn [evolve]. rewrite Hi.
    set (h' := if is_leader rf then _ else h).
    assert (extends h h' ∧ Inv n (set_node i (Start c rf).1 w) h') as [Hext HI'].
    { unfold h', is_leader. destruct (state rf =? Leader)%Z eqn:Hl; b2p; [by eapply inv_start|].
      rewrite Start_follower by done. keep. eapply inv_mild; eauto using mild_refl. by apply HI. }
    split; [done|]. destruct (Start c rf) as [rf' [[? ?] ok]]. apply spawn_plain; [done|].
    destruct ok; plain_tasks.
  - simpl in H. destruct (nodes w !! i) eqn:Hn; [|done]. case_match; [|done].
    section_inv H. keep. eapply inv_section; [done..|]. eapply Snapshot_ok; eauto. by apply HI.
  - simpl in H. case_match; [done|]. section_inv H. destruct a as [rf' msg]. keep. apply spawn_plain.
    + eapply inv_section; [done..|]. eapply sendApplyMsg_ok; eauto. by apply HI.
    + destruct msg; plain_tasks.
  - section_inv H. injection Ha as <-. keep. eapply inv_section; [done..|].
    eapply (quiet_node_ok n (born h) i rf); [done|]. by apply HI.
  - destruct (nodes w !! i) as [rf|] eqn:Hi; [|by simpl in H; rewrite Hi in H].
    keep. by eapply restart_inv.
  - simpl in H |- *. destruct (elections w !! eid) eqn:He; [|done].
    destruct (vcalls w !! (eid, p)) eqn:Hp; [|done]. by eapply run_vote_inv.
  - simpl in H |- *. destruct (tasks w !! k) as [[al t]|] eqn:Hk; [|done]. by eapply run_task_inv.
Qed.

Lemma init_lookup n now i rf :
  nodes (init (Cmd := Cmd) n now) !! i = Some rf →
  (0 ≤ i < n)%Z ∧ rf = (Make n i MakePersister now).1.
Proof.
  simpl. intros H%elem_of_list_to_map_2.
  apply list_elem_of_fmap in H as (j & ? & Hj%elem_of_seqZ). simplify_eq. split; [lia|done].
Qed.

Lemma init_dom n now i :
  is_Some (nodes (init (Cmd := Cmd) n now) !! i) ↔ (0 ≤ i < n)%Z.
Proof.
  split; [by intros [rf [? _]%init_lookup]|]. intros Hi. simpl.
  eexists. apply elem_of_list_to_map_1.
  - rewrite <- list_fmap_compose. simpl.
    replace (_ <$> seqZ 0 n) with (seqZ 0 n) by (symmetry; apply list_fmap_id).
    apply NoDup_seqZ.
  - apply list_elem_of_fmap. exists i. split; [done|]. apply elem_of_seqZ. lia.
Qed.

Lemma init_inv n now : (0 ≤ n)%Z → Inv n (init n now) (mkHist ∅ (λ _, ∅) ∅).
Proof.
  intros Hn. split; try done.
  - intros i. apply init_dom.
  - intros i rf [_ ->]%init_lookup. split; try done. left. done.
  - intros p rf [_ ->]%init_lookup. done.
  - intros i rf [_ ->]%init_lookup. done.
  - intros al t H. by apply not_elem_of_nil in H.
Qed.

Lemma reachable_inv n w : (0 ≤ n)%Z → reachable n w → ∃ h, Inv n w h.
Proof.
  intros Hn. induction 1 as [now|a w w' _ [h HI] Hs].
  - eexists. by apply init_inv.
  - destruct (step_inv n w h a w' HI Hs) as [_ ?]. eauto.
Qed.

(** Terms are never negative. *)
Lemma reachable_term n w i rf : (0 ≤ n)%Z → reachable n w → nodes w !! i = Some rf → (0 ≤ currTerm rf)%Z.
Proof. intros Hn Hr Hi. destruct (reachable_inv n w Hn Hr) as [h HI]. exact (nok_term _ _ _ _ (inv_node _ _ _ HI i rf Hi)). Qed.

(** ** Executions between two reachable worlds *)

Lemma extends_trans (h1 h2 h3 : Hist (Cmd := Cmd)) :
  extends h1 h2 → extends h2 h3 → extends h1 h3.
Proof. intros [] []. split; by etrans. Qed.

Lemma run_inv n acts w h w' :
  Inv n w h → run acts w = Next w' → ∃ h', extends h h' ∧ Inv n w' h'.
Proof.
  revert w h. induction acts as [|a acts IH]; intros w h HI H; simpl in H.
  - simplify_eq. exists h. by keep.
  - destruct (step a w) as [| |w1] eqn:Hs; try done.
    destruct (step_inv n w h a w1 HI Hs) as [He1 HI1].
    destruct (IH w1 _ HI1 H) as (h2 & He2 & HI2). eauto using extends_trans.
Qed.

(** Invariants of the two ends of an execution. *)
Lemma exec_inv n w acts w' :
  (0 ≤ n)%Z → reachable n w → run acts w = Next w' →
  ∃ h h', Inv n w h ∧ extends h h' ∧ Inv n w' h'.
Proof.
  intros Hn Hr Hrun. destruct (reachable_inv n w Hn Hr) as [h HI].
  destruct (run_inv n acts w h w' HI Hrun) as (h' & ? & ?). eauto.
Qed.

(** ** Theorems *)

(** Entry at a logical index, when the log still holds it. *)
Definition entry_at rf (j : Z) : option (LogEntry Cmd) :=
  go_nth (logs rf) (getPhysicalIndex rf j).

(** Server [i] leads term [t]. *)
Definition leader_of (w : World Cmd) (i t : Z) : Prop :=
  ∃ rf, nodes w !! i = Some rf ∧ state rf = Leader ∧ currTerm rf = t.

(** Server [i] is in term [t] and has voted for [c] in it. *)
Definition votes_for (w : World Cmd) (i t c : Z) : Prop :=
  ∃ rf, nodes w !! i = Some rf ∧ currTerm rf = t ∧ votedFor rf = c ∧ c ≠ (-1)%Z.

(** Two leaders of one term are one server. *)
Lemma leaders_agree n w acts w' i j t :
  (0 ≤ n)%Z → reachable n w → run acts w = Next w' → leader_of w i t → leader_of w' j t → i = j.
Proof.
  intros Hn Hr Hrun (rfi & Hi & Hli & Hti) (rfj & Hj & Hlj & Htj).
  destruct (exec_inv n w acts w' Hn Hr Hrun) as (h & h' & HI & [Hg _] & HI').
  destruct (inv_leader _ _ _ HI i rfi Hi Hli) as [H1 _].
  destruct (inv_leader _ _ _ HI' j rfj Hj Hlj) as [H2 _].
  rewrite Hti in H1. rewrite Htj in H2.
  exact (leads_unique h' n i j _ Hn (leads_mono h h' n i _ Hg H1) H2).
Qed.

(** C5. Election safety: in one execution of the cluster at most one server is
    ever leader of a given term, whatever the network loses, delays or
    reorders, and whichever servers crash and restart in between. *)
Theorem election_safety n w acts w' i j t :
  (0 ≤ n)%Z → reachable n w → run acts w = Next w' →
  leader_of w i t → leader_of w' j t → i = j.
Proof. apply leaders_agree. Qed.

(** C6. One vote per term, across crashes: once a server has voted in a term,
    later its term is at least that, and while it is that term its vote is the
    same one. *)
Theorem vote_once n w acts w' i t c rf' :
  (0 ≤ n)%Z → reachable n w → run acts w = Next w' →
  votes_for w i t c → nodes w' !! i = Some rf' →
  (t ≤ currTerm rf')%Z ∧ (currTerm rf' = t → votedFor rf' = c).
Proof.
  intros Hn Hr Hrun (rf & Hi & <- & <- & Hv) Hi'.
  destruct (exec_inv n w acts w' Hn Hr Hrun) as (h & h' & HI & [Hg _] & HI').
  pose proof (lookup_weaken _ _ _ _ (inv_voted _ _ _ HI i rf Hi Hv) Hg) as Hgr.
  destruct (inv_granted _ _ _ HI' _ _ _ Hgr) as (_ & rf0 & H0 & Hle & Hvv).
  simplify_eq. split; [done|]. intros Heq. by apply Hvv.
Qed.

(** One step down a pair of logs that agree on a term. *)
Lemma match_down h h' n w w' i j rfi rfj k ei ej :
  Inv n w h → extends h h' → Inv n w' h' →
  nodes w !! i = Some rfi → nodes w' !! j = Some rfj →
  (lastIncludedIndex rfi < k)%Z → (lastIncludedIndex rfj < k)%Z →
  entry_at rfi k = Some ei → entry_at rfj k = Some ej → Term ei = Term ej →
  ei = ej ∧ ∃ pi pj, entry_at rfi (k - 1) = Some pi ∧ entry_at rfj (k - 1) = Some pj ∧
                     Term pi = Term pj.
Proof.
  intros HI [_ Hb] HI' Hi Hj Hki Hkj He1 He2 Ht.
  assert (∀ rf k e, lchain (born h') (lastIncludedIndex rf) (logs rf) →
            (lastIncludedIndex rf < k)%Z → entry_at rf k = Some e →
            ∃ p, entry_at rf (k - 1) = Some p ∧
                 born h' !! (k, Term e) = Some (Command e, Term p)) as Hpar.
  { clear. intros rf k e Hc Hk [Hp He]%go_nth_Some. unfold getPhysicalIndex in *.
    destruct (lookup_lt_is_Some_2 (logs rf) (Z.to_nat (k - 1 - lastIncludedIndex rf))) as [p Hpe].
    { apply lookup_lt_Some in He. lia. }
    exists p. split; [apply go_nth_Some; split; [unfold getPhysicalIndex; lia|done]|].
    replace (Z.to_nat (k - lastIncludedIndex rf))
      with (S (Z.to_nat (k - 1 - lastIncludedIndex rf))) in He by lia.
    pose proof (lchain_lookup_S _ _ _ _ _ _ Hc Hpe He) as Hl.
    by replace (lastIncludedIndex rf + Z.of_nat (S (Z.to_nat (k - 1 - lastIncludedIndex rf))))%Z
      with k in Hl by lia. }
  destruct (Hpar rfi k ei) as (pi & Hpi & Hbi); [|done..|].
  { eapply lchain_mono; [done|]. apply (inv_node _ _ _ HI i rfi Hi). }
  destruct (Hpar rfj k ej) as (pj & Hpj & Hbj); [|done..|].
  { apply (inv_node _ _ _ HI' j rfj Hj). }
  rewrite Ht, Hbj in Hbi. injection Hbi as Hc Hpt.
  split; [|eauto]. destruct ei, ej; simpl in *; congruence.
Qed.

(** C7. Log matching, across servers and across time: if two logs hold an entry
    of the same term at the same index, they hold the same entries at every
    lower index that neither has compacted away, and agree on the term of the
    entry at the compaction point. *)
Theorem log_matching n w acts w' i j rfi rfj idx ei ej :
  (0 ≤ n)%Z → reachable n w → run acts w = Next w' →
  nodes w !! i = Some rfi → nodes w' !! j = Some rfj →
  (lastIncludedIndex rfi < idx)%Z → (lastIncludedIndex rfj < idx)%Z →
  entry_at rfi idx = Some ei → entry_at rfj idx = Some ej → Term ei = Term ej →
  ∀ k, (lastIncludedIndex rfi ≤ k)%Z → (lastIncludedIndex rfj ≤ k)%Z → (k ≤ idx)%Z →
    ∃ e1 e2, entry_at rfi k = Some e1 ∧ entry_at rfj k = Some e2 ∧ Term e1 = Term e2 ∧
      ((lastIncludedIndex rfi < k)%Z → (lastIncludedIndex rfj < k)%Z → e1 = e2).
Proof.
  intros Hn Hr Hrun Hi Hj Hli Hlj He1 He2 Ht k Hki Hkj Hk.
  destruct (exec_inv n w acts w' Hn Hr Hrun) as (h & h' & HI & Hext & HI').
  remember (Z.to_nat (idx - k)) as d eqn:Hd. revert k Hki Hkj Hk Hd.
  induction d as [|d IH]; intros k Hki Hkj Hk Hd.
  - assert (k = idx) as -> by lia. exists ei, ej. split_and!; [done..|]. intros _ _.
    eapply (match_down h h' n w w' i j rfi rfj idx); eauto.
  - destruct (IH (k + 1)%Z) as (e1 & e2 & H1 & H2 & Ht12 & _); [lia..|].
    destruct (match_down h h' n w w' i j rfi rfj (k + 1) e1 e2) as (_ & p1 & p2 & Hp1 & Hp2 & Htp);
      auto; try lia.
    replace (k + 1 - 1)%Z with k in * by lia.
    exists p1, p2. split_and!; [done..|]. intros Hk1 Hk2.
    eapply (match_down h h' n w w' i j rfi rfj k); eauto.
Qed.

(** [rf'] continues where [rf] was, as a follower. *)
Definition resumes (n i : Z) rf rf' : Prop :=
  persistent rf' = persistent rf ∧ state rf' = Follower ∧ me rf' = i ∧ peers rf' = n.

(** C8. Durability: in every reachable world each server's persister holds what
    a restart needs, so a crash and [Make] give back its term, its vote, its
    log and its snapshot position, and make it a follower. *)
Theorem restart_restores n w i now rf w' :
  (0 ≤ n)%Z → reachable n w → nodes w !! i = Some rf →
  step (ARestart i now) w = Next w' →
  ∃ rf', nodes w' !! i = Some rf' ∧ resumes n i rf rf'.
Proof.
  intros Hn Hr Hi H. destruct (reachable_inv n w Hn Hr) as [h HI].
  pose proof (inv_node _ _ _ HI i rf Hi) as Hok. pose proof Hok as [_ _ Hs _].
  pose proof (Make_ok n (born h) i rf now Hok) as [[Hme Hpe _ _] _].
  pose proof (Make_persistent (peers rf) i rf now Hs) as Hp.
  assert (state (Make (peers rf) i (persister rf) now).1 = Follower) as Hst
    by (unfold Make, readPersist; simpl; case_all; done).
  unfold step in H. rewrite Hi in H.
  destruct (Make (peers rf) i (persister rf) now) as [rf' msg]. injection H as <-.
  exists rf'. cbn [spawn set_tasks nodes fst] in *. rewrite lookup_insert_eq. split; [done|].
  by split_and!.
Qed.
End safety.
