(* ===== verification/RaftTraces.v ===== *)
(** * Concrete executions of the Raft cluster

    Runs of [RaftNet], evaluated by the kernel.  The first ones are instances of
    the theorems of [RaftSafety].  The others show three defects of
    raft/raft.go and, with [RaftSafety], delimit what the code guarantees: the
    election and log-matching theorems hold, agreement of the delivered
    commands does not. *)

From S2P Require Import Prelude Persister RaftTypes RaftHandlers RaftLeader RaftNet.
From S2P Require Import RaftSafety.

(** Agreement (state machine safety): no two services are given different
    commands for the same index. *)
Definition agreement (w : World Z) : Prop :=
  ∀ i j mi mj,
    mi ∈ default [] (delivered w !! i) → mj ∈ default [] (delivered w !! j) →
    CommandValid mi = true → CommandValid mj = true →
    CommandIndex mi = CommandIndex mj → MsgCommand mi = MsgCommand mj.

(** Its boolean negation, for evaluation on a pair of servers. *)
Definition disagree (i j : Z) (w : World Z) : bool :=
  existsb (λ mi, existsb (λ mj,
    CommandValid mi && CommandValid mj && (CommandIndex mi =? CommandIndex mj)%Z &&
    negb (bool_decide (MsgCommand mi = MsgCommand mj)))
    (default [] (delivered w !! j))) (default [] (delivered w !! i)).

Lemma disagree_breaks i j w : disagree i j w = true → ¬ agreement w.
Proof.
  intros H Hag. apply existsb_exists in H as (mi & Hi & H).
  apply existsb_exists in H as (mj & Hj & H).
  rewrite !andb_true_iff, negb_true_iff, Z.eqb_eq, bool_decide_eq_false in H.
  destruct H as (((H1 & H2) & H3) & H4). apply H4.
  eapply (Hag i j); eauto; by apply list_elem_of_In.
Qed.

(** [disagree] on the result of a run. *)
Definition ends_in_disagreement (i j : Z) (o : Outcome Z) : bool :=
  match o with Next w => disagree i j w | _ => false end.

Lemma run_breaks n now acts i j :
  ends_in_disagreement i j (run acts (init n now)) = true →
  ∃ w, reachable n w ∧ run acts (init n now) = Next w ∧ ¬ agreement w.
Proof.
  destruct (run acts (init n now)) as [| |w] eqn:Hrun; try done. intros H.
  exists w. split_and!; [|done|by eapply disagree_breaks].
  eapply run_reachable; [apply (reach_init n now)|done].
Qed.

(** ** Script building blocks *)

Definition second : Z := 1000000000.

(** Server [i]'s election timer fires at [t]; the goroutine is task [k]. *)
Definition elect (i : Z) (k : nat) (t : Z) : list (Action Z) :=
  [ATick i (t * second) (500 * 1000000); ARun k (t * second) Delivered].

(** Peer [p] answers in election [e] and the answer is counted. *)
Definition vote (e : nat) (p : Z) : list (Action Z) :=
  [AVote e p second Delivered; AVote e p second Delivered].

(** The goroutine whose vote made the majority runs [becomeLeader]. *)
Definition promote (e : nat) (p : Z) : list (Action Z) := [AVote e p second Delivered].

(** The service of server [i] starts command [c]. *)
Definition client (i c : Z) : list (Action Z) := [AStart i c].

(** Run the next section of task [k], [times] times. *)
Definition go (k times : nat) : list (Action Z) := replicate times (ARun k second Delivered).

(** ** A deposed leader's goroutine acts for the new term

    Three servers.  Server 0 leads term 1 with entry 100 and has started a
    [makeAppendEntry] goroutine that has not run yet.  Server 2 wins term 2
    with server 1's vote and commits 200 at index 1 on servers 1 and 2.  Server
    0 learns term 2 and follows; then its old goroutine runs: it does not look
    at [rf.state], stamps its request with the current term 2, and server 1
    replaces 200 by 100.  Server 0 wins term 3 and commits 100 at index 1. *)
Definition stale_append_run : list (Action Z) :=
  elect 0 0 1 ++ vote 0 1 ++ promote 0 1 ++
  client 0 100 ++ go 1 1 ++
  elect 2 3 1 ++ elect 2 3 2 ++ vote 2 1 ++ promote 2 1 ++
  client 2 200 ++ go 4 1 ++ go 5 3 ++ [AApply 2] ++ go 5 1 ++
  [AVote 2 0 second Delivered] ++
  go 1 2 ++
  elect 0 5 3 ++ vote 3 1 ++ promote 3 1 ++
  client 0 300 ++ go 6 1 ++ go 6 3 ++ [AApply 0] ++ go 7 1.

(** ** [matchIndex] survives from an earlier leadership

    Five servers.  Server 0 leads term 1 and replicates three entries to
    server 1 only, so [matchIndex[1] = 3].  Server 2 leads term 2 and replaces
    server 0's log by one entry.  Server 0 leads term 3: [becomeLeader] resets
    [nextIndex] but not [matchIndex].  Its new entry at index 2 reaches server
    3 only, but counts as held by server 1 too, and is committed and delivered
    at server 0.  Server 2 hears of term 3, wins term 4 with servers 1 and 4, and
    commits another entry at index 2. *)
Definition stale_match_prefix : list (Action Z) :=
  elect 0 0 1 ++ vote 0 1 ++ vote 0 2 ++ promote 0 2 ++
  client 0 11 ++ client 0 12 ++ client 0 13 ++ go 1 1 ++ go 3 3 ++
  elect 2 6 2 ++ vote 1 3 ++ vote 1 4 ++ promote 1 4 ++
  client 2 21 ++ go 7 1 ++ go 7 3 ++ go 8 3 ++
  elect 0 9 3 ++ vote 2 3 ++ vote 2 4 ++ promote 2 4.

Definition stale_match_run : list (Action Z) :=
  stale_match_prefix ++
  client 0 31 ++ go 10 1 ++ go 12 3 ++
  [AApply 0] ++ go 13 1 ++ [AApply 0] ++ go 13 1 ++
  [AVote 2 2 second Delivered] ++
  elect 2 13 4 ++ vote 3 1 ++ vote 3 4 ++ promote 3 4 ++
  client 2 41 ++ go 14 1 ++ go 15 3 ++ go 16 3 ++
  go 13 1 ++ go 17 3 ++ go 18 3 ++
  [AApply 2] ++ go 18 1 ++ [AApply 2] ++ go 18 1.

(** After the same prefix, server 1's acknowledgement sets [nextIndex[1]] to
    [matchIndex[1] + 1 = 4], past the end of the leader's log, and the next
    [makeAppendEntry] goroutine slices [rf.logs] out of range. *)
Definition stale_match_panic_run : list (Action Z) :=
  stale_match_prefix ++ client 0 31 ++ go 10 1 ++
  go 10 3 ++ go 9 1 ++ go 13 3 ++ go 9 1 ++ go 16 1.

(** ** A snapshot is overtaken by a later command

    Three servers.  Server 0 commits two entries with server 1 and compacts
    them into a snapshot.  Server 2 lags, is sent the snapshot and installs
    it; [InstallSnapshot] hands it to a goroutine that will send it on
    [applyCh].  Before that goroutine runs, server 2 also receives entry 3,
    learns that it is committed, and [sendApplyMsg] delivers command 3. *)
Definition overtaken_run : list (Action Z) :=
  elect 0 0 1 ++ vote 0 1 ++ promote 0 1 ++
  client 0 1 ++ client 0 2 ++ go 1 1 ++ go 2 3 ++
  [AApply 0] ++ go 3 1 ++ [AApply 0] ++ go 3 1 ++
  [ASnapshot 0 2 [x01]] ++ go 2 4 ++
  client 0 3 ++ go 3 1 ++ go 3 3 ++ go 3 3 ++
  [AApply 2] ++ go 3 1 ++ go 2 1.

(** The last log index a message covers. *)
Definition msg_index (m : ApplyMsg Z) : Z :=
  if CommandValid m then CommandIndex m else SnapshotIndex m.

(** The service is given state in log order. *)
Definition in_order (l : list (ApplyMsg Z)) : Prop :=
  ∀ p q m m', p < q → l !! p = Some m → l !! q = Some m' → (msg_index m ≤ msg_index m')%Z.

(** ** Findings as theorems *)

(** C40. The [makeAppendEntry] goroutine of a leader that has since been deposed
    sends entries under a term it does not lead; two services of three end up
    with different commands at the same index. *)
Theorem stale_append_breaks_agreement :
  ∃ w, reachable 3 w ∧ run stale_append_run (init 3 0) = Next w ∧ ¬ agreement w.
Proof. apply (run_breaks 3 0 _ 2 0). vm_compute. reflexivity. Qed.

(** A [matchIndex] left from an earlier leadership lets a leader commit an
    entry that is on two servers of five; another leader then commits a
    different one at the same index. *)
Theorem stale_match_breaks_agreement :
  ∃ w, reachable 5 w ∧ run stale_match_run (init 5 0) = Next w ∧ ¬ agreement w.
Proof. apply (run_breaks 5 0 _ 0 2). vm_compute. reflexivity. Qed.

(** The same stale [matchIndex] drives [nextIndex] past the end of the log,
    and the replication goroutine panics with slice bounds out of range. *)
Theorem stale_match_panics : run stale_match_panic_run (init 5 0) = Panicked.
Proof. vm_compute. reflexivity. Qed.

(** [InstallSnapshot]'s message can reach the service after the command that
    follows it: server 2's service is given command 3 before snapshot 2. *)
Theorem snapshot_overtaken :
  ∃ w l, reachable 3 w ∧ run overtaken_run (init 3 0) = Next w ∧
         delivered w !! 2%Z = Some l ∧ ¬ in_order l.
Proof.
  destruct (run overtaken_run (init 3 0)) as [| |w] eqn:Hrun;
    [vm_compute in Hrun; discriminate..|].
  assert (∃ m m', delivered w !! 2%Z = Some [m; m'] ∧ (msg_index m' < msg_index m)%Z)
    as (m & m' & Hd & Hlt).
  { vm_compute in Hrun. injection Hrun as <-. do 2 eexists. split; vm_compute; reflexivity. }
  exists w, [m; m']. split_and!; [|done|done|].
  - eapply run_reachable; [apply (reach_init 3 0)|exact Hrun].
  - intros Hin. specialize (Hin 0 1 m m' ltac:(lia) eq_refl eq_refl). lia.
Qed.

(** ** Instances of the safety theorems

    Server 0 is elected by server 1 and replicates command 100 to it. *)
Definition good_run : list (Action Z) := elect 0 0 1 ++ vote 0 1 ++ promote 0 1.
Definition good_tail : list (Action Z) := client 0 100 ++ go 1 1 ++ go 1 3.

Definition world_of (o : Outcome Z) : World Z :=
  match o with Next w => w | _ => mkWorld ∅ [] ∅ [] ∅ end.
Definition wit_w : World Z := world_of (run good_run (init 3 0)).
Definition wit_w' : World Z := world_of (run good_tail wit_w).

Lemma wit_reachable : reachable 3 wit_w.
Proof.
  apply (run_reachable 3 good_run (init 3 0)); [apply reach_init|vm_compute; reflexivity].
Qed.

Lemma wit_run : run good_tail wit_w = Next wit_w'.
Proof. vm_compute. reflexivity. Qed.

(** A node of a concrete world, and a fact about it by evaluation. *)
Definition the_node (i : Z) (w : World Z) : Raft Z :=
  default (Make 3 i MakePersister 0).1 (nodes w !! i).

Lemma wit_nodes : ∀ i, i ∈ [0; 1; 2]%Z →
  nodes wit_w !! i = Some (the_node i wit_w) ∧ nodes wit_w' !! i = Some (the_node i wit_w').
Proof.
  assert (forallb (λ i, bool_decide (is_Some (nodes wit_w !! i)) &&
                        bool_decide (is_Some (nodes wit_w' !! i))) [0; 1; 2]%Z = true) as H
    by (vm_compute; reflexivity).
  intros i Hi. rewrite forallb_forall in H. specialize (H i). rewrite <- list_elem_of_In in H.
  apply H in Hi as [[rf E1]%bool_decide_eq_true [rf' E2]%bool_decide_eq_true]%andb_true_iff.
  unfold the_node. by rewrite E1, E2.
Qed.

Ltac evalz := vm_compute; (reflexivity || discriminate).

Lemma wit_leads w : w = wit_w ∨ w = wit_w' → leader_of w 0 1.
Proof.
  intros Hw. exists (the_node 0 w). destruct Hw as [-> | ->];
    (split; [apply wit_nodes; set_solver|]); split; evalz.
Qed.

Lemma election_safety_witness : leader_of wit_w 0 1 ∧ leader_of wit_w' 0 1 ∧ 0%Z = 0%Z.
Proof.
  split; [apply wit_leads; by left|]. split; [apply wit_leads; by right|].
  apply (election_safety 3 wit_w good_tail wit_w' 0 0 1).
  - lia.
  - apply wit_reachable.
  - apply wit_run.
  - apply wit_leads. by left.
  - apply wit_leads. by right.
Defined.

Lemma vote_once_witness :
  votes_for wit_w 1 1 0 ∧ (1 ≤ currTerm (the_node 1 wit_w'))%Z ∧
  votedFor (the_node 1 wit_w') = 0%Z.
Proof.
  assert (votes_for wit_w 1 1 0) as Hv.
  { exists (the_node 1 wit_w). split; [apply wit_nodes; set_solver|].
    split; [evalz|]. split; evalz. }
  destruct (vote_once 3 wit_w good_tail wit_w' 1 1 0 (the_node 1 wit_w')) as [H1 H2];
    [lia|apply wit_reachable|apply wit_run|exact Hv|apply wit_nodes; set_solver|].
  split; [exact Hv|]. split; [exact H1|]. apply H2. evalz.
Defined.

(** Both logs hold command 100 of term 1 at index 1, so they agree at 0. *)
Lemma log_matching_witness :
  ∃ e1 e2, entry_at (the_node 0 wit_w') 0 = Some e1 ∧ entry_at (the_node 1 wit_w') 0 = Some e2 ∧
    Term e1 = Term e2.
Proof.
  destruct (log_matching 3 wit_w' [] wit_w' 0 1 (the_node 0 wit_w') (the_node 1 wit_w') 1
    (mkLogEntry 1 (Some 100%Z)) (mkLogEntry 1 (Some 100%Z))) with (k := 0%Z)
    as (e1 & e2 & H1 & H2 & H3 & _); [lia| |reflexivity|..].
  - eapply run_reachable; [apply wit_reachable|apply wit_run].
  - apply wit_nodes. set_solver.
  - apply wit_nodes. set_solver.
  - evalz.
  - evalz.
  - evalz.
  - evalz.
  - evalz.
  - evalz.
  - evalz.
  - lia.
  - exists e1, e2. auto.
Defined.

Lemma restart_restores_witness :
  ∃ rf', nodes (world_of (step (ARestart 0 second) wit_w')) !! 0%Z = Some rf' ∧
    persistent rf' = persistent (the_node 0 wit_w') ∧ state rf' = Follower.
Proof.
  destruct (restart_restores 3 wit_w' 0 second (the_node 0 wit_w')
    (world_of (step (ARestart 0 second) wit_w'))) as (rf' & H1 & H2 & H3 & _); [lia|..].
  - eapply run_reachable; [apply wit_reachable|apply wit_run].
  - apply wit_nodes. set_solver.
  - vm_compute. reflexivity.
  - exists rf'. auto.
Defined.
