(* ===== verification/RaftLocal.v ===== *)
(** * Functional correctness of the Raft critical sections

    For each section of [RaftHandlers] and [RaftLeader]: it does not panic, it
    preserves the peer's well-formedness, its term never decreases, and its
    result is what the Raft protocol asks for (vote condition, log
    reconciliation, conflict hint, commit rule, compaction). *)

From S2P Require Import Prelude Persister RaftTypes RaftHandlers RaftLeader.

Section local.
Context {Cmd : Type} `{!Gob (PersistentState Cmd)}.
Implicit Types rf : Raft Cmd.

(** ** Reference definitions *)

(** The term at a logical index that the log holds. *)
Definition term_at rf (j : Z) : option Z :=
  Term <$> go_nth (logs rf) (getPhysicalIndex rf j).

Definition last_term rf : Z := default 0%Z (term_at rf (lastLogicalIndex rf)).

(** The candidate's log is at least as up to date as the voter's. *)
Definition up_to_date (args : RequestVoteArgs) rf : Prop :=
  (last_term rf < rva_LastLogTerm args)%Z ∨
  (rva_LastLogTerm args = last_term rf ∧ (lastLogicalIndex rf ≤ rva_LastLogIndex args)%Z).

(** What a follower's entries after [prev] become: entries that agree in term
    with the leader's are kept, the first that does not is replaced together
    with everything after it, and missing ones are appended. *)
Fixpoint reconcile (old new : list (LogEntry Cmd)) : list (LogEntry Cmd) :=
  match new, old with
  | [], _ => old
  | _, [] => new
  | e :: new', o :: old' =>
      if bool_decide (Term o = Term e) then o :: reconcile old' new' else new
  end.

(** Index [N] may be committed by the leader [rf]. *)
Definition holders rf (N : Z) : list Z :=
  filter (λ p, p ≠ me rf ∧ (N ≤ default (-1) (go_nth (matchIndex rf) p))%Z) (peer_range rf).

Definition committable rf (N : Z) : Prop :=
  term_at rf N = Some (currTerm rf) ∧ (peers rf / 2 < 1 + zlen (holders rf N))%Z.

(** ** Well-formedness *)

Record wf (n : Z) rf : Prop := {
  wf_peers : peers rf = n;
  wf_next : zlen (nextIndex rf) = n;
  wf_match : zlen (matchIndex rf) = n;
  wf_logs : (1 ≤ zlen (logs rf))%Z;
  wf_lii : (0 ≤ lastIncludedIndex rf)%Z;
  wf_applied : (lastIncludedIndex rf ≤ lastApplied rf)%Z;
  wf_commit : (lastIncludedIndex rf ≤ commitIndex rf)%Z;
  wf_term : (0 ≤ currTerm rf)%Z;
  wf_state : state rf = Leader ∨ state rf = Candidate ∨ state rf = Follower
}.

(** The sections of one peer, as the calls its goroutines make.  Left out are
    only those that read fields and index nothing ([GetState], the tests of
    leadership, the first section of [sendInstallSnapshotToPeers]). *)
Inductive Call :=
  | CRequestVote (now : Z) (args : RequestVoteArgs)
  | CAppendEntries (now : Z) (args : AppendEntriesArgs Cmd)
  | CInstallSnapshot (now : Z) (args : InstallSnapshotArgs)
  | CSnapshot (index : Z) (data : list byte)
  | CStart (c : Cmd)
  | CStartElection (now : Z)
  | CVoteReply (startTerm votes : Z) (reply : RequestVoteReply)
  | CVoteTail (reply : RequestVoteReply)
  | CBecomeLeader (t : Z)
  | CMakeAppend (peer : Z)
  | CAppendReply (now peer : Z) (args : AppendEntriesArgs Cmd) (reply : AppendEntriesReply)
  | CSnapshotReply (now peer : Z) (args : InstallSnapshotArgs) (reply : InstallSnapshotReply)
  | CApply
  | CKill.

Definition call (c : Call) rf : option (Raft Cmd) :=
  match c with
  | CRequestVote now args => fst <$> RequestVote now args rf
  | CAppendEntries now args => fst <$> AppendEntries now args rf
  | CInstallSnapshot now args => (λ x, x.1.1) <$> InstallSnapshot now args rf
  | CSnapshot index data => Snapshot index data rf
  | CStart c => Some (Start c rf).1
  | CStartElection now => fst <$> startElection now rf
  | CVoteReply t votes reply => Some (vote_reply t votes reply rf).1.1
  | CVoteTail reply => Some (vote_termCheck reply rf)
  | CBecomeLeader t => fst <$> becomeLeader t rf
  | CMakeAppend peer => (λ _, rf) <$> makeAppendEntry peer rf
  | CAppendReply now peer args reply => fst <$> append_reply now peer args reply rf
  | CSnapshotReply now peer args reply => snapshot_reply now peer args reply rf
  | CApply => fst <$> sendApplyMsg rf
  | CKill => Some (Kill rf)
  end.

(** What the callers guarantee: peer numbers are in range, the service only
    compacts entries that were committed and are in the log, and a goroutine that
    sends entries to a peer finds its [nextIndex] at most one past the log.  The
    last is not kept by every execution: see [stale_match_panics]. *)
Definition call_pre (n : Z) (c : Call) rf : Prop :=
  match c with
  | CSnapshot index _ => (index ≤ commitIndex rf)%Z ∧ (index ≤ lastLogicalIndex rf)%Z
  | CMakeAppend peer =>
      (0 ≤ peer < n)%Z ∧ ∀ ni, go_nth (nextIndex rf) peer = Some ni → (ni ≤ lastLogicalIndex rf + 1)%Z
  | CAppendReply _ peer _ _ | CSnapshotReply _ peer _ _ => (0 ≤ peer < n)%Z
  | _ => True
  end.

(** What each section guarantees. *)
Definition good (n : Z) rf (o : option (Raft Cmd)) : Prop :=
  ∃ rf', o = Some rf' ∧ wf n rf' ∧ (currTerm rf ≤ currTerm rf')%Z.

Ltac solve_wf := intros; split; simpl in *; auto; try lia.

Lemma last_entry rf :
  (1 ≤ zlen (logs rf))%Z →
  ∃ e, go_nth (logs rf) (getPhysicalIndex rf (lastLogicalIndex rf)) = Some e ∧
       last_term rf = Term e.
Proof.
  intros H. unfold last_term, term_at.
  destruct (go_nth_is_Some (logs rf) (getPhysicalIndex rf (lastLogicalIndex rf))) as [e He].
  { unfold getPhysicalIndex, lastLogicalIndex. lia. }
  exists e. rewrite He. done.
Qed.

Lemma stepdown_wf n args rf :
  wf n rf → wf n (RequestVote_stepdown args rf) ∧
  currTerm (RequestVote_stepdown args rf) = Z.max (currTerm rf) (rva_Term args).
Proof.
  intros []. unfold RequestVote_stepdown. case_match; b2p; (split; [|simpl; lia]); solve_wf.
Qed.

(** ** RequestVote *)

Lemma stepdown_log args rf :
  logs (RequestVote_stepdown args rf) = logs rf ∧
  lastIncludedIndex (RequestVote_stepdown args rf) = lastIncludedIndex rf ∧
  votedFor (RequestVote_stepdown args rf) =
    (if bool_decide (currTerm rf < rva_Term args)%Z then -1 else votedFor rf)%Z.
Proof.
  unfold RequestVote_stepdown. case_match; b2p.
  - by rewrite bool_decide_true by lia.
  - by rewrite bool_decide_false by lia.
Qed.

Lemma RequestVote_good n now args rf : wf n rf → good n rf (fst <$> RequestVote now args rf).
Proof.
  intros Hwf. destruct (stepdown_wf n args rf Hwf) as [Hwf1 Ht]. unfold RequestVote.
  set (rf1 := RequestVote_stepdown args rf) in *.
  destruct (last_entry rf1) as (e & He & _); [apply Hwf1|]. rewrite He. simpl.
  destruct Hwf1. case_all; eexists; (split; [reflexivity|]); (split; [solve_wf|simpl; lia]).
Qed.

(** What [RequestVote] owes its caller. *)
Definition vote_spec (args : RequestVoteArgs) rf (o : option (Raft Cmd * RequestVoteReply)) : Prop :=
  ∃ rf' reply, o = Some (rf', reply) ∧
    rvr_Term reply = Z.max (currTerm rf) (rva_Term args) ∧
    currTerm rf' = Z.max (currTerm rf) (rva_Term args) ∧
    (rvr_VoteGranted reply = true ↔
      (currTerm rf ≤ rva_Term args)%Z ∧
      ((currTerm rf < rva_Term args)%Z ∨ votedFor rf = (-1)%Z ∨
       votedFor rf = rva_CandidateId args) ∧
      up_to_date args rf) ∧
    votedFor rf' =
      (if rvr_VoteGranted reply then rva_CandidateId args
       else if bool_decide (currTerm rf < rva_Term args)%Z then -1 else votedFor rf)%Z.

Lemma RequestVote_spec n now args rf : wf n rf → vote_spec args rf (RequestVote now args rf).
Proof.
  intros Hwf. destruct (stepdown_wf n args rf Hwf) as [Hwf1 Ht].
  destruct (stepdown_log args rf) as (Hlg & Hli & Hv). unfold RequestVote.
  set (rf1 := RequestVote_stepdown args rf) in *.
  assert (lastLogicalIndex rf1 = lastLogicalIndex rf) as Hll
    by (unfold lastLogicalIndex; by rewrite Hlg, Hli).
  destruct (last_entry rf1) as (e & He & Hle); [apply Hwf1|]. rewrite He. simpl.
  assert (last_term rf = Term e) as Hlt.
  { rewrite <- Hle. unfold last_term, term_at, getPhysicalIndex. by rewrite Hll, Hlg, Hli. }
  unfold vote_spec, up_to_date. rewrite Hlt, <- Hll.
  destruct (rva_Term args <? currTerm rf1)%Z eqn:E1; b2p.
  { do 2 eexists. split_and!; [done|simpl; lia|simpl; lia| |].
    - simpl. split; [done|]. intros (? & _ & _). lia.
    - simpl. by rewrite Hv. }
  destruct ((votedFor rf1 =? -1)%Z || (votedFor rf1 =? rva_CandidateId args)%Z) eqn:E2.
  - assert (currTerm rf < rva_Term args ∨ votedFor rf = -1 ∨ votedFor rf = rva_CandidateId args)%Z
      as Hvote.
    { rewrite Hv in E2. case_bool_decide; [by left|]. b2p. destruct E2; b2p; auto. }
    destruct ((_ >? _)%Z || _) eqn:E3; do 2 eexists; (split; [done|]); simpl; split_and!; try lia.
  - do 2 eexists. split; [done|]. simpl. split_and!; try lia.
    split; [done|]. intros (_ & Hvote & _). rewrite Hv in E2. b2p.
    case_bool_decide; destruct Hvote as [?|[?|?]]; lia.
Qed.

(** C18. The vote condition of [RequestVote]: the vote is granted exactly when
    the request's term is not behind, no other candidate has the vote of that
    term, and the candidate's log is up to date; the reply carries the larger
    term, a granted vote is recorded for that term, and without a grant the
    vote changes only by moving to a higher term. *)
Theorem RequestVote_correct n now args rf :
  wf n rf → vote_spec args rf (RequestVote now args rf).
Proof. apply RequestVote_spec. Qed.

(** ** AppendEntries *)

Lemma term_at_Some rf j t :
  term_at rf j = Some t ↔
  ∃ e, go_nth (logs rf) (getPhysicalIndex rf j) = Some e ∧ Term e = t.
Proof. unfold term_at. rewrite fmap_Some. naive_solver. Qed.

Lemma term_at_bounds rf j t :
  term_at rf j = Some t → (lastIncludedIndex rf ≤ j ≤ lastLogicalIndex rf)%Z.
Proof.
  intros (e & He%go_nth_bounds & _)%term_at_Some.
  unfold getPhysicalIndex, lastLogicalIndex in *. lia.
Qed.

Lemma accept_wf n now args rf :
  wf n rf → (currTerm rf ≤ aea_Term args)%Z →
  wf n (AppendEntries_accept now args rf) ∧
  logs (AppendEntries_accept now args rf) = logs rf ∧
  lastIncludedIndex (AppendEntries_accept now args rf) = lastIncludedIndex rf ∧
  commitIndex (AppendEntries_accept now args rf) = commitIndex rf ∧
  currTerm (AppendEntries_accept now args rf) = aea_Term args ∧
  state (AppendEntries_accept now args rf) = Follower.
Proof.
  intros [] Ht. unfold AppendEntries_accept. case_match; b2p; simpl in *;
    (split; [solve_wf|split_and!; try done; lia]).
Qed.

(** The scan finds the first index of the run of [ct] that ends at [k]. *)
Lemma conflict_scan_spec rf ct (k : nat) ci :
  (Z.of_nat k < zlen (logs rf))%Z →
  ∃ ci', conflict_scan rf ct k ci = Some ci' ∧
    ((ci' = ci ∧ (k = 0 ∨ term_at rf (lastIncludedIndex rf + Z.of_nat k) ≠ Some ct)) ∨
     ((lastIncludedIndex rf < ci' ≤ lastIncludedIndex rf + Z.of_nat k)%Z ∧
      (∀ j, (ci' ≤ j ≤ lastIncludedIndex rf + Z.of_nat k)%Z → term_at rf j = Some ct) ∧
      (ci' = (lastIncludedIndex rf + 1)%Z ∨ term_at rf (ci' - 1) ≠ Some ct))).
Proof.
  revert ci. induction k as [|k IH]; intros ci Hk; [by exists ci; eauto|].
  cbn [conflict_scan]. set (i := (lastIncludedIndex rf + Z.of_nat (S k))%Z).
  destruct (go_nth_is_Some (logs rf) (getPhysicalIndex rf i)) as [e He].
  { unfold getPhysicalIndex, i. lia. }
  rewrite He. simpl. assert (term_at rf i = Some (Term e)) as Hi by (unfold term_at; by rewrite He).
  destruct (Term e =? ct)%Z eqn:Et; b2p; [|exists ci; rewrite Hi; split; [done|left]; naive_solver].
  subst ct. destruct (IH i) as (ci' & -> & [[-> Hstop]|(Hr & Hall & Hfirst)]); [lia| |].
  - exists i. split; [done|right]. split_and!; [lia|lia| |].
    + intros j Hj. by replace j with i by lia.
    + destruct Hstop as [->|Hne]; [left; lia|right].
      by replace (i - 1)%Z with (lastIncludedIndex rf + Z.of_nat k)%Z by lia.
  - exists ci'. split; [done|right]. split_and!; [lia|lia| |done].
    intros j Hj. destruct (decide (j = i)) as [->|]; [done|]. apply Hall. lia.
Qed.

Lemma sync_logs_reconcile rf cur entries :
  (lastIncludedIndex rf < cur ≤ lastLogicalIndex rf + 1)%Z →
  sync_logs rf cur entries =
    Some (take (Z.to_nat (getPhysicalIndex rf cur)) (logs rf) ++
          reconcile (drop (Z.to_nat (getPhysicalIndex rf cur)) (logs rf)) entries).
Proof.
  revert cur. induction entries as [|e rest IH]; intros cur Hcur; cbn [sync_logs].
  { destruct (drop _ _) eqn:E; simpl; rewrite <- E; by rewrite take_drop. }
  unfold getPhysicalIndex, lastLogicalIndex in *.
  destruct (cur <=? lastIncludedIndex rf + zlen (logs rf) - 1)%Z eqn:E; b2p.
  - destruct (go_nth_is_Some (logs rf) (cur - lastIncludedIndex rf)) as [o Ho]; [lia|].
    rewrite Ho. simpl. apply go_nth_Some in Ho as [Hp Ho].
    rewrite (drop_S _ _ _ Ho). cbn [reconcile].
    destruct (Term o =? Term e)%Z eqn:Et; b2p; simpl.
    + rewrite bool_decide_true by done. rewrite IH by lia.
      replace (Z.to_nat (cur + 1 - lastIncludedIndex rf))
        with (S (Z.to_nat (cur - lastIncludedIndex rf))) by lia.
      by rewrite (take_S_r _ _ _ Ho), <- app_assoc.
    + rewrite bool_decide_false by done.
      by rewrite go_upto_ok by lia.
  - rewrite take_ge, drop_ge by (unfold zlen in *; lia). done.
Qed.

Lemma sync_len rf cur entries l :
  (lastIncludedIndex rf < cur ≤ lastLogicalIndex rf + 1)%Z →
  sync_logs rf cur entries = Some l → (1 ≤ zlen l)%Z.
Proof.
  intros Hcur. rewrite sync_logs_reconcile by done. intros [= <-].
  rewrite zlen_app. unfold getPhysicalIndex, lastLogicalIndex, zlen in *.
  rewrite length_take. lia.
Qed.

(** The commit index after a successful request. *)
Definition follower_commit (args : AppendEntriesArgs Cmd) (last commit : Z) : Z :=
  if bool_decide (commit < aea_LeaderCommit args)%Z then Z.min (aea_LeaderCommit args) last
  else commit.

(** What [AppendEntries] owes its caller. *)
Definition append_spec (n : Z) (args : AppendEntriesArgs Cmd) rf
    (o : option (Raft Cmd * AppendEntriesReply)) : Prop :=
  ∃ rf' reply, o = Some (rf', reply) ∧ wf n rf' ∧
    currTerm rf' = Z.max (currTerm rf) (aea_Term args) ∧
    lastIncludedIndex rf' = lastIncludedIndex rf ∧
    (aer_Success reply = true ↔
       (currTerm rf ≤ aea_Term args)%Z ∧
       term_at rf (aea_PrevLogIndex args) = Some (aea_PrevLogTerm args)) ∧
    let off := Z.to_nat (aea_PrevLogIndex args + 1 - lastIncludedIndex rf) in
    (if aer_Success reply then
       logs rf' = take off (logs rf) ++ reconcile (drop off (logs rf)) (aea_Entries args) ∧
       commitIndex rf' = follower_commit args (lastLogicalIndex rf') (commitIndex rf)
     else logs rf' = logs rf ∧ commitIndex rf' = commitIndex rf).

(** The refusing branches after the term was accepted. *)
Lemma append_refuses n now args rf t ci ct :
  wf n rf → (currTerm rf ≤ aea_Term args)%Z →
  term_at rf (aea_PrevLogIndex args) ≠ Some (aea_PrevLogTerm args) →
  append_spec n args rf
    (Some (AppendEntries_accept now args rf, mkAppendEntriesReply false t ci ct)).
Proof.
  intros Hwf Ht Hne. destruct (accept_wf n now args rf Hwf Ht) as (Hwf1 & Hlg & Hli & Hci & Hct & _).
  do 2 eexists. split; [done|]. simpl. split_and!; try done; try lia.
  split; [done|]. by intros [_ ?].
Qed.

(** The accepting branch. *)
Lemma append_accepts n now args rf nl :
  wf n rf → (currTerm rf ≤ aea_Term args)%Z → (1 ≤ zlen nl)%Z →
  term_at rf (aea_PrevLogIndex args) = Some (aea_PrevLogTerm args) →
  nl = take (Z.to_nat (aea_PrevLogIndex args + 1 - lastIncludedIndex rf)) (logs rf) ++
       reconcile (drop (Z.to_nat (aea_PrevLogIndex args + 1 - lastIncludedIndex rf)) (logs rf))
         (aea_Entries args) →
  let rf2 := persist (set_logs nl (AppendEntries_accept now args rf)) in
  append_spec n args rf
    (Some (if (aea_LeaderCommit args >? commitIndex rf2)%Z
           then set_commitIndex (go_min (aea_LeaderCommit args) (lastLogicalIndex rf2)) rf2
           else rf2, mkAppendEntriesReply true 0 0 0)).
Proof.
  intros Hwf Ht Hlen Hta Hnl rf2.
  destruct (accept_wf n now args rf Hwf Ht) as (Hwf1 & Hlg & Hli & Hci & Hct & _).
  set (rf1 := AppendEntries_accept now args rf) in *. rewrite go_min_eq.
  assert (commitIndex rf2 = commitIndex rf) as Hc2 by done.
  assert (lastIncludedIndex rf2 = lastIncludedIndex rf) as Hl2 by done.
  pose proof (wf_commit n rf Hwf) as Hcm. destruct Hwf1.
  do 2 eexists. split; [done|]. unfold follower_commit. rewrite Hc2.
  destruct (aea_LeaderCommit args >? commitIndex rf)%Z eqn:E4; b2p; simpl.
  - rewrite bool_decide_true by done. split_and!; try done; try lia.
    split; simpl; auto; unfold lastLogicalIndex; simpl; lia.
  - rewrite bool_decide_false by lia. split_and!; try done; try lia; solve_wf.
Qed.

Lemma AppendEntries_spec n now args rf :
  wf n rf → append_spec n args rf (AppendEntries now args rf).
Proof.
  intros Hwf. unfold AppendEntries.
  destruct (aea_Term args <? currTerm rf)%Z eqn:E0; b2p.
  { do 2 eexists. split; [done|]. simpl. split_and!; try done; lia. }
  destruct (accept_wf n now args rf Hwf E0) as (Hwf1 & Hlg & Hli & _).
  pose proof (append_refuses n now args rf) as Hrefuse.
  pose proof (append_accepts n now args rf) as Haccept.
  set (rf1 := AppendEntries_accept now args rf) in *.
  assert (∀ j, term_at rf1 j = term_at rf j) as Hta
    by (intros j; unfold term_at, getPhysicalIndex; by rewrite Hlg, Hli).
  destruct (aea_PrevLogIndex args >? lastLogicalIndex rf1)%Z eqn:E1; b2p.
  { apply Hrefuse; try done. rewrite <- Hta. intros ?%term_at_bounds. lia. }
  destruct (aea_PrevLogIndex args <? lastIncludedIndex rf1)%Z eqn:E2; b2p.
  { apply Hrefuse; try done. rewrite <- Hta. intros ?%term_at_bounds. lia. }
  destruct (go_nth_is_Some (logs rf1) (getPhysicalIndex rf1 (aea_PrevLogIndex args)))
    as [prev Hprev]; [unfold getPhysicalIndex, lastLogicalIndex in *; lia|].
  assert (term_at rf (aea_PrevLogIndex args) = Some (Term prev)) as Htp
    by (rewrite <- Hta; unfold term_at; by rewrite Hprev).
  rewrite Hprev. cbn [mbind option_bind].
  destruct (negb (aea_PrevLogTerm args =? Term prev)%Z) eqn:E3; b2p.
  { destruct (conflict_scan_spec rf1 (Term prev)
      (Z.to_nat (aea_PrevLogIndex args - lastIncludedIndex rf1)) 0) as (ci & -> & _);
      [unfold lastLogicalIndex in *; lia|].
    apply Hrefuse; try done. rewrite Htp. congruence. }
  assert (lastIncludedIndex rf1 < aea_PrevLogIndex args + 1 ≤ lastLogicalIndex rf1 + 1)%Z
    as Hr by lia.
  pose proof (sync_logs_reconcile rf1 _ (aea_Entries args) Hr) as Hs.
  rewrite Hs. cbn [mbind option_bind]. apply Haccept; try done; [| |].
  - by eapply sync_len.
  - by rewrite Htp, E3.
  - unfold getPhysicalIndex. by rewrite Hlg, Hli.
Qed.

(** C17. The consistency check and the log of [AppendEntries]: the request
    succeeds exactly when its term is not behind and the log holds its previous
    entry; then the log is the old one up to that entry followed by the
    reconciliation of the rest with the request's entries, and the commit index
    follows the leader's within the log; otherwise log and commit index stay. *)
Theorem AppendEntries_correct n now args rf :
  wf n rf → append_spec n args rf (AppendEntries now args rf).
Proof. apply AppendEntries_spec. Qed.

(** The conflict hint of a refused [AppendEntries]: a log that is too short
    answers the index after its end; a compacted previous entry answers the
    index after the snapshot; a previous entry of another term answers that
    term and the first index of its run in the log (0 when the previous entry
    is the compaction point itself). *)
Theorem AppendEntries_hint n now args rf rf' reply :
  wf n rf → (currTerm rf ≤ aea_Term args)%Z →
  AppendEntries now args rf = Some (rf', reply) → aer_Success reply = false →
  let p := aea_PrevLogIndex args in
  ((lastLogicalIndex rf < p)%Z ∧ aer_ConflictTerm reply = (-1)%Z ∧
     aer_ConflictIndex reply = (lastLogicalIndex rf + 1)%Z) ∨
  ((p < lastIncludedIndex rf)%Z ∧ aer_ConflictTerm reply = (-1)%Z ∧
     aer_ConflictIndex reply = (lastIncludedIndex rf + 1)%Z) ∨
  (term_at rf p = Some (aer_ConflictTerm reply) ∧
     aer_ConflictTerm reply ≠ aea_PrevLogTerm args ∧
     ((p = lastIncludedIndex rf ∧ aer_ConflictIndex reply = 0%Z) ∨
      ((lastIncludedIndex rf < aer_ConflictIndex reply ≤ p)%Z ∧
       (∀ j, (aer_ConflictIndex reply ≤ j ≤ p)%Z →
             term_at rf j = Some (aer_ConflictTerm reply)) ∧
       (aer_ConflictIndex reply = (lastIncludedIndex rf + 1)%Z ∨
        term_at rf (aer_ConflictIndex reply - 1) ≠ Some (aer_ConflictTerm reply))))).
Proof.
  intros Hwf Ht H Hs p. unfold AppendEntries in H. fold p in H.
  rewrite (proj2 (Z.ltb_ge _ _) Ht) in H.
  destruct (accept_wf n now args rf Hwf Ht) as (Hwf1 & Hlg & Hli & _).
  set (rf1 := AppendEntries_accept now args rf) in *.
  assert (∀ j, term_at rf1 j = term_at rf j) as Hta
    by (intros j; unfold term_at, getPhysicalIndex; by rewrite Hlg, Hli).
  assert (lastLogicalIndex rf1 = lastLogicalIndex rf) as Hll
    by (unfold lastLogicalIndex; by rewrite Hlg, Hli).
  destruct (p >? lastLogicalIndex rf1)%Z eqn:E1; b2p; [go_inv; left; simpl; lia|].
  destruct (p <? lastIncludedIndex rf1)%Z eqn:E2; b2p; [go_inv; right; left; simpl; lia|].
  right; right. apply bind_Some in H as (prev & Hprev & H).
  assert (term_at rf p = Some (Term prev)) as Htp
    by (rewrite <- Hta; unfold term_at; by rewrite Hprev).
  destruct (negb (aea_PrevLogTerm args =? Term prev)%Z) eqn:E3; b2p.
  2: { apply bind_Some in H as (nl & _ & H). injection H as _ <-. done. }
  destruct (conflict_scan_spec rf1 (Term prev) (Z.to_nat (p - lastIncludedIndex rf1)) 0)
    as (ci & Hci & Hcase); [unfold lastLogicalIndex in *; lia|].
  rewrite Hci in H. go_inv. simpl. rewrite <- Hli.
  replace (lastIncludedIndex rf1 + Z.of_nat (Z.to_nat (p - lastIncludedIndex rf1)))%Z
    with p in Hcase by lia. setoid_rewrite Hta in Hcase.
  split_and!; [done|congruence|]. destruct Hcase as [[-> [Hz|Hne]]|Hcase]; [left; lia| |by right].
  congruence.
Qed.

(** Reconciliation keeps what agrees: after it, the leader's entries stand
    (by term) right after the previous entry; and a request whose entries are
    already in the log, such as a delayed or repeated one, changes nothing, so
    it cannot truncate later entries. *)
Lemma reconcile_correct (old new : list (LogEntry Cmd)) :
  Term <$> take (length new) (reconcile old new) = Term <$> new ∧
  ((∀ k o e, old !! k = Some o → new !! k = Some e → Term o = Term e) →
   length new ≤ length old → reconcile old new = old).
Proof.
  revert new. induction old as [|o old IH]; intros [|e new]; simpl.
  - done.
  - rewrite firstn_all. split; [done|lia].
  - done.
  - destruct (IH new) as [IH1 IH2]. case_bool_decide as Ht; simpl.
    + split; [by rewrite Ht; f_equal|]. intros Hag Hl. f_equal. apply IH2; [|lia].
      intros k. apply (Hag (S k)).
    + rewrite firstn_all. split; [done|]. intros Hag _. by destruct Ht, (Hag 0 o e).
Qed.

(** ** The commit rule *)

Lemma match_count_fold rf N l c :
  (∀ p, p ∈ l → (0 ≤ p < zlen (matchIndex rf))%Z) →
  foldl (λ acc peer, count ← acc;
    if (peer =? me rf)%Z then Some count
    else m ← go_nth (matchIndex rf) peer;
         Some (if (m >=? N)%Z then (count + 1)%Z else count)) (Some c) l =
  Some (c + zlen (filter (λ p, p ≠ me rf ∧
    (N ≤ default (-1) (go_nth (matchIndex rf) p))%Z) l))%Z.
Proof.
  revert c. induction l as [|p l IH]; intros c Hl; cbn [foldl];
    [by rewrite filter_nil, zlen_nil, Z.add_0_r|].
  destruct (go_nth_is_Some (matchIndex rf) p) as [m Hm]; [apply Hl; set_solver|].
  rewrite filter_cons, Hm. cbn [mbind option_bind default].
  destruct (p =? me rf)%Z eqn:Ep; b2p.
  { rewrite decide_False by naive_solver. apply IH. set_solver. }
  destruct (m >=? N)%Z eqn:Em; b2p.
  - rewrite decide_True by (split; [done|simpl; lia]). rewrite IH by set_solver.
    rewrite zlen_cons. f_equal. lia.
  - rewrite decide_False by (simpl; lia). apply IH. set_solver.
Qed.

Lemma match_count_spec n rf N :
  wf n rf → match_count rf N = Some (1 + zlen (holders rf N))%Z.
Proof.
  intros []. apply match_count_fold. intros p Hp%elem_of_seqZ. lia.
Qed.

Lemma commit_scan_spec n rf k :
  wf n rf → (commitIndex rf + Z.of_nat k ≤ lastLogicalIndex rf)%Z →
  ∃ N, commit_scan rf k = Some (set_commitIndex N rf) ∧
    (commitIndex rf ≤ N)%Z ∧ ((commitIndex rf < N)%Z → committable rf N) ∧
    ∀ N', (N < N' ≤ commitIndex rf + Z.of_nat k)%Z → ¬ committable rf N'.
Proof.
  intros Hwf. induction k as [|k IH]; intros Hk.
  { exists (commitIndex rf). simpl. split_and!; try lia. by destruct rf. }
  cbn [commit_scan]. set (N := (commitIndex rf + Z.of_nat (S k))%Z) in *.
  destruct (go_nth_is_Some (logs rf) (getPhysicalIndex rf N)) as [e He].
  { destruct Hwf. unfold getPhysicalIndex, lastLogicalIndex in *. lia. }
  assert (term_at rf N = Some (Term e)) as Ht by (unfold term_at; by rewrite He).
  rewrite He, (match_count_spec n rf N Hwf). cbn [mbind option_bind].
  assert (¬ committable rf N → ∃ M, commit_scan rf k = Some (set_commitIndex M rf) ∧
    (commitIndex rf ≤ M)%Z ∧ ((commitIndex rf < M)%Z → committable rf M) ∧
    ∀ N', (M < N' ≤ N)%Z → ¬ committable rf N') as Hrest.
  { intros HN. destruct IH as (M & -> & H1 & H2 & H3); [lia|]. exists M. split_and!; try done.
    intros N' HN'. destruct (decide (N' = N)) as [->|]; [done|]. apply H3. lia. }
  destruct (negb (Term e =? currTerm rf)%Z) eqn:E1; b2p.
  { apply Hrest. intros [Ht' _]. congruence. }
  destruct (1 + zlen (holders rf N) >? peers rf / 2)%Z eqn:E2; b2p.
  - exists N. split_and!; try done; try lia. intros _. split; [congruence|lia].
  - apply Hrest. intros [_ ?]. lia.
Qed.

Lemma commitIndexUpdate_spec n rf :
  wf n rf →
  ∃ N, commitIndexUpdate rf = Some (set_commitIndex N rf) ∧ (commitIndex rf ≤ N)%Z ∧
    ((commitIndex rf < N)%Z → committable rf N) ∧
    ∀ N', committable rf N' → (N' ≤ N)%Z ∨ (N' ≤ commitIndex rf)%Z.
Proof.
  intros Hwf. unfold commitIndexUpdate.
  destruct (decide (commitIndex rf ≤ lastLogicalIndex rf)%Z) as [Hle|Hgt].
  - destruct (commit_scan_spec n rf (Z.to_nat (lastLogicalIndex rf - commitIndex rf)))
      as (N & HN & H1 & H2 & H3); [done|lia|].
    exists N. split_and!; try done. intros N' HN'.
    pose proof (term_at_bounds _ _ _ (proj1 HN')).
    destruct (decide (N' ≤ N)%Z); [by left|]. destruct (H3 N'); [lia|done].
  - replace (Z.to_nat _) with 0 by lia. exists (commitIndex rf). simpl.
    split_and!; try lia; [by destruct rf|]. intros N' HN'.
    pose proof (term_at_bounds _ _ _ (proj1 HN')). lia.
Qed.

(** C20. The commit rule: [commitIndexUpdate] moves the commit index exactly to
    the largest index after it that holds an entry of the current term and is
    known to be on a majority, leaves it where no index qualifies, and changes
    nothing else. *)
Theorem commitIndexUpdate_correct n rf :
  wf n rf →
  ∃ N, commitIndexUpdate rf = Some (set_commitIndex N rf) ∧ (commitIndex rf ≤ N)%Z ∧
    ((commitIndex rf < N)%Z → committable rf N) ∧
    ∀ N', committable rf N' → (N' ≤ N)%Z ∨ (N' ≤ commitIndex rf)%Z.
Proof. apply commitIndexUpdate_spec. Qed.

(** ** Compaction *)

Definition log_at rf (j : Z) : option (LogEntry Cmd) :=
  go_nth (logs rf) (getPhysicalIndex rf j).

(** [rf'] is [rf] with everything up to [index] replaced by the snapshot's
    entry, and the rest of the log in place. *)
Definition compacted (index : Z) rf rf' : Prop :=
  lastIncludedIndex rf' = index ∧ lastLogicalIndex rf' = lastLogicalIndex rf ∧
  log_at rf' index = Some (mkLogEntry (lastIncludedTerm rf') None) ∧
  (∀ j, (index < j)%Z → log_at rf' j = log_at rf j).

(** [rf'] holds the snapshot's entry and nothing else. *)
Definition replaced (index : Z) rf' : Prop :=
  lastIncludedIndex rf' = index ∧ lastLogicalIndex rf' = index ∧
  log_at rf' index = Some (mkLogEntry (lastIncludedTerm rf') None).

Lemma compacted_intro (index : Z) rf rf' :
  (lastIncludedIndex rf < index ≤ lastLogicalIndex rf)%Z →
  lastIncludedIndex rf' = index →
  logs rf' = mkLogEntry (lastIncludedTerm rf') None ::
             drop (Z.to_nat (getPhysicalIndex rf index + 1)) (logs rf) →
  compacted index rf rf'.
Proof.
  unfold compacted, log_at, lastLogicalIndex, getPhysicalIndex. intros Hi Hl Hlg.
  rewrite Hl, Hlg. split_and!; [done| | |].
  - rewrite zlen_cons, zlen_drop by lia. lia.
  - by rewrite Z.sub_diag.
  - intros j Hj. unfold go_nth. rewrite !bool_decide_true by lia.
    replace (Z.to_nat (j - index)) with (S (Z.to_nat (j - index - 1))) by lia.
    simpl. rewrite lookup_drop. f_equal. lia.
Qed.

Lemma Snapshot_spec n index data rf :
  wf n rf → (lastIncludedIndex rf < index ≤ lastLogicalIndex rf)%Z →
  ∃ rf', Snapshot index data rf = Some rf' ∧ compacted index rf rf' ∧
    term_at rf index = Some (lastIncludedTerm rf') ∧
    snapshot (persister rf') = data ∧ synced rf' ∧
    commitIndex rf' = commitIndex rf ∧ lastApplied rf' = Z.max index (lastApplied rf) ∧
    currTerm rf' = currTerm rf ∧ state rf' = state rf ∧ peers rf' = peers rf ∧
    nextIndex rf' = nextIndex rf ∧ matchIndex rf' = matchIndex rf ∧ (1 ≤ zlen (logs rf'))%Z.
Proof.
  intros Hwf Hi. unfold Snapshot. rewrite (proj2 (Z.leb_gt _ _)) by lia.
  destruct (go_nth_is_Some (logs rf) (getPhysicalIndex rf index)) as [e He].
  { unfold getPhysicalIndex, lastLogicalIndex in *. lia. }
  rewrite He. cbn [mbind option_bind].
  set (nl := mkLogEntry (Term e) None ::
             drop (Z.to_nat (getPhysicalIndex rf index + 1)) (logs rf)).
  assert ((if (getPhysicalIndex rf index + 1 <? zlen (logs rf))%Z
       then rest ← go_from (logs rf) (getPhysicalIndex rf (index + 1));
            Some (mkLogEntry (Term e) None :: rest)
       else Some [mkLogEntry (Term e) None]) = Some nl) as ->.
  { unfold nl, getPhysicalIndex, lastLogicalIndex in *. case_match; b2p.
    - rewrite go_from_ok by lia. simpl. do 3 f_equal. lia.
    - by rewrite drop_ge by (unfold zlen in *; lia). }
  eexists. split; [reflexivity|]. rewrite go_max_eq.
  split_and!; try done; [by apply compacted_intro| |by simpl; rewrite clone_eq| |].
  - unfold term_at. by rewrite He.
  - apply synced_persistWithSnapshot.
  - unfold nl. simpl. rewrite zlen_cons. pose proof (zlen_nonneg
      (drop (Z.to_nat (getPhysicalIndex rf index + 1)) (logs rf))). lia.
Qed.

(** [Snapshot] at an index of the log replaces the entries up to it by one
    entry of the same term, keeps every later entry at its logical index, makes
    the snapshot and the compacted log durable, and moves neither term, role
    nor commit index; at an index already compacted it changes nothing. *)
Theorem Snapshot_correct n index data rf :
  wf n rf → (index ≤ lastLogicalIndex rf)%Z →
  ((index ≤ lastIncludedIndex rf)%Z ∧ Snapshot index data rf = Some rf) ∨
  ((lastIncludedIndex rf < index)%Z ∧
   ∃ rf', Snapshot index data rf = Some rf' ∧ compacted index rf rf' ∧
     term_at rf index = Some (lastIncludedTerm rf') ∧
     snapshot (persister rf') = data ∧ synced rf' ∧
     commitIndex rf' = commitIndex rf ∧ lastApplied rf' = Z.max index (lastApplied rf) ∧
     currTerm rf' = currTerm rf ∧ state rf' = state rf).
Proof.
  intros Hwf Hi. destruct (decide (index ≤ lastIncludedIndex rf)%Z) as [Hle|Hgt].
  - left. split; [done|]. unfold Snapshot. by rewrite (proj2 (Z.leb_le _ _)).
  - right. split; [lia|].
    destruct (Snapshot_spec n index data rf) as (rf' & H); [done|lia|]. exists rf'. tauto.
Qed.

(** The scan of [InstallSnapshot] finds the snapshot's last entry where the log
    has it. *)
Lemma find_split_eq rf args i l found :
  (∀ e, l !! Z.to_nat (isa_LastIncludedIndex args - lastIncludedIndex rf - i) = Some e →
        (i ≤ isa_LastIncludedIndex args - lastIncludedIndex rf)%Z →
        Term e = isa_LastIncludedTerm args →
        find_split rf args i l found = Some (isa_LastIncludedIndex args - lastIncludedIndex rf)%Z) ∧
  ((∀ e, l !! Z.to_nat (isa_LastIncludedIndex args - lastIncludedIndex rf - i) = Some e →
         (i ≤ isa_LastIncludedIndex args - lastIncludedIndex rf)%Z →
         Term e ≠ isa_LastIncludedTerm args) →
   find_split rf args i l found = found).
Proof.
  set (k := (isa_LastIncludedIndex args - lastIncludedIndex rf)%Z).
  revert i found. induction l as [|e l IH]; intros i found; [done|]. cbn [find_split].
  specialize (IH (i + 1)%Z (if (getLogicalIndex rf i =? isa_LastIncludedIndex args)%Z &&
     (Term e =? isa_LastIncludedTerm args)%Z then Some i else found)) as [IH1 IH2].
  destruct (decide (i = k)) as [->|Hne].
  - rewrite Z.sub_diag. unfold getLogicalIndex in *.
    rewrite (proj2 (Z.eqb_eq _ _)) in * by lia. cbn [andb] in *.
    assert (find_split rf args (k + 1) l
      (if (Term e =? isa_LastIncludedTerm args)%Z then Some k else found) =
      (if (Term e =? isa_LastIncludedTerm args)%Z then Some k else found)) as ->
      by (apply IH2; lia).
    split; [intros e' [= <-] _ ->; by rewrite Z.eqb_refl|].
    intros Hn. rewrite (proj2 (Z.eqb_neq _ _)); [done|]. by apply Hn.
  - unfold getLogicalIndex in *. rewrite (proj2 (Z.eqb_neq _ _)) in * by lia. cbn [andb] in *.
    split; intros H.
    + intros Hl Hi Ht. apply (IH1 H); [|lia|done].
      by replace (Z.to_nat (k - i)) with (S (Z.to_nat (k - (i + 1)))) in Hl by lia.
    + apply IH2. intros e' Hl Hi. apply H; [|lia].
      by replace (Z.to_nat (k - i)) with (S (Z.to_nat (k - (i + 1)))) by lia.
Qed.

(** The branch of [InstallSnapshot] that installs. *)
Lemma InstallSnapshot_log n args rf :
  wf n rf → (lastIncludedIndex rf < isa_LastIncludedIndex args)%Z →
  ∃ nl, match find_split rf args 0 (logs rf) None with
        | Some splitIdx =>
            rest ← go_from (logs rf) (splitIdx + 1);
            Some (mkLogEntry (isa_LastIncludedTerm args) None :: rest)
        | None => Some [mkLogEntry (isa_LastIncludedTerm args) None]
        end = Some nl ∧
    nl = mkLogEntry (isa_LastIncludedTerm args) None ::
      (if bool_decide (term_at rf (isa_LastIncludedIndex args) = Some (isa_LastIncludedTerm args))
       then drop (Z.to_nat (getPhysicalIndex rf (isa_LastIncludedIndex args) + 1)) (logs rf)
       else []).
Proof.
  intros Hwf Hlt. destruct (find_split_eq rf args 0 (logs rf) None) as [H1 H2].
  unfold term_at, getPhysicalIndex in *. rewrite Z.sub_0_r in *. unfold go_nth.
  rewrite (bool_decide_true (0 ≤ isa_LastIncludedIndex args - lastIncludedIndex rf)%Z) by lia.
  destruct (logs rf !! Z.to_nat (isa_LastIncludedIndex args - lastIncludedIndex rf)) as [e|] eqn:He;
    [destruct (decide (Term e = isa_LastIncludedTerm args)) as [Ht|Ht]|].
  - rewrite (H1 e) by (done || lia). rewrite go_from_ok
      by (apply lookup_lt_Some in He; unfold zlen; lia).
    rewrite bool_decide_true by (simpl; congruence). eauto.
  - rewrite H2 by (intros; congruence). rewrite bool_decide_false by (simpl; congruence). eauto.
  - rewrite H2 by done. rewrite bool_decide_false by done. eauto.
Qed.

Definition install_spec (n : Z) (args : InstallSnapshotArgs) rf
    (o : option (Raft Cmd * InstallSnapshotReply * option (ApplyMsg Cmd))) : Prop :=
  ∃ rf' reply msg, o = Some (rf', reply, msg) ∧ wf n rf' ∧
    currTerm rf' = Z.max (currTerm rf) (isa_Term args) ∧
    isr_Term reply = Z.max (currTerm rf) (isa_Term args) ∧
    (if bool_decide (currTerm rf ≤ isa_Term args ∧
                     lastIncludedIndex rf < isa_LastIncludedIndex args)%Z
     then
       (if bool_decide (term_at rf (isa_LastIncludedIndex args) = Some (isa_LastIncludedTerm args))
        then compacted (isa_LastIncludedIndex args) rf rf'
        else replaced (isa_LastIncludedIndex args) rf') ∧
       lastIncludedTerm rf' = isa_LastIncludedTerm args ∧
       snapshot (persister rf') = isa_Data args ∧ synced rf' ∧
       commitIndex rf' = Z.max (isa_LastIncludedIndex args) (commitIndex rf) ∧
       lastApplied rf' = Z.max (isa_LastIncludedIndex args) (lastApplied rf) ∧
       msg = Some (mkApplyMsg false None 0 true (isa_Data args)
                     (isa_LastIncludedTerm args) (isa_LastIncludedIndex args))
     else
       logs rf' = logs rf ∧ lastIncludedIndex rf' = lastIncludedIndex rf ∧
       commitIndex rf' = commitIndex rf ∧ lastApplied rf' = lastApplied rf ∧ msg = None).

Lemma InstallSnapshot_spec n now args rf :
  wf n rf → install_spec n args rf (InstallSnapshot now args rf).
Proof.
  intros Hwf. unfold InstallSnapshot, install_spec.
  destruct (currTerm rf >? isa_Term args)%Z eqn:E0; b2p.
  { do 3 eexists. split; [done|]. rewrite bool_decide_false by lia.
    split_and!; try done; simpl; lia. }
  set (rf1 := set_currLeader _ _).
  set (rf2 := if (isa_Term args >? currTerm rf1)%Z then _ else rf1).
  assert (wf n rf2 ∧ logs rf2 = logs rf ∧ lastIncludedIndex rf2 = lastIncludedIndex rf ∧
          commitIndex rf2 = commitIndex rf ∧ lastApplied rf2 = lastApplied rf ∧
          currTerm rf2 = Z.max (currTerm rf) (isa_Term args))
    as (Hwf2 & Hlg & Hli & Hci & Hla & Ht).
  { destruct Hwf. unfold rf2. destruct (isa_Term args >? currTerm rf1)%Z eqn:E1; b2p;
      unfold rf1 in E1; simpl in E1; split_and!; try done; simpl; try lia; solve_wf. }
  clearbody rf2. clear rf1.
  destruct (lastIncludedIndex rf2 >=? isa_LastIncludedIndex args)%Z eqn:E1; b2p.
  { do 3 eexists. split; [done|]. rewrite bool_decide_false by lia. split_and!; done. }
  destruct (InstallSnapshot_log n args rf2 Hwf2) as (nl & -> & Hnl); [lia|].
  assert (term_at rf2 (isa_LastIncludedIndex args) = term_at rf (isa_LastIncludedIndex args))
    as Hta by (unfold term_at, getPhysicalIndex; by rewrite Hlg, Hli).
  unfold getPhysicalIndex in Hnl. rewrite Hta, Hlg, Hli in Hnl.
  cbn [mbind option_bind]. rewrite !go_max_eq.
  do 3 eexists. split; [done|]. rewrite bool_decide_true by lia.
  assert (1 ≤ zlen nl)%Z as Hlen
    by (rewrite Hnl, zlen_cons; pose proof (zlen_nonneg (tail nl)); subst nl; simpl in *; lia).
  destruct Hwf2. split_and!; try done; try (simpl; lia).
  - split; simpl; auto; lia.
  - case_bool_decide.
    + apply compacted_intro; [|done|by rewrite Hnl].
      pose proof (term_at_bounds _ _ _ H). lia.
    + split_and!; [done| |]; unfold lastLogicalIndex, log_at, getPhysicalIndex; simpl;
        rewrite Hnl; [by rewrite zlen_cons, zlen_nil; lia|by rewrite Z.sub_diag].
  - by simpl; rewrite clone_eq.
  - apply synced_persistWithSnapshot.
Qed.

(** C21. [InstallSnapshot]: a request that is behind in term, or that covers
    no more than the peer's own snapshot, leaves log, commit index and service
    alone.  Any other request replaces the log up to the snapshot (keeping the
    later entries exactly when the log holds the snapshot's last entry, and
    dropping everything otherwise), makes snapshot and log durable, moves
    commit index and applied index forward to it, never backward, and hands the
    snapshot to the service. *)
Theorem InstallSnapshot_correct n now args rf :
  wf n rf → install_spec n args rf (InstallSnapshot now args rf).
Proof. apply InstallSnapshot_spec. Qed.

(** ** No section panics, and all preserve well-formedness *)

Lemma good_intro n rf rf' : wf n rf' → (currTerm rf ≤ currTerm rf')%Z → good n rf (Some rf').
Proof. intros. by exists rf'. Qed.

Lemma vote_termCheck_wf n reply rf :
  wf n rf → wf n (vote_termCheck reply rf) ∧ (currTerm rf ≤ currTerm (vote_termCheck reply rf))%Z.
Proof. intros []. unfold vote_termCheck. case_match; b2p; (split; [solve_wf|simpl; lia]). Qed.

Lemma vote_reply_good n t votes reply rf :
  wf n rf → good n rf (Some (vote_reply t votes reply rf).1.1).
Proof.
  intros Hwf. destruct (vote_termCheck_wf n reply rf Hwf).
  unfold vote_reply. case_all; by apply good_intro.
Qed.

Lemma startElection_good n now rf : wf n rf → good n rf (fst <$> startElection now rf).
Proof.
  intros Hwf. unfold startElection. set (rf1 := persist _).
  destruct (last_entry rf1) as (e & He & _); [apply Hwf|]. rewrite He. simpl.
  destruct Hwf. apply good_intro; [solve_wf|simpl; lia].
Qed.

Lemma fill_next (self v : Z) ps nx :
  (∀ p, p ∈ ps → (0 ≤ p < zlen nx)%Z) →
  ∃ nx', foldl (λ acc peer, l ← acc; if (peer =? self)%Z then Some l else go_set l peer v)
               (Some nx) ps = Some nx' ∧ zlen nx' = zlen nx.
Proof.
  revert nx. induction ps as [|p ps IH]; intros nx Hps; cbn [foldl mbind option_bind]; [eauto|].
  case_match; [apply IH; set_solver|].
  rewrite go_set_ok by (apply Hps; set_solver).
  destruct (IH (<[Z.to_nat p := v]> nx)) as (nx' & H1 & H2).
  - intros q Hq. rewrite zlen_insert. apply Hps. set_solver.
  - exists nx'. by rewrite zlen_insert in H2.
Qed.

Lemma becomeLeader_good n t rf : wf n rf → good n rf (fst <$> becomeLeader t rf).
Proof.
  intros Hwf. unfold becomeLeader. case_match; [by apply good_intro|].
  destruct (fill_next (me (set_state Leader rf)) (lastLogicalIndex (set_state Leader rf) + 1)
    (peer_range (set_state Leader rf)) (nextIndex (set_state Leader rf))) as (nx & -> & Hnx).
  { intros p Hp%elem_of_seqZ. destruct Hwf. simpl in *. lia. }
  destruct Hwf. apply good_intro; [|simpl; lia]. simpl in Hnx. solve_wf.
Qed.

Lemma clamp_next_good n peer rf :
  wf n rf → (0 ≤ peer < n)%Z → good n rf (clamp_next peer rf).
Proof.
  intros Hwf Hp. unfold clamp_next.
  destruct (go_nth_is_Some (nextIndex rf) peer) as [ni Hni]; [destruct Hwf; lia|].
  rewrite Hni. cbn [mbind option_bind]. case_match; [|by apply good_intro].
  rewrite go_set_ok by (destruct Hwf; lia). cbn [mbind option_bind].
  destruct Hwf. apply good_intro; [|done]. split; simpl; rewrite ?zlen_insert; auto.
Qed.

Lemma last_with_term_total (l : list (LogEntry Cmd)) ct k :
  k ≤ length l → is_Some (last_with_term l ct k).
Proof.
  induction k as [|k IH]; intros Hk; cbn [last_with_term]; [done|].
  destruct (go_nth_is_Some l (Z.of_nat k)) as [e He]; [unfold zlen; lia|].
  rewrite He. cbn [mbind option_bind]. case_match; [done|]. apply IH. lia.
Qed.

Lemma backup_index_total n peer reply rf :
  wf n rf → (0 ≤ peer < n)%Z →
  backup_index peer reply rf = Some None ∨
  ∃ nx, backup_index peer reply rf = Some (Some nx) ∧ zlen nx = n.
Proof.
  intros [] Hp. unfold backup_index.
  case_match; [right; rewrite go_set_ok by lia; eexists; split; [done|by rewrite zlen_insert]|].
  case_match; [by left|right].
  destruct (last_with_term_total (logs rf) (aer_ConflictTerm reply)
    (Z.to_nat (getPhysicalIndex rf (lastLogicalIndex rf) + 1))) as [f ->].
  { unfold getPhysicalIndex, lastLogicalIndex, zlen. lia. }
  cbn [mbind option_bind]. rewrite go_set_ok by lia.
  eexists; split; [done|by rewrite zlen_insert].
Qed.

Lemma append_reply_good n now peer args reply rf :
  wf n rf → (0 ≤ peer < n)%Z → good n rf (fst <$> append_reply now peer args reply rf).
Proof.
  intros Hwf Hp. unfold append_reply. case_match; [by apply good_intro|].
  case_match; b2p; [destruct Hwf; apply good_intro; [solve_wf|simpl; lia]|].
  case_match; [by apply good_intro|]. case_match.
  - destruct (go_nth_is_Some (matchIndex rf) peer) as [m Hm]; [destruct Hwf; lia|].
    rewrite Hm. cbn [mbind option_bind]. rewrite !go_set_ok by (destruct Hwf; lia).
    cbn [mbind option_bind]. set (rf1 := set_nextIndex _ _).
    assert (wf n rf1) as Hwf1
      by (destruct Hwf; split; simpl; rewrite ?zlen_insert; auto).
    destruct (commitIndexUpdate_spec n rf1 Hwf1) as (N & -> & HN & _). cbn [mbind option_bind].
    assert (wf n (set_commitIndex N rf1)) as Hwf2 by (destruct Hwf1; solve_wf).
    destruct (clamp_next_good n peer _ Hwf2 Hp) as (rf2 & -> & Hwf3 & Ht). by apply good_intro.
  - destruct (backup_index_total n peer reply rf Hwf Hp) as [->|(nx & -> & Hnx)];
      cbn [mbind option_bind]; [by apply good_intro|].
    assert (wf n (set_nextIndex nx rf)) as Hwf1 by (destruct Hwf; solve_wf).
    destruct (clamp_next_good n peer _ Hwf1 Hp) as (rf2 & -> & Hwf3 & Ht). by apply good_intro.
Qed.

Lemma snapshot_reply_good n now peer args reply rf :
  wf n rf → (0 ≤ peer < n)%Z → good n rf (snapshot_reply now peer args reply rf).
Proof.
  intros Hwf Hp. unfold snapshot_reply.
  case_match; b2p; [destruct Hwf; apply good_intro; [solve_wf|simpl; lia]|].
  case_match; [by apply good_intro|]. destruct Hwf.
  destruct (go_nth_is_Some (matchIndex rf) peer) as [m Hm]; [lia|].
  destruct (go_nth_is_Some (nextIndex rf) peer) as [ni Hni]; [lia|].
  rewrite Hm, Hni. cbn [mbind option_bind]. rewrite !go_set_ok by lia. cbn [mbind option_bind].
  apply good_intro; [|done]. split; simpl; rewrite ?zlen_insert; auto.
Qed.

Lemma sendApplyMsg_good n rf : wf n rf → good n rf (fst <$> sendApplyMsg rf).
Proof.
  intros Hwf. unfold sendApplyMsg. case_match; [|by apply good_intro]. set (rf1 := set_lastApplied _ _).
  destruct Hwf. case_match; b2p; [apply good_intro; [solve_wf|simpl; lia]|].
  destruct (go_nth_is_Some (logs rf1) (getPhysicalIndex rf1 (lastApplied rf1))) as [e He].
  { unfold getPhysicalIndex, lastLogicalIndex, rf1 in *. simpl in *. lia. }
  rewrite He. cbn [mbind option_bind]. apply good_intro; [solve_wf|simpl; lia].
Qed.

Lemma Snapshot_good n index data rf :
  wf n rf → (index ≤ commitIndex rf)%Z → (index ≤ lastLogicalIndex rf)%Z →
  good n rf (Snapshot index data rf).
Proof.
  intros Hwf Hc Hi. destruct (decide (index ≤ lastIncludedIndex rf)%Z) as [Hle|Hgt].
  { unfold Snapshot. rewrite (proj2 (Z.leb_le _ _)) by done. by apply good_intro. }
  destruct (Snapshot_spec n index data rf) as (rf' & -> & (Hl & _) & Hr); [done|lia|].
  destruct Hr as (_ & _ & _ & H1 & H2 & H3 & H4 & H5 & H6 & H7 & H8).
  destruct Hwf. apply good_intro; [|lia]. split; rewrite ?H4; auto; congruence || lia.
Qed.

Lemma Start_good n c rf : wf n rf → good n rf (Some (Start c rf).1).
Proof.
  intros Hwf. unfold Start. case_match; [by apply good_intro|].
  destruct Hwf. apply good_intro; [|done]. split; simpl; auto. rewrite zlen_app.
  pose proof (zlen_nonneg [mkLogEntry (currTerm rf) (Some c)]). lia.
Qed.

Lemma makeAppendEntry_spec n peer rf ni :
  wf n rf → go_nth (nextIndex rf) peer = Some ni →
  (lastIncludedIndex rf < ni ≤ lastLogicalIndex rf + 1)%Z →
  ∃ t, term_at rf (ni - 1) = Some t ∧
    makeAppendEntry peer rf =
      Some (PlanAppend (mkAppendEntriesArgs (currTerm rf) (me rf) (ni - 1) t
              (drop (Z.to_nat (getPhysicalIndex rf ni)) (logs rf)) (commitIndex rf))).
Proof.
  intros Hwf Hni Hr. unfold makeAppendEntry, term_at. rewrite Hni. cbn [mbind option_bind].
  rewrite (proj2 (Z.leb_gt _ _)) by lia. unfold getPhysicalIndex, lastLogicalIndex in *.
  rewrite go_from_ok by lia. cbn [mbind option_bind].
  replace (ni - 1 - lastIncludedIndex rf)%Z with (ni - lastIncludedIndex rf - 1)%Z by lia.
  destruct (go_nth_is_Some (logs rf) (ni - lastIncludedIndex rf - 1)) as [e He]; [lia|].
  rewrite He. eauto.
Qed.

(** [makeAppendEntry] panics exactly when [nextIndex] of the peer is more than
    one past the end of the log. *)
Lemma makeAppendEntry_panics n peer rf ni :
  wf n rf → go_nth (nextIndex rf) peer = Some ni →
  makeAppendEntry peer rf = None ↔ (lastLogicalIndex rf + 1 < ni)%Z.
Proof.
  intros Hwf Hni. destruct (decide (lastLogicalIndex rf + 1 < ni)%Z) as [Hgt|Hle].
  - split; [done|]. intros _. unfold makeAppendEntry. rewrite Hni. cbn [mbind option_bind].
    pose proof (wf_logs _ _ Hwf). unfold lastLogicalIndex in Hgt.
    rewrite (proj2 (Z.leb_gt _ _)) by lia. destruct (go_from _ _) as [l|] eqn:Hf; [|done].
    apply go_from_Some in Hf as [Hb _]. unfold getPhysicalIndex in Hb. lia.
  - split; [|lia]. intros Hm. destruct (decide (ni ≤ lastIncludedIndex rf)%Z).
    + unfold makeAppendEntry in Hm. rewrite Hni in Hm. cbn [mbind option_bind] in Hm.
      by rewrite (proj2 (Z.leb_le _ _)) in Hm by done.
    + destruct (makeAppendEntry_spec n peer rf ni Hwf Hni) as (t & _ & E); [lia|congruence].
Qed.

Lemma makeAppendEntry_good n peer rf :
  wf n rf → call_pre n (CMakeAppend peer) rf → good n rf (call (CMakeAppend peer) rf).
Proof.
  intros Hwf [Hp Hni]. destruct (go_nth_is_Some (nextIndex rf) peer) as [ni Hn]; [rewrite (wf_next _ _ Hwf); lia|].
  simpl. destruct (makeAppendEntry peer rf) eqn:Hm; [by apply good_intro|].
  apply (makeAppendEntry_panics n peer rf ni Hwf Hn) in Hm. specialize (Hni ni Hn). lia.
Qed.

(** C19. Panic freedom of a peer: from a well-formed state every RPC handler,
    service call and goroutine section, [makeAppendEntry] included, returns (no
    slice access of it is out of range), leaves a well-formed state, and never
    decreases the term, provided its precondition [call_pre] holds: peer numbers
    are in range, the service compacts only committed entries that the log
    holds, and [makeAppendEntry] finds the peer's [nextIndex] at most one past
    the log.  Where the last fails the code panics ([makeAppendEntry_panics]),
    and a stale matchIndex brings it about ([stale_match_panics]). *)
Theorem call_good n c rf : wf n rf → call_pre n c rf → good n rf (call c rf).
Proof.
  intros Hwf Hc. destruct c; simpl in Hc.
  - by apply RequestVote_good.
  - destruct (AppendEntries_spec n now args rf Hwf) as (rf' & r & E & Hwf' & Ht & _). simpl. rewrite E.
    apply good_intro; [done|simpl; lia].
  - destruct (InstallSnapshot_spec n now args rf Hwf) as (rf' & r & m & E & Hwf' & Ht & _). simpl. rewrite E.
    apply good_intro; [done|simpl; lia].
  - destruct Hc. by apply Snapshot_good.
  - by apply Start_good.
  - by apply startElection_good.
  - by apply vote_reply_good.
  - destruct (vote_termCheck_wf n reply rf Hwf). by apply good_intro.
  - by apply becomeLeader_good.
  - by apply makeAppendEntry_good.
  - by apply append_reply_good.
  - by apply snapshot_reply_good.
  - by apply sendApplyMsg_good.
  - destruct Hwf. apply good_intro; [solve_wf|done].
Qed.

(** ** From the leader's log to the follower's *)

Lemma reconcile_terms (old new : list (LogEntry Cmd)) k e :
  new !! k = Some e → ∃ o, reconcile old new !! k = Some o ∧ Term o = Term e.
Proof.
  revert new k. induction old as [|o old IH]; intros [|e' new] k Hk; simpl; eauto; [done|].
  case_bool_decide; [|eauto]. destruct k; simpl in *; [|by apply IH].
  injection Hk as ->. eauto.
Qed.

Lemma term_at_nat rf j :
  (lastIncludedIndex rf ≤ j)%Z →
  term_at rf j = Term <$> (logs rf !! Z.to_nat (j - lastIncludedIndex rf)).
Proof.
  intros Hj. unfold term_at, go_nth, getPhysicalIndex. by rewrite bool_decide_true by lia.
Qed.

(** One round of replication: a leader whose [nextIndex] for the peer is
    inside its log plans an [AppendEntries] that carries every entry from there
    on; when the peer answers success, the two logs have the same term at every
    index from the previous entry to the end of the leader's log. *)
Theorem replication_round n peer ni now rf rg :
  wf n rf → wf n rg → go_nth (nextIndex rf) peer = Some ni →
  (lastIncludedIndex rf < ni ≤ lastLogicalIndex rf + 1)%Z →
  ∃ args rg' reply, makeAppendEntry peer rf = Some (PlanAppend args) ∧
    AppendEntries now args rg = Some (rg', reply) ∧
    (aer_Success reply = true →
     (lastLogicalIndex rf ≤ lastLogicalIndex rg')%Z ∧
     ∀ j, (ni - 1 ≤ j ≤ lastLogicalIndex rf)%Z → term_at rg' j = term_at rf j).
Proof.
  intros Hwf Hwg Hni Hr. destruct (makeAppendEntry_spec n peer rf ni Hwf Hni Hr) as (t & Ht & Hm).
  set (args := mkAppendEntriesArgs _ _ _ _ _ _) in Hm.
  destruct (AppendEntries_spec n now args rg Hwg)
    as (rg' & reply & Happ & Hwg' & _ & Hli & Hs & Hlog).
  exists args, rg', reply. split_and!; [done..|]. intros Hok. rewrite Hok in Hlog, Hs.
  destruct Hlog as [Hlog _]. destruct Hs as [[_ Htg] _]; [done|]. simpl in Hlog, Htg.
  pose proof (term_at_bounds _ _ _ Htg) as Hb. unfold getPhysicalIndex in Hlog.
  replace (ni - 1 + 1 - lastIncludedIndex rg)%Z with (ni - lastIncludedIndex rg)%Z in Hlog by lia.
  assert (∀ j, (ni - 1 ≤ j ≤ lastLogicalIndex rf)%Z → term_at rg' j = term_at rf j) as Hall.
  { intros j Hj. unfold lastLogicalIndex, zlen in *.
    rewrite (term_at_nat rg'), (term_at_nat rf), Hlog, Hli by lia.
    destruct (decide (j = ni - 1)%Z) as [->|].
    - rewrite lookup_app_l by (rewrite length_take; lia).
      rewrite lookup_take_lt, <- !term_at_nat by lia. congruence.
    - rewrite lookup_app_r by (rewrite length_take; lia). rewrite length_take, Nat.min_l by lia.
      destruct (lookup_lt_is_Some_2 (logs rf) (Z.to_nat (j - lastIncludedIndex rf))) as [e He];
        [lia|].
      destruct (reconcile_terms (drop (Z.to_nat (ni - lastIncludedIndex rg)) (logs rg))
        (drop (Z.to_nat (ni - lastIncludedIndex rf)) (logs rf))
        (Z.to_nat (j - lastIncludedIndex rg) - Z.to_nat (ni - lastIncludedIndex rg)) e)
        as (o & Ho & Hto); [rewrite lookup_drop; rewrite <- He; f_equal; lia|].
      by rewrite Ho, He; simpl; rewrite Hto. }
  split; [|done]. destruct (term_at rf (lastLogicalIndex rf)) as [tl|] eqn:Hl.
  - rewrite <- Hall in Hl by lia. apply term_at_bounds in Hl. lia.
  - destruct (last_entry rf) as (e & He & _); [apply Hwf|].
    unfold term_at in Hl. by rewrite He in Hl.
Qed.
End local.

(** ** Witnesses

    A peer of a cluster of three with the log 0 | 1, 1, 2 of term 2: as a
    follower, and as a leader whose peer 1 has the first entry. *)

Definition wit_follower : Raft Z :=
  persist (set_currTerm 2 (set_logs
    [mkLogEntry 0 None; mkLogEntry 1 (Some 10%Z); mkLogEntry 1 (Some 20%Z);
     mkLogEntry 2 (Some 30%Z)] (Make 3 0 MakePersister 0).1)).

Definition wit_leader : Raft Z :=
  set_state Leader (set_nextIndex [4; 2; 4]%Z (set_matchIndex [0; 3; 0]%Z wit_follower)).

Lemma wit_follower_wf : wf 3 wit_follower.
Proof. split; vm_compute; auto; discriminate. Qed.

Lemma wit_leader_wf : wf 3 wit_leader.
Proof. split; vm_compute; auto; discriminate. Qed.

Definition wit_vote : RequestVoteArgs := mkRequestVoteArgs 3 1 3 2.

Lemma RequestVote_correct_witness :
  ∃ rf' reply, RequestVote 7 wit_vote wit_follower = Some (rf', reply) ∧
    rvr_VoteGranted reply = true ∧ votedFor rf' = 1%Z ∧ currTerm rf' = 3%Z.
Proof.
  destruct (RequestVote_correct 3 7 wit_vote wit_follower wit_follower_wf)
    as (rf' & reply & H & _ & Ht & Hg & Hv).
  assert (rvr_VoteGranted reply = true) as Hgr.
  { apply Hg. split; [vm_compute; discriminate|]. split; [left; reflexivity|].
    right. split; [reflexivity|vm_compute; discriminate]. }
  exists rf', reply. rewrite Hgr in Hv. split_and!; [done|done|exact Hv|exact Ht].
Defined.

(** The leader of term 3 sends two entries after index 1: the first agrees with
    the follower's, the second replaces the one of term 2. *)
Definition wit_append : AppendEntriesArgs Z :=
  mkAppendEntriesArgs 3 1 1 1 [mkLogEntry 1 (Some 20%Z); mkLogEntry 3 (Some 40%Z)] 2.

Lemma AppendEntries_correct_witness :
  append_spec 3 wit_append wit_follower (AppendEntries 7 wit_append wit_follower) ∧
  (logs ∘ fst <$> AppendEntries 7 wit_append wit_follower) =
    Some [mkLogEntry 0 None; mkLogEntry 1 (Some 10%Z); mkLogEntry 1 (Some 20%Z);
          mkLogEntry 3 (Some 40%Z)].
Proof.
  split; [apply (AppendEntries_correct 3 7 wit_append wit_follower wit_follower_wf)|].
  vm_compute. reflexivity.
Defined.

(** A previous entry of another term: the hint is term 1 and its first index. *)
Definition wit_conflict : AppendEntriesArgs Z := mkAppendEntriesArgs 3 1 2 2 [] 0.

Lemma AppendEntries_hint_witness :
  ∃ rf' reply, AppendEntries 7 wit_conflict wit_follower = Some (rf', reply) ∧
    aer_ConflictTerm reply = 1%Z ∧ aer_ConflictIndex reply = 1%Z ∧
    ∀ j, (1 ≤ j ≤ 2)%Z → term_at wit_follower j = Some 1%Z.
Proof.
  destruct (AppendEntries 7 wit_conflict wit_follower) as [[rf' reply]|] eqn:H;
    [|vm_compute in H; discriminate].
  assert (reply = mkAppendEntriesReply false 0 1 1) as -> by (vm_compute in H; congruence).
  exists rf', (mkAppendEntriesReply false 0 1 1). split_and!; try done.
  destruct (AppendEntries_hint 3 7 wit_conflict wit_follower rf' _ wit_follower_wf
    ltac:(vm_compute; discriminate) H eq_refl) as [(Hbad & _)|[(Hbad & _)|(_ & _ & Hc)]].
  - vm_compute in Hbad. discriminate.
  - vm_compute in Hbad. discriminate.
  - destruct Hc as [(Hbad & _)|(_ & Hall & _)]; [vm_compute in Hbad; discriminate|].
    exact Hall.
Defined.

(** Entry 3, of the current term, is on peers 0 and 1. *)
Lemma commitIndexUpdate_correct_witness :
  ∃ N, commitIndexUpdate wit_leader = Some (set_commitIndex N wit_leader) ∧ (3 ≤ N)%Z.
Proof.
  destruct (commitIndexUpdate_correct 3 wit_leader wit_leader_wf) as (N & H & H0 & _ & Hmax).
  exists N. split; [done|]. destruct (Hmax 3%Z) as [|Hc]; [|done|].
  - split; vm_compute; reflexivity.
  - exfalso. revert Hc. vm_compute. intros Hc. by apply Hc.
Defined.

Lemma Snapshot_correct_witness :
  ∃ rf', Snapshot 2 [] wit_follower = Some rf' ∧ compacted 2 wit_follower rf' ∧
    lastIncludedTerm rf' = 1%Z.
Proof.
  destruct (Snapshot_correct 3 2 [] wit_follower wit_follower_wf ltac:(vm_compute; discriminate))
    as [(Hbad & _)|(_ & rf' & H1 & H2 & H3 & _)]; [by vm_compute in Hbad|].
  exists rf'. split_and!; [done|done|].
  assert (term_at wit_follower 2 = Some 1%Z) by (vm_compute; reflexivity). congruence.
Defined.

Definition wit_install : InstallSnapshotArgs := mkInstallSnapshotArgs 2 1 2 1 0 [] true.

Lemma InstallSnapshot_correct_witness :
  install_spec 3 wit_install wit_follower (InstallSnapshot 7 wit_install wit_follower) ∧
  (logs ∘ fst ∘ fst <$> InstallSnapshot 7 wit_install wit_follower) =
    Some [mkLogEntry 1 None; mkLogEntry 2 (Some 30%Z)].
Proof.
  split; [apply (InstallSnapshot_correct 3 7 wit_install wit_follower wit_follower_wf)|].
  vm_compute. reflexivity.
Defined.

(** Peer 2 acknowledges entries 1 to 3. *)
Definition wit_ack : Call :=
  CAppendReply 7 2 (mkAppendEntriesArgs 2 0 0 0 (drop 1 (logs wit_leader)) 0)
    (mkAppendEntriesReply true 0 0 0).

Lemma call_good_witness :
  call_pre 3 wit_ack wit_leader ∧ good 3 wit_leader (call wit_ack wit_leader) ∧
  (commitIndex <$> call wit_ack wit_leader) = Some 3%Z ∧
  good 3 wit_leader (call (CMakeAppend 1) wit_leader).
Proof.
  assert (call_pre 3 wit_ack wit_leader) as Hpre by (unfold wit_ack; simpl; lia).
  assert (call_pre 3 (CMakeAppend 1) wit_leader) as Hpre'.
  { split; [lia|]. vm_compute. by intros ni [= <-]. }
  split; [exact Hpre|]. split; [|split; [vm_compute; reflexivity|exact (call_good 3 _ wit_leader wit_leader_wf Hpre')]].
  exact (call_good 3 wit_ack wit_leader wit_leader_wf Hpre).
Defined.

Lemma replication_round_witness :
  ∃ args rg' reply, makeAppendEntry 1 wit_leader = Some (PlanAppend args) ∧
    AppendEntries 7 args wit_follower = Some (rg', reply) ∧
    (aer_Success reply = true →
     (lastLogicalIndex wit_leader ≤ lastLogicalIndex rg')%Z ∧
     ∀ j, (1 ≤ j ≤ lastLogicalIndex wit_leader)%Z → term_at rg' j = term_at wit_leader j).
Proof.
  apply (replication_round 3 1 2 7 wit_leader wit_follower wit_leader_wf wit_follower_wf);
    vm_compute; [reflexivity|split; [reflexivity|discriminate]].
Defined.
