(* ===== verification/RaftTree.v ===== *)
(** * The tree of log entries

    Every entry a leader ever created is a node of a tree: it is known by its
    index and its term, and its parent is the entry before it.  A log is a
    path of the tree that ends in the log's tip.  This file has the order on
    the nodes and says what the critical sections that change a log do to its
    tip. *)

From S2P Require Import Prelude Persister RaftTypes RaftHandlers RaftLeader RaftNet RaftEffects RaftLocal.

(** An entry as (index, term). *)
Abbreviation Node := (Z * Z)%type.

Section tree.
Context {Cmd : Type}.
Implicit Types (b : Born Cmd) (l : list (LogEntry Cmd)) (x y z : Node).

(** [anc b x y]: [x] is on the path from the root to [y]. *)
Inductive anc b x : Node → Prop :=
  | anc_refl : anc b x x
  | anc_up k u c t : b !! (k, u) = Some (c, t) → anc b x ((k - 1)%Z, t) → anc b x (k, u).

(** The root is the entry that every log starts with. *)
Definition root : Node := (0, 0)%Z.

Definition is_node b x : Prop := x = root ∨ is_Some (b !! x).

(** Parents are nodes, one index down, of a term that is not larger. *)
Definition tree b : Prop := ∀ k u c t,
  b !! (k, u) = Some (c, t) → (1 ≤ k)%Z ∧ (0 ≤ t ≤ u)%Z ∧ (0 < u)%Z ∧ is_node b ((k - 1)%Z, t).

#[local] Hint Constructors anc : core.

Lemma anc_trans b x y z : anc b x y → anc b y z → anc b x z.
Proof. intros Hxy. induction 1; eauto. Qed.

Lemma anc_mono b b' x y : b ⊆ b' → anc b x y → anc b' x y.
Proof. intros Hb. induction 1; [done|]. eapply anc_up; [by eapply lookup_weaken|done]. Qed.

Lemma anc_index b x y : anc b x y → (x.1 ≤ y.1)%Z.
Proof. induction 1; simpl in *; lia. Qed.

Lemma anc_same b x y : anc b x y → x.1 = y.1 → x = y.
Proof.
  intros Ha He. destruct Ha as [|k u c t Hb Ha]; [done|]. apply anc_index in Ha. simpl in *. lia.
Qed.

Lemma anc_antisym b x y : anc b x y → anc b y x → x = y.
Proof. intros H1 H2. apply (anc_same b); [done|]. apply anc_index in H1, H2. lia. Qed.

(** The nodes of a path are ordered by their index. *)
Lemma anc_linear b x y z : anc b x z → anc b y z → (x.1 ≤ y.1)%Z → anc b x y.
Proof.
  intros Hx. revert y. induction Hx as [|k u c t Hb Hx IH]; intros y Hy Hle.
  - by rewrite (anc_same b y x) by (done || apply anc_index in Hy; lia).
  - inversion Hy as [|k' u' c' t' Hb' Hy']; subst; [by eapply anc_up|].
    rewrite Hb in Hb'. injection Hb' as <- <-. by apply IH.
Qed.

Lemma anc_comparable b x y z : anc b x z → anc b y z → anc b x y ∨ anc b y x.
Proof.
  intros Hx Hy. destruct (decide (x.1 ≤ y.1)%Z); [left|right]; eapply anc_linear; eauto; lia.
Qed.

Lemma anc_unique b x y z : anc b x z → anc b y z → x.1 = y.1 → x = y.
Proof. intros Hx Hy He. apply (anc_same b); [|done]. eapply anc_linear; eauto; lia. Qed.

Lemma anc_node b x y : tree b → is_node b y → anc b x y → is_node b x.
Proof.
  intros Ht Hy. induction 1 as [|k u c t Hb Ha IH]; [done|]. apply IH. by apply (Ht _ _ _ _ Hb).
Qed.

Lemma anc_term b x y : tree b → anc b x y → (x.2 ≤ y.2)%Z.
Proof.
  intros Ht. induction 1 as [|k u c t Hb Ha IH]; [done|]. pose proof (Ht _ _ _ _ Hb).
  simpl in *. lia.
Qed.

Lemma node_index b x : tree b → is_node b x → (0 ≤ x.1)%Z ∧ (0 ≤ x.2)%Z ∧ (x.1 = 0%Z → x = root)
  ∧ (x.2 = 0%Z → x = root).
Proof.
  intros Ht [->|[[c t] Hb]]; [done|]. destruct x as [k u]. apply Ht in Hb. simpl. lia.
Qed.

Lemma root_anc b x : tree b → is_node b x → anc b root x.
Proof.
  intros Ht Hx. pose proof (proj1 (node_index b x Ht Hx)) as H0.
  remember (Z.to_nat x.1) as d eqn:Hd. revert x Hx H0 Hd.
  induction d as [d IH] using lt_wf_ind. intros [k u] [->|[[c t] Hb]] H0 Hd; [done|].
  destruct (Ht _ _ _ _ Hb) as (Hk & _ & _ & Hp). simpl in *.
  eapply anc_up; [done|]. eapply (IH (Z.to_nat (k - 1))); simpl; try done; lia.
Qed.

(** Growing the tree does not add ancestors of a node. *)
Lemma anc_old b b' x y : b ⊆ b' → tree b → tree b' → is_node b y → anc b' x y → anc b x y.
Proof.
  intros Hb Ht Ht' Hy Ha. revert Hy.
  induction Ha as [|k u c t Hk Ha IH]; intros Hy; [done|].
  destruct Hy as [Hr|[[c' t'] Hk']].
  { injection Hr as -> ->. apply Ht' in Hk. lia. }
  pose proof (lookup_weaken _ _ _ _ Hk' Hb) as Hk2. rewrite Hk in Hk2. injection Hk2 as <- <-.
  eapply anc_up; [done|]. apply IH. by apply (Ht _ _ _ _ Hk').
Qed.

(** ** Paths *)

(** Where the entries [l] after the node (i, t) end. *)
Fixpoint endp (i t : Z) l : Node :=
  match l with [] => (i, t) | e :: l' => endp (i + 1) (Term e) l' end.

Lemma endp_index i t l : (endp i t l).1 = (i + zlen l)%Z.
Proof.
  revert i t. induction l as [|e l IH]; intros i t; simpl; [rewrite zlen_nil; lia|].
  rewrite IH, zlen_cons. lia.
Qed.

Lemma endp_app i t l1 l2 : endp i t (l1 ++ l2) = endp (endp i t l1).1 (endp i t l1).2 l2.
Proof. revert i t. induction l1 as [|e l1 IH]; intros i t; simpl; [done|]. apply IH. Qed.

Lemma endp_last i t l e : list.last l = Some e → endp i t l = ((i + zlen l)%Z, Term e).
Proof.
  revert i t. induction l as [|a l IH]; intros i t; simpl; [done|].
  destruct l as [|a' l].
  - intros [= ->]. rewrite zlen_cons, zlen_nil. cbn [endp]. by apply f_equal2; [lia|].
  - intros He. rewrite (IH _ _ He), !zlen_cons. by apply f_equal2; [lia|].
Qed.

Lemma chain_endp b i t l : chain b i t l → anc b (i, t) (endp i t l).
Proof.
  revert i t. induction l as [|e l IH]; intros i t; simpl; [done|].
  intros [Hb Hc]. eapply anc_trans; [|by apply IH]. eapply anc_up; [done|].
  by replace (i + 1 - 1)%Z with i by lia.
Qed.

(** The entries of a path are nodes on it. *)
Lemma chain_lookup b i t l k e :
  chain b i t l → l !! k = Some e →
  anc b ((i + Z.of_nat k + 1)%Z, Term e) (endp i t l) ∧
  ∃ t', b !! ((i + Z.of_nat k + 1)%Z, Term e) = Some (Command e, t').
Proof.
  revert i t l. induction k as [|k IH]; intros i t [|a l]; simpl; try done.
  - intros [Hb Hc] [= ->]. rewrite Z.add_0_r. split; [by apply chain_endp|eauto].
  - intros [Hb Hc] Hk. replace (i + Z.of_nat (S k) + 1)%Z with (i + 1 + Z.of_nat k + 1)%Z by lia.
    by apply IH.
Qed.

Lemma chain_node b i t l : chain b i t l → is_node b (i, t) → is_node b (endp i t l).
Proof.
  revert i t. induction l as [|e l IH]; intros i t; simpl; [done|].
  intros [Hb Hc] _. apply IH; [done|]. right. eauto.
Qed.

Lemma lchain_len b i l : lchain b i l → (1 ≤ zlen l)%Z.
Proof. destruct l as [|e l]; [done|]. rewrite zlen_cons. pose proof (zlen_nonneg l). lia. Qed.

(** *** Reconciliation of two paths from one node

    Either the new path is a part of the old one, which stays, or the result
    ends where the new path ends, and then the new path extends the old one
    or leaves it. *)
Lemma reconcile_endp b i t old new :
  chain b i t old → chain b i t new →
  (endp i t (reconcile old new) = endp i t old ∧ anc b (endp i t new) (endp i t old)) ∨
  (endp i t (reconcile old new) = endp i t new ∧
   (anc b (endp i t old) (endp i t new) ∨ ¬ anc b (endp i t new) (endp i t old))).
Proof.
  revert i t old. induction new as [|e new IH]; intros i t old Ho Hn.
  { left. split; [by destruct old|]. by apply chain_endp. }
  destruct old as [|o old].
  { right. split; [done|]. left. by apply (chain_endp b i t (e :: new)). }
  cbn [reconcile]. case_bool_decide as Ht.
  - simpl in *. destruct Ho as [_ Ho], Hn as [_ Hn]. rewrite Ht in *. by apply IH.
  - right. split; [done|]. right. intros Ha. apply Ht.
    destruct (chain_lookup b i t (e :: new) 0 e Hn eq_refl) as [He _].
    destruct (chain_lookup b i t (o :: old) 0 o Ho eq_refl) as [Hoo _].
    assert ((i + Z.of_nat 0 + 1, Term o) = (i + Z.of_nat 0 + 1, Term e))%Z as Heq.
    { eapply anc_unique; [exact Hoo| |done]. by eapply anc_trans. }
    by injection Heq.
Qed.
End tree.

(** ** Logs *)

Section tips.
Context {Cmd : Type} `{!Gob (PersistentState Cmd)}.
Implicit Types (rf : Raft Cmd) (b : Born Cmd) (x y : Node).

(** The last entry of the log, and the entry the log starts with. *)
Definition tip rf : Node :=
  match logs rf with e :: l => endp (lastIncludedIndex rf) (Term e) l | [] => root end.

Definition base rf : Node :=
  (lastIncludedIndex rf, match logs rf with e :: _ => Term e | [] => 0%Z end).

Lemma tip_eq rf :
  (1 ≤ zlen (logs rf))%Z → tip rf = (lastLogicalIndex rf, last_term rf).
Proof.
  intros Hl. unfold tip, lastLogicalIndex, last_term, term_at, getPhysicalIndex, lastLogicalIndex.
  destruct (logs rf) as [|e l]; [by rewrite zlen_nil in Hl|]. clear Hl.
  rewrite zlen_cons. replace (lastIncludedIndex rf + (1 + zlen l) - 1 - lastIncludedIndex rf)%Z
    with (Z.of_nat (length l)) by (unfold zlen; lia).
  rewrite go_nth_of_nat.
  destruct (list.last l) as [e'|] eqn:He.
  - rewrite (endp_last _ _ _ e') by done. rewrite last_lookup in He.
    destruct l as [|a l]; [done|]. simpl in *. rewrite He. simpl. by apply f_equal2; [lia|].
  - apply last_None in He. subst l. simpl. rewrite zlen_nil. by apply f_equal2; [lia|].
Qed.

Lemma tip_last rf e :
  list.last (logs rf) = Some e → tip rf = (lastLogicalIndex rf, Term e).
Proof.
  intros He. unfold tip, lastLogicalIndex. destruct (logs rf) as [|a l]; [done|].
  rewrite zlen_cons. destruct l as [|a' l].
  - simpl in *. injection He as ->. rewrite zlen_nil. by apply f_equal2; [lia|].
  - rewrite (endp_last _ _ _ e) by done. by apply f_equal2; [lia|].
Qed.

(** Tip and base only look at the log. *)
Lemma tip_ext rf rf' :
  logs rf' = logs rf → lastIncludedIndex rf' = lastIncludedIndex rf → tip rf' = tip rf.
Proof. intros H1 H2. unfold tip. by rewrite H1, H2. Qed.

Lemma base_ext rf rf' :
  logs rf' = logs rf → lastIncludedIndex rf' = lastIncludedIndex rf → base rf' = base rf.
Proof. intros H1 H2. unfold base. by rewrite H1, H2. Qed.

(** The terms the log holds are the path to its tip. *)
Lemma term_at_anc b rf j t :
  lchain b (lastIncludedIndex rf) (logs rf) → term_at rf j = Some t → anc b (j, t) (tip rf).
Proof.
  intros Hc Ht. pose proof (term_at_bounds _ _ _ Ht) as Hj.
  apply term_at_Some in Ht as (e & He & <-). unfold getPhysicalIndex, tip in *.
  destruct (logs rf) as [|e0 l]; [done|]. cbn [lchain] in Hc.
  destruct (decide (j = lastIncludedIndex rf)) as [->|Hne].
  - rewrite Z.sub_diag, go_nth_0 in He. injection He as <-. by apply chain_endp.
  - rewrite go_nth_cons in He by lia. apply go_nth_Some in He as [_ He].
    destruct (chain_lookup _ _ _ _ _ _ Hc He) as [Ha _].
    by replace (lastIncludedIndex rf + Z.of_nat (Z.to_nat (j - lastIncludedIndex rf - 1)) + 1)%Z
      with j in Ha by lia.
Qed.

Lemma anc_term_at b rf j t :
  lchain b (lastIncludedIndex rf) (logs rf) → anc b (j, t) (tip rf) →
  (lastIncludedIndex rf ≤ j)%Z → term_at rf j = Some t.
Proof.
  intros Hc Ha Hj. pose proof (lchain_len _ _ _ Hc) as Hl.
  pose proof (anc_index _ _ _ Ha) as Hi. rewrite tip_eq in Hi by done. simpl in Hi.
  destruct (go_nth_is_Some (logs rf) (getPhysicalIndex rf j)) as [e He].
  { unfold getPhysicalIndex, lastLogicalIndex in *. lia. }
  assert (term_at rf j = Some (Term e)) as Ht by (unfold term_at; by rewrite He).
  pose proof (term_at_anc b rf j _ Hc Ht) as Ha'.
  pose proof (anc_unique _ _ _ _ Ha Ha' eq_refl) as Heq. injection Heq as ->. done.
Qed.

(** An entry above the base carries the command of its node. *)
Lemma entry_born b rf j e :
  lchain b (lastIncludedIndex rf) (logs rf) → (lastIncludedIndex rf < j)%Z →
  go_nth (logs rf) (getPhysicalIndex rf j) = Some e →
  anc b (j, Term e) (tip rf) ∧ ∃ t, b !! (j, Term e) = Some (Command e, t).
Proof.
  intros Hc Hj He. split.
  { eapply term_at_anc; [done|]. unfold term_at. by rewrite He. }
  unfold getPhysicalIndex in He. destruct (logs rf) as [|e0 l]; [done|]. cbn [lchain] in Hc.
  rewrite go_nth_cons in He by lia. apply go_nth_Some in He as [_ He].
  destruct (chain_lookup _ _ _ _ _ _ Hc He) as [_ Hb].
  by replace (lastIncludedIndex rf + Z.of_nat (Z.to_nat (j - lastIncludedIndex rf - 1)) + 1)%Z
    with j in Hb by lia.
Qed.

Lemma base_anc b rf : lchain b (lastIncludedIndex rf) (logs rf) → anc b (base rf) (tip rf).
Proof.
  unfold base, tip. destruct (logs rf) as [|e l]; [done|]. simpl. apply chain_endp.
Qed.

(** *** What a request to a log at [rf] does to its tip

    [y] is the last entry of the request: it is in the log afterwards, and
    the tip stays, or is [y] itself. *)
Definition moves b y rf rf' : Prop :=
  (tip rf' = tip rf ∧ anc b y (tip rf)) ∨
  (tip rf' = y ∧ (anc b (tip rf) y ∨ ¬ anc b y (tip rf))).

Lemma moves_has b y rf rf' : moves b y rf rf' → anc b y (tip rf').
Proof. intros [[-> ?]|[-> _]]; [done|]. apply anc_refl. Qed.

(** Entries that are comparable with the request's are not lost. *)
Lemma moves_keeps b y rf rf' x :
  moves b y rf rf' → anc b x y ∨ anc b y x → anc b x (tip rf) → anc b x (tip rf').
Proof.
  intros [[-> _]|[-> [Hext|Hno]]] Hcmp Hx; [done|by eapply anc_trans|].
  destruct Hcmp as [?|Hyx]; [done|]. destruct Hno. by eapply anc_trans.
Qed.

(** The last entry of a request, and of a snapshot. *)
Definition args_tip (args : AppendEntriesArgs Cmd) : Node :=
  endp (aea_PrevLogIndex args) (aea_PrevLogTerm args) (aea_Entries args).

Definition snap_node (args : InstallSnapshotArgs) : Node :=
  (isa_LastIncludedIndex args, isa_LastIncludedTerm args).

(** A log split after the entry at [k]. *)
Lemma tip_split rf (k : nat) e es :
  logs rf !! k = Some e →
  tip (set_logs (take (S k) (logs rf) ++ es) rf) =
    endp (lastIncludedIndex rf + Z.of_nat k) (Term e) es.
Proof.
  unfold tip; simpl. destruct (logs rf) as [|a l]; [done|]. intros Hk. simpl.
  rewrite endp_app. f_equal.
  - rewrite endp_index. apply lookup_lt_Some in Hk. simpl in Hk.
    unfold zlen. rewrite length_take. lia.
  - destruct k as [|k]; simpl in *; [by injection Hk as ->|].
    rewrite (take_S_r _ _ _ Hk), endp_app. done.
Qed.
End tips.
