(* ===== verification/RaftMoves.v ===== *)
(** * What the critical sections do to the tip and the commit index

    A section is [calm] when it leaves the log, the commit index and the
    applied index alone and either keeps role and term or makes the peer a
    follower.  [AppendEntries] and [InstallSnapshot] are calm or move the tip
    as [RaftTree.moves] says.  [RaftCommit] builds the agreement invariant on
    these descriptions. *)

From S2P Require Import Prelude Persister RaftTypes RaftHandlers RaftLeader RaftNet RaftEffects RaftLocal RaftTree.

Section moves.
Context {Cmd : Type} `{!Gob (PersistentState Cmd)}.
Implicit Types (rf : Raft Cmd) (b : Born Cmd).

(** The role drops to follower, or role, term and replication state stay. *)
Definition role_ok rf rf' : Prop :=
  state rf' = Follower ∨
  (state rf' = state rf ∧ currTerm rf' = currTerm rf ∧ matchIndex rf' = matchIndex rf ∧
   nextIndex rf' = nextIndex rf).

Record calm rf rf' : Prop := {
  calm_logs : logs rf' = logs rf;
  calm_lii : lastIncludedIndex rf' = lastIncludedIndex rf;
  calm_lit : lastIncludedTerm rf' = lastIncludedTerm rf;
  calm_commit : commitIndex rf' = commitIndex rf;
  calm_applied : lastApplied rf' = lastApplied rf;
  calm_snap : snapshot (persister rf') = snapshot (persister rf);
  calm_term : (currTerm rf ≤ currTerm rf')%Z;
  calm_role : role_ok rf rf'
}.

Lemma calm_refl rf : calm rf rf.
Proof. split; try done. by right. Qed.

Ltac calm_by := split; try done; simpl in *; try lia; first [by left | by right].

Lemma RequestVote_calm now args rf rf' reply :
  RequestVote now args rf = Some (rf', reply) → calm rf rf'.
Proof.
  unfold RequestVote, RequestVote_stepdown. intros H. case_all; go_inv; b2p;
    case_all; go_inv; calm_by.
Qed.

(** A granted vote goes to a candidate whose log is at least as up to date. *)
Lemma RequestVote_grant n now args rf rf' reply :
  wf n rf → RequestVote now args rf = Some (rf', reply) → rvr_VoteGranted reply = true →
  up_to_date args rf.
Proof.
  intros Hwf H Hg. destruct (RequestVote_spec n now args rf Hwf) as (rf1 & r1 & H1 & _ & _ & Hiff & _).
  rewrite H in H1. injection H1 as <- <-. by apply Hiff.
Qed.

(** ** AppendEntries *)

Lemma accept_frame now args rf :
  snapshot (persister (AppendEntries_accept now args rf)) = snapshot (persister rf) ∧
  lastApplied (AppendEntries_accept now args rf) = lastApplied rf ∧
  lastIncludedTerm (AppendEntries_accept now args rf) = lastIncludedTerm rf ∧
  state (AppendEntries_accept now args rf) = Follower.
Proof. unfold AppendEntries_accept. by case_match. Qed.

Lemma AppendEntries_frame now args rf rf' reply :
  AppendEntries now args rf = Some (rf', reply) →
  snapshot (persister rf') = snapshot (persister rf) ∧
  lastApplied rf' = lastApplied rf ∧ lastIncludedTerm rf' = lastIncludedTerm rf ∧
  ((rf' = rf ∧ aer_Success reply = false) ∨ state rf' = Follower).
Proof.
  unfold AppendEntries. destruct (accept_frame now args rf) as (Hd & Ha & Hl & Hs).
  set (rf1 := AppendEntries_accept now args rf) in *. clearbody rf1. intros H.
  do 3 (case_match; [go_inv; split_and!; auto|]). apply bind_Some in H as (prev & _ & H).
  case_match; apply bind_Some in H as (x & _ & H); go_inv; [split_and!; auto|].
  case_match; split_and!; auto.
Qed.

(** Refused: calm.  Accepted: the tip moves to the request's last entry, and
    the commit index to the leader's. *)
Definition append_effect b (args : AppendEntriesArgs Cmd) rf rf' : Prop :=
  (currTerm rf ≤ aea_Term args)%Z ∧ currTerm rf' = aea_Term args ∧ state rf' = Follower ∧
  moves b (args_tip args) rf rf' ∧ base rf' = base rf ∧
  commitIndex rf' = follower_commit args (lastLogicalIndex rf') (commitIndex rf) ∧
  lastApplied rf' = lastApplied rf ∧ lastIncludedTerm rf' = lastIncludedTerm rf ∧
  snapshot (persister rf') = snapshot (persister rf).

Lemma reconciled_moves b args rf rf' :
  lchain b (lastIncludedIndex rf) (logs rf) →
  chain b (aea_PrevLogIndex args) (aea_PrevLogTerm args) (aea_Entries args) →
  term_at rf (aea_PrevLogIndex args) = Some (aea_PrevLogTerm args) →
  lastIncludedIndex rf' = lastIncludedIndex rf →
  (let off := Z.to_nat (aea_PrevLogIndex args + 1 - lastIncludedIndex rf) in
   logs rf' = take off (logs rf) ++ reconcile (drop off (logs rf)) (aea_Entries args)) →
  moves b (args_tip args) rf rf' ∧ base rf' = base rf.
Proof.
  intros Hc Ha Hta Hli Hlg. pose proof (term_at_bounds _ _ _ Hta) as Hb.
  apply term_at_Some in Hta as (e & [Hp He]%go_nth_Some & Ht). unfold getPhysicalIndex in *.
  set (k := Z.to_nat (aea_PrevLogIndex args - lastIncludedIndex rf)) in *.
  replace (Z.to_nat (aea_PrevLogIndex args + 1 - lastIncludedIndex rf)) with (S k) in Hlg by lia.
  simpl in Hlg. pose proof (lchain_drop _ _ _ _ Hc (lookup_lt_Some _ _ _ He)) as Hd.
  rewrite (drop_S _ _ _ He) in Hd. cbn [lchain] in Hd.
  replace (lastIncludedIndex rf + Z.of_nat k)%Z with (aea_PrevLogIndex args) in Hd by lia.
  rewrite Ht in Hd. split.
  - assert (∀ es, tip (set_logs (take (S k) (logs rf) ++ es) rf) =
      endp (aea_PrevLogIndex args) (aea_PrevLogTerm args) es) as Hsplit.
    { intros es. rewrite (tip_split _ _ _ _ He), Ht. f_equal. lia. }
    pose proof (Hsplit (drop (S k) (logs rf))) as Ho. rewrite take_drop in Ho.
    rewrite (tip_ext rf) in Ho by done.
    unfold moves. rewrite (tip_ext (set_logs (logs rf') rf) rf') by done.
    rewrite Hlg, Hsplit, Ho. apply reconcile_endp; done.
  - unfold base. rewrite Hli, Hlg. destruct (logs rf); done.
Qed.

Lemma AppendEntries_effect n b now args rf rf' reply :
  wf n rf → lchain b (lastIncludedIndex rf) (logs rf) →
  chain b (aea_PrevLogIndex args) (aea_PrevLogTerm args) (aea_Entries args) →
  AppendEntries now args rf = Some (rf', reply) →
  if aer_Success reply then append_effect b args rf rf' else calm rf rf'.
Proof.
  intros Hwf Hc Ha H. destruct (AppendEntries_frame _ _ _ _ _ H) as (Hsn & Hla & Hlt & Hrf).
  destruct (AppendEntries_spec n now args rf Hwf) as (r & r' & Hr & _ & Ht & Hli & Hiff & Hb).
  rewrite H in Hr. injection Hr as <- <-. destruct (aer_Success reply) eqn:Hs.
  - destruct Hiff as [[Hle Hta] _]; [done|]. destruct Hb as [Hlg Hci].
    destruct (reconciled_moves b args rf rf') as [Hm Hbase]; try done.
    unfold append_effect. destruct Hrf as [[_ ?]|?]; [done|].
    split_and!; try done; lia.
  - destruct Hb as [Hlg Hci]. split; try done; [lia|].
    destruct Hrf as [[-> _]|?]; [by right|by left].
Qed.

(** The conflict hint is at most the previous index, or follows the peer's
    snapshot. *)
Lemma AppendEntries_conflict n now args rf rf' reply :
  wf n rf → AppendEntries now args rf = Some (rf', reply) →
  (aer_ConflictIndex reply ≤ Z.max 0 (aea_PrevLogIndex args))%Z ∨
  ((currTerm rf ≤ aea_Term args)%Z ∧ aer_ConflictIndex reply = (lastIncludedIndex rf + 1)%Z).
Proof.
  intros Hwf. unfold AppendEntries.
  case_match; b2p; [intros [= <- <-]; left; simpl; lia|].
  destruct (accept_wf n now args rf Hwf) as (_ & Hlg & Hli & _); [done|].
  set (rf1 := AppendEntries_accept now args rf) in *. clearbody rf1.
  case_match; b2p; [intros [= <- <-]; left; simpl; lia|].
  case_match; b2p; [intros [= <- <-]; right; simpl; lia|].
  intros Hr. apply bind_Some in Hr as (prev & Hp & Hr). left.
  case_match; [|apply bind_Some in Hr as (x & _ & Hr); injection Hr as _ <-; simpl; lia].
  apply bind_Some in Hr as (ci & Hci & Hr). injection Hr as _ <-. simpl.
  destruct (conflict_scan_spec rf1 (Term prev)
    (Z.to_nat (aea_PrevLogIndex args - lastIncludedIndex rf1)) 0) as (ci' & Hci' & Hcase).
  { unfold lastLogicalIndex in *. lia. }
  rewrite Hci in Hci'. injection Hci' as <-. destruct Hcase as [[-> _]|(? & _)]; lia.
Qed.

(** ** Compaction *)

(** Replacing a prefix by its last entry keeps the tip. *)
Lemma compacted_tip index rf rf' :
  (1 ≤ zlen (logs rf))%Z → (1 ≤ zlen (logs rf'))%Z → compacted index rf rf' →
  term_at rf index = Some (lastIncludedTerm rf') →
  tip rf' = tip rf ∧ base rf' = (index, lastIncludedTerm rf').
Proof.
  intros Hl Hl' (Hi & Hll & Hat & Hrest) Ht. pose proof (term_at_bounds _ _ _ Ht) as Hb. split.
  - rewrite !tip_eq, Hll by done. f_equal. unfold last_term. rewrite Hll.
    destruct (decide (lastLogicalIndex rf = index)) as [->|Hne].
    + rewrite Ht. unfold term_at. unfold log_at in Hat. by rewrite Hat.
    + unfold term_at. unfold log_at in Hrest. by rewrite Hrest by lia.
  - unfold base, log_at, getPhysicalIndex in *. rewrite Hi, Z.sub_diag in *.
    destruct (logs rf') as [|e l]; [done|]. rewrite go_nth_0 in Hat. by injection Hat as ->.
Qed.

Definition snapshot_effect rf rf' : Prop :=
  tip rf' = tip rf ∧ base rf' = (lastIncludedIndex rf', lastIncludedTerm rf') ∧
  (lastIncludedIndex rf' ≤ lastApplied rf)%Z ∧
  commitIndex rf' = commitIndex rf ∧ lastApplied rf' = lastApplied rf ∧
  currTerm rf' = currTerm rf ∧ state rf' = state rf ∧ matchIndex rf' = matchIndex rf ∧
  nextIndex rf' = nextIndex rf.

Lemma Snapshot_effect n index data rf rf' :
  wf n rf → base rf = (lastIncludedIndex rf, lastIncludedTerm rf) →
  (index ≤ lastApplied rf)%Z → (lastApplied rf ≤ lastLogicalIndex rf)%Z →
  Snapshot index data rf = Some rf' → snapshot_effect rf rf'.
Proof.
  intros Hwf Hbase Hi Hla H. pose proof (wf_applied _ _ Hwf) as Hap.
  destruct (decide (index ≤ lastIncludedIndex rf)%Z) as [Hle|Hgt].
  { unfold Snapshot in H. rewrite (proj2 (Z.leb_le _ _)) in H by done. injection H as <-.
    by split_and!. }
  destruct (Snapshot_spec n index data rf) as (r & Hr & Hcp & Hta & _ & _ & H1 & H2 & H3 & H4 & _ & H7 & H5 & H6);
    [done|lia|]. rewrite H in Hr. injection Hr as <-.
  destruct (compacted_tip index rf rf') as [Ht Hb]; [apply Hwf|done..|].
  pose proof (proj1 Hcp) as Hli. unfold snapshot_effect. rewrite Ht, Hb, Hli. split_and!; (done || lia).
Qed.

(** ** InstallSnapshot *)

Lemma InstallSnapshot_frame now args rf rf' reply msg :
  InstallSnapshot now args rf = Some (rf', reply, msg) →
  (rf' = rf ∧ (isa_Term args < currTerm rf)%Z) ∨
  (state rf' = Follower ∧ ((isa_LastIncludedIndex args ≤ lastIncludedIndex rf)%Z →
                           lastIncludedTerm rf' = lastIncludedTerm rf ∧
                           snapshot (persister rf') = snapshot (persister rf))).
Proof.
  unfold InstallSnapshot. intros H. case_match; b2p; [go_inv; auto|right].
  set (rf1 := set_currLeader _ _) in H.
  set (rf2 := if (isa_Term args >? currTerm rf1)%Z then _ else rf1) in H.
  assert (state rf2 = Follower ∧ lastIncludedTerm rf2 = lastIncludedTerm rf ∧
          lastIncludedIndex rf2 = lastIncludedIndex rf ∧
          snapshot (persister rf2) = snapshot (persister rf)) as (Hs & Hl & Hi & Hd)
    by (clear H; unfold rf2, rf1; by case_match). clearbody rf2. clear rf1.
  case_match; b2p; [by go_inv|]. apply bind_Some in H as (nl & _ & H). go_inv.
  split; [done|]. lia.
Qed.

(** Installed: the tip moves to the snapshot's entry.  Otherwise the peer's
    own snapshot covers the request, or the request is behind. *)
Definition install_effect b (args : InstallSnapshotArgs) rf rf' : Prop :=
  state rf' = Follower ∧ moves b (snap_node args) rf rf' ∧ base rf' = snap_node args ∧
  lastIncludedTerm rf' = isa_LastIncludedTerm args ∧
  commitIndex rf' = Z.max (isa_LastIncludedIndex args) (commitIndex rf) ∧
  lastApplied rf' = Z.max (isa_LastIncludedIndex args) (lastApplied rf).

Lemma InstallSnapshot_effect n b now args rf rf' reply msg :
  wf n rf → lchain b (lastIncludedIndex rf) (logs rf) →
  InstallSnapshot now args rf = Some (rf', reply, msg) →
  ((isa_Term args < currTerm rf)%Z ∧ rf' = rf ∧ (isa_Term args < isr_Term reply)%Z) ∨
  ((currTerm rf ≤ isa_Term args)%Z ∧ currTerm rf' = isa_Term args ∧
   (if bool_decide (lastIncludedIndex rf < isa_LastIncludedIndex args)%Z
    then install_effect b args rf rf' else calm rf rf')).
Proof.
  intros Hwf Hc H. pose proof (InstallSnapshot_frame _ _ _ _ _ _ H) as Hf.
  destruct (InstallSnapshot_spec n now args rf Hwf)
    as (r & r' & m' & Hr & Hwf' & Ht & Hrt & Hb). rewrite H in Hr. injection Hr as <- <- <-.
  destruct (decide (isa_Term args < currTerm rf)%Z) as [Hlt|Hge].
  { left. destruct Hf as [[-> _]|_]; [split_and!; done || lia|].
    unfold InstallSnapshot in H. rewrite (proj2 (Z.gtb_lt _ _)) in H by done. go_inv.
    split_and!; done. }
  right. destruct Hf as [[_ ?]|[Hst Hlit]]; [lia|]. split_and!; [lia..|].
  case_bool_decide as Hi.
  - rewrite bool_decide_true by lia. destruct Hb as (Hm & Hl & _ & _ & Hci & Hla & _).
    assert (moves b (snap_node args) rf rf' ∧ base rf' = snap_node args) as [Hmv Hbase].
    { unfold snap_node. case_bool_decide as Hta.
      - rewrite <- Hl in Hta.
        destruct (compacted_tip _ _ _ (wf_logs _ _ Hwf) (wf_logs _ _ Hwf') Hm Hta) as [Htip Hb].
        rewrite Hl in *. split; [|done]. left. split; [done|]. by eapply term_at_anc.
      - destruct Hm as (Hli & Hll & Hat). unfold log_at, getPhysicalIndex in Hat.
        rewrite Hli, Hl, Z.sub_diag in Hat. pose proof (wf_logs _ _ Hwf') as Hlen.
        assert (base rf' = (isa_LastIncludedIndex args, isa_LastIncludedTerm args)) as Hb.
        { unfold base. rewrite Hli. destruct (logs rf') as [|e l]; [done|].
          rewrite go_nth_0 in Hat. by injection Hat as ->. }
        split; [|done]. right. split.
        + rewrite tip_eq, Hll by done. f_equal. unfold last_term, term_at, getPhysicalIndex.
          by rewrite Hll, Hli, Z.sub_diag, Hat.
        + right. intros Ha. apply Hta. eapply anc_term_at; [done..|lia]. }
    by split_and!.
  - rewrite bool_decide_false by lia. destruct Hb as (Hlg & Hli & Hci & Hla & _).
    split; try done; [apply Hlit; lia|apply Hlit; lia|lia|by left].
Qed.

(** ** Elections *)

Lemma vote_termCheck_calm reply rf : calm rf (vote_termCheck reply rf).
Proof. unfold vote_termCheck. case_match; b2p; [|apply calm_refl]. calm_by. Qed.

Lemma vote_reply_calm t votes reply rf : calm rf (vote_reply t votes reply rf).1.1.
Proof.
  unfold vote_reply. pose proof (vote_termCheck_calm reply rf). pose proof (calm_refl rf).
  repeat case_match; done.
Qed.

Lemma startElection_effect n now rf rf' args :
  wf n rf → startElection now rf = Some (rf', args) →
  logs rf' = logs rf ∧ lastIncludedIndex rf' = lastIncludedIndex rf ∧
  lastIncludedTerm rf' = lastIncludedTerm rf ∧ commitIndex rf' = commitIndex rf ∧
  lastApplied rf' = lastApplied rf ∧ currTerm rf' = (currTerm rf + 1)%Z ∧
  state rf' = Candidate ∧ snapshot (persister rf') = snapshot (persister rf) ∧ rva_Term args = (currTerm rf + 1)%Z ∧ rva_CandidateId args = me rf ∧
  tip rf = (rva_LastLogIndex args, rva_LastLogTerm args).
Proof.
  intros Hwf H. unfold startElection in H. apply bind_Some in H as (e & He & H).
  injection H as <- <-. simpl. split_and!; try done.
  rewrite tip_eq by apply Hwf. f_equal. unfold last_term, term_at. simpl in He.
  unfold lastLogicalIndex, getPhysicalIndex in *. simpl in *. by rewrite He.
Qed.

(** [becomeLeader] points every other peer's [nextIndex] past the log. *)
Lemma fill_next_nth (self v : Z) ps nx nx' q x :
  foldl (λ acc peer, l ← acc; if (peer =? self)%Z then Some l else go_set l peer v)
        (Some nx) ps = Some nx' →
  go_nth nx' q = Some x → x = v ∨ (go_nth nx q = Some x ∧ (q ∉ ps ∨ q = self)).
Proof.
  revert nx. induction ps as [|p ps IH]; intros nx H Hq; cbn [foldl mbind option_bind] in H.
  { injection H as <-. right. split; [done|]. left. apply not_elem_of_nil. }
  case_match; b2p.
  - destruct (IH nx H Hq) as [?|[? Hn]]; [by left|right]. split; [done|]. subst p.
    destruct (decide (q = self)); [by right|left]. set_solver.
  - destruct (go_set nx p v) as [nx1|] eqn:Hs.
    2: { exfalso. clear -H. induction ps as [|r ps IH]; [done|]. by apply IH. }
    destruct (IH nx1 H Hq) as [?|[Hx Hn]]; [by left|].
    destruct (go_set_nth _ _ _ _ _ _ Hs Hx) as [[_ ?]|?]; [by left|].
    destruct (decide (q = p)) as [->|Hne].
    + left. apply go_set_Some in Hs as [Hb ->]. apply go_nth_Some in Hx as [_ Hx].
      rewrite list_lookup_insert_eq in Hx by (unfold zlen in Hb; lia). congruence.
    + right. split; [done|]. destruct Hn; [left; set_solver|by right].
Qed.

Lemma becomeLeader_effect t rf rf' started :
  becomeLeader t rf = Some (rf', started) →
  rf' = rf ∨
  (state rf = Candidate ∧ currTerm rf = t ∧ state rf' = Leader ∧ logs rf' = logs rf ∧
   lastIncludedIndex rf' = lastIncludedIndex rf ∧ lastIncludedTerm rf' = lastIncludedTerm rf ∧
   commitIndex rf' = commitIndex rf ∧ lastApplied rf' = lastApplied rf ∧
   currTerm rf' = currTerm rf ∧ matchIndex rf' = matchIndex rf ∧
   snapshot (persister rf') = snapshot (persister rf) ∧
   ∀ q v, q ≠ me rf → (0 ≤ q < peers rf)%Z → go_nth (nextIndex rf') q = Some v →
     v = (lastLogicalIndex rf + 1)%Z).
Proof.
  unfold becomeLeader. intros H. case_match; b2p; [go_inv; auto|].
  apply bind_Some in H as (nx & Hnx & H). go_inv. right. split_and!; try done.
  intros q v Hq Hr Hv. simpl in Hv.
  destruct (fill_next_nth _ _ _ _ _ _ _ Hnx Hv) as [->|[_ [Hn|?]]]; [done| |done].
  destruct Hn. apply elem_of_seqZ. simpl. lia.
Qed.

(** ** Replication *)

(** The log and the role stay; the replication state and the commit index are
    what the section makes them. *)
Record steady rf rf' : Prop := {
  st_logs : logs rf' = logs rf;
  st_lii : lastIncludedIndex rf' = lastIncludedIndex rf;
  st_lit : lastIncludedTerm rf' = lastIncludedTerm rf;
  st_applied : lastApplied rf' = lastApplied rf;
  st_term : currTerm rf' = currTerm rf;
  st_state : state rf' = state rf;
  st_snap : snapshot (persister rf') = snapshot (persister rf);
  st_me : me rf' = me rf;
  st_peers : peers rf' = peers rf
}.

(** [matchIndex[peer]] is raised to [m]. *)
Definition raises (peer m : Z) rf rf' : Prop :=
  ∃ m0, go_nth (matchIndex rf) peer = Some m0 ∧
    matchIndex rf' = <[Z.to_nat peer := Z.max m m0]> (matchIndex rf).

Definition commit_effect rf rf' : Prop :=
  (commitIndex rf ≤ commitIndex rf')%Z ∧
  ((commitIndex rf < commitIndex rf')%Z → committable rf' (commitIndex rf')).

(** An entry of [nextIndex] stays or is at most [B]. *)
Definition next_within (B : Z) rf rf' : Prop :=
  ∀ q v, go_nth (nextIndex rf') q = Some v → go_nth (nextIndex rf) q = Some v ∨ (v ≤ B)%Z.

Lemma next_within_set B rf peer x nx :
  go_set (nextIndex rf) peer x = Some nx → (x ≤ B)%Z → next_within B rf (set_nextIndex nx rf).
Proof.
  intros H Hx q v Hv. destruct (go_set_nth _ _ _ _ _ _ H Hv) as [[_ ->]|?]; auto.
Qed.

Lemma next_within_trans B B' rf1 rf2 rf3 :
  next_within B rf1 rf2 → next_within B' rf2 rf3 → next_within (Z.max B B') rf1 rf3.
Proof.
  intros H1 H2 q v Hv. destruct (H2 q v Hv) as [H|?]; [|right; lia].
  destruct (H1 q v H); [by left|right; lia].
Qed.

Lemma clamp_next_steady peer rf rf' :
  clamp_next peer rf = Some rf' →
  steady rf rf' ∧ matchIndex rf' = matchIndex rf ∧ commitIndex rf' = commitIndex rf ∧
  next_within 1 rf rf'.
Proof.
  unfold clamp_next. intros H. apply bind_Some in H as (ni & _ & H).
  case_match; [apply bind_Some in H as (nx & Hnx & H)|]; go_inv.
  - split_and!; try done. eapply next_within_set; [done|lia].
  - split_and!; try done. intros q v. auto.
Qed.

Lemma last_with_term_bound (l : list (LogEntry Cmd)) ct k x :
  last_with_term l ct k = Some (Some x) → (x < Z.of_nat k)%Z.
Proof.
  induction k as [|k IH]; cbn [last_with_term]; [done|]. intros H.
  apply bind_Some in H as (e & _ & H). case_match; [injection H as <-; lia|].
  specialize (IH H). lia.
Qed.

Lemma backup_index_within peer reply rf nx :
  backup_index peer reply rf = Some (Some nx) → (1 ≤ zlen (logs rf))%Z →
  next_within (Z.max (aer_ConflictIndex reply) (lastLogicalIndex rf + 1)) rf (set_nextIndex nx rf).
Proof.
  unfold backup_index. intros H Hl. case_match.
  { apply bind_Some in H as (nx' & Hnx & H). go_inv. eapply next_within_set; [done|lia]. }
  case_match; [done|]. apply bind_Some in H as (f & Hf & H). apply bind_Some in H as (nx' & Hnx & H).
  go_inv. eapply next_within_set; [done|]. destruct f as [x|]; [|lia].
  apply last_with_term_bound in Hf. unfold getPhysicalIndex, getLogicalIndex, lastLogicalIndex in *. lia.
Qed.

Lemma committable_ext rf rf' N :
  steady rf rf' → matchIndex rf' = matchIndex rf → committable rf N → committable rf' N.
Proof.
  intros [Hl Hi _ _ Ht _ _ Hm Hp] Hmi [H1 H2]. split.
  - unfold term_at, getPhysicalIndex in *. by rewrite Hl, Hi, Ht.
  - unfold holders, peer_range in *. by rewrite Hm, Hp, Hmi.
Qed.

(** A [makeAppendEntry] goroutine's reply: calm, or an acknowledgement that
    raises [matchIndex] and may commit. *)
Lemma append_reply_effect n now peer args reply rf rf' snap :
  wf n rf → append_reply now peer args reply rf = Some (rf', snap) →
  calm rf rf' ∨
  (currTerm rf = aea_Term args ∧ state rf = Leader ∧ aer_Success reply = true ∧
   steady rf rf' ∧ raises peer (aea_PrevLogIndex args + zlen (aea_Entries args)) rf rf' ∧
   commit_effect rf rf' ∧
   ∃ v, go_nth (matchIndex rf') peer = Some v ∧ next_within (Z.max 1 (v + 1)) rf rf') ∨
  (currTerm rf = aea_Term args ∧ state rf = Leader ∧
   steady rf rf' ∧ matchIndex rf' = matchIndex rf ∧ commitIndex rf' = commitIndex rf ∧
   next_within (Z.max 1 (Z.max (aer_ConflictIndex reply) (lastLogicalIndex rf + 1))) rf rf').
Proof.
  intros Hwf H. unfold append_reply in H. case_match; b2p; [go_inv; left; apply calm_refl|].
  case_match; b2p; [go_inv; left; calm_by|]. case_match; b2p; [go_inv; left; apply calm_refl|].
  case_match eqn:Hsuc.
  - right. left. apply bind_Some in H as (m & Hm & H). apply bind_Some in H as (mi & Hmi & H).
    apply bind_Some in H as (nx & Hnx & H). apply bind_Some in H as (rf1 & Hc & H).
    apply bind_Some in H as (rf2 & Hn & H). injection H as <- <-.
    rewrite go_max_eq in *.
    pose proof (next_within_set _ _ _ _ _ Hnx (Z.le_refl _)) as Hw1.
    apply go_set_Some in Hmi as [Hb ->]. apply go_set_Some in Hnx as [Hb' ->]. set (rf0 := set_nextIndex _ _) in Hc.
    assert (wf n rf0) as Hwf0.
    { destruct Hwf. split; simpl; auto; by rewrite zlen_insert. }
    destruct (commitIndexUpdate_spec n rf0 Hwf0) as (N & HN & Hle & Hcm & _).
    rewrite Hc in HN. injection HN as ->. destruct (clamp_next_steady _ _ _ Hn) as (Hst & Hmi & Hci & Hw2).
    assert (steady rf0 rf2) as Hst0 by (destruct Hst; by split).
    split_and!; try done.
    + destruct Hst0. by split.
    + exists m. split; [done|]. by rewrite Hmi.
    + simpl in Hci. split; rewrite Hci; [done|]. intros Hlt.
      apply (committable_ext rf0); [done|by rewrite Hmi|]. by apply Hcm.
    + eexists. rewrite Hmi. simpl. split.
      { apply go_nth_Some. split; [lia|]. apply list_lookup_insert_eq. unfold zlen in Hb. lia. }
      intros q x Hx. destruct (next_within_trans _ _ rf _ _ Hw1 Hw2 q x Hx); [by left|right; lia].
  - apply bind_Some in H as (plan & Hplan & H).
    destruct plan as [nx|]; [right; right|left; go_inv; apply calm_refl].
    apply bind_Some in H as (rf1 & Hc & H). go_inv.
    destruct (clamp_next_steady _ _ _ Hc) as ([] & Hmi & Hci & Hw2).
    pose proof (backup_index_within _ _ _ _ Hplan (wf_logs _ _ Hwf)) as Hw1.
    split_and!; try done.
    intros q x Hx. destruct (next_within_trans _ _ rf _ _ Hw1 Hw2 q x Hx); [by left|right; lia].
Qed.

Lemma snapshot_reply_effect now peer args reply rf rf' :
  snapshot_reply now peer args reply rf = Some rf' →
  calm rf rf' ∨
  (currTerm rf = isa_Term args ∧ state rf = Leader ∧ (isr_Term reply ≤ currTerm rf)%Z ∧
   steady rf rf' ∧ raises peer (isa_LastIncludedIndex args) rf rf' ∧
   commitIndex rf' = commitIndex rf ∧
   ∃ v, go_nth (matchIndex rf') peer = Some v ∧ next_within (v + 1) rf rf').
Proof.
  unfold snapshot_reply. intros H. case_match; b2p; [go_inv; left; calm_by|].
  case_match; b2p; [go_inv; left; apply calm_refl|]. right.
  apply bind_Some in H as (m & Hm & H). apply bind_Some in H as (mi & Hmi & H).
  apply bind_Some in H as (ni & Hni & H). apply bind_Some in H as (nx & Hnx & H). go_inv.
  apply go_set_Some in Hmi as [Hb ->]. rewrite !go_max_eq in *. split_and!; try done.
  - by exists m.
  - eexists. split.
    { apply go_nth_Some. split; [lia|]. apply list_lookup_insert_eq. unfold zlen in Hb. lia. }
    intros q x Hx. destruct (go_set_nth _ _ _ _ _ _ Hnx Hx) as [[-> ->]|?]; [|by left].
    destruct (Z.max_spec (Z.max (isa_LastIncludedIndex args) m + 1) ni) as [[_ ->]|[_ ->]];
      [by left|right; lia].
Qed.

(** ** Delivery, entries, restart *)

Lemma sendApplyMsg_effect rf rf' msg :
  sendApplyMsg rf = Some (rf', msg) →
  (rf' = rf ∧ msg = None) ∨
  (∃ e, rf' = set_lastApplied (lastApplied rf + 1) rf ∧ (lastApplied rf < commitIndex rf)%Z ∧
     go_nth (logs rf) (getPhysicalIndex rf (lastApplied rf + 1)) = Some e ∧
     msg = Some (mkApplyMsg true (Command e) (lastApplied rf + 1) false [] 0 0)).
Proof.
  unfold sendApplyMsg. intros H. case_match; b2p; [|go_inv; auto].
  case_match; b2p.
  - go_inv. left. split; [|done]. destruct rf. unfold set_lastApplied. simpl. f_equal. lia.
  - apply bind_Some in H as (e & He & H). go_inv. right. by exists e.
Qed.

Lemma Start_effect c rf e :
  list.last (logs rf) = Some e → state rf = Leader →
  let rf' := (Start c rf).1 in
  tip rf' = ((lastLogicalIndex rf + 1)%Z, currTerm rf) ∧ base rf' = base rf ∧
  lastIncludedTerm rf' = lastIncludedTerm rf ∧ commitIndex rf' = commitIndex rf ∧
  lastApplied rf' = lastApplied rf ∧ currTerm rf' = currTerm rf ∧ state rf' = Leader ∧
  matchIndex rf' = matchIndex rf ∧ nextIndex rf' = nextIndex rf ∧
  snapshot (persister rf') = snapshot (persister rf).
Proof.
  intros He Hs. rewrite Start_leader by done. cbn [fst]. split_and!; try done.
  - rewrite (tip_last _ (mkLogEntry (currTerm rf) (Some c))).
    + f_equal. unfold lastLogicalIndex. simpl. rewrite zlen_app, zlen_cons, zlen_nil. lia.
    + simpl. by rewrite last_snoc.
  - unfold base. simpl. by destruct (logs rf).
Qed.

Lemma Make_effect n self rf now :
  synced rf → (0 ≤ lastIncludedIndex rf)%Z →
  let rf' := (Make n self (persister rf) now).1 in
  logs rf' = logs rf ∧ lastIncludedIndex rf' = lastIncludedIndex rf ∧
  lastIncludedTerm rf' = lastIncludedTerm rf ∧ currTerm rf' = currTerm rf ∧
  commitIndex rf' = lastIncludedIndex rf ∧ lastApplied rf' = lastIncludedIndex rf ∧
  state rf' = Follower ∧ nextIndex rf' = replicate (Z.to_nat n) 0%Z ∧
  matchIndex rf' = replicate (Z.to_nat n) 0%Z ∧ peers rf' = n ∧ persister rf' = persister rf.
Proof.
  intros Hs H0. pose proof (Make_persistent n self rf now Hs) as Hp. unfold persistent in Hp.
  set (rf' := (Make n self (persister rf) now).1) in *. injection Hp as H1 _ H2 H3 H4.
  assert (commitIndex rf' = lastIncludedIndex rf' ∧ lastApplied rf' = lastIncludedIndex rf' ∨
          (lastIncludedIndex rf' ≤ 0)%Z ∧ commitIndex rf' = 0%Z ∧ lastApplied rf' = 0%Z) as Hc.
  { unfold rf', Make, readPersist. simpl. case_all; b2p; simpl in *; auto. }
  assert (state rf' = Follower ∧ nextIndex rf' = replicate (Z.to_nat n) 0%Z ∧
          matchIndex rf' = replicate (Z.to_nat n) 0%Z ∧ peers rf' = n ∧
          persister rf' = persister rf) as (?&?&?&?&?)
    by (unfold rf', Make, readPersist; simpl; case_all; done).
  split_and!; try done; lia.
Qed.
End moves.
