(* ===== verification/RaftCommit.v ===== *)
(** * The agreement invariant: acknowledgements, choosable entries, commitment

    Two more history variables record which entries a server has acknowledged
    in which term, and with which log each candidate went into its election.
    An entry of term [t] is choosable as long as a majority may still have
    acknowledged it in [t]; it is chosen when a majority has.  The invariant
    [Agr] says that acknowledged entries that are choosable stay in the logs,
    that a vote for a later term goes to a candidate whose log has them, and
    that every commit index stands on a chosen entry.  Each lemma below
    preserves it over one kind of change of the world or of the history. *)

From S2P Require Import Prelude Persister RaftTypes RaftHandlers RaftLeader RaftNet RaftEffects RaftLocal RaftInv RaftTree RaftMoves.

(** (server, term, entry) for every acknowledgement, and the last entry of
    each candidate's log by (candidate, term). *)
Record Ghost := mkGhost {
  acks : gset (Z * Z * Node);
  ctip : gmap (Z * Z) Node
}.

Definition gext (g g' : Ghost) : Prop := acks g ⊆ acks g' ∧ ctip g ⊆ ctip g'.

Definition add_ack (p u : Z) (x : Node) (g : Ghost) : Ghost :=
  mkGhost ({[(p, u, x)]} ∪ acks g) (ctip g).

Definition add_ctip (c u : Z) (x : Node) (g : Ghost) : Ghost :=
  mkGhost (acks g) (<[(c, u) := x]> (ctip g)).

Section commit.
Context {Cmd : Type} `{!Gob (PersistentState Cmd)}.
Context (n : Z).
Implicit Types (rf : Raft Cmd) (w : World Cmd) (b : Born Cmd) (h : Hist (Cmd := Cmd)) (g : Ghost).
Implicit Types (m x y : Node).

(** ** Chosen and choosable entries *)

Definition majority (Q : gset Z) : Prop := Q ⊆ ids n ∧ (n / 2 < Z.of_nat (size Q))%Z.

(** [p] acknowledged, in the term of [m], a log that has [m]. *)
Definition acked b g (p : Z) m : Prop := ∃ x, (p, m.2, x) ∈ acks g ∧ anc b m x.

(** [p] has not left term [t]. *)
Definition behind w (p t : Z) : Prop := ∃ rf, nodes w !! p = Some rf ∧ (currTerm rf ≤ t)%Z.

Definition choosable b g w m : Prop :=
  ∃ Q, majority Q ∧ ∀ p, p ∈ Q → acked b g p m ∨ behind w p m.2.

Definition chosen b g m : Prop := ∃ Q, majority Q ∧ ∀ p, p ∈ Q → acked b g p m.

(** [x] is committed by an entry of a term up to [u]. *)
Definition committed b g (u : Z) x : Prop :=
  x = root ∨ ∃ m, chosen b g m ∧ (m.2 ≤ u)%Z ∧ anc b x m.

(** [x] is in the log of the leader of term [u] at some time of its term. *)
Definition lnode h g (u : Z) x : Prop :=
  ∃ i e y, leads h n i u ∧ ctip g !! (i, u) = Some e ∧ anc (born h) x y ∧
    (y = e ∨ (y.2 = u ∧ is_Some (born h !! y))).

(** ** The invariant *)

(** The tree: it grows from the logs the leaders were elected with, and the
    entries of one term are one path. *)
Record tree_ok h g : Prop := {
  to_tree : tree (born h);
  to_cmd x c t : born h !! x = Some (c, t) → is_Some c;
  to_lead k u : is_Some (born h !! (k, u)) →
    ∃ i e, leads h n i u ∧ ctip g !! (i, u) = Some e ∧ anc (born h) e (k, u);
  to_linear k k' u : is_Some (born h !! (k, u)) → is_Some (born h !! (k', u)) →
    (k ≤ k')%Z → anc (born h) (k, u) (k', u);
  to_ctip c u e : ctip g !! (c, u) = Some e →
    is_node (born h) e ∧ (e.2 < u)%Z ∧ (0 < u)%Z;
  to_acks p u x : (p, u, x) ∈ acks g → lnode h g u x
}.

(** One server. *)
Record peer_ok h g (i : Z) rf : Prop := {
  po_wf : wf n rf;
  po_base : base rf = (lastIncludedIndex rf, lastIncludedTerm rf);
  po_node : is_node (born h) (tip rf);
  po_term : ((tip rf).2 ≤ currTerm rf)%Z;
  po_applied : (lastApplied rf ≤ commitIndex rf)%Z;
  po_commit : ∃ t, anc (born h) (commitIndex rf, t) (tip rf) ∧
    committed (born h) g (currTerm rf) (commitIndex rf, t);
  po_cand : state rf = Candidate → ctip g !! (i, currTerm rf) = Some (tip rf);
  po_leader : state rf = Leader →
    ∃ e, ctip g !! (i, currTerm rf) = Some e ∧ anc (born h) e (tip rf) ∧
      (tip rf = e ∨ (tip rf).2 = currTerm rf);
  po_match : state rf = Leader → ∀ p v, go_nth (matchIndex rf) p = Some v →
    (v ≤ 0)%Z ∨ ∃ s, (p, currTerm rf, (v, s)) ∈ acks g;
  po_next : state rf = Leader → ∀ p v, p ≠ i → go_nth (nextIndex rf) p = Some v →
    (v ≤ lastLogicalIndex rf + 1)%Z
}.

(** Messages between the servers, and to the services. *)
Definition msg_ok b g (msg : ApplyMsg Cmd) : Prop :=
  CommandValid msg = true →
  ∃ u t t', b !! (CommandIndex msg, t) = Some (MsgCommand msg, t') ∧
    committed b g u (CommandIndex msg, t).

Definition args_ok h g (args : AppendEntriesArgs Cmd) : Prop :=
  lnode h g (aea_Term args) (args_tip args) ∧
  is_node (born h) (aea_PrevLogIndex args, aea_PrevLogTerm args) ∧
  ∃ t, anc (born h) (aea_LeaderCommit args, t) (args_tip args) ∧
    committed (born h) g (aea_Term args) (aea_LeaderCommit args, t).

Definition snap_ok h g (args : InstallSnapshotArgs) : Prop :=
  lnode h g (isa_Term args) (snap_node args) ∧ is_node (born h) (snap_node args) ∧
  committed (born h) g (isa_Term args) (snap_node args).

(** The conflict hint of a reply points into the leader's log or just past it. *)
Definition hint_ok h g (args : AppendEntriesArgs Cmd) (reply : AppendEntriesReply) : Prop :=
  ∃ x, lnode h g (aea_Term args) x ∧ (aer_ConflictIndex reply ≤ x.1 + 1)%Z.

Definition to_peer (i p : Z) : Prop := (0 ≤ p < n)%Z ∧ p ≠ i.

Definition gtask_ok h g (t : Task Cmd) : Prop :=
  match t with
  | TAppend i p | TSnapshot i p => to_peer i p
  | TAppendCall i p args => to_peer i p ∧ args_ok h g args
  | TAppendReply i p args reply =>
      to_peer i p ∧ (aer_Success reply = true → (p, aea_Term args, args_tip args) ∈ acks g) ∧
      hint_ok h g args reply
  | TSnapshotCall i p args => to_peer i p ∧ snap_ok h g args
  | TSnapshotReply i p args reply =>
      to_peer i p ∧
      ((isr_Term reply ≤ isa_Term args)%Z → (p, isa_Term args, snap_node args) ∈ acks g)
  | TSendCommand _ msg | TSendSnapshot _ msg => msg_ok (born h) g msg
  | _ => True
  end.

Record Agr w h g : Prop := {
  agr_tree : tree_ok h g;
  agr_peer i rf : nodes w !! i = Some rf → peer_ok h g i rf;
  agr_acks p u x : (p, u, x) ∈ acks g → ∃ rf, nodes w !! p = Some rf ∧ (u ≤ currTerm rf)%Z;
  agr_ctip c u e : ctip g !! (c, u) = Some e → ∃ rf, nodes w !! c = Some rf ∧ (u ≤ currTerm rf)%Z;
  agr_hold p m rf : nodes w !! p = Some rf → acked (born h) g p m →
    choosable (born h) g w m → anc (born h) m (tip rf);
  agr_granted v u c : granted h !! (v, u) = Some c →
    ∃ e, ctip g !! (c, u) = Some e ∧
      ∀ m, acked (born h) g v m → (m.2 < u)%Z → choosable (born h) g w m → anc (born h) m e;
  agr_election eid e : elections w !! eid = Some e →
    ctip g !! (el_cand e, rva_Term (el_args e)) =
      Some (rva_LastLogIndex (el_args e), rva_LastLogTerm (el_args e));
  agr_task al t : (al, t) ∈ tasks w → gtask_ok h g t;
  agr_delivered i msg : msg ∈ default [] (delivered w !! i) → msg_ok (born h) g msg
}.

(** ** Monotonicity *)

Lemma gext_refl g : gext g g.
Proof. by split. Qed.

Lemma acked_mono b b' g g' p m : b ⊆ b' → gext g g' → acked b g p m → acked b' g' p m.
Proof. intros Hb [Ha _] (x & ? & ?). exists x. split; [set_solver|by eapply anc_mono]. Qed.

Lemma chosen_mono b b' g g' m : b ⊆ b' → gext g g' → chosen b g m → chosen b' g' m.
Proof. intros Hb Hg (Q & ? & HQ). exists Q. eauto using acked_mono. Qed.

Lemma committed_mono b b' g g' u x :
  b ⊆ b' → gext g g' → committed b g u x → committed b' g' u x.
Proof.
  intros Hb Hg [->|(m & ? & ? & ?)]; [by left|right]. exists m.
  split_and!; [by eapply chosen_mono|lia|by eapply anc_mono].
Qed.

Lemma committed_le b g u u' x : (u ≤ u')%Z → committed b g u x → committed b g u' x.
Proof. intros Hu [->|(m & ? & ? & ?)]; [by left|right]. exists m. split_and!; (done || lia). Qed.

Lemma committed_anc b g u x y : tree b → is_node b y → anc b x y → committed b g u y → committed b g u x.
Proof.
  intros Ht Hn Ha [->|(m & ? & ? & ?)].
  - left. pose proof (anc_node _ _ _ Ht Hn Ha) as Hx. pose proof (anc_index _ _ _ Ha).
    pose proof (node_index b x Ht Hx). simpl in *. naive_solver lia.
  - right. exists m. split_and!; [done..|]. by eapply anc_trans.
Qed.

Lemma is_node_mono b b' x : b ⊆ b' → is_node b x → is_node b' x.
Proof. intros Hb [->|[y Hy]]; [by left|right]. eauto using lookup_weaken. Qed.

Lemma lnode_mono h h' g g' u x : extends h h' → gext g g' → lnode h g u x → lnode h' g' u x.
Proof.
  intros [Hg Hb] [_ Hc] (i & e & y & ? & ? & ? & Hy). exists i, e, y.
  split_and!; eauto using leads_mono, lookup_weaken, anc_mono.
  destruct Hy as [?|[? [z ?]]]; eauto using lookup_weaken.
Qed.

Lemma msg_ok_mono b b' g g' msg : b ⊆ b' → gext g g' → msg_ok b g msg → msg_ok b' g' msg.
Proof.
  intros Hb Hg H Hv. destruct (H Hv) as (u & t & t' & ? & ?). exists u, t, t'.
  split; [by eapply lookup_weaken|by eapply committed_mono].
Qed.

Lemma peer_ok_mono h h' g g' i rf : extends h h' → gext g g' → peer_ok h g i rf → peer_ok h' g' i rf.
Proof.
  intros [Hg Hb] He []. pose proof He as [Ha Hc].
  split; eauto using is_node_mono.
  - destruct po_commit0 as (t & ? & ?). exists t.
    split; [by eapply anc_mono|by eapply committed_mono].
  - intros Hs. by eapply lookup_weaken; [apply po_cand0|].
  - intros Hs. destruct (po_leader0 Hs) as (e & ? & ? & ?). exists e.
    split_and!; eauto using lookup_weaken, anc_mono.
  - intros Hs p v Hm. destruct (po_match0 Hs p v Hm) as [?|[s ?]]; [by left|right].
    exists s. set_solver.
Qed.

Lemma gtask_ok_mono h h' g g' t : extends h h' → gext g g' → gtask_ok h g t → gtask_ok h' g' t.
Proof.
  intros He Hg. pose proof He as [_ Hb]. pose proof Hg as [Ha _].
  destruct t; simpl; unfold args_ok, snap_ok; eauto using msg_ok_mono.
  - intros (Hp & ? & ? & s & ? & ?). split; [done|]. split_and!; [eauto using lnode_mono, is_node_mono..|].
    exists s. eauto using anc_mono, committed_mono.
  - intros (Hp & ? & x & ? & ?). split; [done|]. split; [auto|]. exists x. eauto using lnode_mono.
  - intros (Hp & ? & ? & ?). split; [done|].
    split_and!; eauto using lnode_mono, is_node_mono, committed_mono.
  - intros [? ?]. split; [done|]. intros. apply Ha. auto.
Qed.

(** ** Logs of leaders, quorums *)

Lemma lnode_anc h g u x y : anc (born h) x y → lnode h g u y → lnode h g u x.
Proof.
  intros Ha (i & e & z & ? & ? & ? & ?). exists i, e, z. split_and!; try done. by eapply anc_trans.
Qed.

Lemma lnode_props h g u x :
  tree_ok h g → lnode h g u x → is_node (born h) x ∧ (x.2 ≤ u)%Z ∧ (0 < u)%Z.
Proof.
  intros Ht (i & e & y & _ & He & Ha & Hy). destruct (to_ctip _ _ Ht _ _ _ He) as (Hn & Hlt & H0).
  pose proof (to_tree _ _ Ht) as Htr. pose proof (anc_term _ _ _ Htr Ha) as Hle.
  destruct Hy as [->|[Hyu Hb]].
  - split_and!; [by eapply anc_node|lia..].
  - split_and!; [eapply anc_node; [done|by right|done]|lia..].
Qed.

(** What a leader creates descends from the log it was elected with. *)
Lemma lead_tip h g i e k u :
  (0 ≤ n)%Z → tree_ok h g → leads h n i u → ctip g !! (i, u) = Some e →
  is_Some (born h !! (k, u)) → anc (born h) e (k, u).
Proof.
  intros Hn Ht Hl He Hb. destruct (to_lead _ _ Ht k u Hb) as (j & e' & Hj & He' & Ha).
  assert (i = j) as <- by by eapply leads_unique. by simplify_eq.
Qed.

(** The log of one leader is one path. *)
Lemma lnode_comparable h g u x y :
  (0 ≤ n)%Z → tree_ok h g → lnode h g u x → lnode h g u y →
  anc (born h) x y ∨ anc (born h) y x.
Proof.
  intros Hn Ht (i & e & x' & Hl & He & Hx & Hx') (j & e' & y' & Hj & He' & Hy & Hy').
  assert (i = j) as <- by by eapply leads_unique. simplify_eq.
  assert (anc (born h) x' y' ∨ anc (born h) y' x') as [Ha|Ha];
    [|eapply anc_comparable; [|done]; by eapply anc_trans
     |eapply anc_comparable; [done|]; by eapply anc_trans].
  destruct Hx' as [->|[Hxu Hxb]], Hy' as [->|[Hyu Hyb]].
  - left. apply anc_refl.
  - left. destruct y' as [k u']. simplify_eq/=. by eapply lead_tip.
  - right. destruct x' as [k u']. simplify_eq/=. by eapply lead_tip.
  - destruct x' as [k u1], y' as [k' u2]. simplify_eq/=.
    destruct (decide (k ≤ k')%Z); [left|right]; apply (to_linear _ _ Ht); done || lia.
Qed.

Lemma lnode_linear h g u x y :
  (0 ≤ n)%Z → tree_ok h g → lnode h g u x → lnode h g u y → (x.1 ≤ y.1)%Z → anc (born h) x y.
Proof.
  intros Hn Ht Hx Hy Hle. destruct (lnode_comparable h g u x y) as [?|Ha]; try done.
  pose proof (anc_index _ _ _ Ha). rewrite (anc_same _ _ _ Ha) by lia. apply anc_refl.
Qed.

Lemma majority_ex Q : (0 ≤ n)%Z → majority Q → ∃ p, p ∈ Q.
Proof.
  intros Hn [_ Hs]. apply set_choose_L. intros ->. rewrite size_empty in Hs.
  pose proof (Z.div_pos n 2). lia.
Qed.

Lemma chosen_choosable b g w m : chosen b g m → choosable b g w m.
Proof. intros (Q & ? & HQ). exists Q. eauto. Qed.

Lemma chosen_lnode h g m : (0 ≤ n)%Z → tree_ok h g → chosen (born h) g m → lnode h g m.2 m.
Proof.
  intros Hn Ht (Q & HQ & Hack). destruct (majority_ex Q Hn HQ) as [p Hp].
  destruct (Hack p Hp) as (x & Hx & Ha). eapply lnode_anc; [done|]. by eapply to_acks.
Qed.

Lemma committed_node h g u x :
  (0 ≤ n)%Z → tree_ok h g → committed (born h) g u x → is_node (born h) x.
Proof.
  intros Hn Ht [->|(m & Hm & _ & Ha)]; [by left|].
  eapply anc_node; [apply Ht| |done]. by apply (lnode_props h g m.2), chosen_lnode.
Qed.

(** *** Leaders have what may have been chosen before them *)
Lemma leader_has w h g i u e m :
  Inv n w h → Agr w h g → leads h n i u → ctip g !! (i, u) = Some e →
  choosable (born h) g w m → (m.2 < u)%Z → anc (born h) m e.
Proof.
  intros HI HA (Q1 & Hs1 & Hz1 & H1) He Hch Hlt. pose proof Hch as (Q2 & [Hs2 Hz2] & H2).
  destruct (quorum_meet n Q1 Q2) as (v & Hv1 & Hv2); try done; [apply HI|].
  specialize (H1 v Hv1). destruct (inv_granted _ _ _ HI _ _ _ H1) as (_ & rf & Hrf & Hle & _).
  destruct (H2 v Hv2) as [Hack|(rf' & Hrf' & Hle')]; [|simplify_eq; lia].
  destruct (agr_granted _ _ _ HA _ _ _ H1) as (e' & He' & Hall). simplify_eq. by apply Hall.
Qed.

Lemma safe_lnode w h g u m y :
  Inv n w h → Agr w h g → choosable (born h) g w m → is_node (born h) m → (m.2 ≤ u)%Z →
  lnode h g u y → lnode h g u m.
Proof.
  intros HI HA Hch Hm Hle Hy. pose proof (agr_tree _ _ _ HA) as Ht.
  destruct (lnode_props _ _ _ _ Ht Hy) as (_ & _ & H0).
  destruct Hy as (i & e & y' & Hl & He & _ & _). exists i, e.
  destruct (decide (m.2 = u)) as [Hu|Hu].
  - exists m. split_and!; try done; [apply anc_refl|]. right. split; [done|].
    destruct Hm as [->|?]; [simpl in *; lia|done].
  - exists e. split_and!; try done; [|by left]. eapply leader_has; eauto. lia.
Qed.

Lemma committed_lnode w h g u u' x y :
  Inv n w h → Agr w h g → committed (born h) g u' x → (u' ≤ u)%Z → lnode h g u y → lnode h g u x.
Proof.
  intros HI HA Hc Hle Hy. pose proof (agr_tree _ _ _ HA) as Ht. pose proof (inv_n _ _ _ HI) as Hn.
  destruct Hc as [->|(m & Hm & Hmu & Ha)].
  - eapply lnode_anc; [|done]. apply root_anc; [apply Ht|]. by apply (lnode_props _ _ _ _ Ht Hy).
  - eapply lnode_anc; [done|]. eapply safe_lnode; eauto using chosen_choosable; [|lia].
    by apply (lnode_props h g m.2), chosen_lnode.
Qed.

(** *** Committed entries are on one path *)
Lemma committed_linear w h g u u' x y :
  Inv n w h → Agr w h g → committed (born h) g u x → committed (born h) g u' y →
  (x.1 ≤ y.1)%Z → anc (born h) x y.
Proof.
  intros HI HA Hx Hy Hle. pose proof (agr_tree _ _ _ HA) as Ht. pose proof (inv_n _ _ _ HI) as Hn.
  pose proof (committed_node _ _ _ _ Hn Ht Hx) as Hxn.
  pose proof (committed_node _ _ _ _ Hn Ht Hy) as Hyn. pose proof (to_tree _ _ Ht) as Htr.
  destruct (node_index _ _ Htr Hxn) as (Hx0 & _ & Hxr & _).
  destruct Hx as [->|(m & Hm & _ & Ha)]; [by apply root_anc|].
  destruct Hy as [->|(m' & Hm' & _ & Ha')].
  { assert (x = root) as -> by (apply Hxr; simpl in *; lia). apply anc_refl. }
  pose proof (chosen_lnode _ _ _ Hn Ht Hm) as Hl. pose proof (chosen_lnode _ _ _ Hn Ht Hm') as Hl'.
  destruct (decide (m.2 ≤ m'.2)%Z).
  - apply (lnode_linear h g m'.2); try done; [|by eapply lnode_anc].
    eapply lnode_anc; [done|]. eapply safe_lnode; eauto using chosen_choosable.
    by apply (lnode_props _ _ _ _ Ht Hl).
  - apply (lnode_linear h g m.2); try done; [by eapply lnode_anc|].
    eapply lnode_anc; [done|]. eapply safe_lnode; eauto using chosen_choosable; [|lia].
    by apply (lnode_props _ _ _ _ Ht Hl').
Qed.
End commit.
