(* ===== verification/RaftPreserve.v ===== *)
(** * Preservation of the agreement invariant

    One lemma per kind of change: a section of one server, with the vote or
    the candidacy it records; an acknowledgement; a new entry; goroutines and
    messages.  [RaftAgreement] combines them over the actions. *)

From S2P Require Import Prelude Persister RaftTypes RaftHandlers RaftLeader RaftNet RaftEffects RaftLocal RaftInv RaftTree RaftMoves RaftCommit.

Section preserve.
Context {Cmd : Type} `{!Gob (PersistentState Cmd)}.
Context (n : Z).
Implicit Types (rf : Raft Cmd) (w : World Cmd) (b : Born Cmd) (h : Hist (Cmd := Cmd)) (g : Ghost).
Implicit Types (m x y : Node).

(** ** A section of one server *)

(** Terms grow, so an entry can only stop being choosable. *)
Lemma choosable_node b g w i rf rf' m :
  nodes w !! i = Some rf → (currTerm rf ≤ currTerm rf')%Z →
  choosable n b g (set_node i rf' w) m → choosable n b g w m.
Proof.
  intros Hi Ht (Q & HQ & H). exists Q. split; [done|]. intros p Hp.
  destruct (H p Hp) as [?|(rfp & Hrf & Hle)]; [by left|right]. simpl in Hrf.
  rewrite lookup_insert in Hrf. case_decide; simplify_eq; [exists rf|exists rfp]; (split; [done|lia]).
Qed.

Lemma acked_acks b g g' p m : acks g' = acks g → acked b g' p m → acked b g p m.
Proof. intros Ha. unfold acked. by rewrite Ha. Qed.

Lemma choosable_acks b g g' w m : acks g' = acks g → choosable n b g' w m → choosable n b g w m.
Proof. intros Ha. unfold choosable, acked. by rewrite Ha. Qed.

(** New votes and candidacies are justified in the world before. *)
Definition ctip_grows h g g' (i t : Z) : Prop :=
  ∀ c u e, ctip g' !! (c, u) = Some e →
    ctip g !! (c, u) = Some e ∨
    (c = i ∧ (0 < u ≤ t)%Z ∧ (e.2 < u)%Z ∧ is_node (born h) e).

Definition votes_grow w h h' g g' : Prop :=
  ∀ v u c, granted h' !! (v, u) = Some c →
    granted h !! (v, u) = Some c ∨
    ∃ e, ctip g' !! (c, u) = Some e ∧
      ∀ m, acked (born h) g v m → (m.2 < u)%Z → choosable n (born h) g w m → anc (born h) m e.

Lemma tree_ok_grows h h' g g' i t :
  extends h h' → born h' = born h → gext g g' → acks g' = acks g → ctip_grows h g g' i t →
  tree_ok n h g → tree_ok n h' g'.
Proof.
  intros He Hb Hg Ha Hc [Ht Hcmd Hl Hlin Hct Hack]. pose proof He as [Hgr _]. pose proof Hg as [_ Hcs].
  split; rewrite ?Hb; try done.
  - intros k u Hk. destruct (Hl k u Hk) as (j & e & ? & ? & ?). exists j, e.
    split_and!; eauto using leads_mono, lookup_weaken.
  - intros c u e Hce. destruct (Hc c u e Hce) as [?|(_ & ? & ? & ?)]; [by eapply Hct|].
    split_and!; (done || lia).
  - intros p u x. rewrite Ha. intros Hx. eapply lnode_mono; eauto.
Qed.

Lemma agr_advance w h h' g g' i rf rf' :
  Agr n w h g → nodes w !! i = Some rf → (currTerm rf ≤ currTerm rf')%Z →
  extends h h' → born h' = born h → gext g g' → acks g' = acks g →
  ctip_grows h g g' i (currTerm rf') → votes_grow w h h' g g' →
  peer_ok n h' g' i rf' →
  (∀ m, acked (born h) g i m → choosable n (born h) g w m →
        anc (born h) m (tip rf) → anc (born h) m (tip rf')) →
  Agr n (set_node i rf' w) h' g'.
Proof.
  intros HA Hi Ht He Hb Hg Ha Hc Hv Hpo Hhold. pose proof Hg as [Has Hcs].
  assert (∀ p u, (∃ rf, nodes w !! p = Some rf ∧ (u ≤ currTerm rf)%Z) →
    ∃ rf, <[i:=rf']> (nodes w) !! p = Some rf ∧ (u ≤ currTerm rf)%Z) as Hterm.
  { intros p u (rfp & Hp & Hle). rewrite lookup_insert. case_decide; simplify_eq; [|eauto].
    exists rf'. split; [done|lia]. }
  assert (∀ m, choosable n (born h) g' (set_node i rf' w) m → choosable n (born h) g w m) as Hch.
  { intros m Hm. eapply choosable_node; [done..|]. by eapply choosable_acks. }
  destruct HA as [Htr Hp Hak Hct Hho Hgr Hel Hta Hde]. split; rewrite ?Hb; simpl.
  - by eapply tree_ok_grows.
  - intros j rfj Hj. rewrite lookup_insert in Hj. case_decide; simplify_eq; [done|].
    eapply peer_ok_mono; eauto.
  - intros p u x. rewrite Ha. eauto.
  - intros c u e Hce. destruct (Hc c u e Hce) as [?|(-> & ? & _)]; [eauto|].
    exists rf'. rewrite lookup_insert_eq. split; [done|lia].
  - intros p m rfp Hp' Hack Hm. apply (acked_acks _ g) in Hack; [|done]. apply Hch in Hm.
    rewrite lookup_insert in Hp'. case_decide; simplify_eq; [apply Hhold|]; eauto.
  - intros v u c Hvu. destruct (Hv v u c Hvu) as [Hold|(e & He' & Hall)].
    + destruct (Hgr v u c Hold) as (e & He' & Hall). exists e.
      split; [by eapply lookup_weaken|]. intros m Hm Hlt Hmc. apply Hall; eauto using acked_acks.
    + exists e. split; [done|]. intros m Hm Hlt Hmc. apply Hall; eauto using acked_acks.
  - intros eid e He'. eapply lookup_weaken; [|done]. by eapply Hel.
  - intros al t Hin. eapply gtask_ok_mono; eauto.
  - intros j msg Hin. eapply msg_ok_mono; [reflexivity|done|by eapply Hde].
Qed.

(** No vote and no candidacy. *)
Lemma agr_node w h g i rf rf' :
  Agr n w h g → nodes w !! i = Some rf → (currTerm rf ≤ currTerm rf')%Z →
  peer_ok n h g i rf' →
  (∀ m, acked (born h) g i m → choosable n (born h) g w m →
        anc (born h) m (tip rf) → anc (born h) m (tip rf')) →
  Agr n (set_node i rf' w) h g.
Proof.
  intros HA Hi Ht Hpo Hhold. eapply agr_advance; try done.
  - intros c u e. auto.
  - intros v u c. auto.
Qed.

Lemma calm_tip rf rf' : calm rf rf' → tip rf' = tip rf ∧ base rf' = base rf.
Proof. intros []. split; [by apply tip_ext|by apply base_ext]. Qed.

Lemma peer_ok_calm h g i rf rf' :
  peer_ok n h g i rf → wf n rf' → calm rf rf' → peer_ok n h g i rf'.
Proof.
  intros [Hwf Hb Hn Ht Hap Hco Hca Hle Hma Hnx] Hwf' Hc. destruct (calm_tip _ _ Hc) as [Htip Hbase].
  destruct Hc as [Hlg Hlii Hlit Hci Hla _ Htm Hr].
  assert (lastLogicalIndex rf' = lastLogicalIndex rf) as Hll
    by (unfold lastLogicalIndex; by rewrite Hlg, Hlii).
  split; rewrite ?Htip, ?Hbase, ?Hlii, ?Hlit, ?Hci, ?Hla; try done.
  - lia.
  - destruct Hco as (t & ? & ?). exists t. split; [done|]. by eapply committed_le.
  - intros Hs. destruct Hr as [Hr|(Hs' & -> & _)]; [by rewrite Hr in Hs|]. apply Hca. congruence.
  - intros Hs. destruct Hr as [Hr|(Hs' & -> & _)]; [by rewrite Hr in Hs|]. apply Hle. congruence.
  - intros Hs. destruct Hr as [Hr|(Hs' & -> & -> & _)]; [by rewrite Hr in Hs|]. apply Hma. congruence.
  - intros Hs. destruct Hr as [Hr|(Hs' & _ & _ & ->)]; [by rewrite Hr in Hs|]. rewrite Hll.
    apply Hnx. congruence.
Qed.

Lemma agr_calm w h g i rf rf' :
  Agr n w h g → nodes w !! i = Some rf → wf n rf' → calm rf rf' → Agr n (set_node i rf' w) h g.
Proof.
  intros HA Hi Hwf Hc. pose proof (proj1 (calm_tip _ _ Hc)) as Htip. eapply agr_node; try done.
  - apply Hc.
  - eapply peer_ok_calm; [by eapply agr_peer|done..].
  - by rewrite Htip.
Qed.

(** History variables other than votes and entries do not matter. *)
Lemma agr_hist w h h' g :
  granted h' = granted h → born h' = born h → Agr n w h g → Agr n w h' g.
Proof.
  intros Hg Hb HA. assert (extends h h') as He by (by split; rewrite ?Hg, ?Hb).
  pose proof (gext_refl g) as Hgg.
  destruct HA as [Htr Hp Hak Hct Hho Hgr Hel Hta Hde]. split; rewrite ?Hb, ?Hg; try done.
  - eapply (tree_ok_grows h h' g g 0 0); try done. intros c u e. auto.
  - intros. eapply peer_ok_mono; eauto.
  - intros. eapply gtask_ok_mono; eauto.
Qed.

(** ** Goroutines and messages *)

Lemma agr_frame w w' h g :
  nodes w' = nodes w →
  (∀ eid e, elections w' !! eid = Some e →
     ctip g !! (el_cand e, rva_Term (el_args e)) =
       Some (rva_LastLogIndex (el_args e), rva_LastLogTerm (el_args e))) →
  (∀ al t, (al, t) ∈ tasks w' → gtask_ok n h g t) →
  (∀ i msg, msg ∈ default [] (delivered w' !! i) → msg_ok n (born h) g msg) →
  Agr n w h g → Agr n w' h g.
Proof.
  intros Hn He Ht Hd [Htr Hp Hak Hct Hho Hgr Hel _ _].
  assert (∀ m, choosable n (born h) g w' m → choosable n (born h) g w m) as Hch.
  { intros m. unfold choosable, behind. by rewrite Hn. }
  split; rewrite ?Hn; try done; eauto.
  - intros v u c Hv. destruct (Hgr v u c Hv) as (e & ? & ?). eauto.
Qed.

Lemma agr_set_tasks w h g ts :
  (∀ al t, (al, t) ∈ ts → gtask_ok n h g t) → Agr n w h g → Agr n (set_tasks ts w) h g.
Proof.
  intros Ht HA. apply (agr_frame w); try done; [apply (agr_election _ _ _ _ HA)|apply (agr_delivered _ _ _ _ HA)].
Qed.

Lemma agr_spawn w h g ts :
  (∀ t, t ∈ ts → gtask_ok n h g t) → Agr n w h g → Agr n (spawn ts w) h g.
Proof.
  intros Hts HA. apply agr_set_tasks; [|done]. intros al t.
  rewrite elem_of_app, list_elem_of_fmap. intros [H|(t' & ? & ?)]; [by eapply agr_task|].
  simplify_eq. by apply Hts.
Qed.

Lemma agr_finish w h g k : Agr n w h g → Agr n (finish k w) h g.
Proof.
  intros HA. apply agr_set_tasks; [|done]. intros al t Ht.
  eapply agr_task; [done|]. eapply list_elem_of_delete_inv, Ht.
Qed.

Lemma agr_become w h g k t : gtask_ok n h g t → Agr n w h g → Agr n (become k t w) h g.
Proof.
  intros Ht HA. apply agr_set_tasks; [|done]. intros al t' Hin.
  apply list_elem_of_lookup in Hin as (j & Hj). rewrite list_lookup_alter in Hj.
  case_decide; [subst j|eapply agr_task, list_elem_of_lookup_2, Hj; done].
  destruct (tasks w !! k); simplify_eq/=. done.
Qed.

Lemma agr_set_vcalls w h g vc : Agr n w h g → Agr n (set_vcalls vc w) h g.
Proof.
  intros HA. apply (agr_frame w); try done; [apply (agr_election _ _ _ _ HA)|apply (agr_task _ _ _ _ HA)|apply (agr_delivered _ _ _ _ HA)].
Qed.

Lemma agr_deliver w h g i msg :
  msg_ok n (born h) g msg → Agr n w h g →
  Agr n (set_delivered (<[i := default [] (delivered w !! i) ++ [msg]]> (delivered w)) w) h g.
Proof.
  intros Hm HA. apply (agr_frame w); try done; [apply (agr_election _ _ _ _ HA)|apply (agr_task _ _ _ _ HA)|].
  intros j msg'. simpl. rewrite lookup_insert. case_decide as Hj; [|by apply (agr_delivered _ _ _ _ HA)].
  simpl. subst j. rewrite elem_of_app, list_elem_of_singleton.
  intros [?| ->]; [by eapply (agr_delivered _ _ _ _ HA)|done].
Qed.

(** ** Acknowledgements *)

Lemma acked_add b g p u x q m :
  acked b (add_ack p u x g) q m → acked b g q m ∨ (q = p ∧ m.2 = u ∧ anc b m x).
Proof.
  intros (y & Hy & Ha). simpl in Hy. apply elem_of_union in Hy as [Hy|Hy].
  - apply elem_of_singleton in Hy. simplify_eq. by right.
  - left. by exists y.
Qed.

(** A server counts towards every entry of its own term already. *)
Lemma choosable_add b g w p rf x m :
  nodes w !! p = Some rf → choosable n b (add_ack p (currTerm rf) x g) w m → choosable n b g w m.
Proof.
  intros Hp (Q & HQ & H). exists Q. split; [done|]. intros q Hq.
  destruct (H q Hq) as [Hack|?]; [|by right].
  destruct (acked_add _ _ _ _ _ _ _ Hack) as [?|(-> & Hm & _)]; [by left|right].
  exists rf. split; [done|lia].
Qed.

Lemma add_ack_gext p u x g : gext g (add_ack p u x g).
Proof. split; simpl; [set_solver|done]. Qed.

Lemma agr_ack w h g p rf x :
  Inv n w h → Agr n w h g → nodes w !! p = Some rf →
  lnode n h g (currTerm rf) x → anc (born h) x (tip rf) →
  Agr n w h (add_ack p (currTerm rf) x g).
Proof.
  intros HI HA Hp Hx Hax. pose proof (add_ack_gext p (currTerm rf) x g) as Hg.
  assert (extends h h) as He by done.
  pose proof (λ m, choosable_add (born h) g w p rf x m Hp) as Hch.
  destruct HA as [Htr Hpo Hak Hct Hho Hgr Hel Hta Hde]. split; try done.
  - destruct Htr as [Ht Hcmd Hl Hlin Hc Hack]. split; try done.
    intros q u y Hy. simpl in Hy. apply elem_of_union in Hy as [Hy%elem_of_singleton|Hy].
    + simplify_eq. by eapply lnode_mono.
    + eapply lnode_mono; eauto.
  - intros. eapply peer_ok_mono; eauto.
  - intros q u y Hy. simpl in Hy. apply elem_of_union in Hy as [Hy%elem_of_singleton|Hy]; [|eauto].
    simplify_eq. by exists rf.
  - intros q m rfq Hq Hack Hm. destruct (acked_add _ _ _ _ _ _ _ Hack) as [?|(-> & _ & Ha)]; [eauto|].
    simplify_eq. by eapply anc_trans.
  - intros v u c Hv. destruct (Hgr v u c Hv) as (e & He' & Hall). exists e. split; [done|].
    intros m Hack Hlt Hm. destruct (acked_add _ _ _ _ _ _ _ Hack) as [?|(-> & Hmu & _)]; [eauto|].
    destruct (inv_granted _ _ _ HI _ _ _ Hv) as (_ & rf' & Hrf' & Hle & _). simplify_eq. lia.
  - intros. eapply gtask_ok_mono; eauto.
  - intros. eapply msg_ok_mono; eauto.
Qed.

(** ** A request arrives at a server

    [y] is the last entry of the request, in the log of the leader of its
    term [u]. *)

Lemma request_hold w h g p rf rf' u y :
  Inv n w h → Agr n w h g → nodes w !! p = Some rf → (currTerm rf ≤ u)%Z →
  lnode n h g u y → moves (born h) y rf rf' →
  ∀ m, acked (born h) g p m → choosable n (born h) g w m →
       anc (born h) m (tip rf) → anc (born h) m (tip rf').
Proof.
  intros HI HA Hp Hu Hy Hmv m (x & Hx & Hmx) Hch Hmt. pose proof (agr_tree _ _ _ _ HA) as Ht.
  eapply moves_keeps; [done| |done].
  destruct (agr_acks _ _ _ _ HA _ _ _ Hx) as (rfp & Hrfp & Hle). simplify_eq.
  apply (lnode_comparable n h g u); try done; [apply HI|].
  eapply safe_lnode; eauto; [|lia].
  eapply anc_node; [apply Ht| |done]. exact (po_node _ _ _ _ _ (agr_peer _ _ _ _ HA p rf Hp)).
Qed.

Lemma request_commit w h g p rf rf' u y :
  Inv n w h → Agr n w h g → nodes w !! p = Some rf → (currTerm rf ≤ u)%Z →
  lnode n h g u y → moves (born h) y rf rf' →
  ∃ t, anc (born h) (commitIndex rf, t) (tip rf') ∧ committed n (born h) g u (commitIndex rf, t).
Proof.
  intros HI HA Hp Hu Hy Hmv. pose proof (agr_tree _ _ _ _ HA) as Ht.
  destruct (po_commit _ _ _ _ _ (agr_peer _ _ _ _ HA p rf Hp)) as (t & Ha & Hc). exists t.
  split; [|by eapply committed_le]. eapply moves_keeps; [done| |done].
  apply (lnode_comparable n h g u); try done; [apply HI|]. by eapply committed_lnode.
Qed.

Lemma moves_tip h g u y rf rf' :
  tree_ok n h g → lnode n h g u y → is_node (born h) (tip rf) → ((tip rf).2 ≤ u)%Z →
  moves (born h) y rf rf' → is_node (born h) (tip rf') ∧ ((tip rf').2 ≤ u)%Z.
Proof.
  intros Ht Hy Hn Hu [[-> _]|[-> _]]; [done|].
  by destruct (lnode_props _ _ _ _ _ Ht Hy) as (? & ? & _).
Qed.

Lemma append_peer w h g p rf rf' args :
  Inv n w h → Agr n w h g → nodes w !! p = Some rf → args_ok n h g args → wf n rf' →
  append_effect (born h) args rf rf' → peer_ok n h g p rf'.
Proof.
  intros HI HA Hp (Hl & _ & t & Ha & Hc) Hwf (Hle & Ht & Hs & Hmv & Hb & Hci & Hla & Hlt & _).
  pose proof (agr_peer _ _ _ _ HA p rf Hp) as Hpo. pose proof (agr_tree _ _ _ _ HA) as Htr.
  destruct (request_commit w h g p rf rf' _ _ HI HA Hp Hle Hl Hmv) as (t' & Ha' & Hc').
  destruct Hpo as [Hwf0 Hba Hn Htt Hap _ _ _ _ _].
  destruct (moves_tip _ _ _ _ _ _ Htr Hl Hn ltac:(lia) Hmv) as [Hn' Ht'].
  pose proof (anc_trans _ _ _ _ Ha (moves_has _ _ _ _ Hmv)) as Hac.
  pose proof (anc_index _ _ _ Hac) as Hi. rewrite tip_eq in Hi by apply Hwf. simpl in Hi.
  assert (lastIncludedIndex rf' = lastIncludedIndex rf) as Hlii by (by injection Hb).
  unfold follower_commit in Hci.
  split; rewrite ?Hb, ?Ht, ?Hla, ?Hlt, ?Hlii; try done; try (by rewrite Hs).
  - rewrite Hci. case_bool_decide; lia.
  - rewrite Hci. case_bool_decide; [|by exists t'].
    rewrite Z.min_l by lia. by exists t.
Qed.

Lemma install_peer w h g p rf rf' args :
  Inv n w h → Agr n w h g → nodes w !! p = Some rf → snap_ok n h g args → wf n rf' →
  (currTerm rf ≤ isa_Term args)%Z → currTerm rf' = isa_Term args →
  install_effect (born h) args rf rf' → peer_ok n h g p rf'.
Proof.
  intros HI HA Hp (Hl & _ & Hc) Hwf Hle Ht (Hs & Hmv & Hb & Hlt & Hci & Hla).
  pose proof (agr_peer _ _ _ _ HA p rf Hp) as Hpo. pose proof (agr_tree _ _ _ _ HA) as Htr.
  destruct (request_commit w h g p rf rf' _ _ HI HA Hp Hle Hl Hmv) as (t' & Ha' & Hc').
  destruct Hpo as [Hwf0 Hba Hn Htt Hap _ _ _ _ _].
  destruct (moves_tip _ _ _ _ _ _ Htr Hl Hn ltac:(lia) Hmv) as [Hn' Ht'].
  assert (lastIncludedIndex rf' = isa_LastIncludedIndex args) as Hlii by (by injection Hb).
  split; rewrite ?Hb, ?Ht, ?Hla, ?Hlt, ?Hlii; try done; try (by rewrite Hs).
  - lia.
  - rewrite Hci. destruct (Z.max_spec (isa_LastIncludedIndex args) (commitIndex rf)) as [[_ ->]|[_ ->]].
    + by exists t'.
    + exists (isa_LastIncludedTerm args). split; [by eapply moves_has|done].
Qed.

(** A server whose snapshot covers the request's has its entry. *)
Lemma covered_tip w h g p rf args :
  Inv n w h → Agr n w h g → nodes w !! p = Some rf → snap_ok n h g args →
  (isa_LastIncludedIndex args ≤ lastIncludedIndex rf)%Z → anc (born h) (snap_node args) (tip rf).
Proof.
  intros HI HA Hp (_ & _ & Hc) Hle. pose proof (agr_peer _ _ _ _ HA p rf Hp) as Hpo.
  destruct (po_commit _ _ _ _ _ Hpo) as (t & Ha & Hcc). eapply anc_trans; [|done].
  eapply committed_linear; eauto. simpl. pose proof (wf_commit _ _ (po_wf _ _ _ _ _ Hpo)). lia.
Qed.

(** ** Leaders *)

Lemma leader_lnode w h g i rf :
  Inv n w h → Agr n w h g → nodes w !! i = Some rf → state rf = Leader →
  lnode n h g (currTerm rf) (tip rf).
Proof.
  intros HI HA Hi Hs. pose proof (agr_peer _ _ _ _ HA i rf Hi) as Hpo.
  destruct (po_leader _ _ _ _ _ Hpo Hs) as (e & He & Ha & Htip).
  destruct (to_ctip _ _ _ (agr_tree _ _ _ _ HA) _ _ _ He) as (_ & _ & H0).
  exists i, e, (tip rf). split_and!; try done; [by apply (inv_leader _ _ _ HI)|apply anc_refl|].
  destruct Htip as [?|Ht]; [by left|right]. split; [done|].
  destruct (po_node _ _ _ _ _ Hpo) as [Hr|?]; [|done]. rewrite Hr in Ht. simpl in Ht. lia.
Qed.

(** Nothing of a leader's term is beyond its log. *)
Lemma leader_tops w h g i rf x :
  Inv n w h → Agr n w h g → nodes w !! i = Some rf → state rf = Leader →
  lnode n h g (currTerm rf) x → anc (born h) x (tip rf).
Proof.
  intros HI HA Hi Hs Hx. pose proof (agr_peer _ _ _ _ HA i rf Hi) as Hpo.
  pose proof (agr_tree _ _ _ _ HA) as Ht. pose proof (inv_n _ _ _ HI) as Hn.
  destruct (inv_leader _ _ _ HI i rf Hi Hs) as [Hlead Hbound].
  destruct (po_leader _ _ _ _ _ Hpo Hs) as (e & He & Hae & _).
  pose proof (leader_lnode w h g i rf HI HA Hi Hs) as Htip.
  destruct Hx as (j & e' & y & Hj & He' & Hxy & Hy). eapply anc_trans; [done|].
  assert (i = j) as <- by by eapply leads_unique. rewrite He in He'. injection He' as <-.
  destruct Hy as [->|[Hyu Hyb]]; [done|]. destruct y as [k u]. simplify_eq/=.
  apply (lnode_linear n h g (currTerm rf)); try done.
  - exists i, e, (k, currTerm rf). split_and!; try done; [apply anc_refl|by right].
  - destruct Hyb as [z Hz]. rewrite tip_eq by apply Hpo. simpl. by eapply Hbound.
Qed.

Lemma makeAppendEntry_tip peer rf args :
  makeAppendEntry peer rf = Some (PlanAppend args) →
  args_tip args = tip rf ∧ aea_Term args = currTerm rf ∧ aea_LeaderCommit args = commitIndex rf ∧
  term_at rf (aea_PrevLogIndex args) = Some (aea_PrevLogTerm args).
Proof.
  unfold makeAppendEntry. intros H. apply bind_Some in H as (ni & _ & H). case_match; b2p; [done|].
  apply bind_Some in H as (es & Hes & H). apply bind_Some in H as (prev & Hprev & H).
  injection H as <-. unfold getPhysicalIndex in *. cbn. apply go_from_Some in Hes as [Hb ->].
  unfold args_tip, term_at, getPhysicalIndex. cbn.
  replace (ni - 1 - lastIncludedIndex rf)%Z with (ni - lastIncludedIndex rf - 1)%Z by lia.
  rewrite Hprev. split_and!; try done. apply go_nth_Some in Hprev as [Hp Hprev].
  pose proof (tip_split rf _ _ (drop (S (Z.to_nat (ni - lastIncludedIndex rf - 1))) (logs rf)) Hprev)
    as Hsp. rewrite take_drop in Hsp. rewrite (tip_ext rf) in Hsp by done. rewrite Hsp.
  f_equal; [lia|]. f_equal. lia.
Qed.

Lemma leader_args w h g i rf peer args :
  Inv n w h → Agr n w h g → nodes w !! i = Some rf → state rf = Leader →
  makeAppendEntry peer rf = Some (PlanAppend args) → args_ok n h g args.
Proof.
  intros HI HA Hi Hs H. destruct (makeAppendEntry_tip _ _ _ H) as (Htip & Ht & Hc & Hta).
  pose proof (agr_peer _ _ _ _ HA i rf Hi) as Hpo.
  unfold args_ok. rewrite Htip, Ht, Hc. split_and!.
  - by eapply leader_lnode.
  - eapply anc_node; [apply (agr_tree _ _ _ _ HA)|apply Hpo|].
    eapply term_at_anc; [|done]. apply (inv_node _ _ _ HI i rf Hi).
  - apply Hpo.
Qed.

Lemma leader_snap w h g i rf :
  Inv n w h → Agr n w h g → nodes w !! i = Some rf → state rf = Leader →
  snap_ok n h g (sendInstallSnapshotToPeers rf).
Proof.
  intros HI HA Hi Hs. pose proof (agr_peer _ _ _ _ HA i rf Hi) as Hpo.
  pose proof (agr_tree _ _ _ _ HA) as Ht. pose proof (to_tree _ _ _ Ht) as Htr.
  assert (snap_node (sendInstallSnapshotToPeers rf) = base rf) as Hb
    by (by rewrite (po_base _ _ _ _ _ Hpo)).
  pose proof (base_anc _ _ (nok_chain _ _ _ _ (inv_node _ _ _ HI i rf Hi))) as Ha.
  destruct (po_commit _ _ _ _ _ Hpo) as (t & Hat & Hc).
  unfold snap_ok. rewrite Hb. split_and!.
  - eapply lnode_anc; [done|]. by eapply leader_lnode.
  - eapply anc_node; [done|apply Hpo|done].
  - eapply (committed_anc n _ _ _ _ (commitIndex rf, t)); [done| | |done].
    + eapply anc_node; [done|apply Hpo|done].
    + eapply anc_linear; [done..|]. simpl. apply (wf_commit _ _ (po_wf _ _ _ _ _ Hpo)).
Qed.

(** The commit rule chooses: the leader and the holders of the index have
    acknowledged the leader's entry there. *)
Lemma committable_chosen w h g i rf rf' N :
  Inv n w h → Agr n w h g → nodes w !! i = Some rf → state rf = Leader →
  (i, currTerm rf, tip rf) ∈ acks g → steady rf rf' → wf n rf' →
  (∀ p v, go_nth (matchIndex rf') p = Some v →
     (v ≤ 0)%Z ∨ ∃ s, (p, currTerm rf, (v, s)) ∈ acks g) →
  (0 < N)%Z → committable rf' N →
  chosen n (born h) g (N, currTerm rf) ∧ anc (born h) (N, currTerm rf) (tip rf).
Proof.
  intros HI HA Hi Hs Hself Hst Hwf Hma HN [Hta Hcnt].
  pose proof (agr_tree _ _ _ _ HA) as Ht. pose proof (inv_n _ _ _ HI) as Hn.
  pose proof (inv_node _ _ _ HI i rf Hi) as [Hme Hpe _ Hch _].
  assert (anc (born h) (N, currTerm rf) (tip rf)) as Ha.
  { eapply term_at_anc; [done|]. destruct Hst as [Hl Hli _ _ Htm _ _ _ _].
    unfold term_at, getPhysicalIndex in *. by rewrite <- Hl, <- Hli, <- Htm. }
  pose proof (leader_lnode w h g i rf HI HA Hi Hs) as Hln. split; [|done].
  assert (NoDup (holders rf' N)) as Hnd by (apply list.NoDup_filter, NoDup_seqZ).
  assert (∀ p, p ∈ holders rf' N → p ≠ i ∧ (0 ≤ p < n)%Z ∧
            (N ≤ default (-1) (go_nth (matchIndex rf') p))%Z) as Hho.
  { intros p. unfold holders, peer_range.
    rewrite list_elem_of_filter, elem_of_seqZ, (st_me _ _ Hst), (st_peers _ _ Hst), Hme, Hpe.
    intros [[? ?] ?]. split_and!; (done || lia). }
  assert (i ∉ (list_to_set (holders rf' N) : gset Z)) as Hni.
  { intros Hin%elem_of_list_to_set. by destruct (Hho _ Hin). }
  exists ({[i]} ∪ list_to_set (holders rf' N)). split; [split|].
  - intros p. rewrite elem_of_union, elem_of_singleton, elem_of_list_to_set, elem_of_ids.
    intros [->|Hp]; [apply (inv_dom _ _ _ HI); eauto|]. by destruct (Hho p Hp) as (_ & ? & _).
  - rewrite size_union by set_solver. rewrite size_singleton, size_list_to_set by done.
    rewrite (st_peers _ _ Hst), Hpe in Hcnt. unfold zlen in Hcnt. lia.
  - intros p. rewrite elem_of_union, elem_of_singleton, elem_of_list_to_set.
    intros [->|Hp]; [by exists (tip rf)|]. destruct (Hho p Hp) as (_ & _ & HNp).
    destruct (go_nth (matchIndex rf') p) as [v|] eqn:Hv; simpl in HNp; [|lia].
    destruct (Hma p v Hv) as [?|[s Hack]]; [lia|]. exists (v, s). split; [done|].
    apply (lnode_linear n h g (currTerm rf)); try done; [by eapply lnode_anc|].
    by eapply to_acks.
Qed.

(** ** A new entry *)

(** Acknowledgements are about entries that exist. *)
Lemma acked_old h h' g p m :
  extends h h' → tree (born h') → tree_ok n h g → acked (born h') g p m → acked (born h) g p m.
Proof.
  intros [_ Hb] Ht' Ht (x & Hx & Ha). exists x. split; [done|].
  eapply anc_old; [done|apply Ht|done| |done]. by apply (lnode_props n h g m.2), (to_acks _ _ _ Ht _ _ _ Hx).
Qed.

(** The tree grows by a child of a node. *)
Lemma tree_insert (b : Born Cmd) k u c t :
  tree b → b ⊆ <[(k, u) := (c, t)]> b → is_node b ((k - 1)%Z, t) → (1 ≤ k)%Z → (0 ≤ t ≤ u)%Z → (0 < u)%Z →
  tree (<[(k, u) := (c, t)]> b).
Proof.
  intros Htr Hb Hn Hk Ht Hu k' u' c' t' Hk'. rewrite lookup_insert in Hk'. case_decide as Hd.
  - injection Hd as <- <-. injection Hk' as <- <-. split_and!; try lia. by eapply is_node_mono.
  - destruct (Htr _ _ _ _ Hk') as (? & ? & ? & ?). split_and!; try lia. by eapply is_node_mono.
Qed.

Lemma start_tree w h g i rf (ent : option Cmd * Z) :
  Inv n w h → Agr n w h g → nodes w !! i = Some rf → state rf = Leader →
  is_Some ent.1 → ent.2 = (tip rf).2 →
  tree_ok n (record_entry ((tip rf).1 + 1) (currTerm rf) ent h) g ∧
  extends h (record_entry ((tip rf).1 + 1) (currTerm rf) ent h).
Proof.
  intros HI HA Hi Hs Hsome Hx. pose proof (agr_tree _ _ _ _ HA) as Ht. pose proof Ht as [Htr Hcmd Hl Hlin Hct Hack].
  pose proof (agr_peer _ _ _ _ HA i rf Hi) as Hpo. pose proof (inv_n _ _ _ HI) as Hn.
  destruct (inv_leader _ _ _ HI i rf Hi Hs) as [Hlead Hbound].
  destruct (po_leader _ _ _ _ _ Hpo Hs) as (e & He & Hae & Htip).
  destruct (Hct _ _ _ He) as (Hne & Hlt & H0). pose proof (po_node _ _ _ _ _ Hpo) as Hnode.
  destruct (node_index _ _ Htr Hnode) as (Hk0 & Ht0 & _).
  assert ((tip rf).1 = lastLogicalIndex rf) as Hlast by (rewrite tip_eq; [done|apply Hpo]).
  set (k := ((tip rf).1 + 1)%Z). set (u := currTerm rf) in *. set (h' := record_entry k u ent h).
  assert (born h ⊆ born h') as Hb.
  { apply insert_subseteq. destruct (born h !! (k, u)) eqn:E; [|done].
    specialize (Hbound _ _ E). lia. }
  assert (extends h h') as Hext by done. split; [|done].
  assert (anc (born h') (tip rf) (k, u)) as Hup.
  { destruct ent as [c t]. simpl in Hx. eapply anc_up; [apply lookup_insert_eq|].
    replace (k - 1)%Z with (tip rf).1 by lia. rewrite Hx. destruct (tip rf). apply anc_refl. }
  assert (∀ k', is_Some (born h !! (k', u)) → anc (born h) (k', u) (tip rf)) as Hold.
  { intros k' Hk'. apply (leader_tops w h g i); try done.
    exists i, e, (k', u). split_and!; try done; [apply anc_refl|by right]. }
  assert (∀ k', is_Some (born h' !! (k', u)) → k' = k ∨ is_Some (born h !! (k', u))) as Hcase.
  { intros k' [y Hy]. simpl in Hy. rewrite lookup_insert in Hy. case_decide; simplify_eq; eauto. }
  split.
  - pose proof (po_term _ _ _ _ _ Hpo). destruct ent as [c t]. simpl in Hx. subst t.
    apply tree_insert; try done; try (unfold k; lia).
    replace (k - 1)%Z with (tip rf).1 by lia. by destruct (tip rf).
  - intros y c t Hy. simpl in Hy. rewrite lookup_insert in Hy.
    case_decide; simplify_eq/=; [done|by eapply Hcmd].
  - intros k' u' Hk. destruct (decide (u' = u)) as [->|Hne'].
    + destruct (Hcase k' Hk) as [->|Hk'].
      * exists i, e. split_and!; try done. eapply anc_trans; [|done]. by eapply anc_mono.
      * destruct (Hl k' u Hk') as (j & e' & ? & ? & ?). exists j, e'. eauto using anc_mono.
    + simpl in Hk. rewrite lookup_insert_ne in Hk by congruence.
      destruct (Hl k' u' Hk) as (j & e' & ? & ? & ?). exists j, e'. eauto using anc_mono.
  - intros k1 k2 u' H1 H2 Hle. destruct (decide (u' = u)) as [->|Hne'].
    + destruct (Hcase k1 H1) as [->|H1'], (Hcase k2 H2) as [->|H2'].
      * apply anc_refl.
      * apply Hold in H2'. apply anc_index in H2'. simpl in *. lia.
      * eapply anc_trans; [|done]. eapply anc_mono; eauto.
      * eapply anc_mono; eauto.
    + simpl in H1, H2. rewrite lookup_insert_ne in H1, H2 by congruence. eapply anc_mono; eauto.
  - intros c u' e' Hce. destruct (Hct _ _ _ Hce) as (? & ? & ?). eauto using is_node_mono.
  - intros p u' y Hy. eapply lnode_mono; eauto. apply gext_refl.
Qed.

Lemma agr_born w h g i rf (ent : option Cmd * Z) :
  Inv n w h → Agr n w h g → nodes w !! i = Some rf → state rf = Leader →
  is_Some ent.1 → ent.2 = (tip rf).2 →
  Agr n w (record_entry ((tip rf).1 + 1) (currTerm rf) ent h) g.
Proof.
  intros HI HA Hi Hs Hsome Hx. destruct (start_tree w h g i rf ent) as [Ht' Hext]; try done.
  set (h' := record_entry _ _ ent h) in *. pose proof (gext_refl g) as Hg. pose proof Hext as [_ Hb].
  pose proof (agr_tree _ _ _ _ HA) as Ht.
  assert (∀ p m, acked (born h') g p m → acked (born h) g p m) as Hack.
  { intros p m. apply acked_old; try done. apply Ht'. }
  assert (∀ m, choosable n (born h') g w m → choosable n (born h) g w m) as Hch.
  { intros m (Q & HQ & H). exists Q. split; [done|]. intros p Hp. destruct (H p Hp); eauto. }
  destruct HA as [_ Hpo Hak Hct Hho Hgr Hel Hta Hde]. split; try done.
  - intros. eapply peer_ok_mono; eauto.
  - intros p m rfp Hp Ha Hm. eapply anc_mono; eauto.
  - intros v u c Hv. destruct (Hgr v u c Hv) as (e & He & Hall). exists e. split; [done|].
    intros m Ha Hlt Hm. eapply anc_mono; eauto.
  - intros. eapply gtask_ok_mono; eauto.
  - intros. eapply msg_ok_mono; eauto.
Qed.
End preserve.
