(* ===== verification/RaftAgreement.v ===== *)
(** * Agreement of the Raft cluster

    raft/raft.go does not guarantee agreement in every execution:
    [RaftTraces] has two runs that break it.  Both need a particular event.
    In one, the [makeAppendEntry] goroutine of a deposed leader sends a
    request, since it does not look at [rf.state]; in the other a server is
    elected again with the [matchIndex] of an earlier leadership, which
    [becomeLeader] does not reset.  An execution is [careful] when neither
    happens.  This file shows that careful executions have state machine
    safety and leader completeness, with crashes, lost and delayed messages,
    and log compaction. *)

From S2P Require Import Prelude Persister RaftTypes RaftHandlers RaftLeader RaftNet RaftEffects RaftLocal RaftInv RaftSafety.
From S2P Require Import RaftTree RaftMoves RaftCommit RaftPreserve.

Section agreement.
Context {Cmd : Type} `{!Gob (PersistentState Cmd)}.
Implicit Types (rf : Raft Cmd) (w : World Cmd) (h : Hist (Cmd := Cmd)) (g : Ghost).

(** ** Careful executions *)

(** A replication goroutine builds its request while its server leads, and
    [becomeLeader] promotes a server whose [matchIndex] is that of [Make]. *)
Definition careful_action (a : Action Cmd) w : bool :=
  match a with
  | ARun k _ _ =>
      match tasks w !! k with
      | Some (_, TAppend i _) | Some (_, TSnapshot i _) =>
          match nodes w !! i with Some rf => is_leader rf | None => true end
      | _ => true
      end
  | AVote eid p _ _ =>
      match elections w !! eid, vcalls w !! (eid, p) with
      | Some e, Some (VElected _) =>
          match nodes w !! el_cand e with
          | Some rf => negb (state rf =? Candidate)%Z || forallb (λ m, m =? 0)%Z (matchIndex rf)
          | None => true
          end
      | _, _ => true
      end
  | _ => true
  end.

Fixpoint careful (acts : list (Action Cmd)) w : bool :=
  match acts with
  | [] => true
  | a :: acts' =>
      careful_action a w && match step a w with Next w' => careful acts' w' | _ => true end
  end.

Ltac section_inv H :=
  let rf := fresh "rf" in let a := fresh "a" in let Hi := fresh "Hi" in let Ha := fresh "Ha" in
  apply run_section_Next in H as (rf & a & Hi & Ha & ->).

(** The acknowledgements and candidacies do not change. *)
Ltac same g := exists g; split; [apply gext_refl|].

Lemma good_Some n rf rf' {B} (f : B → Raft Cmd) (o : option B) x :
  good n rf (f <$> o) → o = Some x → f x = rf' → wf n rf'.
Proof. intros (r & Hr & Hwf & _) -> <-. simpl in Hr. by injection Hr as <-. Qed.

(** ** Votes *)

(** A voter's log is not ahead of the candidate's, so the candidate has what
    the voter holds and may be chosen. *)
Lemma grant_has n w h g v rf c u args :
  Inv n w h → Agr n w h g → nodes w !! v = Some rf →
  ctip g !! (c, u) = Some (rva_LastLogIndex args, rva_LastLogTerm args) → up_to_date args rf →
  ∀ m, acked (born h) g v m → choosable n (born h) g w m →
       anc (born h) m (rva_LastLogIndex args, rva_LastLogTerm args).
Proof.
  intros HI HA Hv He Hup m Hack Hch. pose proof (agr_tree _ _ _ _ HA) as Ht.
  pose proof (to_tree _ _ _ Ht) as Htr. pose proof (agr_hold _ _ _ _ HA _ _ _ Hv Hack Hch) as Ha.
  pose proof (agr_peer _ _ _ _ HA v rf Hv) as Hpo. destruct (to_ctip _ _ _ Ht _ _ _ He) as (Hen & _ & _).
  pose proof (po_node _ _ _ _ _ Hpo) as Hn. pose proof (anc_term _ _ _ Htr Ha) as Hmt.
  rewrite tip_eq in * by apply Hpo. simpl in Hmt. destruct Hup as [Hlt|[Heq Hle]].
  - destruct Hen as [Hr|Hb].
    { injection Hr as _ Hr. destruct (node_index _ _ Htr Hn) as (_ & ? & _). simpl in *. lia. }
    destruct (to_lead _ _ _ Ht _ _ Hb) as (j & e' & Hj & He' & Hae).
    eapply anc_trans; [|done]. eapply leader_has; eauto. lia.
  - eapply anc_trans; [done|]. rewrite Heq in *.
    destruct Hn as [Hr|Hb]; [rewrite Hr; by apply root_anc|].
    destruct Hen as [Hr'|Hb']; [|by apply (to_linear _ _ _ Ht)].
    destruct Hb as [[c' t'] Hb]. destruct (Htr _ _ _ _ Hb). injection Hr' as Hr1 Hr2. lia.
Qed.

Lemma vote_call_agr n w h g eid p now net e w' :
  Inv n w h → Agr n w h g → elections w !! eid = Some e → vcalls w !! (eid, p) = Some VCall →
  run_vote w eid p now net e VCall = Next w' →
  Agr n w' (evolve_vote w eid p now net e VCall h) g.
Proof.
  intros HI HA He Hph H. destruct (vote_call_inv n w h eid p now net e w' HI He Hph H) as [Hext _].
  pose proof (agr_election _ _ _ _ HA eid e He) as Hct.
  assert (∀ rf rf' reply vc, nodes w !! p = Some rf →
    RequestVote now (el_args e) rf = Some (rf', reply) →
    let h' := if rvr_VoteGranted reply
      then record_vote p (rva_Term (el_args e)) (el_cand e) h else h in
    extends h h' → Agr n (set_vcalls vc (set_node p rf' w)) h' g) as Hrun.
  { intros rf rf' reply vc Hi Hrv h' Hx. apply agr_set_vcalls.
    pose proof (agr_peer _ _ _ _ HA p rf Hi) as Hpo.
    pose proof (RequestVote_calm _ _ _ _ _ Hrv) as Hcalm.
    assert (wf n rf') as Hwf' by (eapply good_Some; [apply RequestVote_good, Hpo|done|done]).
    pose proof (proj1 (calm_tip _ _ Hcalm)) as Htip.
    assert (born h' = born h) as Hb by (unfold h'; by case_match).
    eapply agr_advance; try done; [apply Hcalm| | | |by rewrite Htip].
    - intros c u x. auto.
    - intros v u c Hv. unfold h' in Hv. destruct (rvr_VoteGranted reply) eqn:Hg; [|by left].
      simpl in Hv. rewrite lookup_insert in Hv. case_decide as Hd; [right|by left].
      injection Hd as <- <-. injection Hv as <-. eexists. split; [exact Hct|].
      intros m Hm _ Hch. eapply (grant_has n w h g p rf); eauto.
      eapply RequestVote_grant; [apply Hpo|done..].
    - eapply peer_ok_mono; [done|apply gext_refl|]. by eapply peer_ok_calm. }
  destruct net; simpl in H, Hext; cbn [evolve_vote] in *.
  - section_inv H. rewrite Hi in *. cbn [mbind option_bind] in *. rewrite Ha in *.
    destruct a as [rf' reply]. by eapply Hrun.
  - section_inv H. rewrite Hi in *. cbn [mbind option_bind] in *. rewrite Ha in *.
    destruct a as [rf' reply]. by eapply Hrun.
  - injection H as <-. by apply agr_set_vcalls.
Qed.

(** Elections keep their candidate and their request. *)
Lemma agr_set_election n w h g eid e votes :
  elections w !! eid = Some e → Agr n w h g →
  Agr n (set_elections (<[eid := mkElection (el_cand e) (el_args e) votes (el_alive e)]>
    (elections w)) w) h g.
Proof.
  intros He HA. apply (agr_frame n w); try done;
    [|apply (agr_task _ _ _ _ HA)|apply (agr_delivered _ _ _ _ HA)].
  intros eid' e'. simpl. rewrite list_lookup_insert. case_decide as Hd; [|apply (agr_election _ _ _ _ HA)].
  intros [= <-]. exact (agr_election _ _ _ _ HA eid e He).
Qed.

Lemma vote_reply_agr n w h g eid p now net e r w' :
  Agr n w h g → elections w !! eid = Some e →
  run_vote w eid p now net e (VReply r) = Next w' →
  Agr n w' (evolve_vote w eid p now net e (VReply r) h) g.
Proof.
  intros HA He H. simpl in H. destruct (el_alive e) eqn:Hal; [|done].
  section_inv H. destruct a as [[rf' votes'] elected]. injection Ha as Ha.
  pose proof (agr_peer _ _ _ _ HA _ _ Hi) as Hpo.
  pose proof (vote_reply_calm (rva_Term (el_args e)) (el_votes e) r rf) as Hc.
  pose proof (vote_reply_good n (rva_Term (el_args e)) (el_votes e) r rf (po_wf _ _ _ _ _ Hpo)) as Hg.
  rewrite Ha in Hc, Hg. destruct Hg as (r' & [= <-] & Hwf & _). simpl in Hc, Hwf.
  apply (agr_hist n _ h).
  - cbn [evolve_vote]. rewrite Hi. by case_match.
  - cbn [evolve_vote]. rewrite Hi. by case_match.
  - apply agr_set_vcalls. rewrite <- Hal.
    apply (agr_set_election n (set_node (el_cand e) rf' w)); [done|]. by eapply agr_calm.
Qed.

Lemma promote_peer n w h g i rf rf' started t :
  Inv n w h → Agr n w h g → nodes w !! i = Some rf → becomeLeader t rf = Some (rf', started) →
  negb (state rf =? Candidate)%Z || forallb (λ m, m =? 0)%Z (matchIndex rf) = true →
  peer_ok n h g i rf' ∧ tip rf' = tip rf ∧ currTerm rf' = currTerm rf.
Proof.
  intros HI HA Hi H Hz. pose proof (agr_peer _ _ _ _ HA i rf Hi) as Hpo.
  destruct (inv_node _ _ _ HI i rf Hi) as [Hme Hpe _ _ _].
  destruct (becomeLeader_effect _ _ _ _ H)
    as [->|(Hs & _ & Hs' & Hl & Hli & Hlt & Hci & Hla & Ht & Hm & _ & Hnx)];
    [done|]. rewrite Hs in Hz. cbn [Z.eqb Candidate] in Hz. simpl in Hz.
  assert (wf n rf') as Hwf by (eapply good_Some; [apply becomeLeader_good, Hpo|done|done]).
  pose proof (tip_ext rf rf' Hl Hli) as Htip. pose proof (base_ext rf rf' Hl Hli) as Hbase.
  split; [|done]. destruct Hpo as [_ Hb Hn Htt Hap Hco Hca _ _ _].
  split; rewrite ?Htip, ?Hbase, ?Hli, ?Hlt, ?Hci, ?Hla, ?Ht; try done; try (by rewrite Hs').
  - intros _. exists (tip rf). split_and!; [by apply Hca|apply anc_refl|by left].
  - intros _ p v. rewrite Hm. intros [_ Hv]%go_nth_Some. left.
    rewrite forallb_forall in Hz. specialize (Hz v).
    rewrite <- list_elem_of_In in Hz. apply list_elem_of_lookup_2 in Hv. apply Hz in Hv. lia.
  - intros _ p v Hp Hv. rewrite (Hnx p v); try done; [|by rewrite Hme|].
    + unfold lastLogicalIndex. rewrite Hl, Hli. lia.
    + apply go_nth_bounds in Hv. destruct Hwf. lia.
Qed.

Lemma run_vote_agr n w h g eid p now net e ph w' :
  Inv n w h → Agr n w h g → elections w !! eid = Some e → vcalls w !! (eid, p) = Some ph →
  careful_action (AVote eid p now net) w = true →
  run_vote w eid p now net e ph = Next w' → Agr n w' (evolve_vote w eid p now net e ph h) g.
Proof.
  intros HI HA He Hph Hcf H. destruct ph as [|r|r|r].
  - by eapply vote_call_agr.
  - by eapply vote_reply_agr.
  - simpl in H. destruct (el_alive e); [|done]. section_inv H. destruct a as [rf' started].
    simpl in Hcf. rewrite He, Hph, Hi in Hcf.
    destruct (promote_peer _ _ _ _ _ _ _ _ _ HI HA Hi Ha Hcf) as (Hpo & Htip & Ht).
    apply agr_spawn; [by destruct started; intros t; rewrite ?list_elem_of_singleton;
                        [intros ->|intros ?%not_elem_of_nil]|].
    apply agr_set_vcalls. eapply agr_node; [done..|lia|done|by rewrite Htip].
  - simpl in H. destruct (el_alive e); [|done]. section_inv H. injection Ha as <-.
    apply agr_set_vcalls. eapply agr_calm; [done..| |apply vote_termCheck_calm].
    apply (vote_termCheck_wf n r rf), (agr_peer _ _ _ _ HA _ _ Hi).
Qed.

(** ** Requests *)

(** A server's own snapshot is in the log of a leader that sends to it. *)
Lemma append_hint n w h g p rf now args rf' reply :
  Inv n w h → Agr n w h g → nodes w !! p = Some rf → args_ok n h g args →
  AppendEntries now args rf = Some (rf', reply) → hint_ok n h g args reply.
Proof.
  intros HI HA Hp (Hl & _) H. pose proof (agr_peer _ _ _ _ HA p rf Hp) as Hpo.
  pose proof (agr_tree _ _ _ _ HA) as Ht. pose proof (to_tree _ _ _ Ht) as Htr.
  destruct (AppendEntries_conflict n now args rf rf' reply (po_wf _ _ _ _ _ Hpo) H) as [Hc|[Hle Hc]].
  - exists (args_tip args). split; [done|].
    destruct (node_index _ _ Htr (proj1 (lnode_props _ _ _ _ _ Ht Hl))) as (H0 & _).
    unfold args_tip in *. rewrite endp_index in *. pose proof (zlen_nonneg (aea_Entries args)). lia.
  - exists (base rf). split; [|simpl; lia]. destruct (po_commit _ _ _ _ _ Hpo) as (t & Ha & Hcm).
    eapply (lnode_anc n h g _ _ (commitIndex rf, t)); [|by eapply committed_lnode].
    eapply anc_linear; [apply base_anc, (inv_node _ _ _ HI p rf Hp)|done|].
    simpl. apply (wf_commit _ _ (po_wf _ _ _ _ _ Hpo)).
Qed.

Lemma append_agr n w h g p rf now args rf' reply :
  Inv n w h → Agr n w h g → nodes w !! p = Some rf → args_ok n h g args →
  chain (born h) (aea_PrevLogIndex args) (aea_PrevLogTerm args) (aea_Entries args) →
  AppendEntries now args rf = Some (rf', reply) →
  ∃ g', gext g g' ∧ Agr n (set_node p rf' w) h g' ∧
    (aer_Success reply = true → (p, aea_Term args, args_tip args) ∈ acks g') ∧
    hint_ok n h g' args reply.
Proof.
  intros HI HA Hp Hargs Hch H. pose proof (agr_peer _ _ _ _ HA p rf Hp) as Hpo.
  pose proof (inv_node _ _ _ HI p rf Hp) as Hok.
  pose proof (AppendEntries_effect n (born h) now args rf rf' reply (po_wf _ _ _ _ _ Hpo)
    (nok_chain _ _ _ _ Hok) Hch H) as Heff.
  assert (wf n rf') as Hwf.
  { destruct (AppendEntries_spec n now args rf (po_wf _ _ _ _ _ Hpo)) as (r & ? & Hr & ? & _).
    rewrite H in Hr. by injection Hr as <- _. }
  pose proof (append_hint _ _ _ _ _ _ _ _ _ _ HI HA Hp Hargs H) as (x & Hx & Hhint).
  destruct (aer_Success reply).
  - pose proof Heff as (Hle & Ht & _ & Hmv & _). pose proof Hargs as (Hl & _).
    assert (Agr n (set_node p rf' w) h g) as HA'.
    { eapply agr_node; [done..|lia|by eapply append_peer|by eapply request_hold]. }
    exists (add_ack p (aea_Term args) (args_tip args) g). split_and!.
    + apply add_ack_gext.
    + rewrite <- Ht. eapply agr_ack; [|done|by apply lookup_insert_eq|by rewrite Ht|by eapply moves_has].
      eapply inv_section; [done..|]. by eapply AppendEntries_ok.
    + intros _. simpl. set_solver.
    + exists x. split; [|done]. eapply lnode_mono; [|apply add_ack_gext|done]. done.
  - exists g. split_and!; [apply gext_refl|by eapply agr_calm|done|by exists x].
Qed.

Lemma install_agr n w h g p rf now args rf' reply msg :
  Inv n w h → Agr n w h g → nodes w !! p = Some rf → snap_ok n h g args →
  InstallSnapshot now args rf = Some (rf', reply, msg) →
  ∃ g', gext g g' ∧ Agr n (set_node p rf' w) h g' ∧
    ((isr_Term reply ≤ isa_Term args)%Z → (p, isa_Term args, snap_node args) ∈ acks g').
Proof.
  intros HI HA Hp Hargs H. pose proof (agr_peer _ _ _ _ HA p rf Hp) as Hpo.
  pose proof (inv_node _ _ _ HI p rf Hp) as Hok. pose proof Hargs as (Hl & _).
  assert (wf n rf') as Hwf.
  { destruct (InstallSnapshot_spec n now args rf (po_wf _ _ _ _ _ Hpo)) as (r & ? & ? & Hr & ? & _).
    rewrite H in Hr. by injection Hr as <- _. }
  destruct (InstallSnapshot_effect n (born h) now args rf rf' reply msg (po_wf _ _ _ _ _ Hpo)
    (nok_chain _ _ _ _ Hok) H) as [(_ & -> & Hlt)|(Hle & Ht & Heff)].
  { exists g. split_and!; [apply gext_refl| |lia]. eapply agr_calm; eauto using calm_refl. }
  assert (Agr n (set_node p rf' w) h g ∧ anc (born h) (snap_node args) (tip rf')) as [HA' Ha].
  { case_bool_decide as Hi.
    - pose proof Heff as (_ & Hmv & _). split; [|by eapply moves_has].
      eapply agr_node; [done..|lia|by eapply install_peer|by eapply request_hold].
    - split; [by eapply agr_calm|]. rewrite (proj1 (calm_tip _ _ Heff)).
      eapply covered_tip; eauto. lia. }
  exists (add_ack p (isa_Term args) (snap_node args) g). split_and!.
  - apply add_ack_gext.
  - rewrite <- Ht. eapply agr_ack; [|done|by apply lookup_insert_eq|by rewrite Ht|done].
    eapply inv_section; [done..|]. by eapply InstallSnapshot_ok.
  - intros _. simpl. set_solver.
Qed.

(** Snapshot messages carry no command. *)
Lemma InstallSnapshot_msg n b g now args rf rf' reply msg :
  InstallSnapshot now args rf = Some (rf', reply, Some msg) → msg_ok n b g msg.
Proof.
  unfold InstallSnapshot. intros H. case_match; [go_inv|]. case_match; [go_inv|].
  apply bind_Some in H as (nl & _ & H). go_inv. intros Hv. done.
Qed.

Lemma append_call_agr n w h g k i p args now net al w' :
  Inv n w h → Agr n w h g → tasks w !! k = Some (al, TAppendCall i p args) →
  run_task w k now net al (TAppendCall i p args) = Next w' →
  ∃ g', gext g g' ∧ Agr n w' h g'.
Proof.
  intros HI HA Hk H. pose proof (list_elem_of_lookup_2 _ _ _ Hk) as Hin.
  pose proof (inv_task _ _ _ HI al _ Hin) as Hch. simpl in Hch.
  pose proof (agr_task _ _ _ _ HA al _ Hin) as [Hr Hargs]. destruct net; simpl in H.
  - section_inv H. destruct a as [rf' reply].
    destruct (append_agr n w h g p rf now args rf' reply) as (g' & Hg & HA' & Hack & Hh); try done.
    exists g'. split; [done|]. apply agr_become; [|done]. by split_and!.
  - section_inv H. destruct a as [rf' reply].
    destruct (append_agr n w h g p rf now args rf' reply) as (g' & Hg & HA' & _ & _); try done.
    exists g'. split; [done|]. by apply agr_finish.
  - injection H as <-. same g. by apply agr_finish.
Qed.

Lemma snapshot_call_agr n w h g k i p args now net al w' :
  Inv n w h → Agr n w h g → tasks w !! k = Some (al, TSnapshotCall i p args) →
  run_task w k now net al (TSnapshotCall i p args) = Next w' →
  ∃ g', gext g g' ∧ Agr n w' h g'.
Proof.
  intros HI HA Hk H. pose proof (list_elem_of_lookup_2 _ _ _ Hk) as Hin.
  pose proof (agr_task _ _ _ _ HA al _ Hin) as [Hr Hargs].
  assert (∀ g' rf rf' reply msg t, InstallSnapshot now args rf = Some (rf', reply, msg) →
    t ∈ option_task (TSendSnapshot p) msg → gtask_ok n h g' t) as Hmsg.
  { intros g' rf rf' reply [msg|] t Ha; simpl; [|by intros ?%not_elem_of_nil].
    rewrite list_elem_of_singleton. intros ->. by eapply InstallSnapshot_msg. }
  destruct net; simpl in H.
  - section_inv H. destruct a as [[rf' reply] msg].
    destruct (install_agr n w h g p rf now args rf' reply msg) as (g' & Hg & HA' & Hack); try done.
    exists g'. split; [done|]. apply agr_spawn; [intros t; by eapply Hmsg|].
    apply agr_become; [|done]. by split.
  - section_inv H. destruct a as [[rf' reply] msg].
    destruct (install_agr n w h g p rf now args rf' reply msg) as (g' & Hg & HA' & _); try done.
    exists g'. split; [done|]. apply agr_spawn; [intros t; by eapply Hmsg|]. by apply agr_finish.
  - injection H as <-. same g. by apply agr_finish.
Qed.

(** ** Elections *)

Lemma agr_open n w h g rf args :
  ctip g !! (me rf, rva_Term args) = Some (rva_LastLogIndex args, rva_LastLogTerm args) →
  Agr n w h g → Agr n (open_election rf args w) h g.
Proof.
  intros Hc HA. apply agr_set_vcalls. apply (agr_frame n w); try done;
    [|apply (agr_task _ _ _ _ HA)|apply (agr_delivered _ _ _ _ HA)].
  intros eid e He. apply lookup_app_Some in He as [He|[_ He]]; [by eapply agr_election|].
  by apply list_lookup_singleton_Some in He as [_ <-].
Qed.

(** A candidate's own vote. *)
Lemma candidate_agr n w h g i now rf rf' args :
  Inv n w h → Agr n w h g → nodes w !! i = Some rf → startElection now rf = Some (rf', args) →
  extends h (record_vote i (currTerm rf + 1) i h) →
  let g' := add_ctip i (currTerm rf + 1) (tip rf) g in
  gext g g' ∧ Agr n (set_node i rf' w) (record_vote i (currTerm rf + 1) i h) g'.
Proof.
  intros HI HA Hi H Hext g'. pose proof (agr_peer _ _ _ _ HA i rf Hi) as Hpo.
  destruct (startElection_effect n now rf rf' args (po_wf _ _ _ _ _ Hpo) H)
    as (Hl & Hli & Hlt & Hci & Hla & Ht & Hs & _).
  assert (wf n rf') as Hwf by (eapply good_Some; [apply startElection_good, Hpo|done|done]).
  pose proof (tip_ext rf rf' Hl Hli) as Htip. pose proof (base_ext rf rf' Hl Hli) as Hbase.
  pose proof (nok_term _ _ _ _ (inv_node _ _ _ HI i rf Hi)) as H0.
  pose proof (po_term _ _ _ _ _ Hpo) as Htt. pose proof (po_node _ _ _ _ _ Hpo) as Hn.
  assert (gext g g') as Hg.
  { split; [done|]. apply insert_subseteq. destruct (ctip g !! _) eqn:E; [|done].
    destruct (agr_ctip _ _ _ _ HA _ _ _ E) as (r & Hr & ?). simplify_eq. lia. }
  split; [done|]. eapply agr_advance; try done; [lia| | | |by rewrite Htip].
  - intros c u e Hce. simpl in Hce. rewrite lookup_insert in Hce. case_decide as Hd; [right|by left].
    injection Hd as <- <-. injection Hce as <-. split_and!; (done || lia).
  - intros v u c Hv. simpl in Hv. rewrite lookup_insert in Hv. case_decide as Hd; [right|by left].
    injection Hd as <- <-. injection Hv as <-. exists (tip rf). simpl. rewrite lookup_insert_eq.
    split; [done|]. intros m Hm _ Hch. by eapply agr_hold.
  - pose proof (peer_ok_mono n h _ g g' i rf Hext Hg Hpo) as [_ Hb _ _ Hap Hco _ _ _ _].
    split; rewrite ?Htip, ?Hbase, ?Hli, ?Hlt, ?Hci, ?Hla, ?Ht; try done; try (by rewrite Hs).
    + lia.
    + destruct Hco as (t & ? & ?). exists t. split; [done|]. eapply committed_le; [|done]. lia.
    + intros _. simpl. by rewrite lookup_insert_eq.
Qed.

Lemma election_agr n w h g k i now rf rf' args :
  Inv n w h → Agr n w h g → nodes w !! i = Some rf → startElection now rf = Some (rf', args) →
  ∃ g', gext g g' ∧ Agr n (open_election rf' args (finish k (set_node i rf' w)))
    (open_count (length (elections w)) (record_vote i (currTerm rf + 1) i h)) g'.
Proof.
  intros HI HA Hi H. pose proof (agr_peer _ _ _ _ HA i rf Hi) as Hpo.
  destruct (startElection_effect n now rf rf' args (po_wf _ _ _ _ _ Hpo) H)
    as (_ & _ & _ & _ & _ & _ & _ & _ & Hat & Hac & Htip).
  destruct (election_inv n w h k i now rf rf' args HI Hi H) as [Hext _].
  destruct (candidate_agr n w h g i now rf rf' args) as [Hg HA']; try done.
  eexists. split; [exact Hg|]. apply agr_open; [|].
  - pose proof (startElection_ok n (born h) i now rf rf' args (inv_node _ _ _ HI i rf Hi) H)
      as ([Hme _ _ _ _] & _). rewrite Hme, Hat, <- Htip. simpl. by rewrite lookup_insert_eq.
  - apply (agr_hist n _ (record_vote i (currTerm rf + 1) i h)); [done..|]. by apply agr_finish.
Qed.

(** ** Replies *)

(** An acknowledged raise of [matchIndex] keeps its meaning. *)
Lemma raises_match g rf rf' p v u s :
  raises p v rf rf' → (p, u, (v, s)) ∈ acks g →
  (∀ q x, go_nth (matchIndex rf) q = Some x → (x ≤ 0)%Z ∨ ∃ s, (q, u, (x, s)) ∈ acks g) →
  ∀ q x, go_nth (matchIndex rf') q = Some x → (x ≤ 0)%Z ∨ ∃ s, (q, u, (x, s)) ∈ acks g.
Proof.
  intros (m0 & Hm0 & ->) Hack Hold q x [Hq Hx]%go_nth_Some.
  rewrite list_lookup_insert in Hx. case_decide as Hd.
  - destruct Hd as [Hd _]. pose proof (go_nth_bounds _ _ _ Hm0).
    assert (q = p) as -> by lia. injection Hx as <-.
    destruct (Z.max_spec v m0) as [[_ ->]|[_ ->]]; eauto.
  - apply (Hold q). by apply go_nth_Some.
Qed.

(** The leader after a reply: its log is the old one. *)
Lemma reply_peer n h g i rf rf' :
  peer_ok n h g i rf → state rf = Leader → steady rf rf' → wf n rf' →
  (∀ q x, go_nth (matchIndex rf') q = Some x →
     (x ≤ 0)%Z ∨ ∃ s, (q, currTerm rf, (x, s)) ∈ acks g) →
  (∀ q x, q ≠ i → go_nth (nextIndex rf') q = Some x → (x ≤ lastLogicalIndex rf + 1)%Z) →
  (commitIndex rf ≤ commitIndex rf')%Z →
  ((commitIndex rf < commitIndex rf')%Z →
     chosen n (born h) g (commitIndex rf', currTerm rf) ∧
     anc (born h) (commitIndex rf', currTerm rf) (tip rf)) →
  peer_ok n h g i rf' ∧ tip rf' = tip rf.
Proof.
  intros [_ Hb Hn Ht Hap Hco _ Hle _ _] Hs [Hl Hli Hlt Hla Htm Hst _ _ _] Hwf Hma Hnx Hc Hnew.
  pose proof (tip_ext rf rf' Hl Hli) as Htip. pose proof (base_ext rf rf' Hl Hli) as Hbase.
  split; [|done]. split; rewrite ?Htip, ?Hbase, ?Hli, ?Hlt, ?Hla, ?Htm, ?Hst; try done; try (by rewrite Hs).
  - lia.
  - destruct (decide (commitIndex rf' = commitIndex rf)) as [->|Hne]; [done|].
    destruct Hnew as [Hch Ha]; [lia|]. exists (currTerm rf). split; [done|]. right.
    exists (commitIndex rf', currTerm rf). split_and!; [done|done|apply anc_refl].
  - intros _. unfold lastLogicalIndex in *. by rewrite Hl, Hli.
Qed.

(** [nextIndex] never passes the leader's log. *)
Lemma within_next n w h g i rf rf' B :
  Agr n w h g → nodes w !! i = Some rf → state rf = Leader →
  next_within B rf rf' → (B ≤ lastLogicalIndex rf + 1)%Z →
  ∀ q x, q ≠ i → go_nth (nextIndex rf') q = Some x → (x ≤ lastLogicalIndex rf + 1)%Z.
Proof.
  intros HA Hi Hs Hw HB q x Hq Hx. destruct (Hw q x Hx) as [H|?]; [|lia].
  by eapply (po_next _ _ _ _ _ (agr_peer _ _ _ _ HA i rf Hi) Hs).
Qed.

Lemma log_last n w h g i rf :
  Agr n w h g → nodes w !! i = Some rf → (tip rf).1 = lastLogicalIndex rf ∧ (0 ≤ lastLogicalIndex rf)%Z.
Proof.
  intros HA Hi. pose proof (po_wf _ _ _ _ _ (agr_peer _ _ _ _ HA i rf Hi)) as [].
  rewrite tip_eq by done. unfold lastLogicalIndex. simpl. lia.
Qed.

Lemma lnode_last n w h g i rf x :
  Inv n w h → Agr n w h g → nodes w !! i = Some rf → state rf = Leader →
  lnode n h g (currTerm rf) x → (x.1 ≤ lastLogicalIndex rf)%Z.
Proof.
  intros HI HA Hi Hs Hx. pose proof (leader_tops n w h g i rf x HI HA Hi Hs Hx) as Ha.
  rewrite <- (proj1 (log_last n w h g i rf HA Hi)). by apply anc_index in Ha.
Qed.

(** What a leader counts for a peer is in its log. *)
Lemma match_last n w h g i rf rf' q v :
  Inv n w h → Agr n w h g → nodes w !! i = Some rf → state rf = Leader →
  (∀ q x, go_nth (matchIndex rf') q = Some x →
     (x ≤ 0)%Z ∨ ∃ s, (q, currTerm rf, (x, s)) ∈ acks g) →
  go_nth (matchIndex rf') q = Some v → (v ≤ lastLogicalIndex rf)%Z.
Proof.
  intros HI HA Hi Hs Hma Hv. destruct (Hma q v Hv) as [H|[s Hack]].
  - pose proof (log_last n w h g i rf HA Hi). lia.
  - apply (lnode_last n w h g i rf (v, s)); try done. by eapply (to_acks _ _ _ (agr_tree _ _ _ _ HA)).
Qed.

Lemma append_reply_agr n w h g i p rf now args reply rf' snap :
  Inv n w h → Agr n w h g → nodes w !! i = Some rf → (0 ≤ p < n)%Z →
  (aer_Success reply = true → (p, aea_Term args, args_tip args) ∈ acks g) →
  hint_ok n h g args reply → append_reply now p args reply rf = Some (rf', snap) →
  ∃ g', gext g g' ∧ Agr n (set_node i rf' w) h g'.
Proof.
  intros HI HA Hi Hp Hack (xh & Hxh & Hhint) H. pose proof (agr_peer _ _ _ _ HA i rf Hi) as Hpo.
  pose proof (po_wf _ _ _ _ _ Hpo) as Hwf0. pose proof (log_last n w h g i rf HA Hi) as [_ Hpos].
  assert (wf n rf') as Hwf by (eapply good_Some; [by apply append_reply_good|done|done]).
  destruct (append_reply_effect n now p args reply rf rf' snap Hwf0 H)
    as [Hc|[(Ht & Hs & Hok & Hst & Hr & [Hcle Hcom] & v & Hv & Hw)|(Ht & Hs & Hst & Hm & Hci & Hw)]];
    [same g; by eapply agr_calm| |].
  2: { same g. rewrite <- Ht in Hxh. pose proof (lnode_last n w h g i rf xh HI HA Hi Hs Hxh) as Hle.
       destruct (reply_peer n h g i rf rf') as [Hpo' Htip]; try done; try lia.
       - rewrite Hm. by apply (po_match _ _ _ _ _ Hpo).
       - eapply within_next; eauto. lia.
       - eapply agr_node; [done..| |done|by rewrite Htip]. rewrite (st_term _ _ Hst). lia. }
  specialize (Hack Hok). set (g' := add_ack i (currTerm rf) (tip rf) g).
  assert (gext g g') as Hg by apply add_ack_gext.
  assert (Agr n w h g') as HA'.
  { eapply agr_ack; eauto using anc_refl. by eapply leader_lnode. }
  assert (∀ q x, go_nth (matchIndex rf') q = Some x →
    (x ≤ 0)%Z ∨ ∃ s, (q, currTerm rf, (x, s)) ∈ acks g') as Hma.
  { eapply (raises_match g' rf rf' p _ _ (args_tip args).2); [done| |].
    - apply Hg. rewrite Ht. unfold args_tip in *. rewrite <- (endp_index _ (aea_PrevLogTerm args)).
      by destruct (endp _ _ _).
    - apply (po_match _ _ _ _ _ (agr_peer _ _ _ _ HA' i rf Hi) Hs). }
  exists g'. split; [done|].
  destruct (reply_peer n h g' i rf rf') as [Hpo' Htip]; try done; [by eapply agr_peer| | |].
  - pose proof (match_last n w h g' i rf rf' p v HI HA' Hi Hs Hma Hv).
    eapply (within_next n w h g); eauto. lia.
  - intros Hlt. eapply (committable_chosen n w h g' i rf rf'); eauto.
    + simpl. set_solver.
    + pose proof (wf_commit _ _ Hwf0). pose proof (wf_lii _ _ Hwf0). lia.
  - eapply agr_node; [done..| |done|by rewrite Htip]. rewrite (st_term _ _ Hst). lia.
Qed.

Lemma snapshot_reply_agr n w h g i p rf now args reply rf' :
  Inv n w h → Agr n w h g → nodes w !! i = Some rf → (0 ≤ p < n)%Z →
  ((isr_Term reply ≤ isa_Term args)%Z → (p, isa_Term args, snap_node args) ∈ acks g) →
  snapshot_reply now p args reply rf = Some rf' → Agr n (set_node i rf' w) h g.
Proof.
  intros HI HA Hi Hp Hack H. pose proof (agr_peer _ _ _ _ HA i rf Hi) as Hpo.
  pose proof (po_wf _ _ _ _ _ Hpo) as Hwf0.
  assert (wf n rf') as Hwf.
  { destruct (snapshot_reply_good n now p args reply rf Hwf0 Hp) as (r & Hr & ? & _). congruence. }
  destruct (snapshot_reply_effect now p args reply rf rf' H)
    as [Hc|(Ht & Hs & Hle & Hst & Hr & Hci & v & Hv & Hw)]; [by eapply agr_calm|].
  rewrite <- Ht in *. specialize (Hack Hle).
  pose proof (raises_match g rf rf' p _ _ _ Hr Hack (po_match _ _ _ _ _ Hpo Hs)) as Hma.
  destruct (reply_peer n h g i rf rf') as [Hpo' Htip]; try done; [|lia|lia|].
  - pose proof (match_last n w h g i rf rf' p v HI HA Hi Hs Hma Hv).
    eapply (within_next n w h g); eauto. lia.
  - eapply agr_node; [done..| |done|by rewrite Htip]. rewrite (st_term _ _ Hst). lia.
Qed.

(** ** Delivery *)

(** What [sendApplyMsg] hands out is committed. *)
Lemma apply_agr n w h g i rf rf' msg :
  Inv n w h → Agr n w h g → nodes w !! i = Some rf → sendApplyMsg rf = Some (rf', msg) →
  Agr n (set_node i rf' w) h g ∧ ∀ m, msg = Some m → msg_ok n (born h) g m.
Proof.
  intros HI HA Hi H. pose proof (agr_peer _ _ _ _ HA i rf Hi) as Hpo.
  pose proof (agr_tree _ _ _ _ HA) as Ht. pose proof (to_tree _ _ _ Ht) as Htr.
  destruct (sendApplyMsg_effect rf rf' msg H) as [[-> ->]|(e & -> & Hlt & He & ->)].
  { split; [|done]. eapply agr_calm; eauto using calm_refl. apply Hpo. }
  split.
  - eapply agr_node; try done. destruct Hpo as [[] Hb Hn Htt Hap Hco Hca Hle Hma Hnx].
    split; try done; simpl; [|lia]. split; try done; simpl; lia.
  - intros m [= <-] _. simpl. pose proof (wf_applied _ _ (po_wf _ _ _ _ _ Hpo)) as Hla.
    destruct (entry_born (born h) rf (lastApplied rf + 1) e) as (Ha & t' & Hb); [apply (inv_node _ _ _ HI i rf Hi)|lia|done|].
    destruct (po_commit _ _ _ _ _ Hpo) as (t & Hat & Hc). exists (currTerm rf), (Term e), t'.
    split; [done|]. eapply (committed_anc n _ _ _ _ (commitIndex rf, t)); [done| | |done].
    + eapply anc_node; [done|apply Hpo|done].
    + eapply anc_linear; [done..|]. simpl. lia.
Qed.

(** ** Compaction and restart *)

(** The tip stays; the commit index stays or drops to the base. *)
Lemma rebase_peer n h g i rf rf' :
  tree (born h) → peer_ok n h g i rf → wf n rf' → tip rf' = tip rf →
  base rf' = (lastIncludedIndex rf', lastIncludedTerm rf') →
  (lastApplied rf' ≤ commitIndex rf' ≤ commitIndex rf)%Z →
  (commitIndex rf' < commitIndex rf → anc (born h) (base rf') (tip rf) ∧
     commitIndex rf' = lastIncludedIndex rf')%Z →
  role_ok rf rf' → currTerm rf' = currTerm rf → peer_ok n h g i rf'.
Proof.
  intros Htr [Hwf0 _ Hn Htt _ (t & Ha & Hc) Hca Hle Hma Hnx] Hwf Htip Hb Hci Hdrop Hr Ht.
  split; rewrite ?Htip, ?Ht; try done.
  - lia.
  - destruct (decide (commitIndex rf' = commitIndex rf)) as [->|Hne]; [by exists t|].
    destruct Hdrop as [Hba Hcb]; [lia|]. rewrite Hb, <- Hcb in Hba. eexists. split; [done|].
    eapply (committed_anc n _ _ _ _ (commitIndex rf, t)); [done|by eapply anc_node| |done].
    eapply anc_linear; [done..|]. simpl. lia.
  - intros Hs. destruct Hr as [Hr|(Hs' & _)]; [by rewrite Hr in Hs|]. apply Hca. congruence.
  - intros Hs. destruct Hr as [Hr|(Hs' & _)]; [by rewrite Hr in Hs|]. apply Hle. congruence.
  - intros Hs. destruct Hr as [Hr|(Hs' & _ & -> & _)]; [by rewrite Hr in Hs|]. apply Hma. congruence.
  - intros Hs. destruct Hr as [Hr|(Hs' & _ & _ & ->)]; [by rewrite Hr in Hs|].
    rewrite !tip_eq in Htip by (apply Hwf || apply Hwf0). injection Htip as -> _.
    apply Hnx. congruence.
Qed.

Lemma commit_in_log n h g i rf :
  peer_ok n h g i rf → (commitIndex rf ≤ lastLogicalIndex rf)%Z.
Proof.
  intros Hpo. destruct (po_commit _ _ _ _ _ Hpo) as (t & Ha & _).
  apply anc_index in Ha. rewrite tip_eq in Ha by apply Hpo. done.
Qed.

Lemma compact_agr n w h g i rf index data rf' :
  Agr n w h g → nodes w !! i = Some rf → (index ≤ lastApplied rf)%Z →
  Snapshot index data rf = Some rf' → Agr n (set_node i rf' w) h g.
Proof.
  intros HA Hi Hle H. pose proof (agr_peer _ _ _ _ HA i rf Hi) as Hpo.
  pose proof (po_wf _ _ _ _ _ Hpo) as Hwf. pose proof (po_applied _ _ _ _ _ Hpo) as Hap.
  pose proof (commit_in_log _ _ _ _ _ Hpo) as Hlog.
  destruct (Snapshot_effect n index data rf rf' Hwf (po_base _ _ _ _ _ Hpo) Hle)
    as (Htip & Hb & Hli & Hci & Hla & Ht & Hs & Hm & Hx); [lia|done|].
  assert (wf n rf') as Hwf'.
  { destruct (Snapshot_good n index data rf Hwf) as (r & Hr & ? & _); [lia..|]. congruence. }
  eapply agr_node; [done..|lia| |by rewrite Htip].
  eapply (rebase_peer n h g i rf rf'); try done; try lia; [apply (agr_tree _ _ _ _ HA)|].
  right. by split_and!.
Qed.

Lemma restart_peer n w h g i rf now :
  Inv n w h → Agr n w h g → nodes w !! i = Some rf →
  peer_ok n h g i (Make (peers rf) i (persister rf) now).1 ∧
  tip (Make (peers rf) i (persister rf) now).1 = tip rf ∧
  currTerm (Make (peers rf) i (persister rf) now).1 = currTerm rf.
Proof.
  intros HI HA Hi. pose proof (agr_peer _ _ _ _ HA i rf Hi) as Hpo.
  pose proof (inv_node _ _ _ HI i rf Hi) as [_ Hpe Hsy Hch H0]. pose proof (inv_n _ _ _ HI) as Hn.
  pose proof (po_wf _ _ _ _ _ Hpo) as [_ _ _ Hlen Hlii Hla Hco _ _].
  destruct (Make_effect (peers rf) i rf now Hsy Hlii)
    as (Hl & Hli & Hlt & Ht & Hci & Hap & Hs & Hnx & Hmx & Hp & _).
  set (rf' := (Make (peers rf) i (persister rf) now).1) in *.
  pose proof (tip_ext rf rf' Hl Hli) as Htip. pose proof (base_ext rf rf' Hl Hli) as Hbase.
  split; [|done]. pose proof (po_base _ _ _ _ _ Hpo) as Hb.
  eapply (rebase_peer n h g i rf rf'); try done.
  - apply (agr_tree _ _ _ _ HA).
  - split; rewrite ?Hl, ?Hli, ?Hci, ?Hap, ?Hnx, ?Hmx, ?Hs, ?Ht, ?Hpe; try done; try lia;
      try (unfold zlen; rewrite length_replicate; lia); auto.
  - by rewrite Hbase, Hli, Hlt.
  - lia.
  - intros _. rewrite Hbase, Hci, Hli. split; [by apply base_anc|done].
  - by left.
Qed.

Lemma restart_agr n w h g i now rf w' :
  Inv n w h → Agr n w h g → nodes w !! i = Some rf → step (ARestart i now) w = Next w' →
  Agr n w' h g.
Proof.
  intros HI HA Hi H. unfold step in H. rewrite Hi in H.
  destruct (restart_peer n w h g i rf now HI HA Hi) as (Hpo & Htip & Ht).
  assert (Agr n (set_node i (Make (peers rf) i (persister rf) now).1 w) h g) as HA'.
  { eapply agr_node; [done..|lia|done|by rewrite Htip]. }
  assert (∀ m, (Make (peers rf) i (persister rf) now).2 = Some m → msg_ok n (born h) g m) as Hm.
  { intros m Hm Hv. unfold Make in Hm. simpl in Hm. case_match; [|done]. by injection Hm as <-. }
  destruct (Make (peers rf) i (persister rf) now) as [rf' msg]. injection H as <-.
  apply agr_spawn.
  { intros t. destruct msg as [m|]; simpl; [|by intros ?%not_elem_of_nil].
    rewrite list_elem_of_singleton. intros ->. by apply Hm. }
  apply (agr_frame n (set_node i rf' w)); try done; simpl.
  - intros eid e He. apply list_lookup_fmap_Some in He as (e0 & -> & He0). exact (agr_election _ _ _ _ HA eid e0 He0).
  - intros al t Hin. apply list_elem_of_fmap in Hin as ([al' t'] & ? & Hin). simplify_eq/=.
    by eapply (agr_task _ _ _ _ HA).
  - intros j msg'. rewrite lookup_insert. case_decide; simpl; [by intros ?%not_elem_of_nil|].
    by apply (agr_delivered _ _ _ _ HA).
Qed.

(** ** One action *)

Lemma spawn_appends_agr n w h g i rf :
  me rf = i → peers rf = n → Agr n w h g → Agr n (spawn (TAppend i <$> other_peers rf) w) h g.
Proof.
  intros Hme Hp HA. apply agr_spawn; [|done]. intros t Ht. apply list_elem_of_fmap in Ht as (p & -> & Hin).
  unfold other_peers, peer_range in Hin. rewrite list_elem_of_filter, elem_of_seqZ in Hin.
  simpl. unfold to_peer. split; [lia|]. destruct Hin as [Hin _]. congruence.
Qed.

Lemma run_task_agr n w h g k now net al t w' :
  Inv n w h → Agr n w h g → tasks w !! k = Some (al, t) →
  careful_action (ARun k now net) w = true →
  run_task w k now net al t = Next w' → ∃ g', gext g g' ∧ Agr n w' (evolve_task w t h) g'.
Proof.
  intros HI HA Hk Hcf H. pose proof (agr_task _ _ _ _ HA al t (list_elem_of_lookup_2 _ _ _ Hk)) as Hta.
  assert (∀ i rf, nodes w !! i = Some rf → me rf = i ∧ peers rf = n) as Hpeers
    by (intros i rf Hi; destruct (inv_node _ _ _ HI i rf Hi); done).
  simpl in Hcf. rewrite Hk in Hcf.
  destruct t as [i|i|i|i p|i p args|i p args reply|i p|i p args|i p args reply|i msg|i msg];
    try (by eapply append_call_agr); try (by eapply snapshot_call_agr);
    simpl in H; destruct al; simpl in H; try done.
  - section_inv H. destruct a as [rf' args]. cbn [evolve_task]. rewrite Hi. by eapply election_agr.
  - section_inv H. same g. case_match; [by apply agr_finish|].
    injection Ha as <-. destruct (Hpeers _ _ Hi). by apply spawn_appends_agr.
  - section_inv H. same g. case_match; [by apply agr_finish|].
    injection Ha as <-. destruct (Hpeers _ _ Hi). apply spawn_appends_agr; eauto using agr_finish.
  - section_inv H. same g. rewrite Hi in Hcf. unfold is_leader in Hcf. b2p.
    destruct a as [|args]; apply agr_become; try done. split; [done|]. by eapply leader_args.
  - section_inv H. destruct a as [rf' snap]. destruct Hta as ([Hp Hne] & Hack & Hh).
    destruct (append_reply_agr n w h g i p rf now args reply rf' snap) as (g' & Hg & HA'); try done.
    exists g'. split; [done|]. apply agr_spawn; [|by apply agr_finish].
    intros t. destruct snap; [|by intros ?%not_elem_of_nil]. rewrite list_elem_of_singleton. by intros ->.
  - section_inv H. same g. rewrite Hi in Hcf. unfold is_leader in Hcf. b2p. injection Ha as <-.
    apply agr_become; [|done]. split; [done|]. by eapply leader_snap.
  - section_inv H. same g. destruct Hta as [[Hp Hne] Hack]. apply agr_finish. by eapply snapshot_reply_agr.
  - injection H as <-. same g. apply agr_finish. by apply agr_deliver.
  - injection H as <-. same g. apply agr_finish. by apply agr_deliver.
Qed.

Lemma start_agr n w h g i rf c :
  Inv n w h → Agr n w h g → nodes w !! i = Some rf → state rf = Leader →
  Agr n (set_node i (Start c rf).1 w) (record_start rf c h) g.
Proof.
  intros HI HA Hi Hs. pose proof (agr_peer _ _ _ _ HA i rf Hi) as Hpo0. unfold record_start.
  destruct (list.last (logs rf)) as [e|] eqn:He.
  2: { apply last_None in He. pose proof (wf_logs _ _ (po_wf _ _ _ _ _ Hpo0)) as Hl. by rewrite He in Hl. }
  pose proof (tip_last rf e He) as Htip.
  pose proof (agr_born n w h g i rf (Some c, Term e) HI HA Hi Hs) as HB.
  rewrite Htip in HB. specialize (HB ltac:(eauto) eq_refl). cbn [fst snd] in HB.
  set (h' := record_entry _ _ _ h) in *.
  destruct (Start_effect c rf e He Hs) as (Ht' & Hb' & Hlt & Hci & Hla & Htm & Hst & Hm & Hnx & _).
  destruct (Start_good n c rf (po_wf _ _ _ _ _ Hpo0)) as (r & [= Hr] & Hwf & _). rewrite <- Hr in Hwf.
  set (rf' := (Start c rf).1) in *. clearbody rf'.
  assert (lastIncludedIndex rf' = lastIncludedIndex rf) as Hlii by (by injection Hb').
  assert (anc (born h') (tip rf) (tip rf')) as Hup.
  { rewrite Htip, Ht'. eapply anc_up; [apply lookup_insert_eq|].
    replace (lastLogicalIndex rf + 1 - 1)%Z with (lastLogicalIndex rf) by lia. apply anc_refl. }
  eapply agr_node; [done..|lia| |].
  - destruct (agr_peer _ _ _ _ HB i rf Hi) as [_ Hb Hn Htt Hap (t & Ha & Hc) _ Hle Hma Hnx0].
    split; rewrite ?Hb', ?Hlii, ?Hlt, ?Hci, ?Hla, ?Htm, ?Hst; try done.
    + rewrite Ht'. right. simpl. rewrite lookup_insert_eq. eauto.
    + by rewrite Ht'.
    + exists t. split; [by eapply anc_trans|done].
    + intros _. destruct (Hle Hs) as (e' & ? & ? & _). exists e'. split_and!; [done|by eapply anc_trans|].
      right. by rewrite Ht'.
    + intros _. rewrite Hm. by apply Hma.
    + intros _ p v Hp Hv. rewrite Hnx in Hv. specialize (Hnx0 Hs p v Hp Hv).
      rewrite (tip_eq rf') in Ht' by apply Hwf. injection Ht' as -> _. lia.
  - intros m _ _ Hmt. by eapply anc_trans.
Qed.

(** Every careful action preserves the invariant. *)
Lemma step_agr n w h g a w' :
  Inv n w h → Agr n w h g → careful_action a w = true → step a w = Next w' →
  ∃ g', gext g g' ∧ Agr n w' (evolve a w h) g'.
Proof.
  intros HI HA Hcf H. destruct a as [i now timeout|i c|i index data|i|i|i now|eid p now net|k now net].
  - section_inv H. injection Ha as <-. same g. case_match; [|done]. apply agr_spawn; [|done].
    intros t. rewrite list_elem_of_singleton. by intros ->.
  - section_inv H. injection Ha as <-. same g. cbn [evolve]. rewrite Hi.
    assert (Agr n (set_node i (Start c rf).1 w) (if is_leader rf then record_start rf c h else h) g) as HA'.
    { unfold is_leader. destruct (state rf =? Leader)%Z eqn:Hl; b2p; [by apply start_agr|].
      rewrite Start_follower by done. eapply agr_calm; eauto using calm_refl. apply (agr_peer _ _ _ _ HA i rf Hi). }
    destruct (Start c rf) as [rf' [[? ?] ok]]. apply agr_spawn; [|done].
    intros t. destruct ok; [|by intros ?%not_elem_of_nil]. rewrite list_elem_of_singleton. by intros ->.
  - simpl in H. destruct (nodes w !! i) as [rf|] eqn:Hn; [|done]. case_match; b2p; [|done].
    apply run_section_Next in H as (r & a & Hi & Ha & ->). simplify_eq. same g. by eapply compact_agr.
  - simpl in H. case_match; [done|]. section_inv H. destruct a as [rf' msg]. same g.
    destruct (apply_agr n w h g i rf rf' msg HI HA Hi Ha) as [HA' Hm]. apply agr_spawn; [|done].
    intros t. destruct msg as [m|]; simpl; [|by intros ?%not_elem_of_nil].
    rewrite list_elem_of_singleton. intros ->. by apply Hm.
  - section_inv H. injection Ha as <-. same g. eapply agr_calm; [done..| |].
    + destruct (po_wf _ _ _ _ _ (agr_peer _ _ _ _ HA i rf Hi)). by split.
    + split; try done. by right.
  - destruct (nodes w !! i) as [rf|] eqn:Hi; [|by simpl in H; rewrite Hi in H].
    same g. by eapply restart_agr.
  - simpl in H |- *. destruct (elections w !! eid) eqn:He; [|done].
    destruct (vcalls w !! (eid, p)) eqn:Hp; [|done]. same g. by eapply run_vote_agr.
  - simpl in H |- *. destruct (tasks w !! k) as [[al t]|] eqn:Hk; [|done]. by eapply run_task_agr.
Qed.

Lemma init_agr n now : (0 ≤ n)%Z → Agr n (init n now) (mkHist ∅ (λ _, ∅) ∅) (mkGhost ∅ ∅).
Proof.
  intros Hn. split; try done.
  - split; try done; [intros k u [x Hx]; done|intros k k' u [x Hx]; done].
  - intros i rf [_ ->]%init_lookup. split; simpl; try done.
    + split; simpl; try done; try (unfold zlen; rewrite length_replicate; lia). by right; right.
    + by left.
    + exists 0%Z. split; [apply anc_refl|by left].
  - intros p m rf _ (x & Hx & _). done.
  - intros al t. simpl. by intros ?%not_elem_of_nil.
  - intros i msg. simpl. rewrite lookup_empty. simpl. by intros ?%not_elem_of_nil.
Qed.

Lemma run_agr n acts w h g w' :
  Inv n w h → Agr n w h g → careful acts w = true → run acts w = Next w' →
  ∃ h' g', extends h h' ∧ gext g g' ∧ Inv n w' h' ∧ Agr n w' h' g'.
Proof.
  revert w h g. induction acts as [|a acts IH]; intros w h g HI HA Hcf H; simpl in H, Hcf.
  - simplify_eq. exists h, g. split_and!; try done. 
  - destruct (step a w) as [| |w1] eqn:Hs; try done. apply andb_true_iff in Hcf as [Hc1 Hc2].
    destruct (step_inv n w h a w1 HI Hs) as [He1 HI1].
    destruct (step_agr n w h g a w1 HI HA Hc1 Hs) as (g1 & Hg1 & HA1).
    destruct (IH w1 _ g1 HI1 HA1 Hc2 H) as (h2 & g2 & He2 & Hg2 & ? & ?).
    exists h2, g2. split_and!; try done; [by eapply extends_trans|].
    destruct Hg1, Hg2. split; by etrans.
Qed.
End agreement.
