(* ===== verification/RaftConsensus.v ===== *)
(** * State machine safety, leader completeness and panic freedom

    What the invariant of [RaftCommit] gives for the careful executions of
    [RaftAgreement]: the services never disagree on a command, no later leader
    misses a committed entry, and no goroutine panics. *)

From S2P Require Import Prelude Persister RaftTypes RaftHandlers RaftLeader RaftNet RaftEffects RaftLocal RaftInv RaftSafety.
From S2P Require Import RaftTraces RaftTree RaftMoves RaftCommit RaftPreserve RaftAgreement.

Section consensus.
Context {Cmd : Type} `{!Gob (PersistentState Cmd)}.
Implicit Types (rf : Raft Cmd) (w : World Cmd) (h : Hist (Cmd := Cmd)) (g : Ghost).

(** The invariants at the two ends of a careful execution. *)
Lemma careful_exec n now acts w acts' w' :
  (0 ≤ n)%Z → run acts (init n now) = Next w → careful acts (init n now) = true →
  run acts' w = Next w' → careful acts' w = true →
  ∃ h g h' g', Inv n w h ∧ Agr n w h g ∧ extends h h' ∧ gext g g' ∧ Inv n w' h' ∧ Agr n w' h' g'.
Proof.
  intros Hn H1 C1 H2 C2.
  destruct (run_agr n acts (init n now) _ _ w (init_inv n now Hn) (init_agr n now Hn) C1 H1)
    as (h & g & _ & _ & HI & HA).
  destruct (run_agr n acts' w h g w' HI HA C2 H2) as (h' & g' & ? & ? & ? & ?).
  exists h, g, h', g'. by split_and!.
Qed.

(** Two committed entries of one index are one entry. *)
Lemma committed_same n w h g u u' j t t' :
  Inv n w h → Agr n w h g → committed n (born h) g u (j, t) → committed n (born h) g u' (j, t') →
  t = t'.
Proof.
  intros HI HA H1 H2. assert (anc (born h) (j, t) (j, t')) as Ha by (by eapply committed_linear).
  apply anc_same in Ha; [by injection Ha|done].
Qed.

(** An entry of the log up to the commit index is committed. *)
Lemma log_committed n w h g i rf k e :
  Inv n w h → Agr n w h g → nodes w !! i = Some rf →
  (lastIncludedIndex rf < k ≤ commitIndex rf)%Z → entry_at rf k = Some e →
  committed n (born h) g (currTerm rf) (k, Term e) ∧
  ∃ t, born h !! (k, Term e) = Some (Command e, t).
Proof.
  intros HI HA Hi Hk He. pose proof (agr_peer _ _ _ _ HA i rf Hi) as Hpo.
  pose proof (to_tree _ _ _ (agr_tree _ _ _ _ HA)) as Htr.
  destruct (entry_born (born h) rf k e) as [Ha Hb]; [apply (inv_node _ _ _ HI i rf Hi)|lia|done|].
  split; [|done]. destruct (po_commit _ _ _ _ _ Hpo) as (t & Hat & Hc).
  eapply (committed_anc n _ _ _ _ (commitIndex rf, t)); [done| | |done].
  - eapply anc_node; [done|apply Hpo|done].
  - eapply anc_linear; [done..|]. simpl. lia.
Qed.

(** A leader's log has every entry committed up to its term. *)
Lemma leader_committed n w h g i rf x :
  Inv n w h → Agr n w h g → nodes w !! i = Some rf → state rf = Leader →
  committed n (born h) g (currTerm rf) x → anc (born h) x (tip rf).
Proof.
  intros HI HA Hi Hs Hc. eapply leader_tops; eauto.
  eapply committed_lnode; [done..|reflexivity|]. by eapply leader_lnode.
Qed.

(** C3. State machine safety: in a careful execution no two services are ever
    given different commands for the same log index, at the same time or at
    different times, whatever the network loses, delays or reorders, whichever
    servers crash, and however the logs are compacted. *)
Theorem state_machine_safety n now acts w acts' w' i j mi mj :
  (0 ≤ n)%Z → run acts (init n now) = Next w → careful acts (init n now) = true →
  run acts' w = Next w' → careful acts' w = true →
  mi ∈ default [] (delivered w !! i) → mj ∈ default [] (delivered w' !! j) →
  CommandValid mi = true → CommandValid mj = true → CommandIndex mi = CommandIndex mj →
  MsgCommand mi = MsgCommand mj.
Proof.
  intros Hn H1 C1 H2 C2 Hi Hj Hvi Hvj Heq.
  destruct (careful_exec n now acts w acts' w' Hn H1 C1 H2 C2)
    as (h & g & h' & g' & HI & HA & [_ Hb] & Hg & HI' & HA').
  apply (agr_delivered _ _ _ _ HA) in Hi. apply (agr_delivered _ _ _ _ HA') in Hj.
  destruct (msg_ok_mono n _ _ _ _ _ Hb Hg Hi Hvi) as (u & t & p & Hbi & Hci).
  destruct (Hj Hvj) as (u' & t' & p' & Hbj & Hcj). rewrite Heq in Hbi, Hci.
  assert (t = t') as <- by (by eapply committed_same). congruence.
Qed.

(** C4. Leader completeness: in a careful execution an entry that some server
    knows to be committed is in the log of every later leader of the same or a
    higher term, unless that leader has compacted it. *)
Theorem leader_completeness n now acts w acts' w' i j rf rf' k e :
  (0 ≤ n)%Z → run acts (init n now) = Next w → careful acts (init n now) = true →
  run acts' w = Next w' → careful acts' w = true →
  nodes w !! i = Some rf → (lastIncludedIndex rf < k ≤ commitIndex rf)%Z → entry_at rf k = Some e →
  nodes w' !! j = Some rf' → state rf' = Leader → (currTerm rf ≤ currTerm rf')%Z →
  (k ≤ lastLogicalIndex rf')%Z ∧ ((lastIncludedIndex rf' < k)%Z → entry_at rf' k = Some e).
Proof.
  intros Hn H1 C1 H2 C2 Hi Hk He Hj Hs Hle.
  destruct (careful_exec n now acts w acts' w' Hn H1 C1 H2 C2)
    as (h & g & h' & g' & HI & HA & [_ Hb] & Hg & HI' & HA').
  destruct (log_committed n w h g i rf k e HI HA Hi Hk He) as [Hc [t Hbk]].
  apply (committed_mono n _ _ _ _ _ _ Hb Hg), (committed_le n _ _ _ _ _ Hle) in Hc.
  pose proof (leader_committed n w' h' g' j rf' _ HI' HA' Hj Hs Hc) as Ha.
  pose proof (agr_peer _ _ _ _ HA' j rf' Hj) as Hpo.
  pose proof (nok_chain _ _ _ _ (inv_node _ _ _ HI' j rf' Hj)) as Hch. split.
  - apply anc_index in Ha. rewrite tip_eq in Ha by apply Hpo. done.
  - intros Hlt. pose proof (anc_term_at _ _ _ _ Hch Ha ltac:(lia)) as Hta.
    apply term_at_Some in Hta as (e' & He' & Hte).
    destruct (entry_born _ rf' k e' Hch Hlt He') as (_ & t' & Hbk').
    rewrite Hte, (lookup_weaken _ _ _ _ Hbk Hb) in Hbk'. injection Hbk' as Hcmd _.
    unfold entry_at. rewrite He'. destruct e, e'. simpl in *. by subst.
Qed.

(** ** No careful action panics *)

Lemma run_section_panic {A} w i (f : Raft Cmd → option A) (k : A → World Cmd) :
  run_section w i f k = Panicked → ∃ rf, nodes w !! i = Some rf ∧ f rf = None.
Proof.
  unfold run_section. destruct (nodes w !! i) as [rf|]; [|done].
  destruct (f rf) eqn:Hf; [done|]. eauto.
Qed.

Lemma good_not_None {B} n rf (f : B → Raft Cmd) (o : option B) : good n rf (f <$> o) → o ≠ None.
Proof. intros (r & Hr & _) ->. done. Qed.

Ltac panic_inv H :=
  let rf := fresh "rf" in let Hi := fresh "Hi" in let Hf := fresh "Hf" in
  apply run_section_panic in H as (rf & Hi & Hf).

Lemma vote_no_panic n w h g eid p now net e ph :
  Agr n w h g → run_vote w eid p now net e ph ≠ Panicked.
Proof.
  intros HA H. pose proof (λ i rf Hi, po_wf _ _ _ _ _ (agr_peer _ _ _ _ HA i rf Hi)) as Hwf.
  destruct ph; simpl in H.
  - destruct net; try done; panic_inv H;
      by apply (good_not_None _ _ _ _ (RequestVote_good n now (el_args e) rf (Hwf _ _ Hi))).
  - destruct (el_alive e); [|done]. by panic_inv H.
  - destruct (el_alive e); [|done]. panic_inv H.
    by apply (good_not_None _ _ _ _ (becomeLeader_good n (rva_Term (el_args e)) rf (Hwf _ _ Hi))).
  - destruct (el_alive e); [|done]. by panic_inv H.
Qed.

(** A leader's [nextIndex] stays inside its log, so the slice of
    [makeAppendEntry] does. *)
Lemma makeAppendEntry_total n w h g i p rf :
  Agr n w h g → nodes w !! i = Some rf → state rf = Leader → (0 ≤ p < n)%Z → p ≠ i →
  makeAppendEntry p rf ≠ None.
Proof.
  intros HA Hi Hs Hp Hne. pose proof (agr_peer _ _ _ _ HA i rf Hi) as Hpo.
  pose proof (po_wf _ _ _ _ _ Hpo) as Hwf.
  destruct (go_nth_is_Some (nextIndex rf) p) as [ni Hni]; [destruct Hwf; lia|].
  pose proof (po_next _ _ _ _ _ Hpo Hs p ni Hne Hni).
  destruct (decide (ni ≤ lastIncludedIndex rf)%Z).
  - unfold makeAppendEntry. rewrite Hni. cbn [mbind option_bind]. by rewrite (proj2 (Z.leb_le _ _)).
  - destruct (makeAppendEntry_spec n p rf ni Hwf Hni) as (t & _ & ->); [lia|done].
Qed.

Lemma task_no_panic n w h g k now net al t :
  Agr n w h g → tasks w !! k = Some (al, t) → careful_action (ARun k now net) w = true →
  run_task w k now net al t ≠ Panicked.
Proof.
  intros HA Hk Hcf H. pose proof (λ i rf Hi, po_wf _ _ _ _ _ (agr_peer _ _ _ _ HA i rf Hi)) as Hwf.
  pose proof (agr_task _ _ _ _ HA al t (list_elem_of_lookup_2 _ _ _ Hk)) as Hta.
  simpl in Hcf. rewrite Hk in Hcf.
  destruct t as [i|i|i|i p|i p args|i p args reply|i p|i p args|i p args reply|i msg|i msg]; simpl in H;
    try (destruct al; simpl in H; [|done]); try done;
    try match type of H with context [match net with _ => _ end] => destruct net; try done end;
    panic_inv H; try done; pose proof (Hwf _ _ Hi) as Hw.
  - by apply (good_not_None _ _ _ _ (startElection_good n now rf Hw)).
  - rewrite Hi in Hcf. unfold is_leader in Hcf. b2p. destruct Hta.
    by apply (makeAppendEntry_total n w h g i p rf).
  - destruct (AppendEntries_spec n now args rf Hw) as (? & ? & ? & _). congruence.
  - destruct (AppendEntries_spec n now args rf Hw) as (? & ? & ? & _). congruence.
  - destruct Hta as ([Hp _] & _). by apply (good_not_None _ _ _ _ (append_reply_good n now p args reply rf Hw Hp)).
  - destruct (InstallSnapshot_spec n now args rf Hw) as (? & ? & ? & ? & _). congruence.
  - destruct (InstallSnapshot_spec n now args rf Hw) as (? & ? & ? & ? & _). congruence.
  - destruct Hta as [[Hp _] _].
    destruct (snapshot_reply_good n now p args reply rf Hw Hp) as (? & ? & _). congruence.
Qed.

(** C9. Panic freedom: in a careful execution no handler, service call or
    goroutine section of any server ever indexes or slices out of range, so no
    server process dies of its own; the run [RaftTraces.stale_match_panic_run]
    shows that the restriction to careful executions is needed. *)
Theorem careful_no_panic n now acts w a :
  (0 ≤ n)%Z → run acts (init n now) = Next w → careful acts (init n now) = true →
  careful_action a w = true → step a w ≠ Panicked.
Proof.
  intros Hn H1 C1 Ca H.
  destruct (careful_exec n now acts w [] w Hn H1 C1 eq_refl eq_refl) as (h & g & _ & _ & _ & HA & _).
  pose proof (λ i rf Hi, agr_peer _ _ _ _ HA i rf Hi) as Hpo.
  destruct a as [i t timeout|i c|i index data|i|i|i t|eid p t net|k t net].
  - by panic_inv H.
  - by panic_inv H.
  - simpl in H. destruct (nodes w !! i) as [rf|] eqn:Hi; [|done]. case_match; b2p; [|done].
    apply run_section_panic in H as (r & Hr & Hf). simplify_eq. pose proof (Hpo _ _ Hi) as Hp.
    pose proof (commit_in_log _ _ _ _ _ Hp). pose proof (po_applied _ _ _ _ _ Hp).
    destruct (Snapshot_good n index data rf (po_wf _ _ _ _ _ Hp)) as (? & ? & _); [lia..|congruence].
  - simpl in H. case_match; [done|]. apply run_section_panic in H as (rf & Hi & Hf).
    by apply (good_not_None _ _ _ _ (sendApplyMsg_good n rf (po_wf _ _ _ _ _ (Hpo _ _ Hi)))).
  - by panic_inv H.
  - simpl in H. destruct (nodes w !! i); done.
  - simpl in H. destruct (elections w !! eid); [|done]. destruct (vcalls w !! (eid, p)); [|done].
    by eapply vote_no_panic.
  - simpl in H. destruct (tasks w !! k) as [[al tk]|] eqn:Hk; [|done]. by eapply task_no_panic.
Qed.
End consensus.

(** ** The restriction excludes the two defects

    The runs of [RaftTraces] that break agreement are not careful. *)
Example defects_not_careful :
  careful stale_append_run (init 3 0) = false ∧ careful stale_match_run (init 5 0) = false.
Proof. split; vm_compute; reflexivity. Qed.

(** ** An execution with a change of leader

    Server 0 leads term 1, replicates 100 to server 1 and commits and delivers
    it; server 1 leads term 2, commits 200 with server 0 and delivers 100. *)
Definition first_run : list (Action Z) := good_run ++ good_tail ++ [AApply 0] ++ go 2 1.
Definition second_run : list (Action Z) := elect 1 2 2 ++ vote 1 2 ++ promote 1 2.
Definition third_run : list (Action Z) := client 1 200 ++ go 3 1 ++ go 3 3 ++ [AApply 1] ++ go 4 1.

Definition con_w : World Z := world_of (run first_run (init 3 0)).
Definition con_w' : World Z := world_of (run (second_run ++ third_run) con_w).

Definition msg_100 : ApplyMsg Z := mkApplyMsg true (Some 100%Z) 1 false [] 0 0.

Lemma con_runs :
  run first_run (init 3 0) = Next con_w ∧ careful first_run (init 3 0) = true ∧
  run (second_run ++ third_run) con_w = Next con_w' ∧ careful (second_run ++ third_run) con_w = true.
Proof. split_and!; vm_compute; reflexivity. Qed.

Lemma con_delivered : delivered con_w !! 0%Z = Some [msg_100] ∧ delivered con_w' !! 1%Z = Some [msg_100].
Proof. split; vm_compute; reflexivity. Qed.

Lemma state_machine_safety_witness :
  msg_100 ∈ default [] (delivered con_w !! 0%Z) ∧ MsgCommand msg_100 = MsgCommand msg_100.
Proof.
  destruct con_runs as (H1 & C1 & H2 & C2). destruct con_delivered as [D0 D1].
  assert (msg_100 ∈ default [] (delivered con_w !! 0%Z)) as Hin by (rewrite D0; apply list_elem_of_here).
  split; [exact Hin|].
  apply (state_machine_safety 3 0 first_run con_w (second_run ++ third_run) con_w' 0 1).
  - lia.
  - exact H1.
  - exact C1.
  - exact H2.
  - exact C2.
  - exact Hin.
  - rewrite D1. apply list_elem_of_here.
  - reflexivity.
  - reflexivity.
  - reflexivity.
Defined.

Lemma leader_completeness_witness :
  (1 ≤ lastLogicalIndex (the_node 1 con_w'))%Z ∧
  entry_at (the_node 1 con_w') 1 = Some (mkLogEntry 1 (Some 100%Z)).
Proof.
  destruct con_runs as (H1 & C1 & H2 & C2).
  destruct (leader_completeness 3 0 first_run con_w (second_run ++ third_run) con_w' 0 1
    (the_node 0 con_w) (the_node 1 con_w') 1 (mkLogEntry 1 (Some 100%Z))) as [Hl He].
  - lia.
  - exact H1.
  - exact C1.
  - exact H2.
  - exact C2.
  - vm_compute. reflexivity.
  - vm_compute. split; (reflexivity || discriminate).
  - vm_compute. reflexivity.
  - vm_compute. reflexivity.
  - vm_compute. reflexivity.
  - vm_compute. discriminate.
  - split; [exact Hl|]. apply He. vm_compute. reflexivity.
Defined.

Lemma careful_no_panic_witness : step (ARun 2 0 Delivered) con_w' ≠ Panicked.
Proof.
  apply (careful_no_panic 3 0 (first_run ++ second_run ++ third_run)).
  - lia.
  - vm_compute. reflexivity.
  - vm_compute. reflexivity.
  - vm_compute. reflexivity.
Defined.
