(* ===== verification/RaftStream.v ===== *)
(** * What the services receive is one log

    Executions in which the services never call [Snapshot] (maxraftstate -1, a
    setting of cmd/kvcluster): every service is given the commands of one
    common log, from index 1 on, in order and without gaps or repetitions
    between two restarts of its server. *)

From S2P Require Import Prelude Persister RaftTypes RaftHandlers RaftLeader RaftNet RaftEffects RaftLocal RaftInv RaftSafety.
From S2P Require Import RaftTraces RaftTree RaftMoves RaftCommit RaftPreserve RaftAgreement RaftConsensus.

Section stream.
Context {Cmd : Type} `{!Gob (PersistentState Cmd)}.
Implicit Types (rf : Raft Cmd) (w : World Cmd) (ts : list (bool * Task Cmd)).

(** No compaction. *)
Definition plain_action (a : Action Cmd) : bool :=
  match a with ASnapshot _ _ _ => false | _ => true end.

(** The message for a command. *)
Definition command_msg (k : nat) (c : Cmd) : ApplyMsg Cmd :=
  mkApplyMsg true (Some c) (Z.of_nat k + 1) false [] 0 0.

(** The messages for the first commands of a log. *)
Definition log_msgs (G : list Cmd) : list (ApplyMsg Cmd) := imap command_msg G.

(** ** The invariant *)

(** The message a goroutine of server [i] waits to deliver. *)
Definition pend_msg (i : Z) (p : bool * Task Cmd) : option (ApplyMsg Cmd) :=
  match p with
  | (true, TSendCommand j m) => if (i =? j)%Z then Some m else None
  | _ => None
  end.

Definition pend (i : Z) ts : list (ApplyMsg Cmd) := omap (pend_msg i) ts.

(** Delivered, and on the way. *)
Definition stream_of w (i : Z) : list (ApplyMsg Cmd) :=
  default [] (delivered w !! i) ++ pend i (tasks w).

Definition in_sequence (l : list (ApplyMsg Cmd)) : Prop :=
  ∀ k m, l !! k = Some m → ∃ c, m = mkApplyMsg true c (Z.of_nat k + 1) false [] 0 0.

Definition plain_task (t : Task Cmd) : Prop :=
  match t with
  | TSnapshot _ _ | TSnapshotCall _ _ _ | TSnapshotReply _ _ _ _ | TSendSnapshot _ _ => False
  | TAppendReply _ _ _ reply => (0 ≤ aer_ConflictIndex reply)%Z
  | _ => True
  end.

Record plain_peer (i : Z) rf : Prop := {
  pp_lii : lastIncludedIndex rf = 0%Z;
  pp_snap : snapshot (persister rf) = [];
  pp_next : state rf = Leader → ∀ p v, p ≠ i → go_nth (nextIndex rf) p = Some v → (1 ≤ v)%Z
}.

Record Plain w : Prop := {
  pl_peer i rf : nodes w !! i = Some rf → plain_peer i rf;
  pl_task al t : (al, t) ∈ tasks w → plain_task t;
  pl_seq i : in_sequence (stream_of w i);
  pl_len i rf : nodes w !! i = Some rf → zlen (stream_of w i) = lastApplied rf;
  pl_one i : length (pend i (tasks w)) ≤ 1
}.

(** ** Goroutines *)

Definition is_send (t : Task Cmd) : bool := match t with TSendCommand _ _ => true | _ => false end.

Lemma pend_app i ts ts' : pend i (ts ++ ts') = pend i ts ++ pend i ts'.
Proof. apply omap_app. Qed.

Lemma pend_none i ts : (∀ al t, (al, t) ∈ ts → is_send t = false) → pend i ts = [].
Proof.
  intros H. induction ts as [|[al t] ts IH]; [done|].
  assert (is_send t = false) as Ht by (apply (H al); set_solver).
  assert (pend_msg i (al, t) = None) as Hn by (by destruct al, t).
  unfold pend. cbn [omap list_omap]. rewrite Hn. apply IH. set_solver.
Qed.

Lemma pend_delete i ts k p : ts !! k = Some p → pend_msg i p = None → pend i (delete k ts) = pend i ts.
Proof.
  intros Hk Hp. rewrite <- (take_drop_middle _ _ _ Hk) at 2. rewrite delete_take_drop.
  unfold pend. rewrite !omap_app. simpl. by rewrite Hp.
Qed.

Lemma pend_alter i ts k al t t' :
  ts !! k = Some (al, t) → is_send t = false → is_send t' = false →
  pend i (alter (λ p, (p.1, t')) k ts) = pend i ts.
Proof.
  intros Hk H1 H2. apply take_drop_middle in Hk as Hts. pose proof (lookup_lt_Some _ _ _ Hk) as Hlt.
  rewrite <- Hts, alter_app_r_alt by (rewrite length_take; lia).
  rewrite length_take, Nat.min_l, Nat.sub_diag by lia. unfold pend. rewrite !omap_app.
  f_equal. cbn. by destruct al, t, t'.
Qed.

(** A change of the goroutines that neither adds nor removes a message. *)
Lemma plain_set_tasks w ts :
  Plain w → (∀ al t, (al, t) ∈ ts → plain_task t) → (∀ i, pend i ts = pend i (tasks w)) →
  Plain (set_tasks ts w).
Proof.
  intros [Hp Ht Hs Hl Ho] Hts Hpe. split; try done; unfold stream_of; simpl; intros; rewrite Hpe;
    [apply Hs|by apply Hl|apply Ho].
Qed.

Lemma plain_spawn w (us : list (Task Cmd)) :
  Plain w → (∀ t, t ∈ us → plain_task t ∧ is_send t = false) → Plain (spawn us w).
Proof.
  intros HP Hts. apply plain_set_tasks; [done| |].
  - intros al t. rewrite elem_of_app, list_elem_of_fmap. intros [?|(t' & ? & ?)];
      [by eapply pl_task|]. simplify_eq. by apply Hts.
  - intros i. rewrite pend_app, (pend_none i (_ <$> us)), app_nil_r; [done|].
    intros al t Hin. apply list_elem_of_fmap in Hin as (t' & ? & ?). simplify_eq. by apply Hts.
Qed.

Lemma plain_finish w k al t :
  Plain w → tasks w !! k = Some (al, t) → is_send t = false → Plain (finish k w).
Proof.
  intros HP Hk Hs. apply plain_set_tasks; [done| |].
  - intros al' t' Hin. eapply pl_task; [done|]. eapply list_elem_of_delete_inv, Hin.
  - intros i. eapply pend_delete; [done|]. by destruct al, t.
Qed.

Lemma plain_become w k al t t' :
  Plain w → tasks w !! k = Some (al, t) → is_send t = false → is_send t' = false →
  plain_task t' → Plain (become k t' w).
Proof.
  intros HP Hk Hs Hs' Ht. apply plain_set_tasks; [done| |].
  - intros al' u Hin. apply list_elem_of_lookup in Hin as (j & Hj). rewrite list_lookup_alter in Hj.
    case_decide; [subst j|eapply pl_task, list_elem_of_lookup_2, Hj; done].
    rewrite Hk in Hj. by simplify_eq/=.
  - intros i. by eapply pend_alter.
Qed.

(** Changes elsewhere. *)
Lemma plain_ext w w' :
  nodes w' = nodes w → tasks w' = tasks w → delivered w' = delivered w → Plain w → Plain w'.
Proof.
  intros Hn Ht Hd [Hp Hta Hs Hl Ho].
  split; unfold stream_of in *; rewrite ?Hn, ?Ht, ?Hd; done.
Qed.

Lemma plain_node w i rf rf' :
  Plain w → nodes w !! i = Some rf → plain_peer i rf' → lastApplied rf' = lastApplied rf →
  Plain (set_node i rf' w).
Proof.
  intros [Hp Ht Hs Hl Ho] Hi Hpp Hla. split; try done; simpl; intros j rfj Hj;
    rewrite lookup_insert in Hj; case_decide; simplify_eq.
  - done.
  - by apply Hp.
  - rewrite Hla. by apply (Hl j).
  - by apply (Hl j).
Qed.

Lemma plain_calm w i rf rf' :
  Plain w → nodes w !! i = Some rf → calm rf rf' → Plain (set_node i rf' w).
Proof.
  intros HP Hi [_ Hli _ _ Hla Hsn _ Hr]. destruct (pl_peer _ HP i rf Hi) as [H1 H2 H3].
  eapply plain_node; [done..| |done]. split; [congruence..|].
  intros Hs. destruct Hr as [Hr|(Hs' & _ & _ & ->)]; [by rewrite Hr in Hs|]. apply H3. congruence.
Qed.

(** ** Sections *)

Lemma clamp_next_pos p rf rf' :
  clamp_next p rf = Some rf' → ∀ q v, go_nth (nextIndex rf') q = Some v →
  (1 ≤ v)%Z ∨ (q ≠ p ∧ go_nth (nextIndex rf) q = Some v).
Proof.
  unfold clamp_next. intros H q v Hv. apply bind_Some in H as (ni & Hni & H).
  destruct (decide (q = p)) as [->|Hne].
  - left. case_match; b2p; [apply bind_Some in H as (nx & Hnx & H)|]; go_inv.
    + apply go_set_Some in Hnx as [Hb ->]. apply go_nth_Some in Hv as [_ Hv]. simpl in Hv.
      rewrite list_lookup_insert_eq in Hv by (unfold zlen in Hb; lia). injection Hv as <-. lia.
    + rewrite Hni in Hv. injection Hv as <-. lia.
  - right. split; [done|]. case_match; [apply bind_Some in H as (nx & Hnx & H)|]; go_inv; [|done].
    by destruct (go_set_nth _ _ _ _ _ _ Hnx Hv) as [[? _]|?].
Qed.

(** A reply leaves every [nextIndex] positive, and asks for a snapshot only
    when the hint is before the leader's own. *)
Lemma append_reply_next n now p args reply rf rf' snap :
  wf n rf → append_reply now p args reply rf = Some (rf', snap) →
  (∀ q v, go_nth (nextIndex rf') q = Some v → go_nth (nextIndex rf) q = Some v ∨ (1 ≤ v)%Z) ∧
  (snap = true → (aer_ConflictIndex reply < lastIncludedIndex rf)%Z).
Proof.
  intros Hwf H. unfold append_reply in H. do 3 (case_match; [go_inv; split; [by left|done]|]).
  case_match.
  - apply bind_Some in H as (m & Hm & H). apply bind_Some in H as (mi & Hmi & H).
    apply bind_Some in H as (nx & Hnx & H). apply bind_Some in H as (rf1 & Hc & H).
    apply bind_Some in H as (rf2 & Hn & H). injection H as <- <-. split; [|done].
    intros q v Hv. destruct (clamp_next_pos _ _ _ Hn q v Hv) as [?|[Hne Hq]]; [by right|left].
    assert (nextIndex rf1 = nx) as E.
    { destruct (commitIndexUpdate_spec n (set_nextIndex nx (set_matchIndex mi rf))) as (N & HN & _).
      - apply go_set_Some in Hmi as [_ ->]. apply go_set_Some in Hnx as [_ ->].
        destruct Hwf. split; simpl; rewrite ?zlen_insert; done.
      - rewrite Hc in HN. by injection HN as ->. }
    rewrite E in Hq. by destruct (go_set_nth _ _ _ _ _ _ Hnx Hq) as [[? _]|?].
  - apply bind_Some in H as (plan & Hplan & H). unfold backup_index in Hplan.
    destruct plan as [nx|].
    + apply bind_Some in H as (rf1 & Hc & H). injection H as <- <-. split; [|done].
      intros q v Hv. destruct (clamp_next_pos _ _ _ Hc q v Hv) as [?|[Hne Hq]]; [by right|left].
      simpl in Hq. repeat (case_match; try done); go_inv;
        match goal with Hs : go_set _ _ _ = Some _ |- _ =>
          by destruct (go_set_nth _ _ _ _ _ _ Hs Hq) as [[? _]|?] end.
    + go_inv. split; [by left|]. intros _. repeat (case_match; try done); b2p; go_inv; done.
Qed.

Lemma AppendEntries_hint_pos n now args rf rf' reply :
  wf n rf → AppendEntries now args rf = Some (rf', reply) → (0 ≤ aer_ConflictIndex reply)%Z.
Proof.
  intros Hwf. unfold AppendEntries. case_match; b2p; [intros [= <- <-]; simpl; lia|].
  destruct (accept_wf n now args rf Hwf) as ([] & Hlg & Hli & _); [done|].
  set (rf1 := AppendEntries_accept now args rf) in *. clearbody rf1.
  case_match; b2p; [intros [= <- <-]; unfold lastLogicalIndex; simpl; lia|].
  case_match; b2p; [intros [= <- <-]; simpl; lia|].
  intros Hr. apply bind_Some in Hr as (prev & Hp & Hr).
  case_match; [|apply bind_Some in Hr as (x & _ & Hr); injection Hr as _ <-; simpl; lia].
  apply bind_Some in Hr as (ci & Hci & Hr). injection Hr as _ <-. simpl.
  destruct (conflict_scan_spec rf1 (Term prev)
    (Z.to_nat (aea_PrevLogIndex args - lastIncludedIndex rf1)) 0) as (ci' & Hci' & Hcase).
  { unfold lastLogicalIndex in *. lia. }
  rewrite Hci in Hci'. injection Hci' as <-. destruct Hcase as [[-> _]|(? & _)]; lia.
Qed.

Lemma plain_steady w i rf rf' :
  Plain w → nodes w !! i = Some rf → steady rf rf' →
  (∀ q v, go_nth (nextIndex rf') q = Some v → go_nth (nextIndex rf) q = Some v ∨ (1 ≤ v)%Z) →
  Plain (set_node i rf' w).
Proof.
  intros HP Hi [Hl Hli _ Hla _ Hst Hsn _ _] Hnx. destruct (pl_peer _ HP i rf Hi) as [H1 H2 H3].
  eapply plain_node; [done..| |done]. split; [congruence..|].
  intros Hs p v Hp Hv. destruct (Hnx p v Hv); [|done]. eapply H3; eauto. congruence.
Qed.

(** ** Delivery *)

Lemma idle_pend i ts : existsb (sending_command i) ts = false → pend i ts = [].
Proof.
  induction ts as [|[al t] ts IH]; [done|]. simpl. rewrite orb_false_iff. intros [H1 H2].
  unfold pend in *. cbn. rewrite (IH H2).
  destruct al, t; try done. simpl in *. case_bool_decide; [done|].
  by rewrite (proj2 (Z.eqb_neq _ _)).
Qed.

Lemma pend_send i j m : pend j [(true, TSendCommand i m)] = if decide (i = j) then [m] else [].
Proof.
  unfold pend. cbn. case_decide as Hd; [subst; by rewrite Z.eqb_refl|].
  by rewrite (proj2 (Z.eqb_neq _ _)).
Qed.

Lemma in_sequence_app l m :
  in_sequence l → (∃ c, m = mkApplyMsg true c (zlen l + 1) false [] 0 0) → in_sequence (l ++ [m]).
Proof.
  intros Hl [c Hm] k x Hx. apply lookup_app_Some in Hx as [Hx|[Hk Hx]]; [by apply Hl|].
  apply list_lookup_singleton_Some in Hx as [Hz <-]. exists c. rewrite Hm. unfold zlen.
  do 2 f_equal. lia.
Qed.

(** [sendApplyMsg] adds the next message. *)
Lemma plain_send w i rf rf' c :
  Plain w → nodes w !! i = Some rf → existsb (sending_command i) (tasks w) = false →
  plain_peer i rf' → lastApplied rf' = (lastApplied rf + 1)%Z →
  Plain (spawn [TSendCommand i (mkApplyMsg true c (lastApplied rf + 1) false [] 0 0)]
           (set_node i rf' w)).
Proof.
  intros [Hp Ht Hs Hl Ho] Hi Hid Hpp Hla. pose proof (idle_pend _ _ Hid) as Hnil.
  set (m := mkApplyMsg true c (lastApplied rf + 1) false [] 0 0).
  assert (∀ j, pend j (tasks w ++ [(true, TSendCommand i m)]) =
    pend j (tasks w) ++ if decide (i = j) then [m] else []) as Hpend.
  { intros j. by rewrite pend_app, pend_send. }
  assert (∀ j, stream_of (spawn [TSendCommand i m] (set_node i rf' w)) j =
    stream_of w j ++ if decide (i = j) then [m] else []) as Hst.
  { intros j. unfold stream_of. simpl. by rewrite Hpend, app_assoc. }
  split; simpl.
  - intros j rfj Hj. rewrite lookup_insert in Hj. case_decide; simplify_eq; [done|by apply Hp].
  - intros al t. rewrite elem_of_app, list_elem_of_singleton. intros [?|?]; [by eapply Ht|].
    by simplify_eq.
  - intros j. rewrite Hst. case_decide; [subst j|by rewrite app_nil_r].
    apply in_sequence_app; [done|]. exists c. by rewrite (Hl i rf Hi).
  - intros j rfj Hj. rewrite Hst, lookup_insert in *. case_decide; simplify_eq.
    + rewrite zlen_app, (Hl j rf Hi), zlen_cons, zlen_nil. lia.
    + rewrite app_nil_r. by apply Hl.
  - intros j. rewrite Hpend. case_decide; [subst j; by rewrite Hnil|by rewrite app_nil_r].
Qed.

(** The service takes the message. *)
Lemma plain_deliver w k i m :
  Plain w → tasks w !! k = Some (true, TSendCommand i m) →
  Plain (finish k (set_delivered
    (<[i := default [] (delivered w !! i) ++ [m]]> (delivered w)) w)).
Proof.
  intros [Hp Ht Hs Hl Ho] Hk. pose proof (take_drop_middle _ _ _ Hk) as Hts.
  assert (pend_msg i (true, TSendCommand i m) = Some m) as Hm by (simpl; by rewrite Z.eqb_refl).
  assert (pend i (tasks w) = pend i (take k (tasks w)) ++ m :: pend i (drop (S k) (tasks w))) as Hpe.
  { rewrite <- Hts at 1. unfold pend. rewrite omap_app. cbn [omap list_omap]. by rewrite Hm. }
  pose proof (Ho i) as Hone. rewrite Hpe, length_app in Hone. simpl in Hone.
  assert (pend i (take k (tasks w)) = []) as Hn1 by (apply length_zero_iff_nil; lia).
  assert (pend i (drop (S k) (tasks w)) = []) as Hn2 by (apply length_zero_iff_nil; lia).
  rewrite Hn1, Hn2 in Hpe. simpl in Hpe.
  assert (∀ j, pend j (delete k (tasks w)) = if decide (i = j) then [] else pend j (tasks w)) as Hdel.
  { intros j. case_decide as Hd.
    - subst j. rewrite delete_take_drop, pend_app, Hn1, Hn2. done.
    - eapply pend_delete; [done|]. simpl. rewrite (proj2 (Z.eqb_neq _ _)) by congruence. done. }
  set (w' := finish k _).
  assert (∀ j, stream_of w' j = stream_of w j) as Hst.
  { intros j. unfold stream_of, w'. simpl. rewrite lookup_insert, Hdel.
    case_decide; [subst j|done]. simpl. by rewrite Hpe, app_nil_r. }
  split; simpl; try done.
  - intros al t Hin. eapply Ht, list_elem_of_delete_inv, Hin.
  - intros j. by rewrite Hst.
  - intros j rfj Hj. rewrite Hst. by apply Hl.
  - intros j. rewrite Hdel. case_decide; [simpl; lia|done].
Qed.

(** ** Actions *)

Lemma pend_mark i j ts :
  pend j ((λ p, (p.1 && negb (owner p.2 =? i)%Z, p.2)) <$> ts) =
  if decide (i = j) then [] else pend j ts.
Proof.
  unfold pend. induction ts as [|[al t] ts IH]; [by case_decide|]. rewrite fmap_cons.
  assert (∀ p ts', omap (pend_msg j) (p :: ts') = match pend_msg j p with Some m => [m] | None => [] end
    ++ omap (pend_msg j) ts') as Hc by (intros p ts'; cbn; by destruct (pend_msg j p)).
  rewrite !Hc, IH. clear IH Hc. destruct al, t; simpl; try done; try (by destruct (negb _)).
  destruct (i0 =? i)%Z eqn:E; b2p; simpl.
  - subst. case_decide as Hd; [done|]. by rewrite (proj2 (Z.eqb_neq _ _)) by congruence.
  - case_decide as Hd; [subst j|done]. by rewrite (proj2 (Z.eqb_neq _ _)) by congruence.
Qed.

Lemma restart_plain n w h g i now rf w' :
  Inv n w h → Agr n w h g → Plain w → nodes w !! i = Some rf →
  step (ARestart i now) w = Next w' → Plain w'.
Proof.
  intros HI HA HP Hi H. unfold step in H. rewrite Hi in H.
  destruct (pl_peer _ HP i rf Hi) as [Hlii Hsn _]. destruct (inv_node _ _ _ HI i rf Hi) as [_ _ Hsy _ _].
  destruct (Make_effect (peers rf) i rf now Hsy) as (_ & Hli & _ & _ & _ & Hla & Hs & _ & _ & _ & Hpe); [lia|].
  assert ((Make (peers rf) i (persister rf) now).2 = None) as Hmsg.
  { unfold Make, ReadSnapshot. simpl. by rewrite clone_eq, Hsn. }
  destruct (Make (peers rf) i (persister rf) now) as [rf' msg]. simpl in *. subst msg.
  injection H as <-. apply plain_spawn; [|by intros t ?%not_elem_of_nil].
  destruct HP as [Hp Ht Hsq Hl Ho].
  split; unfold stream_of; simpl.
  - intros j rfj Hj. rewrite lookup_insert in Hj. case_decide; simplify_eq; [|by apply Hp].
    split; [congruence..|]. by rewrite Hs.
  - intros al t Hin. apply list_elem_of_fmap in Hin as ([al' t'] & ? & ?). simplify_eq/=. by eapply Ht.
  - intros j. rewrite pend_mark, lookup_insert. case_decide; [by intros k m|]. apply (Hsq j).
  - intros j rfj Hj. rewrite pend_mark, lookup_insert. rewrite lookup_insert in Hj.
    case_decide; simplify_eq.
    + simpl. rewrite zlen_nil. lia.
    + by apply (Hl j).
  - intros j. rewrite pend_mark. case_decide; [simpl; lia|apply Ho].
Qed.

Lemma run_vote_plain n w h g eid p now net e ph w' :
  Inv n w h → Agr n w h g → Plain w → run_vote w eid p now net e ph = Next w' → Plain w'.
Proof.
  intros HI HA HP H.
  assert (∀ rf rf' es vc, nodes w !! el_cand e = Some rf → calm rf rf' →
    Plain (set_vcalls vc (set_elections es (set_node (el_cand e) rf' w)))) as Hcand.
  { intros rf rf' es vc Hi Hc. by eapply (plain_ext (set_node (el_cand e) rf' w)), plain_calm. }
  destruct ph; simpl in H.
  - destruct net; [..|injection H as <-; by eapply (plain_ext w)];
      apply run_section_Next in H as (rf & [rf' r] & Hi & Ha & ->);
      (eapply (plain_ext (set_node p rf' w)); [done..|]); eapply plain_calm; eauto using RequestVote_calm.
  - destruct (el_alive e); [|done]. apply run_section_Next in H as (rf & [[rf' v] el] & Hi & Ha & ->).
    injection Ha as Ha. pose proof (vote_reply_calm (rva_Term (el_args e)) (el_votes e) reply rf) as Hc.
    rewrite Ha in Hc. eapply Hcand; eauto.
  - destruct (el_alive e); [|done]. apply run_section_Next in H as (rf & [rf' st] & Hi & Ha & ->).
    apply plain_spawn.
    2: { intros t. destruct st; [|by intros ?%not_elem_of_nil]. rewrite list_elem_of_singleton. by intros ->. }
    eapply (plain_ext (set_node (el_cand e) rf' w)); [done..|].
    destruct (becomeLeader_effect _ _ _ _ Ha) as [->|(_ & _ & _ & _ & Hli & _ & _ & Hla & _ & _ & Hsn & Hnx)].
    { eapply plain_calm; eauto using calm_refl. }
    destruct (pl_peer _ HP _ _ Hi) as [H1 H2 _]. destruct (inv_node _ _ _ HI _ _ Hi) as [Hme Hpe _ _ _].
    pose proof (po_wf _ _ _ _ _ (agr_peer _ _ _ _ HA _ _ Hi)) as Hwf.
    assert (wf n rf') as Hwf' by (eapply good_Some; [by apply becomeLeader_good|done|done]).
    eapply plain_node; [done..| |done]. split; [congruence..|]. intros _ q v Hq Hv.
    rewrite (Hnx q v); [|congruence| |done].
    + destruct Hwf. unfold lastLogicalIndex. lia.
    + apply go_nth_bounds in Hv. destruct Hwf'. lia.
  - destruct (el_alive e); [|done]. apply run_section_Next in H as (rf & rf' & Hi & Ha & ->).
    injection Ha as <-. eapply (plain_ext (set_node (el_cand e) _ w)); [done..|].
    eapply plain_calm; eauto using vote_termCheck_calm.
Qed.

Lemma append_call_plain n w h g k i p args now net al w' :
  Inv n w h → Agr n w h g → Plain w → tasks w !! k = Some (al, TAppendCall i p args) →
  run_task w k now net al (TAppendCall i p args) = Next w' → Plain w'.
Proof.
  intros HI HA HP Hk H. pose proof (list_elem_of_lookup_2 _ _ _ Hk) as Hin.
  pose proof (inv_task _ _ _ HI al _ Hin) as Hch. simpl in Hch.
  assert (∀ rf rf' reply, nodes w !! p = Some rf → AppendEntries now args rf = Some (rf', reply) →
    Plain (set_node p rf' w) ∧ (0 ≤ aer_ConflictIndex reply)%Z) as Hrun.
  { intros rf rf' reply Hi Ha. pose proof (po_wf _ _ _ _ _ (agr_peer _ _ _ _ HA _ _ Hi)) as Hwf.
    split; [|by eapply AppendEntries_hint_pos].
    pose proof (AppendEntries_effect n (born h) now args rf rf' reply Hwf
      (nok_chain _ _ _ _ (inv_node _ _ _ HI p rf Hi)) Hch Ha) as Heff.
    destruct (aer_Success reply); [|by eapply plain_calm].
    destruct Heff as (_ & _ & Hs & _ & Hb & _ & Hla & _ & Hsn).
    destruct (pl_peer _ HP _ _ Hi) as [H1 H2 _]. eapply plain_node; [done..| |done].
    injection Hb as Hb _. split; [congruence..|]. by rewrite Hs. }
  destruct net; simpl in H.
  - apply run_section_Next in H as (rf & [rf' reply] & Hi & Ha & ->).
    destruct (Hrun rf rf' reply Hi Ha) as [HP' Hc]. by eapply plain_become.
  - apply run_section_Next in H as (rf & [rf' reply] & Hi & Ha & ->).
    destruct (Hrun rf rf' reply Hi Ha) as [HP' Hc]. by eapply plain_finish.
  - injection H as <-. by eapply plain_finish.
Qed.

Lemma spawn_appends_plain w i (ps : list Z) : Plain w → Plain (spawn (TAppend i <$> ps) w).
Proof.
  intros HP. apply plain_spawn; [done|]. intros t Ht. by apply list_elem_of_fmap in Ht as (p & -> & _).
Qed.

Lemma run_task_plain n w h g k now net al t w' :
  Inv n w h → Agr n w h g → Plain w → tasks w !! k = Some (al, t) →
  careful_action (ARun k now net) w = true → run_task w k now net al t = Next w' → Plain w'.
Proof.
  intros HI HA HP Hk Hcf H. pose proof (list_elem_of_lookup_2 _ _ _ Hk) as Hin.
  pose proof (pl_task _ HP al t Hin) as Hpt. pose proof (agr_task _ _ _ _ HA al t Hin) as Hta.
  pose proof (λ i rf Hi, po_wf _ _ _ _ _ (agr_peer _ _ _ _ HA i rf Hi)) as Hwf.
  simpl in Hcf. rewrite Hk in Hcf.
  destruct t as [i|i|i|i p|i p args|i p args reply|i p|i p args|i p args reply|i msg|i msg]; try done;
    try (by eapply append_call_plain); simpl in H; destruct al; simpl in H; try done;
    try (apply run_section_Next in H as (rf & a & Hi & Ha & ->)).
  - destruct a as [rf' args]. eapply (plain_ext (finish k (set_node i rf' w))); [done..|].
    destruct (startElection_effect n now rf rf' args (Hwf _ _ Hi) Ha)
      as (_ & Hli & _ & _ & Hla & _ & Hs & Hsn & _). destruct (pl_peer _ HP _ _ Hi) as [H1 H2 _].
    eapply plain_finish; [|done..]. eapply plain_node; [done..| |done].
    split; [congruence..|]. by rewrite Hs.
  - case_match; [by eapply plain_finish|by apply spawn_appends_plain].
  - case_match; [by eapply plain_finish|]. apply spawn_appends_plain. by eapply plain_finish.
  - rewrite Hi in Hcf. unfold is_leader in Hcf. b2p. destruct (pl_peer _ HP _ _ Hi) as [H1 _ H3].
    destruct a as [|args]; [|by eapply plain_become]. destruct Hta as [Hp Hne]. exfalso.
    unfold makeAppendEntry in Ha. apply bind_Some in Ha as (ni & Hni & Ha).
    specialize (H3 Hcf p ni Hne Hni). rewrite (proj2 (Z.leb_gt _ _)) in Ha by lia. by go_inv.
  - destruct a as [rf' snap].
    destruct (append_reply_next n now p args reply rf rf' snap (Hwf _ _ Hi) Ha) as [Hnx Hsn].
    destruct snap; [destruct (pl_peer _ HP _ _ Hi) as [H1 _ _]; simpl in Hpt; specialize (Hsn eq_refl); lia|].
    apply plain_spawn; [|by intros t ?%not_elem_of_nil]. eapply plain_finish; [|done..].
    destruct (append_reply_effect n now p args reply rf rf' false (Hwf _ _ Hi) Ha)
      as [Hc|[(_ & _ & _ & Hst & _)|(_ & _ & Hst & _)]];
      [by eapply plain_calm|by eapply plain_steady..].
  - injection H as <-. by apply plain_deliver.
Qed.

Lemma step_plain n w h g a w' :
  Inv n w h → Agr n w h g → Plain w → careful_action a w = true → plain_action a = true →
  step a w = Next w' → Plain w'.
Proof.
  intros HI HA HP Hcf Hpl H. destruct a as [i now timeout|i c|i index data|i|i|i now|eid p now net|k now net].
  - apply run_section_Next in H as (rf & a & Hi & Ha & ->). case_match; [|done].
    apply plain_spawn; [done|]. intros t. rewrite list_elem_of_singleton. by intros ->.
  - apply run_section_Next in H as (rf & a & Hi & Ha & ->). injection Ha as <-.
    assert (Plain (set_node i (Start c rf).1 w)) as HP'.
    { destruct (pl_peer _ HP _ _ Hi) as [H1 H2 H3]. unfold Start. case_match; b2p; [by eapply plain_calm, calm_refl|].
      by eapply plain_node. }
    destruct (Start c rf) as [rf' [[? ?] ok]]. apply plain_spawn; [done|].
    intros t. destruct ok; [|by intros ?%not_elem_of_nil]. rewrite list_elem_of_singleton. by intros ->.
  - done.
  - simpl in H. destruct (existsb _ _) eqn:Hid; [done|]. apply run_section_Next in H as (rf & [rf' msg] & Hi & Ha & ->).
    destruct (sendApplyMsg_effect _ _ _ Ha) as [[-> ->]|(e & -> & _ & _ & ->)].
    + apply plain_spawn; [|by intros t ?%not_elem_of_nil]. eapply plain_calm; eauto using calm_refl.
    + destruct (pl_peer _ HP _ _ Hi) as [H1 H2 H3]. by apply plain_send.
  - apply run_section_Next in H as (rf & a & Hi & Ha & ->). injection Ha as <-.
    eapply plain_calm; [done..|]. split; try done. by right.
  - destruct (nodes w !! i) as [rf|] eqn:Hi; [|by simpl in H; rewrite Hi in H]. by eapply restart_plain.
  - simpl in H. destruct (elections w !! eid); [|done]. destruct (vcalls w !! (eid, p)); [|done].
    by eapply run_vote_plain.
  - simpl in H. destruct (tasks w !! k) as [[al t]|] eqn:Hk; [|done]. by eapply run_task_plain.
Qed.

Lemma init_plain n now : Plain (init n now).
Proof.
  split; try done.
  - intros i rf [_ ->]%init_lookup. by split.
  - intros al t. by intros ?%not_elem_of_nil.
  - intros i rf [_ ->]%init_lookup. unfold stream_of. simpl. by rewrite lookup_empty.
  - intros i. simpl. lia.
Qed.

Lemma run_plain n acts w h g w' :
  Inv n w h → Agr n w h g → Plain w → careful acts w = true → forallb plain_action acts = true →
  run acts w = Next w' → ∃ h' g', extends h h' ∧ gext g g' ∧ Inv n w' h' ∧ Agr n w' h' g' ∧ Plain w'.
Proof.
  revert w h g. induction acts as [|a acts IH]; intros w h g HI HA HP Hcf Hpl H; simpl in *.
  - simplify_eq. exists h, g. by split_and!.
  - destruct (step a w) as [| |w1] eqn:Hs; try done.
    apply andb_true_iff in Hcf as [Hc1 Hc2]. apply andb_true_iff in Hpl as [Hp1 Hp2].
    destruct (step_inv n w h a w1 HI Hs) as [He1 HI1].
    destruct (step_agr n w h g a w1 HI HA Hc1 Hs) as (g1 & Hg1 & HA1).
    destruct (IH w1 (evolve a w h) g1) as (h2 & g2 & He2 & Hg2 & ?); try done; [by apply (step_plain n w h g a w1)|].
    exists h2, g2. split_and!; [by eapply extends_trans|destruct Hg1, Hg2; split; by etrans|naive_solver..].
Qed.

(** ** One log *)

(** The commands on the path to a node. *)
Lemma path_commands n h g x :
  tree_ok n h g → is_node (born h) x →
  ∃ G : list Cmd, zlen G = x.1 ∧
    ∀ k t c p, anc (born h) (k, t) x → born h !! (k, t) = Some (c, p) → G !! Z.to_nat (k - 1) = c.
Proof.
  intros Ht Hx. pose proof (to_tree _ _ _ Ht) as Htr.
  pose proof (proj1 (node_index _ _ Htr Hx)) as H0.
  remember (Z.to_nat x.1) as d eqn:Hd. revert x Hx H0 Hd.
  induction d as [d IH] using lt_wf_ind. intros [k u] Hx H0 Hd. simpl in *.
  destruct Hx as [Hr|[[c p] Hb]].
  { unfold root in Hr. simplify_eq. exists []. split; [done|]. intros k t c p Ha Hb.
    apply anc_index in Ha. destruct (Htr _ _ _ _ Hb). simpl in *. lia. }
  destruct (Htr _ _ _ _ Hb) as (Hk & _ & _ & Hp). destruct (to_cmd _ _ _ Ht _ _ _ Hb) as [cmd ->].
  destruct (IH (Z.to_nat (k - 1)) ltac:(lia) ((k - 1)%Z, p) Hp) as (G & Hlen & HG); [simpl; lia..|].
  exists (G ++ [cmd]). simpl in Hlen. unfold zlen in Hlen. split.
  { unfold zlen. rewrite length_app. simpl. lia. }
  intros k' t c' p' Ha Hb'. inversion Ha as [|? ? ? ? Hb2 Ha']; subst.
  - simplify_eq. replace (Z.to_nat (k - 1)) with (length G) by lia. apply list_lookup_middle. done.
  - simplify_eq. pose proof (anc_index _ _ _ Ha') as Hle. pose proof (Htr _ _ _ _ Hb'). simpl in Hle.
    rewrite lookup_app_l by lia. by eapply HG.
Qed.

(** Finitely many committed entries are on one committed path. *)
Lemma committed_path n w h g (l : list Node) :
  Inv n w h → Agr n w h g → (∀ x, x ∈ l → ∃ u, committed n (born h) g u x) →
  ∃ u y, committed n (born h) g u y ∧ ∀ x, x ∈ l → anc (born h) x y.
Proof.
  intros HI HA. induction l as [|x l IH]; intros Hl.
  { exists 0%Z, root. split; [by left|]. by intros x ?%not_elem_of_nil. }
  destruct IH as (u & y & Hy & Hall); [set_solver|]. destruct (Hl x) as [u' Hx]; [set_solver|].
  destruct (decide (x.1 ≤ y.1)%Z).
  - exists u, y. split; [done|]. intros z [->|Hz]%elem_of_cons; [by eapply committed_linear|auto].
  - exists u', x. split; [done|]. intros z [->|Hz]%elem_of_cons; [apply anc_refl|].
    eapply anc_trans; [by apply Hall|]. eapply committed_linear; eauto. lia.
Qed.

(** The entry of a delivered message. *)
Lemma delivered_node n w h g i msg :
  Agr n w h g → msg ∈ default [] (delivered w !! i) → CommandValid msg = true →
  ∃ t p u, born h !! (CommandIndex msg, t) = Some (MsgCommand msg, p) ∧
           committed n (born h) g u (CommandIndex msg, t).
Proof.
  intros HA Hin Hv. destruct (agr_delivered _ _ _ _ HA i msg Hin Hv) as (u & t & p & ? & ?). eauto.
Qed.

(** Every message of every service. *)
Definition all_delivered w : list (ApplyMsg Cmd) := concat ((map_to_list (delivered w)).*2).

Lemma elem_of_all_delivered w m :
  m ∈ all_delivered w ↔ ∃ i, m ∈ default [] (delivered w !! i).
Proof.
  unfold all_delivered. rewrite list_elem_of_In, in_concat. split.
  - intros (l & Hl & Hm). apply list_elem_of_In in Hl, Hm.
    apply list_elem_of_fmap in Hl as ([i l'] & -> & Hl). apply elem_of_map_to_list in Hl.
    exists i. by rewrite Hl.
  - intros [i Hin]. destruct (delivered w !! i) as [l|] eqn:Hl; simpl in Hin; [|by apply not_elem_of_nil in Hin].
    exists l. rewrite <- !list_elem_of_In. split; [|done].
    apply list_elem_of_fmap. exists (i, l). split; [done|]. by apply elem_of_map_to_list.
Qed.

(** The committed entries of a list of delivered messages. *)
Lemma message_nodes n w h g (l : list (ApplyMsg Cmd)) :
  Agr n w h g → (∀ m, m ∈ l → ∃ i, m ∈ default [] (delivered w !! i)) →
  ∃ ns : list Node, (∀ x, x ∈ ns → ∃ u, committed n (born h) g u x) ∧
    ∀ m, m ∈ l → CommandValid m = true → ∃ t p, (CommandIndex m, t) ∈ ns ∧
      born h !! (CommandIndex m, t) = Some (MsgCommand m, p).
Proof.
  intros HA. induction l as [|m l IH]; intros Hl; [exists []; set_solver|].
  destruct IH as (ns & H1 & H2); [set_solver|]. destruct (CommandValid m) eqn:Hv.
  - destruct (Hl m) as [i Hi]; [set_solver|].
    destruct (delivered_node n w h g i m HA Hi Hv) as (t & p & u & Hb & Hc).
    exists ((CommandIndex m, t) :: ns). split; [set_solver|].
    intros m' [->|Hm']%elem_of_cons Hv'; [exists t, p; set_solver|].
    destruct (H2 m' Hm' Hv') as (t' & p' & ? & ?). exists t', p'. set_solver.
  - exists ns. split; [done|]. intros m' [->|Hm']%elem_of_cons Hv'; [congruence|auto].
Qed.

(** [G] is the list of commands on the path to [y]. *)
Definition commands_to (b : Born Cmd) (y : Node) (G : list Cmd) : Prop :=
  zlen G = y.1 ∧ ∀ k t c p, anc b (k, t) y → b !! (k, t) = Some (c, p) → G !! Z.to_nat (k - 1) = c.

(** [G] is the commands up to a committed entry that every delivered command is
    on the path to. *)
Definition logged n w h g (G : list Cmd) : Prop :=
  ∃ u y, committed n (born h) g u y ∧ commands_to (born h) y G ∧
    ∀ i msg, msg ∈ default [] (delivered w !! i) → CommandValid msg = true →
      ∃ t p, born h !! (CommandIndex msg, t) = Some (MsgCommand msg, p) ∧
        anc (born h) (CommandIndex msg, t) y.

Lemma logged_at n w h g G i msg :
  logged n w h g G → msg ∈ default [] (delivered w !! i) → CommandValid msg = true →
  G !! Z.to_nat (CommandIndex msg - 1) = MsgCommand msg.
Proof.
  intros (u & y & _ & [_ HG] & Hd) Hin Hv. destruct (Hd i msg Hin Hv) as (t & p & Hb & Ha).
  by eapply HG.
Qed.

(** Every index up to a node has its entry on the path. *)
Lemma path_entry (b : Born Cmd) x k :
  tree b → is_node b x → (1 ≤ k ≤ x.1)%Z → ∃ t c p, anc b (k, t) x ∧ b !! (k, t) = Some (c, p).
Proof.
  intros Htr. remember (Z.to_nat (x.1 - k)) as d eqn:Hd. revert x Hd.
  induction d as [|d IH]; intros [k' u] Hd Hx Hk; simpl in *.
  - destruct Hx as [Hr|[[c p] Hb]]; [unfold root in Hr; simplify_eq; lia|].
    assert (k = k') as -> by lia. exists u, c, p. split; [apply anc_refl|done].
  - destruct Hx as [Hr|[[c p] Hb]]; [unfold root in Hr; simplify_eq; lia|].
    destruct (Htr _ _ _ _ Hb) as (_ & _ & _ & Hn).
    destruct (IH ((k' - 1)%Z, p)) as (t & c' & p' & Ha & Hb'); [simpl; lia|done|simpl; lia|].
    exists t, c', p'. split; [|done]. by eapply anc_up.
Qed.

(** Later on the same path, more commands. *)
Lemma commands_prefix (b b' : Born Cmd) y y' (G G' : list Cmd) :
  tree b → is_node b y → b ⊆ b' → anc b' y y' → commands_to b y G → commands_to b' y' G' →
  G `prefix_of` G'.
Proof.
  intros Htr Hy Hb Ha [Hl HG] [Hl' HG']. pose proof (anc_index _ _ _ Ha) as Hle. unfold zlen in *.
  assert (G = take (length G) G') as ->; [|apply prefix_take].
  apply list_eq. intros k. destruct (decide (k < length G)) as [Hk|Hk].
  - rewrite lookup_take_lt by done.
    destruct (path_entry b y (Z.of_nat k + 1) Htr Hy) as (t & c & p & Hk1 & Hbk); [lia|].
    pose proof (HG _ _ _ _ Hk1 Hbk) as E.
    pose proof (HG' _ t c p (anc_trans _ _ _ _ (anc_mono _ _ _ _ Hb Hk1) Ha) (lookup_weaken _ _ _ _ Hbk Hb)) as E'.
    replace (Z.to_nat (Z.of_nat k + 1 - 1)) with k in * by lia. congruence.
  - rewrite lookup_take_ge by lia. apply lookup_ge_None. lia.
Qed.

(** The log only grows. *)
Lemma logged_grow n w h g w' h' g' G :
  Inv n w h → Agr n w h g → logged n w h g G →
  extends h h' → gext g g' → Inv n w' h' → Agr n w' h' g' →
  ∃ G', G `prefix_of` G' ∧ logged n w' h' g' G'.
Proof.
  intros HI HA (u & y & Hy & HG & _) [_ Hb] Hg HI' HA'. pose proof (agr_tree _ _ _ _ HA') as Ht'.
  destruct (message_nodes n w' h' g' (all_delivered w') HA') as (ns & H1 & H2);
    [intros m; apply elem_of_all_delivered|].
  destruct (committed_path n w' h' g' (y :: ns) HI' HA') as (u' & y' & Hy' & Hanc).
  { intros x [->|Hx]%elem_of_cons; [exists u; by eapply committed_mono|auto]. }
  destruct (path_commands n h' g' y' Ht') as (G' & Hl' & HG').
  { apply (committed_node n h' g' u' y'); [apply (inv_n _ _ _ HI')|done..]. }
  exists G'. split.
  - eapply (commands_prefix (born h) (born h') y y'); try done.
    + apply (agr_tree _ _ _ _ HA).
    + apply (committed_node n h g u y); [apply (inv_n _ _ _ HI)|apply (agr_tree _ _ _ _ HA)|done].
    + apply Hanc, list_elem_of_here.
  - exists u', y'. split_and!; [done..|]. intros i msg Hin Hv.
    destruct (H2 msg) as (t & p & Hin' & Hbm); [apply elem_of_all_delivered; eauto|done|].
    exists t, p. split; [done|]. by apply Hanc, list_elem_of_further.
Qed.

Lemma init_logged n now : logged n (init n now) (mkHist ∅ (λ _, ∅) ∅) (mkGhost ∅ ∅) [].
Proof.
  exists 0%Z, root. split_and!; [by left|by split|].
  intros i msg. simpl. rewrite lookup_empty. simpl. by intros ?%not_elem_of_nil.
Qed.

(** What a service has is the messages of the log's first commands. *)
Lemma plain_log_msgs n w h g (G : list Cmd) i msgs :
  Agr n w h g → Plain w → logged n w h g G → delivered w !! i = Some msgs →
  msgs = log_msgs (take (length msgs) G).
Proof.
  intros HA HP HG Hi. pose proof (pl_seq _ HP i) as Hseq. unfold stream_of in Hseq. rewrite Hi in Hseq. simpl in Hseq.
  assert (∀ k m, msgs !! k = Some m → ∃ c, G !! k = Some c ∧ m = command_msg k c) as Hmsg.
  { intros k m Hk. destruct (Hseq k m) as [c ->]; [by apply lookup_app_l_Some|].
    pose proof (logged_at n w h g G i _ HG ltac:(rewrite Hi; by eapply list_elem_of_lookup_2) eq_refl) as HGk.
    simpl in HGk.
    replace (Z.to_nat (Z.of_nat k + 1 - 1)) with k in HGk by lia.
    destruct (agr_delivered _ _ _ _ HA i (mkApplyMsg true c (Z.of_nat k + 1) false [] 0 0)) as (u & t & p & Hb & _).
    { rewrite Hi. simpl. by eapply list_elem_of_lookup_2. } { done. }
    destruct (to_cmd _ _ _ (agr_tree _ _ _ _ HA) _ _ _ Hb) as [c' Hc']. simpl in Hc'. exists c'. by rewrite HGk, Hc'. }
  apply list_eq. intros k. unfold log_msgs. rewrite list_lookup_imap.
  destruct (msgs !! k) as [m|] eqn:Hk.
  - destruct (Hmsg k m Hk) as (c & HGk & ->). rewrite lookup_take_lt by (by eapply lookup_lt_Some).
    by rewrite HGk.
  - apply lookup_ge_None in Hk. by rewrite lookup_take_ge.
Qed.

Lemma one_log_delivered n now acts w :
  (0 ≤ n)%Z → run acts (init n now) = Next w → careful acts (init n now) = true →
  forallb plain_action acts = true →
  ∃ G : list Cmd, ∀ i msgs, delivered w !! i = Some msgs →
    msgs = log_msgs (take (length msgs) G).
Proof.
  intros Hn Hrun Hcf Hpl. pose proof (init_inv (Cmd := Cmd) n now Hn) as HI0.
  pose proof (init_agr (Cmd := Cmd) n now Hn) as HA0.
  destruct (run_plain n acts (init n now) _ _ w HI0 HA0 (init_plain n now) Hcf Hpl Hrun)
    as (h & g & He & Hg & HI & HA & HP).
  destruct (logged_grow n _ _ _ w h g [] HI0 HA0 (init_logged n now) He Hg HI HA) as (G & _ & HG).
  exists G. intros i msgs Hi. by eapply plain_log_msgs.
Qed.

(** One log: in a careful execution without compaction there is one list of
    commands such that every service has received exactly the messages of its
    first commands, at indices 1, 2, ... in order, none twice and none
    skipped, whichever servers crashed and whoever led. *)
Theorem delivered_log_prefix n now acts w :
  (0 ≤ n)%Z → run acts (init n now) = Next w → careful acts (init n now) = true →
  forallb plain_action acts = true →
  ∃ G : list Cmd, ∀ i msgs, delivered w !! i = Some msgs →
    msgs = log_msgs (take (length msgs) G).
Proof. apply one_log_delivered. Qed.

(** ** A leader's own commands *)

(** [Start] puts its command into the tree. *)
Lemma start_born n w h i rf c rf' index term w' :
  Inv n w h → nodes w !! i = Some rf → Start c rf = (rf', (index, term, true)) →
  step (AStart i c) w = Next w' →
  state rf = Leader ∧ term = currTerm rf ∧ rf' = (Start c rf).1 ∧
  ∃ p, born (evolve (AStart i c) w h) !! (index, term) = Some (Some c, p).
Proof.
  intros HI Hi Hst _. cbn [evolve]. rewrite Hi. unfold is_leader, Start in *.
  destruct (state rf =? Leader)%Z eqn:Hl; [|done]. b2p. simpl in *. injection Hst as <- <- <-.
  split_and!; try done. unfold record_start.
  destruct (list.last (logs rf)) as [e|] eqn:He.
  - exists (Term e). simpl. apply lookup_insert_eq.
  - apply last_None in He. pose proof (nok_chain _ _ _ _ (inv_node _ _ _ HI i rf Hi)) as Hc.
    by rewrite He in Hc.
Qed.

(** While a server leads the term in which it appended an entry, what its
    service is given at that index is that entry. *)
Lemma own_entry n w h g i rf msgs msg c p :
  Inv n w h → Agr n w h g → Plain w → nodes w !! i = Some rf → state rf = Leader →
  delivered w !! i = Some msgs → msg ∈ msgs →
  born h !! (CommandIndex msg, currTerm rf) = Some (c, p) → MsgCommand msg = c.
Proof.
  intros HI HA HP Hi Hs Hd Hin Hb. pose proof (agr_peer _ _ _ _ HA i rf Hi) as Hpo.
  assert (stream_of w i = msgs ++ pend i (tasks w)) as Hstr by (unfold stream_of; by rewrite Hd).
  pose proof Hin as [k Hk]%list_elem_of_lookup.
  destruct (pl_seq _ HP i k msg) as [c' ->]; [rewrite Hstr; by apply lookup_app_l_Some|].
  destruct (agr_delivered _ _ _ _ HA i (mkApplyMsg true c' (Z.of_nat k + 1) false [] 0 0)) as (u & t & p' & Hb' & Hc);
    [by rewrite Hd|done|]. cbn [CommandIndex MsgCommand] in *.
  destruct (po_commit _ _ _ _ _ Hpo) as (tc & Hatc & Hcc).
  assert (anc (born h) (Z.of_nat k + 1, t)%Z (tip rf)) as Ha1.
  { eapply anc_trans; [|exact Hatc]. eapply committed_linear; eauto. cbn [fst].
    pose proof (pl_len _ HP i rf Hi) as Hlen. rewrite Hstr in Hlen. unfold zlen in Hlen. rewrite length_app in Hlen.
    pose proof (lookup_lt_Some _ _ _ Hk). pose proof (po_applied _ _ _ _ _ Hpo). lia. }
  assert (anc (born h) (Z.of_nat k + 1, currTerm rf)%Z (tip rf)) as Ha2.
  { eapply leader_tops; eauto. destruct (inv_leader _ _ _ HI i rf Hi Hs) as [Hlead _].
    destruct (po_leader _ _ _ _ _ Hpo Hs) as (e & He & _).
    exists i, e, (Z.of_nat k + 1, currTerm rf)%Z. split_and!; try done; [apply anc_refl|]. right. split; [done|by eexists]. }
  assert ((Z.of_nat k + 1, t)%Z = (Z.of_nat k + 1, currTerm rf)%Z) as Heq.
  { apply (anc_same (born h)); [|done]. by eapply anc_linear. }
  rewrite Heq, Hb in Hb'. by injection Hb' as ->.
Qed.

(** C10. The check behind a reply: in an execution whose steps are careful and
    without log compaction, before and after the command is started, when the
    service of a leader has started a command at some index, and later, leading
    the same term, has been given a message for that index, the message carries
    its own command, so the reply that it computes there is the reply to its own
    request.  Without care the property fails with agreement itself: a stale
    append or a stale matchIndex ([stale_append_breaks_agreement],
    [stale_match_breaks_agreement]) gives services different commands for one
    index. *)
Theorem own_command n now acts w i rf c rf' index term w1 acts' w' rf2 msgs msg :
  (0 ≤ n)%Z → run acts (init n now) = Next w → careful acts (init n now) = true →
  forallb plain_action acts = true →
  nodes w !! i = Some rf → Start c rf = (rf', (index, term, true)) →
  step (AStart i c) w = Next w1 → run acts' w1 = Next w' → careful acts' w1 = true →
  forallb plain_action acts' = true →
  nodes w' !! i = Some rf2 → GetState rf2 = (term, true) →
  delivered w' !! i = Some msgs → msg ∈ msgs → CommandIndex msg = index →
  MsgCommand msg = Some c.
Proof.
  intros Hn H1 C1 P1 Hi Hst Hs H2 C2 P2 Hi2 Hgs Hd Hin Hidx.
  destruct (run_plain n acts (init n now) _ _ w (init_inv n now Hn) (init_agr n now Hn) (init_plain n now) C1 P1 H1)
    as (h & g & _ & _ & HI & HA & HP).
  destruct (start_born n w h i rf c rf' index term w1 HI Hi Hst Hs) as (_ & _ & _ & p & Hb).
  destruct (step_inv n w h _ w1 HI Hs) as [_ HI1].
  destruct (step_agr n w h g (AStart i c) w1 HI HA eq_refl Hs) as (g1 & _ & HA1).
  pose proof (step_plain n w h g (AStart i c) w1 HI HA HP eq_refl eq_refl Hs) as HP1.
  destruct (run_plain n acts' w1 _ g1 w' HI1 HA1 HP1 C2 P2 H2) as (h' & g' & [_ Hbb] & _ & HI' & HA' & HP').
  injection Hgs as Ht Hl. b2p. rewrite <- Ht in Hb. rewrite <- Hidx in Hb.
  eapply (own_entry n w' h' g' i rf2); eauto. by eapply lookup_weaken.
Qed.
End stream.

(** The execution of [RaftConsensus] with a change of leader: both servers
    that have received anything have received the first command. *)
Lemma delivered_log_prefix_witness :
  ∃ G : list Z, [msg_100] = log_msgs (take 1 G).
Proof.
  destruct (delivered_log_prefix 3 0 (first_run ++ second_run ++ third_run) con_w') as [G HG].
  - lia.
  - vm_compute. reflexivity.
  - vm_compute. reflexivity.
  - vm_compute. reflexivity.
  - exists G. apply (HG 1%Z [msg_100]). vm_compute. reflexivity.
Defined.

(** Server 0 starts 100 at index 1 in term 1 and is given it back. *)
Lemma own_command_witness : MsgCommand msg_100 = Some 100%Z.
Proof.
  apply (own_command 3 0 good_run wit_w 0 (the_node 0 wit_w) 100%Z (Start 100%Z (the_node 0 wit_w)).1 1 1
    (world_of (step (AStart 0 100%Z) wit_w)) (go 1 1 ++ go 1 3 ++ [AApply 0] ++ go 2 1) con_w
    (the_node 0 con_w) [msg_100]).
  - lia.
  - vm_compute. reflexivity.
  - vm_compute. reflexivity.
  - vm_compute. reflexivity.
  - vm_compute. reflexivity.
  - vm_compute. reflexivity.
  - vm_compute. reflexivity.
  - vm_compute. reflexivity.
  - vm_compute. reflexivity.
  - vm_compute. reflexivity.
  - vm_compute. reflexivity.
  - vm_compute. reflexivity.
  - vm_compute. reflexivity.
  - apply list_elem_of_here.
  - reflexivity.
Defined.
