(* ===== verification/KVServer.v ===== *)
(** * The replicated key/value server (kvraft/server.go, kvraft/common.go)

    One [KVServer] with its Raft peer.  The RPC handlers run as goroutines that
    take [kv.mu] twice, around a wait on a channel; each definition below is the
    code between two blocking points, so the interleavings of handlers and of
    [applier] are sequences of these definitions.  The reply channels of
    [waitApplied] are objects with identity: [notifyChans] maps a log index to
    a channel, the handler that made the channel keeps it, and both can be out
    of step. *)

From S2P Require Import Prelude Persister RaftTypes RaftHandlers.
From stdpp Require Import strings.

(** ** Data (kvraft/common.go and the types of server.go) *)

Definition Err : Type := string.
Definition OK : Err := "OK".
Definition ErrNoKey : Err := "ErrNoKey".
Definition ErrWrongLeader : Err := "ErrWrongLeader".
Definition ErrTimeOut : Err := "ErrTimeOut".
Definition ErrBadRequest : Err := "ErrBadRequest".

Record PutAppendArgs := mkPutAppendArgs {
  paa_Key : string;
  paa_Value : string;
  paa_Op : string;
  paa_SeqId : Z;
  paa_ClientId : Z
}.

Record PutAppendReply := mkPutAppendReply { par_Err : Err; par_LeaderId : Z }.

Record GetArgs := mkGetArgs { ga_Key : string; ga_SeqId : Z; ga_ClientId : Z }.

Record GetReply := mkGetReply { gr_Err : Err; gr_Value : string; gr_LeaderId : Z }.

Record DeleteArgs := mkDeleteArgs { da_Key : string; da_SeqId : Z; da_ClientId : Z }.

Record DeleteReply := mkDeleteReply { dr_Err : Err; dr_LeaderId : Z }.

Record Op := mkOp {
  op_Type : string;
  op_Key : string;
  op_Value : string;
  op_SeqId : Z;
  op_ClientId : Z
}.

Record OpReply := mkOpReply { or_Err : Err; or_Value : string }.

(** Go's zero value [OpReply{}]. *)
Definition zero_OpReply : OpReply := mkOpReply "" "".

Record LastOpRecord := mkLastOpRecord { LastSeqId : Z; LastReply : OpReply }.

#[export] Instance Op_eq_dec : EqDecision Op.
Proof. solve_decision. Defined.
#[export] Instance OpReply_eq_dec : EqDecision OpReply.
Proof. solve_decision. Defined.
#[export] Instance LastOpRecord_eq_dec : EqDecision LastOpRecord.
Proof. solve_decision. Defined.

#[export] Instance Op_countable : Countable Op.
Proof.
  refine (inj_countable'
    (λ o, (op_Type o, op_Key o, op_Value o, op_SeqId o, op_ClientId o))
    (λ '(t, k, v, s, c), mkOp t k v s c) _). by intros [].
Defined.
#[export] Instance OpReply_countable : Countable OpReply.
Proof.
  refine (inj_countable' (λ r, (or_Err r, or_Value r)) (λ p, mkOpReply p.1 p.2) _). by intros [].
Defined.
#[export] Instance LastOpRecord_countable : Countable LastOpRecord.
Proof.
  refine (inj_countable' (λ r, (LastSeqId r, LastReply r)) (λ p, mkLastOpRecord p.1 p.2) _).
  by intros [].
Defined.

(** What a snapshot carries: the store and the table of last replies. *)
Definition Store : Type := gmap string string.
Definition RecordMap : Type := gmap Z LastOpRecord.
Definition Machine : Type := (Store * RecordMap)%type.

(** ** The state machine *)

Definition getHandler (cmd : Op) (kvStore : Store) : OpReply :=
  match kvStore !! op_Key cmd with
  | Some val => mkOpReply OK val
  | None => mkOpReply ErrNoKey ""
  end.

Definition putHandler (cmd : Op) (kvStore : Store) : Store * OpReply :=
  (<[op_Key cmd := op_Value cmd]> kvStore, mkOpReply OK "").

Definition deleteHandler (cmd : Op) (kvStore : Store) : Store * OpReply :=
  (delete (op_Key cmd) kvStore, mkOpReply OK "").

(** [kv.kvStore[cmd.Key] += cmd.Value]: an absent key reads as the empty string. *)
Definition appendHandler (cmd : Op) (kvStore : Store) : Store * OpReply :=
  (<[op_Key cmd := String.append (default "" (kvStore !! op_Key cmd)) (op_Value cmd)]> kvStore,
   mkOpReply OK "").

Definition applyToStateMachine (cmd : Op) (kvStore : Store) : Store * OpReply :=
  if bool_decide (op_Type cmd = "Get") then (kvStore, getHandler cmd kvStore)
  else if bool_decide (op_Type cmd = "Put") then putHandler cmd kvStore
  else if bool_decide (op_Type cmd = "Append") then appendHandler cmd kvStore
  else if bool_decide (op_Type cmd = "Delete") then deleteHandler cmd kvStore
  else (kvStore, zero_OpReply).

(** The duplicate check and the update of [recordMap] in [applier]. *)
Definition apply_op (cmd : Op) (m : Machine) : Machine * OpReply :=
  let '(kvStore, recordMap) := m in
  let '(kvStore', reply) :=
    match recordMap !! op_ClientId cmd with
    | Some record =>
        if (LastSeqId record >=? op_SeqId cmd)%Z then (kvStore, LastReply record)
        else applyToStateMachine cmd kvStore
    | None => applyToStateMachine cmd kvStore
    end in
  ((kvStore', <[op_ClientId cmd := mkLastOpRecord (op_SeqId cmd) reply]> recordMap), reply).

(** ** The server *)

Section server.
Context `{!Gob (PersistentState Op)} `{!Gob Machine}.

(** [kv.persister] is the object that [kv.rf.persister] points to; [chans]
    holds the buffered channels (capacity 1) that handlers have made, by
    identity, with the reply each one holds. *)
Record KVServer := mkKVServer {
  kv_me : Z;
  kv_rf : Raft Op;
  notifyChans : gmap Z nat;
  kv_dead : Z;
  maxraftstate : Z;
  kv_commitIndex : Z;
  leaderId : Z;
  kvStore : Store;
  recordMap : RecordMap;
  httpSeq : Z;
  chans : list (option OpReply)
}.

Definition set_rf (rf : Raft Op) (kv : KVServer) : KVServer :=
  mkKVServer (kv_me kv) rf (notifyChans kv) (kv_dead kv) (maxraftstate kv) (kv_commitIndex kv)
    (leaderId kv) (kvStore kv) (recordMap kv) (httpSeq kv) (chans kv).
Definition set_notifyChans (m : gmap Z nat) (kv : KVServer) : KVServer :=
  mkKVServer (kv_me kv) (kv_rf kv) m (kv_dead kv) (maxraftstate kv) (kv_commitIndex kv)
    (leaderId kv) (kvStore kv) (recordMap kv) (httpSeq kv) (chans kv).
Definition set_kv_dead (d : Z) (kv : KVServer) : KVServer :=
  mkKVServer (kv_me kv) (kv_rf kv) (notifyChans kv) d (maxraftstate kv) (kv_commitIndex kv)
    (leaderId kv) (kvStore kv) (recordMap kv) (httpSeq kv) (chans kv).
Definition set_kv_commitIndex (i : Z) (kv : KVServer) : KVServer :=
  mkKVServer (kv_me kv) (kv_rf kv) (notifyChans kv) (kv_dead kv) (maxraftstate kv) i
    (leaderId kv) (kvStore kv) (recordMap kv) (httpSeq kv) (chans kv).
Definition set_leaderId (l : Z) (kv : KVServer) : KVServer :=
  mkKVServer (kv_me kv) (kv_rf kv) (notifyChans kv) (kv_dead kv) (maxraftstate kv)
    (kv_commitIndex kv) l (kvStore kv) (recordMap kv) (httpSeq kv) (chans kv).
Definition set_machine (m : Machine) (kv : KVServer) : KVServer :=
  mkKVServer (kv_me kv) (kv_rf kv) (notifyChans kv) (kv_dead kv) (maxraftstate kv)
    (kv_commitIndex kv) (leaderId kv) m.1 m.2 (httpSeq kv) (chans kv).
Definition set_httpSeq (s : Z) (kv : KVServer) : KVServer :=
  mkKVServer (kv_me kv) (kv_rf kv) (notifyChans kv) (kv_dead kv) (maxraftstate kv)
    (kv_commitIndex kv) (leaderId kv) (kvStore kv) (recordMap kv) s (chans kv).
Definition set_chans (c : list (option OpReply)) (kv : KVServer) : KVServer :=
  mkKVServer (kv_me kv) (kv_rf kv) (notifyChans kv) (kv_dead kv) (maxraftstate kv)
    (kv_commitIndex kv) (leaderId kv) (kvStore kv) (recordMap kv) (httpSeq kv) c.

Definition machine (kv : KVServer) : Machine := (kvStore kv, recordMap kv).

Definition Rf (kv : KVServer) : Raft Op := kv_rf kv.

Definition KVKill (kv : KVServer) : KVServer := set_rf (Kill (kv_rf kv)) (set_kv_dead 1 kv).

Definition kv_killed (kv : KVServer) : bool := (kv_dead kv =? 1)%Z.

(** *** Snapshots *)

(** The decoder reads the store, then the table; a decoding error leaves the
    server as it was. *)
Definition restoreSnapshot (data : list byte) (kv : KVServer) : KVServer :=
  match gob_decode (A := Machine) data with
  | None => kv
  | Some m => set_machine m kv
  end.

(** [StartKVServer]: the server, and the message that [raft.Make]'s goroutine
    sends first when a snapshot was saved. *)
Definition StartKVServer (servers self : Z) (ps : Persister) (maxstate now : Z)
    : KVServer * option (ApplyMsg Op) :=
  let '(rf, msg) := Make servers self ps now in
  let kv := mkKVServer self rf ∅ 0 maxstate 0 0 ∅ ∅ 0 [] in
  let snap := ReadSnapshot ps in
  ((if bool_decide (0 < length snap) then restoreSnapshot snap kv else kv), msg).

(** *** [applier], one message *)

(** What happens to the goroutine: it returns to the channel, it panics, or it
    blocks for ever on a full channel while holding [kv.mu]. *)
Inductive Applied := APanic | ABlocked | ADone (kv : KVServer).

(** First section: apply the command, encode a snapshot if one is due. *)
Definition applier_command (cmd : Op) (idx : Z) (kv : KVServer)
    : KVServer * OpReply * option (list byte) :=
  let kv1 := set_kv_commitIndex idx kv in
  let '(m, reply) := apply_op cmd (machine kv1) in
  let kv2 := set_machine m kv1 in
  (kv2, reply,
   if negb (maxraftstate kv2 =? -1)%Z &&
      (RaftStateSize (persister (kv_rf kv2)) >? maxraftstate kv2)%Z
   then Some (gob_encode (machine kv2)) else None).

(** Second section, outside [kv.mu]: [kv.rf.Snapshot(kv.commitIndex, data)]. *)
Definition applier_snapshot (data : option (list byte)) (kv : KVServer) : option KVServer :=
  match data with
  | None => Some kv
  | Some d => rf ← Snapshot (kv_commitIndex kv) d (kv_rf kv); Some (set_rf rf kv)
  end.

(** Third section: hand the reply to the waiting handler, if there is one.
    [None] is a send that blocks. *)
Definition applier_notify (idx : Z) (reply : OpReply) (kv : KVServer) : option KVServer :=
  match notifyChans kv !! idx with
  | None => Some kv
  | Some ch =>
      match chans kv !! ch with
      | Some None => Some (set_chans (<[ch := Some reply]> (chans kv)) kv)
      | _ => None
      end
  end.

(** The [select] with [default] over all waiting handlers: a channel with room
    gets [ErrWrongLeader] and leaves the map.  The loop visits the map in some
    order; the channels of distinct indices are distinct objects, so each
    iteration works on its own channel. *)
Definition notify_room (kv : KVServer) : gmap Z nat :=
  filter (λ p, chans kv !! p.2 = Some None) (notifyChans kv).

Definition applier_dropWaiters (kv : KVServer) : KVServer :=
  let room := notify_room kv in
  set_notifyChans (notifyChans kv ∖ room)
    (set_chans
      (map_fold (λ _ ch cs, <[ch := Some (mkOpReply ErrWrongLeader "")]> cs) (chans kv) room)
      kv).

Definition applier_install (msg : ApplyMsg Op) (kv : KVServer) : KVServer :=
  if (SnapshotIndex msg >? kv_commitIndex kv)%Z
  then applier_dropWaiters
         (restoreSnapshot (Snapshot_ msg) (set_kv_commitIndex (SnapshotIndex msg) kv))
  else kv.

(** The three sections of a command without a handler in between. *)
Definition applier (msg : ApplyMsg Op) (kv : KVServer) : Applied :=
  if CommandValid msg then
    match MsgCommand msg with
    | None => APanic
    | Some cmd =>
        let '(kv1, reply, data) := applier_command cmd (CommandIndex msg) kv in
        match applier_snapshot data kv1 with
        | None => APanic
        | Some kv2 =>
            match applier_notify (CommandIndex msg) reply kv2 with
            | None => ABlocked
            | Some kv3 => ADone kv3
            end
        end
    end
  else if SnapshotValid msg then ADone (applier_install msg kv)
  else ADone kv.

(** *** RPC handlers

    The common first section of [Get], [Delete] and [PutAppend]: answer from
    the record table, refuse when not leader, or start the command. *)

Inductive Started :=
  | SDead                              (** killed: the reply stays empty *)
  | SCached (reply : OpReply)          (** a duplicate: the recorded reply *)
  | SNotLeader (leader : Z)
  | SWait (index startTerm : Z).       (** goes on to [waitApplied] *)

Definition begin_request (command : Op) (kv : KVServer) : KVServer * Started :=
  if kv_killed kv then (kv, SDead)
  else
    let start :=
      let '(rf, (index, startTerm, isLeader)) := Start command (kv_rf kv) in
      if (isLeader : bool) then (set_rf rf kv, SWait index startTerm)
      else (set_rf rf kv, SNotLeader (leaderId kv)) in
    match recordMap kv !! op_ClientId command with
    | Some record =>
        if (op_SeqId command <=? LastSeqId record)%Z then (kv, SCached (LastReply record))
        else start
    | None => start
    end.

(** [waitApplied]: make a channel and register it under the index. *)
Definition waitApplied_register (index : Z) (kv : KVServer) : KVServer * nat :=
  let ch := length (chans kv) in
  (set_notifyChans (<[index := ch]> (notifyChans kv)) (set_chans (chans kv ++ [None]) kv), ch).

(** The two cases of its [select]: a reply is in the channel, or 500 ms are
    over.  After a reply the handler asks Raft whether it still leads the term
    it started in; Raft may have moved on in between. *)
Definition waitApplied_receive (ch : nat) (kv : KVServer) : option (KVServer * OpReply) :=
  match chans kv !! ch with
  | Some (Some opreply) => Some (set_chans (<[ch := None]> (chans kv)) kv, opreply)
  | _ => None
  end.

Definition waitApplied_check (opreply : OpReply) (startTerm : Z) (kv : KVServer) : OpReply * Err :=
  let '(currTerm, isLeader) := GetState (kv_rf kv) in
  (opreply, if negb isLeader || negb (currTerm =? startTerm)%Z then ErrWrongLeader else OK).

Definition waitApplied_timeout : OpReply * Err := (zero_OpReply, ErrTimeOut).

(** The last section of the handlers. *)
Definition end_request (index : Z) (res : OpReply * Err) (kv : KVServer) : KVServer * OpReply :=
  let kv1 := set_notifyChans (delete index (notifyChans kv)) kv in
  if bool_decide (res.2 = OK)
  then (set_leaderId (kv_me kv1) kv1, res.1)
  else (kv1, mkOpReply res.2 "").

(** *** The handlers and [applier] as goroutines *)

Inductive Request :=
  | RGet (args : GetArgs)
  | RDelete (args : DeleteArgs)
  | RPutAppend (args : PutAppendArgs).

Inductive Reply :=
  | ReplyGet (r : GetReply)
  | ReplyDelete (r : DeleteReply)
  | ReplyPutAppend (r : PutAppendReply).

Definition command_of (req : Request) : Op :=
  match req with
  | RGet args => mkOp "Get" (ga_Key args) "" (ga_SeqId args) (ga_ClientId args)
  | RDelete args => mkOp "Delete" (da_Key args) "" (da_SeqId args) (da_ClientId args)
  | RPutAppend args =>
      mkOp (paa_Op args) (paa_Key args) (paa_Value args) (paa_SeqId args) (paa_ClientId args)
  end.

(** The handler's reply from an [OpReply] and the leader it names. *)
Definition Get_reply (r : OpReply) (leader : Z) : GetReply :=
  mkGetReply (or_Err r) (or_Value r) leader.
Definition Delete_reply (r : OpReply) (leader : Z) : DeleteReply :=
  mkDeleteReply (or_Err r) leader.
Definition PutAppend_reply (r : OpReply) (leader : Z) : PutAppendReply :=
  mkPutAppendReply (or_Err r) leader.

Definition fill_reply (req : Request) (r : OpReply) (leader : Z) : Reply :=
  match req with
  | RGet _ => ReplyGet (Get_reply r leader)
  | RDelete _ => ReplyDelete (Delete_reply r leader)
  | RPutAppend _ => ReplyPutAppend (PutAppend_reply r leader)
  end.

(** A handler after its first section. *)
Inductive Handler :=
  | HRegister (req : Request) (index startTerm : Z)
  | HWait (req : Request) (index startTerm : Z) (ch : nat)
  | HCheck (req : Request) (index startTerm : Z) (opreply : OpReply)
  | HFinish (req : Request) (index : Z) (res : OpReply * Err)
  | HDone (req : Request) (reply : Reply).

(** [applier] between two messages, or between its sections. *)
Inductive ApplierPhase :=
  | AIdle
  | ASnapshot (idx : Z) (reply : OpReply) (data : option (list byte))
  | ANotify (idx : Z) (reply : OpReply).

Record System := mkSystem {
  sys_kv : KVServer;
  sys_handlers : list Handler;
  sys_applier : ApplierPhase
}.

(** [begin]: the whole handler up to its first blocking point. *)
Definition handler_begin (req : Request) (kv : KVServer) : KVServer * Handler :=
  let '(kv', started) := begin_request (command_of req) kv in
  (kv', match started with
        | SDead => HDone req (fill_reply req zero_OpReply 0)
        | SCached r => HDone req (fill_reply req r 0)
        | SNotLeader l => HDone req (fill_reply req (mkOpReply ErrWrongLeader "") l)
        | SWait index startTerm => HRegister req index startTerm
        end).

(** The next section of a handler; [timeout] chooses the [time.After] case. *)
Definition handler_run (timeout : bool) (h : Handler) (kv : KVServer)
    : option (KVServer * Handler) :=
  match h with
  | HRegister req index startTerm =>
      let '(kv', ch) := waitApplied_register index kv in
      Some (kv', HWait req index startTerm ch)
  | HWait req index startTerm ch =>
      if timeout then Some (kv, HFinish req index waitApplied_timeout)
      else
        '(kv', opreply) ← waitApplied_receive ch kv;
        Some (kv', HCheck req index startTerm opreply)
  | HCheck req index startTerm opreply =>
      Some (kv, HFinish req index (waitApplied_check opreply startTerm kv))
  | HFinish req index res =>
      let '(kv', r) := end_request index res kv in Some (kv', HDone req (fill_reply req r 0))
  | HDone _ _ => None
  end.

(** The three RPC handlers: each runs its first section, and goes on with
    [handler_run] until [HDone]. *)
Definition KVServer_Get (args : GetArgs) (kv : KVServer) : KVServer * Handler :=
  handler_begin (RGet args) kv.
Definition KVServer_Delete (args : DeleteArgs) (kv : KVServer) : KVServer * Handler :=
  handler_begin (RDelete args) kv.
Definition KVServer_PutAppend (args : PutAppendArgs) (kv : KVServer) : KVServer * Handler :=
  handler_begin (RPutAppend args) kv.

(** Steps of one server; [RaftMoves] is whatever the goroutines of its Raft
    peer do in between. *)
Inductive sys_step : System → System → Prop :=
  | RequestArrives req kv kv' hs h ap :
      handler_begin req kv = (kv', h) →
      sys_step (mkSystem kv hs ap) (mkSystem kv' (hs ++ [h]) ap)
  | HandlerRuns timeout k h h' kv kv' hs ap :
      hs !! k = Some h → handler_run timeout h kv = Some (kv', h') →
      sys_step (mkSystem kv hs ap) (mkSystem kv' (<[k := h']> hs) ap)
  | CommandArrives msg cmd kv kv' reply data hs :
      CommandValid msg = true → MsgCommand msg = Some cmd →
      applier_command cmd (CommandIndex msg) kv = (kv', reply, data) →
      sys_step (mkSystem kv hs AIdle)
               (mkSystem kv' hs (ASnapshot (CommandIndex msg) reply data))
  | ApplierSnapshots idx reply data kv kv' hs :
      applier_snapshot data kv = Some kv' →
      sys_step (mkSystem kv hs (ASnapshot idx reply data)) (mkSystem kv' hs (ANotify idx reply))
  | ApplierNotifies idx reply kv kv' hs :
      applier_notify idx reply kv = Some kv' →
      sys_step (mkSystem kv hs (ANotify idx reply)) (mkSystem kv' hs AIdle)
  | SnapshotArrives msg kv hs :
      CommandValid msg = false → SnapshotValid msg = true →
      sys_step (mkSystem kv hs AIdle) (mkSystem (applier_install msg kv) hs AIdle)
  | RaftMoves rf kv hs ap :
      sys_step (mkSystem kv hs ap) (mkSystem (set_rf rf kv) hs ap)
  | Killed kv hs ap :
      sys_step (mkSystem kv hs ap) (mkSystem (KVKill kv) hs ap).
End server.
