(* ===== verification/KVMachine.v ===== *)
(** * Exactly-once execution and snapshots (kvraft/server.go)

    The replicated state machine of [KVServer] as a function of the log:
    what a log of commands does to the store when each client numbers its
    requests, what a duplicate is answered, and that a snapshot stands for the
    prefix of the log it was taken from. *)

From S2P Require Import Prelude Persister RaftTypes RaftHandlers KVServer.
From stdpp Require Import strings sorting.

(** ** The log as a whole *)

Definition replay (l : list Op) (m : Machine) : Machine :=
  foldl (λ m c, (apply_op c m).1) m l.

(** The replies, in log order. *)
Fixpoint outputs (l : list Op) (m : Machine) : list OpReply :=
  match l with
  | [] => []
  | c :: l' => (apply_op c m).2 :: outputs l' (apply_op c m).1
  end.

Definition empty_machine : Machine := (∅, ∅).

(** ** The specification: each request once *)

(** A request is identified by its client and its number. *)
Definition req_id (c : Op) : Z * Z := (op_ClientId c, op_SeqId c).

(** The commands of the log that are not repetitions of earlier ones. *)
Fixpoint fresh_ops (seen : gset (Z * Z)) (l : list Op) : list Op :=
  match l with
  | [] => []
  | c :: l' =>
      if bool_decide (req_id c ∈ seen) then fresh_ops seen l'
      else c :: fresh_ops ({[req_id c]} ∪ seen) l'
  end.

(** The store after executing commands one by one, without any table. *)
Definition execute (l : list Op) (s : Store) : Store :=
  foldl (λ s c, (applyToStateMachine c s).1) s l.

(** Within one client the log has no request after a later-numbered one. *)
Definition in_session (a b : Op) : Prop := op_ClientId a = op_ClientId b → (op_SeqId a ≤ op_SeqId b)%Z.
Definition session_ordered (l : list Op) : Prop := StronglySorted in_session l.

(** The two cases of the duplicate check. *)
Lemma apply_op_dup c s r rec :
  r !! op_ClientId c = Some rec → (op_SeqId c ≤ LastSeqId rec)%Z →
  apply_op c (s, r) =
    ((s, <[op_ClientId c := mkLastOpRecord (op_SeqId c) (LastReply rec)]> r), LastReply rec).
Proof. intros Hr Hle. unfold apply_op. by rewrite Hr, (proj2 (Z.geb_le _ _)). Qed.

Lemma apply_op_first c s r :
  r !! op_ClientId c = None →
  apply_op c (s, r) =
    (((applyToStateMachine c s).1,
      <[op_ClientId c := mkLastOpRecord (op_SeqId c) (applyToStateMachine c s).2]> r),
     (applyToStateMachine c s).2).
Proof. intros Hr. unfold apply_op. rewrite Hr. by destruct (applyToStateMachine c s). Qed.

(** ** The table against the history *)

(** The table records for each client the largest number executed, and [seen]
    is what was executed. *)
Record table_ok (seen : gset (Z * Z)) (r : RecordMap) : Prop := {
  table_none : ∀ c, r !! c = None → ∀ s, (c, s) ∉ seen;
  table_some : ∀ c rec, r !! c = Some rec →
    (c, LastSeqId rec) ∈ seen ∧ ∀ s, (c, s) ∈ seen → (s ≤ LastSeqId rec)%Z
}.

(** The next commands continue the sessions in the table. *)
Definition continues (r : RecordMap) (l : list Op) : Prop :=
  ∀ c rec, c ∈ l → r !! op_ClientId c = Some rec → (LastSeqId rec ≤ op_SeqId c)%Z.

(** One command: executed exactly if it is not a repetition. *)
Lemma apply_op_spec seen c s r l :
  table_ok seen r → continues r (c :: l) →
  (apply_op c (s, r)).1.1 =
    (if bool_decide (req_id c ∈ seen) then s else (applyToStateMachine c s).1) ∧
  (apply_op c (s, r)).1.2 = <[op_ClientId c := mkLastOpRecord (op_SeqId c) (apply_op c (s, r)).2]> r ∧
  (req_id c ∈ seen → ∃ rec, r !! op_ClientId c = Some rec ∧ LastSeqId rec = op_SeqId c ∧
                            (apply_op c (s, r)).2 = LastReply rec).
Proof.
  intros [Hn Hs] Hc. unfold apply_op, req_id.
  destruct (r !! op_ClientId c) as [rec|] eqn:Hr.
  - destruct (Hs _ _ Hr) as [Hin Hmax]. pose proof (Hc c rec (list_elem_of_here _ _) Hr) as Hle.
    destruct (LastSeqId rec >=? op_SeqId c)%Z eqn:E; b2p; simpl.
    + assert (LastSeqId rec = op_SeqId c) as Heq by lia. rewrite Heq in Hin.
      rewrite bool_decide_true by done. split_and!; [done..|]. intros _. eauto.
    + assert ((op_ClientId c, op_SeqId c) ∉ seen) as Hni by (intros H%Hmax; lia).
      rewrite bool_decide_false by done. destruct (applyToStateMachine c s). done.
  - rewrite bool_decide_false by (by apply Hn). destruct (applyToStateMachine c s).
    split_and!; [done..|]. intros H. by destruct (Hn _ Hr (op_SeqId c)).
Qed.

Lemma table_ok_step seen c r rep l :
  table_ok seen r → continues r (c :: l) →
  table_ok ({[req_id c]} ∪ seen) (<[op_ClientId c := mkLastOpRecord (op_SeqId c) rep]> r).
Proof.
  intros [Hn Hs] Hc. unfold req_id. split.
  - intros d Hd s. apply lookup_insert_None in Hd as [Hd Hne]. pose proof (Hn d Hd s). set_solver.
  - intros d rec Hd. apply lookup_insert_Some in Hd as [[<- <-]|[Hne Hd]]; simpl.
    + split; [set_solver|]. intros s [Heq%elem_of_singleton|Hin]%elem_of_union; [set_solver by lia|].
      destruct (r !! op_ClientId c) as [rec|] eqn:Hr; [|by destruct (Hn _ Hr s)].
      pose proof (proj2 (Hs _ _ Hr) s Hin). pose proof (Hc c rec (list_elem_of_here _ _) Hr). lia.
    + destruct (Hs d rec Hd) as [Hin Hmax]. split; [set_solver|].
      intros s [Heq%elem_of_singleton|H]%elem_of_union; [|by apply Hmax]. congruence.
Qed.

Lemma continues_step c r rep l :
  session_ordered (c :: l) → continues r (c :: l) →
  continues (<[op_ClientId c := mkLastOpRecord (op_SeqId c) rep]> r) l.
Proof.
  intros [_ Hall]%StronglySorted_inv Hc d rec Hd Hr.
  apply lookup_insert_Some in Hr as [[Heq <-]|[_ Hr]]; simpl.
  - rewrite Forall_forall in Hall. by apply Hall.
  - apply (Hc d rec); [by apply list_elem_of_further|done].
Qed.

(** Executing a repetition again changes nothing in [seen]. *)
Lemma table_seen seen c r : req_id c ∈ seen → table_ok ({[req_id c]} ∪ seen) r → table_ok seen r.
Proof. intros Hin. by replace ({[req_id c]} ∪ seen) with seen by set_solver. Qed.

Lemma replay_execute l s r seen :
  session_ordered l → table_ok seen r → continues r l →
  (replay l (s, r)).1 = execute (fresh_ops seen l) s.
Proof.
  revert s r seen. induction l as [|c l IH]; intros s r seen Hso Ht Hc; [done|].
  destruct (apply_op_spec seen c s r l Ht Hc) as (H1 & H2 & _).
  pose proof (table_ok_step seen c r (apply_op c (s, r)).2 l Ht Hc) as Ht'.
  pose proof (continues_step c r (apply_op c (s, r)).2 l Hso Hc) as Hc'.
  apply StronglySorted_inv in Hso as [Hso _].
  change (replay (c :: l) (s, r)) with (replay l (apply_op c (s, r)).1).
  rewrite (surjective_pairing (apply_op c (s, r)).1), H1, H2. cbn [fresh_ops].
  case_bool_decide as Hin; apply IH; eauto using table_seen.
Qed.

Lemma no_record c : (∅ : RecordMap) !! c = None.
Proof. apply lookup_empty. Qed.

Lemma empty_table : table_ok ∅ ∅.
Proof. split; [set_solver|]. intros c rec. by rewrite no_record. Qed.

(** C12. Exactly once: when each client's requests are logged in order (with
    any number of repetitions of the latest one), the store after the whole log
    is the store after executing each request once, at its first position. *)
Theorem exactly_once l :
  session_ordered l → (replay l empty_machine).1 = execute (fresh_ops ∅ l) ∅.
Proof.
  intros Hl. apply replay_execute; [done|apply empty_table|].
  intros c rec _. by rewrite no_record.
Qed.

#[local] Arguments apply_op : simpl never.

Lemma apply_op_table c s r :
  (apply_op c (s, r)).1 =
  ((apply_op c (s, r)).1.1, <[op_ClientId c := mkLastOpRecord (op_SeqId c) (apply_op c (s, r)).2]> r).
Proof.
  unfold apply_op. by destruct (match r !! op_ClientId c with Some _ => _ | None => _ end).
Qed.

(** Until the client's next request, a repetition finds the recorded reply. *)
Lemma outputs_repeat l s r c rec k d rep :
  session_ordered l → continues r l → r !! c = Some rec →
  l !! k = Some d → op_ClientId d = c → op_SeqId d = LastSeqId rec →
  outputs l (s, r) !! k = Some rep → rep = LastReply rec.
Proof.
  revert s r rec k. induction l as [|a l IH]; intros s r rec k Hso Hc Hr Hk Hd Hseq Ho; [done|].
  pose proof (continues_step a r (apply_op a (s, r)).2 l Hso Hc) as Hc'.
  assert (op_ClientId a = c →
    op_SeqId a = LastSeqId rec ∧ (apply_op a (s, r)).2 = LastReply rec) as Ha.
  { intros Hca. assert (op_SeqId a = LastSeqId rec) as Heq.
    { pose proof (Hc a rec (list_elem_of_here _ _) ltac:(by rewrite Hca)).
      destruct k as [|k]; simpl in Hk; [by injection Hk as ->|].
      apply StronglySorted_inv in Hso as [_ Hall]. rewrite Forall_forall in Hall.
      pose proof (Hall d (list_elem_of_lookup_2 _ _ _ Hk)) as Hle.
      unfold in_session in Hle. rewrite Hca, Hd in Hle. specialize (Hle eq_refl). lia. }
    split; [done|]. unfold apply_op. rewrite Hca, Hr, Heq.
    by rewrite (proj2 (Z.geb_le _ _)) by lia. }
  destruct k as [|k]; simpl in Hk, Ho.
  - injection Hk as ->. injection Ho as <-. by apply Ha.
  - rewrite apply_op_table in Ho. apply StronglySorted_inv in Hso as [Hso _].
    destruct (decide (op_ClientId a = c)) as [Hca|Hca].
    + destruct (Ha Hca) as [H1 H2].
      apply (IH _ _ (mkLastOpRecord (op_SeqId a) (apply_op a (s, r)).2) k Hso Hc') in Ho; auto.
      * by rewrite Ho.
      * rewrite Hca. apply lookup_insert_eq.
      * simpl. by rewrite H1.
    + apply (IH _ _ rec k Hso Hc') in Ho; auto. etrans; [by apply lookup_insert_ne|done].
Qed.

(** A repetition is answered like the original: two entries of the log
    that carry the same client and number produce the same reply. *)
Theorem duplicate_reply l i j a b ra rb :
  session_ordered l → i < j → l !! i = Some a → l !! j = Some b → req_id a = req_id b →
  outputs l empty_machine !! i = Some ra → outputs l empty_machine !! j = Some rb →
  ra = rb.
Proof.
  intros Hso Hij Hi Hj [= Hc Hq] Ha Hb. unfold empty_machine in *.
  assert (continues ∅ l) as Hcont by (intros d rec _; by rewrite no_record).
  revert i j Hij Hi Hj Ha Hb Hcont. generalize (∅ : Store), (∅ : RecordMap).
  induction l as [|x l IH]; intros s r i j Hij Hi Hj Ha Hb Hcont; [done|].
  pose proof (continues_step x r (apply_op x (s, r)).2 l Hso Hcont) as Hcont'.
  apply StronglySorted_inv in Hso as [Hso _].
  destruct j as [|j]; [lia|]. simpl in Hj, Hb. rewrite apply_op_table in Hb. destruct i as [|i]; simpl in Hi, Ha.
  - injection Hi as ->. injection Ha as <-. symmetry.
    eapply (outputs_repeat l _ _ (op_ClientId a) (mkLastOpRecord (op_SeqId a) (apply_op a (s, r)).2));
      eauto. apply lookup_insert_eq.
  - rewrite apply_op_table in Ha. exact (IH Hso _ _ i j ltac:(lia) Hi Hj Ha Hb Hcont').
Qed.

(** ** Instances, and what happens without session order *)

Definition app_op (client seq : Z) (v : string) : Op := mkOp "Append" "k" v seq client.

(** Clients 1 and 2; client 1's second request is logged twice. *)
Definition wit_log : list Op :=
  [app_op 1 1 "a"; app_op 2 1 "x"; app_op 1 2 "b"; app_op 1 2 "b"; app_op 2 2 "y"].

Lemma wit_log_ordered : session_ordered wit_log.
Proof. repeat constructor; unfold in_session; simpl; lia. Qed.

Lemma exactly_once_witness :
  (replay wit_log empty_machine).1 = execute (fresh_ops ∅ wit_log) ∅ ∧
  (replay wit_log empty_machine).1 !! "k" = Some "axby".
Proof. split; [apply (exactly_once wit_log wit_log_ordered)|vm_compute; reflexivity]. Defined.

Lemma duplicate_reply_witness :
  ∃ ra rb, outputs wit_log empty_machine !! 2 = Some ra ∧
           outputs wit_log empty_machine !! 3 = Some rb ∧ ra = rb.
Proof.
  exists (mkOpReply OK ""), (mkOpReply OK ""). split; [reflexivity|]. split; [reflexivity|].
  apply (duplicate_reply wit_log 2 3 (app_op 1 2 "b") (app_op 1 2 "b")
    (mkOpReply OK "") (mkOpReply OK "") wit_log_ordered); (lia || reflexivity).
Defined.

(** The table forgets: a late repetition of request 1 after request 2
    moves the recorded number back to 1, so that a repetition of request 2 is
    executed a second time, and its value is appended twice. *)
Theorem record_regresses :
  let l := [app_op 1 1 "a"; app_op 1 2 "b"; app_op 1 1 "a"; app_op 1 2 "b"] in
  (replay l empty_machine).1 !! "k" = Some "abb" ∧
  execute (fresh_ops ∅ l) ∅ !! "k" = Some "ab".
Proof. vm_compute. auto. Qed.

(** Requests of one client that are in flight together and logged out of
    order: the lower-numbered one is answered OK and never executed. *)
Theorem reordered_request_lost :
  let l := [mkOp "Put" "q" "2" 2 7; mkOp "Put" "p" "1" 1 7] in
  outputs l empty_machine = [mkOpReply OK ""; mkOpReply OK ""] ∧
  (replay l empty_machine).1 !! "p" = None ∧
  execute (fresh_ops ∅ l) ∅ !! "p" = Some "1".
Proof. vm_compute. auto. Qed.
