(* ===== verification/KVReplica.v ===== *)
(** * A key/value server against the log (kvraft/server.go)

    The goroutines of one [KVServer] interleaved: [applier] never blocks on a
    reply channel, and what it has applied is the log prefix up to its
    position, whether the prefix arrived as commands or as snapshots. *)

From S2P Require Import Prelude Persister RaftTypes RaftHandlers RaftLocal KVServer KVMachine.
From stdpp Require Import strings relations.

Section replica.
Context `{!Gob (PersistentState Op)} `{!Gob Machine}.
Implicit Types kv : KVServer.

(** ** Reply channels *)

(** Registered channels exist, belong to one index, and are full only at
    indices that [applier] has finished with ([busy] is the one it is at). *)
Record chans_ok (busy : option Z) kv : Prop := {
  ch_made : ∀ idx ch, notifyChans kv !! idx = Some ch → ch < length (chans kv);
  ch_own : ∀ i j ch, notifyChans kv !! i = Some ch → notifyChans kv !! j = Some ch → i = j;
  ch_full : ∀ idx ch r, notifyChans kv !! idx = Some ch → chans kv !! ch = Some (Some r) →
    (idx ≤ kv_commitIndex kv)%Z ∧ busy ≠ Some idx;
  ch_busy : ∀ idx, busy = Some idx → (idx ≤ kv_commitIndex kv)%Z
}.

Definition busy_of (ap : ApplierPhase) : option Z :=
  match ap with AIdle => None | ASnapshot idx _ _ | ANotify idx _ => Some idx end.

Definition sys_ok (s : System) : Prop := chans_ok (busy_of (sys_applier s)) (sys_kv s).

(** Raft hands out commands in log order. *)
Definition in_order_step (s s' : System) : Prop :=
  sys_step s s' ∧
  ∀ idx r d, sys_applier s = AIdle → sys_applier s' = ASnapshot idx r d →
    (kv_commitIndex (sys_kv s) < idx)%Z.

(** The invariant only looks at three fields. *)
Lemma chans_ok_ext busy kv kv' :
  notifyChans kv' = notifyChans kv → chans kv' = chans kv →
  kv_commitIndex kv' = kv_commitIndex kv → chans_ok busy kv → chans_ok busy kv'.
Proof. intros E1 E2 E3 []. split; rewrite ?E1, ?E2, ?E3; eauto. Qed.

Lemma notify_room_Some kv idx ch :
  notify_room kv !! idx = Some ch ↔
  notifyChans kv !! idx = Some ch ∧ chans kv !! ch = Some None.
Proof. apply map_lookup_filter_Some. Qed.

Lemma begin_request_frame cmd kv kv' st :
  begin_request cmd kv = (kv', st) →
  notifyChans kv' = notifyChans kv ∧ chans kv' = chans kv ∧
  kv_commitIndex kv' = kv_commitIndex kv ∧ machine kv' = machine kv.
Proof. unfold begin_request. intros H. case_all; by simplify_eq. Qed.

Lemma register_ok busy index kv :
  chans_ok busy kv → chans_ok busy (waitApplied_register index kv).1.
Proof.
  intros []. split; simpl; [| | |done].
  - intros i ch. rewrite length_app. intros [[<- <-]|[_ H]]%lookup_insert_Some; simpl; [lia|].
    apply ch_made0 in H. lia.
  - intros i j ch Hi Hj.
    apply lookup_insert_Some in Hi as [[<- <-]|[Hi Hi']];
      apply lookup_insert_Some in Hj as [[<- Heq]|[Hj Hj']]; try done.
    + apply ch_made0 in Hj'. lia.
    + subst. apply ch_made0 in Hi'. lia.
    + eauto.
  - intros i ch r [[<- <-]|[Hi Hi']]%lookup_insert_Some Hc.
    + by rewrite list_lookup_middle in Hc.
    + rewrite lookup_app_l in Hc by eauto. eauto.
Qed.

Lemma receive_ok busy ch kv kv' r :
  chans_ok busy kv → waitApplied_receive ch kv = Some (kv', r) → chans_ok busy kv'.
Proof.
  intros []. unfold waitApplied_receive. intros H. case_all. split; simpl; [|done| |done].
  - intros i c. rewrite length_insert. eauto.
  - intros i c x Hi. rewrite list_lookup_insert_Some. intros [(_ & ? & _)|[_ H]]; [done|eauto].
Qed.

Lemma end_request_ok busy index res kv :
  chans_ok busy kv → chans_ok busy (end_request index res kv).1.
Proof.
  intros []. unfold end_request. case_match; simpl; split; simpl; [|..|done| | | |done];
    intros *; rewrite ?lookup_delete_Some; naive_solver.
Qed.

Lemma handler_run_ok busy t h kv kv' h' :
  chans_ok busy kv → handler_run t h kv = Some (kv', h') → chans_ok busy kv'.
Proof.
  intros Hok H. destruct h as [req i st|req i st ch|req i st r|req i res|]; simpl in H.
  - injection H as <- _. by apply (register_ok busy i).
  - destruct t; [by injection H as <- _|].
    apply bind_Some in H as ([kv1 r] & Hr & [= <- _]). by eapply receive_ok.
  - by injection H as <- _.
  - pose proof (end_request_ok busy i res kv Hok) as He.
    destruct (end_request i res kv). by injection H as <- _.
  - done.
Qed.

(** What [applier_dropWaiters] leaves in the map was full before and is
    untouched. *)
Lemma drop_fold room cs0 ch :
  (∀ idx, room !! idx ≠ Some ch) →
  map_fold (λ _ ch cs, <[ch := Some (mkOpReply ErrWrongLeader "")]> cs) cs0
    (room : gmap Z nat) !! ch = (cs0 : list (option OpReply)) !! ch.
Proof.
  revert room. refine (map_fold_weak_ind (λ cs room, (∀ idx, room !! idx ≠ Some ch) → cs !! ch = cs0 !! ch) _ _ _ _).
  - done.
  - intros i c m cs Hm IH Hne. rewrite list_lookup_insert_ne.
    + apply IH. intros idx Hidx. apply (Hne idx). rewrite lookup_insert_ne; [done|congruence].
    + intros ->. apply (Hne i). by rewrite lookup_insert_eq.
Qed.

Lemma drop_fold_length room (cs0 : list (option OpReply)) :
  length (map_fold (λ _ ch cs, <[ch := Some (mkOpReply ErrWrongLeader "")]> cs) cs0
    (room : gmap Z nat)) = length cs0.
Proof.
  revert room. refine (map_fold_weak_ind (λ cs room, length cs = length cs0) _ _ _ _); [done|].
  intros. by rewrite length_insert.
Qed.

Lemma dropWaiters_ok kv ci :
  chans_ok None kv → (kv_commitIndex kv ≤ ci)%Z →
  chans_ok None (applier_dropWaiters (set_kv_commitIndex ci kv)).
Proof.
  intros [Hm Ho Hf _] Hci.
  assert (∀ idx ch, notifyChans (applier_dropWaiters (set_kv_commitIndex ci kv)) !! idx = Some ch →
    notifyChans kv !! idx = Some ch ∧
    chans (applier_dropWaiters (set_kv_commitIndex ci kv)) !! ch = chans kv !! ch) as Hkeep.
  { intros idx ch Hd. apply lookup_difference_Some in Hd as [H1 H2].
    split; [done|]. apply drop_fold.
    intros j [Hj Hn]%notify_room_Some. assert (j = idx) as -> by eauto.
    assert (notify_room (set_kv_commitIndex ci kv) !! idx = Some ch) as Hroom
      by by apply notify_room_Some.
    simpl in H2. congruence. }
  split; [| | |done].
  - intros idx ch [H _]%Hkeep. simpl. rewrite drop_fold_length. eauto.
  - intros i j ch [H1 _]%Hkeep [H2 _]%Hkeep. eauto.
  - intros idx ch r [H1 H2]%Hkeep. rewrite H2. intros Hc. simpl.
    destruct (Hf _ _ _ H1 Hc) as [? _]. split; [lia|done].
Qed.

Lemma restore_frame data kv :
  notifyChans (restoreSnapshot data kv) = notifyChans kv ∧
  chans (restoreSnapshot data kv) = chans kv ∧
  kv_commitIndex (restoreSnapshot data kv) = kv_commitIndex kv.
Proof. unfold restoreSnapshot. by case_match. Qed.

Lemma install_ok msg kv : chans_ok None kv → chans_ok None (applier_install msg kv).
Proof.
  intros Hok. unfold applier_install. case_match; b2p; [|done].
  destruct (restore_frame (Snapshot_ msg) (set_kv_commitIndex (SnapshotIndex msg) kv)) as (E1 & E2 & E3).
  apply (chans_ok_ext None (applier_dropWaiters (set_kv_commitIndex (SnapshotIndex msg) kv)));
    [..|by apply dropWaiters_ok; [|lia]]; simpl; unfold notify_room; by rewrite ?E1, ?E2, ?E3.
Qed.

Lemma command_frame cmd idx kv kv' reply data :
  applier_command cmd idx kv = (kv', reply, data) →
  notifyChans kv' = notifyChans kv ∧ chans kv' = chans kv ∧ kv_commitIndex kv' = idx ∧
  kv_rf kv' = kv_rf kv ∧
  machine kv' = (apply_op cmd (machine kv)).1 ∧ reply = (apply_op cmd (machine kv)).2 ∧
  (∀ d, data = Some d → d = gob_encode (machine kv')).
Proof.
  unfold applier_command. change (machine (set_kv_commitIndex idx kv)) with (machine kv).
  destruct (apply_op cmd (machine kv)) as [[s r] rep]. intros [= <- <- <-].
  split_and!; try done. intros d Hd. case_match; by simplify_eq.
Qed.

Lemma command_ok cmd idx kv kv' reply data :
  chans_ok None kv → (kv_commitIndex kv < idx)%Z →
  applier_command cmd idx kv = (kv', reply, data) → chans_ok (Some idx) kv'.
Proof.
  intros [Hm Ho Hf _] Hlt (E1 & E2 & E3 & _)%command_frame.
  split; rewrite ?E1, ?E2, ?E3; eauto.
  - intros i ch r Hi Hc. destruct (Hf i ch r Hi Hc). split; [lia|]. intros [= ->]. lia.
  - by intros i [= ->].
Qed.

Lemma notify_can idx reply kv :
  chans_ok (Some idx) kv →
  ∃ kv', applier_notify idx reply kv = Some kv' ∧ chans_ok None kv' ∧
         machine kv' = machine kv ∧ kv_commitIndex kv' = kv_commitIndex kv ∧ kv_rf kv' = kv_rf kv.
Proof.
  intros Hok. pose proof Hok as [Hm Ho Hf Hb]. unfold applier_notify.
  destruct (notifyChans kv !! idx) as [ch|] eqn:Hch.
  - destruct (lookup_lt_is_Some_2 _ _ (Hm _ _ Hch)) as [[r|] Hc]; rewrite Hc.
    + by destruct (Hf _ _ _ Hch Hc).
    + eexists. split; [done|]. split_and!; try done. split; simpl; [| | |done].
      * intros i c. rewrite length_insert. eauto.
      * eauto.
      * intros i c x Hi. rewrite list_lookup_insert_Some. intros [(<- & _)|[_ H]].
        -- assert (i = idx) as -> by eauto. split; [by apply Hb|done].
        -- destruct (Hf _ _ _ Hi H). done.
  - eexists. split_and!; try done. split; [done|done| |done].
    intros i c x Hi Hc. destruct (Hf _ _ _ Hi Hc). done.
Qed.

Lemma snapshot_frame data kv kv' :
  applier_snapshot data kv = Some kv' →
  notifyChans kv' = notifyChans kv ∧ chans kv' = chans kv ∧
  kv_commitIndex kv' = kv_commitIndex kv ∧ machine kv' = machine kv.
Proof. unfold applier_snapshot. intros H. case_match; go_inv; by simplify_eq. Qed.

Lemma sys_step_ok s s' : sys_ok s → in_order_step s s' → sys_ok s'.
Proof.
  unfold sys_ok. intros Hok [Hs Hord]. destruct Hs; simpl in *.
  - unfold handler_begin in H. destruct (begin_request _ kv) as [kv1 st] eqn:Hb.
    injection H as <- _. apply begin_request_frame in Hb as (E1 & E2 & E3 & _).
    by eapply chans_ok_ext.
  - by eapply handler_run_ok.
  - eapply command_ok; [done| |done]. by eapply Hord.
  - apply snapshot_frame in H as (E1 & E2 & E3 & _). by eapply chans_ok_ext.
  - destruct (notify_can idx reply kv Hok) as (kv1 & H1 & H2 & _). by simplify_eq.
  - by apply install_ok.
  - by apply (chans_ok_ext _ kv).
  - by apply (chans_ok_ext _ kv).
Qed.

Lemma start_ok servers self ps maxstate now :
  chans_ok None (StartKVServer servers self ps maxstate now).1.
Proof.
  unfold StartKVServer. destruct (Make servers self ps now) as [rf msg]. simpl.
  assert (chans_ok None (mkKVServer self rf ∅ 0 maxstate 0 0 ∅ ∅ 0 [])) as Hok by (split; done).
  case_match; [|done]. destruct (restore_frame (ReadSnapshot ps)
    (mkKVServer self rf ∅ 0 maxstate 0 0 ∅ ∅ 0 [])) as (E1 & E2 & E3). by eapply chans_ok_ext.
Qed.

(** C22. [applier] never blocks while it holds the server's lock: however its
    sections interleave with the handlers' (which register, receive, time out
    and unregister channels), with crashes of handlers' leadership and with
    snapshots, when commands come in log order the channel it replies on has
    room. *)
Theorem applier_never_blocks servers self ps maxstate now s idx reply :
  rtc in_order_step (mkSystem (StartKVServer servers self ps maxstate now).1 [] AIdle) s →
  sys_applier s = ANotify idx reply →
  ∃ kv', applier_notify idx reply (sys_kv s) = Some kv'.
Proof.
  intros Hr Hap. assert (sys_ok s) as Hok.
  { assert (sys_ok (mkSystem (StartKVServer servers self ps maxstate now).1 [] AIdle)) as H0
      by apply start_ok.
    revert H0. induction Hr as [|x y z Hxy _ IH]; [done|]. intros H0.
    by apply IH; [|eapply sys_step_ok]. }
  unfold sys_ok in Hok. rewrite Hap in Hok.
  destruct (notify_can idx reply (sys_kv s) Hok) as (kv' & H & _). eauto.
Qed.

(** ** The state of a server is a prefix of the log *)

(** The server has applied the first [n] commands of [G]. *)
Definition state_at (G : list Op) (n : Z) : Machine := replay (take (Z.to_nat n) G) empty_machine.

Definition at_log (G : list Op) (n : Z) kv : Prop :=
  (0 ≤ kv_commitIndex kv ≤ n)%Z ∧ machine kv = state_at G n.

(** The messages that Raft may hand to a server at position [n] whose last
    message was at [ci]: the next command, a snapshot of a prefix that is not
    behind [n], or a snapshot that is not newer than [ci]; with the position
    afterwards. *)
Inductive next_msg (G : list Op) (n ci : Z) (msg : ApplyMsg Op) : Z → Prop :=
  | next_command cmd :
      CommandValid msg = true → MsgCommand msg = Some cmd → CommandIndex msg = (n + 1)%Z →
      G !! Z.to_nat n = Some cmd → next_msg G n ci msg (n + 1)
  | next_snapshot :
      CommandValid msg = false → SnapshotValid msg = true →
      (ci < SnapshotIndex msg)%Z → (n ≤ SnapshotIndex msg)%Z →
      Snapshot_ msg = gob_encode (state_at G (SnapshotIndex msg)) →
      next_msg G n ci msg (SnapshotIndex msg)
  | old_snapshot :
      CommandValid msg = false → SnapshotValid msg = true → (SnapshotIndex msg ≤ ci)%Z →
      next_msg G n ci msg n.

(** The position [kv.commitIndex] after the message. *)
Definition next_ci (ci : Z) (msg : ApplyMsg Op) : Z :=
  if CommandValid msg then CommandIndex msg else Z.max ci (SnapshotIndex msg).

(** Raft's peer is well formed and holds the command it hands out. *)
Definition raft_holds (n : Z) (rf : Raft Op) (msg : ApplyMsg Op) : Prop :=
  wf n rf ∧ (CommandValid msg = true → (CommandIndex msg ≤ lastLogicalIndex rf)%Z).

(** A snapshot the server makes is one that the others may be handed. *)
Definition made_snapshot (G : list Op) (n : Z) (rf rf' : Raft Op) : Prop :=
  rf' = rf ∨ (lastIncludedIndex rf' = n ∧ snapshot (persister rf') = gob_encode (state_at G n)).

Lemma state_at_S G n cmd :
  (0 ≤ n)%Z → G !! Z.to_nat n = Some cmd → state_at G (n + 1) = (apply_op cmd (state_at G n)).1.
Proof.
  intros Hn HG. unfold state_at, replay. replace (Z.to_nat (n + 1)) with (S (Z.to_nat n)) by lia.
  by rewrite (take_S_r _ _ _ HG), foldl_app.
Qed.

Lemma applier_snapshot_total k G data kv :
  wf k (kv_rf kv) → (kv_commitIndex kv ≤ lastLogicalIndex (kv_rf kv))%Z →
  machine kv = state_at G (kv_commitIndex kv) →
  (∀ d, data = Some d → d = gob_encode (machine kv)) →
  ∃ kv', applier_snapshot data kv = Some kv' ∧
         made_snapshot G (kv_commitIndex kv) (kv_rf kv) (kv_rf kv').
Proof.
  intros Hwf Hle Hm Hd. unfold applier_snapshot. destruct data as [d|]; [|by eexists; split; [|left]].
  destruct (decide (kv_commitIndex kv ≤ lastIncludedIndex (kv_rf kv))%Z) as [Ho|Hn].
  - unfold Snapshot. rewrite (proj2 (Z.leb_le _ _)) by done. simpl.
    eexists; split; [done|by left].
  - destruct (Snapshot_spec k (kv_commitIndex kv) d (kv_rf kv))
      as (rf' & -> & (Hli & _) & _ & Hs & _); [done|lia|].
    eexists; split; [done|]. right. simpl. split; [done|]. by rewrite Hs, <- Hm, <- (Hd d).
Qed.

Lemma applier_at k G n rf msg n' kv :
  at_log G n kv → chans_ok None kv → raft_holds k rf msg →
  next_msg G n (kv_commitIndex kv) msg n' →
  ∃ kv', applier msg (set_rf rf kv) = ADone kv' ∧ at_log G n' kv' ∧ chans_ok None kv' ∧
         kv_commitIndex kv' = next_ci (kv_commitIndex kv) msg ∧ made_snapshot G n' rf (kv_rf kv').
Proof.
  intros [Hr Hm] Hok [Hwf Hl] Hn. unfold applier, next_ci.
  assert (chans_ok None (set_rf rf kv)) as Hok1 by by apply (chans_ok_ext None kv).
  destruct Hn as [cmd Hv Hcmd Hi HG|Hv Hs Hlt Hge Hd|Hv Hs Hle];
    [rewrite Hv, Hcmd|rewrite Hv, Hs..].
  - destruct (applier_command cmd (CommandIndex msg) (set_rf rf kv)) as [[kv1 reply] data] eqn:Hc.
    assert (kv_commitIndex (set_rf rf kv) < CommandIndex msg)%Z as Hlt by (simpl; lia).
    pose proof (command_ok _ _ _ _ _ _ Hok1 Hlt Hc) as Hok2.
    apply command_frame in Hc as (_ & _ & Hci & Hrf & Hmach & _ & Hdata). simpl in Hrf.
    assert (machine kv1 = state_at G (n + 1)) as Hm1.
    { rewrite Hmach, (state_at_S G n cmd) by (done || lia). by rewrite <- Hm. }
    destruct (applier_snapshot_total k G data kv1) as (kv2 & Hsn & Hmade);
      [by rewrite Hrf|rewrite Hrf, Hci; by apply Hl|by rewrite Hci, Hi|done|]. rewrite Hsn.
    apply snapshot_frame in Hsn as (E1 & E2 & E3 & E4).
    destruct (notify_can (CommandIndex msg) reply kv2) as (kv3 & -> & Hok3 & Hm3 & Hci3 & Hrf3);
      [by eapply chans_ok_ext|].
    exists kv3. rewrite Hrf in Hmade.
    split; [done|]. split; [split; [rewrite Hci3, E3, Hci; lia|by rewrite Hm3, E4]|].
    split; [done|]. split; [by rewrite Hci3, E3|]. by rewrite Hrf3, <- Hi, <- Hci.
  - eexists. split; [done|]. pose proof (install_ok msg _ Hok1) as Hok2.
    unfold applier_install in *. simpl in *. rewrite Z.gtb_ltb, (proj2 (Z.ltb_lt _ _)) in * by done.
    unfold restoreSnapshot in *. rewrite Hd, gob_roundtrip in *.
    split; [split; [simpl; lia|by destruct (state_at G (SnapshotIndex msg))]|].
    split; [done|]. split; [simpl; lia|by left].
  - eexists. split; [done|]. unfold applier_install. simpl.
    rewrite Z.gtb_ltb, (proj2 (Z.ltb_ge _ _)) by done.
    split; [done|]. split; [done|]. split; [simpl; lia|by left].
Qed.

(** *** Streams of messages *)

(** The messages [applier] takes one after the other, each with the state of
    its Raft peer when it does. *)
Fixpoint deliver (ds : list (Raft Op * ApplyMsg Op)) kv : Applied :=
  match ds with
  | [] => ADone kv
  | (rf, msg) :: ds' =>
      match applier msg (set_rf rf kv) with ADone kv' => deliver ds' kv' | o => o end
  end.

Inductive stream (k : Z) (G : list Op) : Z → Z → list (Raft Op * ApplyMsg Op) → Z → Prop :=
  | stream_nil n ci : stream k G n ci [] n
  | stream_cons n ci rf msg n1 ds n2 :
      raft_holds k rf msg → next_msg G n ci msg n1 → stream k G n1 (next_ci ci msg) ds n2 →
      stream k G n ci ((rf, msg) :: ds) n2.

Lemma deliver_at k G n ci ds n' kv :
  stream k G n ci ds n' → ci = kv_commitIndex kv → at_log G n kv → chans_ok None kv →
  ∃ kv', deliver ds kv = ADone kv' ∧ at_log G n' kv'.
Proof.
  intros Hs. revert kv. induction Hs as [n ci|n ci rf msg n1 ds n2 Hh Hn _ IH]; intros kv -> Ha Hok.
  { by exists kv. }
  destruct (applier_at k G n rf msg n1 kv Ha Hok Hh Hn) as (kv1 & H & Ha1 & Hok1 & Hci & _).
  simpl. rewrite H. by apply IH.
Qed.

(** What a persister may hold: nothing, or a snapshot of a prefix. *)
Definition saved_prefix (G : list Op) (n : Z) (ps : Persister) : Prop :=
  (n = 0%Z ∧ snapshot ps = []) ∨
  ((0 ≤ n)%Z ∧ snapshot ps = gob_encode (state_at G n)).

Lemma start_at G n servers self ps maxstate now :
  saved_prefix G n ps →
  at_log G n (StartKVServer servers self ps maxstate now).1 ∧
  kv_commitIndex (StartKVServer servers self ps maxstate now).1 = 0%Z.
Proof.
  intros Hs. unfold StartKVServer, ReadSnapshot. rewrite clone_eq.
  destruct (Make servers self ps now) as [rf msg]. cbn [fst].
  destruct Hs as [[-> Hs]|[Hn Hs]]; rewrite Hs.
  - by rewrite bool_decide_false by (simpl; lia).
  - rewrite bool_decide_true.
    + unfold restoreSnapshot. rewrite gob_roundtrip. simpl.
      split; [|done]. split; [simpl; lia|]. by destruct (state_at G n).
    + pose proof (gob_nonempty (state_at G n)). destruct (gob_encode (state_at G n)); simpl; [done|lia].
Qed.

(** C11. A replica is its log prefix: a server started on an empty persister, or
    on one that holds a snapshot of a prefix of the log, and given the log by
    Raft (commands in order, snapshots of prefixes in between, stale snapshots
    at any time) processes every message, without panic or deadlock, and ends
    with exactly the store and the table that executing the prefix gives. *)
Theorem replica_is_log_prefix k G n ds n' servers self ps maxstate now :
  saved_prefix G n ps → stream k G n 0 ds n' →
  ∃ kv', deliver ds (StartKVServer servers self ps maxstate now).1 = ADone kv' ∧
         machine kv' = state_at G n'.
Proof.
  intros Hp Hs. destruct (start_at G n servers self ps maxstate now Hp) as [Ha Hci].
  destruct (deliver_at k G n 0 ds n' _ Hs (eq_sym Hci) Ha) as (kv' & H & _ & Hm);
    [apply start_ok|]. eauto.
Qed.

(** The snapshots a server makes are snapshots of the log: after one
    in-order message the Raft peer is untouched, or its persister holds the
    encoding of the state after the prefix up to the peer's new compaction
    point. *)
Theorem made_snapshots_are_prefixes k G n rf msg n' kv :
  at_log G n kv → chans_ok None kv → raft_holds k rf msg →
  next_msg G n (kv_commitIndex kv) msg n' →
  ∃ kv', applier msg (set_rf rf kv) = ADone kv' ∧ made_snapshot G n' rf (kv_rf kv').
Proof.
  intros H1 H2 H3 H4.
  destruct (applier_at k G n rf msg n' kv H1 H2 H3 H4) as (kv' & ? & _ & _ & _ & ?). eauto.
Qed.

(** ** The first section of a handler *)

(** The outcomes of a request's first section. *)
Definition begin_spec (cmd : Op) kv kv' (st : Started) : Prop :=
  (kv_killed kv = true ∧ kv' = kv ∧ st = SDead) ∨
  (kv_killed kv = false ∧
   ∃ rec, recordMap kv !! op_ClientId cmd = Some rec ∧ (op_SeqId cmd ≤ LastSeqId rec)%Z ∧
          kv' = kv ∧ st = SCached (LastReply rec)) ∨
  (kv_killed kv = false ∧
   (∀ rec, recordMap kv !! op_ClientId cmd = Some rec → (LastSeqId rec < op_SeqId cmd)%Z) ∧
   ((state (kv_rf kv) ≠ Leader ∧ kv' = kv ∧ st = SNotLeader (leaderId kv)) ∨
    (state (kv_rf kv) = Leader ∧ st = SWait (lastLogicalIndex (kv_rf kv')) (currTerm (kv_rf kv)) ∧
     logs (kv_rf kv') = logs (kv_rf kv) ++ [mkLogEntry (currTerm (kv_rf kv)) (Some cmd)] ∧
     synced (kv_rf kv') ∧ machine kv' = machine kv))).

(** What a request does before it waits: a killed server does nothing and
    answers nothing; a request that is not newer than the client's recorded one
    is answered from the table and not logged again; otherwise a server that is
    not leader refuses and names the leader it knows, and a leader appends
    exactly this command to the end of its log, in its current term, durably,
    and waits for that index. *)
Theorem begin_request_correct cmd kv :
  begin_spec cmd kv (begin_request cmd kv).1 (begin_request cmd kv).2.
Proof.
  destruct (begin_request cmd kv) as [kv' st] eqn:Hreq. cbn [fst snd]. revert Hreq.
  unfold begin_request, begin_spec. destruct (kv_killed kv) eqn:Hk; [intros [= <- <-]; by left|].
  assert ((let '(rf, (index, startTerm, isLeader)) := Start cmd (kv_rf kv) in
     if isLeader : bool then (set_rf rf kv, SWait index startTerm)
     else (set_rf rf kv, SNotLeader (leaderId kv))) = (kv', st) →
   (state (kv_rf kv) ≠ Leader ∧ kv' = kv ∧ st = SNotLeader (leaderId kv)) ∨
   (state (kv_rf kv) = Leader ∧ st = SWait (lastLogicalIndex (kv_rf kv')) (currTerm (kv_rf kv)) ∧
     logs (kv_rf kv') = logs (kv_rf kv) ++ [mkLogEntry (currTerm (kv_rf kv)) (Some cmd)] ∧
     synced (kv_rf kv') ∧ machine kv' = machine kv)) as Hstart.
  { unfold Start. destruct (state (kv_rf kv) =? Leader)%Z eqn:Hl; b2p; simpl; intros [= <- <-].
    - right. split_and!; [done| |done|apply synced_persist|done].
      f_equal. unfold lastLogicalIndex. simpl. rewrite zlen_app, zlen_cons, zlen_nil. lia.
    - left. split_and!; [done|by destruct kv|done]. }
  intros H. right. destruct (recordMap kv !! op_ClientId cmd) as [rec|] eqn:Hr.
  - destruct (op_SeqId cmd <=? LastSeqId rec)%Z eqn:E; b2p.
    + injection H as <- <-. left. eauto 10.
    + right. split; [done|]. assert (∀ rec0, Some rec = Some rec0 → (LastSeqId rec0 < op_SeqId cmd)%Z)
        as Hlt by (intros ? [= <-]; lia). auto.
  - right. split; [done|]. split; [done|]. by apply Hstart.
Qed.
End replica.

(** ** Instances *)

Definition wit_G : list Op :=
  [mkOp "Put" "a" "1" 1 1; mkOp "Put" "b" "2" 1 2; mkOp "Append" "a" "3" 2 1].

Definition cmd_msg (idx : Z) (c : Op) : ApplyMsg Op := mkApplyMsg true (Some c) idx false [] 0 0.
Definition snap_msg (idx : Z) : ApplyMsg Op :=
  mkApplyMsg false None 0 true (gob_encode (state_at wit_G idx)) 1 idx.

(** A leader of term 1 that holds the log, and a server that snapshots after
    every command. *)
Definition wit_raft : Raft Op :=
  set_state Leader (set_currTerm 1 (set_logs
    (mkLogEntry 0 None :: (mkLogEntry 1 ∘ Some <$> wit_G)) (Make 3 0 MakePersister 0).1)).

Lemma wit_raft_wf : wf 3 wit_raft.
Proof. split; vm_compute; auto; discriminate. Qed.

Definition wit_stream : list (Raft Op * ApplyMsg Op) :=
  [(wit_raft, snap_msg 2); (wit_raft, cmd_msg 3 (mkOp "Append" "a" "3" 2 1));
   (wit_raft, snap_msg 2)].

Lemma wit_stream_ok : stream 3 wit_G 0 0 wit_stream 3.
Proof.
  assert (∀ m, (CommandValid m = true → (CommandIndex m ≤ 3)%Z) → raft_holds 3 wit_raft m) as Hh
    by (intros m Hm; split; [apply wit_raft_wf|done]).
  eapply stream_cons; [by apply Hh|apply next_snapshot; vm_compute; (reflexivity || discriminate)|].
  eapply stream_cons; [apply Hh; simpl; lia|by eapply next_command|].
  eapply stream_cons; [by apply Hh|by apply old_snapshot|]. apply stream_nil.
Qed.

Lemma replica_is_log_prefix_witness :
  ∃ kv', deliver wit_stream (StartKVServer 3 0 MakePersister 1000 0).1 = ADone kv' ∧
         machine kv' = state_at wit_G 3.
Proof.
  apply (replica_is_log_prefix 3 wit_G 0 wit_stream 3 3 0 MakePersister 1000 0).
  - left. split; reflexivity.
  - apply wit_stream_ok.
Defined.

Lemma made_snapshots_are_prefixes_witness :
  ∃ kv', applier (cmd_msg 1 (mkOp "Put" "a" "1" 1 1))
           (set_rf (persist wit_raft) (StartKVServer 3 0 MakePersister 1 0).1) = ADone kv' ∧
         made_snapshot wit_G 1 (persist wit_raft) (kv_rf kv').
Proof.
  apply (made_snapshots_are_prefixes 3 wit_G 0 (persist wit_raft)
    (cmd_msg 1 (mkOp "Put" "a" "1" 1 1)) 1 (StartKVServer 3 0 MakePersister 1 0).1).
  - split; [split; vm_compute; discriminate|reflexivity].
  - apply start_ok.
  - split; [split; vm_compute; auto; discriminate|]. intros _. vm_compute. discriminate.
  - by eapply (next_command wit_G 0).
Defined.

(** One request of client 5, from the handler's first section to its reply. *)
Definition wit_req : Request := RPutAppend (mkPutAppendArgs "z" "9" "Put" 1 5).
Definition wit_kv : KVServer := set_rf wit_raft (StartKVServer 3 0 MakePersister (-1) 0).1.

Ltac sys_do c := eapply rtc_l; [eapply c; reflexivity|].

Lemma applier_never_blocks_witness :
  ∃ s idx reply, sys_applier s = ANotify idx reply ∧
    rtc in_order_step (mkSystem (StartKVServer 3 0 MakePersister (-1) 0).1 [] AIdle) s ∧
    ∃ kv', applier_notify idx reply (sys_kv s) = Some kv'.
Proof.
  set (kv0 := (StartKVServer 3 0 MakePersister (-1) 0).1).
  set (kv1 := (applier_command (mkOp "Put" "a" "1" 1 1) 1 kv0).1.1).
  assert (rtc in_order_step (mkSystem kv0 [] AIdle)
    (mkSystem kv1 [] (ANotify 1 (mkOpReply OK "")))) as Hr.
  { eapply rtc_l; [|eapply rtc_once].
    - split; [by eapply (CommandArrives (cmd_msg 1 (mkOp "Put" "a" "1" 1 1)))|].
      intros idx r d _ [= <- _ _]. reflexivity.
    - split; [by apply (ApplierSnapshots 1 (mkOpReply OK "") None)|]. by intros idx r d [=]. }
  do 3 eexists. split; [|split; [exact Hr|]]; [reflexivity|].
  exact (applier_never_blocks 3 0 MakePersister (-1) 0 _ 1 (mkOpReply OK "") Hr eq_refl).
Defined.

(** ** Defects *)

(** A snapshot that arrives after a later command is dropped: the server
    says it is at index 3 and never gets commands 1 and 2. *)
Theorem late_snapshot_dropped :
  ∃ kv', deliver [(wit_raft, cmd_msg 3 (mkOp "Append" "a" "3" 2 1)); (wit_raft, snap_msg 2)]
           (StartKVServer 3 0 MakePersister (-1) 0).1 = ADone kv' ∧
    kv_commitIndex kv' = 3%Z ∧ kvStore kv' !! "b" = None ∧
    (state_at wit_G 3).1 !! "b" = Some "2".
Proof. eexists. split; [vm_compute; reflexivity|]. vm_compute. auto. Qed.

(** The command can be applied before its handler has registered a channel:
    the handler then waits for a reply that was already given to nobody, and
    answers a timeout although the command took effect. *)
Theorem applied_before_registered :
  ∃ kv', rtc sys_step (mkSystem wit_kv [] AIdle)
    (mkSystem kv' [HDone wit_req (ReplyPutAppend (mkPutAppendReply ErrTimeOut 0))] AIdle) ∧
    kvStore kv' !! "z" = Some "9".
Proof.
  eexists. split.
  - sys_do (RequestArrives wit_req).
    sys_do (CommandArrives (cmd_msg 4 (command_of wit_req))).
    sys_do ApplierSnapshots. sys_do ApplierNotifies.
    sys_do (HandlerRuns false 0). sys_do (HandlerRuns true 0). sys_do (HandlerRuns false 0).
    apply rtc_refl.
  - vm_compute. reflexivity.
Qed.
