(* ===== verification/KVCluster.v ===== *)
(** * The key/value servers on their Raft cluster (kvraft/server.go, raft/raft.go)

    The whole store: every [KVServer] with its handlers and its [applier], on
    the network of Raft peers of [RaftNet].  A service calls [Start],
    [Snapshot] and [Kill] of its own peer and takes the messages that the peer
    has put on its apply channel.  The theorems compose the agreement of
    [RaftStream] with the server of [KVReplica]: an execution has one log of
    commands ([klog], the longest list that any service has been given), every
    server's store is the result of a prefix of it, and every answer that leaves
    any server is a refusal, the log's answer to the request or, from the record
    table, its answer to this or a later-numbered request of the same client. *)

From S2P Require Import Prelude Persister RaftTypes RaftHandlers RaftLeader RaftNet RaftEffects RaftLocal RaftInv RaftSafety.
From S2P Require Import RaftTree RaftMoves RaftCommit RaftPreserve RaftAgreement RaftConsensus RaftStream.
From S2P Require Import KVServer KVMachine KVReplica.
From stdpp Require Import strings.

Section cluster.
Context `{!Gob (PersistentState Op)} `{!Gob Machine}.

(** ** States *)

(** One process: the server, its goroutines, and how many messages [applier]
    has taken from the apply channel. *)
Record Site := mkSite { site_sys : System; taken : nat }.

(** What the clients see, in the order in which it happens at the servers. *)
Inductive KEvent :=
  | Call (req : Request)
  | Return (req : Request) (reply : Reply).

(** The peers and the network, the services, and the events so far. *)
Record KVWorld := mkKVWorld {
  kw_raft : World Op;
  kw_sites : gmap Z Site;
  kw_events : list KEvent
}.

Definition StartSite (servers self : Z) (ps : Persister) (maxstate now : Z) : Site :=
  mkSite (mkSystem (StartKVServer servers self ps maxstate now).1 [] AIdle) 0.

Definition kinit (n maxstate now : Z) : KVWorld :=
  mkKVWorld (init n now)
    (list_to_map ((λ i, (i, StartSite n i MakePersister maxstate now)) <$> seqZ 0 n)) [].

(** The server of [i] with the present state of its peer. *)
Definition load (kw : KVWorld) (i : Z) : option Site :=
  site ← kw_sites kw !! i;
  rf ← nodes (kw_raft kw) !! i;
  let sys := site_sys site in
  Some (mkSite (mkSystem (set_rf rf (sys_kv sys)) (sys_handlers sys) (sys_applier sys)) (taken site)).

(** ** Steps of one service *)

Definition site_request (req : Request) (s : Site) : Site * Handler :=
  let sys := site_sys s in
  let '(kv', h) := handler_begin req (sys_kv sys) in
  (mkSite (mkSystem kv' (sys_handlers sys ++ [h]) (sys_applier sys)) (taken s), h).

Definition site_handler (k : nat) (timeout : bool) (s : Site) : option (Site * Handler) :=
  let sys := site_sys s in
  h ← sys_handlers sys !! k;
  '(kv', h') ← handler_run timeout h (sys_kv sys);
  Some (mkSite (mkSystem kv' (<[k := h']> (sys_handlers sys)) (sys_applier sys)) (taken s), h').

(** [for msg := range kv.applyCh]: the next message, up to the end of the first
    section. *)
Definition site_take (msgs : list (ApplyMsg Op)) (s : Site) : option Site :=
  let sys := site_sys s in
  match sys_applier sys with
  | AIdle =>
      msg ← msgs !! taken s;
      if CommandValid msg then
        cmd ← MsgCommand msg;
        let '(kv', reply, data) := applier_command cmd (CommandIndex msg) (sys_kv sys) in
        Some (mkSite (mkSystem kv' (sys_handlers sys) (KVServer.ASnapshot (CommandIndex msg) reply data))
                (S (taken s)))
      else if SnapshotValid msg then
        Some (mkSite (mkSystem (applier_install msg (sys_kv sys)) (sys_handlers sys) AIdle) (S (taken s)))
      else Some (mkSite sys (S (taken s)))
  | _ => None
  end.

(** The later sections of [applier]. *)
Definition site_applier (s : Site) : option Site :=
  let sys := site_sys s in
  match sys_applier sys with
  | AIdle => None
  | KVServer.ASnapshot idx reply data =>
      kv' ← applier_snapshot data (sys_kv sys);
      Some (mkSite (mkSystem kv' (sys_handlers sys) (ANotify idx reply)) (taken s))
  | ANotify idx reply =>
      kv' ← applier_notify idx reply (sys_kv sys);
      Some (mkSite (mkSystem kv' (sys_handlers sys) AIdle) (taken s))
  end.

Definition site_kill (s : Site) : Site :=
  let sys := site_sys s in
  mkSite (mkSystem (KVKill (sys_kv sys)) (sys_handlers sys) (sys_applier sys)) (taken s).

(** ** Steps of the cluster *)

Inductive KAction :=
  | KRaft (a : Action Op)                    (** a timer, a goroutine or a message of Raft *)
  | KRequest (i : Z) (req : Request)         (** an RPC arrives at server [i] *)
  | KHandler (i : Z) (k : nat) (timeout : bool)
  | KTake (i : Z)
  | KApplier (i : Z)
  | KKill (i : Z)
  | KCrash (i now : Z).                      (** the process dies and starts again *)

(** The actions of [RaftNet] that only a service takes. *)
Definition service_action (a : Action Op) : bool :=
  match a with AStart _ _ | RaftNet.ASnapshot _ _ _ | AKill _ | ARestart _ _ => true | _ => false end.

(** What a step does to the peers: the calls of the service, or the peers' own
    step. *)
Definition raft_part (a : KAction) (kw : KVWorld) : option (list (Action Op)) :=
  match a with
  | KRaft a => if service_action a then None else Some [a]
  | KRequest i req =>
      s ← load kw i;
      Some (match (begin_request (command_of req) (sys_kv (site_sys s))).2 with
            | SWait _ _ => [AStart i (command_of req)]
            | _ => []
            end)
  | KApplier i =>
      s ← load kw i;
      Some (match sys_applier (site_sys s) with
            | KVServer.ASnapshot _ _ (Some data) =>
                [RaftNet.ASnapshot i (kv_commitIndex (sys_kv (site_sys s))) data]
            | _ => []
            end)
  | KHandler _ _ _ | KTake _ => Some []
  | KKill i => Some [AKill i]
  | KCrash i now => Some [ARestart i now]
  end.

(** The reply of a handler that has returned. *)
Definition sent_reply (h : Handler) : list KEvent :=
  match h with HDone req reply => [Return req reply] | _ => [] end.

Definition set_site (i : Z) (s : Site) (w : World Op) (out : list KEvent) (kw : KVWorld) : KVWorld :=
  mkKVWorld w (<[i := s]> (kw_sites kw)) (kw_events kw ++ out).

(** The services after a step in which the peers have gone to [w]. *)
Definition site_part (a : KAction) (w : World Op) (kw : KVWorld) : option KVWorld :=
  match a with
  | KRaft _ => Some (mkKVWorld w (kw_sites kw) (kw_events kw))
  | KRequest i req =>
      s ← load kw i;
      let '(s', h) := site_request req s in Some (set_site i s' w (Call req :: sent_reply h) kw)
  | KHandler i k timeout =>
      s ← load kw i;
      '(s', h) ← site_handler k timeout s;
      Some (set_site i s' w (sent_reply h) kw)
  | KTake i =>
      s ← load kw i;
      s' ← site_take (default [] (delivered w !! i)) s;
      Some (set_site i s' w [] kw)
  | KApplier i =>
      s ← load kw i;
      s' ← site_applier s;
      Some (set_site i s' w [] kw)
  | KKill i =>
      s ← load kw i;
      Some (set_site i (site_kill s) w [] kw)
  | KCrash i now =>
      s ← load kw i;
      let kv := sys_kv (site_sys s) in
      Some (set_site i (StartSite (peers (kv_rf kv)) i (persister (kv_rf kv)) (maxraftstate kv) now)
              w [] kw)
  end.

Definition kstep (a : KAction) (kw : KVWorld) : option KVWorld :=
  acts ← raft_part a kw;
  match run acts (kw_raft kw) with Next w => site_part a w kw | _ => None end.

Fixpoint krun (acts : list KAction) (kw : KVWorld) : option KVWorld :=
  match acts with [] => Some kw | a :: acts' => kw' ← kstep a kw; krun acts' kw' end.

(** The peers' steps are careful ones. *)
Fixpoint kcareful (acts : list KAction) (kw : KVWorld) : bool :=
  match acts with
  | [] => true
  | a :: acts' =>
      match raft_part a kw, kstep a kw with
      | Some ra, Some kw' => careful ra (kw_raft kw) && kcareful acts' kw'
      | _, _ => false
      end
  end.

(** ** The log of an execution *)

Definition msgs_of (w : World Op) (i : Z) : list (ApplyMsg Op) := default [] (delivered w !! i).

(** The longer of [l] and the commands of some messages. *)
Definition longer (msgs : list (ApplyMsg Op)) (l : list Op) : list Op :=
  let l' := omap MsgCommand msgs in if decide (length l < length l') then l' else l.

(** The longest list of commands that a service has been given, now or before. *)
Definition given (w : World Op) (l : list Op) : list Op := map_fold (λ _, longer) l (delivered w).

(** The log of an execution that goes on from [kw], when [l] is the log so far:
    the longest list of commands that any service has been given in its course. *)
Fixpoint klog (acts : list KAction) (kw : KVWorld) (l : list Op) : list Op :=
  match acts with
  | [] => l
  | a :: acts' => match kstep a kw with Some kw' => klog acts' kw' (given (kw_raft kw') l) | None => l end
  end.

(** ** Answers of the log *)

(** [r] is what the command at [idx] answers. *)
Definition answer (G : list Op) (idx : Z) (r : OpReply) : Prop :=
  (1 ≤ idx)%Z ∧ outputs G empty_machine !! Z.to_nat (idx - 1) = Some r.

(** [r] is the log's answer to the request itself, or, for a request that the
    record table answers, to this or a later request of the same client. *)
Definition from_log (G : list Op) (req : Request) (r : OpReply) : Prop :=
  ∃ k c, G !! k = Some c ∧ outputs G empty_machine !! k = Some r ∧
    (c = command_of req ∨
     (op_ClientId c = op_ClientId (command_of req) ∧ (op_SeqId (command_of req) ≤ op_SeqId c)%Z)).

(** The server is dead, is not leader or not any more, or gave up waiting. *)
Definition refusal (r : OpReply) : Prop := or_Err r ∈ ["" : Err; ErrWrongLeader; ErrTimeOut].

Definition reply_ok (G : list Op) (req : Request) (reply : Reply) : Prop :=
  ∃ r leader, reply = fill_reply req r leader ∧ (refusal r ∨ from_log G req r).

Lemma outputs_app l l' m : outputs (l ++ l') m = outputs l m ++ outputs l' (replay l m).
Proof. revert m. induction l as [|c l IH]; intros m; [done|]. simpl. by rewrite IH. Qed.

Lemma outputs_prefix G G' k r :
  G `prefix_of` G' → outputs G empty_machine !! k = Some r → outputs G' empty_machine !! k = Some r.
Proof. intros [l ->] H. rewrite outputs_app. by apply lookup_app_l_Some. Qed.

Lemma outputs_at G k c :
  G !! k = Some c → outputs G empty_machine !! k = Some (apply_op c (state_at G (Z.of_nat k))).2.
Proof.
  intros Hk. rewrite <- (take_drop_middle G k c Hk) at 1. rewrite outputs_app.
  assert (length (outputs (take k G) empty_machine) = k) as Hl.
  { assert (∀ l m, length (outputs l m) = length l) as Ho by (induction l; simpl; auto).
    rewrite Ho, length_take. apply lookup_lt_Some in Hk. lia. }
  rewrite lookup_app_r by lia. rewrite Hl, Nat.sub_diag. unfold state_at. by rewrite Nat2Z.id.
Qed.

Lemma state_at_prefix G G' k : G `prefix_of` G' → k ≤ length G → state_at G' (Z.of_nat k) = state_at G (Z.of_nat k).
Proof. intros [l ->] Hk. unfold state_at. by rewrite Nat2Z.id, take_app_le. Qed.

Lemma answer_prefix G G' idx r : G `prefix_of` G' → answer G idx r → answer G' idx r.
Proof. intros Hp [? ?]. split; [done|by eapply outputs_prefix]. Qed.

Lemma from_log_prefix G G' req r : G `prefix_of` G' → from_log G req r → from_log G' req r.
Proof.
  intros Hp (k & c & Hk & Ho & Hc). exists k, c. split_and!; [by eapply prefix_lookup_Some|by eapply outputs_prefix|done].
Qed.

Lemma reply_ok_prefix G G' req reply : G `prefix_of` G' → reply_ok G req reply → reply_ok G' req reply.
Proof. intros Hp (r & l & -> & [?|?]); exists r, l; eauto using from_log_prefix. Qed.

(** The record table holds answers of the log. *)
Lemma record_logged G k client rec :
  (state_at G (Z.of_nat k)).2 !! client = Some rec →
  ∃ j c, G !! j = Some c ∧ outputs G empty_machine !! j = Some (LastReply rec) ∧
    op_ClientId c = client ∧ op_SeqId c = LastSeqId rec.
Proof.
  revert rec. induction k as [|k IH]; intros rec; [by rewrite no_record|].
  destruct (G !! k) as [c|] eqn:Hk.
  - replace (Z.of_nat (S k)) with (Z.of_nat k + 1)%Z by lia.
    rewrite (state_at_S G _ c) by (rewrite ?Nat2Z.id; done || lia).
    pose proof (outputs_at G k c Hk) as Ho. destruct (state_at G (Z.of_nat k)) as [st r] eqn:Hst.
    rewrite apply_op_table. cbn [snd]. intros [[<- <-]|[_ Hr]]%lookup_insert_Some; [by exists k, c|by apply IH].
  - intros Hr. apply IH. revert Hr. unfold state_at. apply lookup_ge_None in Hk.
    by rewrite !Nat2Z.id, !take_ge by lia.
Qed.

(** ** The invariant of a service *)

(** The request's command was appended at [idx] in term [st]. *)
Definition started (b : Born Op) (req : Request) (idx st : Z) : Prop :=
  ∃ p, b !! (idx, st) = Some (Some (command_of req), p).

(** What [waitApplied] returns. *)
Definition wait_ok (G : list Op) (req : Request) (res : OpReply * Err) : Prop :=
  (res.2 = OK ∧ from_log G req res.1) ∨ res.2 = ErrWrongLeader ∨ res.2 = ErrTimeOut.

(** [own] gives the index for which a channel was made. *)
Definition handler_ok (G : list Op) (b : Born Op) (own : nat → Z) (s : Site) (hd : Handler) : Prop :=
  match hd with
  | HRegister req idx st => started b req idx st
  | HWait req idx st ch =>
      started b req idx st ∧ own ch = idx ∧ ch < length (chans (sys_kv (site_sys s)))
  | HCheck req idx st r => started b req idx st ∧ answer G idx r ∧ (idx ≤ Z.of_nat (taken s))%Z
  | HFinish req _ res => wait_ok G req res
  | HDone req reply => reply_ok G req reply
  end.

Definition phase_ok (G : list Op) (k : nat) (ap : ApplierPhase) : Prop :=
  match ap with
  | AIdle => True
  | KVServer.ASnapshot idx r data => idx = Z.of_nat k ∧ answer G idx r ∧ data = None
  | ANotify idx r => idx = Z.of_nat k ∧ answer G idx r
  end.

Record site_ok (G : list Op) (b : Born Op) (msgs : list (ApplyMsg Op)) (own : nat → Z) (s : Site) : Prop := {
  so_max : maxraftstate (sys_kv (site_sys s)) = (-1)%Z;
  so_taken : taken s ≤ length msgs;
  so_log : taken s ≤ length G;
  so_machine : machine (sys_kv (site_sys s)) = state_at G (Z.of_nat (taken s));
  so_commit : kv_commitIndex (sys_kv (site_sys s)) = Z.of_nat (taken s);
  so_chans : chans_ok (busy_of (sys_applier (site_sys s))) (sys_kv (site_sys s));
  so_phase : phase_ok G (taken s) (sys_applier (site_sys s));
  so_own : ∀ idx ch, notifyChans (sys_kv (site_sys s)) !! idx = Some ch → own ch = idx;
  so_full : ∀ ch r, chans (sys_kv (site_sys s)) !! ch = Some (Some r) →
    answer G (own ch) r ∧ (own ch ≤ Z.of_nat (taken s))%Z;
  so_handlers : ∀ hd, hd ∈ sys_handlers (site_sys s) → handler_ok G b own s hd
}.

Lemma handler_ok_mono G G' b b' own s hd :
  G `prefix_of` G' → b ⊆ b' → handler_ok G b own s hd → handler_ok G' b' own s hd.
Proof.
  intros Hp Hb. assert (∀ req idx st, started b req idx st → started b' req idx st) as Hst.
  { intros req idx st [p Hst]. exists p. by eapply lookup_weaken. }
  destruct hd as [req idx st|req idx st ch|req idx st r|req idx res|req reply]; simpl.
  - auto.
  - intros (? & ? & ?). auto.
  - intros (? & ? & ?). eauto using answer_prefix.
  - intros [[? ?]|?]; [left|by right]. eauto using from_log_prefix.
  - by apply reply_ok_prefix.
Qed.

Lemma site_ok_mono G G' b b' msgs msgs' own s :
  G `prefix_of` G' → b ⊆ b' → length msgs ≤ length msgs' →
  site_ok G b msgs own s → site_ok G' b' msgs' own s.
Proof.
  intros Hp Hb Hm [H1 H2 H3 H4 H5 H6 H7 H8 H9 H10]. split; try done.
  - lia.
  - apply prefix_length in Hp. lia.
  - rewrite H4. symmetry. by apply state_at_prefix.
  - revert H7. destruct (sys_applier (site_sys s)); simpl; naive_solver eauto using answer_prefix.
  - intros ch r Hc. destruct (H9 ch r Hc). split; [by eapply answer_prefix|done].
  - intros hd Hin. eapply handler_ok_mono; eauto.
Qed.

(** A change that does not touch what the invariant reads. *)
Lemma site_ok_ext G b msgs own s kv' :
  let kv := sys_kv (site_sys s) in
  maxraftstate kv' = maxraftstate kv → machine kv' = machine kv → kv_commitIndex kv' = kv_commitIndex kv →
  notifyChans kv' = notifyChans kv → chans kv' = chans kv → site_ok G b msgs own s →
  site_ok G b msgs own (mkSite (mkSystem kv' (sys_handlers (site_sys s)) (sys_applier (site_sys s))) (taken s)).
Proof.
  intros kv E1 E2 E3 E4 E5 [H1 H2 H3 H4 H5 H6 H7 H8 H9 H10].
  fold kv in H1, H4, H5, H6, H8, H9. split; simpl; try congruence.
  - by eapply chans_ok_ext.
  - intros idx ch. rewrite E4. apply H8.
  - intros ch r. rewrite E5. apply H9.
  - intros hd Hin. specialize (H10 hd Hin). destruct hd; simpl in *; rewrite ?E5; auto.
Qed.

Lemma load_ok G b msgs own kw i s :
  load kw i = Some s →
  (∀ s0, kw_sites kw !! i = Some s0 → site_ok G b msgs own s0) →
  site_ok G b msgs own s ∧ nodes (kw_raft kw) !! i = Some (kv_rf (sys_kv (site_sys s))).
Proof.
  unfold load. intros H Hs. apply bind_Some in H as (s0 & H0 & H). apply bind_Some in H as (rf & Hrf & [= <-]).
  split; [|done]. by apply site_ok_ext; [..|apply Hs].
Qed.

(** A new handler. *)
Lemma site_ok_handler G b msgs own s hd :
  site_ok G b msgs own s → handler_ok G b own s hd →
  site_ok G b msgs own
    (mkSite (mkSystem (sys_kv (site_sys s)) (sys_handlers (site_sys s) ++ [hd]) (sys_applier (site_sys s))) (taken s)).
Proof.
  intros [H1 H2 H3 H4 H5 H6 H7 H8 H9 H10] Hh. split; simpl; try done.
  intros hd'. rewrite elem_of_app, list_elem_of_singleton. intros [Hin| ->]; [|done].
  by apply (H10 hd') in Hin.
Qed.

(** An old one moves on. *)
Lemma site_ok_move G b msgs own s k hd hd' :
  site_ok G b msgs own s → sys_handlers (site_sys s) !! k = Some hd → handler_ok G b own s hd' →
  site_ok G b msgs own
    (mkSite (mkSystem (sys_kv (site_sys s)) (<[k := hd']> (sys_handlers (site_sys s))) (sys_applier (site_sys s))) (taken s)).
Proof.
  intros [H1 H2 H3 H4 H5 H6 H7 H8 H9 H10] Hk Hh. split; simpl; try done.
  intros x [j Hj]%list_elem_of_lookup.
  apply list_lookup_insert_Some in Hj as [(_ & <- & _)|[_ Hj]]; [done|].
  by apply (H10 x), list_elem_of_lookup_2 with j.
Qed.

(** ** The steps of a service preserve it *)

(** A killed server, a record, a refusal, or a command in the log. *)
Lemma request_handler G b b' msgs own s req kv' st :
  site_ok G b msgs own s → begin_request (command_of req) (sys_kv (site_sys s)) = (kv', st) →
  (∀ idx t, st = SWait idx t → started b' req idx t) →
  handler_ok G b' own s
    (match st with
     | SDead => HDone req (fill_reply req zero_OpReply 0)
     | SCached r => HDone req (fill_reply req r 0)
     | SNotLeader l => HDone req (fill_reply req (mkOpReply ErrWrongLeader "") l)
     | SWait index startTerm => HRegister req index startTerm
     end).
Proof.
  intros Hs Hreq Hst. destruct st as [|r|l|idx t]; simpl.
  - exists zero_OpReply, 0%Z. split; [done|]. left. apply list_elem_of_here.
  - exists r, 0%Z. split; [done|]. right. unfold begin_request in Hreq.
    destruct (kv_killed _); [done|]. destruct (recordMap _ !! _) as [rec|] eqn:Hr.
    + destruct (op_SeqId (command_of req) <=? LastSeqId rec)%Z eqn:Hle; b2p;
        [|unfold Start in Hreq; by destruct (negb _) in Hreq].
      injection Hreq as <- <-. destruct (record_logged G (taken s) (op_ClientId (command_of req)) rec) as (j & c & Hj & Ho & Hc & Hq).
      { rewrite <- (so_machine _ _ _ _ _ Hs). exact Hr. }
      exists j, c. split_and!; [done..|]. right. split; [done|lia].
    + unfold Start in Hreq. by destruct (negb _) in Hreq.
  - exists (mkOpReply ErrWrongLeader ""), l. split; [done|]. left. apply list_elem_of_further, list_elem_of_here.
  - by apply Hst.
Qed.

Lemma begin_request_max cmd kv kv' st : begin_request cmd kv = (kv', st) → maxraftstate kv' = maxraftstate kv.
Proof. unfold begin_request. intros H. case_all; by simplify_eq. Qed.

Lemma site_request_ok G b b' msgs own s req s' hd :
  site_ok G b msgs own s → b ⊆ b' → site_request req s = (s', hd) →
  (∀ idx t, (begin_request (command_of req) (sys_kv (site_sys s))).2 = SWait idx t → started b' req idx t) →
  site_ok G b' msgs own s' ∧ hd ∈ sys_handlers (site_sys s').
Proof.
  intros Hs Hb H Hst. unfold site_request, handler_begin in H.
  destruct (begin_request _ _) as [kv' st] eqn:Hreq. injection H as <- <-. simpl in Hst. split.
  2: { simpl. apply elem_of_app. right. apply list_elem_of_here. }
  pose proof (request_handler G b b' msgs own s req kv' st Hs Hreq Hst) as Hh.
  destruct (begin_request_frame _ _ _ _ Hreq) as (E1 & E2 & E3 & E4).
  pose proof (site_ok_mono G G b b' msgs msgs own s ltac:(done) Hb ltac:(done) Hs) as Hs'.
  pose proof (site_ok_ext G b' msgs own s kv' (begin_request_max _ _ _ _ Hreq) E4 E3 E1 E2 Hs') as Hs2.
  apply (site_ok_handler G b' msgs own _ _ Hs2). destruct st; simpl in *; done.
Qed.

(** The channels of a service after a handler has touched them. *)
Lemma site_ok_chans G b msgs own own' s kv' hs' :
  let kv := sys_kv (site_sys s) in
  maxraftstate kv' = maxraftstate kv → machine kv' = machine kv → kv_commitIndex kv' = kv_commitIndex kv →
  chans_ok (busy_of (sys_applier (site_sys s))) kv' →
  (∀ idx ch, notifyChans kv' !! idx = Some ch → own' ch = idx) →
  (∀ ch r, chans kv' !! ch = Some (Some r) → chans kv !! ch = Some (Some r) ∧ own' ch = own ch) →
  (∀ hd, hd ∈ hs' → handler_ok G b own'
    (mkSite (mkSystem kv' hs' (sys_applier (site_sys s))) (taken s)) hd) →
  site_ok G b msgs own s →
  site_ok G b msgs own' (mkSite (mkSystem kv' hs' (sys_applier (site_sys s))) (taken s)).
Proof.
  intros kv E1 E2 E3 Hch Hown Hfull Hhs [H1 H2 H3 H4 H5 H6 H7 H8 H9 H10].
  fold kv in H1, H4, H5, H9. split; simpl; try congruence; try done.
  intros ch r Hc. destruct (Hfull ch r Hc) as [Hc' ->]. by apply H9.
Qed.

Lemma site_register_ok G b msgs own s k req idx st :
  site_ok G b msgs own s → sys_handlers (site_sys s) !! k = Some (HRegister req idx st) →
  let kv := sys_kv (site_sys s) in let r := waitApplied_register idx kv in
  site_ok G b msgs (λ c, if decide (c = length (chans kv)) then idx else own c)
    (mkSite (mkSystem r.1 (<[k := HWait req idx st r.2]> (sys_handlers (site_sys s))) (sys_applier (site_sys s))) (taken s)).
Proof.
  intros Hs Hk kv r. pose proof (so_handlers _ _ _ _ _ Hs _ (list_elem_of_lookup_2 _ _ _ Hk)) as Hst.
  pose proof (so_chans _ _ _ _ _ Hs) as Hch.
  apply (site_ok_chans G b msgs own); try done.
  - by apply register_ok.
  - intros i ch. simpl. intros [[<- <-]|[_ Hi]]%lookup_insert_Some; [by rewrite decide_True|].
    pose proof (ch_made _ _ Hch i ch Hi). rewrite decide_False by (unfold kv; lia). by apply (so_own _ _ _ _ _ Hs).
  - intros ch x. simpl. intros [Hc|[Hge Hc]]%lookup_app_Some.
    + split; [done|]. apply decide_False. apply lookup_lt_Some in Hc. lia.
    + by apply list_lookup_singleton_Some in Hc as [_ ?].
  - intros hd [j Hj]%list_elem_of_lookup.
    apply list_lookup_insert_Some in Hj as [(_ & <- & _)|[_ Hj]].
    + simpl. rewrite decide_True by done. split_and!; [done..|]. rewrite length_app. simpl. fold kv. lia.
    + pose proof (so_handlers _ _ _ _ _ Hs hd (list_elem_of_lookup_2 _ _ _ Hj)) as Hh.
      destruct hd; simpl in Hh |- *; try done. destruct Hh as (? & ? & Hlt). fold kv in Hlt.
      rewrite decide_False by lia. split_and!; [done..|]. rewrite length_app. fold kv. lia.
Qed.

Lemma site_receive_ok G b msgs own s k req idx st ch kv' r :
  site_ok G b msgs own s → sys_handlers (site_sys s) !! k = Some (HWait req idx st ch) →
  waitApplied_receive ch (sys_kv (site_sys s)) = Some (kv', r) →
  site_ok G b msgs own
    (mkSite (mkSystem kv' (<[k := HCheck req idx st r]> (sys_handlers (site_sys s))) (sys_applier (site_sys s))) (taken s)).
Proof.
  intros Hs Hk Hr. pose proof (receive_ok _ _ _ _ _ (so_chans _ _ _ _ _ Hs) Hr) as Hch.
  destruct (so_handlers _ _ _ _ _ Hs _ (list_elem_of_lookup_2 _ _ _ Hk)) as (Hst & Ho & Hlt).
  unfold waitApplied_receive in Hr. destruct (chans (sys_kv (site_sys s)) !! ch) as [[r'|]|] eqn:Hc; try done.
  injection Hr as <- <-. destruct (so_full _ _ _ _ _ Hs ch r' Hc) as [Ha Ht]. rewrite Ho in Ha, Ht.
  apply (site_ok_chans G b msgs own); try done.
  - apply (so_own _ _ _ _ _ Hs).
  - intros c x. simpl. intros [(_ & ? & _)|[_ ?]]%list_lookup_insert_Some; done.
  - intros hd [j Hj]%list_elem_of_lookup. apply list_lookup_insert_Some in Hj as [(_ & <- & _)|[_ Hj]]; [done|].
    pose proof (so_handlers _ _ _ _ _ Hs hd (list_elem_of_lookup_2 _ _ _ Hj)) as Hh.
    destruct hd; simpl in Hh |- *; try done. by rewrite length_insert.
Qed.

Lemma site_end_ok G b msgs own s k req idx res kv' r :
  site_ok G b msgs own s → sys_handlers (site_sys s) !! k = Some (HFinish req idx res) →
  end_request idx res (sys_kv (site_sys s)) = (kv', r) →
  site_ok G b msgs own
    (mkSite (mkSystem kv' (<[k := HDone req (fill_reply req r 0)]> (sys_handlers (site_sys s)))
      (sys_applier (site_sys s))) (taken s)).
Proof.
  intros Hs Hk Hr. pose proof (end_request_ok _ idx res _ (so_chans _ _ _ _ _ Hs)) as Hch. rewrite Hr in Hch.
  pose proof (so_handlers _ _ _ _ _ Hs _ (list_elem_of_lookup_2 _ _ _ Hk)) as Hw. simpl in Hw.
  assert (reply_ok G req (fill_reply req r 0)) as Hrep.
  { exists r, 0%Z. split; [done|]. unfold end_request in Hr. destruct Hw as [[Hok Hf]|Hbad].
    - rewrite bool_decide_true in Hr by done. injection Hr as _ <-. by right.
    - left. destruct res as [r0 e]. simpl in *. destruct Hbad as [-> | ->]; simpl in Hr; injection Hr as _ <-;
        unfold refusal; simpl; set_solver. }
  assert (machine kv' = machine (sys_kv (site_sys s)) ∧ chans kv' = chans (sys_kv (site_sys s)) ∧
    maxraftstate kv' = maxraftstate (sys_kv (site_sys s)) ∧ kv_commitIndex kv' = kv_commitIndex (sys_kv (site_sys s)) ∧
    notifyChans kv' = delete idx (notifyChans (sys_kv (site_sys s)))) as (E1 & E2 & E3 & E4 & E5).
  { unfold end_request in Hr. by case_bool_decide; injection Hr as <- _. }
  apply (site_ok_chans G b msgs own); try done.
  - intros i ch. rewrite E5. intros [_ Hi]%lookup_delete_Some. by apply (so_own _ _ _ _ _ Hs).
  - intros c x. by rewrite E2.
  - intros hd [j Hj]%list_elem_of_lookup. apply list_lookup_insert_Some in Hj as [(_ & <- & _)|[_ Hj]]; [done|].
    pose proof (so_handlers _ _ _ _ _ Hs hd (list_elem_of_lookup_2 _ _ _ Hj)) as Hh.
    destruct hd; simpl in Hh |- *; try done. by rewrite E2.
Qed.

(** A section of a handler; [Hown] is what Raft promises a leader. *)
Lemma site_handler_ok G b msgs own s k timeout s' hd :
  site_ok G b msgs own s →
  (∀ req idx r, started b req idx (currTerm (kv_rf (sys_kv (site_sys s)))) →
    state (kv_rf (sys_kv (site_sys s))) = Leader → answer G idx r → (idx ≤ Z.of_nat (taken s))%Z →
    from_log G req r) →
  site_handler k timeout s = Some (s', hd) →
  (∃ own', site_ok G b msgs own' s') ∧ hd ∈ sys_handlers (site_sys s').
Proof.
  intros Hs Hown H. unfold site_handler in H. apply bind_Some in H as (h & Hk & H).
  apply bind_Some in H as ([kv' h'] & Hr & [= <- <-]). split.
  2: { simpl. apply list_elem_of_lookup_2 with k, list_lookup_insert_eq. by eapply lookup_lt_Some. }
  pose proof (so_handlers _ _ _ _ _ Hs _ (list_elem_of_lookup_2 _ _ _ Hk)) as Hh.
  destruct h as [req idx st|req idx st ch|req idx st r|req idx res|req reply]; simpl in Hr.
  - injection Hr as <- <-. eexists. by apply site_register_ok.
  - destruct timeout.
    + injection Hr as <- <-. exists own. eapply site_ok_move; [done..|]. right. by right.
    + apply bind_Some in Hr as ([kv1 r] & Hr & [= <- <-]). exists own. by eapply site_receive_ok.
  - injection Hr as <- <-. exists own. eapply site_ok_move; [done..|]. destruct Hh as (Hst & Ha & Ht).
    unfold waitApplied_check, GetState. simpl.
    destruct (state (kv_rf (sys_kv (site_sys s))) =? Leader)%Z eqn:Hl; [|by right; left].
    destruct (currTerm (kv_rf (sys_kv (site_sys s))) =? st)%Z eqn:Ht2; [|by right; left]. b2p.
    left. split; [done|]. simpl. subst st. by eapply Hown.
  - destruct (end_request idx res (sys_kv (site_sys s))) as [kv1 r] eqn:He. injection Hr as <- <-.
    exists own. by eapply site_end_ok.
  - done.
Qed.

(** [applier] takes the next command of the log. *)
Lemma site_take_ok G b msgs own s s' :
  site_ok G b msgs own s → msgs = log_msgs (take (length msgs) G) →
  site_take msgs s = Some s' → site_ok G b msgs own s'.
Proof.
  intros Hs Hm H. unfold site_take in H. destruct (sys_applier (site_sys s)) eqn:Hap; try done.
  apply bind_Some in H as (msg & Hk & H). pose proof Hk as Hk'. rewrite Hm in Hk'. unfold log_msgs in Hk'.
  rewrite list_lookup_imap in Hk'. apply fmap_Some in Hk' as (c & HG & ->). simpl in H.
  apply lookup_take_Some in HG as [HG Hlt].
  destruct (applier_command c _ _) as [[kv' reply] data] eqn:Hc. injection H as <-.
  pose proof (so_chans _ _ _ _ _ Hs) as Hch. rewrite Hap in Hch.
  pose proof (command_ok c (Z.of_nat (taken s) + 1) _ _ _ _ Hch ltac:(rewrite (so_commit _ _ _ _ _ Hs); lia) Hc) as Hch'.
  assert (maxraftstate kv' = (-1)%Z ∧ data = None) as [Hmax ->].
  { pose proof (so_max _ _ _ _ _ Hs) as Hx. revert Hc. unfold applier_command.
    destruct (apply_op _ _) as [m r]. simpl. rewrite Hx. by intros [= <- _ <-]. }
  apply command_frame in Hc as (E1 & E2 & E3 & _ & E4 & E5 & _).
  rewrite (so_machine _ _ _ _ _ Hs) in E4, E5. replace (Z.of_nat (taken s) + 1)%Z with (Z.of_nat (S (taken s))) in * by lia.
  split; simpl; try done.
  - by apply lookup_lt_Some in HG.
  - rewrite E4. replace (Z.of_nat (S (taken s))) with (Z.of_nat (taken s) + 1)%Z by lia.
    rewrite (state_at_S G _ c); [done|lia|by rewrite Nat2Z.id].
  - split_and!; [done| |done]. split; [lia|]. replace (Z.to_nat (Z.of_nat (S (taken s)) - 1)) with (taken s) by lia.
    rewrite E5. by apply outputs_at.
  - rewrite E1. apply (so_own _ _ _ _ _ Hs).
  - intros ch r. rewrite E2. intros Hr. destruct (so_full _ _ _ _ _ Hs ch r Hr). split; [done|lia].
  - intros hd Hin. pose proof (so_handlers _ _ _ _ _ Hs hd Hin) as Hh.
    destruct hd; simpl in Hh |- *; rewrite ?E2; try done. destruct Hh as (? & ? & ?). split_and!; [done..|lia].
Qed.

Lemma site_notify_ok G b msgs own s idx reply kv' :
  site_ok G b msgs own s → sys_applier (site_sys s) = ANotify idx reply →
  applier_notify idx reply (sys_kv (site_sys s)) = Some kv' →
  site_ok G b msgs own (mkSite (mkSystem kv' (sys_handlers (site_sys s)) AIdle) (taken s)).
Proof.
  intros Hs Hap H. pose proof (so_chans _ _ _ _ _ Hs) as Hch. pose proof (so_phase _ _ _ _ _ Hs) as Hph.
  rewrite Hap in Hch, Hph. destruct Hph as [Hidx Ha].
  destruct (notify_can idx reply _ Hch) as (kv1 & H1 & Hch1 & Hm & Hci & _). rewrite H in H1. injection H1 as <-.
  assert (maxraftstate kv' = maxraftstate (sys_kv (site_sys s)) ∧
    notifyChans kv' = notifyChans (sys_kv (site_sys s)) ∧ length (chans kv') = length (chans (sys_kv (site_sys s))) ∧
    ∀ ch r, chans kv' !! ch = Some (Some r) →
      chans (sys_kv (site_sys s)) !! ch = Some (Some r) ∨
      (notifyChans (sys_kv (site_sys s)) !! idx = Some ch ∧ r = reply)) as (E1 & E2 & E3 & E4).
  { unfold applier_notify in H. destruct (notifyChans _ !! idx) as [ch|] eqn:Hn; [|injection H as <-; auto].
    destruct (chans _ !! ch) as [[?|]|] eqn:Hc; try done. injection H as <-. simpl.
    split_and!; [done..|by rewrite length_insert|].
    intros c r [(<- & [= ->] & _)|[_ ?]]%list_lookup_insert_Some; auto. }
  destruct Hs as [H1 H2 H3 H4 H5 H6 H7 H8 H9 H10]. split; simpl; try congruence; try done.
  - intros i ch. rewrite E2. apply H8.
  - intros ch r [Hc|[Hn ->]]%E4; [by apply H9|]. rewrite (H8 _ _ Hn). split; [done|lia].
  - intros hd Hin. specialize (H10 hd Hin). destruct hd; simpl in *; rewrite ?E3; done.
Qed.

Lemma site_applier_ok G b msgs own s s' :
  site_ok G b msgs own s → site_applier s = Some s' → site_ok G b msgs own s'.
Proof.
  intros Hs H. unfold site_applier in H. destruct (sys_applier (site_sys s)) as [|idx r data|idx r] eqn:Hap; [done|..];
    apply bind_Some in H as (kv' & H & [= <-]); [|by eapply site_notify_ok].
  pose proof (so_phase _ _ _ _ _ Hs) as Hph. rewrite Hap in Hph. destruct Hph as (Hi & Ha & ->).
  injection H as <-. destruct Hs as [H1 H2 H3 H4 H5 H6 H7 H8 H9 H10]. rewrite Hap in H6. split; done.
Qed.

Lemma site_kill_ok G b msgs own s : site_ok G b msgs own s → site_ok G b msgs own (site_kill s).
Proof. by apply site_ok_ext. Qed.

Lemma StartSite_ok G b servers self ps now :
  snapshot ps = [] → site_ok G b [] (λ _, 0%Z) (StartSite servers self ps (-1) now).
Proof.
  intros Hps. pose proof (start_ok servers self ps (-1) now) as Hch.
  destruct (start_at G 0 servers self ps (-1) now) as [[_ Hm] Hci]; [by left|].
  assert (maxraftstate (StartKVServer servers self ps (-1) now).1 = (-1)%Z ∧
    notifyChans (StartKVServer servers self ps (-1) now).1 = ∅ ∧
    chans (StartKVServer servers self ps (-1) now).1 = []) as (E1 & E2 & E3).
  { unfold StartKVServer, ReadSnapshot. rewrite clone_eq, Hps. by destruct (Make servers self ps now). }
  unfold StartSite. set (kv0 := (StartKVServer servers self ps (-1) now).1) in *. clearbody kv0.
  split; simpl; try done; try lia.
  - intros idx ch. by rewrite E2, lookup_empty.
  - intros ch r. by rewrite E3.
  - intros hd. by intros ?%not_elem_of_nil.
Qed.

(** ** The whole cluster *)

(** The peers: agreement, no compaction, and the log so far: a prefix of the
    committed commands, as long as what any service has been given. *)
Record peers_ok (n : Z) (w : World Op) (h : Hist) (g : Ghost) (G : list Op) : Prop := {
  pk_inv : Inv n w h;
  pk_agr : Agr n w h g;
  pk_plain : Plain w;
  pk_log : ∃ C, logged n w h g C ∧ G `prefix_of` C;
  pk_given i : length (msgs_of w i) ≤ length G
}.

(** The commands of a list's messages. *)
Lemma msgs_commands (f : nat → Op → ApplyMsg Op) l :
  (∀ k c, MsgCommand (f k c) = Some c) → omap MsgCommand (imap f l) = l.
Proof.
  revert f. induction l as [|c l IH]; intros f Hf; [done|]. simpl. rewrite Hf. f_equal. apply IH. intros. apply Hf.
Qed.

(** Prefixes of one list are prefixes of each other. *)
Lemma longer_prefix msgs G C k :
  G `prefix_of` C → msgs = log_msgs (take k C) →
  G `prefix_of` longer msgs G ∧ longer msgs G `prefix_of` C ∧ length msgs ≤ length (longer msgs G).
Proof.
  intros HG ->. unfold longer. assert (omap MsgCommand (log_msgs (take k C)) = take k C) as ->.
  { apply msgs_commands. done. }
  assert (length (log_msgs (take k C)) = length (take k C)) as -> by (unfold log_msgs; apply length_imap).
  pose proof (prefix_take C k) as Hk. case_decide; [|split_and!; [done..|lia]].
  split_and!; [|done..]. destruct (prefix_weak_total _ _ _ HG Hk) as [?|Hp]; [done|]. apply prefix_length in Hp. lia.
Qed.

Lemma given_prefix n w h g C G :
  Agr n w h g → Plain w → logged n w h g C → G `prefix_of` C →
  G `prefix_of` given w G ∧ given w G `prefix_of` C ∧ ∀ i, length (msgs_of w i) ≤ length (given w G).
Proof.
  intros HA HP HL HG. unfold given, msgs_of.
  assert (∀ i msgs, delivered w !! i = Some msgs → msgs = log_msgs (take (length msgs) C)) as Hm.
  { intros i msgs Hi. by eapply plain_log_msgs. }
  revert Hm. apply (map_fold_weak_ind (λ r m, (∀ i msgs, m !! i = Some msgs → msgs = log_msgs (take (length msgs) C)) →
    G `prefix_of` r ∧ r `prefix_of` C ∧ ∀ i, length (default [] (m !! i)) ≤ length r)).
  - intros _. split_and!; [done..|]. intros i. rewrite lookup_empty. simpl. lia.
  - intros i msgs m r Hi IH Hm. destruct IH as (H1 & H2 & H3).
    { intros j msgs' Hj. apply (Hm j). rewrite lookup_insert_ne; [done|congruence]. }
    destruct (longer_prefix msgs r C (length msgs) H2) as (L1 & L2 & L3); [apply (Hm i), lookup_insert_eq|].
    split_and!; [by etrans|done|]. intros j. destruct (decide (j = i)) as [->|Hne]; [by rewrite lookup_insert_eq|].
    rewrite lookup_insert_ne by done. apply prefix_length in L1. specialize (H3 j). lia.
Qed.

(** The log after the peers have moved. *)
Lemma peers_given n w h g C G :
  Inv n w h → Agr n w h g → Plain w → logged n w h g C → G `prefix_of` C →
  G `prefix_of` given w G ∧ peers_ok n w h g (given w G).
Proof.
  intros HI HA HP HL HG. destruct (given_prefix n w h g C G HA HP HL HG) as (? & ? & ?).
  split; [done|]. split; eauto.
Qed.

(** [c] is the command of a request that has arrived. *)
Definition called (evs : list KEvent) (c : Op) : Prop := ∃ req, Call req ∈ evs ∧ command_of req = c.

(** The calls of a step. *)
Definition calls (a : KAction) : list KEvent := match a with KRequest _ req => [Call req] | _ => [] end.

Record KInv (n : Z) (kw : KVWorld) (h : Hist) (g : Ghost) (G : list Op) : Prop := {
  ki_peers : peers_ok n (kw_raft kw) h g G;
  ki_site i s : kw_sites kw !! i = Some s →
    ∃ own, site_ok G (born h) (msgs_of (kw_raft kw) i) own s;
  ki_reply req reply : Return req reply ∈ kw_events kw → reply_ok G req reply;
  ki_born x c p : born h !! x = Some (Some c, p) → called (kw_events kw) c
}.

Lemma peers_step n w h g G a w' :
  peers_ok n w h g G → step a w = Next w' → careful_action a w = true → plain_action a = true →
  ∃ g', G `prefix_of` given w' G ∧ born h ⊆ born (evolve a w h) ∧ peers_ok n w' (evolve a w h) g' (given w' G).
Proof.
  intros [HI HA HP (C & HL & HC) _] Hs Hc Hp. destruct (step_inv n w h a w' HI Hs) as [He HI'].
  destruct (step_agr n w h g a w' HI HA Hc Hs) as (g' & Hg & HA').
  destruct (logged_grow n w h g w' _ g' C HI HA HL He Hg HI' HA') as (C' & HCC & HL').
  destruct (peers_given n w' _ g' C' G HI' HA') as [? ?]; [by apply (step_plain n w h g a w')|done|by etrans|].
  exists g'. split_and!; [done|apply He|done].
Qed.

(** Only a delivery and a restart change what the services have. *)
Ltac quiet_step H :=
  unfold run_section in H; repeat (case_match; simplify_eq/=; try done).

Lemma run_vote_delivered (w w' : World Op) eid p now net e ph :
  run_vote w eid p now net e ph = Next w' → delivered w' = delivered w.
Proof. unfold run_vote. intros H. quiet_step H. Qed.

Lemma run_task_delivered (w w' : World Op) k now net al t :
  run_task w k now net al t = Next w' →
  delivered w' = delivered w ∨ ∃ i m, delivered w' = <[i := msgs_of w i ++ [m]]> (delivered w).
Proof.
  unfold run_task, msgs_of. intros H. destruct t; quiet_step H; try (by left);
    right; do 2 eexists; reflexivity.
Qed.

(** Only a restart takes messages back. *)
Lemma step_msgs a w w' i :
  step a w = Next w' → (∀ now, a ≠ ARestart i now) → length (msgs_of w i) ≤ length (msgs_of w' i).
Proof.
  intros H Hne.
  assert (delivered w' = delivered w ∨ (∃ j m, delivered w' = <[j := msgs_of w j ++ [m]]> (delivered w)) ∨
    ∃ j now, a = ARestart j now ∧ delivered w' = <[j := []]> (delivered w)) as [E|[(j & m & E)|(j & now & -> & E)]].
  { destruct a; simpl in H.
    6: { right; right. quiet_step H. eauto. }
    6: { left. quiet_step H. by eapply run_vote_delivered. }
    6: { quiet_step H. apply run_task_delivered in H as [?|?]; auto. }
    all: left; quiet_step H. }
  - unfold msgs_of. by rewrite E.
  - unfold msgs_of at 2. rewrite E. destruct (decide (j = i)) as [->|Hji].
    + rewrite lookup_insert_eq. simpl. rewrite length_app. lia.
    + by rewrite lookup_insert_ne.
  - unfold msgs_of. rewrite E. destruct (decide (j = i)) as [->|Hji]; [by destruct (Hne now)|].
    by rewrite lookup_insert_ne.
Qed.

Lemma peers_msgs n w h g G i :
  peers_ok n w h g G → msgs_of w i = log_msgs (take (length (msgs_of w i)) G).
Proof.
  intros [HI HA HP (C & HL & HC) Hg]. specialize (Hg i). unfold msgs_of in *.
  destruct (delivered w !! i) as [msgs|] eqn:Hi; [|done]. simpl in *.
  rewrite (plain_log_msgs n w h g C i msgs HA HP HL Hi) at 1. f_equal. destruct HC as [l ->]. by apply take_app_le.
Qed.

(** What Raft promises the handlers of a leader. *)
Lemma own_answer n w h g G i rf own s :
  peers_ok n w h g G → nodes w !! i = Some rf → site_ok G (born h) (msgs_of w i) own s →
  ∀ req idx r, started (born h) req idx (currTerm rf) → state rf = Leader → answer G idx r →
    (idx ≤ Z.of_nat (taken s))%Z → from_log G req r.
Proof.
  intros Hpk Hi Hs req idx r [p Hb] Hl [Hidx Hr] Ht. pose proof (so_taken _ _ _ _ _ Hs) as Htk.
  pose proof (peers_msgs _ _ _ _ _ i Hpk) as Hm. destruct Hpk as [HI HA HP _ _].
  destruct (lookup_lt_is_Some_2 (msgs_of w i) (Z.to_nat (idx - 1))) as [msg Hk]; [lia|].
  pose proof Hk as Hk'. rewrite Hm in Hk'. unfold log_msgs in Hk'. rewrite list_lookup_imap in Hk'.
  apply fmap_Some in Hk' as (c & [HG _]%lookup_take_Some & ->).
  assert (CommandIndex (command_msg (Z.to_nat (idx - 1)) c) = idx) as Hci by (simpl; lia).
  unfold msgs_of in *. destruct (delivered w !! i) as [msgs|] eqn:Hd; [|done]. simpl in Hk.
  pose proof (own_entry n w h g i rf msgs _ _ p HI HA HP Hi Hl Hd (list_elem_of_lookup_2 _ _ _ Hk)
    ltac:(rewrite Hci; exact Hb)) as Hown.
  injection Hown as ->. exists (Z.to_nat (idx - 1)), (command_of req). auto.
Qed.

(** The peers move, the services do not. *)
Lemma kinv_peers n w sites evs h g G w' h' g' G' a :
  KInv n (mkKVWorld w sites evs) h g G → peers_ok n w' h' g' G' → G `prefix_of` G' → born h ⊆ born h' →
  (∀ x c p, born h' !! x = Some (Some c, p) → born h !! x = Some (Some c, p) ∨ called (calls a) c) →
  (∀ i, is_Some (sites !! i) → length (msgs_of w i) ≤ length (msgs_of w' i)) →
  KInv n (mkKVWorld w' sites (evs ++ calls a)) h' g' G'.
Proof.
  intros [H1 H2 H3 H4] Hpk HG Hb Hbc Hm. split; simpl in *; [done|..].
  - intros i s Hi. destruct (H2 i s Hi) as [own Hs]. exists own.
    apply (site_ok_mono G G' (born h) (born h') (msgs_of w i)); try done. by apply Hm; eexists.
  - intros req reply [Hin|Hin]%elem_of_app; [eapply (reply_ok_prefix G G'); eauto|].
    destruct a; simpl in Hin; set_solver.
  - intros x c p [Hx|(req & Hin & Hc)]%Hbc; [destruct (H4 x c p Hx) as (req & Hin & Hc)|]; exists req; set_solver.
Qed.

(** One service moves. *)
Lemma kinv_site n w sites evs h g G i s own out :
  KInv n (mkKVWorld w sites evs) h g G → site_ok G (born h) (msgs_of w i) own s →
  (∀ req reply, Return req reply ∈ out → reply_ok G req reply) →
  KInv n (mkKVWorld w (<[i := s]> sites) (evs ++ out)) h g G.
Proof.
  intros [H1 H2 H3 H4] Hs Ho. split; simpl in *; [done|..].
  - intros j s' [[<- <-]|[_ Hj]]%lookup_insert_Some; eauto.
  - intros req reply [Hin|Hin]%elem_of_app; eauto.
  - intros x c p Hx. destruct (H4 x c p Hx) as (req & Hin & Hc). exists req. set_solver.
Qed.

(** The reply of a handler of a service. *)
Lemma sent_ok G b msgs own s hd :
  site_ok G b msgs own s → hd ∈ sys_handlers (site_sys s) →
  ∀ req reply, Return req reply ∈ sent_reply hd → reply_ok G req reply.
Proof.
  intros Hs Hin req reply. pose proof (so_handlers _ _ _ _ _ Hs hd Hin) as Hh.
  destruct hd; simpl; try by intros ?%not_elem_of_nil.
  intros [= -> ->]%list_elem_of_singleton. exact Hh.
Qed.

Lemma load_site n kw h g G i s :
  KInv n kw h g G → load kw i = Some s →
  ∃ own, site_ok G (born h) (msgs_of (kw_raft kw) i) own s ∧
         nodes (kw_raft kw) !! i = Some (kv_rf (sys_kv (site_sys s))).
Proof.
  intros [_ Hsite _ _] Hl. pose proof Hl as Hl'. unfold load in Hl'.
  apply bind_Some in Hl' as (s0 & H0 & _). destruct (Hsite i s0 H0) as [own Hs]. exists own.
  apply (load_ok G _ _ own kw i s Hl). intros s1 H1. by simplify_eq.
Qed.

Lemma begin_wait cmd kv idx t :
  (begin_request cmd kv).2 = SWait idx t → ∃ rf', Start cmd (kv_rf kv) = (rf', (idx, t, true)).
Proof.
  unfold begin_request. destruct (kv_killed kv); [done|].
  destruct (Start cmd (kv_rf kv)) as [rf' [[index term] [|]]]; simpl;
    repeat case_match; intros ?; simplify_eq/=; eauto.
Qed.

(** Only [Start] makes entries. *)
Lemma evolve_born a (w : World Op) h x y :
  born (evolve a w h) !! x = Some y →
  born h !! x = Some y ∨ ∃ i c t, a = AStart i c ∧ y = (Some c, t).
Proof.
  destruct a; simpl; try by left.
  - unfold record_start, record_entry. repeat case_match; try (by left).
    cbn [born]. intros [[_ <-]|[_ ?]]%lookup_insert_Some; [right; by do 3 eexists|by left].
  - unfold evolve_vote. repeat case_match; by left.
  - unfold evolve_task. repeat case_match; by left.
Qed.

(** The peers take no step, or one that is not a compaction. *)
Lemma raft_part_cases n kw h g G a acts :
  KInv n kw h g G → raft_part a kw = Some acts →
  acts = [] ∧ (∀ i req s idx t, a = KRequest i req → load kw i = Some s →
    (begin_request (command_of req) (sys_kv (site_sys s))).2 ≠ SWait idx t) ∨
  ∃ ra, acts = [ra] ∧ plain_action ra = true ∧ (∀ i now, ra = ARestart i now → a = KCrash i now) ∧
    (∀ i req, a = KRequest i req → ra = AStart i (command_of req)) ∧
    (∀ i c, ra = AStart i c → called (calls a) c).
Proof.
  intros HK Hpart. destruct a; simpl in Hpart.
  - right. destruct (service_action a) eqn:Ha; [done|]. injection Hpart as <-. exists a. by destruct a.
  - apply bind_Some in Hpart as (s & Hs & [= <-]).
    destruct (begin_request _ _).2 eqn:Hb; [left; split; [done|]; intros; simplify_eq; congruence..|].
    right. eexists. split_and!; [done..| |].
    { by intros ? ? [= <- <-]. } { intros ? ? [= <- <-]. exists req. split; [apply list_elem_of_here|done]. }
  - left. by injection Hpart as <-.
  - left. by injection Hpart as <-.
  - left. apply bind_Some in Hpart as (s & Hs & [= <-]). destruct (load_site _ _ _ _ _ _ _ HK Hs) as (own & Hok & _).
    pose proof (so_phase _ _ _ _ _ Hok) as Hph. destruct (sys_applier (site_sys s)); try done.
    destruct Hph as (_ & _ & ->). done.
  - right. injection Hpart as <-. by eexists.
  - right. injection Hpart as <-. eexists. split_and!; [done..| |done|done]. by intros ? ? [= <- <-].
Qed.

(** The peers' part of a step, with what it promises the services. *)
Lemma raft_part_peers n kw h g G a acts w' :
  KInv n kw h g G → raft_part a kw = Some acts → careful acts (kw_raft kw) = true →
  run acts (kw_raft kw) = Next w' →
  ∃ h' g', G `prefix_of` given w' G ∧ born h ⊆ born h' ∧ peers_ok n w' h' g' (given w' G) ∧
    (∀ i, (∀ now, a ≠ KCrash i now) → length (msgs_of (kw_raft kw) i) ≤ length (msgs_of w' i)) ∧
    (∀ i req s idx t, a = KRequest i req → load kw i = Some s →
      (begin_request (command_of req) (sys_kv (site_sys s))).2 = SWait idx t → started (born h') req idx t) ∧
    (∀ x c p, born h' !! x = Some (Some c, p) → born h !! x = Some (Some c, p) ∨ called (calls a) c).
Proof.
  intros HK Hpart Hcf Hrun. pose proof (ki_peers _ _ _ _ _ HK) as Hpk.
  destruct (raft_part_cases n kw h g G a acts HK Hpart) as [[-> Hreq]|(ra & -> & Hpl & Hcr & Hreq & Hst)].
  - simpl in Hrun. injection Hrun as <-. exists h, g. pose proof Hpk as [HI HA HP (C & HL & HC) _].
    destruct (peers_given n _ h g C G HI HA HP HL HC) as [? ?]. split_and!; try done; [|by left].
    intros. by exfalso; eapply Hreq.
  - simpl in Hrun, Hcf. destruct (step ra (kw_raft kw)) as [| |w1] eqn:Hs; try done. injection Hrun as <-.
    apply andb_true_iff in Hcf as [Hcf _].
    destruct (peers_step n _ h g G ra w1 Hpk Hs Hcf Hpl) as (g' & HG & Hb & Hpk').
    exists (evolve ra (kw_raft kw) h), g'. split_and!; try done.
    + intros i Hne. eapply step_msgs; [done|]. intros now ->. by apply (Hne now), Hcr.
    + intros i req s idx t -> Hl Hw. rewrite (Hreq i req eq_refl) in *.
      destruct (load_site _ _ _ _ _ _ _ HK Hl) as (own & _ & Hi). destruct (begin_wait _ _ _ _ Hw) as [rf' Hst'].
      by destruct (start_born n _ h i _ (command_of req) rf' idx t w1 (pk_inv _ _ _ _ _ Hpk) Hi Hst' Hs) as (_ & _ & _ & ?).
    + intros x c p [?|(i & c' & t & Hra & [= <- _])]%evolve_born; [by left|right; by eapply Hst].
Qed.

(** A crash: the service starts again on its persister, which has no snapshot. *)
Lemma crash_inv n kw h g G i now w' s h' g' G' :
  KInv n kw h g G → load kw i = Some s → peers_ok n w' h' g' G' → G `prefix_of` G' → born h ⊆ born h' →
  (∀ x c p, born h' !! x = Some (Some c, p) → born h !! x = Some (Some c, p) ∨ called (calls (KCrash i now)) c) →
  (∀ j, j ≠ i → length (msgs_of (kw_raft kw) j) ≤ length (msgs_of w' j)) →
  KInv n (set_site i (StartSite (peers (kv_rf (sys_kv (site_sys s)))) i
    (persister (kv_rf (sys_kv (site_sys s)))) (maxraftstate (sys_kv (site_sys s))) now) w' [] kw) h' g' G'.
Proof.
  intros HK Hl Hpk HG Hb Hbc Hm. destruct (load_site _ _ _ _ _ _ _ HK Hl) as (own & Hs & Hi).
  assert (KInv n (mkKVWorld w' (delete i (kw_sites kw)) (kw_events kw ++ calls (KCrash i now))) h' g' G') as HK'.
  { apply (kinv_peers n (kw_raft kw) _ _ h g G); try done.
    - destruct HK as [H1 H2 H3 H4]. split; simpl; [done| |done..]. intros j s' [_ Hj]%lookup_delete_Some. eauto.
    - intros j [s' [Hne _]%lookup_delete_Some]. by apply Hm. }
  simpl in HK'. rewrite app_nil_r in HK'. unfold set_site. rewrite <- insert_delete_eq. rewrite (so_max _ _ _ _ _ Hs).
  eapply kinv_site; [done| |by intros ? ? ?%not_elem_of_nil].
  eapply (site_ok_mono G' G' (born h') (born h') []); [done..|simpl; lia|].
  apply StartSite_ok. apply (pl_peer _ (pk_plain _ _ _ _ _ (ki_peers _ _ _ _ _ HK)) i _ Hi).
Qed.

Lemma site_part_raft a w kw kw' : site_part a w kw = Some kw' → kw_raft kw' = w.
Proof.
  destruct a as [a|i req|i k timeout|i|i|i|i now]; simpl; intros H; [by injection H as <-|..];
    apply bind_Some in H as (s & _ & H).
  - destruct (site_request req s) as [s' hd]. by injection H as <-.
  - apply bind_Some in H as ([s' hd] & _ & H). by injection H as <-.
  - apply bind_Some in H as (s' & _ & H). by injection H as <-.
  - apply bind_Some in H as (s' & _ & H). by injection H as <-.
  - by injection H as <-.
  - by injection H as <-.
Qed.

Lemma kstep_inv n kw h g G a acts kw' :
  KInv n kw h g G → raft_part a kw = Some acts → careful acts (kw_raft kw) = true →
  kstep a kw = Some kw' →
  ∃ h' g', G `prefix_of` given (kw_raft kw') G ∧ KInv n kw' h' g' (given (kw_raft kw') G).
Proof.
  intros HK Hpart Hcf H. unfold kstep in H. rewrite Hpart in H. simpl in H.
  destruct (run acts (kw_raft kw)) as [| |w'] eqn:Hrun; try done.
  destruct (raft_part_peers n kw h g G a acts w' HK Hpart Hcf Hrun) as (h' & g' & HG & Hb & Hpk & Hm & Hreq & Hbc).
  rewrite (site_part_raft a w' kw kw' H). set (G' := given w' G) in *. clearbody G'.
  exists h', g'. split; [done|].
  assert ((∀ i now, a ≠ KCrash i now) → KInv n (mkKVWorld w' (kw_sites kw) (kw_events kw ++ calls a)) h' g' G' ∧
    ∀ i s, load kw i = Some s → ∃ own, site_ok G' (born h') (msgs_of w' i) own s) as Hmove.
  { intros Hne. split.
    { apply (kinv_peers n (kw_raft kw) _ _ h g G); try done; [by destruct kw|]. intros i _. by apply Hm. }
    intros i s Hl. destruct (load_site _ _ _ _ _ _ _ HK Hl) as (own & Hs & _). exists own.
    apply (site_ok_mono G G' (born h) (born h') (msgs_of (kw_raft kw) i)); auto. }
  destruct a as [a|i req|i k timeout|i|i|i|i now]; simpl in H.
  7: { apply bind_Some in H as (s & Hl & [= <-]). apply (crash_inv n kw h g G); try done.
       intros j Hj. apply Hm. by intros t [= -> _]. }
  1: { injection H as <-. rewrite <- (app_nil_r (kw_events kw)). by apply Hmove. }
  all: destruct (Hmove ltac:(done)) as [HK' Hld]; clear Hmove;
    apply bind_Some in H as (s & Hl & H); destruct (Hld i s Hl) as [own Hs].
  2-5: cbn [calls] in HK'; rewrite app_nil_r in HK'.
  - destruct (site_request req s) as [s' hd] eqn:Hr. injection H as <-.
    unfold set_site. rewrite (cons_middle (Call req)), (assoc_L (++)).
    destruct (site_request_ok G' (born h') (born h') _ own s req s' hd Hs ltac:(done) Hr) as [Hs' Hin];
      [intros idx t; by apply (Hreq i req s)|]. eapply kinv_site; [done..|]. by eapply sent_ok.
  - apply bind_Some in H as ([s' hd] & Hr & [= <-]).
    destruct (load_site _ _ _ _ _ _ _ HK Hl) as (_ & _ & Hi).
    injection Hpart as <-. simpl in Hrun. injection Hrun as <-.
    destruct (site_handler_ok G' (born h') _ own s k timeout s' hd Hs) as [[own' Hs'] Hin]; [|done|].
    { by eapply own_answer. }
    eapply kinv_site; [done..|]. by eapply sent_ok.
  - apply bind_Some in H as (s' & Hr & [= <-]).
    eapply kinv_site; [done| |by intros ? ? ?%not_elem_of_nil].
    eapply site_take_ok; [done|by eapply peers_msgs|done].
  - apply bind_Some in H as (s' & Hr & [= <-]).
    eapply kinv_site; [done| |by intros ? ? ?%not_elem_of_nil]. by eapply site_applier_ok.
  - injection H as <-.
    eapply kinv_site; [done| |by intros ? ? ?%not_elem_of_nil]. by apply site_kill_ok.
Qed.

Lemma kinit_inv n now :
  (0 ≤ n)%Z → KInv n (kinit n (-1) now) (mkHist ∅ (λ _, ∅) ∅) (mkGhost ∅ ∅) [].
Proof.
  intros Hn. split; simpl.
  - split; [by apply init_inv|by apply init_agr|apply init_plain|exists []; split; [apply init_logged|done]|].
    intros i. unfold msgs_of. simpl. by rewrite lookup_empty.
  - intros i s Hi. apply elem_of_list_to_map_2, list_elem_of_fmap in Hi as (j & [= -> ->] & _).
    exists (λ _, 0%Z). eapply (site_ok_mono [] [] ∅ ∅ []); [done..|simpl; lia|]. by apply StartSite_ok.
  - by intros req reply ?%not_elem_of_nil.
  - intros x c p. by rewrite lookup_empty.
Qed.

Lemma krun_inv n acts kw h g G kw' :
  KInv n kw h g G → kcareful acts kw = true → krun acts kw = Some kw' →
  ∃ h' g', G `prefix_of` klog acts kw G ∧ KInv n kw' h' g' (klog acts kw G).
Proof.
  revert kw h g G. induction acts as [|a acts IH]; intros kw h g G HK Hcf H; simpl in H, Hcf.
  - injection H as <-. by exists h, g.
  - apply bind_Some in H as (kw1 & Hs & H). rewrite Hs in Hcf. cbn [klog]. rewrite Hs.
    destruct (raft_part a kw) as [ra|] eqn:Hpart; [|done]. apply andb_true_iff in Hcf as [Hc1 Hc2].
    destruct (kstep_inv n kw h g G a ra kw1 HK Hpart Hc1 Hs) as (h1 & g1 & HG1 & HK1).
    destruct (IH kw1 h1 g1 _ HK1 Hc2 H) as (h2 & g2 & HG2 & HK2).
    exists h2, g2. split; [by etrans|done].
Qed.

(** What it means that the cluster implements the log [G]: the services have
    been given its first commands, every store and record table is the result of
    the commands that its [applier] has taken, an [applier] that holds a reply
    can hand it over, every command of the log is one that a client sent, and
    every reply that has left a server is a refusal, the log's answer to that
    request, or, from the record table, the log's answer to this or a
    later-numbered request of the same client.  The theorems below take for [G]
    the log of the execution, [klog]. *)
Record implements (G : list Op) (kw : KVWorld) : Prop := {
  im_given i : msgs_of (kw_raft kw) i = log_msgs (take (length (msgs_of (kw_raft kw) i)) G);
  im_store i s : kw_sites kw !! i = Some s →
    taken s ≤ length (msgs_of (kw_raft kw) i) ∧
    machine (sys_kv (site_sys s)) = state_at G (Z.of_nat (taken s));
  im_applier i s : kw_sites kw !! i = Some s → sys_applier (site_sys s) ≠ AIdle → is_Some (site_applier s);
  im_reply req reply : Return req reply ∈ kw_events kw → reply_ok G req reply;
  im_called c : c ∈ G → called (kw_events kw) c
}.

Lemma logged_born n w h g (G : list Op) c :
  Inv n w h → Agr n w h g → logged n w h g G → c ∈ G → ∃ x p, born h !! x = Some (Some c, p).
Proof.
  intros HI HA (u & y & Hy & [Hl HG] & _) [k Hk]%list_elem_of_lookup. unfold zlen in Hl.
  pose proof (lookup_lt_Some _ _ _ Hk).
  destruct (path_entry (born h) y (Z.of_nat k + 1)) as (t & c' & p & Ha & Hb).
  - apply (agr_tree _ _ _ _ HA).
  - apply (committed_node n h g u y); [apply (inv_n _ _ _ HI)|apply (agr_tree _ _ _ _ HA)|done].
  - lia.
  - pose proof (HG _ _ _ _ Ha Hb) as Hc. replace (Z.to_nat (Z.of_nat k + 1 - 1)) with k in Hc by lia.
    rewrite Hk in Hc. subst c'. eauto.
Qed.

Lemma kinv_implements n kw h g G : KInv n kw h g G → implements G kw.
Proof.
  intros HK. pose proof (ki_peers _ _ _ _ _ HK) as Hpk. split.
  - intros i. by eapply peers_msgs.
  - intros i s Hi. destruct (ki_site _ _ _ _ _ HK i s Hi) as [own []]. done.
  - intros i s Hi Hap. destruct (ki_site _ _ _ _ _ HK i s Hi) as [own Hs].
    pose proof (so_phase _ _ _ _ _ Hs) as Hph. pose proof (so_chans _ _ _ _ _ Hs) as Hch. unfold site_applier.
    destruct (sys_applier (site_sys s)) as [|idx r data|idx r]; [done|..].
    + destruct Hph as (_ & _ & ->). by eexists.
    + destruct (notify_can idx r _ Hch) as (kv' & -> & _). by eexists.
  - apply (ki_reply _ _ _ _ _ HK).
  - intros c Hc. destruct Hpk as [HI HA _ (C & HL & [l ->]) _].
    destruct (logged_born n _ h g _ c HI HA HL (proj2 (elem_of_app _ _ _) (or_introl Hc))) as (x & p & Hb). by eapply ki_born.
Qed.

(** C2. The cluster implements one log, which only grows.  The log is that of
    the execution, [klog]: the longest list of commands that any service has been
    given so far.  At any two moments of an execution of the whole cluster
    (requests, goroutines, messages, crashes and restarts in any order; the
    peers' steps careful, no compaction) the earlier log is a prefix of the later
    one and the cluster implements it: every service has been given a prefix of
    it, every store is the result of such a prefix, and every reply that has left
    a server is a refusal, the log's answer to that request, or (from the record
    table, which answers old requests with the last reply) the log's answer to
    this or a later-numbered request of the same client. *)
Theorem cluster_implements_log n now acts kw acts' kw' :
  (0 ≤ n)%Z → krun acts (kinit n (-1) now) = Some kw → kcareful acts (kinit n (-1) now) = true →
  krun acts' kw = Some kw' → kcareful acts' kw = true →
  let G := klog acts (kinit n (-1) now) [] in let G' := klog acts' kw G in
  G `prefix_of` G' ∧ implements G kw ∧ implements G' kw'.
Proof.
  intros Hn H Hcf H' Hcf' G G'.
  destruct (krun_inv n acts _ _ _ _ kw (kinit_inv n now Hn) Hcf H) as (h & g & _ & HK).
  destruct (krun_inv n acts' kw h g _ kw' HK Hcf' H') as (h' & g' & HG & HK').
  split_and!; [done|by eapply kinv_implements..].
Qed.
End cluster.

(** ** An execution

    Server 0 is elected; a client puts "x" there; the leader replicates and
    applies the command and answers.  The client sends the request again and is
    answered from the record table; a get at server 1 is refused. *)
Definition put_x : Request := RPutAppend (mkPutAppendArgs "x" "1" "Put" 1 7).
Definition get_x : Request := RGet (mkGetArgs "x" 2 7).

Definition raft_goes (k times : nat) : list KAction := replicate times (KRaft (ARun k 1000000000 Delivered)).

Definition lead_run : list KAction :=
  [KRaft (ATick 0 1000000000 500000000)] ++ raft_goes 0 1 ++ replicate 3 (KRaft (AVote 0 1 1000000000 Delivered)).

Definition put_run : list KAction :=
  [KRequest 0 put_x; KHandler 0 0 false] ++ raft_goes 1 4 ++ [KRaft (AApply 0)] ++ raft_goes 2 1 ++
  [KTake 0; KApplier 0; KApplier 0; KHandler 0 0 false; KHandler 0 0 false; KHandler 0 0 false].

Definition again_run : list KAction := [KRequest 0 put_x; KRequest 1 get_x].

Definition kworld_of (o : option KVWorld) : KVWorld := default (mkKVWorld (init 0 0) ∅ []) o.
Definition put_w : KVWorld := kworld_of (krun (lead_run ++ put_run) (kinit 3 (-1) 0)).
Definition again_w : KVWorld := kworld_of (krun again_run put_w).

Lemma put_events :
  kw_events put_w = [Call put_x; Return put_x (ReplyPutAppend (mkPutAppendReply OK 0))] ∧
  kw_events again_w = kw_events put_w ++
    [Call put_x; Return put_x (ReplyPutAppend (mkPutAppendReply OK 0));
     Call get_x; Return get_x (ReplyGet (mkGetReply ErrWrongLeader "" 0))].
Proof. split; vm_compute; reflexivity. Qed.

Lemma cluster_implements_log_witness :
  let G := klog (lead_run ++ put_run) (kinit 3 (-1) 0) [] in let G' := klog again_run put_w G in
  G `prefix_of` G' ∧ implements G put_w ∧ implements G' again_w.
Proof.
  apply (cluster_implements_log 3 0 (lead_run ++ put_run) put_w again_run again_w).
  - lia.
  - vm_compute. reflexivity.
  - vm_compute. reflexivity.
  - vm_compute. reflexivity.
  - vm_compute. reflexivity.
Defined.

(** The log of these executions is the put. *)
Lemma put_log :
  klog (lead_run ++ put_run) (kinit 3 (-1) 0) [] = [command_of put_x] ∧
  klog again_run put_w [command_of put_x] = [command_of put_x].
Proof. split; vm_compute; reflexivity. Qed.
