(* ===== verification/KVHttp.v ===== *)
(** * The HTTP front end of a key/value server (kvraft/http.go)

    [ServeHTTP] up to the point where the handler waits for Raft, and from the
    handler's reply to the HTTP status.  Reading and decoding the request body
    ([io.ReadAll], [json.Unmarshal]) is the argument [unmarshal] applied to the
    bytes that arrived. *)

From S2P Require Import Prelude Persister RaftTypes RaftHandlers KVServer KVMachine.
From stdpp Require Import strings.

Definition httpClientID : Z := 0xA1F5.

Record HTTPRequest := mkHTTPRequest {
  hq_Op : string;
  hq_Key : string;
  hq_Value : string;
  hq_ClientID : Z;
  hq_SeqID : Z
}.

Record HTTPResponse := mkHTTPResponse { hr_OK : bool; hr_Value : string; hr_Err : string }.

#[export] Instance HTTPResponse_eq_dec : EqDecision HTTPResponse.
Proof. solve_decision. Defined.

(** Two's complement on 64 bits: [atomic.AddInt64] wraps. *)
Definition wrap64 (z : Z) : Z := ((z + 2 ^ 63) mod 2 ^ 64 - 2 ^ 63)%Z.

(** What a request ends with: a plain error of [http.Error], or a JSON body. *)
Inductive HttpResult :=
  | HttpError (code : Z) (text : string)
  | HttpJSON (code : Z) (resp : HTTPResponse).

Section http.
Context `{!Gob (PersistentState Op)} `{!Gob Machine}.
Context (unmarshal : list byte → option HTTPRequest).
Implicit Types kv : KVServer.

Definition nextHTTPSeq kv : KVServer * Z :=
  let s := wrap64 (httpSeq kv + 1) in (set_httpSeq s kv, s).

Definition httpResponseFromErr (err : Err) (value : string) : HTTPResponse :=
  mkHTTPResponse (bool_decide (err = OK)) value err.

(** The request a command line of the API stands for; [None] is the default
    case of the switch. *)
Definition http_request (op key value : string) (clientID seq : Z) : option Request :=
  if bool_decide (op = "get") then Some (RGet (mkGetArgs key seq clientID))
  else if bool_decide (op = "put") then Some (RPutAppend (mkPutAppendArgs key value "Put" seq clientID))
  else if bool_decide (op = "delete") then Some (RDelete (mkDeleteArgs key seq clientID))
  else None.

(** The HTTP response from the handler's reply. *)
Definition http_response (r : Reply) : HTTPResponse :=
  match r with
  | ReplyGet g => httpResponseFromErr (gr_Err g) (gr_Value g)
  | ReplyPutAppend p => httpResponseFromErr (par_Err p) ""
  | ReplyDelete d => httpResponseFromErr (dr_Err d) ""
  end.

(** [executeHTTPWithClient] up to the handler's first blocking point: the
    response when there is one already, or the handler that goes on. *)
Definition executeHTTPWithClient (op key value : string) (clientID seq : Z) kv
    : KVServer * (HTTPResponse + Handler) :=
  match http_request op key value clientID seq with
  | None => (kv, inl (mkHTTPResponse false "" "ErrBadRequest"))
  | Some req =>
      let '(kv', h) := handler_begin req kv in
      (kv', match h with HDone _ r => inl (http_response r) | _ => inr h end)
  end.

Definition executeHTTP (op key value : string) kv : KVServer * (HTTPResponse + Handler) :=
  let '(kv1, seq) := nextHTTPSeq kv in executeHTTPWithClient op key value httpClientID seq kv1.

(** The status that goes with a response. *)
Definition http_status (resp : HTTPResponse) : Z :=
  if bool_decide (hr_Err resp = ErrWrongLeader) then 503
  else if negb (hr_OK resp) && bool_decide (hr_Err resp = ErrBadRequest) then 400
  else 200.

Definition http_finish (resp : HTTPResponse) : HttpResult := HttpJSON (http_status resp) resp.

(** Client and number of a request: the caller's, or the server's own when
    either is missing. *)
Definition http_session (req : HTTPRequest) kv : KVServer * (Z * Z) :=
  if (hq_ClientID req =? 0)%Z || (hq_SeqID req =? 0)%Z
  then let '(kv1, seq) := nextHTTPSeq kv in (kv1, (httpClientID, seq))
  else (kv, (hq_ClientID req, hq_SeqID req)).

(** [ServeHTTP]: [body] is [None] when reading it failed. *)
Definition ServeHTTP (method : string) (body : option (list byte)) kv
    : KVServer * (HttpResult + Handler) :=
  if negb (bool_decide (method = "POST")) then (kv, inl (HttpError 405 "method not allowed"))
  else
    match body with
    | None => (kv, inl (HttpError 400 "bad request"))
    | Some bytes =>
        match unmarshal bytes with
        | None => (kv, inl (HttpError 400 "invalid json"))
        | Some req =>
            if bool_decide (hq_Key req = "") then (kv, inl (HttpError 400 "missing key"))
            else
              let '(kv1, (clientID, seqID)) := http_session req kv in
              let '(kv2, res) :=
                executeHTTPWithClient (hq_Op req) (hq_Key req) (hq_Value req) clientID seqID kv1 in
              (kv2, match res with inl resp => inl (http_finish resp) | inr h => inr h end)
        end
    end.

(** ** What the front end guarantees *)

(** The part of the server that a rejected request must not touch. *)
Definition same_service kv kv' : Prop :=
  kv_rf kv' = kv_rf kv ∧ machine kv' = machine kv ∧ notifyChans kv' = notifyChans kv ∧
  kv_commitIndex kv' = kv_commitIndex kv.

Definition valid_op (op : string) : bool :=
  bool_decide (op = "get") || bool_decide (op = "put") || bool_decide (op = "delete").

Lemma http_request_None op key value c s :
  http_request op key value c s = None ↔ valid_op op = false.
Proof. unfold http_request, valid_op. by repeat case_bool_decide. Qed.

Lemma http_session_same req kv : same_service kv (http_session req kv).1.
Proof. unfold http_session, nextHTTPSeq. by case_match. Qed.

(** C26. A request that is not a well-formed get, put or delete of a non-empty
    key is answered 405 or 400 at once and reaches neither Raft nor the store:
    only the server's own request counter may advance. *)
Theorem ServeHTTP_rejects method body kv kv' res :
  ServeHTTP method body kv = (kv', res) →
  (method ≠ "POST" ∨ (body ≫= unmarshal) = None ∨
   ∃ req, (body ≫= unmarshal) = Some req ∧ (hq_Key req = "" ∨ valid_op (hq_Op req) = false)) →
  same_service kv kv' ∧
  ∃ r code, res = inl r ∧ (r = HttpJSON code (mkHTTPResponse false "" "ErrBadRequest") ∨
                           ∃ text, r = HttpError code text) ∧
    code = (if bool_decide (method = "POST") then 400 else 405)%Z.
Proof.
  unfold ServeHTTP. intros H Hbad. destruct (bool_decide (method = "POST")) eqn:Em; b2p; simpl in H;
    [|injection H as <- <-; split; [done|]; eauto 10].
  destruct body as [bytes|]; simpl in *; [|injection H as <- <-; split; [done|]; eauto 10].
  destruct (unmarshal bytes) as [req|]; [|injection H as <- <-; split; [done|]; eauto 10].
  case_bool_decide as Ek; [injection H as <- <-; split; [done|]; eauto 10|].
  assert (valid_op (hq_Op req) = false) as Hv
    by (destruct Hbad as [?|[?|(r & [= <-] & [?|?])]]; done).
  pose proof (http_session_same req kv) as Hs.
  destruct (http_session req kv) as [kv1 [c s]]. unfold executeHTTPWithClient in H.
  rewrite (proj2 (http_request_None _ (hq_Key req) (hq_Value req) c s) Hv) in H.
  injection H as <- <-. split; [done|]. do 2 eexists. split; [done|]. split; [by left|done].
Qed.

(** Every answer that names a leader problem is a 503, a bad request a 400,
    and anything else (found, not found, timed out) a 200 whose body says
    which; [ok] is true exactly for the error string OK. *)
Theorem http_status_correct (r : Reply) :
  let resp := http_response r in
  (http_status resp = 503%Z ↔ hr_Err resp = ErrWrongLeader) ∧
  (http_status resp = 400%Z ↔ hr_Err resp = ErrBadRequest) ∧
  (http_status resp = 200%Z ↔ hr_Err resp ≠ ErrWrongLeader ∧ hr_Err resp ≠ ErrBadRequest) ∧
  (hr_OK resp = true ↔ hr_Err resp = OK).
Proof.
  intros resp. assert (hr_OK resp = bool_decide (hr_Err resp = OK)) as Hok by by destruct r.
  unfold http_status. rewrite Hok. unfold OK, ErrWrongLeader, ErrBadRequest.
  repeat case_bool_decide; simpl; split_and!; try congruence; intuition congruence.
Qed.
End http.

(** ** The shared client number *)

(** Two fresh servers; each numbers anonymous requests from 1 under the same
    client. *)
Definition anonymous (op key value : string) : HTTPRequest := mkHTTPRequest op key value 0 0.

Definition http_command (kv : KVServer) (req : HTTPRequest) : option Op :=
  let '(_, (c, s)) := http_session req kv in
  command_of <$> http_request (hq_Op req) (hq_Key req) (hq_Value req) c s.

#[local] Arguments apply_op : simpl never.

(** Two anonymous writes that arrive at servers which have served the same
    number of anonymous requests carry the same client and number, so the
    second one in the log is answered OK and not executed. *)
Theorem anonymous_writes_collide kv kv' k v k' v' c c' :
  httpSeq kv = httpSeq kv' → k ≠ k' →
  http_command kv (anonymous "put" k v) = Some c →
  http_command kv' (anonymous "put" k' v') = Some c' →
  req_id c = req_id c' ∧
  outputs [c; c'] empty_machine = [mkOpReply OK ""; mkOpReply OK ""] ∧
  (replay [c; c'] empty_machine).1 !! k' = None.
Proof.
  intros Hs Hk. unfold http_command, http_session, nextHTTPSeq, http_request. simpl.
  rewrite Hs. intros [= <-] [= <-]. set (s := wrap64 _). clearbody s.
  set (c := mkOp "Put" k v s httpClientID). set (c' := mkOp "Put" k' v' s httpClientID).
  pose proof (apply_op_first c ∅ ∅ (no_record _) : apply_op c empty_machine = _) as H1.
  unfold replay. cbn [outputs foldl fst snd]. rewrite H1. cbn [fst snd].
  erewrite apply_op_dup; [|apply lookup_insert_eq|apply (Z.le_refl s)].
  split_and!; [done..|]. cbn [fst].
  etrans; [by apply lookup_insert_ne|apply lookup_empty].
Qed.

Lemma ServeHTTP_rejects_witness :
  ∃ kv' res, ServeHTTP (λ _, Some (anonymous "incr" "k" "1")) "POST" (Some [])
               (StartKVServer 3 0 MakePersister (-1) 0).1 = (kv', res) ∧
    same_service (StartKVServer 3 0 MakePersister (-1) 0).1 kv'.
Proof.
  do 2 eexists. split; [apply surjective_pairing|].
  eapply (ServeHTTP_rejects (λ _, Some (anonymous "incr" "k" "1")) "POST" (Some [])
    (StartKVServer 3 0 MakePersister (-1) 0).1); [apply surjective_pairing|].
  right. right. exists (anonymous "incr" "k" "1"). split; [reflexivity|]. right. reflexivity.
Defined.

Lemma anonymous_writes_collide_witness :
  let kvA := (StartKVServer 3 0 MakePersister (-1) 0).1 in
  let kvB := (StartKVServer 3 1 MakePersister (-1) 0).1 in
  ∃ c c', http_command kvA (anonymous "put" "x" "1") = Some c ∧
    http_command kvB (anonymous "put" "y" "2") = Some c' ∧
    (replay [c; c'] empty_machine).1 !! "y" = None.
Proof.
  do 2 eexists. split; [reflexivity|]. split; [reflexivity|].
  eapply (anonymous_writes_collide (StartKVServer 3 0 MakePersister (-1) 0).1
    (StartKVServer 3 1 MakePersister (-1) 0).1 "x" "1" "y" "2"); (reflexivity || discriminate).
Defined.
