(* ===== verification/KVClerk.v ===== *)
(** * The clients of the key/value service (kvraft/client.go and
    controlplane/kvclient/client.go)

    [Clerk] retries over labrpc until it has an answer; [Client] makes one round
    over the HTTP addresses.  The network is the argument [net]: what the
    [i]-th call of an operation, to a given server with given arguments, comes
    back with.  The lock of [Client] is held inside [nextAddr] and
    [prepareRequest] only: what other goroutines do with the client in between is
    the argument [others] of [execute_req].  A loop without a bound in the code has fuel here: its result is
    [None] inside when the fuel ends first. *)

From S2P Require Import Prelude KVServer KVHttp.
From Stdlib Require Import Ascii.
From stdpp Require Import strings.

(** ** Clerk *)

(** [ck_servers] are the labrpc ends, by number. *)
Record Clerk := mkClerk {
  ck_servers : list Z;
  ck_currLeader : Z;
  ck_clientId : Z;
  ck_seqId : Z
}.

(** [nrand()] draws below 2^62. *)
Definition nrand_ok (x : Z) : bool := (0 <=? x)%Z && (x <? 2 ^ 62)%Z.

Definition MakeClerk (servers : list Z) (rnd : Z) : Clerk := mkClerk servers 0 rnd 0.

Definition set_currLeader' (l : Z) (ck : Clerk) : Clerk :=
  mkClerk (ck_servers ck) l (ck_clientId ck) (ck_seqId ck).

(** [unum := ck.seqId; ck.seqId++] *)
Definition Clerk_next (ck : Clerk) : Clerk * Z :=
  (mkClerk (ck_servers ck) (ck_currLeader ck) (ck_clientId ck) (ck_seqId ck + 1), ck_seqId ck).

(** [ck.currLeader = (ck.currLeader + 1) % len(ck.servers)]; the remainder is
    Go's, which agrees with Coq's on the non-negative numbers there are. *)
Definition Clerk_rotate (ck : Clerk) : Clerk :=
  set_currLeader' (Z.rem (ck_currLeader ck + 1) (zlen (ck_servers ck))) ck.

(** The body of [Get]'s loop after the call: [Some v] leaves with [v]. *)
Definition Get_iter (o : option GetReply) (ck : Clerk) : Clerk * option string :=
  match o with
  | Some reply =>
      if bool_decide (gr_Err reply = ErrWrongLeader) then (Clerk_rotate ck, None)
      else if bool_decide (gr_Err reply = ErrTimeOut) then (Clerk_rotate ck, None)
      else if bool_decide (gr_Err reply = ErrNoKey) then (ck, Some "")
      else if bool_decide (gr_Err reply = OK) then (ck, Some (gr_Value reply))
      else (ck, None)
  | None => (Clerk_rotate ck, None)
  end.

(** The body of [PutAppend]'s loop after the call. *)
Definition PutAppend_iter (o : option PutAppendReply) (ck : Clerk) : Clerk * option () :=
  match o with
  | Some reply =>
      if bool_decide (par_Err reply = ErrWrongLeader) then (Clerk_rotate ck, None)
      else if bool_decide (par_Err reply = ErrTimeOut) then (Clerk_rotate ck, None)
      else if bool_decide (par_Err reply = OK) then (ck, Some ())
      else (ck, None)
  | None => (Clerk_rotate ck, None)
  end.

(** [for err != "OK"]: call the current server, then the body.  The outer
    [None] is an index out of range. *)
Fixpoint clerk_loop {A R V} (net : nat → Z → A → option R) (args : A)
    (iter : option R → Clerk → Clerk * option V) (fuel i : nat) (ck : Clerk)
    : option (Clerk * option V) :=
  match fuel with
  | O => Some (ck, None)
  | S fuel' =>
      server ← go_nth (ck_servers ck) (ck_currLeader ck);
      match iter (net i server args) ck with
      | (ck', Some v) => Some (ck', Some v)
      | (ck', None) => clerk_loop net args iter fuel' (S i) ck'
      end
  end.

Definition Clerk_Get (net : nat → Z → GetArgs → option GetReply) (fuel : nat) (key : string)
    (ck : Clerk) : option (Clerk * option string) :=
  let '(ck1, unum) := Clerk_next ck in
  clerk_loop net (mkGetArgs key unum (ck_clientId ck1)) Get_iter fuel 0 ck1.

Definition Clerk_PutAppend (net : nat → Z → PutAppendArgs → option PutAppendReply) (fuel : nat)
    (key value op : string) (ck : Clerk) : option (Clerk * option ()) :=
  let '(ck1, unum) := Clerk_next ck in
  clerk_loop net (mkPutAppendArgs key value op unum (ck_clientId ck1)) PutAppend_iter fuel 0 ck1.

Definition Clerk_Put net (fuel : nat) (key value : string) := Clerk_PutAppend net fuel key value "Put".
Definition Clerk_Append net (fuel : nat) (key value : string) := Clerk_PutAppend net fuel key value "Append".

(** The current server is one of the servers. *)
Definition clerk_ok (ck : Clerk) : Prop := (0 ≤ ck_currLeader ck < zlen (ck_servers ck))%Z.

Lemma rotate_ok ck : clerk_ok ck → clerk_ok (Clerk_rotate ck).
Proof.
  unfold clerk_ok, Clerk_rotate. simpl. intros H. rewrite Z.rem_mod_nonneg by lia.
  apply Z.mod_pos_bound. lia.
Qed.

(** The server that is called after [d] rotations. *)
Definition rotated (d : Z) (ck : Clerk) : Clerk :=
  set_currLeader' ((ck_currLeader ck + d) mod zlen (ck_servers ck)) ck.

Lemma rotate_rotated d ck :
  clerk_ok ck → (0 ≤ d)%Z → Clerk_rotate (rotated d ck) = rotated (d + 1) ck.
Proof.
  unfold clerk_ok, Clerk_rotate, rotated, set_currLeader'. simpl. intros H Hd. f_equal.
  pose proof (Z.mod_pos_bound (ck_currLeader ck + d) (zlen (ck_servers ck))).
  rewrite Z.rem_mod_nonneg by lia. rewrite Z.add_mod_idemp_l by lia. f_equal. lia.
Qed.

Lemma rotated_0 ck : clerk_ok ck → rotated 0 ck = ck.
Proof.
  intros H. unfold rotated. rewrite Z.add_0_r, Z.mod_small by done. by destruct ck.
Qed.

Lemma rotated_server ck d : clerk_ok ck →
  ∃ s, go_nth (ck_servers ck) (ck_currLeader (rotated d ck)) = Some s.
Proof.
  intros H. apply go_nth_is_Some. simpl. apply Z.mod_pos_bound. unfold clerk_ok in H. lia.
Qed.

(** A loop whose first [d] calls make it rotate is at the [d]-th server. *)
Lemma clerk_loop_rotates {A R V} (net : nat → Z → A → option R) args
    (iter : option R → Clerk → Clerk * option V) fuel (d : nat) ck :
  clerk_ok ck →
  (∀ j s, j < d → go_nth (ck_servers ck) (ck_currLeader (rotated (Z.of_nat j) ck)) = Some s →
     ∀ ck', iter (net j s args) ck' = (Clerk_rotate ck', None)) →
  clerk_loop net args iter (d + fuel) 0 ck =
  clerk_loop net args iter fuel d (rotated (Z.of_nat d) ck).
Proof.
  intros Hok. induction d as [|d IH] in fuel |- *; intros Hrot; [by rewrite rotated_0|].
  replace (S d + fuel) with (d + S fuel) by lia. rewrite IH by (intros; apply Hrot; [lia|done]).
  cbn [clerk_loop]. destruct (rotated_server ck (Z.of_nat d) Hok) as [s Hs].
  change (ck_servers (rotated (Z.of_nat d) ck)) with (ck_servers ck).
  rewrite Hs. cbn [mbind option_bind]. rewrite (Hrot d s) by (done || lia).
  by rewrite rotate_rotated, Nat2Z.inj_succ by (done || lia).
Qed.

(** *** A clerk finds the leader *)

(** Outcomes of a call that make the clerk go to the next server. *)
Definition get_retry (o : option GetReply) : Prop :=
  match o with None => True | Some r => gr_Err r = ErrWrongLeader ∨ gr_Err r = ErrTimeOut end.
Definition put_retry (o : option PutAppendReply) : Prop :=
  match o with None => True | Some r => par_Err r = ErrWrongLeader ∨ par_Err r = ErrTimeOut end.

Lemma Get_iter_retry o ck : get_retry o → Get_iter o ck = (Clerk_rotate ck, None).
Proof. destruct o as [r|]; simpl; [|done]. by intros [-> | ->]. Qed.
Lemma PutAppend_iter_retry o ck : put_retry o → PutAppend_iter o ck = (Clerk_rotate ck, None).
Proof. destruct o as [r|]; simpl; [|done]. by intros [-> | ->]. Qed.

(** The loop leaves at [leader], which is at most one round away. *)
Lemma clerk_loop_finds {A R V} (net : nat → Z → A → option R) args
    (iter : option R → Clerk → Clerk * option V) fuel ck leader v :
  clerk_ok ck → leader ∈ ck_servers ck → length (ck_servers ck) ≤ fuel →
  (∀ i s ck', s ≠ leader → iter (net i s args) ck' = (Clerk_rotate ck', None)) →
  (∀ i ck', iter (net i leader args) ck' = (ck', Some v)) →
  ∃ ck', clerk_loop net args iter fuel 0 ck = Some (ck', Some v) ∧
    clerk_ok ck' ∧ ck_seqId ck' = ck_seqId ck ∧ ck_servers ck' = ck_servers ck ∧
    go_nth (ck_servers ck) (ck_currLeader ck') = Some leader.
Proof.
  intros Hok Hl Hf Hretry Hans. apply list_elem_of_lookup in Hl as [p Hp].
  pose proof (lookup_lt_Some _ _ _ Hp) as Hlt.
  destruct (round_reaches (zlen (ck_servers ck)) (ck_currLeader ck) (Z.of_nat p)) as (k & Hk & Hkp);
    [unfold zlen; lia|].
  destruct (least_nat (λ k, go_nth (ck_servers ck) (ck_currLeader (rotated (Z.of_nat k) ck)) = Some leader) k)
    as (m & Hm & Hat & Hmin).
  { simpl. rewrite Hkp. apply go_nth_Some. rewrite Nat2Z.id. split; [lia|done]. }
  replace fuel with (m + S (fuel - S m)) by (unfold zlen in Hk; lia).
  rewrite clerk_loop_rotates; [|done|].
  - cbn [clerk_loop]. change (ck_servers (rotated (Z.of_nat m) ck)) with (ck_servers ck).
    rewrite Hat. cbn [mbind option_bind]. rewrite Hans. eexists. split; [done|].
    split; [|by split_and!]. unfold clerk_ok in *. apply Z.mod_pos_bound. simpl. lia.
  - intros j s Hj Hs ck'. apply Hretry. intros ->. by eapply Hmin.
Qed.

(** C23. A clerk's [Get] reaches the server that answers: if one server answers
    this request with a value and every other one refuses, times out or does
    not answer, then after at most one call per server [Get] returns that value,
    with the same client and number in every call, and stays with that server. *)
Theorem Clerk_Get_finds net fuel key ck leader v :
  clerk_ok ck → leader ∈ ck_servers ck → length (ck_servers ck) ≤ fuel →
  (let args := mkGetArgs key (ck_seqId ck) (ck_clientId ck) in
   (∀ i s, s ≠ leader → get_retry (net i s args)) ∧
   (∀ i, ∃ r, net i leader args = Some r ∧ gr_Err r = OK ∧ gr_Value r = v)) →
  ∃ ck', Clerk_Get net fuel key ck = Some (ck', Some v) ∧ clerk_ok ck' ∧
    ck_seqId ck' = (ck_seqId ck + 1)%Z ∧
    go_nth (ck_servers ck) (ck_currLeader ck') = Some leader.
Proof.
  intros Hok Hl Hf [Hre Han]. set (ck1 := (Clerk_next ck).1).
  destruct (clerk_loop_finds net (mkGetArgs key (ck_seqId ck) (ck_clientId ck)) Get_iter fuel ck1
    leader v) as (ck' & H & Hok' & Hseq & _ & Hat); try done.
  - intros i s ck' Hs. apply Get_iter_retry. auto.
  - intros i ck'. destruct (Han i) as (r & -> & He & <-). simpl. by rewrite He.
  - exists ck'. split_and!; try done; apply Hok'.
Qed.

(** [PutAppend] has no case for the empty error of a killed server (nor for
    ErrNoKey from the record of an earlier [Get]): while the current server
    answers so, the clerk calls the same server again, for ever, whatever the
    other servers would answer. *)
Theorem Clerk_PutAppend_stuck net key value op ck here :
  clerk_ok ck → go_nth (ck_servers ck) (ck_currLeader ck) = Some here →
  (∀ i args, net i here args = Some (mkPutAppendReply "" 0)) →
  ∀ fuel, ∃ ck', Clerk_PutAppend net fuel key value op ck = Some (ck', None) ∧
                 ck_currLeader ck' = ck_currLeader ck.
Proof.
  intros Hok Hh Hnet fuel. unfold Clerk_PutAppend. cbn [Clerk_next].
  set (ck1 := mkClerk (ck_servers ck) (ck_currLeader ck) (ck_clientId ck) (ck_seqId ck + 1)).
  exists ck1. split; [|done]. set (args := mkPutAppendArgs _ _ _ _ _). clearbody args.
  generalize 0. induction fuel as [|fuel IH]; intros i; [done|]. cbn [clerk_loop].
  change (go_nth (ck_servers ck1) (ck_currLeader ck1))
    with (go_nth (ck_servers ck) (ck_currLeader ck)).
  rewrite Hh. cbn [mbind option_bind]. rewrite Hnet. apply IH.
Qed.

(** ** Client (controlplane/kvclient) *)

Record Client := mkClient {
  addrs : list string;
  curr : Z;
  clientID : Z;
  seqID : Z
}.

(** [strings.TrimSpace] on ASCII text, which host names and ports are. *)
Definition is_space (a : ascii) : bool :=
  existsb (λ c, bool_decide (a = c))
    (["009"; "010"; "011"; "012"; "013"; " "]%char).

Fixpoint drop_while (p : ascii → bool) (l : list ascii) : list ascii :=
  match l with [] => [] | a :: l' => if p a then drop_while p l' else l end.

Definition TrimLeftFunc (p : ascii → bool) (s : string) : string :=
  String.string_of_list_ascii (drop_while p (String.list_ascii_of_string s)).
Definition TrimRightFunc (p : ascii → bool) (s : string) : string :=
  String.string_of_list_ascii (reverse (drop_while p (reverse (String.list_ascii_of_string s)))).
Definition TrimSpace (s : string) : string := TrimRightFunc is_space (TrimLeftFunc is_space s).
Definition TrimRight_slash (s : string) : string :=
  TrimRightFunc (λ a, bool_decide (a = "/"%char)) s.

(** [New]: [now] is [time.Now().UnixNano()]. *)
Definition New (l : list string) (now : Z) : Client :=
  mkClient (filter (λ a, a ≠ "") ((λ a, TrimRight_slash (TrimSpace a)) <$> l)) 0 now 0.

Definition nextAddr (c : Client) : option (Client * string) :=
  if bool_decide (length (addrs c) = 0) then Some (c, "")
  else
    addr ← go_nth (addrs c) (curr c);
    Some (mkClient (addrs c) (Z.rem (curr c + 1) (zlen (addrs c))) (clientID c) (seqID c), addr).

Definition prepareRequest (req : HTTPRequest) (c : Client) : Client * HTTPRequest :=
  let c1 := mkClient (addrs c) (curr c) (clientID c) (seqID c + 1) in
  (c1, mkHTTPRequest (hq_Op req) (hq_Key req) (hq_Value req) (clientID c1) (seqID c1)).

(** An answer that ends the round; [doOnce] returns [inr] on any error of
    building, sending, reading or decoding. *)
Definition conclusive (o : HTTPResponse + string) : bool :=
  match o with
  | inl r => negb (bool_decide (hr_Err r = ErrWrongLeader) || bool_decide (hr_Err r = ErrTimeOut))
  | inr _ => false
  end.

(** The sections of [Client] under [c.mu].  [execute] holds the lock only inside
    them, so other goroutines that use the same [Client] can run their own in
    between. *)
Inductive ClientSection :=
  | CNext                               (** [nextAddr] *)
  | CPrepare (req : HTTPRequest).       (** [prepareRequest] *)

Fixpoint run_sections (ss : list ClientSection) (c : Client) : option Client :=
  match ss with
  | [] => Some c
  | CNext :: ss' => '(c1, _) ← nextAddr c; run_sections ss' c1
  | CPrepare req :: ss' => run_sections ss' (prepareRequest req c).1
  end.

(** [for i := 0; i < tries; i++], with [tries] iterations left; [others (S i)]
    is what other goroutines do with the client before the [i]-th [nextAddr]. *)
Fixpoint execute_loop (others : nat → list ClientSection)
    (doOnce : nat → string → HTTPRequest → HTTPResponse + string)
    (req : HTTPRequest) (tries i : nat) (c : Client) : option (Client * (HTTPResponse + string)) :=
  match tries with
  | O => Some (c, inr "no available kv leader")
  | S tries' =>
      c0 ← run_sections (others (S i)) c;
      '(c1, addr) ← nextAddr c0;
      if conclusive (doOnce i addr req) then Some (c1, doOnce i addr req)
      else execute_loop others doOnce req tries' (S i) c1
  end.

(** [others 0] is what they do before [prepareRequest]; the addresses of a
    client never change. *)
Definition execute_req (others : nat → list ClientSection)
    (doOnce : nat → string → HTTPRequest → HTTPResponse + string)
    (req : HTTPRequest) (c : Client) : option (Client * (HTTPResponse + string)) :=
  if bool_decide (length (addrs c) = 0)
  then Some (c, inr "no kv server addresses configured")
  else
    c0 ← run_sections (others 0) c;
    let '(c1, req1) := prepareRequest req c0 in
    execute_loop others doOnce req1 (length (addrs c1)) 0 c1.

(** No other goroutine uses the client meanwhile. *)
Definition alone : nat → list ClientSection := λ _, [].

(** [Put], [Get], [Delete]: [inr] is a Go error with its text. *)
Definition Client_Put others doOnce (key value : string) (c : Client) : option (Client * (() + string)) :=
  '(c1, res) ← execute_req others doOnce (mkHTTPRequest "put" key value 0 0) c;
  Some (c1, match res with
            | inr e => inr e
            | inl r => if bool_decide (hr_Err r = OK) then inl ()
                       else inr (String.append "kv put: " (hr_Err r))
            end).

Definition Client_Get others doOnce (key : string) (c : Client) : option (Client * (string + string)) :=
  '(c1, res) ← execute_req others doOnce (mkHTTPRequest "get" key "" 0 0) c;
  Some (c1, match res with
            | inr e => inr e
            | inl r => if bool_decide (hr_Err r = OK) then inl (hr_Value r)
                       else if bool_decide (hr_Err r = ErrNoKey) then inl ""
                       else inr (String.append "kv get: " (hr_Err r))
            end).

Definition Client_Delete others doOnce (key : string) (c : Client) : option (Client * (() + string)) :=
  '(c1, res) ← execute_req others doOnce (mkHTTPRequest "delete" key "" 0 0) c;
  Some (c1, match res with
            | inr e => inr e
            | inl r => if bool_decide (hr_Err r = OK) then inl ()
                       else inr (String.append "kv delete: " (hr_Err r))
            end).

(** *** One round over the addresses *)

Definition client_ok (c : Client) : Prop := (0 ≤ curr c < zlen (addrs c))%Z.

(** The address of the [k]-th try. *)
Definition addr_at (c : Client) (k : nat) : string :=
  default "" (go_nth (addrs c) ((curr c + Z.of_nat k) mod zlen (addrs c))).

Definition moved (k : nat) (c : Client) : Client :=
  mkClient (addrs c) ((curr c + Z.of_nat k) mod zlen (addrs c)) (clientID c) (seqID c).

Lemma moved_ok k c : client_ok c → client_ok (moved k c).
Proof. intros H. apply Z.mod_pos_bound. unfold client_ok in *. simpl. lia. Qed.

Lemma moved_0 c : client_ok c → moved 0 c = c.
Proof. intros H. unfold moved. rewrite Z.add_0_r, Z.mod_small by done. by destruct c. Qed.

Lemma nextAddr_moved k c :
  client_ok c → nextAddr (moved k c) = Some (moved (S k) c, addr_at c k).
Proof.
  intros H. pose proof (moved_ok k c H) as Hm. unfold nextAddr, addr_at, client_ok in *.
  rewrite bool_decide_false by (simpl in *; unfold zlen in *; lia).
  destruct (go_nth_is_Some (addrs (moved k c)) (curr (moved k c)) Hm) as [a Ha].
  rewrite Ha. cbn [mbind option_bind]. simpl in Ha, Hm. rewrite Ha.
  unfold moved. simpl. do 3 f_equal. rewrite Z.rem_mod_nonneg by lia.
  rewrite Z.add_mod_idemp_l by lia. f_equal. lia.
Qed.




Lemma nextAddr_ok c : client_ok c → nextAddr c = Some (moved 1 c, addr_at c 0) ∧ addr_at c 0 ∈ addrs c.
Proof.
  intros H. rewrite <- (moved_0 c H) at 1. split; [by apply nextAddr_moved|].
  unfold addr_at. rewrite Z.add_0_r, Z.mod_small by done.
  destruct (go_nth_is_Some (addrs c) (curr c) H) as [a Ha]. rewrite Ha. simpl.
  apply go_nth_Some in Ha as [_ Ha]. by eapply list_elem_of_lookup_2.
Qed.



(** The addresses that [n] tries get, from the [i]-th on. *)
Fixpoint try_addrs (others : nat → list ClientSection) (n i : nat) (c : Client) : option (list string) :=
  match n with
  | O => Some []
  | S n' =>
      c0 ← run_sections (others (S i)) c;
      '(c1, addr) ← nextAddr c0;
      rest ← try_addrs others n' (S i) c1;
      Some (addr :: rest)
  end.






(** Alone, with a first answer that ends the round. *)
Lemma execute_first doOnce req c :
  client_ok c → conclusive (doOnce 0 (addr_at c 0) (prepareRequest req c).2) = true →
  execute_req alone doOnce req c =
    Some (moved 1 (prepareRequest req c).1, doOnce 0 (addr_at c 0) (prepareRequest req c).2).
Proof.
  intros Hok Hc. unfold execute_req. rewrite bool_decide_false by (unfold client_ok, zlen in Hok; lia).
  cbn [alone run_sections mbind option_bind prepareRequest]. cbn [addrs].
  destruct (length (addrs c)) as [|n] eqn:Hl; [unfold client_ok, zlen in Hok; lia|].
  cbn [execute_loop alone run_sections mbind option_bind].
  destruct (nextAddr_ok (prepareRequest req c).1 Hok) as [E _]. simpl in E. rewrite E. cbn [mbind option_bind].
  change (addr_at _ 0) with (addr_at c 0). cbn [prepareRequest fst snd] in Hc |- *. cbn [clientID seqID] in Hc |- *.
  by rewrite Hc.
Qed.

(** ** Instances *)

(** Three servers; only server 2 answers. *)
Definition wit_net (i : nat) (s : Z) (args : GetArgs) : option GetReply :=
  if (s =? 2)%Z then Some (mkGetReply OK (ga_Key args) 0)
  else if (s =? 1)%Z then None else Some (mkGetReply ErrWrongLeader "" 0).

Lemma Clerk_Get_finds_witness :
  ∃ ck', Clerk_Get wit_net 3 "k" (MakeClerk [0; 1; 2]%Z 77) = Some (ck', Some "k") ∧
    ck_currLeader ck' = 2%Z.
Proof.
  destruct (Clerk_Get_finds wit_net 3 "k" (MakeClerk [0; 1; 2]%Z 77) 2 "k")
    as (ck' & H & _ & _ & _).
  - vm_compute. split; [discriminate|reflexivity].
  - set_solver.
  - simpl. lia.
  - split; [|by intros i; eexists].
    intros i s Hs. unfold wit_net. rewrite (proj2 (Z.eqb_neq _ _) Hs). case_match; simpl; auto.
  - exists ck'. split; [exact H|]. vm_compute in H. by injection H as <-.
Defined.

Lemma Clerk_PutAppend_stuck_witness :
  ∃ ck', Clerk_PutAppend (λ _ s _, if (s =? 0)%Z then Some (mkPutAppendReply "" 0)
                                   else Some (mkPutAppendReply OK 0))
           1000 "k" "v" "Put" (MakeClerk [0; 1; 2]%Z 77) = Some (ck', None) ∧
         ck_currLeader ck' = 0%Z.
Proof.
  apply (Clerk_PutAppend_stuck _ "k" "v" "Put" (MakeClerk [0; 1; 2]%Z 77) 0).
  - vm_compute. split; [discriminate|reflexivity].
  - reflexivity.
  - reflexivity.
Defined.

(** Two servers, of which only the second answers. *)
Definition two_client : Client := New [" http://a:1/ "; ""; "http://b:2"] 5.
Definition b_answers (i : nat) (a : string) (_ : HTTPRequest) : HTTPResponse + string :=
  if bool_decide (a = "http://b:2") then inl (mkHTTPResponse true "v" OK) else inr "refused".


(** Another goroutine takes an address between the two tries: the round goes to
    one address twice and reports that there is no leader, although the other
    address would have answered. *)
Theorem execute_misses :
  let others := λ i, match i with 2 => [CNext] | _ => [] end in
  try_addrs others 2 0 two_client = Some ["http://a:1"; "http://a:1"] ∧
  snd <$> execute_req others b_answers (mkHTTPRequest "get" "x" "" 0 0) two_client = Some (inr "no available kv leader") ∧
  snd <$> execute_req alone b_answers (mkHTTPRequest "get" "x" "" 0 0) two_client = Some (inl (mkHTTPResponse true "v" OK)).
Proof. vm_compute. auto. Qed.
