(* ===== verification/KVService.v ===== *)
(** * What the control plane may expect from the key/value service

    [KVService] is the interface the controller is verified against: the two
    operations of kvclient.Client that it uses, a view of the stored map, and
    what each outcome tells about it.  The service is settled ([kv_settled]) when
    no earlier [Put] is outstanding: a [Put] that reports an error may have been
    logged and take effect now, during any later operation, or never, so that
    after it nothing is promised any more; a [Put] that succeeded and a [Get],
    whatever it returns, leave a settled service settled.  The instance
    [local_service] discharges the interface with the code: a [Client], used by
    one goroutine at a time, in front of a cluster that answers every request at
    once. *)

From S2P Require Import Prelude KVServer KVMachine KVHttp KVClerk.
From stdpp Require Import strings.

#[local] Arguments apply_op : simpl never.

Class KVService (S : Type) := {
  kv_settled : S → Prop;
  kv_view : S → Store;
  kv_Put : string → string → S → S * option string;
  kv_Get : string → S → S * (string + string);
  kv_Put_settled : ∀ k v s s', kv_settled s → kv_Put k v s = (s', None) → kv_settled s';
  kv_Get_settled : ∀ k s, kv_settled s → kv_settled (kv_Get k s).1;
  kv_Put_ok : ∀ k v s s', kv_settled s → kv_Put k v s = (s', None) →
    kv_view s' = <[k := v]> (kv_view s);
  kv_Get_same : ∀ k s, kv_settled s → kv_view (kv_Get k s).1 = kv_view s;
  kv_Get_ok : ∀ k s s' v, kv_settled s → kv_Get k s = (s', inl v) →
    v = default "" (kv_view s !! k)
}.

(** ** A client in front of a cluster that answers *)

Definition Local : Type := (Client * Machine)%type.

(** The command that a request becomes. *)
Definition local_command (req : HTTPRequest) : option Op :=
  command_of <$> http_request (hq_Op req) (hq_Key req) (hq_Value req) (hq_ClientID req) (hq_SeqID req).

(** The answer of the cluster in state [m]: the handler's reply for the
    command's output. *)
Definition local_answer (m : Machine) (req : HTTPRequest) : HTTPResponse :=
  match http_request (hq_Op req) (hq_Key req) (hq_Value req) (hq_ClientID req) (hq_SeqID req) with
  | None => mkHTTPResponse false "" ErrBadRequest
  | Some r => http_response (fill_reply r (apply_op (command_of r) m).2 0)
  end.

Definition local_state (m : Machine) (req : HTTPRequest) : Machine :=
  match local_command req with None => m | Some cmd => (apply_op cmd m).1 end.

Definition local_net (m : Machine) (i : nat) (addr : string) (req : HTTPRequest)
    : HTTPResponse + string := inl (local_answer m req).

Definition local_Put (k v : string) (s : Local) : Local * option string :=
  let '(c, m) := s in
  match Client_Put alone (local_net m) k v c with
  | Some (c', res) =>
      ((c', local_state m (prepareRequest (mkHTTPRequest "put" k v 0 0) c).2),
       match res with inl _ => None | inr e => Some e end)
  | None => (s, Some "panic")
  end.

Definition local_Get (k : string) (s : Local) : Local * (string + string) :=
  let '(c, m) := s in
  match Client_Get alone (local_net m) k c with
  | Some (c', res) =>
      ((c', local_state m (prepareRequest (mkHTTPRequest "get" k "" 0 0) c).2), res)
  | None => (s, inr "panic")
  end.

(** The client's next number is new to the cluster. *)
Definition local_inv (s : Local) : Prop :=
  client_ok s.1 ∧
  ∀ rec, s.2.2 !! clientID s.1 = Some rec → (LastSeqId rec ≤ seqID s.1)%Z.

Lemma apply_op_new cmd s r :
  (∀ rec, r !! op_ClientId cmd = Some rec → (LastSeqId rec < op_SeqId cmd)%Z) →
  apply_op cmd (s, r) =
    (((applyToStateMachine cmd s).1,
      <[op_ClientId cmd := mkLastOpRecord (op_SeqId cmd) (applyToStateMachine cmd s).2]> r),
     (applyToStateMachine cmd s).2).
Proof.
  intros Hnew. unfold apply_op. destruct (r !! op_ClientId cmd) as [rec|] eqn:Hr.
  - specialize (Hnew rec eq_refl). rewrite Z.geb_leb, (proj2 (Z.leb_gt _ _)) by lia.
    by destruct (applyToStateMachine cmd s).
  - by destruct (applyToStateMachine cmd s).
Qed.

(** The first try answers. *)
Lemma local_execute m req c :
  client_ok c → conclusive (inl (local_answer m (prepareRequest req c).2)) = true →
  execute_req alone (local_net m) req c =
    Some (moved 1 (prepareRequest req c).1, inl (local_answer m (prepareRequest req c).2)).
Proof.
  intros Hok Hc. by apply (execute_first (local_net m)).
Qed.

(** Both operations leave the client's number as the recorded one. *)
Lemma local_inv_step c m cmd :
  local_inv (c, m) → op_ClientId cmd = clientID c → op_SeqId cmd = (seqID c + 1)%Z →
  local_inv (moved 1 (mkClient (addrs c) (curr c) (clientID c) (seqID c + 1)), (apply_op cmd m).1).
Proof.
  intros [Hok Hrec] Hc Hs. destruct m as [st r]. simpl in *. split; [by apply moved_ok|].
  intros rec. simpl. rewrite apply_op_new by (rewrite Hc, Hs; intros rec' H%Hrec; lia).
  simpl. intros Hl. rewrite Hc in Hl.
  assert (rec = mkLastOpRecord (op_SeqId cmd) (applyToStateMachine cmd st).2) as ->.
  { symmetry. apply (inj Some). rewrite <- Hl. symmetry. apply lookup_insert_eq. }
  simpl. lia.
Qed.

Section local.
Context (c : Client) (m : Machine) (Hinv : local_inv (c, m)).

Lemma local_fresh cmd :
  op_ClientId cmd = clientID c → op_SeqId cmd = (seqID c + 1)%Z →
  apply_op cmd m = (((applyToStateMachine cmd m.1).1,
      <[op_ClientId cmd := mkLastOpRecord (op_SeqId cmd) (applyToStateMachine cmd m.1).2]> m.2),
     (applyToStateMachine cmd m.1).2).
Proof.
  intros Hc Hs. destruct m as [st r]. apply apply_op_new. rewrite Hc, Hs.
  destruct Hinv as [_ Hrec]. intros rec H%Hrec. simpl in *. lia.
Qed.

Lemma local_Put_eq k v :
  local_Put k v (c, m) =
  ((moved 1 (prepareRequest (mkHTTPRequest "put" k v 0 0) c).1,
    (apply_op (mkOp "Put" k v (seqID c + 1) (clientID c)) m).1), None).
Proof.
  pose proof (local_fresh (mkOp "Put" k v (seqID c + 1) (clientID c)) eq_refl eq_refl) as Hf.
  assert (local_answer m (prepareRequest (mkHTTPRequest "put" k v 0 0) c).2 = mkHTTPResponse true "" OK)
    as Ha.
  { unfold local_answer. simpl. unfold command_of. cbn [paa_Op paa_Key paa_Value paa_SeqId paa_ClientId].
    by rewrite Hf. }
  unfold local_Put, Client_Put. rewrite local_execute; [|apply Hinv|by rewrite Ha].
  rewrite Ha. reflexivity.
Qed.

Lemma local_Get_eq k :
  local_Get k (c, m) =
  ((moved 1 (prepareRequest (mkHTTPRequest "get" k "" 0 0) c).1,
    (apply_op (mkOp "Get" k "" (seqID c + 1) (clientID c)) m).1), inl (default "" (m.1 !! k))).
Proof.
  pose proof (local_fresh (mkOp "Get" k "" (seqID c + 1) (clientID c)) eq_refl eq_refl) as Hf.
  assert (local_answer m (prepareRequest (mkHTTPRequest "get" k "" 0 0) c).2 =
    http_response (ReplyGet (Get_reply (getHandler (mkOp "Get" k "" (seqID c + 1) (clientID c)) m.1) 0)))
    as Ha.
  { unfold local_answer. simpl. unfold command_of. cbn [ga_Key ga_SeqId ga_ClientId].
    by rewrite Hf. }
  unfold local_Get, Client_Get. rewrite local_execute; [|apply Hinv|]; rewrite Ha;
    unfold getHandler; cbn [op_Key]; by destruct (m.1 !! k).
Qed.
End local.

#[export] Program Instance local_service : KVService Local := {
  kv_settled := local_inv;
  kv_view s := s.2.1;
  kv_Put := local_Put;
  kv_Get := local_Get
}.
Next Obligation.
  intros k v [c m] s' Hinv. rewrite local_Put_eq by done. intros [= <-]. by apply local_inv_step.
Qed.
Next Obligation.
  intros k [c m] Hinv. rewrite local_Get_eq by done. by apply local_inv_step.
Qed.
Next Obligation.
  intros k v [c m] s' Hinv. rewrite local_Put_eq by done. intros [= <-]. cbn [fst snd].
  by rewrite (local_fresh c m Hinv).
Qed.
Next Obligation.
  intros k [c m] Hinv. rewrite local_Get_eq by done. cbn [fst snd].
  by rewrite (local_fresh c m Hinv).
Qed.
Next Obligation.
  intros k [c m] s' v Hinv. rewrite local_Get_eq by done. by intros [= _ <-].
Qed.

(** A new client, and a cluster that has executed nothing. *)
Definition local_start (addrs : list string) (now : Z) : Local := (New addrs now, empty_machine).

Lemma local_start_inv now : local_inv (local_start ["http://h"] now).
Proof.
  split; [vm_compute; split; [discriminate|reflexivity]|]. intros rec H.
  by rewrite no_record in H.
Qed.
