(* ===== verification/Models.v ===== *)
(** * Shared data of the control plane (models/worker.go)

    Worker records and the keys they are stored under.  A GPU utilization is a
    Go [float64]: an IEEE 754 value of [SpecFloat], compared with its
    comparison. *)

From S2P Require Import Prelude.
From Stdlib Require Import SpecFloat.
From stdpp Require Import strings pretty.

Definition float64 : Type := spec_float.

(** [a < b] and [a > b] of Go: false when either is NaN. *)
Definition flt (a b : float64) : bool := SFltb a b.
Definition fgt (a b : float64) : bool := SFltb b a.

Definition WorkerStatus : Type := string.
Definition WorkerBusy : WorkerStatus := "busy".
Definition WorkerIdle : WorkerStatus := "idle".
Definition WorkerOffline : WorkerStatus := "offline".

Record GPUInfo := mkGPUInfo {
  gpu_ID : Z;
  gpu_Model : string;
  gpu_MemoryMB : Z;
  gpu_Utilization : float64
}.

Record WorkerInfo := mkWorkerInfo {
  w_ID : string;
  w_IP : string;
  w_Port : Z;
  w_GPUs : list GPUInfo;
  w_Status : WorkerStatus
}.

(** The zero value [models.WorkerInfo{}]. *)
Definition zero_WorkerInfo : WorkerInfo := mkWorkerInfo "" "" 0 [] "".

(** [fmt.Sprintf("%s:%d", ip, port)] *)
Definition ip_port (w : WorkerInfo) : string :=
  String.append (w_IP w) (String.append ":" (pretty (w_Port w))).

Definition WorkerKey (w : WorkerInfo) : string :=
  if negb (bool_decide (w_ID w = "")) then String.append "worker/" (w_ID w)
  else String.append "worker/" (ip_port w).

Definition EnsureID (w : WorkerInfo) : WorkerInfo :=
  if bool_decide (w_ID w = "")
  then mkWorkerInfo (ip_port w) (w_IP w) (w_Port w) (w_GPUs w) (w_Status w)
  else w.

(** ** Identifiers *)

Lemma EnsureID_nonempty w : w_ID (EnsureID w) ≠ "".
Proof.
  unfold EnsureID. case_bool_decide; [simpl|done]. unfold ip_port. by destruct (w_IP w).
Qed.

Lemma WorkerKey_EnsureID w :
  WorkerKey (EnsureID w) = WorkerKey w ∧
  WorkerKey (EnsureID w) = String.append "worker/" (w_ID (EnsureID w)).
Proof.
  pose proof (EnsureID_nonempty w) as Hne. unfold WorkerKey at 1 3.
  rewrite bool_decide_false by done. unfold EnsureID, WorkerKey. by case_bool_decide.
Qed.

(** ** The order of [float64] values

    [flt] is the lexicographic order of (class, exponent, mantissa), with the
    sign folded in. *)

Definition fkey (f : float64) : Z * Z * Z :=
  match f with
  | S754_infinity true => (-2, 0, 0)%Z
  | S754_finite true m e => (-1, - e, - Zpos m)%Z
  | S754_zero _ => (0, 0, 0)%Z
  | S754_finite false m e => (1, e, Zpos m)%Z
  | S754_infinity false => (2, 0, 0)%Z
  | S754_nan => (0, 0, 0)%Z
  end.

Definition is_nan (f : float64) : bool := match f with S754_nan => true | _ => false end.

Definition lex (a b : Z * Z * Z) : Prop :=
  (a.1.1 < b.1.1)%Z ∨
  (a.1.1 = b.1.1 ∧ ((a.1.2 < b.1.2)%Z ∨ (a.1.2 = b.1.2 ∧ (a.2 < b.2)%Z))).

Lemma flt_lex f g :
  is_nan f = false → is_nan g = false → flt f g = true ↔ lex (fkey f) (fkey g).
Proof.
  unfold flt, SFltb, lex. intros Hf Hg.
  destruct f as [sf|[]| |[] mf ef], g as [sg|[]| |[] mg eg]; simpl in *; try done; try lia.
  all: change (PosDef.Pos.compare_cont Eq mf mg) with (Pos.compare mf mg).
  all: destruct (Z.compare_spec ef eg); [destruct (Pos.compare_spec mf mg)|..]; simpl;
    split; intros; try done; lia.
Qed.

(** ** Decidable equality and counting *)

#[export] Instance float64_eq_dec : EqDecision float64.
Proof. unfold EqDecision, Decision, float64. decide equality; apply (decide (_ = _)). Defined.

#[export] Instance float64_countable : Countable float64.
Proof.
  refine (inj_countable'
    (λ f : float64, match f with
          | S754_zero s => (0, s, 1%positive, 0)%Z
          | S754_infinity s => (1, s, 1%positive, 0)%Z
          | S754_nan => (2, true, 1%positive, 0)%Z
          | S754_finite s m e => (3, s, m, e)%Z
          end)
    (λ '(t, s, m, e), if (t =? 0)%Z then S754_zero s else if (t =? 1)%Z then S754_infinity s
                      else if (t =? 2)%Z then S754_nan else S754_finite s m e) _).
  by intros [].
Defined.

#[export] Instance GPUInfo_eq_dec : EqDecision GPUInfo.
Proof. solve_decision. Defined.
#[export] Instance GPUInfo_countable : Countable GPUInfo.
Proof.
  refine (inj_countable' (λ g, (gpu_ID g, gpu_Model g, gpu_MemoryMB g, gpu_Utilization g))
    (λ '(i, m, mb, u), mkGPUInfo i m mb u) _). by intros [].
Defined.
#[export] Instance WorkerInfo_eq_dec : EqDecision WorkerInfo.
Proof. solve_decision. Defined.
#[export] Instance WorkerInfo_countable : Countable WorkerInfo.
Proof.
  refine (inj_countable' (λ w, (w_ID w, w_IP w, w_Port w, w_GPUs w, w_Status w : string))
    (λ '(i, ip, p, g, s), mkWorkerInfo i ip p g s) _). by intros [].
Defined.
