(* ===== verification/Json.v ===== *)
(** * encoding/json as the control plane relies on it

    [Json] and [JsonStream] are the interfaces to encoding/json for one type:
    Marshal, Unmarshal, Decoder and Encoder with what is documented of them.
    Strings are coerced to valid UTF-8 on the way (invalid bytes become the
    replacement character), so that the round trip holds only for values all of
    whose strings are valid, and what is decoded is always valid.  [texts] lists
    the strings of a value, [ValidString] is unicode/utf8's function. *)

From Stdlib Require Import Ascii.
From S2P Require Import Prelude KVHttp Models.
From stdpp Require Import strings pretty.

(** ** UTF-8 *)

Definition between (lo hi n : N) : bool := (lo <=? n)%N && (n <=? hi)%N.

(** The ranges of the bytes that must follow a first byte; [None] when no
    encoding begins with it. *)
Definition utf8_rest (b : N) : option (list (N * N)) :=
  let any := (128, 191)%N in
  if between 0 127 b then Some []
  else if between 194 223 b then Some [any]
  else if between 224 224 b then Some [(160, 191)%N; any]
  else if between 237 237 b then Some [(128, 159)%N; any]
  else if between 225 239 b then Some [any; any]
  else if between 240 240 b then Some [(144, 191)%N; any; any]
  else if between 241 243 b then Some [any; any; any]
  else if between 244 244 b then Some [(128, 143)%N; any; any]
  else None.

(** The string completes an encoding of which [todo] is missing, and goes on
    with whole ones. *)
Fixpoint utf8_from (todo : list (N * N)) (s : string) : bool :=
  match s, todo with
  | EmptyString, [] => true
  | EmptyString, _ :: _ => false
  | String a s', [] => match utf8_rest (N_of_ascii a) with Some t => utf8_from t s' | None => false end
  | String a s', (lo, hi) :: t => between lo hi (N_of_ascii a) && utf8_from t s'
  end.

Definition ValidString (s : string) : bool := utf8_from [] s.

Lemma utf8_from_app a b : ∀ todo, utf8_from todo a = true → ValidString b = true → utf8_from todo (String.append a b) = true.
Proof.
  induction a as [|x a IH]; intros [|[lo hi] t] Ha Hb; simpl in *; try done.
  - destruct (utf8_rest _); [|done]. by apply IH.
  - apply andb_true_iff in Ha as [-> Ha]. by apply IH.
Qed.

Lemma ValidString_app a b : ValidString a = true → ValidString b = true → ValidString (String.append a b) = true.
Proof. apply utf8_from_app. Qed.

Lemma pretty_go_valid x s : ValidString s = true → ValidString (pretty_N_go x s) = true.
Proof.
  revert s. induction (N.lt_wf_0 x) as [x _ IH]; intros s Hs.
  assert (x = 0 ∨ 0 < x)%N as [->|Hx] by lia; [by rewrite pretty_N_go_0|].
  rewrite pretty_N_go_step by done. apply IH; [by apply N.div_lt|]. unfold pretty_N_char. by repeat case_match.
Qed.

Lemma pretty_valid (z : Z) : ValidString (pretty z) = true.
Proof.
  assert (∀ q, ValidString (pretty (N.pos q)) = true) as Hp.
  { intros q. unfold pretty, pretty_N. case_decide; [done|]. by apply pretty_go_valid. }
  destruct z as [|q|q]; [done|apply Hp|]. change (pretty (Z.neg q)) with (String "-" (pretty (N.pos q))). apply Hp.
Qed.

(** ** The strings of a value *)

Class Texts (A : Type) := texts : A → list string.

#[export] Instance string_texts : Texts string := λ s, [s].
#[export] Instance list_texts `{Texts A} : Texts (list A) := λ l, l ≫= texts.
#[export] Instance gmap_texts `{Texts A} : Texts (gmap string A) := λ m, map_to_list m ≫= λ p, p.1 :: texts p.2.
#[export] Instance GPUInfo_texts : Texts GPUInfo := λ g, [gpu_Model g].
#[export] Instance WorkerInfo_texts : Texts WorkerInfo := λ w, w_ID w :: w_IP w :: w_Status w :: texts (w_GPUs w).
#[export] Instance HTTPRequest_texts : Texts HTTPRequest := λ r, [hq_Op r; hq_Key r; hq_Value r].
#[export] Instance HTTPResponse_texts : Texts HTTPResponse := λ r, [hr_Value r; hr_Err r].

Definition json_valid `{Texts A} (a : A) : Prop := Forall (λ s, ValidString s = true) (texts a).

#[export] Instance json_valid_dec `{Texts A} (a : A) : Decision (json_valid a).
Proof. apply _. Defined.

Lemma json_valid_strings (l : list string) : (∀ s, s ∈ l → ValidString s = true) → json_valid l.
Proof.
  intros H. apply list.Forall_forall. intros s Hs. apply H. unfold texts, list_texts in Hs.
  apply list_elem_of_bind in Hs as (x & Hx & Hin). unfold texts, string_texts in Hx.
  by apply list_elem_of_singleton in Hx as ->.
Qed.

(** The identifier that [EnsureID] makes is text. *)
Lemma EnsureID_valid w : json_valid w → json_valid (EnsureID w).
Proof.
  unfold EnsureID. case_bool_decide as Hid; [|done]. unfold json_valid, texts, WorkerInfo_texts. simpl.
  rewrite !list.Forall_cons. intros (_ & Hip & Hst & Hg). split_and!; try done.
  unfold ip_port. apply ValidString_app; [done|]. apply ValidString_app; [done|]. apply pretty_valid.
Qed.

Lemma WorkerInfo_id_valid w : json_valid w → ValidString (w_ID w) = true.
Proof. unfold json_valid, texts, WorkerInfo_texts. rewrite list.Forall_cons. by intros [? _]. Qed.

(** ** The interfaces *)

(** [json.Marshal] and [json.Unmarshal]: marshalling can fail (a NaN
    utilization), a decoded encoding of a valid value is the value again, no
    encoding is the empty string, and decoded strings are valid. *)
Class Json (A : Type) `{!Texts A} := {
  json_marshal : A → option string;
  json_unmarshal : string → option A;
  json_roundtrip : ∀ a s, json_valid a → json_marshal a = Some s → json_unmarshal s = Some a;
  json_nonempty : ∀ a s, json_marshal a = Some s → s ≠ "";
  json_unmarshal_valid : ∀ s a, json_unmarshal s = Some a → json_valid a
}.

Definition newline : string := String "010"%char EmptyString.

(** [json.NewDecoder(r).Decode]: it reads one value, and there is none in an
    empty body; [json.NewEncoder(w).Encode] writes a value and a newline, which
    Unmarshal skips. *)
Class JsonStream (A : Type) `{!Texts A} := {
  stream_json :: Json A;
  json_decode : string → option A;
  json_decode_line : ∀ a s, json_valid a → json_marshal a = Some s → json_decode (String.append s newline) = Some a;
  json_unmarshal_line : ∀ a s, json_valid a → json_marshal a = Some s → json_unmarshal (String.append s newline) = Some a;
  json_decode_empty : json_decode EmptyString = None
}.

(** Encode: a value that cannot be encoded writes nothing. *)
Definition Encode {A} `{Json A} (a : A) : string :=
  match json_marshal a with Some s => String.append s newline | None => EmptyString end.

Lemma decode_Encode {A} `{JsonStream A} (a : A) :
  json_valid a → json_decode (Encode a) = match json_marshal a with Some _ => Some a | None => None end.
Proof.
  intros Hv. unfold Encode. destruct (json_marshal a) as [s|] eqn:E; [by apply json_decode_line|apply json_decode_empty].
Qed.

(** ** A concrete encoder for every countable type

    It keeps every string, and its decoder refuses what is not valid. *)

Lemma bytes_pos_app p l : bytes_pos (pos_bytes p ++ l) = Some p.
Proof. by induction p as [p IH|p IH|]; simpl; rewrite ?IH. Qed.

Lemma list_byte_of_append a b :
  String.list_byte_of_string (String.append a b) = String.list_byte_of_string a ++ String.list_byte_of_string b.
Proof. induction a as [|x a IH]; [done|]. exact (f_equal (cons (byte_of_ascii x)) IH). Qed.

Definition countable_marshal `{Countable A} (a : A) : option string :=
  Some (String.string_of_list_byte (gob_encode a)).

Definition countable_unmarshal `{Countable A, !Texts A} (s : string) : option A :=
  a ← gob_decode (String.list_byte_of_string s);
  if decide (json_valid a) then Some a else None.

(** The decoder ignores what follows a value. *)
Lemma countable_unmarshal_app `{Countable A, !Texts A} (a : A) s rest :
  json_valid a → countable_marshal a = Some s → countable_unmarshal (String.append s rest) = Some a.
Proof.
  intros Hv [= <-]. unfold countable_unmarshal. simpl.
  rewrite list_byte_of_append, String.list_byte_of_string_of_list_byte, bytes_pos_app. simpl.
  rewrite decode_encode. simpl. by rewrite decide_True.
Qed.

Lemma append_empty s : String.append s EmptyString = s.
Proof. induction s as [|a s IH]; [done|]. exact (f_equal (String a) IH). Qed.

#[export] Program Instance json_countable `{Countable A, !Texts A} : Json A := {
  json_marshal := countable_marshal;
  json_unmarshal := countable_unmarshal
}.
Next Obligation. intros A ??? a s Hv Hm. rewrite <- (append_empty s). by apply countable_unmarshal_app. Qed.
Next Obligation.
  intros A ??? a s [= <-]. pose proof (gob_nonempty a : pos_bytes (encode a) ≠ []).
  by destruct (pos_bytes (encode a)).
Qed.
Next Obligation.
  intros A ??? s a Hu. unfold countable_unmarshal in Hu. apply bind_Some in Hu as (a' & _ & Hu). case_decide; [|done].
  by injection Hu as <-.
Qed.

#[export] Program Instance json_stream_countable `{Countable A, !Texts A} : JsonStream A := {
  stream_json := json_countable;
  json_decode := countable_unmarshal
}.
Next Obligation. intros. by apply countable_unmarshal_app. Qed.
Next Obligation. intros. by apply countable_unmarshal_app. Qed.
Next Obligation. done. Qed.
