(* ===== verification/Controller.v ===== *)
(** * The worker registry (controlplane/controller/controller.go)

    [Controller] keeps in memory the workers it has heard from, and stores a
    record per worker and the list of their identifiers in the key/value
    service, which it uses through the interface [KVService].  JSON encoding is
    the class [Json].  A Go map is iterated in no fixed order: [range_order] is
    the order of one execution.  The methods hold [c.mu] only in parts: a method
    is made of its sections (what it does under the lock, and each call to the
    service outside it), and [csection] runs one section of one request.  A
    controller with its requests is [CSys]; [crun] interleaves their sections
    with each other and with the ticks of the heartbeat checker.  [RegisterWorker],
    [ListWorkers], [PickBestWorker] and [CServeHTTP] are the sections of one
    request without another request in between ([serve_sections]). *)

From S2P Require Import Prelude KVServer KVMachine KVHttp KVClerk KVService Models Json.
From Stdlib Require Import SpecFloat Ascii.
From stdpp Require Import strings.

Definition workersIndexKey : string := "workers/index".

(** 1000.0 and 0.0 as [float64]. *)
Definition f1000 : float64 := S754_finite false 8796093022208000 (-43).
Definition f0 : float64 := S754_zero false.

(** ** Choosing a worker *)

Definition workerLoadScore (w : WorkerInfo) : float64 :=
  if bool_decide (w_Status w = WorkerBusy) then f1000
  else foldl (λ maxUtil g, if fgt (gpu_Utilization g) maxUtil then gpu_Utilization g else maxUtil)
         f0 (w_GPUs w).

(** The loop: [best] carries [best], [bestScore] and [found]. *)
Definition pick_step (seen : gset string) (requireSeen : bool)
    (best : option (WorkerInfo * float64)) (w : WorkerInfo) : option (WorkerInfo * float64) :=
  if requireSeen && negb (bool_decide (w_ID w ∈ seen)) then best
  else if bool_decide (w_Status w = WorkerOffline) then best
  else
    let score := workerLoadScore w in
    match best with
    | None => Some (w, score)
    | Some (_, bestScore) => if flt score bestScore then Some (w, score) else best
    end.

Definition pickLowestLoadWorker (workers : list WorkerInfo) (seen : gset string)
    (requireSeen : bool) : option WorkerInfo :=
  fst <$> foldl (pick_step seen requireSeen) None workers.

(** ** The controller *)

Section controller.
Context {S : Type} `{!KVService S} `{!Json WorkerInfo} `{!Json (list string)}.
Context (range_order : gset string → list string).

(** Times are nanoseconds. *)
Record Controller := mkController {
  c_kv : S;
  seen : gset string;
  lastseen : gmap string Z
}.

Definition NewController (kv : S) : Controller := mkController kv ∅ ∅.

Definition set_kv (kv : S) (c : Controller) : Controller :=
  mkController kv (seen c) (lastseen c).

(** [c.seen[id] = struct{}{}; c.lastseen[id] = time.Now()] *)
Definition mark (id : string) (now : Z) (c : Controller) : Controller :=
  mkController (c_kv c) ({[id]} ∪ seen c) (<[id := now]> (lastseen c)).

Definition idsLocked (c : Controller) : list string := range_order (seen c).

(** [inr] is a Go error. *)
Definition saveIndexLocked (c : Controller) : Controller * (() + string) :=
  match json_marshal (idsLocked c) with
  | None => (c, inr "json")
  | Some data =>
      let '(kv, err) := kv_Put workersIndexKey data (c_kv c) in
      (set_kv kv c, match err with None => inl () | Some e => inr e end)
  end.

(** One tick of [startHeartbeatChecker] at [now]. *)
Definition expired (now timeout : Z) (c : Controller) : gmap string Z :=
  filter (λ p, (timeout < now - p.2)%Z) (lastseen c).

Definition checkHeartbeats (now timeout : Z) (c : Controller) : Controller :=
  let gone := expired now timeout c in
  let c1 := mkController (c_kv c) (seen c ∖ dom gone) (lastseen c ∖ gone) in
  if bool_decide (gone = ∅) then c1 else (saveIndexLocked c1).1.

(** [RegisterWorker] stores the record without the lock, then takes the lock. *)
Definition RegisterWorker_put (info : WorkerInfo) (c : Controller) : Controller * (() + string) :=
  match json_marshal info with
  | None => (c, inr "json")
  | Some data =>
      match kv_Put (WorkerKey info) data (c_kv c) with
      | (kv, Some e) => (set_kv kv c, inr e)
      | (kv, None) => (set_kv kv c, inl ())
      end
  end.

Definition RegisterWorker_index (now : Z) (info : WorkerInfo) (c : Controller) : Controller * (() + string) :=
  saveIndexLocked (mark (w_ID info) now c).

Definition RegisterWorker (now : Z) (info0 : WorkerInfo) (c : Controller)
    : Controller * (() + string) :=
  let info := EnsureID info0 in
  match RegisterWorker_put info c with
  | (c1, inr e) => (c1, inr e)
  | (c1, inl _) => RegisterWorker_index now info c1
  end.

Definition Heartbeat (now : Z) (info : WorkerInfo) (c : Controller) : Controller * (() + string) :=
  saveIndexLocked (mark (w_ID info) now c).

Definition GetWorker (id : string) (c : Controller) : Controller * (WorkerInfo + string) :=
  let '(kv, res) := kv_Get (String.append "worker/" id) (c_kv c) in
  (set_kv kv c,
   match res with
   | inr e => inr e
   | inl raw =>
       if bool_decide (raw = "") then inr "not found"
       else match json_unmarshal raw with None => inr "json" | Some info => inl info end
   end).

Definition loadIndex (c : Controller) : Controller * (list string + string) :=
  if bool_decide (0 < size (seen c)) then (c, inl (idsLocked c))
  else
    let '(kv, res) := kv_Get workersIndexKey (c_kv c) in
    let c1 := set_kv kv c in
    match res with
    | inr e => (c1, inr e)
    | inl raw =>
        if bool_decide (raw = "") then (c1, inl [])
        else match json_unmarshal raw with
             | None => (c1, inr "json")
             | Some ids => (mkController kv (list_to_set ids ∪ seen c1) (lastseen c1), inl ids)
             end
    end.

(** The loop of [ListWorkers]: a worker that cannot be loaded is skipped. *)
Fixpoint load_all (ids : list string) (c : Controller) : Controller * list WorkerInfo :=
  match ids with
  | [] => (c, [])
  | id :: ids' =>
      let '(c1, res) := GetWorker id c in
      let '(c2, out) := load_all ids' c1 in
      (c2, match res with inl info => info :: out | inr _ => out end)
  end.

Definition ListWorkers (c : Controller) : Controller * (list WorkerInfo + string) :=
  match loadIndex c with
  | (c1, inr e) => (c1, inr e)
  | (c1, inl ids) => let '(c2, out) := load_all ids c1 in (c2, inl out)
  end.

(** The section of [PickBestWorker] under the lock. *)
Definition PickBestWorker_choose (workers : list WorkerInfo) (c : Controller) : WorkerInfo + string :=
  match pickLowestLoadWorker workers (seen c) true with
  | Some best => inl best
  | None =>
      match pickLowestLoadWorker workers ∅ false with
      | Some best => inl best
      | None => inr "no available worker"
      end
  end.

Definition PickBestWorker (c : Controller) : Controller * (WorkerInfo + string) :=
  match ListWorkers c with
  | (c1, inr e) => (c1, inr e)
  | (c1, inl workers) => (c1, PickBestWorker_choose workers c1)
  end.

Definition addToIndex (id : string) (c : Controller) : Controller * (() + string) :=
  if bool_decide (id ∈ seen c) then saveIndexLocked c
  else saveIndexLocked (mkController (c_kv c) ({[id]} ∪ seen c) (lastseen c)).

(** ** HTTP *)

(** [http.Error] with its code, the JSON replies, or [http.NotFound]. *)
Inductive CReply :=
  | CError (code : Z) (text : string)
  | CRegistered (id : string)
  | CHeartbeat (id : string)
  | CWorkers (workers : list WorkerInfo)
  | CBest (w : WorkerInfo)
  | CNotFound.

(** [body] is [None] when reading it failed. *)
Definition decodeWorker (body : option string) : WorkerInfo + string :=
  match body with
  | None => inr "read"
  | Some b =>
      match json_unmarshal b with
      | None => inr "json"
      | Some info =>
          if bool_decide (w_IP info = "") || (w_Port info =? 0)%Z
          then inr "ip and port are required"
          else
            inl (EnsureID
              (if bool_decide (w_Status info = "")
               then mkWorkerInfo (w_ID info) (w_IP info) (w_Port info) (w_GPUs info) WorkerIdle
               else info))
      end
  end.

Definition handleRegister (now : Z) (body : option string) (c : Controller) : Controller * CReply :=
  match decodeWorker body with
  | inr e => (c, CError 400 e)
  | inl info =>
      match RegisterWorker now info c with
      | (c1, inr e) => (c1, CError 502 e)
      | (c1, inl _) => (c1, CRegistered (w_ID info))
      end
  end.

Definition handleHeartbeat (now : Z) (body : option string) (c : Controller) : Controller * CReply :=
  match decodeWorker body with
  | inr e => (c, CError 400 e)
  | inl info =>
      match Heartbeat now info c with
      | (c1, inr e) => (c1, CError 502 e)
      | (c1, inl _) => (c1, CHeartbeat (w_ID info))
      end
  end.

Definition handleBest (c : Controller) : Controller * CReply :=
  match PickBestWorker c with
  | (c1, inr e) => (c1, CError 503 e)
  | (c1, inl w) => (c1, CBest w)
  end.

Definition handleList (c : Controller) : Controller * CReply :=
  match ListWorkers c with
  | (c1, inr e) => (c1, CError 502 e)
  | (c1, inl ws) => (c1, CWorkers ws)
  end.

Definition CServeHTTP (method path : string) (now : Z) (body : option string) (c : Controller)
    : Controller * CReply :=
  if bool_decide (method = "POST") && bool_decide (path = "/workers/register")
  then handleRegister now body c
  else if bool_decide (method = "POST") && bool_decide (path = "/workers/heartbeat")
  then handleHeartbeat now body c
  else if bool_decide (method = "GET") && bool_decide (path = "/workers")
  then handleList c
  else if bool_decide (method = "GET") && bool_decide (path = "/workers/best")
  then handleBest c
  else (c, CNotFound).

(** ** Requests that interleave *)

(** A request before its next section: [best] tells /workers/best from
    /workers, [out] are the records loaded so far. *)
Inductive CTask :=
  | CPut (info : WorkerInfo)
  | CIndex (info : WorkerInfo)
  | CBeat (info : WorkerInfo)
  | CLoadIndex (best : bool)
  | CLoad (best : bool) (ids : list string) (out : list WorkerInfo)
  | CChoose (workers : list WorkerInfo)
  | CDone (r : CReply).

(** [ServeHTTP] and the handlers up to their first section. *)
Definition cbegin (method path : string) (body : option string) : CTask :=
  if bool_decide (method = "POST") && bool_decide (path = "/workers/register")
  then match decodeWorker body with inr e => CDone (CError 400 e) | inl info => CPut (EnsureID info) end
  else if bool_decide (method = "POST") && bool_decide (path = "/workers/heartbeat")
  then match decodeWorker body with inr e => CDone (CError 400 e) | inl info => CBeat info end
  else if bool_decide (method = "GET") && bool_decide (path = "/workers") then CLoadIndex false
  else if bool_decide (method = "GET") && bool_decide (path = "/workers/best") then CLoadIndex true
  else CDone CNotFound.

(** One section of a request at time [now]; [None]: it has been answered. *)
Definition csection (now : Z) (t : CTask) (c : Controller) : option (Controller * CTask) :=
  match t with
  | CPut info =>
      let '(c1, res) := RegisterWorker_put info c in
      Some (c1, match res with inr e => CDone (CError 502 e) | inl _ => CIndex info end)
  | CIndex info =>
      let '(c1, res) := RegisterWorker_index now info c in
      Some (c1, CDone (match res with inr e => CError 502 e | inl _ => CRegistered (w_ID info) end))
  | CBeat info =>
      let '(c1, res) := Heartbeat now info c in
      Some (c1, CDone (match res with inr e => CError 502 e | inl _ => CHeartbeat (w_ID info) end))
  | CLoadIndex best =>
      let '(c1, res) := loadIndex c in
      Some (c1, match res with
                | inr e => CDone (CError (if best then 503 else 502) e)
                | inl ids => CLoad best ids []
                end)
  | CLoad best (id :: ids) out =>
      let '(c1, res) := GetWorker id c in
      Some (c1, CLoad best ids (match res with inl info => out ++ [info] | inr _ => out end))
  | CLoad best [] out => Some (c, if best then CChoose out else CDone (CWorkers out))
  | CChoose workers =>
      Some (c, CDone (match PickBestWorker_choose workers c with inr e => CError 503 e | inl w => CBest w end))
  | CDone _ => None
  end.

(** The controller and its requests. *)
Record CSys := mkCSys { cs_ctl : Controller; cs_tasks : list CTask }.

Inductive CAction :=
  | CArrive (method path : string) (body : option string)
  | CRun (k : nat) (now : Z)
  | CTick (now timeout : Z).

Definition cstep (a : CAction) (s : CSys) : option CSys :=
  match a with
  | CArrive method path body => Some (mkCSys (cs_ctl s) (cs_tasks s ++ [cbegin method path body]))
  | CRun k now =>
      t ← cs_tasks s !! k;
      '(c, t') ← csection now t (cs_ctl s);
      Some (mkCSys c (<[k := t']> (cs_tasks s)))
  | CTick now timeout => Some (mkCSys (checkHeartbeats now timeout (cs_ctl s)) (cs_tasks s))
  end.

Fixpoint crun (acts : list CAction) (s : CSys) : option CSys :=
  match acts with [] => Some s | a :: acts => s' ← cstep a s; crun acts s' end.

(** [n] sections of one request, with nothing in between. *)
Fixpoint calone (n : nat) (now : Z) (t : CTask) (c : Controller) : option (Controller * CTask) :=
  match n with
  | 0 => Some (c, t)
  | Datatypes.S n => '(c1, t1) ← csection now t c; calone n now t1 c1
  end.

Lemma calone_load best ids now : ∀ c out,
  calone (length ids) now (CLoad best ids out) c = Some ((load_all ids c).1, CLoad best [] (out ++ (load_all ids c).2)).
Proof.
  induction ids as [|id ids IH]; intros c out; simpl; [by rewrite app_nil_r|].
  destruct (GetWorker id c) as [c1 res]. simpl. rewrite IH. destruct (load_all ids c1) as [c2 ws]. simpl.
  destruct res; [by rewrite <- (assoc_L (++))|done].
Qed.

Lemma calone_app n m now t c : calone (n + m) now t c = '(c1, t1) ← calone n now t c; calone m now t1 c1.
Proof.
  revert t c. induction n as [|n IH]; intros t c; [done|]. simpl. destruct (csection now t c) as [[c1 t1]|]; [|done].
  simpl. apply IH.
Qed.

(** [ServeHTTP] is what a request does when no other one runs in between. *)
Theorem serve_sections method path now body c :
  ∃ n, calone n now (cbegin method path body) c =
    Some ((CServeHTTP method path now body c).1, CDone (CServeHTTP method path now body c).2).
Proof.
  assert (∀ best c1 ids, ∃ n, calone n now (CLoad best ids []) c1 = Some ((load_all ids c1).1,
    if best then CChoose (load_all ids c1).2 else CDone (CWorkers (load_all ids c1).2))) as Hload.
  { intros best c1 ids. exists (length ids + 1). rewrite calone_app, calone_load. done. }
  unfold cbegin, CServeHTTP.
  destruct (bool_decide (method = "POST") && bool_decide (path = "/workers/register"));
    [|destruct (bool_decide (method = "POST") && bool_decide (path = "/workers/heartbeat"));
    [|destruct (bool_decide (method = "GET") && bool_decide (path = "/workers"));
    [|destruct (bool_decide (method = "GET") && bool_decide (path = "/workers/best")); [|by exists 0]]]].
  - unfold handleRegister. destruct (decodeWorker body) as [info|e] eqn:Hd; [|by exists 0].
    assert (EnsureID (EnsureID info) = EnsureID info) as Hid
      by (unfold EnsureID at 1; by rewrite bool_decide_false by apply EnsureID_nonempty).
    assert (EnsureID info = info) as Hii.
    { unfold decodeWorker in Hd. repeat case_match; simplify_eq;
        unfold EnsureID at 1; by rewrite bool_decide_false by apply EnsureID_nonempty. }
    unfold RegisterWorker. rewrite Hii. destruct (RegisterWorker_put info c) as [c1 [[]|e]] eqn:Hp.
    + exists 2. cbn [calone csection mbind option_bind]. rewrite Hp. cbn [calone csection mbind option_bind].
      destruct (RegisterWorker_index now info c1) as [c2 [[]|e]]; done.
    + exists 1. cbn [calone csection mbind option_bind]. by rewrite Hp.
  - unfold handleHeartbeat. destruct (decodeWorker body) as [info|e]; [|by exists 0].
    exists 1. cbn [calone csection mbind option_bind]. by destruct (Heartbeat now info c) as [c1 [[]|e]].
  - unfold handleList, ListWorkers. destruct (loadIndex c) as [c1 [ids|e]] eqn:Hi; [|exists 1; cbn [calone csection mbind option_bind]; by rewrite Hi].
    destruct (Hload false c1 ids) as [n Hn]. exists (Datatypes.S n). cbn [calone csection mbind option_bind]. rewrite Hi. cbn [mbind option_bind]. rewrite Hn.
    by destruct (load_all ids c1).
  - unfold handleBest, PickBestWorker, ListWorkers. destruct (loadIndex c) as [c1 [ids|e]] eqn:Hi; [|exists 1; cbn [calone csection mbind option_bind]; by rewrite Hi].
    destruct (Hload true c1 ids) as [n Hn]. exists (Datatypes.S (n + 1)). cbn [calone csection mbind option_bind]. rewrite Hi. cbn [mbind option_bind].
    rewrite calone_app, Hn. simpl.
    destruct (load_all ids c1) as [c2 ws]. simpl. by destruct (PickBestWorker_choose ws c2).
Qed.

(** ** Theorems on the registry *)

Context (range_perm : ∀ s, range_order s ≡ₚ elements s).

(** The stored index lists the workers in memory. *)
Definition index_saved (c : Controller) : Prop :=
  ∃ data ids, kv_view (c_kv c) !! workersIndexKey = Some data ∧
    json_unmarshal data = Some ids ∧ ids ≡ₚ elements (seen c).

Lemma saveIndex_frame c c' res :
  saveIndexLocked c = (c', res) → seen c' = seen c ∧ lastseen c' = lastseen c.
Proof. unfold saveIndexLocked. intros H. case_all; by simplify_eq. Qed.

Lemma saveIndex_settled c c' :
  kv_settled (c_kv c) → saveIndexLocked c = (c', inl ()) → kv_settled (c_kv c').
Proof.
  intros H. unfold saveIndexLocked. destruct (json_marshal (idsLocked c)) as [data|]; [|done].
  destruct (kv_Put workersIndexKey data (c_kv c)) as [kv [e|]] eqn:Hp; [done|]. intros [= <-]. by eapply kv_Put_settled.
Qed.

(** The identifiers in memory are text: they have been decoded from JSON. *)
Definition names_valid (c : Controller) : Prop := ∀ id, id ∈ seen c → ValidString id = true.

Lemma idsLocked_valid c : names_valid c → json_valid (idsLocked c).
Proof.
  intros H. apply json_valid_strings. intros id Hid. apply H. unfold idsLocked in Hid. rewrite range_perm in Hid.
  by apply elem_of_elements.
Qed.

Lemma saveIndex_ok c c' :
  kv_settled (c_kv c) → names_valid c → saveIndexLocked c = (c', inl ()) →
  index_saved c' ∧ ∃ data, kv_view (c_kv c') = <[workersIndexKey := data]> (kv_view (c_kv c)).
Proof.
  intros Hinv Hval H. pose proof (saveIndex_frame _ _ _ H) as [Hs _]. unfold saveIndexLocked in H.
  destruct (json_marshal (idsLocked c)) as [data|] eqn:Hm; [|done].
  destruct (kv_Put _ data (c_kv c)) as [kv [e|]] eqn:Hp; [done|]. injection H as <-.
  pose proof (kv_Put_ok _ _ _ _ Hinv Hp) as Hv. simpl in *. split; [|eauto].
  exists data, (idsLocked c). cbn [c_kv set_kv seen]. rewrite Hv. split_and!.
  - apply lookup_insert_eq.
  - apply json_roundtrip; [by apply idsLocked_valid|done].
  - apply range_perm.
Qed.

Lemma mark_valid id now c : names_valid c → ValidString id = true → names_valid (mark id now c).
Proof. intros H Hid x. simpl. rewrite elem_of_union, elem_of_singleton. intros [->|Hx]; [done|by apply H]. Qed.

Lemma worker_key_not_index id : String.append "worker/" id ≠ workersIndexKey.
Proof. intros H. discriminate H. Qed.

(** What a successful registration leaves behind. *)
Lemma register_spec now info c c' :
  kv_settled (c_kv c) → names_valid c → json_valid info → RegisterWorker now info c = (c', inl ()) →
  kv_settled (c_kv c') ∧ index_saved c' ∧ seen c' = {[w_ID (EnsureID info)]} ∪ seen c ∧
  lastseen c' = <[w_ID (EnsureID info) := now]> (lastseen c) ∧
  ∃ data, kv_view (c_kv c') !! WorkerKey (EnsureID info) = Some data ∧ data ≠ "" ∧
          json_unmarshal data = Some (EnsureID info).
Proof.
  intros Hinv Hnv Hval%EnsureID_valid H. unfold RegisterWorker, RegisterWorker_put in H.
  destruct (json_marshal (EnsureID info)) as [data|] eqn:Hm; [|done].
  destruct (kv_Put (WorkerKey (EnsureID info)) data (c_kv c)) as [kv [e|]] eqn:Hp; [done|].
  pose proof (kv_Put_settled _ _ _ _ Hinv Hp) as Hinv1. pose proof (kv_Put_ok _ _ _ _ Hinv Hp) as Hv.
  unfold RegisterWorker_index in H. set (c1 := mark (w_ID (EnsureID info)) now (set_kv kv c)) in *.
  assert (names_valid c1) as Hnv1 by (apply mark_valid; [exact Hnv|by apply WorkerInfo_id_valid]).
  pose proof (saveIndex_settled c1 c' Hinv1 H) as Hinv2.
  destruct (saveIndex_ok c1 c' Hinv1 Hnv1 H) as [Hi [idx Hw]].
  apply saveIndex_frame in H as [Hs Hl]. split_and!; try done.
  exists data. split_and!; [|exact (json_nonempty _ _ Hm)|exact (json_roundtrip _ _ Hval Hm)].
  rewrite Hw. etrans; [apply lookup_insert_ne; intros He|].
  - destruct (WorkerKey_EnsureID info) as [_ Hk].
    apply (worker_key_not_index (w_ID (EnsureID info))). by rewrite <- Hk.
  - change (c_kv c1) with kv. rewrite Hv. apply lookup_insert_eq.
Qed.

(** Registration round trip: after a successful [RegisterWorker] the worker
    is in memory with the current time, the stored index lists exactly the
    workers in memory, and [GetWorker] with its identifier gives back the
    registered record (identifier filled in), unless the service fails.  The
    service is settled at the start, and all names are valid UTF-8. *)
Theorem register_get_roundtrip now info c c' :
  kv_settled (c_kv c) → names_valid c → json_valid info → RegisterWorker now info c = (c', inl ()) →
  index_saved c' ∧ w_ID (EnsureID info) ∈ seen c' ∧
  lastseen c' !! w_ID (EnsureID info) = Some now ∧
  ∀ c'' res, GetWorker (w_ID (EnsureID info)) c' = (c'', res) →
    res = inl (EnsureID info) ∨
    ∃ e, (kv_Get (String.append "worker/" (w_ID (EnsureID info))) (c_kv c')).2 = inr e ∧ res = inr e.
Proof.
  intros Hinv Hnv Hval H. destruct (register_spec now info c c' Hinv Hnv Hval H)
    as (Hinv' & Hi & Hs & Hl & data & Hd & Hne & Hj).
  split_and!; [done|rewrite Hs; set_solver|rewrite Hl; apply lookup_insert_eq|].
  intros c'' res Hg. unfold GetWorker in Hg. destruct (WorkerKey_EnsureID info) as [_ Hk].
  destruct (kv_Get _ (c_kv c')) as [kv [v|e]] eqn:Hget; [left|right].
  - apply kv_Get_ok in Hget; [|done]. rewrite <- Hk, Hd in Hget. simpl in Hget. subst v.
    rewrite bool_decide_false, Hj in Hg by done. by injection Hg.
  - injection Hg as _ <-. eauto.
Qed.

(** ** Expiry *)

Lemma check_frame now timeout c :
  seen (checkHeartbeats now timeout c) = seen c ∖ dom (expired now timeout c) ∧
  lastseen (checkHeartbeats now timeout c) = lastseen c ∖ expired now timeout c.
Proof.
  unfold checkHeartbeats. set (c1 := mkController _ _ _). case_bool_decide as Hg; [done|].
  destruct (saveIndexLocked c1) as [c2 res] eqn:H. by apply saveIndex_frame in H.
Qed.

Lemma expired_Some now timeout c id t :
  expired now timeout c !! id = Some t ↔ lastseen c !! id = Some t ∧ (timeout < now - t)%Z.
Proof. apply map_lookup_filter_Some. Qed.

(** One tick of the heartbeat checker removes exactly the workers whose
    last sign of life is older than the timeout: they leave the memory, all
    others stay with their times, and every worker that still has a time is
    within the timeout. *)
Theorem check_removes_expired now timeout c id :
  (id ∈ seen (checkHeartbeats now timeout c) ↔
     id ∈ seen c ∧ ∀ t, lastseen c !! id = Some t → (now - t ≤ timeout)%Z) ∧
  (∀ t, lastseen (checkHeartbeats now timeout c) !! id = Some t ↔
     lastseen c !! id = Some t ∧ (now - t ≤ timeout)%Z).
Proof.
  destruct (check_frame now timeout c) as [-> ->]. split.
  - rewrite elem_of_difference, elem_of_dom. split; intros [Hs Hx]; (split; [done|]).
    + intros t Ht. apply Z.nlt_ge. intros Hlt. apply Hx. exists t. by apply expired_Some.
    + intros [t [Ht Hlt]%expired_Some]. specialize (Hx t Ht). lia.
  - intros t. rewrite lookup_difference_Some. split; intros [Ht Hx]; (split; [done|]).
    + apply Z.nlt_ge. intros Hlt. assert (expired now timeout c !! id = Some t) as He
        by by apply expired_Some. congruence.
    + apply eq_None_not_Some. intros [t' [Ht' Hlt]%expired_Some]. simplify_eq. lia.
Qed.

(** Workers that a restarted controller takes over from the stored index
    enter the memory without a time, so that no number of checker ticks ever
    removes them, whether or not they are alive. *)
Theorem reloaded_never_expire c c' ids id (ticks : list (Z * Z)) :
  seen c = ∅ → lastseen c = ∅ → loadIndex c = (c', inl ids) → id ∈ ids →
  id ∈ seen (foldl (λ c '(now, timeout), checkHeartbeats now timeout c) c' ticks).
Proof.
  clear range_perm. intros Hs Hl Hload Hid. assert (id ∈ seen c' ∧ lastseen c' = ∅) as [Hin Hnone].
  { unfold loadIndex in Hload. rewrite Hs, bool_decide_false in Hload by (rewrite size_empty; lia).
    destruct (kv_Get _ _) as [kv [raw|e]]; [|done].
    case_bool_decide; [injection Hload as <- <-; by apply elem_of_nil in Hid|].
    destruct (json_unmarshal raw) as [l|]; [|done]. injection Hload as <- <-. simpl. set_solver. }
  clear Hload. revert c' Hin Hnone. induction ticks as [|[now timeout] ticks IH]; intros c' Hin Hnone;
    [done|]. simpl. destruct (check_frame now timeout c') as [Hs' Hl'].
  assert (expired now timeout c' = ∅) as He
    by (unfold expired; rewrite Hnone; apply map_filter_empty).
  apply IH; [rewrite Hs', He; set_solver|rewrite Hl', Hnone, He; apply map_difference_empty].
Qed.

(** The first heartbeat after a restart replaces the stored index: with
    nothing in memory a successful [Heartbeat] leaves an index that lists this
    one worker, whatever it listed before. *)
Theorem restart_forgets_index now info c c' :
  kv_settled (c_kv c) → ValidString (w_ID info) = true → seen c = ∅ → Heartbeat now info c = (c', inl ()) →
  ∃ data, kv_view (c_kv c') !! workersIndexKey = Some data ∧
          json_unmarshal data = Some [w_ID info].
Proof.
  intros Hinv Hval Hs H. unfold Heartbeat in H.
  assert (names_valid (mark (w_ID info) now c)) as Hnv by (apply mark_valid; [intros id; rewrite Hs; set_solver|done]).
  destruct (saveIndex_ok (mark (w_ID info) now c) c' Hinv Hnv H) as [(data & ids & H1 & H2 & H3) _].
  apply saveIndex_frame in H as [Hseen _]. simpl in Hseen. exists data. split; [done|].
  rewrite Hseen, Hs, (right_id_L ∅ (∪)), elements_singleton in H3.
  by apply Permutation_singleton_r in H3 as ->.
Qed.

(** ** All interleavings *)

Definition task_valid (t : CTask) : Prop :=
  match t with CPut info | CIndex info | CBeat info => json_valid info | _ => True end.

(** Only known workers have a time, and every name is text. *)
Record cs_ok (s : CSys) : Prop := {
  co_times : dom (lastseen (cs_ctl s)) ⊆ seen (cs_ctl s);
  co_names : names_valid (cs_ctl s);
  co_tasks : ∀ t, t ∈ cs_tasks s → task_valid t
}.

Lemma decodeWorker_valid body info : decodeWorker body = inl info → json_valid info.
Proof.
  unfold decodeWorker. destruct body as [b|]; [|done]. destruct (json_unmarshal b) as [w|] eqn:Hu; [|done].
  apply json_unmarshal_valid in Hu. case_match; [done|]. intros [= <-]. apply EnsureID_valid.
  destruct (bool_decide (w_Status w = "")); [|done]. unfold json_valid, texts, WorkerInfo_texts in *. simpl.
  rewrite !list.Forall_cons in *. naive_solver.
Qed.

Lemma cbegin_valid method path body : task_valid (cbegin method path body).
Proof.
  unfold cbegin. pose proof (decodeWorker_valid body) as Hd.
  destruct (decodeWorker body) as [info|e]; [specialize (Hd info eq_refl)|]; repeat case_match; simpl; auto using EnsureID_valid.
Qed.

(** What a section does to the memory of the controller. *)
Inductive touches (now : Z) (c c' : Controller) : Prop :=
  | touch_none : seen c' = seen c → lastseen c' = lastseen c → touches now c c'
  | touch_mark id : ValidString id = true → seen c' = {[id]} ∪ seen c → lastseen c' = <[id := now]> (lastseen c) → touches now c c'
  | touch_load (ids : list string) : (∀ id, id ∈ ids → ValidString id = true) →
      seen c' = list_to_set ids ∪ seen c → lastseen c' = lastseen c → touches now c c'.

Lemma mark_touches info now c c' res :
  json_valid info → saveIndexLocked (mark (w_ID info) now c) = (c', res) → touches now c c'.
Proof.
  intros Hv H. apply saveIndex_frame in H as [Hs Hl]. apply (touch_mark now c c' (w_ID info)); try done.
  by apply WorkerInfo_id_valid.
Qed.

Lemma loadIndex_touches now c c' res : loadIndex c = (c', res) → touches now c c'.
Proof.
  unfold loadIndex. case_bool_decide; [intros [= <- _]; by apply touch_none|].
  destruct (kv_Get _ _) as [kv [raw|e]]; [|intros [= <- _]; by apply touch_none].
  case_bool_decide; [intros [= <- _]; by apply touch_none|].
  destruct (json_unmarshal raw) as [ids|] eqn:Hu; [|intros [= <- _]; by apply touch_none].
  intros [= <- _]. apply (touch_load now c _ ids); [|done..]. apply json_unmarshal_valid in Hu. intros id Hid.
  unfold json_valid in Hu. rewrite list.Forall_forall in Hu. apply Hu. unfold texts, list_texts.
  apply list_elem_of_bind. exists id. split; [apply list_elem_of_here|done].
Qed.

Lemma csection_touches now t c c' t' :
  task_valid t → csection now t c = Some (c', t') → touches now c c' ∧ task_valid t'.
Proof.
  intros Hv. destruct t as [info|info|info|best|best [|id ids] out|ws|r]; simpl; [..|done].
  - destruct (RegisterWorker_put info c) as [c1 res] eqn:E. intros [= <- <-]. split; [|by destruct res].
    unfold RegisterWorker_put in E. case_match; [|simplify_eq; by apply touch_none].
    destruct (kv_Put _ _ _) as [kv [e|]]; simplify_eq; by apply touch_none.
  - destruct (RegisterWorker_index now info c) as [c1 res] eqn:E. intros [= <- <-].
    split; [by eapply mark_touches|by destruct res].
  - destruct (Heartbeat now info c) as [c1 res] eqn:E. intros [= <- <-]. split; [by eapply mark_touches|by destruct res].
  - destruct (loadIndex c) as [c1 res] eqn:E. intros [= <- <-]. split; [by eapply loadIndex_touches|by destruct res].
  - intros [= <- <-]. split; [by apply touch_none|by destruct best].
  - destruct (GetWorker id c) as [c1 res] eqn:E. intros [= <- <-]. split; [|done].
    unfold GetWorker in E. destruct (kv_Get _ _). simplify_eq. by apply touch_none.
  - intros [= <- <-]. split; [by apply touch_none|done].
Qed.

Lemma touches_ok now c c' :
  touches now c c' → dom (lastseen c) ⊆ seen c → names_valid c → dom (lastseen c') ⊆ seen c' ∧ names_valid c'.
Proof.
  intros [Hs Hl|id Hid Hs Hl|ids Hids Hs Hl] Hd Hn; unfold names_valid; rewrite Hs, Hl; (split; [set_solver|]); [done|..].
  - intros x. rewrite elem_of_union, elem_of_singleton. intros [->|Hx]; [done|by apply Hn].
  - intros x. rewrite elem_of_union, elem_of_list_to_set. intros [Hx|Hx]; [by apply Hids|by apply Hn].
Qed.

Lemma cstep_ok a s s' : cs_ok s → cstep a s = Some s' → cs_ok s'.
Proof.
  intros [Hd Hn Ht] H. destruct a as [method path body|k now|now timeout]; simpl in H.
  - injection H as <-. split; simpl; [done..|]. intros t [Hin|Hin]%elem_of_app; [by apply Ht|].
    apply list_elem_of_singleton in Hin as ->. apply cbegin_valid.
  - apply bind_Some in H as (t & Hk & H). apply bind_Some in H as ([c t'] & Hc & [= <-]).
    destruct (csection_touches now t (cs_ctl s) c t') as [Htc Ht']; [by eapply Ht, list_elem_of_lookup_2|done|].
    destruct (touches_ok now _ _ Htc Hd Hn). split; simpl; try done.
    intros x [j Hj]%list_elem_of_lookup. apply list_lookup_insert_Some in Hj as [(_ & <- & _)|[_ Hj]]; [done|].
    by eapply Ht, list_elem_of_lookup_2.
  - injection H as <-. split; simpl; [..|done].
    + intros id [t Hl]%elem_of_dom. destruct (check_removes_expired now timeout (cs_ctl s) id) as [Hin Hts].
      apply Hts in Hl as [Hl Hle]. apply Hin. split; [apply Hd; by eapply elem_of_dom_2|]. intros t' Ht'. by simplify_eq.
    + intros id Hid. apply Hn. by apply (check_removes_expired now timeout (cs_ctl s) id) in Hid as [? _].
Qed.

Lemma crun_ok acts s s' : cs_ok s → crun acts s = Some s' → cs_ok s'.
Proof.
  revert s. induction acts as [|a acts IH]; intros s Hs H; simpl in H; [by injection H as <-|].
  apply bind_Some in H as (s1 & H1 & H). eapply IH; [|done]. by eapply cstep_ok.
Qed.

(** The step is after [t], and a tick finds [t] within the timeout. *)
Definition in_time (t : Z) (a : CAction) : Prop :=
  match a with CArrive _ _ _ => True | CRun _ now => (t ≤ now)%Z | CTick now timeout => (now - t ≤ timeout)%Z end.

Lemma cstep_remembers a s s' id t t0 :
  cs_ok s → cstep a s = Some s' → (t0 ≤ t)%Z → lastseen (cs_ctl s) !! id = Some t → in_time t0 a →
  ∃ t', (t0 ≤ t')%Z ∧ lastseen (cs_ctl s') !! id = Some t'.
Proof.
  intros [Hd Hn Ht] H Ht0 Hl Hin. destruct a as [method path body|k now|now timeout]; simpl in H, Hin.
  - injection H as <-. by exists t.
  - apply bind_Some in H as (tk & Hk & H). apply bind_Some in H as ([c t'] & Hc & [= <-]).
    destruct (csection_touches now tk (cs_ctl s) c t') as [Htc _]; [by eapply Ht, list_elem_of_lookup_2|done|]. simpl.
    destruct Htc as [_ ->|x _ _ ->|ids _ _ ->]; [by exists t| |by exists t].
    destruct (decide (x = id)) as [->|Hne]; [exists now|exists t]; (split; [done|]); [apply lookup_insert_eq|by rewrite lookup_insert_ne].
  - injection H as <-. exists t. split; [done|]. apply (check_removes_expired now timeout (cs_ctl s) id). split; [done|lia].
Qed.

(** C39. The registry under concurrency: in every execution of a controller,
    whatever requests arrive, however their sections and the ticks of the
    heartbeat checker interleave and whatever the store answers, a worker that
    was heard from at time [t] is known at every later moment, with a time not
    before [t], as long as no section since then ran at a time before [t] and
    every tick since then found [t] within its timeout; and only known workers
    have a time. *)
Theorem registry_remembers kv acts s acts' s' id t :
  crun acts (mkCSys (NewController kv) []) = Some s → lastseen (cs_ctl s) !! id = Some t →
  crun acts' s = Some s' → Forall (in_time t) acts' →
  id ∈ seen (cs_ctl s') ∧ (∃ t', (t ≤ t')%Z ∧ lastseen (cs_ctl s') !! id = Some t') ∧
  dom (lastseen (cs_ctl s')) ⊆ seen (cs_ctl s').
Proof.
  intros H Hl H' Hin. assert (cs_ok s) as Hs.
  { eapply crun_ok; [|exact H]. split; simpl; [set_solver|by intros ? ?%elem_of_empty|by intros ? ?%not_elem_of_nil]. }
  pose proof (crun_ok acts' s s' Hs H') as Hs'.
  assert (∃ t', (t ≤ t')%Z ∧ lastseen (cs_ctl s') !! id = Some t') as (t' & Hle & Ht').
  { clear H. assert (∃ t1, (t ≤ t1)%Z ∧ lastseen (cs_ctl s) !! id = Some t1) as Hex by (by exists t). clear Hl.
    revert s Hs Hex H'. induction Hin as [|a acts' Ha Hin IH]; intros s Hs (t1 & Hle & Hl) H'; simpl in H'.
    - injection H' as <-. by exists t1.
    - apply bind_Some in H' as (s1 & H1 & H'). eapply (IH s1); [by eapply cstep_ok| |done].
      by eapply (cstep_remembers a s s1 id t1). }
  split_and!; [|by exists t'|apply (co_times _ Hs')]. apply (co_times _ Hs'). by eapply elem_of_dom_2.
Qed.
End controller.

(** ** The choice of a worker *)

Definition routable (seen : gset string) (requireSeen : bool) (w : WorkerInfo) : Prop :=
  (requireSeen = true → w_ID w ∈ seen) ∧ w_Status w ≠ WorkerOffline.

(** JSON has no NaN, so no decoded record has one. *)
Definition no_nan (w : WorkerInfo) : Prop := ∀ g, g ∈ w_GPUs w → is_nan (gpu_Utilization g) = false.

Lemma score_no_nan w : no_nan w → is_nan (workerLoadScore w) = false.
Proof.
  intros Hn. unfold workerLoadScore. case_bool_decide; [done|].
  assert (∀ l m, is_nan m = false → (∀ g, g ∈ l → is_nan (gpu_Utilization g) = false) →
    is_nan (foldl (λ maxUtil g, if fgt (gpu_Utilization g) maxUtil then gpu_Utilization g
                                else maxUtil) m l) = false) as Hf.
  { induction l as [|g l IH]; intros m Hm Hl; simpl; [done|].
    apply IH; [|set_solver]. case_match; [|done]. apply Hl. set_solver. }
  by apply Hf.
Qed.

(** What the loop carries after a prefix [l] of the list. *)
Definition pick_ok (seen : gset string) (rq : bool) (l : list WorkerInfo)
    (acc : option (WorkerInfo * float64)) : Prop :=
  match acc with
  | None => ∀ w, w ∈ l → ¬ routable seen rq w
  | Some (b, sc) => b ∈ l ∧ routable seen rq b ∧ sc = workerLoadScore b ∧
      ∀ w, w ∈ l → routable seen rq w → flt (workerLoadScore w) sc = false
  end.

Lemma flt_trans_false a b c :
  is_nan a = false → is_nan b = false → is_nan c = false →
  flt a b = true → flt c b = false → flt c a = false.
Proof.
  intros Ha Hb Hc. rewrite <- !not_true_iff_false, !flt_lex by done. unfold lex. lia.
Qed.

Lemma pick_step_ok seen rq l acc w :
  (∀ v, v ∈ l ++ [w] → no_nan v) → pick_ok seen rq l acc →
  pick_ok seen rq (l ++ [w]) (pick_step seen rq acc w).
Proof.
  intros Hn Hacc. assert (∀ v, v ∈ l ++ [w] → is_nan (workerLoadScore v) = false) as Hs
    by (intros v Hv; apply score_no_nan; auto).
  assert (¬ routable seen rq w → pick_ok seen rq (l ++ [w]) acc) as Hskip.
  { intros Hnr. destruct acc as [[b sc]|]; simpl in *.
    - destruct Hacc as (Hb & Hr & Hsc & Hmin). split_and!; [set_solver|apply Hr|done|].
      intros v [Hv|Hv%list_elem_of_singleton]%elem_of_app Hrv; [auto|by subst].
    - intros v [Hv|Hv%list_elem_of_singleton]%elem_of_app Hrv; [by eapply Hacc|by subst]. }
  unfold pick_step. destruct (rq && negb (bool_decide (w_ID w ∈ seen))) eqn:E1.
  { apply andb_true_iff in E1 as [-> E1%negb_true_iff%bool_decide_eq_false].
    apply Hskip. intros [Hr _]. by apply E1, Hr. }
  destruct (bool_decide (w_Status w = WorkerOffline)) eqn:E2; b2p; [apply Hskip; by intros [_ ?]|].
  assert (routable seen rq w) as Hrw.
  { split; [intros ->|done]. destruct E1 as [|E1]; [done|]. by apply negb_false_iff, bool_decide_eq_true in E1. }
  destruct acc as [[b sc]|]; simpl in *.
  - destruct Hacc as (Hb & Hr & -> & Hmin). destruct (flt (workerLoadScore w) (workerLoadScore b)) eqn:Ef.
    + split_and!; [set_solver|apply Hrw|done|].
      intros v [Hv|Hv%list_elem_of_singleton]%elem_of_app Hrv.
      * eapply flt_trans_false; [..|exact Ef|by apply Hmin]; apply Hs; set_solver.
      * subst v. apply not_true_iff_false. rewrite flt_lex by (apply Hs; set_solver).
        unfold lex. lia.
    + split_and!; [set_solver|apply Hr|done|].
      intros v [Hv|Hv%list_elem_of_singleton]%elem_of_app Hrv; [auto|by subst].
  - split_and!; [set_solver|apply Hrw|done|].
    intros v [Hv|Hv%list_elem_of_singleton]%elem_of_app Hrv; [by destruct (Hacc v Hv)|]. subst v.
    apply not_true_iff_false. rewrite flt_lex by (apply Hs; set_solver). unfold lex. lia.
Qed.

Lemma pick_fold_ok seen rq l :
  (∀ v, v ∈ l → no_nan v) → pick_ok seen rq l (foldl (pick_step seen rq) None l).
Proof.
  induction l as [|w l IH] using rev_ind; intros Hn; [intros w Hw; by apply elem_of_nil in Hw|].
  rewrite foldl_snoc. apply pick_step_ok; [done|]. apply IH. set_solver.
Qed.

(** C25. [pickLowestLoadWorker] is the minimum: it finds a worker exactly when
    one is routable (not offline, and heard from when that is required), and
    the one it returns is routable and no routable worker has a lower score. *)
Theorem pick_lowest_correct workers seen rq :
  (∀ w, w ∈ workers → no_nan w) →
  match pickLowestLoadWorker workers seen rq with
  | Some best => best ∈ workers ∧ routable seen rq best ∧
      ∀ w, w ∈ workers → routable seen rq w →
           flt (workerLoadScore w) (workerLoadScore best) = false
  | None => ∀ w, w ∈ workers → ¬ routable seen rq w
  end.
Proof.
  intros Hn. pose proof (pick_fold_ok seen rq workers Hn) as Hp. unfold pickLowestLoadWorker.
  destruct (foldl _ None workers) as [[b sc]|]; simpl in *; [|done].
  destruct Hp as (Hb & Hr & -> & Hmin). done.
Qed.

(** [strings.Split(s, ",")]: one piece more than there are commas. *)
Fixpoint Split_comma (s : string) : list string :=
  match s with
  | EmptyString => [""]
  | String a s' =>
      if bool_decide (a = ","%char) then "" :: Split_comma s'
      else match Split_comma s' with
           | p :: ps => String a p :: ps
           | [] => [String a ""]
           end
  end.

Definition ParseKVAddrs (s : string) : list string :=
  filter (λ p, p ≠ "") (TrimSpace <$> Split_comma s).

(** ** Instances *)

Definition wit_worker (id : string) (status : WorkerStatus) (util : float64) : WorkerInfo :=
  mkWorkerInfo id "10.0.0.1" 8000 [mkGPUInfo 0 "A100" 81920 util] status.

(** 0.5 and 0.25. *)
Definition f_half : float64 := S754_finite false 4503599627370496 (-53).
Definition f_quarter : float64 := S754_finite false 4503599627370496 (-54).

Definition wit_c : Controller := NewController (local_start ["http://h"] 1).
Definition wit_register := RegisterWorker elements 100 (wit_worker "" WorkerIdle f_half) wit_c.

Lemma register_get_roundtrip_witness :
  index_saved wit_register.1 ∧ "10.0.0.1:8000" ∈ seen wit_register.1 ∧
  (GetWorker "10.0.0.1:8000" wit_register.1).2 =
    inl (wit_worker "10.0.0.1:8000" WorkerIdle f_half).
Proof.
  destruct (register_get_roundtrip elements (λ s, Permutation_refl _) 100
    (wit_worker "" WorkerIdle f_half) wit_c wit_register.1) as (H1 & H2 & _ & H3).
  - apply local_start_inv.
  - intros id Hid. by apply elem_of_empty in Hid.
  - vm_compute. auto 10.
  - vm_compute. reflexivity.
  - split; [exact H1|]. split; [exact H2|].
    destruct (H3 _ _ (surjective_pairing _)) as [H|(e & H & _)]; [exact H|].
    vm_compute in H. discriminate.
Defined.

Lemma reloaded_never_expire_witness :
  let c := NewController (c_kv wit_register.1) in
  "10.0.0.1:8000" ∈ seen (foldl (λ c '(now, timeout), checkHeartbeats elements now timeout c)
    (loadIndex elements c).1 [(1000000000000, 6000000000); (2000000000000, 6000000000)]%Z).
Proof.
  apply (reloaded_never_expire elements (NewController (c_kv wit_register.1)) _ ["10.0.0.1:8000"]).
  - reflexivity.
  - reflexivity.
  - vm_compute. reflexivity.
  - set_solver.
Defined.

Lemma restart_forgets_index_witness :
  ∃ c' data, Heartbeat elements 200 (wit_worker "w2" WorkerIdle f_half)
      (NewController (c_kv wit_register.1)) = (c', inl ()) ∧
    kv_view (c_kv c') !! workersIndexKey = Some data ∧ json_unmarshal data = Some ["w2"].
Proof.
  destruct (Heartbeat elements 200 (wit_worker "w2" WorkerIdle f_half)
    (NewController (c_kv wit_register.1))) as [c' [[]|e]] eqn:H; [|vm_compute in H; discriminate].
  destruct (restart_forgets_index elements (λ s, Permutation_refl _) 200
    (wit_worker "w2" WorkerIdle f_half) (NewController (c_kv wit_register.1)) c') as (data & H1 & H2).
  - apply (register_spec elements (λ s, Permutation_refl _) 100 (wit_worker "" WorkerIdle f_half)
      wit_c wit_register.1); [apply local_start_inv|by intros ? ?%elem_of_empty|vm_compute; auto 10|vm_compute; reflexivity].
  - vm_compute. reflexivity.
  - reflexivity.
  - exact H.
  - exists c', data. split; [reflexivity|]. split; [exact H1|exact H2].
Defined.

Lemma pick_lowest_correct_witness :
  let ws := [wit_worker "a" WorkerBusy f0; wit_worker "b" WorkerIdle f_half;
             wit_worker "c" WorkerIdle f_quarter; wit_worker "d" WorkerOffline f0] in
  ∃ best, pickLowestLoadWorker ws ∅ false = Some best ∧ w_ID best = "c" ∧
    ∀ w, w ∈ ws → routable ∅ false w → flt (workerLoadScore w) (workerLoadScore best) = false.
Proof.
  intros ws. pose proof (pick_lowest_correct ws ∅ false) as H.
  destruct (pickLowestLoadWorker ws ∅ false) as [best|] eqn:Hp; [|vm_compute in Hp; discriminate].
  exists best. destruct H as (_ & _ & Hmin).
  - unfold ws, no_nan. intros w Hw g Hg. set_unfold.
    destruct Hw as [->|[->|[->|[->|[]]]]]; simpl in Hg; set_unfold; destruct Hg as [->|[]]; reflexivity.
  - split; [reflexivity|]. split; [vm_compute in Hp; by injection Hp as <-|exact Hmin].
Defined.

(** A worker registers at 100; a request for the best worker and a second
    registration are interleaved, and the checker ticks in the middle. *)
Definition post_worker (id : string) : CAction :=
  CArrive "POST" "/workers/register" (json_marshal (wit_worker id WorkerIdle f_half)).
Definition reg_run : list CAction := [post_worker "w1"; CRun 0 100; CRun 0 100].
Definition mixed_run : list CAction :=
  [CArrive "GET" "/workers/best" None; CRun 1 150; post_worker "w2"; CRun 2 160; CRun 1 170;
   CTick 5000 6000; CRun 2 5100; CRun 1 5200; CRun 1 5300].

Definition csys_of (o : option CSys) : CSys := default (mkCSys wit_c []) o.
Definition reg_sys : CSys (S := Local) := csys_of (crun elements reg_run (mkCSys wit_c [])).
Definition mixed_sys : CSys (S := Local) := csys_of (crun elements mixed_run reg_sys).

(** The second worker is known to the registry before the choice is made. *)
Lemma mixed_replies :
  cs_tasks mixed_sys = [CDone (CRegistered "w1"); CDone (CBest (wit_worker "w1" WorkerIdle f_half)); CDone (CRegistered "w2")] ∧
  seen (cs_ctl mixed_sys) = {["w1"; "w2"]}.
Proof. split; vm_compute; reflexivity. Qed.

Lemma registry_remembers_witness :
  "w1" ∈ seen (cs_ctl mixed_sys) ∧ (∃ t', (100 ≤ t')%Z ∧ lastseen (cs_ctl mixed_sys) !! "w1" = Some t') ∧
  dom (lastseen (cs_ctl mixed_sys)) ⊆ seen (cs_ctl mixed_sys).
Proof.
  apply (registry_remembers elements (λ s, Permutation_refl _) (local_start ["http://h"] 1) reg_run reg_sys mixed_run mixed_sys "w1" 100).
  - vm_compute. reflexivity.
  - vm_compute. reflexivity.
  - vm_compute. reflexivity.
  - unfold mixed_run, post_worker. repeat constructor; simpl; lia.
Defined.
