(* ===== verification/Gateway.v ===== *)
(** * The gateway (gateway/gateway.go) and the chat data (models/chat.go)

    [HandleChat] hands a job to the first queue and waits on the job's result
    channel; connection workers choose a worker node and pass the job to the
    second queue; dispatch workers forward it and send the result.  The gateway
    is a step relation: a job is identified by its number, the two queues are
    bounded channels, and each pool goroutine is idle or holds a job.  What the
    controller and the worker nodes answer over HTTP are the parameters
    [picks] and [forwards]. *)

From S2P Require Import Prelude Models.
From stdpp Require Import strings.

(** ** Data *)

Record ChatMessage := mkChatMessage { cm_Role : string; cm_Content : string }.

Record ChatRequest := mkChatRequest {
  cr_Prompt : string;
  cr_Model : string;
  cr_Messages : list ChatMessage;
  cr_MaxTokens : Z
}.

Record ChatResponse := mkChatResponse {
  cs_Reply : string;
  cs_WorkerID : string;
  cs_GPUID : Z
}.

(** [for i := len(req.Messages) - 1; i >= 0; i--], on the first [k] messages. *)
Fixpoint last_user (ms : list ChatMessage) (k : nat) : string :=
  match k with
  | O => ""
  | S k' =>
      match ms !! k' with
      | Some m =>
          if bool_decide (cm_Role m = "user") && negb (bool_decide (cm_Content m = ""))
          then cm_Content m else last_user ms k'
      | None => ""
      end
  end.

Definition promptFromRequest (req : ChatRequest) : string :=
  if negb (bool_decide (cr_Prompt req = "")) then cr_Prompt req
  else last_user (cr_Messages req) (length (cr_Messages req)).

(** ** State *)

(** [jobResult]: a response or an error. *)
Definition jobResult : Type := (ChatResponse + string)%type.

(** What the client of the gateway sees. *)
Inductive GReply :=
  | GError (code : Z) (text : string)
  | GOk (resp : ChatResponse).

(** Where [HandleChat] stands: before the first queue, at [<-job.resultCh], or
    done. *)
Inductive HPhase := HEnqueue | HWaitResult | HReplied (r : GReply).

(** A [clientJob] with its result channel (capacity 1) and its handler. *)
Record Job := mkJob {
  j_prompt : string;
  j_chan : option jobResult;
  j_phase : HPhase
}.

(** A connection worker: idle, calling [pickWorker], or at its [select]. *)
Inductive ConnWorker :=
  | CIdle
  | CPicking (j : nat)
  | CEnqueuing (j : nat) (w : WorkerInfo).

(** A [dispatchJob] carries the prompt and the worker. *)
Inductive DispatchWorker :=
  | DIdle
  | DForwarding (j : nat) (prompt : string) (w : WorkerInfo).

Record Gateway := mkGateway {
  g_jobs : list Job;
  connJobs : list nat;
  dispatchJobs : list (nat * string * WorkerInfo);
  connWorkers : list ConnWorker;
  dispatchWorkers : list DispatchWorker
}.

Definition connCap : nat := 256.
Definition dispatchCap : nat := 1024.

(** [New]: pool sizes below 1 become 32. *)
Definition NewGateway (connPoolSize dispatchPoolSize : Z) : Gateway :=
  let c := if (connPoolSize <? 1)%Z then 32%Z else connPoolSize in
  let d := if (dispatchPoolSize <? 1)%Z then 32%Z else dispatchPoolSize in
  mkGateway [] [] [] (replicate (Z.to_nat c) CIdle) (replicate (Z.to_nat d) DIdle).

(** ** [HandleChat] *)

(** Up to the enqueue: an error reply, or the prompt of the job. *)
Definition chat_prompt (unmarshal : string → option ChatRequest) (method : string)
    (body : option string) : GReply + string :=
  if negb (bool_decide (method = "POST")) then inl (GError 405 "method not allowed")
  else
    match body with
    | None => inl (GError 400 "read")
    | Some b =>
        match unmarshal b with
        | None => inl (GError 400 "invalid json")
        | Some req =>
            let prompt := promptFromRequest req in
            if bool_decide (prompt = "") then inl (GError 400 "prompt required") else inr prompt
        end
    end.

(** After the result has arrived. *)
Definition chat_reply (res : jobResult) : GReply :=
  match res with inr e => GError 502 e | inl resp => GOk resp end.

(** [job.resultCh <- res]: [None] blocks. *)
Definition send_result (j : nat) (res : jobResult) (g : Gateway) : option Gateway :=
  match g_jobs g !! j with
  | Some (mkJob p None ph) =>
      Some (mkGateway (<[j := mkJob p (Some res) ph]> (g_jobs g)) (connJobs g) (dispatchJobs g)
              (connWorkers g) (dispatchWorkers g))
  | _ => None
  end.

Definition set_conn (i : nat) (c : ConnWorker) (g : Gateway) : Gateway :=
  mkGateway (g_jobs g) (connJobs g) (dispatchJobs g) (<[i := c]> (connWorkers g))
    (dispatchWorkers g).
Definition set_disp (i : nat) (d : DispatchWorker) (g : Gateway) : Gateway :=
  mkGateway (g_jobs g) (connJobs g) (dispatchJobs g) (connWorkers g)
    (<[i := d]> (dispatchWorkers g)).

(** ** Steps *)

Section gateway.
Context (unmarshal : string → option ChatRequest).
(** [pickWorker] may return this; [forwardToWorker] of a worker and a prompt may
    return that. *)
Context (picks : WorkerInfo + string → Prop).
Context (forwards : WorkerInfo → string → jobResult → Prop).

Inductive gstep : Gateway → Gateway → Prop :=
  (** a request that passes the checks becomes a job *)
  | g_arrive method body prompt g :
      chat_prompt unmarshal method body = inr prompt →
      gstep g (mkGateway (g_jobs g ++ [mkJob prompt None HEnqueue]) (connJobs g) (dispatchJobs g)
                 (connWorkers g) (dispatchWorkers g))
  (** the [select] of [HandleChat] *)
  | g_enqueue j p g :
      g_jobs g !! j = Some (mkJob p None HEnqueue) → length (connJobs g) < connCap →
      gstep g (mkGateway (<[j := mkJob p None HWaitResult]> (g_jobs g)) (connJobs g ++ [j])
                 (dispatchJobs g) (connWorkers g) (dispatchWorkers g))
  | g_overloaded j p g :
      g_jobs g !! j = Some (mkJob p None HEnqueue) →
      gstep g (mkGateway
                 (<[j := mkJob p None (HReplied (GError 503 "gateway overloaded"))]> (g_jobs g))
                 (connJobs g) (dispatchJobs g) (connWorkers g) (dispatchWorkers g))
  (** [res := <-job.resultCh] *)
  | g_receive j p res g :
      g_jobs g !! j = Some (mkJob p (Some res) HWaitResult) →
      gstep g (mkGateway (<[j := mkJob p None (HReplied (chat_reply res))]> (g_jobs g))
                 (connJobs g) (dispatchJobs g) (connWorkers g) (dispatchWorkers g))
  (** [connWorker] *)
  | g_conn_take i j rest g :
      connWorkers g !! i = Some CIdle → connJobs g = j :: rest →
      gstep g (set_conn i (CPicking j)
                 (mkGateway (g_jobs g) rest (dispatchJobs g) (connWorkers g) (dispatchWorkers g)))
  | g_conn_fail i j e g g' :
      connWorkers g !! i = Some (CPicking j) → picks (inr e) →
      send_result j (inr e) g = Some g' → gstep g (set_conn i CIdle g')
  | g_conn_pick i j w g :
      connWorkers g !! i = Some (CPicking j) → picks (inl w) →
      gstep g (set_conn i (CEnqueuing j w) g)
  | g_conn_enqueue i j w job g :
      connWorkers g !! i = Some (CEnqueuing j w) → length (dispatchJobs g) < dispatchCap →
      g_jobs g !! j = Some job →
      gstep g (set_conn i CIdle
                 (mkGateway (g_jobs g) (connJobs g) (dispatchJobs g ++ [(j, j_prompt job, w)])
                    (connWorkers g) (dispatchWorkers g)))
  | g_conn_full i j w g g' :
      connWorkers g !! i = Some (CEnqueuing j w) →
      send_result j (inr "dispatch queue full") g = Some g' → gstep g (set_conn i CIdle g')
  (** [dispatchWorker] *)
  | g_disp_take i j p w rest g :
      dispatchWorkers g !! i = Some DIdle → dispatchJobs g = (j, p, w) :: rest →
      gstep g (set_disp i (DForwarding j p w)
                 (mkGateway (g_jobs g) (connJobs g) rest (connWorkers g) (dispatchWorkers g)))
  | g_disp_done i j p w res g g' :
      dispatchWorkers g !! i = Some (DForwarding j p w) → forwards w p res →
      send_result j res g = Some g' → gstep g (set_disp i DIdle g').

(** ** Where a job is *)

Definition occ (j : nat) (l : list nat) : nat := length (filter (λ k, k = j) l).

Definition held_conn (c : ConnWorker) : list nat :=
  match c with CIdle => [] | CPicking j | CEnqueuing j _ => [j] end.
Definition held_disp (d : DispatchWorker) : list nat :=
  match d with DIdle => [] | DForwarding j _ _ => [j] end.

(** In how many places job [j] is: the queues and the hands of the workers. *)
Definition places (j : nat) (g : Gateway) : nat :=
  occ j (connJobs g) + occ j (connWorkers g ≫= held_conn) +
  occ j ((λ d, d.1.1) <$> dispatchJobs g) + occ j (dispatchWorkers g ≫= held_disp).

(** Its handler waits and its channel is empty. *)
Definition waiting (j : nat) (g : Gateway) : bool :=
  match g_jobs g !! j with Some (mkJob _ None HWaitResult) => true | _ => false end.

(** A response that reached a job's channel or client is one that some worker
    gave for the job's own prompt. *)
Definition honest (job : Job) : Prop :=
  (∀ resp, j_chan job = Some (inl resp) → ∃ w, forwards w (j_prompt job) (inl resp)) ∧
  (∀ resp, j_phase job = HReplied (GOk resp) → ∃ w, forwards w (j_prompt job) (inl resp)).

Record ginv (g : Gateway) : Prop := {
  gi_places : ∀ j, places j g = if waiting j g then 1 else 0;
  gi_queue : ∀ j p w, (j, p, w) ∈ dispatchJobs g → ∃ job, g_jobs g !! j = Some job ∧ j_prompt job = p;
  gi_disp : ∀ i j p w, dispatchWorkers g !! i = Some (DForwarding j p w) →
              ∃ job, g_jobs g !! j = Some job ∧ j_prompt job = p;
  gi_honest : ∀ j job, g_jobs g !! j = Some job → honest job
}.

Lemma occ_app j l1 l2 : occ j (l1 ++ l2) = occ j l1 + occ j l2.
Proof. unfold occ. by rewrite list.filter_app, length_app. Qed.

Lemma occ_cons j k l : occ j (k :: l) = (if decide (k = j) then 1 else 0) + occ j l.
Proof. unfold occ. rewrite filter_cons. by case_decide. Qed.

(** Replacing what one goroutine holds. *)
Lemma occ_update {A} (f : A → list nat) j l i (x y : A) :
  l !! i = Some x → occ j (<[i := y]> l ≫= f) + occ j (f x) = occ j (l ≫= f) + occ j (f y).
Proof.
  intros Hi. pose proof (lookup_lt_Some _ _ _ Hi) as Hlt.
  rewrite (insert_take_drop l i y Hlt). rewrite <- (take_drop_middle l i x Hi) at 3.
  rewrite !bind_app, !bind_cons, !occ_app. lia.
Qed.

(** Changing one job changes [waiting] there only. *)
Lemma waiting_insert j k job g c d cw dw :
  is_Some (g_jobs g !! k) →
  waiting j (mkGateway (<[k := job]> (g_jobs g)) c d cw dw) =
    if decide (j = k) then
      match job with mkJob _ None HWaitResult => true | _ => false end
    else waiting j g.
Proof.
  intros [x Hx]. unfold waiting. simpl. case_decide as Hjk.
  - subst. by rewrite list_lookup_insert_eq by (by eapply lookup_lt_Some).
  - by rewrite list_lookup_insert_ne.
Qed.

Lemma prompt_insert j k job job' (jobs : list Job) :
  jobs !! k = Some job → j_prompt job' = j_prompt job →
  ∀ p, (∃ x, jobs !! j = Some x ∧ j_prompt x = p) →
       ∃ x, <[k := job']> jobs !! j = Some x ∧ j_prompt x = p.
Proof.
  intros Hk Hp p (x & Hx & Hxp). destruct (decide (j = k)) as [->|Hne].
  - exists job'. rewrite list_lookup_insert_eq by (by eapply lookup_lt_Some). split; [done|].
    rewrite Hp. congruence.
  - exists x. by rewrite list_lookup_insert_ne.
Qed.

Lemma honest_insert k job (jobs : list Job) :
  honest job → (∀ j x, jobs !! j = Some x → honest x) →
  ∀ j x, <[k := job]> jobs !! j = Some x → honest x.
Proof.
  intros Hj Hall j x Hx. apply list_lookup_insert_Some in Hx as [(_ & <- & _)|[_ Hx]]; eauto.
Qed.

(** A goroutine that holds a job can send its result. *)
Lemma send_can j res g :
  ginv g → 0 < places j g →
  ∃ p, g_jobs g !! j = Some (mkJob p None HWaitResult) ∧
    send_result j res g = Some (mkGateway (<[j := mkJob p (Some res) HWaitResult]> (g_jobs g))
      (connJobs g) (dispatchJobs g) (connWorkers g) (dispatchWorkers g)).
Proof.
  intros Hg Hp. rewrite (gi_places g Hg) in Hp. unfold waiting, send_result in *.
  destruct (g_jobs g !! j) as [[p [r|] []]|] eqn:E; simpl in *; try lia. eauto.
Qed.

(** A step that changes no job and moves none out of the system. *)
Lemma inv_move g g' :
  ginv g → g_jobs g' = g_jobs g → (∀ j, places j g' = places j g) →
  (∀ j p w, (j, p, w) ∈ dispatchJobs g' → (j, p, w) ∈ dispatchJobs g ∨
     ∃ job, g_jobs g !! j = Some job ∧ j_prompt job = p) →
  (∀ i j p w, dispatchWorkers g' !! i = Some (DForwarding j p w) →
     dispatchWorkers g !! i = Some (DForwarding j p w) ∨ (j, p, w) ∈ dispatchJobs g) →
  ginv g'.
Proof.
  intros Hg Hj Hp Hq Hd. split.
  - intros j. rewrite Hp, (gi_places g Hg). unfold waiting. by rewrite Hj.
  - intros j p w H. rewrite Hj. destruct (Hq j p w H); [by eapply gi_queue|done].
  - intros i j p w H. rewrite Hj. destruct (Hd i j p w H); [by eapply gi_disp|by eapply gi_queue].
  - rewrite Hj. apply Hg.
Qed.

(** A step of job [k]'s own handler that keeps its prompt. *)
Lemma inv_job g k job job' c :
  ginv g → g_jobs g !! k = Some job → j_prompt job' = j_prompt job → honest job' →
  (∀ j, occ j c + (if decide (j = k) then if waiting k g then 1 else 0 else 0) =
        occ j (connJobs g) +
        (if decide (j = k) then
           match job' with mkJob _ None HWaitResult => 1 | _ => 0 end else 0)) →
  ginv (mkGateway (<[k := job']> (g_jobs g)) c (dispatchJobs g) (connWorkers g) (dispatchWorkers g)).
Proof.
  intros Hg Hk Hpr Hh Hocc. split; simpl.
  - intros j. rewrite waiting_insert by eauto. pose proof (gi_places g Hg j) as Hpl.
    specialize (Hocc j). unfold places in *. simpl. case_decide as Hjk.
    + subst j. destruct job' as [? [|] []]; simpl in *; lia.
    + lia.
  - intros j p w H. eapply prompt_insert; [done|done|]. by eapply gi_queue.
  - intros i j p w H. eapply prompt_insert; [done|done|]. by eapply gi_disp.
  - by apply honest_insert; [|apply Hg].
Qed.

(** The result of job [j] is sent by the goroutine that held it. *)
Lemma inv_sent g g1 j res cw dw :
  ginv g → 0 < places j g → send_result j res g = Some g1 →
  (∀ p resp, g_jobs g !! j = Some (mkJob p None HWaitResult) → res = inl resp →
     ∃ w, forwards w p (inl resp)) →
  (∀ k, occ k (cw ≫= held_conn) + occ k (dw ≫= held_disp) + (if decide (j = k) then 1 else 0) =
        occ k (connWorkers g ≫= held_conn) + occ k (dispatchWorkers g ≫= held_disp)) →
  (∀ i k p w, dw !! i = Some (DForwarding k p w) →
     dispatchWorkers g !! i = Some (DForwarding k p w)) →
  ginv (mkGateway (g_jobs g1) (connJobs g1) (dispatchJobs g1) cw dw).
Proof.
  intros Hg Hpl Hs Hres Hocc Hdw. destruct (send_can j res g Hg Hpl) as (p & Hj & Hs').
  rewrite Hs' in Hs. injection Hs as <-. simpl.
  assert (waiting j g = true) as Hw by (unfold waiting; by rewrite Hj).
  split; simpl.
  - intros k. rewrite waiting_insert by eauto. pose proof (gi_places g Hg k) as Hk.
    specialize (Hocc k). unfold places in *. simpl.
    destruct (decide (k = j)) as [->|Hne], (decide (j = _)); try done; [rewrite Hw in Hk|]; lia.
  - intros k q w H. eapply prompt_insert; [done|done|]. by eapply gi_queue.
  - intros i k q w H%Hdw. eapply prompt_insert; [done|done|]. by eapply gi_disp.
  - apply honest_insert; [|apply Hg]. split; simpl; [|done]. intros resp [= ->]. eauto.
Qed.

Lemma held_conn_places g i c j :
  connWorkers g !! i = Some c → j ∈ held_conn c → 0 < places j g.
Proof.
  intros Hi Hj. pose proof (occ_update held_conn j (connWorkers g) i c CIdle Hi) as Ho.
  destruct c as [|k|k w]; simpl in Hj; [by apply elem_of_nil in Hj|..];
    apply list_elem_of_singleton in Hj as ->; simpl in Ho;
    rewrite occ_cons, decide_True in Ho by done; unfold places, occ in *; simpl in *; lia.
Qed.

Lemma held_disp_places g i j p w :
  dispatchWorkers g !! i = Some (DForwarding j p w) → 0 < places j g.
Proof.
  intros Hi. pose proof (occ_update held_disp j (dispatchWorkers g) i _ DIdle Hi) as Ho.
  simpl in Ho. rewrite occ_cons, decide_True in Ho by done. unfold places, occ in *. simpl in *. lia.
Qed.

Lemma dw_insert_idle (dw : list DispatchWorker) i k q p w :
  <[i := DIdle]> dw !! k = Some (DForwarding q p w) → dw !! k = Some (DForwarding q p w).
Proof. intros H. apply list_lookup_insert_Some in H as [(_ & ? & _)|[_ H]]; done. Qed.

Lemma send_frame j res g g1 :
  send_result j res g = Some g1 →
  connWorkers g1 = connWorkers g ∧ dispatchWorkers g1 = dispatchWorkers g.
Proof. unfold send_result. intros H. case_all; by simplify_eq. Qed.

(** A connection worker that sends an error and goes back to its queue. *)
Lemma inv_conn_error g g1 i c j e :
  ginv g → connWorkers g !! i = Some c → held_conn c = [j] →
  send_result j (inr e) g = Some g1 → ginv (set_conn i CIdle g1).
Proof.
  intros Hg Hi Hc Hs. destruct (send_frame _ _ _ _ Hs) as [E1 E2]. unfold set_conn. rewrite E1, E2.
  eapply (inv_sent g g1 j (inr e)); try done.
  - eapply held_conn_places; [done|]. rewrite Hc. set_solver.
  - intros k. pose proof (occ_update held_conn k (connWorkers g) i c CIdle Hi) as Ho.
    rewrite Hc in Ho. simpl in Ho. rewrite occ_cons in Ho. unfold occ in *. simpl in *. lia.
Qed.

Lemma inv_arrive g p :
  ginv g → ginv (mkGateway (g_jobs g ++ [mkJob p None HEnqueue]) (connJobs g) (dispatchJobs g)
                   (connWorkers g) (dispatchWorkers g)).
Proof.
  intros Hg.
  assert (∀ j x, g_jobs g !! j = Some x → (g_jobs g ++ [mkJob p None HEnqueue]) !! j = Some x) as Hold
    by (intros j x Hx; by apply lookup_app_l_Some).
  split; simpl.
  - intros j. pose proof (gi_places g Hg j) as Hp. unfold places in *. simpl. rewrite Hp.
    unfold waiting. simpl. destruct (g_jobs g !! j) as [x|] eqn:Hx; [by rewrite (Hold j x Hx)|].
    rewrite lookup_app_r by (by apply lookup_ge_None). by destruct (j - _) as [|[|]].
  - intros j q w H. destruct (gi_queue g Hg j q w H) as (x & Hx & Hq). eauto.
  - intros k j q w H. destruct (gi_disp g Hg k j q w H) as (x & Hx & Hq). eauto.
  - intros j x Hx. apply lookup_app_Some in Hx as [Hx|[_ Hx]]; [by eapply gi_honest|].
    apply list_lookup_singleton_Some in Hx as [_ <-]. by split.
Qed.

Lemma gstep_inv g g' : ginv g → gstep g g' → ginv g'.
Proof.
  intros Hg Hs. destruct Hs as [method body p g _|j p g Hj _|j p g Hj|j p res g Hj
    |i j rest g Hi Hq|i j e g g1 Hi _ Hsend|i j w g Hi _|i j w job g Hi _ Hj|i j w g g1 Hi Hsend
    |i j p w rest g Hi Hq|i j p w res g g1 Hi Hf Hsend].
  - by apply inv_arrive.
  - eapply inv_job; try done. intros k. rewrite occ_app, occ_cons. unfold waiting. rewrite Hj.
    unfold occ. simpl. repeat case_decide; subst; try done; lia.
  - eapply inv_job; try done. intros k. unfold waiting. rewrite Hj. case_decide; lia.
  - eapply inv_job; try done; [|intros k; unfold waiting; rewrite Hj; case_decide; lia].
    destruct (gi_honest g Hg j _ Hj) as [Hh _]. split; simpl; [done|].
    destruct res; [|done]. intros resp [= ->]. by apply Hh.
  - eapply inv_move; try done; [|auto|auto]. intros k. unfold places. simpl. rewrite Hq, occ_cons.
    pose proof (occ_update held_conn k (connWorkers g) i CIdle (CPicking j) Hi) as Ho.
    simpl in Ho. rewrite occ_cons in Ho. unfold occ in *. simpl in *. lia.
  - by eapply inv_conn_error.
  - eapply inv_move; try done; [|auto|auto]. intros k. unfold places. simpl.
    pose proof (occ_update held_conn k (connWorkers g) i _ (CEnqueuing j w) Hi) as Ho.
    simpl in Ho. lia.
  - eapply inv_move; try done; [..|auto].
    + intros k. unfold places. simpl. rewrite fmap_app, occ_app.
      pose proof (occ_update held_conn k (connWorkers g) i _ CIdle Hi) as Ho.
      simpl in Ho. unfold occ in *. simpl in *. lia.
    + simpl. intros k q v [H|H]%elem_of_app; [by left|right].
      apply list_elem_of_singleton in H. injection H as -> -> ->. eauto.
  - by eapply inv_conn_error.
  - eapply inv_move; try done.
    + intros k. unfold places. simpl. rewrite Hq, fmap_cons, occ_cons. simpl.
      pose proof (occ_update held_disp k (dispatchWorkers g) i DIdle (DForwarding j p w) Hi) as Ho.
      simpl in Ho. rewrite occ_cons in Ho. unfold occ in *. simpl in *. lia.
    + simpl. intros k q v H. left. rewrite Hq. set_solver.
    + simpl. intros k q r v H. apply list_lookup_insert_Some in H as [(_ & [= <- <- <-] & _)|[_ H]];
        [right; rewrite Hq; set_solver|by left].
  - destruct (send_frame _ _ _ _ Hsend) as [E1 E2]. unfold set_disp. rewrite E1, E2.
    eapply (inv_sent g g1 j res); try done.
    + by eapply held_disp_places.
    + intros q resp Hj ->. destruct (gi_disp g Hg i j p w Hi) as (x & Hx & Hpx).
      rewrite Hj in Hx. injection Hx as <-. simpl in Hpx. subst. eauto.
    + intros k. pose proof (occ_update held_disp k (dispatchWorkers g) i _ DIdle Hi) as Ho.
      simpl in Ho. rewrite occ_cons in Ho. unfold occ in *. simpl in *. lia.
    + intros k q r v. apply dw_insert_idle.
Qed.

Lemma bind_replicate_nil {A} (f : A → list nat) x k : f x = [] → replicate k x ≫= f = [].
Proof.
  intros Hf. induction k as [|k IH]; [done|].
  by rewrite replicate_S, bind_cons, Hf, IH.
Qed.

Lemma new_inv c d : ginv (NewGateway c d).
Proof.
  split; simpl.
  - intros j. unfold places, NewGateway. simpl. by rewrite !bind_replicate_nil.
  - intros j p w H. by apply elem_of_nil in H.
  - intros i j p w H. by apply lookup_replicate in H as [? _].
  - done.
Qed.

(** C27. No job is lost or answered twice: in every state the gateway reaches, a
    job whose handler waits on an empty channel is in exactly one place (a queue
    or the hands of one pool goroutine) and any other job in none; the goroutine
    that holds a job can send its result without blocking; and a response given
    to a client is one that a worker gave for that client's own prompt. *)
Theorem gateway_keeps_jobs c d g :
  rtc gstep (NewGateway c d) g →
  (∀ j, places j g = if waiting j g then 1 else 0) ∧
  (∀ j res, 0 < places j g → is_Some (send_result j res g)) ∧
  (∀ j job resp, g_jobs g !! j = Some job → j_phase job = HReplied (GOk resp) →
     ∃ w, forwards w (j_prompt job) (inl resp)).
Proof.
  intros Hr. assert (ginv g) as Hg.
  { pose proof (new_inv c d) as H0. revert H0. induction Hr as [|x y z Hxy _ IH]; [done|].
    intros H0. apply IH. by eapply gstep_inv. }
  split_and!.
  - apply Hg.
  - intros j res Hp. destruct (send_can j res g Hg Hp) as (p & _ & ->). eauto.
  - intros j job resp Hj. by apply (gi_honest g Hg j job Hj).
Qed.
End gateway.

(** One request from arrival to its answer. *)
Lemma gateway_keeps_jobs_witness :
  ∃ g, rtc (gstep (λ b, Some (mkChatRequest b "" [] 0)) (λ _, True) (λ _ _ _, True))
           (NewGateway 1 1) g ∧
    g_jobs g = [mkJob "hi" (Some (inl (mkChatResponse "yo" "w" 0))) HWaitResult] ∧
    (∀ j, places j g = if waiting j g then 1 else 0).
Proof.
  assert (rtc (gstep (λ b, Some (mkChatRequest b "" [] 0)) (λ _, True) (λ _ _ _, True))
    (NewGateway 1 1)
    (mkGateway [mkJob "hi" (Some (inl (mkChatResponse "yo" "w" 0))) HWaitResult] [] [] [CIdle] [DIdle]))
    as Hr.
  { eapply rtc_l; [by eapply (g_arrive _ _ _ "POST" (Some "hi") "hi")|].
    eapply rtc_l; [eapply (g_enqueue _ _ _ 0 "hi"); [reflexivity|unfold connCap; simpl; lia]|].
    eapply rtc_l; [by eapply (g_conn_take _ _ _ 0 0 [])|].
    eapply rtc_l; [by eapply (g_conn_pick _ _ _ 0 0 zero_WorkerInfo)|].
    eapply rtc_l; [eapply (g_conn_enqueue _ _ _ 0 0 zero_WorkerInfo);
      [reflexivity|unfold dispatchCap; simpl; lia|reflexivity]|].
    eapply rtc_l; [by eapply (g_disp_take _ _ _ 0 0 "hi" zero_WorkerInfo [])|].
    eapply rtc_l; [by eapply (g_disp_done _ _ _ 0 0 "hi" zero_WorkerInfo
      (inl (mkChatResponse "yo" "w" 0)))|]. apply rtc_refl. }
  eexists. split; [exact Hr|]. split; [reflexivity|].
  apply (gateway_keeps_jobs (λ b, Some (mkChatRequest b "" [] 0)) (λ _, True) (λ _ _ _, True) 1 1 _ Hr).
Defined.
