(* ===== verification/Worker.v ===== *)
(** * The worker node (worker/pool.go, worker/server.go, worker/backend.go)

    A pool of GPU goroutines takes tasks from one bounded queue; [Submit] puts a
    task in and waits for its result or for the caller's context to end.  The
    pool is a step relation like the gateway's; the inference backend is the
    parameter [generates].  [context.Context] is a flag per task: once the
    context has ended, [ctx.Done()] is ready. *)

From S2P Require Import Prelude Models Gateway.
From stdpp Require Import strings relations pretty.

(** ** Backends *)

Definition BackendMock : string := "mock".
Definition BackendVLLM : string := "vllm".

(** [MockBackend.Generate]: [ended] when the context ends during the delay. *)
Definition MockBackend_Generate (workerID : string) (ended : bool) (prompt : string) : jobResult :=
  if ended then inr "context"
  else inl (mkChatResponse (String.append "[mock] reply to: " prompt) workerID 0).

Record VLLMBackend := mkVLLMBackend {
  v_BaseURL : string;
  v_Model : string;
  v_MaxTokens : Z;
  v_WorkerID : string
}.

Record vllmChatRequest := mkvllmChatRequest {
  vr_Model : string;
  vr_Messages : list ChatMessage;
  vr_MaxTokens : Z
}.

Record vllmChatResponse := mkvllmChatResponse {
  vs_Model : string;
  vs_Choices : list ChatMessage
}.

(** The request [VLLMBackend.Generate] sends. *)
Definition vllm_request (b : VLLMBackend) (prompt : string) : vllmChatRequest :=
  mkvllmChatRequest (v_Model b) [mkChatMessage "user" prompt]
    (if (v_MaxTokens b <=? 0)%Z then 256%Z else v_MaxTokens b).

(** What came back: an error on the way, or a status with a body. *)
Inductive HttpOutcome := HttpFailed (err : string) | HttpGot (status : Z) (body : string).

Definition VLLMBackend_Generate (unmarshal : string → option vllmChatResponse)
    (net : vllmChatRequest → HttpOutcome) (b : VLLMBackend) (prompt : string) : jobResult :=
  match net (vllm_request b prompt) with
  | HttpFailed e => inr e
  | HttpGot status body =>
      if negb (status =? 200)%Z then inr "vllm"
      else
        match unmarshal body with
        | None => inr "json"
        | Some out =>
            match vs_Choices out with
            | [] => inr "vllm response has no choices"
            | m :: _ => inl (mkChatResponse (cm_Content m) (v_WorkerID b) 0)
            end
        end
  end.

(** [WaitForBackend]: one health check per tick; [Some e] is not ready.  The
    second component says whether the context had ended at the [select]. *)
Fixpoint WaitForBackend (checks : list (option string * bool)) : option (() + string) :=
  match checks with
  | [] => None
  | (None, _) :: _ => Some (inl ())
  | (Some _, true) :: _ => Some (inr "context")
  | (Some _, false) :: rest => WaitForBackend rest
  end.

(** ** The pool *)

(** Where [Submit] stands: before the queue, waiting, or returned. *)
Inductive SPhase := SEnqueue | SWaitDone | SReturned (r : jobResult).

(** A [Task] with its [Done] channel (capacity 1) and its context. *)
Record PoolTask := mkPoolTask {
  t_ID : string;
  t_prompt : string;
  t_ended : bool;
  t_done : option jobResult;
  t_phase : SPhase
}.

Inductive GPU := GIdle | GComputing (t : nat).

Record Pool := mkPool {
  p_workerID : string;
  p_seq : Z;
  p_tasks : list PoolTask;
  p_queue : list nat;
  p_gpus : list GPU
}.

Definition defaultQueueCap : nat := 1024.

Definition NewPool (workerID : string) (gpuCount : Z) : Pool :=
  mkPool workerID 0 [] []
    (replicate (Z.to_nat (if (gpuCount <? 1)%Z then 1%Z else gpuCount)) GIdle).

Definition set_task (k : nat) (t : PoolTask) (p : Pool) : Pool :=
  mkPool (p_workerID p) (p_seq p) (<[k := t]> (p_tasks p)) (p_queue p) (p_gpus p).

(** The task [Submit] makes: [p.seq.Add(1)] on 64 unsigned bits. *)
Definition new_task (prompt : string) (p : Pool) : PoolTask :=
  mkPoolTask (String.append (p_workerID p) (String.append "-" (pretty ((p_seq p + 1) mod 2 ^ 64)%Z)))
    prompt false None SEnqueue.

(** What [gpuLoop] makes of the backend's answer. *)
Definition gpu_result (workerID : string) (gpu : nat) (r : jobResult) : jobResult :=
  match r with
  | inl resp =>
      inl (mkChatResponse (cs_Reply resp)
             (if bool_decide (cs_WorkerID resp = "") then workerID else cs_WorkerID resp)
             (Z.of_nat gpu))
  | inr e => inr e
  end.

Section pool.
(** What [backend.Generate] may return for a prompt. *)
Context (generates : string → jobResult → Prop).

Inductive pstep : Pool → Pool → Prop :=
  | p_submit prompt p :
      pstep p (mkPool (p_workerID p) ((p_seq p + 1) mod 2 ^ 64)%Z
                 (p_tasks p ++ [new_task prompt p]) (p_queue p) (p_gpus p))
  | p_context_ends k t p :
      p_tasks p !! k = Some t →
      pstep p (set_task k (mkPoolTask (t_ID t) (t_prompt t) true (t_done t) (t_phase t)) p)
  (** the first [select] of [Submit] *)
  | p_enqueue k id pr en p :
      p_tasks p !! k = Some (mkPoolTask id pr en None SEnqueue) →
      length (p_queue p) < defaultQueueCap →
      pstep p (mkPool (p_workerID p) (p_seq p)
                 (<[k := mkPoolTask id pr en None SWaitDone]> (p_tasks p)) (p_queue p ++ [k]) (p_gpus p))
  | p_enqueue_timeout k id pr en p :
      p_tasks p !! k = Some (mkPoolTask id pr en None SEnqueue) →
      pstep p (set_task k
        (mkPoolTask id pr en None (SReturned (inr "queue full, enqueue timeout"))) p)
  | p_enqueue_ended k id pr p :
      p_tasks p !! k = Some (mkPoolTask id pr true None SEnqueue) →
      pstep p (set_task k (mkPoolTask id pr true None (SReturned (inr "context"))) p)
  (** the second [select] *)
  | p_receive k id pr en r p :
      p_tasks p !! k = Some (mkPoolTask id pr en (Some r) SWaitDone) →
      pstep p (set_task k (mkPoolTask id pr en None (SReturned r)) p)
  | p_wait_ended k id pr dn p :
      p_tasks p !! k = Some (mkPoolTask id pr true dn SWaitDone) →
      pstep p (set_task k (mkPoolTask id pr true dn (SReturned (inr "context"))) p)
  (** [gpuLoop] *)
  | p_gpu_take i k rest p :
      p_gpus p !! i = Some GIdle → p_queue p = k :: rest →
      pstep p (mkPool (p_workerID p) (p_seq p) (p_tasks p) rest (<[i := GComputing k]> (p_gpus p)))
  | p_gpu_done i k id pr en ph r p :
      p_gpus p !! i = Some (GComputing k) →
      p_tasks p !! k = Some (mkPoolTask id pr en None ph) → generates pr r →
      pstep p (mkPool (p_workerID p) (p_seq p)
                 (<[k := mkPoolTask id pr en (Some (gpu_result (p_workerID p) i r)) ph]> (p_tasks p))
                 (p_queue p) (<[i := GIdle]> (p_gpus p))).

(** ** Invariant *)

Definition held_gpu (u : GPU) : list nat := match u with GIdle => [] | GComputing k => [k] end.

Definition pplaces (k : nat) (p : Pool) : nat := occ k (p_queue p) + occ k (p_gpus p ≫= held_gpu).

(** A result that [Submit] returned, or that waits in the channel, was computed
    from the task's own prompt by one of the pool's GPUs. *)
Definition computed (p : Pool) (t : PoolTask) (r : jobResult) : Prop :=
  ∀ resp, r = inl resp →
  ∃ r0 i, i < length (p_gpus p) ∧ generates (t_prompt t) r0 ∧ gpu_result (p_workerID p) i r0 = r.

Record pinv (p : Pool) : Prop := {
  pi_once : ∀ k, pplaces k p ≤ 1;
  pi_task : ∀ k, pplaces k p = 1 →
    ∃ t, p_tasks p !! k = Some t ∧ t_done t = None ∧ t_phase t ≠ SEnqueue;
  pi_wait : ∀ k t, p_tasks p !! k = Some t → t_phase t = SWaitDone → t_done t = None →
    pplaces k p = 1;
  pi_result : ∀ k t r, p_tasks p !! k = Some t →
    (t_done t = Some r ∨ t_phase t = SReturned r) → computed p t r
}.

(** A step of task [k]'s submitter that leaves queue and GPUs alone. *)
Lemma pinv_task p k t t' :
  pinv p → p_tasks p !! k = Some t → t_prompt t' = t_prompt t →
  (t_done t = None → t_phase t ≠ SEnqueue → t_done t' = None ∧ t_phase t' ≠ SEnqueue) →
  (t_phase t' = SWaitDone → t_done t' = None → t_phase t = SWaitDone ∧ t_done t = None) →
  (∀ r, (t_done t' = Some r ∨ t_phase t' = SReturned r) →
     (t_done t = Some r ∨ t_phase t = SReturned r) ∨ ∃ e, r = inr e) →
  pinv (set_task k t' p).
Proof.
  intros Hp Hk Hpr Hkeep Hwait Hres. pose proof (lookup_lt_Some _ _ _ Hk) as Hlt.
  split; simpl.
  - apply Hp.
  - intros j Hj. destruct (pi_task p Hp j Hj) as (x & Hx & Hd & Hph).
    destruct (decide (j = k)) as [->|Hne].
    + exists t'. rewrite list_lookup_insert_eq by done. simplify_eq. split; [done|]. by apply Hkeep.
    + exists x. by rewrite list_lookup_insert_ne.
  - intros j x Hx Hph Hd. change (pplaces j (set_task k t' p)) with (pplaces j p).
    apply list_lookup_insert_Some in Hx as [(-> & <- & _)|[_ Hx]]; [|by eapply pi_wait].
    destruct (Hwait Hph Hd). by eapply pi_wait.
  - intros j x r Hx Hr. apply list_lookup_insert_Some in Hx as [(-> & <- & _)|[_ Hx]];
      [|exact (pi_result p Hp j x r Hx Hr)].
    destruct (Hres r Hr) as [Hold|[e ->]]; [|by intros ? [=]].
    pose proof (pi_result p Hp _ _ r Hk Hold) as Hc. unfold computed in *. rewrite Hpr. exact Hc.
Qed.

Lemma pinv_submit p pr :
  pinv p → pinv (mkPool (p_workerID p) ((p_seq p + 1) mod 2 ^ 64)%Z
                   (p_tasks p ++ [new_task pr p]) (p_queue p) (p_gpus p)).
Proof.
  intros Hp. split; simpl.
  - apply Hp.
  - intros k Hk. destruct (pi_task p Hp k Hk) as (t & Ht & Hd). exists t.
    by rewrite (lookup_app_l_Some _ _ _ _ Ht).
  - intros k t Ht Hph Hd. apply lookup_app_Some in Ht as [Ht|[_ Ht]]; [by eapply (pi_wait p Hp)|].
    apply list_lookup_singleton_Some in Ht as [_ <-]. done.
  - intros k t r Ht Hr. apply lookup_app_Some in Ht as [Ht|[_ Ht]];
      [exact (pi_result p Hp k t r Ht Hr)|].
    apply list_lookup_singleton_Some in Ht as [_ <-]. by destruct Hr.
Qed.

Lemma pinv_enqueue p k id pr en :
  pinv p → p_tasks p !! k = Some (mkPoolTask id pr en None SEnqueue) →
  pinv (mkPool (p_workerID p) (p_seq p)
          (<[k := mkPoolTask id pr en None SWaitDone]> (p_tasks p)) (p_queue p ++ [k]) (p_gpus p)).
Proof.
  intros Hp Hk. pose proof (lookup_lt_Some _ _ _ Hk) as Hlt.
  assert (pplaces k p = 0) as H0.
  { pose proof (pi_once p Hp k). destruct (decide (pplaces k p = 1)) as [H1|]; [|lia].
    destruct (pi_task p Hp k H1) as (t & Ht & _ & Hne). simplify_eq. }
  assert (∀ j, pplaces j (mkPool (p_workerID p) (p_seq p)
          (<[k := mkPoolTask id pr en None SWaitDone]> (p_tasks p)) (p_queue p ++ [k]) (p_gpus p)) =
          pplaces j p + (if decide (k = j) then 1 else 0)) as Hpl.
  { intros j. unfold pplaces. simpl. rewrite occ_app, occ_cons. change (occ j []) with 0. lia. }
  split; simpl.
  - intros j. rewrite Hpl. pose proof (pi_once p Hp j). case_decide; [subst; lia|lia].
  - intros j. rewrite Hpl. intros Hj. destruct (decide (k = j)) as [<-|Hne].
    + eexists. rewrite list_lookup_insert_eq by done. done.
    + rewrite list_lookup_insert_ne by done. apply Hp. lia.
  - intros j t Ht Hph Hd. rewrite Hpl. apply list_lookup_insert_Some in Ht as [(-> & _ & _)|[Hne Ht]].
    + rewrite decide_True by done. lia.
    + rewrite decide_False by done. rewrite (pi_wait p Hp j t Ht Hph Hd). lia.
  - intros j t r Ht Hr. apply list_lookup_insert_Some in Ht as [(-> & <- & _)|[_ Ht]];
      [by destruct Hr|exact (pi_result p Hp j t r Ht Hr)].
Qed.

Lemma pinv_take p i k rest :
  pinv p → p_gpus p !! i = Some GIdle → p_queue p = k :: rest →
  pinv (mkPool (p_workerID p) (p_seq p) (p_tasks p) rest (<[i := GComputing k]> (p_gpus p))).
Proof.
  intros Hp Hi Hq.
  assert (∀ j, pplaces j (mkPool (p_workerID p) (p_seq p) (p_tasks p) rest
     (<[i := GComputing k]> (p_gpus p))) = pplaces j p) as Hpl.
  { intros j. unfold pplaces. simpl. rewrite Hq, occ_cons.
    pose proof (occ_update held_gpu j (p_gpus p) i GIdle (GComputing k) Hi) as Ho.
    simpl in Ho. rewrite occ_cons in Ho. unfold occ in *. simpl in *. lia. }
  split; simpl; try setoid_rewrite Hpl; try apply Hp.
  intros j t r Ht Hr. unfold computed. simpl. rewrite length_insert. by eapply (pi_result p Hp).
Qed.

Lemma gpu_holds p i k : p_gpus p !! i = Some (GComputing k) → 0 < pplaces k p.
Proof.
  intros Hi. pose proof (occ_update held_gpu k (p_gpus p) i _ GIdle Hi) as Ho.
  simpl in Ho. rewrite occ_cons, decide_True in Ho by done. unfold pplaces, occ in *. simpl in *. lia.
Qed.

Lemma pinv_done p i k id pr en ph r :
  pinv p → p_gpus p !! i = Some (GComputing k) →
  p_tasks p !! k = Some (mkPoolTask id pr en None ph) → generates pr r →
  pinv (mkPool (p_workerID p) (p_seq p)
          (<[k := mkPoolTask id pr en (Some (gpu_result (p_workerID p) i r)) ph]> (p_tasks p))
          (p_queue p) (<[i := GIdle]> (p_gpus p))).
Proof.
  intros Hp Hi Hk Hg. pose proof (lookup_lt_Some _ _ _ Hk) as Hlt.
  pose proof (gpu_holds p i k Hi) as Hh. pose proof (pi_once p Hp k) as H1.
  assert (∀ j, pplaces j (mkPool (p_workerID p) (p_seq p)
          (<[k := mkPoolTask id pr en (Some (gpu_result (p_workerID p) i r)) ph]> (p_tasks p))
          (p_queue p) (<[i := GIdle]> (p_gpus p))) + (if decide (k = j) then 1 else 0) = pplaces j p)
    as Hpl.
  { intros j. unfold pplaces. simpl.
    pose proof (occ_update held_gpu j (p_gpus p) i _ GIdle Hi) as Ho.
    simpl in Ho. rewrite occ_cons in Ho. unfold occ in *. simpl in *. lia. }
  split; simpl.
  - intros j. specialize (Hpl j). pose proof (pi_once p Hp j). lia.
  - intros j Hj. specialize (Hpl j). rewrite Hj in Hpl. destruct (decide (k = j)) as [<-|Hne]; [lia|].
    rewrite list_lookup_insert_ne by done. apply Hp. lia.
  - intros j t Ht Hph Hd. specialize (Hpl j).
    apply list_lookup_insert_Some in Ht as [(-> & <- & _)|[Hne Ht]]; [done|].
    rewrite decide_False in Hpl by done. rewrite (pi_wait p Hp j t Ht Hph Hd) in Hpl. lia.
  - intros j t x Ht Hx. unfold computed. simpl. rewrite length_insert.
    apply list_lookup_insert_Some in Ht as [(-> & <- & _)|[Hne Ht]]; [|by eapply (pi_result p Hp)].
    simpl in *. destruct Hx as [[= <-]|Hx]; [|by eapply (pi_result p Hp _ _ x Hk); right].
    intros resp _. exists r, i. split_and!; [by eapply lookup_lt_Some|done|done].
Qed.

Lemma pstep_inv p p' : pinv p → pstep p p' → pinv p'.
Proof.
  intros Hp Hs. destruct Hs as [pr p|k t p Hk|k id pr en p Hk _|k id pr en p Hk|k id pr p Hk
    |k id pr en r p Hk|k id pr dn p Hk|i k rest p Hi Hq|i k id pr en ph r p Hi Hk Hg].
  - by apply pinv_submit.
  - eapply pinv_task; eauto.
  - by eapply pinv_enqueue.
  - eapply pinv_task; eauto; simpl; naive_solver.
  - eapply pinv_task; eauto; simpl; naive_solver.
  - eapply pinv_task; eauto; simpl; naive_solver.
  - eapply pinv_task; eauto; simpl; naive_solver.
  - by eapply pinv_take.
  - by eapply pinv_done.
Qed.

Lemma new_pool_inv id n : pinv (NewPool id n).
Proof.
  assert (∀ k, pplaces k (NewPool id n) = 0) as H0.
  { intros k. unfold pplaces, NewPool. simpl. by rewrite bind_replicate_nil. }
  split; simpl; try done; intros k; rewrite H0; lia.
Qed.

(** C28. The pool keeps every task: in every state it reaches, a task is in at
    most one place and a task whose submitter still waits for a result that has
    not come is in exactly one (the queue or one GPU); a GPU that holds a task
    finds room in its channel, even when the submitter has gone; and a response
    that [Submit] returns was computed from that task's prompt, and names the
    GPU of the pool that computed it. *)
Theorem pool_keeps_tasks id n p :
  rtc pstep (NewPool id n) p →
  (∀ k, pplaces k p ≤ 1) ∧
  (∀ k t, p_tasks p !! k = Some t → t_phase t = SWaitDone → t_done t = None → pplaces k p = 1) ∧
  (∀ i k, p_gpus p !! i = Some (GComputing k) → ∃ t, p_tasks p !! k = Some t ∧ t_done t = None) ∧
  (∀ k t resp, p_tasks p !! k = Some t → t_phase t = SReturned (inl resp) →
     ∃ r0 i, i < length (p_gpus p) ∧ generates (t_prompt t) r0 ∧
             gpu_result (p_workerID p) i r0 = inl resp).
Proof.
  intros Hr. assert (pinv p) as Hp.
  { pose proof (new_pool_inv id n) as H0. revert H0. induction Hr as [|x y z Hxy _ IH]; [done|].
    intros H0. apply IH. by eapply pstep_inv. }
  split_and!.
  - apply Hp.
  - apply Hp.
  - intros i k Hi%gpu_holds. destruct (pi_task p Hp k) as (t & Ht & Hd & _); [|eauto].
    pose proof (pi_once p Hp k). lia.
  - intros k t resp Ht Hph. by apply (pi_result p Hp k t (inl resp) Ht (or_intror Hph) resp).
Qed.
End pool.

(** ** HTTP (worker/server.go) *)

(** The worker's own copy of the prompt selection. *)
Definition worker_promptFromRequest (req : ChatRequest) : string :=
  if negb (bool_decide (cr_Prompt req = "")) then cr_Prompt req
  else last_user (cr_Messages req) (length (cr_Messages req)).

(** [ServeHTTP] and [handleChat] up to [Submit]: an error reply or the prompt. *)
Definition worker_chat (unmarshal : string → option ChatRequest) (method path : string)
    (body : option string) : GReply + string :=
  if negb (bool_decide (method = "POST") && bool_decide (path = "/v1/chat/completions"))
  then inl (GError 404 "not found")
  else
    match body with
    | None => inl (GError 400 "read")
    | Some b =>
        match unmarshal b with
        | None => inl (GError 400 "invalid json")
        | Some req =>
            let prompt := worker_promptFromRequest req in
            if bool_decide (prompt = "") then inl (GError 400 "prompt required") else inr prompt
        end
    end.

(** The reply from what [Submit] returned. *)
Definition worker_reply (res : jobResult) : GReply :=
  match res with inr e => GError 503 e | inl resp => GOk resp end.

(** One task through a pool with a mock backend. *)
Lemma pool_keeps_tasks_witness :
  ∃ p t, rtc (pstep (λ pr r, r = MockBackend_Generate "" false pr)) (NewPool "w" 0) p ∧
    p_tasks p = [t] ∧ t_phase t = SReturned (inl (mkChatResponse "[mock] reply to: hi" "w" 0)) ∧
    ∃ r0 i, i < length (p_gpus p) ∧ r0 = MockBackend_Generate "" false (t_prompt t).
Proof.
  set (t := mkPoolTask "w-1" "hi" false None
    (SReturned (inl (mkChatResponse "[mock] reply to: hi" "w" 0)))).
  assert (rtc (pstep (λ pr r, r = MockBackend_Generate "" false pr)) (NewPool "w" 0)
    (mkPool "w" 1 [t] [] [GIdle])) as Hr.
  { eapply rtc_l; [by apply (p_submit _ "hi")|].
    eapply rtc_l; [eapply (p_enqueue _ 0); [reflexivity|unfold defaultQueueCap; simpl; lia]|].
    eapply rtc_l; [by eapply (p_gpu_take _ 0 0 [])|].
    eapply rtc_l; [by eapply (p_gpu_done _ 0 0)|].
    eapply rtc_l; [by eapply (p_receive _ 0)|]. apply rtc_refl. }
  destruct (pool_keeps_tasks _ "w" 0 _ Hr) as (_ & _ & _ & H).
  destruct (H 0 t _ eq_refl eq_refl) as (r0 & i & H1 & H2 & _).
  exists (mkPool "w" 1 [t] [] [GIdle]), t. split; [exact Hr|]. split; [reflexivity|].
  split; [reflexivity|]. exists r0, i. split; [exact H1|exact H2].
Defined.
