(* ===== verification/Http.v ===== *)
(** * HTTP between the programs, and the code that speaks it

    What the sources use of net/http, the servers
    as their StartHTTPServer sets them up, and the clients: kvclient.doOnce,
    the gateway's pickWorker and forwardToWorker, the worker program's register
    and heartbeat (cmd/worker/main.go) and the vLLM backend's health check.

    A request has a method, a URL and a body; [Do] finds the server by the host
    of the URL and runs its handler on the state [S] of the servers.  A request
    may not arrive, and its reply may be lost after the server has done its work
    ([Fate]).  A ServeMux is its list of patterns, all of them without a final
    slash and a host, so that they match one path each. *)

From Stdlib Require Import Ascii SpecFloat.
From S2P Require Import Prelude RaftTypes KVServer KVHttp KVClerk KVService Models Json Controller Gateway Worker.
From stdpp Require Import strings pretty.

(** ** URLs *)

Fixpoint no_slash (s : string) : bool :=
  match s with EmptyString => true | String a s => negb (Ascii.eqb a "/") && no_slash s end.

(** The text before the first slash, and the rest with the slash. *)
Fixpoint split_slash (s : string) : string * string :=
  match s with
  | EmptyString => (EmptyString, EmptyString)
  | String a s' => if Ascii.eqb a "/" then (EmptyString, s) else let '(h, p) := split_slash s' in (String a h, p)
  end.

(** Host and path of an http URL. *)
Definition parse_url (url : string) : option (string * string) :=
  if String.prefix "http://" url then Some (split_slash (String.substring 7 (String.length url - 7) url)) else None.

(** ** The strings of chat data *)

#[export] Instance ChatMessage_texts : Texts ChatMessage := λ m, [cm_Role m; cm_Content m].
#[export] Instance ChatRequest_texts : Texts ChatRequest := λ r, cr_Prompt r :: cr_Model r :: texts (cr_Messages r).
#[export] Instance ChatResponse_texts : Texts ChatResponse := λ r, [cs_Reply r; cs_WorkerID r].

(** ** Requests and answers *)

Record Request := mkRequest { rq_method : string; rq_url : string; rq_body : string }.

(** Status and body. *)
Definition Response : Type := (Z * string)%type.

(** [resp.Status] for the codes that the servers of the repository write. *)
Definition StatusText (code : Z) : string :=
  match code with
  | 200 => "OK" | 400 => "Bad Request" | 404 => "Not Found" | 405 => "Method Not Allowed"
  | 500 => "Internal Server Error" | 502 => "Bad Gateway" | 503 => "Service Unavailable" | 504 => "Gateway Timeout"
  | _ => EmptyString
  end%Z.
Definition Status (code : Z) : string := String.append (pretty code) (String.append " " (StatusText code)).

(** [http.Error] and [http.NotFound]. *)
Definition Error (text : string) (code : Z) : Response := (code, String.append text (String "010"%char EmptyString)).
Definition NotFound : Response := Error "404 page not found" 404.

(** A handler on the state of the servers: method, path and body. *)
Definition HandlerFunc (S : Type) : Type := string → string → string → S → S * Response.

(** A ServeMux on which one handler was registered under these patterns. *)
Definition ServeMux {S} (patterns : list string) (h : HandlerFunc S) : HandlerFunc S :=
  λ method path body s, if bool_decide (path ∈ patterns) then h method path body s else (s, NotFound).

Inductive Fate := Arrives | ReplyLost | NoConnection.

(** [http.Client.Do] against servers that are found by their host. *)
Definition Do {S} (hosts : string → option (HandlerFunc S)) (fate : Fate) (req : Request) (s : S) : S * HttpOutcome :=
  match fate, parse_url (rq_url req) with
  | NoConnection, _ | _, None => (s, HttpFailed "connect")
  | _, Some (host, path) =>
      match hosts host with
      | None => (s, HttpFailed "connect")
      | Some h =>
          let '(s', (status, body)) := h (rq_method req) path (rq_body req) s in
          (s', match fate with Arrives => HttpGot status body | _ => HttpFailed "timeout" end)
      end
  end.

(** ** The servers *)

Section controller_server.
Context {S : Type} `{!KVService S} `{!JsonStream WorkerInfo} `{!Json (list string)}.
Context `{!JsonStream (gmap string string)} `{!JsonStream (gmap string (list WorkerInfo))}.
Context (range_order : gset string → list string).

(** controller.writeJSON *)
Definition writeJSON {A} `{Json A} (code : Z) (v : A) : Response := (code, Encode v).

(** What the handlers of the controller write. *)
Definition creply_http (r : CReply) : Response :=
  match r with
  | CError code text => Error text code
  | CRegistered id => writeJSON 200 (<["status" := "registered"]> {["id" := id]} : gmap string string)
  | CHeartbeat id => writeJSON 200 (<["status" := "ok"]> {["id" := id]} : gmap string string)
  | CWorkers workers => writeJSON 200 ({["workers" := workers]} : gmap string (list WorkerInfo))
  | CBest w => writeJSON 200 w
  | CNotFound => NotFound
  end.

(** controller.StartHTTPServer; [now] is the time of the request. *)
Definition controller_server (now : Z) : HandlerFunc (Controller (S := S)) :=
  ServeMux ["/workers/register"; "/workers/heartbeat"; "/workers/best"; "/workers"]
    (λ method path body c, let '(c', r) := CServeHTTP range_order method path now (Some body) c in (c', creply_http r)).
End controller_server.

Section chat_servers.
Context {S : Type} `{!Json ChatRequest} `{!JsonStream ChatResponse}.

Definition greply_http (r : GReply) : Response :=
  match r with GError code text => Error text code | GOk resp => (200%Z, Encode resp) end.

(** worker.NewServer and worker.StartHTTPServer: [submit] is the pool's Submit. *)
Definition worker_server (submit : string → S → S * jobResult) : HandlerFunc S :=
  ServeMux ["/v1/chat/completions"]
    (λ method path body s,
       match worker_chat json_unmarshal method path (Some body) with
       | inl r => (s, greply_http r)
       | inr prompt => let '(s', res) := submit prompt s in (s', greply_http (worker_reply res))
       end).

(** gateway.ServeHTTP: the checks before a job is made. *)
Definition gateway_ServeHTTP (method path body : string) : GReply + string :=
  if bool_decide (path = "/v1/chat/completions") then chat_prompt json_unmarshal method (Some body)
  else inl (GError 404 "404 page not found").

(** gateway.StartHTTPServer: [handle] is what the pipeline answers to a prompt. *)
Definition gateway_server (handle : string → S → S * jobResult) : HandlerFunc S :=
  ServeMux ["/v1/chat/completions"]
    (λ method path body s,
       match gateway_ServeHTTP method path body with
       | inl r => (s, greply_http r)
       | inr prompt => let '(s', res) := handle prompt s in (s', greply_http (chat_reply res))
       end).
End chat_servers.

(** The end of kvraft's ServeHTTP: what is written. *)
Definition kv_http `{!JsonStream HTTPResponse} (r : HttpResult) : Response :=
  match r with HttpError code text => Error text code | HttpJSON code resp => (code, Encode resp) end.

(** ServeHTTP to its end: [finish] is the rest of a handler that waits for Raft. *)
Definition kv_serve `{!Gob (PersistentState Op)} `{!Json HTTPRequest} (finish : Handler → KVServer → KVServer * Reply)
    (method body : string) (kv : KVServer) : KVServer * HttpResult :=
  match ServeHTTP (λ b, json_unmarshal (String.string_of_list_byte b)) method (Some (String.list_byte_of_string body)) kv with
  | (kv1, inl r) => (kv1, r)
  | (kv1, inr h) => let '(kv2, reply) := finish h kv1 in (kv2, http_finish (http_response reply))
  end.

(** kvraft.StartHTTPServer: [serve] runs ServeHTTP to its end. *)
Definition kv_server {S} `{!JsonStream HTTPResponse} (serve : string → string → S → S * HttpResult) : HandlerFunc S :=
  ServeMux ["/kv"] (λ method path body s, let '(s', r) := serve method body s in (s', kv_http r)).

(** ** The clients *)

Section clients.
Context {S : Type} (do_ : Request → S → S * HttpOutcome).

(** kvclient.doOnce: the status is not looked at. *)
Definition doOnce `{!Json HTTPRequest} `{!Json HTTPResponse} (addr : string) (req : HTTPRequest) (s : S) :
    S * (HTTPResponse + string) :=
  match json_marshal req with
  | None => (s, inr "json")
  | Some body =>
      let '(s', out) := do_ (mkRequest "POST" (String.append addr "/kv") body) s in
      (s', match out with
           | HttpFailed e => inr e
           | HttpGot _ raw => match json_unmarshal raw with None => inr "decode response" | Some r => inl r end
           end)
  end.

(** gateway.pickWorker *)
Definition pickWorker `{!JsonStream WorkerInfo} (controllerURL : string) (s : S) : S * (WorkerInfo + string) :=
  let '(s', out) := do_ (mkRequest "GET" (String.append controllerURL "/workers/best") EmptyString) s in
  (s', match out with
       | HttpFailed e => inr e
       | HttpGot status body =>
           if negb (status =? 200)%Z then inr (String.append "controller: " (Status status))
           else match json_decode body with None => inr "json" | Some winfo => inl winfo end
       end).

(** gateway.forwardToWorker; the error of Marshal is dropped. *)
Definition worker_url (w : WorkerInfo) : string := String.append "http://" (String.append (ip_port w) "/v1/chat/completions").

Definition forwardToWorker `{!Json ChatRequest} `{!JsonStream ChatResponse} (w : WorkerInfo) (prompt : string) (s : S) :
    S * jobResult :=
  let reqBody := default EmptyString (json_marshal (mkChatRequest prompt EmptyString [] 0)) in
  let '(s', out) := do_ (mkRequest "POST" (worker_url w) reqBody) s in
  (s', match out with
       | HttpFailed e => inr e
       | HttpGot status raw =>
           if negb (status =? 200)%Z
           then inr (String.append "worker " (String.append (w_ID w) (String.append ": " (String.append (Status status)
                 (String.append " (" (String.append raw ")"))))))
           else match json_decode raw with None => inr "json" | Some out => inl out end
       end).

(** cmd/worker: postJSON, register, heartbeat.  [None] is success. *)
Definition postJSON {A} `{Json A} (url : string) (body : A) (s : S) : S * option string :=
  match json_marshal body with
  | None => (s, Some "json")
  | Some data =>
      let '(s', out) := do_ (mkRequest "POST" url data) s in
      (s', match out with
           | HttpFailed e => Some e
           | HttpGot status _ =>
               if (status <? 200)%Z || (status >=? 300)%Z then Some (String.append "http " (Status status)) else None
           end)
  end.

Definition register `{!Json WorkerInfo} (base : string) (info : WorkerInfo) (s : S) : S * option string :=
  postJSON (String.append base "/workers/register") info s.

Definition heartbeat `{!Json WorkerInfo} (base : string) (info : WorkerInfo) (s : S) : S * option string :=
  postJSON (String.append base "/workers/heartbeat") info s.

(** heartbeatLoop for [ticks] ticks: a failed heartbeat is only logged. *)
Fixpoint heartbeatLoop `{!Json WorkerInfo} (ticks : nat) (base : string) (info : WorkerInfo) (s : S) : S :=
  match ticks with 0 => s | Datatypes.S ticks => heartbeatLoop ticks base info (heartbeat base info s).1 end.

(** VLLMBackend.Health.  [None] is healthy. *)
Definition VLLMBackend_Health (b : VLLMBackend) (s : S) : S * option string :=
  let '(s', out) := do_ (mkRequest "GET" (String.append (v_BaseURL b) "/v1/models") EmptyString) s in
  (s', match out with
       | HttpFailed e => Some e
       | HttpGot status raw =>
           if negb (status =? 200)%Z
           then Some (String.append "vllm health: " (String.append (Status status) (String.append " " (TrimSpace raw)))) else None
       end).
End clients.

(** ** Backends and the worker program *)

Definition NewVLLMBackend (baseURL model : string) (maxTokens : Z) (workerID : string) : VLLMBackend :=
  mkVLLMBackend (TrimRight_slash baseURL) model maxTokens workerID.

Inductive Backend := MockBackend (workerID : string) (delay : Z) | VLLM (b : VLLMBackend).

(** main.buildBackend *)
Definition buildBackend (kind vllmURL model : string) (maxTokens : Z) (workerID : string) : Backend + string :=
  if bool_decide (kind = BackendMock) then inl (MockBackend workerID 0)
  else if bool_decide (kind = BackendVLLM) then inl (VLLM (NewVLLMBackend vllmURL model maxTokens workerID))
  else inr (String.append "unknown backend " kind).

(** The Health method of the interface; a mock backend is always ready. *)
Definition Health {S} (do_ : Request → S → S * HttpOutcome) (b : Backend) (s : S) : S * option string :=
  match b with MockBackend _ _ => (s, None) | VLLM b => VLLMBackend_Health do_ b s end.

(** 0.1 *)
Definition f_tenth : float64 := S754_finite false 7205759403792794 (-56).

(** The record that main makes from the flags; [make] panics on a negative length. *)
Definition main_info (ip : string) (port : Z) (status : WorkerStatus) (gpus : Z) : option WorkerInfo :=
  if (gpus <? 0)%Z then None
  else Some (EnsureID (mkWorkerInfo EmptyString ip port
         ((λ i, mkGPUInfo i "mock-gpu" 24576 f_tenth) <$> seqZ 0 gpus) status)).

(** main of cmd/worker up to the start of its server: [checks] are the health
    checks of WaitForBackend; [inr] is log.Fatal. *)
Definition worker_main {S} (do_ : Request → S → S * HttpOutcome) `{!Json WorkerInfo}
    (controllerURL ip : string) (port : Z) (status : WorkerStatus) (gpus : Z) (backendType vllmURL model : string) (maxTokens : Z)
    (checks : list (option string * bool)) (s : S) : option (S * ((WorkerInfo * Backend * Pool) + string)) :=
  info ← main_info ip port status gpus;
  match buildBackend backendType vllmURL model maxTokens (w_ID info) with
  | inr e => Some (s, inr e)
  | inl backend =>
      ready ← WaitForBackend checks;
      match ready with
      | inr e => Some (s, inr (String.append "backend not ready: " e))
      | inl _ =>
          let '(s', err) := register do_ controllerURL info s in
          Some (s', match err with
                    | Some e => inr (String.append "register: " e)
                    | None => inl (info, backend, NewPool (w_ID info) gpus)
                    end)
      end
  end.
