(* ===== verification/Bitset.v ===== *)
(** * Bit sets of the linearizability checker (porcupine/bitset.go)

    A [bitset] is a slice of 64-bit words; positions are unsigned.  Words are
    [Z] in [0, 2^64), and an index outside the slice is a Go panic ([None]).
    The bit set is shown to implement finite sets of positions. *)

From S2P Require Import Prelude.

Abbreviation bitset := (list Z).

Definition word_ok (v : Z) : Prop := (0 ≤ v < 2 ^ 64)%Z.
Definition bitset_ok (b : bitset) : Prop := Forall word_ok b.

Definition newBitset (bits : Z) : bitset :=
  let extra := if negb (bits mod 64 =? 0)%Z then 1%Z else 0%Z in
  replicate (Z.to_nat (bits / 64 + extra)) 0%Z.

(** A fresh slice with the same words. *)
Definition bitset_clone (b : bitset) : bitset := take (length b) b.

Definition bitsetIndex (pos : Z) : Z * Z := (pos / 64, pos mod 64)%Z.

(** [b[major] |= (1 << minor)] *)
Definition bitset_set (pos : Z) (b : bitset) : option bitset :=
  let '(major, minor) := bitsetIndex pos in
  v ← go_nth b major; go_set b major (Z.lor v (Z.shiftl 1 minor)).

(** [b[major] &^= (1 << minor)] *)
Definition bitset_clear (pos : Z) (b : bitset) : option bitset :=
  let '(major, minor) := bitsetIndex pos in
  v ← go_nth b major; go_set b major (Z.ldiff v (Z.shiftl 1 minor)).

(** [b[major] & (1 << minor) != 0] *)
Definition bitset_get (pos : Z) (b : bitset) : option bool :=
  let '(major, minor) := bitsetIndex pos in
  v ← go_nth b major; Some (negb (Z.land v (Z.shiftl 1 minor) =? 0)%Z).

(** [bits.OnesCount64] *)
Definition OnesCount64 (v : Z) : Z := zlen (filter (λ i, Z.testbit v i = true) (seqZ 0 64)).

Definition popcnt (b : bitset) : Z := foldl (λ total v, total + OnesCount64 v)%Z 0%Z b.

Definition bitset_hash (b : bitset) : Z := foldl Z.lxor (popcnt b) b.

(** [for i := range b]: the loop over two slices of one length. *)
Fixpoint equal_words (b b2 : bitset) : bool :=
  match b, b2 with
  | v :: b', w :: b2' => if negb (v =? w)%Z then false else equal_words b' b2'
  | _, _ => true
  end.

Definition bitset_equals (b b2 : bitset) : bool :=
  if negb (zlen b =? zlen b2)%Z then false else equal_words b b2.

(** ** The set a bit set stands for *)

Definition in_range (p : Z) (b : bitset) : Prop := (0 ≤ p < 64 * zlen b)%Z.

Definition bit (b : bitset) (p : Z) : bool :=
  match b !! Z.to_nat (p / 64) with Some v => Z.testbit v (p mod 64) | None => false end.

Definition members (b : bitset) : gset Z :=
  list_to_set (filter (λ p, bit b p = true) (seqZ 0 (64 * zlen b))).

Lemma elem_of_members p b : p ∈ members b ↔ in_range p b ∧ bit b p = true.
Proof.
  unfold members, in_range. rewrite elem_of_list_to_set, list_elem_of_filter, elem_of_seqZ.
  intuition lia.
Qed.

(** The word of a position in range. *)
Lemma word_at p b : in_range p b →
  ∃ v, b !! Z.to_nat (p / 64) = Some v ∧ go_nth b (p / 64) = Some v ∧
       (0 ≤ p / 64 < zlen b)%Z ∧ (0 ≤ p mod 64 < 64)%Z.
Proof.
  unfold in_range. intros Hp.
  assert (0 ≤ p / 64 < zlen b)%Z as Hw
    by (split; [apply Z.div_pos; lia|apply Z.div_lt_upper_bound; lia]).
  destruct (go_nth_is_Some b (p / 64) Hw) as [v Hv]. exists v.
  pose proof (proj1 (go_nth_Some _ _ _) Hv) as [_ Hl].
  split_and!; try done; try lia; apply Z.mod_pos_bound; lia.
Qed.

Lemma same_position p q :
  (0 ≤ p)%Z → (0 ≤ q)%Z → Z.to_nat (p / 64) = Z.to_nat (q / 64) → (p mod 64 = q mod 64)%Z → p = q.
Proof.
  intros Hp Hq Hd Hm. pose proof (Z.div_pos p 64 Hp ltac:(lia)).
  pose proof (Z.div_pos q 64 Hq ltac:(lia)).
  rewrite (Z.div_mod p 64), (Z.div_mod q 64) by lia. lia.
Qed.

(** Both updates change one word at one bit. *)
Lemma bit_update p q b v w :
  in_range p b → (0 ≤ q)%Z → b !! Z.to_nat (p / 64) = Some v →
  (∀ i, (0 ≤ i < 64)%Z → i ≠ (p mod 64)%Z → Z.testbit w i = Z.testbit v i) →
  bit (<[Z.to_nat (p / 64) := w]> b) q =
    (if bool_decide (p = q) then Z.testbit w (p mod 64) else bit b q).
Proof.
  intros Hp Hq Hv Hw. unfold bit. pose proof (lookup_lt_Some _ _ _ Hv) as Hlt.
  case_bool_decide as Heq.
  - subst q. by rewrite list_lookup_insert_eq.
  - destruct (decide (Z.to_nat (p / 64) = Z.to_nat (q / 64))) as [Hd|Hd].
    + rewrite <- Hd, list_lookup_insert_eq, Hv by done. apply Hw; [apply Z.mod_pos_bound; lia|].
      intros Hm. apply Heq. apply same_position; [apply Hp|done|done|done].
    + by rewrite list_lookup_insert_ne.
Qed.

Lemma shift_bit i j : (0 ≤ i)%Z → (0 ≤ j)%Z → Z.testbit (Z.shiftl 1 j) i = bool_decide (i = j).
Proof.
  intros Hi Hj. rewrite Z.shiftl_spec by done. case_bool_decide as Heq.
  - subst. by rewrite Z.sub_diag.
  - destruct (decide (i < j)%Z); [by rewrite Z.testbit_neg_r by lia|].
    apply Z.bits_above_log2; simpl; lia.
Qed.

Lemma land_shift v j : (0 ≤ j)%Z → negb (Z.land v (Z.shiftl 1 j) =? 0)%Z = Z.testbit v j.
Proof.
  intros Hj. rewrite Z.shiftl_1_l. destruct (Z.testbit v j) eqn:Hb.
  - apply negb_true_iff, Z.eqb_neq. intros H0.
    assert (Z.testbit (Z.land v (2 ^ j)) j = false) as H by by rewrite H0, Z.bits_0.
    rewrite Z.land_spec, Hb, Z.pow2_bits_true in H by done. done.
  - apply negb_false_iff, Z.eqb_eq, Z.bits_inj'. intros i Hi.
    rewrite Z.land_spec, Z.bits_0. destruct (decide (i = j)) as [->|Hne]; [by rewrite Hb|].
    by rewrite Z.pow2_bits_false, andb_false_r by done.
Qed.

(** Words stay in 64 bits. *)
Lemma word_ok_bits v : word_ok v ↔ (0 ≤ v)%Z ∧ ∀ i, (64 ≤ i)%Z → Z.testbit v i = false.
Proof.
  unfold word_ok. split.
  - intros Hv. split; [lia|]. intros i Hi. rewrite <- (Z.mod_small v (2 ^ 64)) by lia.
    apply Z.mod_pow2_bits_high. lia.
  - intros [Hv Hb]. split; [done|]. assert (v mod 2 ^ 64 = v)%Z as <-.
    + apply Z.bits_inj'. intros i Hi. destruct (decide (i < 64)%Z).
      * by rewrite Z.mod_pow2_bits_low.
      * rewrite Z.mod_pow2_bits_high by lia. by rewrite Hb by lia.
    + apply Z.mod_pos_bound. lia.
Qed.

Lemma set_word_ok v j : word_ok v → (0 ≤ j < 64)%Z → word_ok (Z.lor v (Z.shiftl 1 j)).
Proof.
  rewrite !word_ok_bits. intros [Hv Hb] Hj. split.
  - apply Z.lor_nonneg. split; [done|]. apply Z.shiftl_nonneg. lia.
  - intros i Hi. rewrite Z.lor_spec, Hb, shift_bit, bool_decide_false by lia. done.
Qed.

Lemma clear_word_ok v j : word_ok v → word_ok (Z.ldiff v (Z.shiftl 1 j)).
Proof.
  rewrite !word_ok_bits. intros [Hv Hb]. split.
  - apply Z.ldiff_nonneg. by left.
  - intros i Hi. by rewrite Z.ldiff_spec, Hb.
Qed.

Lemma in_range_insert p b k w : in_range p (<[k := w]> b) ↔ in_range p b.
Proof. unfold in_range. by rewrite zlen_insert. Qed.

Lemma set_spec p b :
  bitset_ok b → in_range p b →
  ∃ b', bitset_set p b = Some b' ∧ bitset_ok b' ∧ zlen b' = zlen b ∧
        members b' = {[p]} ∪ members b.
Proof.
  intros Hok Hp. destruct (word_at p b Hp) as (v & Hv & Hg & Hw & Hm).
  unfold bitset_set, bitsetIndex. rewrite Hg. cbn [mbind option_bind].
  rewrite go_set_ok by done. eexists. split; [done|].
  split; [apply Forall_insert; [done|apply set_word_ok; [|done]; by eapply Forall_lookup_1]|].
  split; [apply zlen_insert|]. apply set_eq. intros q.
  rewrite elem_of_union, elem_of_singleton, !elem_of_members, in_range_insert.
  assert ((0 ≤ q)%Z → bit (<[Z.to_nat (p / 64) := Z.lor v (Z.shiftl 1 (p mod 64))]> b) q =
    (if bool_decide (p = q) then true else bit b q)) as Hb.
  { intros Hq. rewrite (bit_update p q b v) by
      (done || (intros i Hi Hne; rewrite Z.lor_spec, shift_bit, bool_decide_false by lia;
                by rewrite orb_false_r)).
    case_bool_decide; [|done]. rewrite Z.lor_spec, shift_bit, bool_decide_true by lia.
    by rewrite orb_true_r. }
  split.
  - intros [Hr Hq]. rewrite Hb in Hq by apply Hr. case_bool_decide; auto.
  - intros [->|[Hr Hq]]; [split; [done|]|split; [done|]].
    + rewrite Hb by apply Hp. by rewrite bool_decide_true.
    + rewrite Hb by apply Hr. by case_bool_decide.
Qed.

Lemma clear_spec p b :
  bitset_ok b → in_range p b →
  ∃ b', bitset_clear p b = Some b' ∧ bitset_ok b' ∧ zlen b' = zlen b ∧
        members b' = members b ∖ {[p]}.
Proof.
  intros Hok Hp. destruct (word_at p b Hp) as (v & Hv & Hg & Hw & Hm).
  unfold bitset_clear, bitsetIndex. rewrite Hg. cbn [mbind option_bind].
  rewrite go_set_ok by done. eexists. split; [done|].
  split; [apply Forall_insert; [done|apply clear_word_ok; by eapply Forall_lookup_1]|].
  split; [apply zlen_insert|]. apply set_eq. intros q.
  rewrite elem_of_difference, elem_of_singleton, !elem_of_members, in_range_insert.
  assert ((0 ≤ q)%Z → bit (<[Z.to_nat (p / 64) := Z.ldiff v (Z.shiftl 1 (p mod 64))]> b) q =
    (if bool_decide (p = q) then false else bit b q)) as Hb.
  { intros Hq. rewrite (bit_update p q b v) by
      (done || (intros i Hi Hne; rewrite Z.ldiff_spec, shift_bit, bool_decide_false by lia;
                by rewrite andb_true_r)).
    case_bool_decide; [|done]. rewrite Z.ldiff_spec, shift_bit, bool_decide_true by lia.
    by rewrite andb_false_r. }
  split.
  - intros [Hr Hq]. rewrite Hb in Hq by apply Hr. case_bool_decide; [done|]. auto.
  - intros [[Hr Hq] Hne]. split; [done|]. rewrite Hb by apply Hr. by rewrite bool_decide_false.
Qed.

Lemma get_spec p b : in_range p b → bitset_get p b = Some (bool_decide (p ∈ members b)).
Proof.
  intros Hp. destruct (word_at p b Hp) as (v & Hv & Hg & Hw & Hm).
  unfold bitset_get, bitsetIndex. rewrite Hg. cbn [mbind option_bind].
  rewrite land_shift by lia. f_equal. apply eq_bool_prop_intro.
  rewrite bool_decide_spec, elem_of_members. unfold bit. rewrite Hv.
  split; [by intros H%Is_true_true|intros [_ H]; by apply Is_true_true].
Qed.

Lemma bit_snoc_low b v p : in_range p b → bit (b ++ [v]) p = bit b p.
Proof.
  intros Hp. destruct (word_at p b Hp) as (w & Hw & _). unfold bit.
  by rewrite lookup_app_l by (by eapply lookup_lt_Some).
Qed.

Lemma bit_snoc_high b v i :
  (0 ≤ i < 64)%Z → bit (b ++ [v]) (64 * zlen b + i) = Z.testbit v i.
Proof.
  intros Hi. unfold bit. replace ((64 * zlen b + i) / 64)%Z with (zlen b).
  - unfold zlen. rewrite Nat2Z.id, list_lookup_middle by done. f_equal.
    rewrite Z.add_comm, Z.mul_comm, Z.mod_add, Z.mod_small by lia. done.
  - rewrite Z.mul_comm, Z.div_add_l by lia. rewrite Z.div_small by lia. lia.
Qed.

Lemma filter_len_ext {A} (P Q : A → Prop) `{!∀ x, Decision (P x)} `{!∀ x, Decision (Q x)} l :
  (∀ x, x ∈ l → P x ↔ Q x) → zlen (filter P l) = zlen (filter Q l).
Proof.
  induction l as [|x l IH]; intros Hl; [done|]. rewrite !filter_cons.
  assert (P x ↔ Q x) as Hx by (apply Hl; set_solver).
  specialize (IH ltac:(set_solver)).
  destruct (decide (P x)), (decide (Q x)); rewrite ?zlen_cons; tauto || congruence.
Qed.

Lemma filter_fmap_len {A B} (f : A → B) (P : B → Prop) `{!∀ x, Decision (P x)} l :
  zlen (filter P (f <$> l)) = zlen (filter (λ x, P (f x)) l).
Proof.
  induction l as [|x l IH]; [done|]. rewrite fmap_cons, !filter_cons.
  destruct (decide (P (f x))); rewrite ?zlen_cons; congruence.
Qed.

Lemma popcnt_spec b : popcnt b = Z.of_nat (size (members b)).
Proof.
  unfold members. rewrite size_list_to_set by (apply list.NoDup_filter, NoDup_seqZ).
  fold (zlen (filter (λ p, bit b p = true) (seqZ 0 (64 * zlen b)))).
  induction b as [|v b IH] using rev_ind; [done|].
  unfold popcnt. rewrite foldl_snoc. fold (popcnt b). rewrite IH.
  replace (64 * zlen (b ++ [v]))%Z with (64 * zlen b + 64)%Z
    by (rewrite (zlen_app b [v]); change (zlen [v]) with 1%Z; lia).
  rewrite seqZ_app by (pose proof (zlen_nonneg b); lia). rewrite list.filter_app.
  rewrite (zlen_app (filter (λ p, bit (b ++ [v]) p = true) (seqZ 0 (64 * zlen b)))). f_equal.
  - apply filter_len_ext. intros p Hp%elem_of_seqZ.
    rewrite bit_snoc_low; [done|]. unfold in_range. lia.
  - unfold OnesCount64. rewrite Z.add_0_l.
    replace (seqZ (64 * zlen b) 64) with (Z.add (64 * zlen b) <$> seqZ 0 64)
      by (rewrite fmap_add_seqZ; f_equal; lia).
    rewrite filter_fmap_len. symmetry. apply filter_len_ext. intros i Hi%elem_of_seqZ.
    rewrite bit_snoc_high; [done|lia].
Qed.

Lemma equal_words_eq b b2 : zlen b = zlen b2 → equal_words b b2 = true ↔ b = b2.
Proof.
  unfold zlen. revert b2. induction b as [|v b IH]; intros [|w b2] Hl; simpl in *; try lia; [done|].
  destruct (v =? w)%Z eqn:E; b2p; simpl; [|split; [done|congruence]].
  rewrite IH by lia. split; [by intros ->; subst|by intros [= _ ->]].
Qed.

Lemma equals_eq b b2 : bitset_equals b b2 = true ↔ b = b2.
Proof.
  unfold bitset_equals. destruct (zlen b =? zlen b2)%Z eqn:E; b2p; simpl.
  - by apply equal_words_eq.
  - split; [done|]. by intros ->.
Qed.

(** Two bit sets of one size with the same members are the same words. *)
Lemma members_inj b b2 :
  bitset_ok b → bitset_ok b2 → zlen b = zlen b2 → members b = members b2 → b = b2.
Proof.
  intros Hb Hb2 Hl Hm. apply list_eq. intros k.
  destruct (b !! k) as [v|] eqn:Hv; destruct (b2 !! k) as [w|] eqn:Hw; try done.
  - f_equal. apply Z.bits_inj'. intros i Hi. destruct (decide (i < 64)%Z) as [Hlt|Hge].
    + set (p := (64 * Z.of_nat k + i)%Z).
      assert (p / 64 = Z.of_nat k ∧ p mod 64 = i)%Z as [Hd Hmod].
      { unfold p. rewrite Z.add_comm, Z.mul_comm. split.
        - rewrite Z.div_add by lia. rewrite Z.div_small by lia. lia.
        - rewrite Z.mod_add by lia. by apply Z.mod_small. }
      assert (in_range p b) as Hr by (apply lookup_lt_Some in Hv; unfold in_range, p, zlen; lia).
      assert (p ∈ members b ↔ p ∈ members b2) as Hiff by by rewrite Hm.
      rewrite !elem_of_members in Hiff. unfold bit in Hiff.
      rewrite Hd, Nat2Z.id, Hv, Hw, Hmod in Hiff. unfold in_range in *. rewrite <- Hl in Hiff.
      apply eq_true_iff_eq. tauto.
    + rewrite (proj2 (proj1 (word_ok_bits v) (Forall_lookup_1 _ _ _ _ Hb Hv))) by lia.
      by rewrite (proj2 (proj1 (word_ok_bits w) (Forall_lookup_1 _ _ _ _ Hb2 Hw))) by lia.
  - apply lookup_lt_Some in Hv. apply lookup_ge_None in Hw. unfold zlen in Hl. lia.
  - apply lookup_lt_Some in Hw. apply lookup_ge_None in Hv. unfold zlen in Hl. lia.
Qed.

(** The bit set implements finite sets: on positions in range, [set],
    [clear] and [get] return, keep words in 64 bits, and are insertion,
    removal and membership; [popcnt] is the number of members, and [equals]
    holds exactly when two bit sets of one size have the same members. *)
Theorem bitset_is_set b b2 p :
  bitset_ok b → bitset_ok b2 → zlen b2 = zlen b → in_range p b →
  (∃ b', bitset_set p b = Some b' ∧ bitset_ok b' ∧ zlen b' = zlen b ∧
         members b' = {[p]} ∪ members b) ∧
  (∃ b', bitset_clear p b = Some b' ∧ bitset_ok b' ∧ zlen b' = zlen b ∧
         members b' = members b ∖ {[p]}) ∧
  bitset_get p b = Some (bool_decide (p ∈ members b)) ∧
  popcnt b = Z.of_nat (size (members b)) ∧
  (bitset_equals b b2 = true ↔ members b = members b2).
Proof.
  intros Hb Hb2 Hl Hp.
  split; [by apply set_spec|]. split; [by apply clear_spec|]. split; [by apply get_spec|].
  split; [apply popcnt_spec|]. rewrite equals_eq.
  split; [by intros ->|]. intros Hm. by apply members_inj.
Qed.

Lemma newBitset_ok n : (0 ≤ n)%Z →
  bitset_ok (newBitset n) ∧ members (newBitset n) = ∅ ∧ (n ≤ 64 * zlen (newBitset n))%Z.
Proof.
  intros Hn. unfold newBitset. set (k := Z.to_nat _). split_and!.
  - apply Forall_replicate. unfold word_ok. lia.
  - apply set_eq. intros p. rewrite elem_of_members, elem_of_empty. split; [|done].
    intros [_ Hb]. unfold bit in Hb.
    destruct (replicate k 0%Z !! Z.to_nat (p / 64)) eqn:Hr; [|done].
    apply lookup_replicate in Hr as [-> _]. by rewrite Z.bits_0 in Hb.
  - unfold zlen, k. rewrite length_replicate.
    pose proof (Z.div_mod n 64 ltac:(lia)). pose proof (Z.mod_pos_bound n 64 ltac:(lia)).
    pose proof (Z.div_pos n 64 Hn ltac:(lia)).
    destruct (n mod 64 =? 0)%Z eqn:E; b2p; simpl; lia.
Qed.

Lemma bitset_is_set_witness :
  ∃ b', bitset_set 70 (newBitset 100) = Some b' ∧ members b' = {[70%Z]} ∪ members (newBitset 100) ∧
        popcnt b' = 1%Z.
Proof.
  destruct (newBitset_ok 100 ltac:(lia)) as (Hok & _ & Hl).
  destruct (bitset_is_set (newBitset 100) (newBitset 100) 70 Hok Hok eq_refl)
    as ((b' & H1 & _ & _ & H2) & _).
  - split; vm_compute; [discriminate|reflexivity].
  - exists b'. split; [exact H1|]. split; [exact H2|].
    vm_compute in H1. injection H1 as <-. vm_compute. reflexivity.
Defined.
