(* ===== verification/PorcupineModel.v ===== *)
(** * Histories and models of the linearizability checker (porcupine/model.go)

    Inputs, outputs and states are Go's [interface{}]: types with a nil value
    ([Interface]).  The functions of a [Model] are Go function values: [None]
    is a nil function, and a function that asserts the dynamic type of its
    argument can panic, so it returns an [option].  [legal] and [linearizable]
    are what the checker decides. *)

From S2P Require Import Prelude.

Class Interface (V : Type) := nil_value : V.

Record Operation (V : Type) := MkOperation {
  op_ClientId : Z;
  op_Input : V;
  op_Call : Z;
  op_Output : V;
  op_Return : Z
}.

Inductive EventKind := CallEvent | ReturnEvent.

#[export] Instance EventKind_eq_dec : EqDecision EventKind.
Proof. solve_decision. Defined.

Record Event (V : Type) := MkEvent {
  ev_ClientId : Z;
  ev_Kind : EventKind;
  ev_Value : V;
  ev_Id : Z
}.

Arguments MkOperation {V}.
Arguments op_ClientId {V}.
Arguments op_Input {V}.
Arguments op_Call {V}.
Arguments op_Output {V}.
Arguments op_Return {V}.
Arguments MkEvent {V}.
Arguments ev_ClientId {V}.
Arguments ev_Kind {V}.
Arguments ev_Value {V}.
Arguments ev_Id {V}.

Record Model (V St : Type) := MkModel {
  Partition : option (list (Operation V) → option (list (list (Operation V))));
  PartitionEvent : option (list (Event V) → option (list (list (Event V))));
  Init : St;
  Step : St → V → V → option (bool * St);
  Equal : option (St → St → bool)
}.

Arguments MkModel {V St}.
Arguments Partition {V St}.
Arguments PartitionEvent {V St}.
Arguments Init {V St}.
Arguments Step {V St}.
Arguments Equal {V St}.

Definition NoPartition {V} (history : list (Operation V)) : list (list (Operation V)) := [history].
Definition NoPartitionEvent {V} (history : list (Event V)) : list (list (Event V)) := [history].

(** [==] on comparable values *)
Definition ShallowEqual {St} `{EqDecision St} (state1 state2 : St) : bool := bool_decide (state1 = state2).

Inductive CheckResult := Unknown | Ok | Illegal.

#[export] Instance CheckResult_eq_dec : EqDecision CheckResult.
Proof. solve_decision. Defined.

(** fillDefault of checker.go, without the two functions that describe
    operations and states for the visualization. *)
Definition fillDefault {V St} `{EqDecision St} (model : Model V St) : Model V St :=
  MkModel
    (Some (default (λ h, Some (NoPartition h)) (Partition model)))
    (Some (default (λ h, Some (NoPartitionEvent h)) (PartitionEvent model)))
    (Init model)
    (Step model)
    (Some (default ShallowEqual (Equal model))).

(** ** What the checker decides *)

Section spec.
Context {V St : Type} (model : Model V St).

(** The operations [l] (input and output), run one after the other. *)
Fixpoint legal (s : St) (l : list (V * V)) : option St :=
  match l with
  | [] => Some s
  | (inp, out) :: l =>
      match Step model s inp out with Some (true, s') => legal s' l | _ => None end
  end.

Lemma legal_app s l1 l2 : legal s (l1 ++ l2) = legal s l1 ≫= λ s', legal s' l2.
Proof.
  revert s. induction l1 as [|[i o] l1 IH]; intros s; simpl; [done|].
  destruct (Step model s i o) as [[[] ?]|]; simpl; auto.
Qed.

(** An order of the operations of a history, given by their positions, that
    the model can run and in which no operation comes before one that had
    returned when it was called. *)
Definition linearization (history : list (Operation V)) (l : list nat) : Prop :=
  l ≡ₚ seq 0 (length history) ∧
  (∀ i j a b, [i; j] `sublist_of` l → history !! i = Some a → history !! j = Some b →
     (op_Call a ≤ op_Return b)%Z) ∧
  ∃ ops, mapM (λ i, history !! i) l = Some ops ∧
         is_Some (legal (Init model) ((λ o, (op_Input o, op_Output o)) <$> ops)).

(** A prefix of such an order: distinct operations in an order as above, with
    every operation that had returned when one of them was called. *)
Definition partial_linearization (history : list (Operation V)) (l : list nat) : Prop :=
  NoDup l ∧
  (∀ i j a b, [i; j] `sublist_of` l → history !! i = Some a → history !! j = Some b →
     (op_Call a ≤ op_Return b)%Z) ∧
  (∀ i j a b, i ∈ l → history !! i = Some a → history !! j = Some b →
     (op_Return b < op_Call a)%Z → j ∈ l) ∧
  ∃ ops, mapM (λ i, history !! i) l = Some ops ∧
         is_Some (legal (Init model) ((λ o, (op_Input o, op_Output o)) <$> ops)).

Definition linearizable (history : list (Operation V)) : Prop := ∃ l, linearization history l.
End spec.

(** ** Histories of events *)

(** Each identifier has one call and one later return. *)
Record wf_events {V} (es : list (Event V)) : Prop := {
  we_nodup : NoDup ((λ e, (ev_Kind e, ev_Id e)) <$> es);
  we_pair : ∀ e, e ∈ es → ∃ x y, [x; y] `sublist_of` es ∧ ev_Kind x = CallEvent ∧ ev_Kind y = ReturnEvent ∧
    ev_Id x = ev_Id e ∧ ev_Id y = ev_Id e
}.

Section events.
Context {V St : Type} (model : Model V St) (es : list (Event V)).

(** Operation [i] has this input and output. *)
Definition ev_op (i : Z) (inp out : V) : Prop :=
  ∃ x y, x ∈ es ∧ y ∈ es ∧ ev_Kind x = CallEvent ∧ ev_Kind y = ReturnEvent ∧ ev_Id x = i ∧ ev_Id y = i ∧
         ev_Value x = inp ∧ ev_Value y = out.

(** [j] returns before [i] is called. *)
Definition ev_precedes (j i : Z) : Prop :=
  ∃ x y, [x; y] `sublist_of` es ∧ ev_Kind x = ReturnEvent ∧ ev_Id x = j ∧ ev_Kind y = CallEvent ∧ ev_Id y = i.

Definition events_linearization (l : list Z) : Prop :=
  NoDup l ∧
  (∀ i, i ∈ l ↔ ∃ e, e ∈ es ∧ ev_Id e = i) ∧
  (∀ i j, [i; j] `sublist_of` l → ¬ ev_precedes j i) ∧
  ∃ ios, Forall2 (λ i io, ev_op i io.1 io.2) l ios ∧ is_Some (legal model (Init model) ios).

Definition events_linearizable : Prop := ∃ l, events_linearization l.
End events.

(** What the checker relies on: [Step] does not panic on the operations of the
    history, and equal states can make the same steps to equal states. *)
Definition steps_total {V St} (model : Model V St) (ops : list (V * V)) : Prop :=
  ∀ s i o, (i, o) ∈ ops → is_Some (Step model s i o).

Definition equal_ok {V St} (model : Model V St) (eqf : St → St → bool) : Prop :=
  ∀ s1 s2 i o t1, eqf s1 s2 = true → Step model s1 i o = Some (true, t1) →
    ∃ t2, Step model s2 i o = Some (true, t2) ∧ eqf t1 t2 = true.

(** [ShallowEqual] always qualifies. *)
Lemma ShallowEqual_ok {V St} `{EqDecision St} (model : Model V St) : equal_ok model ShallowEqual.
Proof.
  intros s1 s2 i o t1 H%bool_decide_eq_true Hs. subst. exists t1. split; [done|].
  by apply bool_decide_eq_true.
Qed.
