(* ===== verification/PorcupineList.v ===== *)
(** * The linked history of the linearizability checker (porcupine/checker.go)

    The checker keeps the calls and returns that are not linearized yet in a
    doubly linked list of [node]s and takes an operation out and puts it back
    in place ([lift], [unlift]).  Nodes live in a heap, the list of allocated
    nodes; a pointer is [option nat] with [None] for nil, and reading or
    writing through nil is a panic ([None]).  [dls] says that a list of
    addresses is linked; [lift_unlift] is the correctness of the two
    operations, and [makeLinkedEntries_ok] that of the construction. *)

From S2P Require Import Prelude.

Inductive entryKind := callEntry | returnEntry.

#[export] Instance entryKind_eq_dec : EqDecision entryKind.
Proof. solve_decision. Defined.

(** Values are Go's [interface{}]: any type [V]. *)
Record entry (V : Type) := Entry {
  e_kind : entryKind;
  e_value : V;
  e_id : Z;
  e_time : Z;
  e_clientId : Z
}.

(** [n_match]: nil for a return entry, the return entry for a call. *)
Record node (V : Type) := Node {
  n_value : V;
  n_match : option nat;
  n_id : Z;
  n_next : option nat;
  n_prev : option nat
}.

Arguments Entry {V}.
Arguments e_kind {V}.
Arguments e_value {V}.
Arguments e_id {V}.
Arguments e_time {V}.
Arguments e_clientId {V}.
Arguments Node {V}.
Arguments n_value {V}.
Arguments n_match {V}.
Arguments n_id {V}.
Arguments n_next {V}.
Arguments n_prev {V}.

Abbreviation ptr := (option nat).
Abbreviation heap V := (list (node V)).

Section list_ops.
Context {V : Type}.
Implicit Types (h : heap V) (p q : ptr) (n : node V).

(** [*p] *)
Definition load h p : option (node V) := a ← p; h !! a.

(** [p.next = q] and [p.prev = q] *)
Definition set_next h p q : option (heap V) :=
  a ← p; n ← h !! a;
  Some (<[a := Node (n_value n) (n_match n) (n_id n) q (n_prev n)]> h).

Definition set_prev h p q : option (heap V) :=
  a ← p; n ← h !! a;
  Some (<[a := Node (n_value n) (n_match n) (n_id n) (n_next n) q]> h).

(** [&node{value: v, match: m, id: i}] *)
Definition alloc h (v : V) (m : ptr) (i : Z) : heap V * ptr :=
  (h ++ [Node v m i None None], Some (length h)).

(** Returns its first argument, which the caller keeps. *)
Definition insertBefore h p (mark : ptr) : option (heap V) :=
  match mark with
  | None => Some h
  | Some _ =>
      m ← load h mark;
      let beforeMark := n_prev m in
      h ← set_prev h mark p;
      h ← set_next h p mark;
      match beforeMark with
      | None => Some h
      | Some _ => h ← set_prev h p beforeMark; set_next h beforeMark p
      end
  end.

(** The walk of [length]; an acyclic list is shorter than the heap. *)
Fixpoint walk (fuel : nat) h p (l : Z) : option Z :=
  match p, fuel with
  | None, _ => Some l
  | Some _, O => None
  | Some _, S fuel => n ← load h p; walk fuel h (n_next n) (l + 1)
  end.

Definition list_length h p : option Z := walk (S (length h)) h p 0.

(** The loop of makeLinkedEntries runs from the last entry to the first: the
    state after the entries [es] is the recursive call on [es]. *)
Fixpoint linkEntries (es : list (entry V)) : option (heap V * ptr * gmap Z nat) :=
  match es with
  | [] => Some ([], None, ∅)
  | elem :: es =>
      '(h, root, mtch) ← linkEntries es;
      match e_kind elem with
      | returnEntry =>
          let '(h, p) := alloc h (e_value elem) None (e_id elem) in
          let mtch := match p with Some a => <[e_id elem := a]> mtch | None => mtch end in
          h ← insertBefore h p root; Some (h, p, mtch)
      | callEntry =>
          let '(h, p) := alloc h (e_value elem) (mtch !! e_id elem) (e_id elem) in
          h ← insertBefore h p root; Some (h, p, mtch)
      end
  end.

Definition makeLinkedEntries (entries : list (entry V)) : option (heap V * ptr) :=
  '(h, root, _) ← linkEntries entries; Some (h, root).

Definition lift h p : option (heap V) :=
  e ← load h p; h ← set_next h (n_prev e) (n_next e);
  e ← load h p; h ← set_prev h (n_next e) (n_prev e);
  e ← load h p; let m := n_match e in
  mt ← load h m; h ← set_next h (n_prev mt) (n_next mt);
  mt ← load h m;
  match n_next mt with
  | Some _ => set_prev h (n_next mt) (n_prev mt)
  | None => Some h
  end.

Definition unlift h p : option (heap V) :=
  e ← load h p; let m := n_match e in
  mt ← load h m; h ← set_next h (n_prev mt) m;
  mt ← load h m;
  h ← match n_next mt with
      | Some _ => set_prev h (n_next mt) m
      | None => Some h
      end;
  e ← load h p; h ← set_next h (n_prev e) p;
  e ← load h p; set_prev h (n_next e) p.

(** ** Linked lists of addresses *)

(** [l] is linked in both directions, after [pv] and before [nx]. *)
Fixpoint dls h (pv : ptr) (l : list nat) (nx : ptr) : Prop :=
  match l with
  | [] => True
  | a :: l => ∃ n, h !! a = Some n ∧ n_prev n = pv ∧
      n_next n = match l with [] => nx | b :: _ => Some b end ∧ dls h (Some a) l nx
  end.

Definition first_of (l : list nat) (nx : ptr) : ptr :=
  match l with [] => nx | b :: _ => Some b end.

Fixpoint last_of (pv : ptr) (l : list nat) : ptr :=
  match l with [] => pv | a :: l => last_of (Some a) l end.

(** What never changes in a node. *)
Definition contents h (a : nat) : option (V * ptr * Z) :=
  (λ n, (n_value n, n_match n, n_id n)) <$> h !! a.

Definition same_contents h h' : Prop := ∀ a, contents h' a = contents h a.

Lemma dls_app h pv l1 l2 nx :
  dls h pv (l1 ++ l2) nx ↔ dls h pv l1 (first_of l2 nx) ∧ dls h (last_of pv l1) l2 nx.
Proof.
  revert pv. induction l1 as [|a l1 IH]; intros pv; simpl; [tauto|].
  setoid_rewrite IH. destruct l1; simpl; naive_solver.
Qed.

(** A list keeps its links when other nodes change. *)
Lemma dls_frame h h' pv l nx :
  (∀ a, a ∈ l → h' !! a = h !! a) → dls h pv l nx → dls h' pv l nx.
Proof.
  revert pv. induction l as [|a l IH]; intros pv Hl; simpl; [done|].
  intros (n & Hn & ? & ? & Hr). exists n. rewrite Hl by set_solver.
  split_and!; try done. apply IH; [set_solver|done].
Qed.

Lemma dls_bound h pv l nx a : dls h pv l nx → a ∈ l → is_Some (h !! a).
Proof.
  revert pv. induction l as [|b l IH]; intros pv; simpl; [set_solver|].
  intros (n & Hn & _ & _ & Hr) [->|Ha]%elem_of_cons; [by eexists|by eapply IH].
Qed.

(** Changing the link before the list, or after it. *)
Lemma dls_set_prev h pv pv' a l nx n :
  NoDup (a :: l) → dls h pv (a :: l) nx → h !! a = Some n →
  dls (<[a := Node (n_value n) (n_match n) (n_id n) (n_next n) pv']> h) pv' (a :: l) nx.
Proof.
  intros [Hni _]%list.NoDup_cons (n' & Hn & ? & ? & Hr) Ha. simplify_eq. simpl.
  eexists. rewrite list_lookup_insert_eq by (by eapply lookup_lt_Some).
  split_and!; [done|done|done|]. apply (dls_frame h); [|done].
  intros b Hb. apply list_lookup_insert_ne. set_solver.
Qed.

Lemma dls_set_next h pv l a nx nx' n :
  NoDup (l ++ [a]) → dls h pv (l ++ [a]) nx → h !! a = Some n →
  dls (<[a := Node (n_value n) (n_match n) (n_id n) nx' (n_prev n)]> h) pv (l ++ [a]) nx'.
Proof.
  intros Hnd. rewrite !dls_app. simpl. intros (H1 & n' & Hn & ? & ? & _) Ha. simplify_eq.
  split.
  - apply (dls_frame h); [|done]. intros b Hb. apply list_lookup_insert_ne.
    apply list.NoDup_app in Hnd as (_ & Hd & _). intros ->. apply (Hd b); set_solver.
  - eexists. rewrite list_lookup_insert_eq by (by eapply lookup_lt_Some). done.
Qed.

Lemma list_lookup_insert_ne_Some h a b n n' : a ≠ b → h !! b = Some n → <[a := n']> h !! b = Some n.
Proof. intros. by rewrite list_lookup_insert_ne. Qed.

Lemma same_contents_insert h a n n' :
  h !! a = Some n → n_value n' = n_value n → n_match n' = n_match n → n_id n' = n_id n →
  same_contents h (<[a := n']> h).
Proof.
  intros Ha Hv Hm Hi b. unfold contents. destruct (decide (b = a)) as [->|Hb].
  - rewrite list_lookup_insert_eq by (by eapply lookup_lt_Some). rewrite Ha. simpl. congruence.
  - by rewrite list_lookup_insert_ne.
Qed.

Lemma same_contents_trans h1 h2 h3 :
  same_contents h1 h2 → same_contents h2 h3 → same_contents h1 h3.
Proof. intros H1 H2 a. by rewrite H2, H1. Qed.

Lemma insert_restore h a n n' : h !! a = Some n → <[a := n]> (<[a := n']> h) = h.
Proof. intros Ha. rewrite list_insert_insert_eq. by apply list_insert_id. Qed.

Lemma node_eta n v m i p q :
  n_value n = v → n_match n = m → n_id n = i → n_next n = p → n_prev n = q → Node v m i p q = n.
Proof. by destruct n; simpl; intros; subst. Qed.

Definition with_next n q : node V := Node (n_value n) (n_match n) (n_id n) q (n_prev n).
Definition with_prev n q : node V := Node (n_value n) (n_match n) (n_id n) (n_next n) q.

Lemma set_next_eq h a n q : h !! a = Some n → set_next h (Some a) q = Some (<[a := with_next n q]> h).
Proof. intros Ha. unfold set_next. simpl. by rewrite Ha. Qed.

Lemma set_prev_eq h a n q : h !! a = Some n → set_prev h (Some a) q = Some (<[a := with_prev n q]> h).
Proof. intros Ha. unfold set_prev. simpl. by rewrite Ha. Qed.

Lemma set_next_restore h a n q :
  h !! a = Some n → set_next (<[a := with_next n q]> h) (Some a) (n_next n) = Some h.
Proof.
  intros Ha. rewrite (set_next_eq _ _ (with_next n q))
    by (apply list_lookup_insert_eq; by eapply lookup_lt_Some).
  f_equal. etrans; [|by apply (insert_restore h a n (with_next n q))]. f_equal. by apply node_eta.
Qed.

Lemma set_prev_restore h a n q :
  h !! a = Some n → set_prev (<[a := with_prev n q]> h) (Some a) (n_prev n) = Some h.
Proof.
  intros Ha. rewrite (set_prev_eq _ _ (with_prev n q))
    by (apply list_lookup_insert_eq; by eapply lookup_lt_Some).
  f_equal. etrans; [|by apply (insert_restore h a n (with_prev n q))]. f_equal. by apply node_eta.
Qed.

Lemma last_of_snoc pv A b : last_of pv (A ++ [b]) = Some b.
Proof. revert pv. induction A; intros pv; simpl; auto. Qed.

(** The links around a node [a] that follows [b]. *)
Lemma neighbours h A b a C :
  NoDup ((A ++ [b]) ++ a :: C) → dls h None ((A ++ [b]) ++ a :: C) None →
  ∃ na nb, h !! a = Some na ∧ n_prev na = Some b ∧ n_next na = first_of C None ∧
    h !! b = Some nb ∧ n_next nb = Some a ∧ dls h None (A ++ [b]) (Some a) ∧
    dls h (Some a) C None ∧ b ≠ a ∧ (b ∉ C) ∧ (a ∉ C) ∧ NoDup (A ++ [b]) ∧ NoDup C ∧
    (∀ x, x ∈ A ++ [b] → x ∉ C).
Proof.
  intros Hnd Hl. apply dls_app in Hl as [HA HaC]. rewrite last_of_snoc in HaC.
  destruct HaC as (na & Hna & Hpv & Hnx & HC). simpl in HA. pose proof HA as HA'.
  rewrite dls_app in HA. destruct HA as [_ (nb & ? & ? & ? & _)].
  apply list.NoDup_app in Hnd as (HndA & Hdis & [HaC HndC]%list.NoDup_cons).
  assert (b ≠ a ∧ b ∉ C) as [Hba HbC] by (specialize (Hdis b); set_solver).
  exists na, nb. split_and!; try done. set_solver.
Qed.

(** Taking the node after [b] out of the list, and putting it back. *)
Lemma unlink_ok h A b a C :
  NoDup ((A ++ [b]) ++ a :: C) → dls h None ((A ++ [b]) ++ a :: C) None →
  ∃ na h1 h2 h3, h !! a = Some na ∧ n_prev na = Some b ∧ n_next na = first_of C None ∧
    set_next h (Some b) (first_of C None) = Some h1 ∧ h1 !! a = Some na ∧
    match C with [] => h2 = h1 | c :: _ => set_prev h1 (Some c) (Some b) = Some h2 end ∧
    h2 !! a = Some na ∧ dls h2 None ((A ++ [b]) ++ C) None ∧
    same_contents h h2 ∧ length h2 = length h ∧
    set_next h2 (Some b) (Some a) = Some h3 ∧ h3 !! a = Some na ∧
    match C with [] => h3 = h | c :: _ => set_prev h3 (Some c) (Some a) = Some h end.
Proof.
  intros Hnd Hl.
  destruct (neighbours _ _ _ _ _ Hnd Hl) as (na & nb & Hna & Hpv & Hnx & Hnb & Hbn & HA & HC &
    Hba & HbC & HaC & HndA & HndC & Hdis).
  set (h1 := <[b := with_next nb (first_of C None)]> h).
  assert (dls h1 None (A ++ [b]) (first_of C None)) as HA' by (by eapply dls_set_next).
  assert (h1 !! a = Some na) as Hna1 by by apply list_lookup_insert_ne_Some.
  assert (same_contents h h1) as Hsc by by apply (same_contents_insert _ _ nb).
  assert (set_next h1 (Some b) (Some a) = Some h) as Hback
    by (rewrite <- Hbn; by apply set_next_restore).
  destruct C as [|c C].
  - exists na, h1, h1, h. split_and!; try done; [by apply set_next_eq| |apply length_insert].
    by rewrite app_nil_r.
  - pose proof HC as (nc & Hnc & Hcp & Hcn & _).
    assert (c ≠ a ∧ c ≠ b) as [Hca Hcb] by set_solver.
    assert (h1 !! c = Some nc) as Hnc1 by by apply list_lookup_insert_ne_Some.
    exists na, h1, (<[c := with_prev nc (Some b)]> h1), (<[c := with_prev nc (Some b)]> h).
    split_and!; try done; try by (apply set_next_eq || apply set_prev_eq).
    + by apply list_lookup_insert_ne_Some.
    + rewrite dls_app, last_of_snoc. split.
      * apply (dls_frame h1); [|done]. intros x Hx. apply list_lookup_insert_ne.
        intros ->. apply (Hdis x); set_solver.
      * apply (dls_set_prev _ (Some a)); [done| |done]. apply (dls_frame h); [|done].
        intros x Hx. apply list_lookup_insert_ne. set_solver.
    + eapply same_contents_trans; [done|]. by apply (same_contents_insert _ _ nc).
    + unfold h1. by rewrite !length_insert.
    + rewrite (set_next_eq _ _ (with_next nb (Some c)))
        by (apply list_lookup_insert_ne_Some; [done|]; apply list_lookup_insert_eq;
            by eapply lookup_lt_Some).
      f_equal. unfold h1. rewrite list_insert_insert_ne by done. f_equal.
      rewrite list_insert_insert_eq. apply list_insert_id. rewrite Hnb. f_equal. symmetry.
      by apply node_eta.
    + by apply list_lookup_insert_ne_Some.
    + rewrite <- Hcp. by apply set_prev_restore.
Qed.

(** Run one heap access of a sequence. *)
Ltac heap_step H := rewrite H; cbn -[set_next set_prev].

(** [lift] takes a call and its return out of the list, and [unlift] of the
    same call then restores the heap exactly. *)
Lemma lift_unlift h A b e B m C v i :
  NoDup ((A ++ [b]) ++ e :: B ++ m :: C) → dls h None ((A ++ [b]) ++ e :: B ++ m :: C) None →
  contents h e = Some (v, Some m, i) →
  ∃ h', lift h (Some e) = Some h' ∧ unlift h' (Some e) = Some h ∧
    dls h' None ((A ++ [b]) ++ B ++ C) None ∧ same_contents h h' ∧ length h' = length h.
Proof.
  intros Hnd Hl Hc.
  destruct (unlink_ok _ _ _ _ _ Hnd Hl) as (ne & h1 & h2 & h3 & He & Hep & Hen & E1 & He1 & E2 &
    He2 & Hl2 & Hs2 & Hlen2 & E3 & He3 & E4).
  assert (n_match ne = Some m) as Hm by (unfold contents in Hc; rewrite He in Hc; naive_solver).
  destruct (B ++ m :: C) as [|c BC] eqn:EBC; [by destruct B|]. rewrite <- EBC in Hnd, Hl, Hl2.
  assert (NoDup (((A ++ [b]) ++ B) ++ m :: C)) as Hnd2.
  { rewrite <- app_assoc. apply (sublist_NoDup _ _ Hnd). apply sublist_app; [done|].
    by apply sublist_cons. }
  rewrite app_assoc in Hl2. rewrite (app_assoc _ B).
  destruct (exists_last (l := (A ++ [b]) ++ B)) as (A' & b' & EA'); [by destruct A|].
  rewrite EA' in Hnd2, Hl2 |- *.
  destruct (unlink_ok _ _ _ _ _ Hnd2 Hl2) as (nm & k1 & k2 & k3 & Km & Kmp & Kmn & F1 & Km1 & F2 &
    Km2 & Kl2 & Ks2 & Klen2 & F3 & Km3 & F4).
  assert (∃ ne', k2 !! e = Some ne' ∧ n_match ne' = Some m) as (ne' & Hne' & Hm').
  { pose proof (Ks2 e) as Hke. unfold contents in Hke. rewrite He2 in Hke.
    destruct (k2 !! e); simplify_eq/=. eexists. split; [done|congruence]. }
  exists k2. cbn [first_of] in Hen, E1. split_and!; [| |done|by eapply same_contents_trans|congruence].
  - unfold lift; cbn -[set_next set_prev]. heap_step He. rewrite Hep, Hen. heap_step E1. heap_step He1.
    rewrite Hen, Hep. heap_step E2. heap_step He2. heap_step Hm. heap_step Km.
    rewrite Kmp, Kmn. heap_step F1. heap_step Km1. rewrite Kmn, Kmp. destruct C; simpl; [by subst|done].
  - unfold unlift; cbn -[set_next set_prev]. heap_step Hne'. heap_step Hm'. heap_step Km2. rewrite Kmp. heap_step F3.
    heap_step Km3. rewrite Kmn. assert ((match first_of C None with
      | Some _ => set_prev k3 (first_of C None) (Some m) | None => Some k3 end) = Some h2) as ->
      by (destruct C; simpl; [by subst|done]).
    cbn -[set_next set_prev]. heap_step He2. rewrite Hep. heap_step E3. heap_step He3. by rewrite Hen.
Qed.

(** ** Building the list *)

(** A new node goes in front of the list. *)
Lemma push_front h l v m i :
  NoDup l → dls h None l None →
  ∃ h', insertBefore (h ++ [Node v m i None None]) (Some (length h)) (first_of l None) = Some h' ∧
    dls h' None (length h :: l) None ∧ NoDup (length h :: l) ∧ length h' = S (length h) ∧
    contents h' (length h) = Some (v, m, i) ∧
    ∀ a, a < length h → contents h' a = contents h a.
Proof.
  intros Hnd Hl. set (h0 := h ++ [Node v m i None None]).
  assert (∀ a, a < length h → h0 !! a = h !! a) as Hlow by (intros; by apply lookup_app_l).
  assert (h0 !! length h = Some (Node v m i None None)) as Hnew by by apply list_lookup_middle.
  assert (∀ a, a ∈ l → a < length h) as Hlt.
  { intros a Ha. destruct (dls_bound _ _ _ _ _ Hl Ha) as [n Hn]. by eapply lookup_lt_Some. }
  assert (length h0 = S (length h)) as Hlen by (unfold h0; rewrite length_app; simpl; lia).
  assert (dls h0 None l None) as Hl0 by (apply (dls_frame h); auto).
  assert (NoDup (length h :: l)) as Hnd'.
  { apply list.NoDup_cons. split; [|done]. intros Hin%Hlt. lia. }
  destruct l as [|b l].
  - exists h0. split_and!; try done; [simpl; naive_solver|unfold contents; by rewrite Hnew|].
    intros a Ha. unfold contents. by rewrite Hlow.
  - pose proof Hl0 as (nb & Hnb & Hbp & _). specialize (Hlt b ltac:(set_solver)).
    set (h1 := <[b := with_prev nb (Some (length h))]> h0).
    assert (h1 !! length h = Some (Node v m i None None)) as Hnew1
      by (apply list_lookup_insert_ne_Some; [lia|done]).
    exists (<[length h := Node v m i (Some b) None]> h1).
    assert (same_contents h0 (<[length h := Node v m i (Some b) None]> h1)) as Hsc.
    { eapply (same_contents_trans _ h1); by eapply same_contents_insert. }
    split_and!; [| |done|unfold h1; by rewrite !length_insert| |].
    + cbn -[set_next set_prev]. heap_step Hnb. heap_step (set_prev_eq h0 b nb (Some (length h)) Hnb).
      fold h1. heap_step (set_next_eq h1 _ _ (Some b) Hnew1). by rewrite Hbp.
    + exists (Node v m i (Some b) None). split_and!; [|done|done|].
      { apply list_lookup_insert_eq. unfold h1. rewrite length_insert. lia. }
      apply (dls_frame h1); [intros a Ha; apply list_lookup_insert_ne|by eapply dls_set_prev].
      apply list.NoDup_cons in Hnd' as [Hni _]. congruence.
    + rewrite (Hsc _). unfold contents. by rewrite Hnew.
    + intros a Ha. rewrite (Hsc _). unfold contents. by rewrite Hlow.
Qed.

(** The node of the entry at the head of [e :: es] has address [length es]. *)
Definition addresses (n : nat) : list nat := reverse (seq 0 n).

(** The address of the first return of operation [i]. *)
Fixpoint return_of (es : list (entry V)) (i : Z) : ptr :=
  match es with
  | [] => None
  | e :: es => if bool_decide (e_kind e = returnEntry ∧ e_id e = i) then Some (length es)
               else return_of es i
  end.

Definition match_of (e : entry V) (es : list (entry V)) : ptr :=
  match e_kind e with callEntry => return_of es (e_id e) | returnEntry => None end.

Fixpoint stored h (es : list (entry V)) : Prop :=
  match es with
  | [] => True
  | e :: es => contents h (length es) = Some (e_value e, match_of e es, e_id e) ∧ stored h es
  end.

Lemma addresses_S (k : nat) : addresses (S k) = k :: addresses k.
Proof. unfold addresses. by rewrite seq_S, reverse_snoc. Qed.

Lemma stored_ext h h' es :
  (∀ a, a < length es → contents h' a = contents h a) → stored h es → stored h' es.
Proof.
  induction es as [|e es IH]; simpl; [done|]. intros Hc [He Hes].
  rewrite Hc by lia. split; [done|]. apply IH; [|done]. intros. apply Hc. lia.
Qed.

Lemma linkEntries_ok es :
  ∃ h m, linkEntries es = Some (h, first_of (addresses (length es)) None, m) ∧
    length h = length es ∧ NoDup (addresses (length es)) ∧
    dls h None (addresses (length es)) None ∧ stored h es ∧ ∀ i, m !! i = return_of es i.
Proof.
  induction es as [|e es (h & m & E & Hlen & Hnd & Hl & Hst & Hm)].
  { exists [], ∅. by split_and!; [..|constructor| | |]. }
  destruct (push_front h _ (e_value e) (match_of e es) (e_id e) Hnd Hl)
    as (h' & E' & Hl' & Hnd' & Hlen' & Hc & Hcs).
  rewrite Hlen in *. cbn [length linkEntries]. rewrite addresses_S, E. cbn [mbind option_bind].
  exists h', (match e_kind e with returnEntry => <[e_id e := length es]> m | callEntry => m end).
  split_and!; [|by rewrite Hlen'|done|done|split; [done|by apply (stored_ext h)]|].
  - unfold match_of, alloc in *. destruct (e_kind e); rewrite ?Hm, Hlen; cbn -[insertBefore];
      by rewrite E'.
  - intros i. simpl. destruct (e_kind e).
    + by rewrite bool_decide_false by naive_solver.
    + case_bool_decide as Hd; [destruct Hd as [_ <-]; apply lookup_insert_eq|].
      rewrite lookup_insert_ne; naive_solver.
Qed.

Lemma walk_ok h pv l k z : dls h pv l None → length l ≤ k →
  walk k h (first_of l None) z = Some (z + zlen l)%Z.
Proof.
  revert pv k z. induction l as [|a l IH]; intros pv k z Hl Hk.
  - simpl. unfold zlen. destruct k; simpl; f_equal; lia.
  - destruct k as [|k]; simpl in *; [lia|]. destruct Hl as (n & -> & _ & Hn & Hl). simpl.
    rewrite Hn. fold (first_of l None). rewrite (IH (Some a)) by (done || lia).
    f_equal. rewrite zlen_cons. lia.
Qed.
End list_ops.
