(* ===== verification/PorcupineSpec.v ===== *)
(** * What the search decides, over the entries of a history

    The entries of a history are calls and returns in the order of time.  A
    search configuration is a set [D] of linearized operations and a state;
    [extends] is a run of the search without its data structures: it
    linearizes an operation whose call comes before every return that is left.
    The file relates the linked list of [PorcupineList] to the history. *)

From S2P Require Import Prelude PorcupineModel PorcupineList.

Definition key {V} (e : entry V) : entryKind * Z := (e_kind e, e_id e).

Definition keys_of (k : entryKind) (n : nat) : list (entryKind * Z) := pair k <$> seqZ 0 (Z.of_nat n).

(** [n] operations, numbered from 0, each with one call and one later return. *)
Record wf_entries {V} (n : nat) (H : list (entry V)) : Prop := {
  wf_keys : (key <$> H) ≡ₚ keys_of callEntry n ++ keys_of returnEntry n;
  wf_order : ∀ x y, x ∈ H → y ∈ H → e_kind x = callEntry → e_kind y = returnEntry →
    e_id x = e_id y → [x; y] `sublist_of` H
}.

Section runs.
Context {V St : Type} (model : Model V St) (H : list (entry V)).
Implicit Types (D : gset Z) (s : St) (l : list Z).

(** Operation [i] of the history has this input and output. *)
Definition op_of (i : Z) (inp out : V) : Prop :=
  ∃ x y, x ∈ H ∧ y ∈ H ∧ key x = (callEntry, i) ∧ key y = (returnEntry, i) ∧
         e_value x = inp ∧ e_value y = out.

(** [j] returns before [i] is called. *)
Definition precedes (j i : Z) : Prop :=
  ∃ x y, [x; y] `sublist_of` H ∧ key x = (returnEntry, j) ∧ key y = (callEntry, i).

Definition enabled D (i : Z) : Prop := (i ∉ D) ∧ ∀ j, precedes j i → j ∈ D.

Inductive extends : gset Z → St → list Z → gset Z → St → Prop :=
| extends_nil D s : extends D s [] D s
| extends_cons D s i inp out s' l D2 s2 :
    op_of i inp out → enabled D i → Step model s inp out = Some (true, s') →
    extends ({[i]} ∪ D) s' l D2 s2 → extends D s (i :: l) D2 s2.

Definition covers D : Prop := ∀ e, e ∈ H → e_id e ∈ D.

Definition completes D s : Prop := ∃ l D2 s2, extends D s l D2 s2 ∧ covers D2.

(** A prefix of a linearization. *)
Definition partial l : Prop := ∃ D s, extends ∅ (Init model) l D s.

Lemma extends_app D s l1 D1 s1 l2 D2 s2 :
  extends D s l1 D1 s1 → extends D1 s1 l2 D2 s2 → extends D s (l1 ++ l2) D2 s2.
Proof. induction 1; simpl; [done|]. intros. econstructor; eauto. Qed.

Lemma extends_dom D s l D2 s2 : extends D s l D2 s2 → D2 = list_to_set l ∪ D.
Proof. induction 1; simpl; set_solver. Qed.

Lemma extends_ids D s l D2 s2 i : extends D s l D2 s2 → i ∈ l → ∃ e, e ∈ H ∧ e_id e = i.
Proof.
  induction 1 as [|D s j inp out s' l D2 s2 Hop _ _ _ IH]; [set_solver|].
  intros [->|Hi]%elem_of_cons; [|by apply IH].
  destruct Hop as (x & _ & Hx & _ & Hk & _). exists x. split; [done|]. by injection Hk.
Qed.

(** Equal states complete alike. *)
Lemma completes_equal eqf D s1 s2 :
  equal_ok model eqf → eqf s1 s2 = true → completes D s1 → completes D s2.
Proof.
  intros Heq He (l & D2 & t & Hr & Hc).
  assert (∃ t', extends D s2 l D2 t') as [t' ?]; [|by exists l, D2, t'].
  clear Hc. revert s2 He. induction Hr as [|D s i inp out s' l D2 t Hop Hen Hst _ IH]; intros s2 He.
  - by eexists; constructor.
  - destruct (Heq _ _ _ _ _ He Hst) as (t2 & Hst2 & He2). destruct (IH t2 He2) as [t' ?].
    exists t'. by econstructor.
Qed.
End runs.

Lemma NoDup_two {A} (l1 l2 l3 : list A) x y p :
  NoDup (l1 ++ x :: l2 ++ y :: l3) → p ∈ l1 ++ l2 ++ l3 → p ≠ x ∧ p ≠ y.
Proof.
  rewrite list.NoDup_app, list.NoDup_cons, list.NoDup_app, list.NoDup_cons. set_solver.
Qed.

Section wf.
Context {V : Type} (n : nat) (H : list (entry V)) (Hwf : wf_entries n H).

Lemma elem_of_keys_of k m p : p ∈ keys_of k m ↔ p.1 = k ∧ (0 ≤ p.2 < Z.of_nat m)%Z.
Proof.
  unfold keys_of. rewrite list_elem_of_fmap. setoid_rewrite elem_of_seqZ. destruct p. simpl.
  split; [intros (i & [= -> ->] & ?)|intros [-> ?]; eexists]; split; done || lia.
Qed.

Lemma keys_nodup : NoDup (key <$> H).
Proof.
  rewrite (wf_keys _ _ Hwf). apply list.NoDup_app. split_and!.
  - apply NoDup_fmap_2; [|apply NoDup_seqZ]. by intros ?? [= ->].
  - intros p [? _]%elem_of_keys_of [? _]%elem_of_keys_of. congruence.
  - apply NoDup_fmap_2; [|apply NoDup_seqZ]. by intros ?? [= ->].
Qed.

Lemma key_inj x y : x ∈ H → y ∈ H → key x = key y → x = y.
Proof.
  intros Hx Hy Hk. apply list_elem_of_lookup in Hx as [a Ha], Hy as [b Hb].
  assert (a = b) as ->; [|congruence].
  eapply NoDup_lookup; [apply keys_nodup|by rewrite list_lookup_fmap, Ha|].
  by rewrite list_lookup_fmap, Hb, Hk.
Qed.

Lemma wf_length : length H = n + n.
Proof.
  rewrite <- (length_fmap key), (wf_keys _ _ Hwf). unfold keys_of.
  rewrite length_app, !length_fmap, length_seqZ. lia.
Qed.

Lemma elem_of_keys k i : (k, i) ∈ key <$> H ↔ (0 ≤ i < Z.of_nat n)%Z.
Proof.
  rewrite (wf_keys _ _ Hwf), elem_of_app, !elem_of_keys_of. simpl. destruct k; intuition done.
Qed.

Lemma id_bounds e : e ∈ H → (0 ≤ e_id e < Z.of_nat n)%Z.
Proof. intros He. apply (elem_of_keys (e_kind e)). by apply (list_elem_of_fmap_2 key). Qed.

(** Every operation has its two entries. *)
Lemma entry_of k i : (0 ≤ i < Z.of_nat n)%Z → ∃ e, e ∈ H ∧ key e = (k, i).
Proof. rewrite <- (elem_of_keys k). intros (e & -> & ?)%list_elem_of_fmap. by exists e. Qed.

Lemma op_of_det i inp out inp' out' :
  op_of H i inp out → op_of H i inp' out' → inp' = inp ∧ out' = out.
Proof.
  intros (x & y & Hx & Hy & Kx & Ky & <- & <-) (x' & y' & Hx' & Hy' & Kx' & Ky' & <- & <-).
  by rewrite (key_inj x x'), (key_inj y y') by congruence.
Qed.

Lemma entries_nodup : NoDup H.
Proof. eapply NoDup_fmap_1, keys_nodup. Qed.

(** ** The nodes of the history *)

(** The address and the entry of each node, in the order of the history. *)
Definition items : list (nat * entry V) := zip (addresses (length H)) H.

Definition live (D : gset Z) : list (nat * entry V) := filter (λ p, e_id p.2 ∉ D) items.

Lemma items_fst : items.*1 = addresses (length H).
Proof. apply fst_zip. unfold addresses. rewrite length_reverse, length_seq. lia. Qed.

Lemma items_snd : items.*2 = H.
Proof. apply snd_zip. unfold addresses. rewrite length_reverse, length_seq. lia. Qed.

Lemma item_entry a e : (a, e) ∈ items → e ∈ H.
Proof. intros Hi. rewrite <- items_snd. by apply (list_elem_of_fmap_2 snd _ (a, e)). Qed.

Lemma entry_item e : e ∈ H → ∃ a, (a, e) ∈ items.
Proof.
  intros He. rewrite <- items_snd in He. apply list_elem_of_fmap in He as ([a e'] & -> & Hi).
  by exists a.
Qed.

Lemma item_addr a a' e : (a, e) ∈ items → (a', e) ∈ items → a = a'.
Proof.
  intros [i Hi]%list_elem_of_lookup [j Hj]%list_elem_of_lookup.
  assert (i = j) as ->; [|congruence].
  apply (NoDup_lookup H i j e entries_nodup); rewrite <- items_snd, list_lookup_fmap.
  - by rewrite Hi.
  - by rewrite Hj.
Qed.

Lemma elem_of_live D a e : (a, e) ∈ live D ↔ (a, e) ∈ items ∧ e_id e ∉ D.
Proof. unfold live. rewrite list_elem_of_filter. simpl. tauto. Qed.

(** A pair of the live list in its order is a pair of the history. *)
Lemma live_order D p q : [p; q] `sublist_of` live D → [p.2; q.2] `sublist_of` H.
Proof.
  intros Hs. rewrite <- items_snd. apply (fmap_sublist snd [p; q]).
  etrans; [done|]. apply sublist_filter.
Qed.

Lemma live_nodup D : NoDup (live D).*1.
Proof.
  eapply sublist_NoDup; [|apply (fmap_sublist fst), sublist_filter].
  rewrite items_fst. unfold addresses. rewrite reverse_Permutation. apply NoDup_seq.
Qed.

Lemma live_keys_nodup D : NoDup (key <$> (live D).*2).
Proof.
  eapply sublist_NoDup; [apply keys_nodup|]. apply fmap_sublist.
  rewrite <- items_snd. apply (fmap_sublist snd), sublist_filter.
Qed.

Lemma live_nil D : live D = [] ↔ covers H D.
Proof.
  split.
  - intros Hl e He. destruct (entry_item e He) as [a Ha]. apply dec_stable. intros Hn.
    assert ((a, e) ∈ live D) as Hin by by apply elem_of_live. rewrite Hl in Hin. set_solver.
  - intros Hc. destruct (live D) as [|[a e] l] eqn:E; [done|].
    assert ((a, e) ∈ live D) as [Hi Hn]%elem_of_live by (rewrite E; set_solver).
    destruct Hn. by eapply Hc, item_entry.
Qed.

(** The node of an entry holds its value, its identifier and, for a call, the
    node of its return. *)
Definition known (h : heap V) : Prop := ∀ a (e : entry V), (a, e) ∈ items →
  match e_kind e with
  | returnEntry => contents h a = Some (e_value e, None, e_id e)
  | callEntry => ∃ q r, contents h a = Some (e_value e, Some q, e_id e) ∧ (q, r) ∈ items ∧
                        key r = (returnEntry, e_id e)
  end.

Lemma known_same h h' : same_contents h h' → known h → known h'.
Proof.
  intros Hs Hk a e Hi. specialize (Hk a e Hi). pose proof (Hs a) as Ha.
  destruct (e_kind e); [destruct Hk as (q & r & ? & ? & ?); exists q, r|]; split_and?; congruence.
Qed.

Lemma elem_of_zip_addresses (es : list (entry V)) a e :
  (a, e) ∈ zip (addresses (length es)) es ↔ ∃ es1 es2, es = es1 ++ e :: es2 ∧ a = length es2.
Proof.
  induction es as [|x es IH]; simpl.
  - split; [set_solver|]. intros ([|??] & ? & ? & _); done.
  - rewrite addresses_S. simpl. rewrite elem_of_cons, IH. split.
    + intros [[= -> ->]|(es1 & es2 & -> & ->)]; [by exists [], es|by exists (x :: es1), es2].
    + intros ([|y es1] & es2 & [= -> ->] & ->); [by left|]. right. by exists es1, es2.
Qed.

Lemma stored_at (h : heap V) es1 (e : entry V) es2 :
  stored h (es1 ++ e :: es2) → contents h (length es2) = Some (e_value e, match_of e es2, e_id e).
Proof. induction es1 as [|x es1 IH]; simpl; [by intros [? _]|]. intros [_ ?]. by apply IH. Qed.

Lemma return_of_found (es : list (entry V)) i r :
  r ∈ es → key r = (returnEntry, i) →
  ∃ es1 r' es2, es = es1 ++ r' :: es2 ∧ key r' = (returnEntry, i) ∧ return_of es i = Some (length es2).
Proof.
  induction es as [|x es IH]; [set_solver|]. intros Hr Hk. simpl.
  case_bool_decide as Hx.
  - exists [], x, es. split_and!; [done| |done]. unfold key. destruct Hx. congruence.
  - apply elem_of_cons in Hr as [->|Hr]; [destruct Hx; by injection Hk|].
    destruct (IH Hr Hk) as (es1 & r' & es2 & -> & ? & ?). by exists (x :: es1), r', es2.
Qed.

Lemma stored_known h : stored h H → known h.
Proof.
  intros Hst a e (es1 & es2 & E & ->)%elem_of_zip_addresses.
  pose proof Hst as Hst0. rewrite E in Hst0. apply stored_at in Hst0. unfold match_of in Hst0.
  assert (e ∈ H) as He by (rewrite E; set_solver).
  destruct (e_kind e) eqn:Hk; [|done].
  destruct (entry_of returnEntry (e_id e) (id_bounds e He)) as (r & Hr & Hkr).
  assert (r ∈ es2) as Hr2.
  { pose proof entries_nodup as Hnd.
    pose proof (wf_order _ _ Hwf e r He Hr Hk ltac:(by injection Hkr) ltac:(by injection Hkr)) as Ho.
    rewrite E in Hnd, Ho. by eapply sublist_pair_split. }
  destruct (return_of_found es2 _ r Hr2 Hkr) as (es3 & r' & es4 & E2 & Hk' & Hret).
  exists (length es4), r'. rewrite Hret in Hst0. split_and!; [done| |done].
  apply elem_of_zip_addresses. exists (es1 ++ e :: es3), es4. split; [|done].
  rewrite E, E2, <- app_assoc. done.
Qed.

(** Linearizing an operation takes its two entries out of the live list. *)
Lemma live_linearize D A a e B q r :
  live D = A ++ (a, e) :: B → e_kind e = callEntry → (q, r) ∈ items → key r = (returnEntry, e_id e) →
  ∃ B1 B2, B = B1 ++ (q, r) :: B2 ∧ live ({[e_id e]} ∪ D) = A ++ B1 ++ B2.
Proof.
  intros E Hk Hq Hr.
  assert ((a, e) ∈ live D) as [Hi Hn]%elem_of_live by (rewrite E; set_solver).
  assert (e_id r = e_id e ∧ e_kind r = returnEntry) as [Hid Hkr] by by injection Hr.
  assert ((q, r) ∈ live D) as Hql by (apply elem_of_live; rewrite Hid; done).
  assert ((q, r) ∈ B) as [B1 [B2 ->]]%list_elem_of_split.
  { pose proof (item_entry _ _ Hi) as He. pose proof (item_entry _ _ Hq) as Hr'.
    rewrite E, elem_of_app, elem_of_cons in Hql. destruct Hql as [HA|[Heq|HB]]; [|congruence|done].
    exfalso. apply (sublist_pair_asym H e r entries_nodup).
    - apply (wf_order _ _ Hwf); try done; by injection Hr.
    - apply (live_order D (q, r) (a, e)). rewrite E.
      apply list_elem_of_split in HA as (A1 & A2 & ->). rewrite <- app_assoc.
      apply sublist_inserts_l. simpl. apply sublist_skip, sublist_inserts_l.
      by apply sublist_skip, sublist_nil_l. }
  exists B1, B2. split; [done|].
  assert (live ({[e_id e]} ∪ D) = filter (λ p, e_id p.2 ≠ e_id e) (live D)) as ->.
  { unfold live. rewrite list_filter_filter. apply list_filter_iff. set_solver. }
  assert (NoDup (live D)) as Hnd by (eapply NoDup_fmap_1, live_nodup). rewrite E in Hnd |- *.
  rewrite !list.filter_app, filter_cons_False, list.filter_app, filter_cons_False by (simpl; tauto).
  rewrite <- !list.filter_app. apply filter_all. intros [a' e'] Hp Hid'. simpl in Hid'.
  destruct (NoDup_two _ _ _ _ _ _ Hnd Hp) as [Hne1 Hne2].
  assert ((a', e') ∈ items) as Hp'.
  { assert ((a', e') ∈ live D) as [??]%elem_of_live; [rewrite E; set_solver|done]. }
  pose proof (item_entry _ _ Hi). pose proof (item_entry _ _ Hq). pose proof (item_entry _ _ Hp').
  assert (e' = e ∨ e' = r) as [->| ->].
  { destruct (e_kind e') eqn:Hk'; [left|right]; apply key_inj; try done; rewrite ?Hr; unfold key; congruence. }
  - apply Hne1. f_equal. by eapply item_addr.
  - apply Hne2. f_equal. by eapply item_addr.
Qed.
End wf.
