(* ===== verification/PorcupineSearch.v ===== *)
(** * The search of the linearizability checker (porcupine/checker.go)

    [checkSingle] looks for an order of the operations of a history: it walks
    the linked list of entries, linearizes a call whose [Step] succeeds and
    that leads to a new configuration, and backtracks at the first return.
    One iteration of its loop is [search_step]; the loop has fuel, and the
    value of [*kill] that each iteration loads is an argument.  [None] is a
    panic, [inl] the state when the fuel is used up, [inr] the result. *)

From S2P Require Import Prelude Bitset PorcupineModel PorcupineList.

(** [linearized] is the clone made by the caller. *)
Record cacheEntry (St : Type) := CacheEntry { ce_linearized : bitset; ce_state : St }.
Record callsEntry (St : Type) := CallsEntry { cl_entry : ptr; cl_state : St }.

Arguments CacheEntry {St}.
Arguments ce_linearized {St}.
Arguments ce_state {St}.
Arguments CallsEntry {St}.
Arguments cl_entry {St}.
Arguments cl_state {St}.

(** The variables of checkSingle.  [s_longest] holds pointers to sequences of
    identifiers; the sequences are in [s_seqs], in the order of their creation. *)
Record search (V St : Type) := Search {
  s_heap : heap V;
  s_entry : ptr;
  s_linearized : bitset;
  s_cache : gmap Z (list (cacheEntry St));
  s_calls : list (callsEntry St);
  s_longest : list ptr;
  s_seqs : list (list Z);
  s_state : St
}.

Arguments Search {V St}.
Arguments s_heap {V St}.
Arguments s_entry {V St}.
Arguments s_linearized {V St}.
Arguments s_cache {V St}.
Arguments s_calls {V St}.
Arguments s_longest {V St}.
Arguments s_seqs {V St}.
Arguments s_state {V St}.

Section checker.
Context {V St : Type} `{Interface V} (model : Model V St).
Implicit Types (st : search V St) (h : heap V).

Fixpoint contains_loop (entry : cacheEntry St) (bucket : list (cacheEntry St)) : option bool :=
  match bucket with
  | [] => Some false
  | elem :: bucket =>
      if bitset_equals (ce_linearized entry) (ce_linearized elem) then
        match Equal model with
        | None => None
        | Some equal =>
            if equal (ce_state entry) (ce_state elem) then Some true else contains_loop entry bucket
        end
      else contains_loop entry bucket
  end.

Definition cacheContains (cache : gmap Z (list (cacheEntry St))) (entry : cacheEntry St) : option bool :=
  contains_loop entry (default [] (cache !! bitset_hash (ce_linearized entry))).

(** The identifiers of the linearized calls. *)
Definition call_ids h (calls : list (callsEntry St)) : option (list Z) :=
  mapM (λ c, n_id <$> load h (cl_entry c)) calls.

(** The loop over [calls] under [computePartial]; [seq] is created once, when
    it is first needed. *)
Fixpoint recordLongest (ids todo : list Z) (sq : ptr) (longest : list ptr) (seqs : list (list Z)) :
    option (list ptr * list (list Z)) :=
  match todo with
  | [] => Some (longest, seqs)
  | id :: todo =>
      old ← go_nth longest id;
      better ← match old with
               | None => Some true
               | Some a => l ← seqs !! a; Some (zlen ids >? zlen l)%Z
               end;
      if better : bool then
        let '(a, seqs) := match sq with
                          | Some a => (a, seqs)
                          | None => (length seqs, seqs ++ [ids])
                          end in
        longest ← go_set longest id (Some a);
        recordLongest ids todo (Some a) longest seqs
      else recordLongest ids todo sq longest seqs
  end.

(** A call entry: [entry.match != nil]. *)
Definition try_call (headEntry : ptr) (entry : node V) st : option (search V St) :=
  matching ← load (s_heap st) (n_match entry);
  '(ok, newState) ← Step model (s_state st) (n_value entry) (n_value matching);
  let skip := Search (s_heap st) (n_next entry) (s_linearized st) (s_cache st) (s_calls st)
                     (s_longest st) (s_seqs st) (s_state st) in
  if ok : bool then
    newLinearized ← bitset_set (n_id entry) (bitset_clone (s_linearized st));
    let newCacheEntry := CacheEntry newLinearized newState in
    found ← cacheContains (s_cache st) newCacheEntry;
    if negb found then
      let hash := bitset_hash newLinearized in
      let cache := <[hash := default [] (s_cache st !! hash) ++ [newCacheEntry]]> (s_cache st) in
      let calls := s_calls st ++ [CallsEntry (s_entry st) (s_state st)] in
      linearized ← bitset_set (n_id entry) (s_linearized st);
      h ← lift (s_heap st) (s_entry st);
      hd ← load h headEntry;
      Some (Search h (n_next hd) linearized cache calls (s_longest st) (s_seqs st) newState)
    else Some skip
  else Some skip.

(** A return entry with some call linearized. *)
Definition backtrack (computePartial : bool) (callsTop : callsEntry St) st : option (search V St) :=
  '(longest, seqs) ← (if computePartial then
      ids ← call_ids (s_heap st) (s_calls st);
      recordLongest ids ids None (s_longest st) (s_seqs st)
    else Some (s_longest st, s_seqs st));
  entry ← load (s_heap st) (cl_entry callsTop);
  linearized ← bitset_clear (n_id entry) (s_linearized st);
  calls ← go_upto (s_calls st) (zlen (s_calls st) - 1);
  h ← unlift (s_heap st) (cl_entry callsTop);
  entry ← load h (cl_entry callsTop);
  Some (Search h (n_next entry) linearized (s_cache st) calls longest seqs (cl_state callsTop)).

(** The result: the answer, [longest], and the sequences it points to. *)
Abbreviation answer := (bool * list ptr * list (list Z))%type.

Definition finish st : option answer :=
  ids ← call_ids (s_heap st) (s_calls st);
  Some (true, replicate (length (s_longest st)) (Some (length (s_seqs st))), s_seqs st ++ [ids]).

Definition search_step (computePartial : bool) (headEntry : ptr) (kill : Z) st :
    option (search V St + answer) :=
  hd ← load (s_heap st) headEntry;
  match n_next hd with
  | None => inr <$> finish st
  | Some _ =>
      if negb (kill =? 0)%Z then Some (inr (false, s_longest st, s_seqs st))
      else
        entry ← load (s_heap st) (s_entry st);
        match n_match entry with
        | Some _ => inl <$> try_call headEntry entry st
        | None =>
            if (zlen (s_calls st) =? 0)%Z then Some (inr (false, s_longest st, s_seqs st))
            else
              callsTop ← go_nth (s_calls st) (zlen (s_calls st) - 1);
              inl <$> backtrack computePartial callsTop st
        end
  end.

(** [kill k] is what the [k]-th iteration loads. *)
Fixpoint search_loop (computePartial : bool) (headEntry : ptr) (kill : nat → Z) (fuel k : nat) st :
    option (search V St + answer) :=
  match fuel with
  | O => Some (inl st)
  | S fuel =>
      r ← search_step computePartial headEntry (kill k) st;
      match r with
      | inl st => search_loop computePartial headEntry kill fuel (S k) st
      | inr a => Some (inr a)
      end
  end.

Definition checkSingle_init (history : list (entry V)) : option (ptr * search V St) :=
  '(h, entry) ← makeLinkedEntries history;
  len ← list_length h entry;
  let n := (len / 2)%Z in
  let '(h, headEntry) := alloc h nil_value None (-1) in
  h ← insertBefore h headEntry entry;
  Some (headEntry,
    Search h entry (newBitset n) ∅ [] (replicate (Z.to_nat n) None) [] (Init model)).

Definition checkSingle (fuel : nat) (history : list (entry V)) (computePartial : bool)
    (kill : nat → Z) : option (search V St + answer) :=
  '(headEntry, st) ← checkSingle_init history;
  search_loop computePartial headEntry kill fuel 0 st.

(** More fuel does not change an answer. *)
Lemma search_loop_mono computePartial headEntry kill fuel fuel' k st a :
  search_loop computePartial headEntry kill fuel k st = Some (inr a) → fuel ≤ fuel' →
  search_loop computePartial headEntry kill fuel' k st = Some (inr a).
Proof.
  revert fuel' k st. induction fuel as [|fuel IH]; intros [|fuel'] k st E Hle; try done; [lia|].
  simpl in *. destruct (search_step _ _ _ st) as [[st'|a']|]; simpl in *; try done. apply IH; [done|lia].
Qed.

Lemma checkSingle_mono fuel fuel' history computePartial kill a :
  checkSingle fuel history computePartial kill = Some (inr a) → fuel ≤ fuel' →
  checkSingle fuel' history computePartial kill = Some (inr a).
Proof.
  unfold checkSingle. destruct (checkSingle_init history) as [[hd st]|]; [|done]. simpl.
  apply search_loop_mono.
Qed.
End checker.
