(* ===== verification/PorcupineProof.v ===== *)
(** * Correctness of the search

    [rep] ties the variables of checkSingle to a configuration of
    [PorcupineSpec]: the linked list is what is left of the history, the bit
    set is the set of linearized operations, [calls] is a run that leads there.
    [explore] is the induction over the search: from a configuration the loop
    either reaches a complete linearization, or comes back to the same
    configuration with the same heap, having refuted it.  [checkSingle_spec]
    follows: the loop ends, without a panic, with the right answer; and so does
    [checkSingle_killed]: a search that is stopped at any time ends too, and what
    it has recorded by then are partial linearizations. *)

From S2P Require Import Prelude Bitset PorcupineModel PorcupineList PorcupineSpec PorcupineSearch.

Lemma node_of {V} (h : heap V) a v m i :
  contents h a = Some (v, m, i) →
  ∃ nd, h !! a = Some nd ∧ n_value nd = v ∧ n_match nd = m ∧ n_id nd = i.
Proof. unfold contents. destruct (h !! a) as [nd|]; [|done]. intros [= <- <- <-]. by exists nd. Qed.

Lemma call_ids_same {V St} (h h' : heap V) (calls : list (callsEntry St)) :
  same_contents h h' → call_ids h' calls = call_ids h calls.
Proof.
  intros Hs. unfold call_ids. induction calls as [|[[a|] s] calls IH]; [done| |done].
  cbn [mapM]. rewrite IH. cbn. pose proof (Hs a) as Ha. unfold contents in Ha.
  assert (n_id <$> h' !! a = n_id <$> h !! a) as ->; [|done].
  destruct (h !! a), (h' !! a); simpl in *; congruence.
Qed.

Lemma call_ids_snoc {V St} (h : heap V) (calls : list (callsEntry St)) l a s nd :
  call_ids h calls = Some l → h !! a = Some nd →
  call_ids h (calls ++ [CallsEntry (Some a) s]) = Some (l ++ [n_id nd]).
Proof.
  intros Hl Ha. revert l Hl. unfold call_ids. induction calls as [|c calls IH]; cbn [mapM app].
  - intros l [= <-]. cbn. by rewrite Ha.
  - intros l (i & -> & (l' & E & [= <-])%bind_Some)%bind_Some. cbn [mbind option_bind].
    by rewrite (IH _ E).
Qed.

(** Reduce the fields of an explicit state. *)
Ltac fields := cbn [s_heap s_entry s_linearized s_cache s_calls s_longest s_seqs s_state].

Section proof.
Context {V St : Type} `{!Interface V} (model : Model V St) (eqf : St → St → bool).
Context (n : nat) (H : list (entry V)) (Hwf : wf_entries n H).
Context (Heqf : Equal model = Some eqf) (Hsim : equal_ok model eqf).
Context (Htotal : ∀ s i inp out, op_of H i inp out → is_Some (Step model s inp out)).
Context (cp : bool) (hd : nat) (Hhd : length H ≤ hd) (W : Z) (HW : (Z.of_nat n ≤ 64 * W)%Z).
Implicit Types (st : search V St) (D : gset Z) (l : list Z).

(** ** The partial linearizations *)

Definition longest_ok (longest : list ptr) (seqs : list (list Z)) : Prop :=
  length longest = n ∧
  ∀ i a, longest !! i = Some (Some a) →
    ∃ sq, seqs !! a = Some sq ∧ partial model H sq ∧ Z.of_nat i ∈ sq.

Lemma longest_ok_grow longest seqs sq : longest_ok longest seqs → longest_ok longest (seqs ++ [sq]).
Proof.
  intros [Hl Ho]. split; [done|]. intros i a Hi. destruct (Ho i a Hi) as (sq' & Ha & ?).
  exists sq'. split; [|done]. by apply lookup_app_l_Some.
Qed.

Lemma longest_ok_set longest seqs i a sq :
  longest_ok longest seqs → seqs !! a = Some sq → partial model H sq → (0 ≤ i)%Z → i ∈ sq →
  longest_ok (<[Z.to_nat i := Some a]> longest) seqs.
Proof.
  intros [Hl Ho] Ha Hp Hi0 Hi. split; [by rewrite length_insert|]. intros j b Hj.
  destruct (decide (j = Z.to_nat i)) as [->|Hne].
  - rewrite list_lookup_insert_eq in Hj
      by (by apply lookup_lt_Some in Hj; rewrite length_insert in Hj).
    simplify_eq. exists sq. split_and!; try done. by rewrite Z2Nat.id.
  - rewrite list_lookup_insert_ne in Hj by done. by apply Ho.
Qed.

Lemma recordLongest_ok ids todo sq longest seqs :
  longest_ok longest seqs → partial model H ids → (∀ i, i ∈ todo → i ∈ ids) →
  (∀ i, i ∈ ids → (0 ≤ i < Z.of_nat n)%Z) →
  match sq with Some a => seqs !! a = Some ids | None => True end →
  ∃ longest' seqs', recordLongest ids todo sq longest seqs = Some (longest', seqs') ∧
    longest_ok longest' seqs'.
Proof.
  intros Hok Hp Hsub Hb Hsq. revert sq longest seqs Hok Hsq.
  induction todo as [|id todo IH]; intros sq longest seqs Hok Hsq; simpl; [by eauto|].
  specialize (IH ltac:(set_solver)). assert (id ∈ ids) as Hid by set_solver.
  pose proof (Hb id Hid) as Hid'. pose proof Hok as [Hlen Hlook].
  assert (zlen longest = Z.of_nat n) as Hz by (unfold zlen; congruence).
  destruct (go_nth_is_Some longest id) as [old Hold]; [lia|]. rewrite Hold. cbn [mbind option_bind].
  assert (∃ b, match old with
               | None => Some true
               | Some a => l ← seqs !! a; Some (zlen ids >? zlen l)%Z
               end = Some b) as [b ->].
  { destruct old as [a|]; [|by eexists]. apply go_nth_Some in Hold as [_ Hold].
    destruct (Hlook _ _ Hold) as (sq' & -> & _). by eexists. }
  cbn [mbind option_bind]. destruct b; [|by apply IH].
  destruct sq as [a|]; rewrite go_set_ok by lia; cbn [mbind option_bind]; apply IH.
  - eapply longest_ok_set; try done; lia.
  - done.
  - eapply (longest_ok_set _ _ _ _ ids); [by apply longest_ok_grow| |done|lia|done].
    by apply list_lookup_middle.
  - by apply list_lookup_middle.
Qed.

(** ** The cache *)

Definition dead (e : cacheEntry St) : Prop :=
  ¬ completes model H (members (ce_linearized e)) (ce_state e).

Definition in_cache (e : cacheEntry St) (cache : gmap Z (list (cacheEntry St))) : Prop :=
  ∃ k bucket, cache !! k = Some bucket ∧ e ∈ bucket.

Definition cache_ok (cache : gmap Z (list (cacheEntry St))) D : Prop :=
  ∀ e, in_cache e cache → dead e ∨ members (ce_linearized e) ⊆ D.

Definition cache_grows (cache cache' : gmap Z (list (cacheEntry St))) : Prop :=
  ∀ e, in_cache e cache' → in_cache e cache ∨ dead e.

Lemma in_cache_add e e' k cache :
  in_cache e (<[k := default [] (cache !! k) ++ [e']]> cache) → in_cache e cache ∨ e = e'.
Proof.
  intros (k' & b & [[<- <-]|[Hne Hk]]%lookup_insert_Some & He); [|left; by exists k', b].
  apply elem_of_app in He as [He|He]; [|right; set_solver]. left.
  destruct (cache !! k) as [b|] eqn:E; [by exists k, b|]. simpl in He. set_solver.
Qed.

Lemma cacheContains_ok cache e :
  ∃ b, cacheContains model cache e = Some b ∧
    (b = true → ∃ e', in_cache e' cache ∧ ce_linearized e' = ce_linearized e ∧
                      eqf (ce_state e) (ce_state e') = true).
Proof.
  unfold cacheContains. set (k := bitset_hash _).
  assert (∀ e', e' ∈ default [] (cache !! k) → in_cache e' cache) as Hin.
  { intros e'. destruct (cache !! k) as [b|] eqn:E; simpl; [|set_solver]. by exists k, b. }
  revert Hin. generalize (default [] (cache !! k)). intros bucket Hin.
  induction bucket as [|x bucket IH]; simpl; [by exists false|]. rewrite Heqf.
  specialize (IH ltac:(set_solver)).
  destruct (bitset_equals _ _) eqn:E; [|done]. destruct (eqf _ _) eqn:E'; [|done].
  exists true. split; [done|]. intros _. exists x. split_and!; [set_solver| |done].
  symmetry. by apply equals_eq.
Qed.

(** ** Runs of the loop *)

(** Iterations that are not stopped, from states whose partial linearizations
    are right. *)
Definition reaches : search V St → search V St → Prop :=
  rtc (λ st st', search_step model cp (Some hd) 0 st = Some (inl st') ∧ longest_ok (s_longest st) (s_seqs st)).

Lemma reaches_refl st : reaches st st.
Proof. apply rtc_refl. Qed.

Lemma reaches_trans st1 st2 st3 : reaches st1 st2 → reaches st2 st3 → reaches st1 st3.
Proof. unfold reaches. intros. by etrans. Qed.

Lemma reaches_loop st st' :
  reaches st st' → ∃ k, ∀ fuel j, search_loop model cp (Some hd) (λ _, 0%Z) (k + fuel) j st =
                                  search_loop model cp (Some hd) (λ _, 0%Z) fuel (k + j) st'.
Proof.
  induction 1 as [st|st1 st2 st3 [E _] _ [k IH]]; [by exists 0|].
  exists (S k). intros fuel j. simpl. rewrite E. cbn [mbind option_bind]. rewrite IH. by rewrite Nat.add_succ_r.
Qed.

(** An iteration that may be told to stop: it does, or nothing changes. *)
Lemma killed_step z st r :
  search_step model cp (Some hd) 0 st = Some r →
  search_step model cp (Some hd) z st = Some r ∨
  search_step model cp (Some hd) z st = Some (inr (false, s_longest st, s_seqs st)).
Proof.
  unfold search_step. destruct (load (s_heap st) (Some hd)) as [nd|]; [|done]. cbn [mbind option_bind].
  destruct (n_next nd); [|by left]. destruct (z =? 0)%Z; cbn [negb]; [by left|by right].
Qed.

(** Whenever it is told to stop, the loop has ended by the end of the
    unstopped run, with right partial linearizations. *)
Lemma killed_loop st st' a :
  reaches st st' → search_step model cp (Some hd) 0 st' = Some (inr a) →
  longest_ok (s_longest st') (s_seqs st') → longest_ok a.1.2 a.2 →
  ∃ k, ∀ kill j, ∃ a', longest_ok a'.1.2 a'.2 ∧
    ∀ fuel, k ≤ fuel → search_loop model cp (Some hd) kill fuel j st = Some (inr a').
Proof.
  intros Hre Hend Hlong Ha. induction Hre as [st|st1 st2 st3 [E Hl] _ IH].
  - exists 1. intros kill j. destruct (killed_step (kill j) st _ Hend) as [E|E];
      eexists; (split; [|intros [|fuel] Hf; [lia|]; cbn [search_loop]; rewrite E; done]); done.
  - destruct (IH Hend Hlong) as [k Hk]. exists (S k). intros kill j. destruct (killed_step (kill j) st1 _ E) as [Es|Es].
    + destruct (Hk kill (S j)) as (a' & Ha' & Hf'). exists a'. split; [done|]. intros [|fuel] Hf; [lia|].
      cbn [search_loop]. rewrite Es. cbn [mbind option_bind]. apply Hf'. lia.
    + eexists. split; [|intros [|fuel] Hf; [lia|]; cbn [search_loop]; rewrite Es; done]. done.
Qed.

(** ** The configuration of the variables *)

Record rep st D l : Prop := {
  r_chain : dls (s_heap st) None (hd :: (live H D).*1) None;
  r_known : known H (s_heap st);
  r_bits : bitset_ok (s_linearized st);
  r_width : zlen (s_linearized st) = W;
  r_members : members (s_linearized st) = D;
  r_calls : call_ids (s_heap st) (s_calls st) = Some l;
  r_path : extends model H ∅ (Init model) l D (s_state st);
  r_longest : longest_ok (s_longest st) (s_seqs st)
}.

Lemma hd_live D : NoDup (hd :: (live H D).*1).
Proof.
  apply list.NoDup_cons. split; [|apply live_nodup].
  intros ([a e] & -> & [Hi _]%elem_of_live)%list_elem_of_fmap. simpl in Hhd.
  apply (list_elem_of_fmap_2 fst) in Hi. rewrite items_fst in Hi. unfold addresses in Hi.
  rewrite elem_of_reverse, elem_of_seq in Hi. simpl in Hi. lia.
Qed.

(** The node before the live list points to its first node. *)
Lemma head_next st D l : rep st D l →
  ∃ nd, s_heap st !! hd = Some nd ∧ n_next nd = first_of (live H D).*1 None.
Proof. intros Hr. destruct (r_chain _ _ _ Hr) as (nd & ? & _ & ? & _). by exists nd. Qed.

(** A node of the live list points to the next one. *)
Lemma live_next (h : heap V) D A a e B :
  dls h None (hd :: (live H D).*1) None → live H D = A ++ (a, e) :: B →
  ∃ nd, h !! a = Some nd ∧ n_next nd = first_of B.*1 None.
Proof.
  intros Hc E. rewrite E, fmap_app, app_comm_cons in Hc. apply dls_app in Hc as [_ Hc].
  destruct Hc as (nd & ? & _ & ? & _). by exists nd.
Qed.

Lemma reaches_step st st' D l : rep st D l → search_step model cp (Some hd) 0 st = Some (inl st') → reaches st st'.
Proof. intros Hr E. apply rtc_once. split; [done|apply (r_longest _ _ _ Hr)]. Qed.

Lemma rep_ids st D l : rep st D l → ∀ i, i ∈ l → (0 ≤ i < Z.of_nat n)%Z.
Proof.
  intros Hr i Hi. destruct (extends_ids _ _ _ _ _ _ _ i (r_path _ _ _ Hr) Hi) as (e & He & <-).
  by apply (id_bounds n H Hwf).
Qed.

(** An iteration at a live entry. *)
Lemma step_at st D l A a e B nd :
  rep st D l → live H D = A ++ (a, e) :: B → s_entry st = Some a → s_heap st !! a = Some nd →
  search_step model cp (Some hd) 0 st =
    match n_match nd with
    | Some _ => inl <$> try_call model (Some hd) nd st
    | None => if (zlen (s_calls st) =? 0)%Z then Some (inr (false, s_longest st, s_seqs st))
              else callsTop ← go_nth (s_calls st) (zlen (s_calls st) - 1);
                   inl <$> backtrack cp callsTop st
    end.
Proof.
  intros Hr E Ha Hnd. destruct (head_next _ _ _ Hr) as (nh & Hh & Hn).
  unfold search_step. cbn [load mbind option_bind]. rewrite Hh. cbn [mbind option_bind].
  rewrite Hn, E, fmap_app. destruct A as [|[??]?]; cbn; rewrite Ha; cbn; by rewrite Hnd.
Qed.

(** What a call entry of the live list is. *)
Lemma call_node st D l A a e B :
  rep st D l → live H D = A ++ (a, e) :: B → e_kind e = callEntry →
  ∃ nd q r nq, s_heap st !! a = Some nd ∧ n_value nd = e_value e ∧ n_match nd = Some q ∧
    n_id nd = e_id e ∧ n_next nd = first_of B.*1 None ∧ (q, r) ∈ items H ∧
    key r = (returnEntry, e_id e) ∧ s_heap st !! q = Some nq ∧ n_value nq = e_value r ∧
    e ∈ H ∧ (e_id e ∉ D) ∧ op_of H (e_id e) (e_value e) (e_value r).
Proof.
  intros Hr E Hk. assert ((a, e) ∈ live H D) as [Hi Hn]%elem_of_live by (rewrite E; set_solver).
  pose proof (r_known _ _ _ Hr a e Hi) as Hkn. rewrite Hk in Hkn.
  destruct Hkn as (q & r & Hc & Hq & Hkr). destruct (node_of _ _ _ _ _ Hc) as (nd & Hnd & Hv & Hm & Hid).
  destruct (live_next _ _ _ _ _ _ (r_chain _ _ _ Hr) E) as (nd' & Hnd' & Hnx). simplify_eq.
  pose proof (r_known _ _ _ Hr q r Hq) as Hkq.
  assert (e_kind r = returnEntry) as Hkr' by by injection Hkr. rewrite Hkr' in Hkq.
  destruct (node_of _ _ _ _ _ Hkq) as (nq & Hnq & Hvq & _).
  assert (e ∈ H) as He by by eapply item_entry.
  exists nd, q, r, nq. split_and!; try done.
  exists e, r. split_and!; try done; [by eapply item_entry|]. unfold key. congruence.
Qed.

(** Trying operation [i] from the configuration leads nowhere. *)
Definition refuted D (s : St) (i : Z) : Prop :=
  ∀ inp out s', op_of H i inp out → Step model s inp out = Some (true, s') →
    ¬ completes model H ({[i]} ∪ D) s'.

(** At the first return, every operation that could come next has been tried. *)
Lemma all_refuted D s A a e B :
  live H D = A ++ (a, e) :: B → e_kind e = returnEntry →
  (∀ p, p ∈ A → refuted D s (e_id p.2)) → ¬ completes model H D s.
Proof.
  intros E Hk HA (l & D2 & s2 & Hext & Hcov).
  assert ((a, e) ∈ live H D) as [Hi Hn]%elem_of_live by (rewrite E; set_solver).
  inversion Hext as [|? ? i inp out s' l' ? ? Hop [Hni Hen] Hst Hrest]; subst.
  { apply Hn, Hcov. by eapply item_entry. }
  pose proof Hop as (x & y & Hx & _ & Hkx & _). destruct (entry_item H x Hx) as [ax Hax].
  assert (e_id x = i ∧ e_kind x = callEntry) as [Hxi Hxk] by by injection Hkx.
  assert ((ax, x) ∈ live H D) as Hl by (apply elem_of_live; rewrite Hxi; done).
  rewrite E, elem_of_app, elem_of_cons in Hl. destruct Hl as [Hl|[Hl|Hl]].
  - apply (HA _ Hl inp out s'); simpl; rewrite ?Hxi; try done. by exists l', D2, s2.
  - congruence.
  - apply Hn, Hen. exists e, x. split_and!; [|unfold key; congruence|done].
    apply (live_order H D (a, e) (ax, x)). rewrite E. apply sublist_inserts_l, sublist_skip.
    by apply singleton_sublist_l.
Qed.

(** A call before which the live list has only calls can come next. *)
Lemma call_enabled D A a e B :
  live H D = A ++ (a, e) :: B → e_kind e = callEntry → (∀ p, p ∈ A → e_kind p.2 = callEntry) →
  enabled H D (e_id e).
Proof.
  intros E Hk HA. assert ((a, e) ∈ live H D) as [Hi Hn]%elem_of_live by (rewrite E; set_solver).
  pose proof (item_entry H a e Hi) as He.
  split; [done|]. intros j (y & x & Hs & Hy & Hx). apply dec_stable. intros Hj.
  assert (x = e) as ->.
  { apply (key_inj n H Hwf); [eapply elem_of_sublist; [|done]; set_solver|done|unfold key in *; congruence]. }
  assert (y ∈ H) as HyH by (eapply elem_of_sublist; [|done]; set_solver).
  destruct (entry_item H y HyH) as [ay Hay].
  assert (e_id y = j ∧ e_kind y = returnEntry) as [Hyj Hyk] by by injection Hy.
  assert ((ay, y) ∈ live H D) as Hl by (apply elem_of_live; rewrite Hyj; done).
  rewrite E, elem_of_app, elem_of_cons in Hl. destruct Hl as [Hl|[Hl|Hl]].
  - specialize (HA _ Hl). simpl in HA. congruence.
  - congruence.
  - apply (sublist_pair_asym H y e (entries_nodup n H Hwf) Hs).
    apply (live_order H D (a, e) (ay, y)). rewrite E. apply sublist_inserts_l, sublist_skip.
    by apply singleton_sublist_l.
Qed.

Lemma lift_live (h : heap V) D A a e B q r v i :
  dls h None (hd :: (live H D).*1) None → live H D = A ++ (a, e) :: B → e_kind e = callEntry →
  (q, r) ∈ items H → key r = (returnEntry, e_id e) → contents h a = Some (v, Some q, i) →
  ∃ h', lift h (Some a) = Some h' ∧ unlift h' (Some a) = Some h ∧
    dls h' None (hd :: (live H ({[e_id e]} ∪ D)).*1) None ∧ same_contents h h'.
Proof.
  intros Hc E Hk Hq Hkr Hcont. pose proof (hd_live D) as Hnd.
  destruct (live_linearize n H Hwf D A a e B q r E Hk Hq Hkr) as (B1 & B2 & -> & E').
  destruct (exists_last (l := hd :: A.*1)) as (A' & b & EA); [done|].
  rewrite E, !fmap_app, !fmap_cons, fmap_app, fmap_cons, app_comm_cons, EA in Hnd, Hc. simpl in Hnd, Hc.
  destruct (lift_unlift h A' b a B1.*1 q B2.*1 v i Hnd Hc Hcont) as (h' & ? & ? & Hd & Hs & _).
  exists h'. split_and!; try done. by rewrite E', !fmap_app, app_comm_cons, EA.
Qed.

(** Linearizing a call. *)
Lemma push_ok st D l A a e B q r s' b :
  rep st D l → live H D = A ++ (a, e) :: B → e_kind e = callEntry →
  (∀ p, p ∈ A → e_kind p.2 = callEntry) → s_entry st = Some a →
  (q, r) ∈ items H → key r = (returnEntry, e_id e) → contents (s_heap st) a = Some (e_value e, Some q, e_id e) →
  op_of H (e_id e) (e_value e) (e_value r) →
  Step model (s_state st) (e_value e) (e_value r) = Some (true, s') →
  bitset_set (e_id e) (s_linearized st) = Some b →
  cacheContains model (s_cache st) (CacheEntry b s') = Some false →
  ∃ st', search_step model cp (Some hd) 0 st = Some (inl st') ∧
    rep st' ({[e_id e]} ∪ D) (l ++ [e_id e]) ∧
    s_entry st' = first_of (live H ({[e_id e]} ∪ D)).*1 None ∧ s_state st' = s' ∧
    s_calls st' = s_calls st ++ [CallsEntry (Some a) (s_state st)] ∧
    s_cache st' = <[bitset_hash b := default [] (s_cache st !! bitset_hash b) ++ [CacheEntry b s']]> (s_cache st) ∧
    unlift (s_heap st') (Some a) = Some (s_heap st) ∧ same_contents (s_heap st) (s_heap st').
Proof.
  intros Hr E Hk HA Ha Hq Hkr Hcont Hop Hst Hset Hcache.
  destruct (node_of _ _ _ _ _ Hcont) as (nd & Hnd & Hv & Hm & Hid).
  pose proof (r_known _ _ _ Hr q r Hq) as Hkq.
  assert (e_kind r = returnEntry) as Hkr' by by injection Hkr. rewrite Hkr' in Hkq.
  destruct (node_of _ _ _ _ _ Hkq) as (nq & Hnq & Hvq & _).
  destruct (lift_live _ _ _ _ _ _ _ _ _ _ (r_chain _ _ _ Hr) E Hk Hq Hkr Hcont) as (h' & Hl & Hu & Hd & Hs).
  assert (e ∈ H) as He by (destruct (proj1 (elem_of_live H D a e)) as [Hi _];
    [rewrite E; set_solver|by eapply item_entry]).
  destruct (set_spec (e_id e) (s_linearized st) (r_bits _ _ _ Hr)) as (b' & Hset' & Hb' & Hw' & Hm').
  { pose proof (id_bounds n H Hwf e He). unfold in_range. rewrite (r_width _ _ _ Hr). lia. }
  simplify_eq. pose proof Hd as (nh & Hh & _ & Hnh & _). fold (first_of (live H ({[e_id e]} ∪ D)).*1 None) in Hnh.
  eexists. split.
  { rewrite (step_at st D l A a e B nd Hr E Ha Hnd), Hm. unfold try_call. rewrite Hm, Ha.
    cbn [load mbind option_bind]. rewrite Hnq. cbn [mbind option_bind].
    rewrite Hv, Hvq, Hst. cbn [mbind option_bind]. unfold bitset_clone. rewrite firstn_all, Hid, Hset.
    cbn [mbind option_bind]. rewrite Hcache. cbn [mbind option_bind negb]. rewrite Hl.
    cbn [mbind option_bind]. rewrite Hh. cbn [mbind option_bind]. reflexivity. }
  fields. split_and!; try done. split; fields; try done.
  - by eapply known_same; [|apply (r_known _ _ _ Hr)].
  - rewrite Hw'. apply (r_width _ _ _ Hr).
  - by rewrite Hm', (r_members _ _ _ Hr).
  - rewrite (call_ids_same _ _ _ Hs), <- Hid. apply call_ids_snoc; [apply (r_calls _ _ _ Hr)|done].
  - eapply extends_app; [apply (r_path _ _ _ Hr)|]. econstructor; [done| |done|constructor].
    by eapply call_enabled.
  - apply (r_longest _ _ _ Hr).
Qed.

(** Going back to the configuration before the last call was linearized. *)
Lemma backtrack_ok st D l A a e B st1 a1 r1 :
  rep st D l → live H D = A ++ (a, e) :: B → contents (s_heap st) a ≫= (λ c, Some c.2) = Some (e_id e) →
  rep st1 ({[e_id e]} ∪ D) (l ++ [e_id e]) →
  s_calls st1 = s_calls st ++ [CallsEntry (Some a) (s_state st)] →
  unlift (s_heap st1) (Some a) = Some (s_heap st) → same_contents (s_heap st) (s_heap st1) →
  s_entry st1 = Some a1 → (a1, r1) ∈ live H ({[e_id e]} ∪ D) → e_kind r1 = returnEntry →
  ∃ st2, search_step model cp (Some hd) 0 st1 = Some (inl st2) ∧ rep st2 D l ∧
    s_heap st2 = s_heap st ∧ s_calls st2 = s_calls st ∧ s_state st2 = s_state st ∧
    s_cache st2 = s_cache st1 ∧ s_entry st2 = first_of B.*1 None.
Proof.
  intros Hr E Hcid Hr1 Hcalls Hun Hs He1 Hin Hk1.
  pose proof Hin as (A1 & B1 & E1)%list_elem_of_split.
  apply elem_of_live in Hin as [Hi1 _]. pose proof (r_known _ _ _ Hr1 a1 r1 Hi1) as Hkn. rewrite Hk1 in Hkn.
  destruct (node_of _ _ _ _ _ Hkn) as (nd1 & Hnd1 & _ & Hm1 & _).
  assert (∃ lg sq, (if cp then ids ← call_ids (s_heap st1) (s_calls st1);
      recordLongest ids ids None (s_longest st1) (s_seqs st1)
    else Some (s_longest st1, s_seqs st1)) = Some (lg, sq) ∧ longest_ok lg sq) as (lg & sq & Erec & Hlg).
  { destruct cp; [|do 2 eexists; split; [done|apply (r_longest _ _ _ Hr1)]].
    rewrite (r_calls _ _ _ Hr1). cbn [mbind option_bind].
    apply recordLongest_ok; [apply (r_longest _ _ _ Hr1)|by do 2 eexists; apply (r_path _ _ _ Hr1)|done| |done].
    by apply (rep_ids _ _ _ Hr1). }
  destruct (live_next _ _ _ _ _ _ (r_chain _ _ _ Hr) E) as (nd & Hnd & Hnx).
  assert (∃ nd', s_heap st1 !! a = Some nd' ∧ n_id nd' = e_id e) as (nd' & Hnd' & Hid').
  { pose proof (Hs a) as Ha. rewrite <- Ha in Hcid. unfold contents in Hcid.
    destruct (s_heap st1 !! a) as [nd'|]; [|done]. exists nd'. split; [done|]. by injection Hcid. }
  assert ((a, e) ∈ live H D) as [Hi Hn]%elem_of_live by (rewrite E; set_solver).
  destruct (clear_spec (e_id e) (s_linearized st1) (r_bits _ _ _ Hr1)) as (b & Hb & Hbok & Hbw & Hbm).
  { pose proof (id_bounds n H Hwf e (item_entry H a e Hi)). unfold in_range.
    rewrite (r_width _ _ _ Hr1). lia. }
  eexists. split.
  { rewrite (step_at st1 _ _ A1 a1 r1 B1 nd1 Hr1 E1 He1 Hnd1), Hm1, Hcalls.
    rewrite (zlen_app _ [_]), zlen_cons, zlen_nil.
    destruct (_ =? 0)%Z eqn:E0; b2p; [pose proof (zlen_nonneg (s_calls st)); lia|].
    replace (zlen (s_calls st) + (1 + 0) - 1)%Z with (zlen (s_calls st)) by lia.
    rewrite go_nth_app_r, Z.sub_diag by lia. cbn [go_nth]. rewrite go_nth_0. cbn [mbind option_bind].
    unfold backtrack. rewrite Erec. cbn [mbind option_bind cl_entry cl_state load]. rewrite Hnd'.
    cbn [mbind option_bind]. rewrite Hid', Hb, Hcalls. cbn [mbind option_bind].
    rewrite (zlen_app _ [_]), zlen_cons, zlen_nil.
    replace (zlen (s_calls st) + (1 + 0) - 1)%Z with (zlen (s_calls st)) by lia.
    rewrite go_upto_ok by (rewrite (zlen_app _ [_]); pose proof (zlen_nonneg (s_calls st));
      pose proof (zlen_nonneg [CallsEntry (Some a) (s_state st)]); lia).
    cbn [mbind option_bind]. rewrite Hun. cbn [mbind option_bind]. rewrite Hnd.
    cbn [mbind option_bind]. reflexivity. }
  assert (take (Z.to_nat (zlen (s_calls st))) (s_calls st ++ [CallsEntry (Some a) (s_state st)]) =
    s_calls st) as Etake by (unfold zlen; by rewrite Nat2Z.id, take_app_length).
  fields. split_and!; try done. split; fields; rewrite ?Etake; try apply Hr; try done.
  - rewrite Hbw. apply (r_width _ _ _ Hr1).
  - rewrite Hbm, (r_members _ _ _ Hr1). set_solver.
Qed.

(** ** The search *)

(** The two ends of the exploration of a configuration. *)
Definition found st : Prop :=
  ∃ st' D' l', reaches st st' ∧ rep st' D' l' ∧ live H D' = [].

Definition refused st D l : Prop :=
  ∃ st' a r, reaches st st' ∧ rep st' D l ∧ s_heap st' = s_heap st ∧ s_calls st' = s_calls st ∧
    s_state st' = s_state st ∧ cache_grows (s_cache st) (s_cache st') ∧
    s_entry st' = Some a ∧ (a, r) ∈ live H D ∧ e_kind r = returnEntry ∧
    ¬ completes model H D (s_state st).

Lemma found_after st st' : reaches st st' → found st' → found st.
Proof.
  intros Hr (st2 & D & l & Hr2 & ? & ?). exists st2, D, l. split; [|done]. by eapply reaches_trans.
Qed.

Lemma refused_after st st' D l :
  reaches st st' → s_heap st' = s_heap st → s_calls st' = s_calls st → s_state st' = s_state st →
  cache_grows (s_cache st) (s_cache st') → refused st' D l → refused st D l.
Proof.
  intros Hr Hh Hc Hs Hg (st2 & a & r & Hr2 & Hrep & Hh2 & Hc2 & Hs2 & Hg2 & Ha & Hl & Hk & Hn).
  exists st2, a, r. split_and!; try congruence; [by eapply reaches_trans|].
  intros e He. destruct (Hg2 e He) as [He'|]; [by apply Hg|by right].
Qed.

Lemma cache_grows_ok c c' D : cache_grows c c' → cache_ok c D → cache_ok c' D.
Proof. intros Hg Hc e He. destruct (Hg e He); auto. Qed.

(** Skipping an entry keeps everything but [entry]. *)
Definition skip_to st (p : ptr) : search V St :=
  Search (s_heap st) p (s_linearized st) (s_cache st) (s_calls st) (s_longest st) (s_seqs st) (s_state st).

Lemma rep_skip st p D l : rep st D l → rep (skip_to st p) D l.
Proof. intros []. by split. Qed.

(** An iteration at a call: it is skipped and refuted, or linearized. *)
Lemma call_cases st D l A a e B :
  rep st D l → live H D = A ++ (a, e) :: B → e_kind e = callEntry →
  (∀ p, p ∈ A → e_kind p.2 = callEntry) → s_entry st = Some a → cache_ok (s_cache st) D →
  (search_step model cp (Some hd) 0 st = Some (inl (skip_to st (first_of B.*1 None))) ∧
   refuted D (s_state st) (e_id e)) ∨
  ∃ st' b r s', search_step model cp (Some hd) 0 st = Some (inl st') ∧
    rep st' ({[e_id e]} ∪ D) (l ++ [e_id e]) ∧
    s_entry st' = first_of (live H ({[e_id e]} ∪ D)).*1 None ∧ s_state st' = s' ∧
    s_calls st' = s_calls st ++ [CallsEntry (Some a) (s_state st)] ∧
    s_cache st' = <[bitset_hash b := default [] (s_cache st !! bitset_hash b) ++ [CacheEntry b s']]> (s_cache st) ∧
    unlift (s_heap st') (Some a) = Some (s_heap st) ∧ same_contents (s_heap st) (s_heap st') ∧
    members b = {[e_id e]} ∪ D ∧ op_of H (e_id e) (e_value e) (e_value r) ∧
    Step model (s_state st) (e_value e) (e_value r) = Some (true, s').
Proof.
  intros Hr E Hk HA Ha Hc.
  destruct (call_node _ _ _ _ _ _ _ Hr E Hk) as
    (nd & q & r & nq & Hnd & Hv & Hm & Hid & Hnx & Hq & Hkr & Hnq & Hvq & He & Hn & Hop).
  destruct (Htotal (s_state st) _ _ _ Hop) as [[ok s'] Hst].
  destruct (set_spec (e_id e) (s_linearized st) (r_bits _ _ _ Hr)) as (b & Hset & Hbok & Hw & Hmem).
  { pose proof (id_bounds n H Hwf e He). unfold in_range. rewrite (r_width _ _ _ Hr). lia. }
  rewrite (r_members _ _ _ Hr) in Hmem.
  destruct (cacheContains_ok (s_cache st) (CacheEntry b s')) as (fnd & Hf & Hfound).
  destruct (decide (ok = true ∧ fnd = false)) as [[-> ->]|Hskip].
  - right. assert (contents (s_heap st) a = Some (e_value e, Some q, e_id e)) as Hcont
      by (unfold contents; rewrite Hnd; simpl; congruence).
    destruct (push_ok _ _ _ _ _ _ _ _ _ _ _ Hr E Hk HA Ha Hq Hkr Hcont Hop Hst Hset Hf)
      as (st' & ? & ? & ? & ? & ? & ? & ? & ?).
    exists st', b, r, s'. by split_and!.
  - left. split.
    + rewrite (step_at st D l A a e B nd Hr E Ha Hnd), Hm. unfold try_call. rewrite Hm.
      cbn [load mbind option_bind]. rewrite Hnq. cbn [mbind option_bind].
      rewrite Hv, Hvq, Hst. cbn [mbind option_bind]. unfold bitset_clone. rewrite firstn_all, Hid, Hset.
      cbn [mbind option_bind]. rewrite Hf, Hnx. destruct ok, fnd; try done. by destruct Hskip.
    + intros inp out s'' Hop' Hst' Hcomp. destruct (op_of_det n H Hwf _ _ _ _ _ Hop Hop') as [-> ->].
      simplify_eq. destruct fnd; [|by destruct Hskip].
      destruct (Hfound eq_refl) as (e' & Hin & Hlin & Heq). simpl in Hlin, Heq.
      destruct (Hc e' Hin) as [Hdead|Hsub]; [|rewrite Hlin, Hmem in Hsub; set_solver].
      apply Hdead. rewrite Hlin, Hmem. by eapply completes_equal.
Qed.

(** After the failed exploration of a pushed configuration its cache entry is dead. *)
Lemma cache_grows_pushed c c' k b s' D :
  cache_grows (<[k := default [] (c !! k) ++ [CacheEntry b s']]> c) c' →
  members b = D → ¬ completes model H D s' → cache_grows c c'.
Proof.
  intros Hg <- Hn e He. destruct (Hg e He) as [Hin|]; [|by right].
  apply in_cache_add in Hin as [Hin| ->]; [by left|by right].
Qed.

Lemma cache_ok_pushed c k b s' D D' :
  cache_ok c D → D ⊆ D' → members b = D' →
  cache_ok (<[k := default [] (c !! k) ++ [CacheEntry b s']]> c) D'.
Proof.
  intros Hc Hsub Hb e [Hin| ->]%in_cache_add; [destruct (Hc e Hin); [by left|right; set_solver]|].
  right. simpl. by rewrite Hb.
Qed.

(** The live list always ends with a return. *)
Lemma not_all_calls D p : p ∈ live H D → ¬ (∀ p, p ∈ live H D → e_kind p.2 = callEntry).
Proof.
  destruct p as [a e]. intros [Hi Hn]%elem_of_live Hall.
  destruct (entry_of n H Hwf returnEntry (e_id e)) as (r & Hr & Hk).
  { by eapply (id_bounds n H Hwf), item_entry. }
  destruct (entry_item H r Hr) as [q Hq]. assert (e_id r = e_id e ∧ e_kind r = returnEntry) as [Hid Hkr]
    by by injection Hk.
  assert ((q, r) ∈ live H D) as Hl by (apply elem_of_live; by rewrite Hid).
  specialize (Hall _ Hl). simpl in Hall. congruence.
Qed.

Lemma live_shrink D a e :
  (a, e) ∈ live H D → length (live H ({[e_id e]} ∪ D)) < length (live H D).
Proof.
  intros Hi. assert (live H ({[e_id e]} ∪ D) = filter (λ p, e_id p.2 ≠ e_id e) (live H D)) as ->.
  { unfold live. rewrite list_filter_filter. apply list_filter_iff. set_solver. }
  eapply length_filter_lt; [done|]. simpl. tauto.
Qed.

(** From a configuration whose entries in [A] are refuted, and with [entry] at
    the start of [B], the loop finds a linearization or refutes all of it. *)
Lemma explore N : ∀ B A st D l,
  length (live H D) ≤ N → rep st D l → live H D = A ++ B → live H D ≠ [] →
  (∀ p, p ∈ A → e_kind p.2 = callEntry ∧ refuted D (s_state st) (e_id p.2)) →
  s_entry st = first_of B.*1 None → cache_ok (s_cache st) D →
  found st ∨ refused st D l.
Proof.
  induction N as [N IHN] using lt_wf_ind. intros B.
  induction B as [|[a e] B IHB]; intros A st D l HN Hr E Hne HA Ha Hc.
  { exfalso. rewrite app_nil_r in E. destruct (live H D) as [|p ?] eqn:E'; [done|].
    apply (not_all_calls D p); rewrite E'; [set_solver|]. intros p'. rewrite E. apply HA. }
  simpl in Ha. destruct (e_kind e) eqn:Hk; last first.
  { right. exists st, a, e. split_and!; try done; [by left|rewrite E; set_solver|].
    eapply all_refuted; [done|done|]. intros p Hp. by apply HA. }
  assert (∀ p, p ∈ A → e_kind p.2 = callEntry) as HA' by (intros; by apply HA).
  assert (live H D = (A ++ [(a, e)]) ++ B) as E2 by by rewrite <- app_assoc.
  assert (∀ s, s = s_state st → refuted D (s_state st) (e_id e) →
    ∀ p, p ∈ A ++ [(a, e)] → e_kind p.2 = callEntry ∧ refuted D s (e_id p.2)) as HA2.
  { intros s -> Href p [Hp| ->%list_elem_of_singleton]%elem_of_app; [by apply HA|done]. }
  destruct (call_cases _ _ _ _ _ _ _ Hr E Hk HA' Ha Hc) as [[Hstep Href]|
    (st1 & b & r & s' & Hstep & Hr1 & He1 & Hs1 & Hcl1 & Hca1 & Hun & Hsame & Hb & Hop & Hst)].
  - apply (reaches_step _ _ _ _ Hr) in Hstep.
    destruct (IHB _ _ D l HN (rep_skip _ (first_of B.*1 None) _ _ Hr) E2 Hne (HA2 _ eq_refl Href) eq_refl Hc).
    + left. by eapply found_after.
    + right. eapply refused_after; try done. by left.
  - apply (reaches_step _ _ _ _ Hr) in Hstep. set (D1 := {[e_id e]} ∪ D) in *.
    destruct (decide (live H D1 = [])) as [Hnil|Hne1]; [left; by exists st1, D1, (l ++ [e_id e])|].
    destruct (IHN (length (live H D1))) with (B := live H D1) (A := @nil (nat * entry V)) (st := st1)
      (D := D1) (l := l ++ [e_id e]) as [Hf|(st2 & a2 & r2 & Hre & Hr2 & Hh2 & Hcl2 & Hs2 & Hg2 & Ha2 & Hl2 & Hk2 & Hn2)];
      try done; [|set_solver|rewrite Hca1; eapply cache_ok_pushed; set_solver| |].
    { apply (Nat.lt_le_trans _ (length (live H D))); [|done].
      eapply live_shrink. rewrite E. apply elem_of_app. right. left. }
    { left. by eapply found_after. }
    assert (refuted D (s_state st) (e_id e)) as Href.
    { intros inp out s'' Hop' Hst'. destruct (op_of_det n H Hwf _ _ _ _ _ Hop Hop') as [-> ->].
      by simplify_eq. }
    destruct (backtrack_ok st D l A a e B st2 a2 r2 Hr E) as (st3 & Hstep3 & Hr3 & Hh3 & Hcl3 & Hs3 & Hca3 & He3);
      try done; try congruence.
    { destruct (call_node _ _ _ _ _ _ _ Hr E Hk) as (nd & q & ? & ? & Hnd & ? & ? & Hid & _).
      unfold contents. rewrite Hnd. simpl. by rewrite Hid. }
    apply (reaches_step _ _ _ _ Hr2) in Hstep3. assert (reaches st st3) as Hre3 by (eauto using reaches_trans).
    assert (cache_grows (s_cache st) (s_cache st3)) as Hg3.
    { rewrite Hca3. rewrite Hca1 in Hg2. eapply cache_grows_pushed; [done|done|]. by rewrite <- Hs1. }
    destruct (IHB (A ++ [(a, e)]) st3 D l HN Hr3 E2 Hne (HA2 _ Hs3 Href) He3) as [Hf|Hf].
    + by eapply cache_grows_ok.
    + left. by eapply found_after.
    + right. by eapply refused_after.
Qed.
End proof.

(** ** checkSingle *)

Section single.
Context {V St : Type} `{!Interface V} (model : Model V St) (eqf : St → St → bool).
Context (n : nat) (H : list (entry V)) (Hwf : wf_entries n H).
Context (Heqf : Equal model = Some eqf) (Hsim : equal_ok model eqf).
Context (Htotal : ∀ s i inp out, op_of H i inp out → is_Some (Step model s inp out)).
Context (cp : bool).

Let W := zlen (newBitset (Z.of_nat n)).

Lemma checkSingle_init_ok :
  ∃ st, checkSingle_init model H = Some (Some (length H), st) ∧
    rep model n H (length H) W st ∅ [] ∧ s_entry st = first_of (live H ∅).*1 None ∧
    s_cache st = ∅ ∧ s_calls st = [] ∧ s_state st = Init model.
Proof.
  destruct (linkEntries_ok H) as (h & m & E & Hlen & Hnd & Hl & Hst & _).
  destruct (push_front h _ nil_value None (-1) Hnd Hl) as (h' & E' & Hl' & _ & Hlen' & _ & Hc).
  assert ((live H ∅).*1 = addresses (length H)) as Hlive.
  { rewrite <- items_fst. f_equal. apply filter_all. set_solver. }
  destruct (newBitset_ok (Z.of_nat n) ltac:(lia)) as (Hok & Hmem & _).
  assert (list_length h (first_of (addresses (length H)) None) = Some (2 * Z.of_nat n)%Z) as Elen.
  { unfold list_length. assert (zlen (addresses (length H)) = 2 * Z.of_nat n)%Z as Ez.
    { unfold zlen, addresses. rewrite length_reverse, length_seq, (wf_length n H Hwf). lia. }
    rewrite (walk_ok h None _ _ _ Hl), Ez; [f_equal; lia|].
    unfold addresses. rewrite length_reverse, length_seq. lia. }
  eexists. unfold checkSingle_init, makeLinkedEntries. rewrite E. cbn [mbind option_bind].
  rewrite Elen. cbn [mbind option_bind alloc]. rewrite E'. cbn [mbind option_bind].
  rewrite Hlen, Z.mul_comm, Z.div_mul by done. split; [done|]. fields.
  split_and!; [|by rewrite Hlive|done..]. split; fields; try done.
  - rewrite Hlive. by rewrite Hlen in Hl'.
  - apply (stored_known n H Hwf), (stored_ext h); [|done]. intros a Ha. apply Hc. by rewrite Hlen.
  - constructor.
  - split; [rewrite length_replicate; lia|]. by intros i a [? _]%lookup_replicate.
Qed.

(** A sequence of identifiers that linearizes the history. *)
Definition complete (l : list Z) : Prop :=
  ∃ D s, extends model H ∅ (Init model) l D s ∧ covers H D.

(** What the pointers of [longest] lead to. *)
Definition answer_ok (a : bool * list ptr * list (list Z)) : Prop :=
  let '(ok, longest, seqs) := a in
  longest_ok model n H longest seqs ∧
  if ok : bool then
    completes model H ∅ (Init model) ∧
    ∀ i p, longest !! i = Some p → ∃ b sq, p = Some b ∧ seqs !! b = Some sq ∧ complete sq
  else ¬ completes model H ∅ (Init model).

Lemma finish_ok st D l :
  rep model n H (length H) W st D l → live H D = [] →
  ∃ a, search_step model cp (Some (length H)) 0 st = Some (inr a) ∧ answer_ok a.
Proof.
  intros Hr Hnil. destruct (head_next _ _ _ _ _ _ _ _ Hr) as (nd & Hnd & Hn).
  rewrite Hnil in Hn. pose proof (r_path _ _ _ _ _ _ _ _ Hr) as Hp.
  pose proof (proj1 (live_nil n H Hwf D) Hnil) as Hcov.
  unfold search_step. cbn [load mbind option_bind]. rewrite Hnd. cbn [mbind option_bind]. rewrite Hn.
  unfold finish. rewrite (r_calls _ _ _ _ _ _ _ _ Hr). eexists. split; [done|].
  destruct (r_longest _ _ _ _ _ _ _ _ Hr) as [Hlen Hlook]. simpl.
  assert ((s_seqs st ++ [l]) !! length (s_seqs st) = Some l) as Hlast by by apply list_lookup_middle.
  split_and!; [split; [by rewrite length_replicate|]| |].
  - intros i a [[= ->] Hi]%lookup_replicate. exists l. split_and!; [done|by do 2 eexists|].
    rewrite Hlen in Hi. destruct (entry_of n H Hwf callEntry (Z.of_nat i)) as (e & He & Hk); [lia|].
    specialize (Hcov e He). rewrite (extends_dom _ _ _ _ _ _ _ Hp) in Hcov. injection Hk as _ Hid.
    rewrite Hid in Hcov. set_solver.
  - by exists l, D, (s_state st).
  - intros i p [-> Hi]%lookup_replicate. do 2 eexists. split_and!; [done..|]. by do 2 eexists.
Qed.

(** The run of the search, from its first state to its answer. *)
Lemma checkSingle_run :
  ∃ st st' a, checkSingle_init model H = Some (Some (length H), st) ∧ reaches model n H cp (length H) st st' ∧
    search_step model cp (Some (length H)) 0 st' = Some (inr a) ∧ answer_ok a ∧
    longest_ok model n H (s_longest st') (s_seqs st').
Proof.
  destruct checkSingle_init_ok as (st & Einit & Hr & He & Hc & Hcl & Hs). exists st.
  destruct (decide (live H ∅ = [])) as [Hnil|Hne].
  { destruct (finish_ok _ _ _ Hr Hnil) as (a & ? & ?). exists st, a.
    split_and!; [done|apply reaches_refl|done|done|apply (r_longest _ _ _ _ _ _ _ _ Hr)]. }
  destruct (explore model eqf n H Hwf Heqf Hsim Htotal cp (length H) ltac:(done) W
    ltac:(apply newBitset_ok; lia) (length (live H ∅)) (live H ∅) [] st ∅ [] ltac:(done) Hr eq_refl Hne)
    as [(st' & D & l & Hre & Hr' & Hnil)|Href]; try done; [set_solver| | |].
  { intros e (kk & bb & Hin & _). by rewrite Hc in Hin. }
  { destruct (finish_ok _ _ _ Hr' Hnil) as (a & ? & ?). exists st', a.
    split_and!; try done. apply (r_longest _ _ _ _ _ _ _ _ Hr'). }
  destruct Href as (st' & a & r & Hre & Hr' & _ & Hcl' & Hs' & _ & Ha & Hl & Hkr & Hn).
  pose proof (r_longest _ _ _ _ _ _ _ _ Hr') as Hlong.
  exists st', (false, s_longest st', s_seqs st'). split_and!; [done|done| |by split; [|rewrite <- Hs]|done].
  pose proof Hl as (A & B & E)%list_elem_of_split. apply elem_of_live in Hl as [Hi _].
  pose proof (r_known _ _ _ _ _ _ _ _ Hr' a r Hi) as Hkn. rewrite Hkr in Hkn.
  destruct (node_of _ _ _ _ _ Hkn) as (nd & Hnd & _ & Hm & _).
  by rewrite (step_at _ _ _ _ _ _ _ _ _ _ _ _ _ _ Hr' E Ha Hnd), Hm, Hcl', Hcl.
Qed.

(** With enough fuel the search returns, and its answer is right. *)
Lemma checkSingle_spec :
  ∃ fuel a, answer_ok a ∧
    ∀ fuel', fuel ≤ fuel' → checkSingle model fuel' H cp (λ _, 0%Z) = Some (inr a).
Proof.
  destruct checkSingle_run as (st & st' & a & Einit & [k Hk]%reaches_loop & Hstep & Ha & _).
  exists (k + 1), a. split; [done|]. intros fuel' Hf. unfold checkSingle. rewrite Einit.
  cbn [mbind option_bind]. replace fuel' with (k + S (fuel' - k - 1)) by lia.
  rewrite Hk. simpl. by rewrite Hstep.
Qed.

(** A search that may be stopped at any time returns, and what it has found so
    far are partial linearizations. *)
Lemma checkSingle_killed :
  ∃ fuel, ∀ kill, ∃ a, longest_ok model n H a.1.2 a.2 ∧
    ∀ fuel', fuel ≤ fuel' → checkSingle model fuel' H cp kill = Some (inr a).
Proof.
  destruct checkSingle_run as (st & st' & a & Einit & Hre & Hstep & Ha & Hl).
  edestruct (killed_loop model n H) as [k Hk]; [done|exact Hre|done|done|by destruct a as [[? ?] ?], Ha|].
  exists k. intros kill. destruct (Hk kill 0) as (a' & Ha' & Hf). exists a'. split; [done|].
  intros fuel' Hle. unfold checkSingle. rewrite Einit. cbn [mbind option_bind]. by apply Hf.
Qed.
End single.
