(* ===== verification/PorcupineHistory.v ===== *)
(** * From operations and events to entries (porcupine/checker.go)

    [makeEntries] turns timed operations into sorted entries, [renumber] and
    [convertEntries] turn a list of events into entries.  [sort.Sort] is an
    argument with its documented contract [sorts].  The file shows that the
    entries are well formed, that [complete] runs of the search are the
    linearizations of the history ([complete_iff]), and relates these to
    linearizations of operations. *)

From stdpp Require Import sorting.
From S2P Require Import Prelude PorcupineModel PorcupineList PorcupineSpec PorcupineProof.

Section entries.
Context {V : Type}.

(** [byTime.Less] *)
Definition byTime_Less (a b : entry V) : bool :=
  if negb (e_time a =? e_time b)%Z then (e_time a <? e_time b)%Z
  else bool_decide (e_kind a = callEntry) && bool_decide (e_kind b = returnEntry).

(** The contract of [sort.Sort]: the same elements, in ascending order of [Less]. *)
Definition sorts (sort : list (entry V) → list (entry V)) : Prop :=
  ∀ l, sort l ≡ₚ l ∧ Sorted (λ a b, byTime_Less b a = false) (sort l).

Fixpoint makeEntries_loop (history : list (Operation V)) (id : Z) : list (entry V) :=
  match history with
  | [] => []
  | elem :: history =>
      Entry callEntry (op_Input elem) id (op_Call elem) (op_ClientId elem) ::
      Entry returnEntry (op_Output elem) id (op_Return elem) (op_ClientId elem) ::
      makeEntries_loop history (id + 1)
  end.

Definition makeEntries (sort : list (entry V) → list (entry V)) (history : list (Operation V)) :
    list (entry V) := sort (makeEntries_loop history 0).

Fixpoint renumber_loop (events : list (Event V)) (m : gmap Z Z) (id : Z) : list (Event V) :=
  match events with
  | [] => []
  | v :: events =>
      match m !! ev_Id v with
      | Some r => MkEvent (ev_ClientId v) (ev_Kind v) (ev_Value v) r :: renumber_loop events m id
      | None => MkEvent (ev_ClientId v) (ev_Kind v) (ev_Value v) id ::
                renumber_loop events (<[ev_Id v := id]> m) (id + 1)
      end
  end.

Definition renumber (events : list (Event V)) : list (Event V) := renumber_loop events ∅ 0.

Definition entry_kind (k : EventKind) : entryKind :=
  match k with ReturnEvent => returnEntry | CallEvent => callEntry end.

(** The index is the time. *)
Definition convertEntries (events : list (Event V)) : list (entry V) :=
  imap (λ i elem, Entry (entry_kind (ev_Kind elem)) (ev_Value elem) (ev_Id elem) (Z.of_nat i)
                        (ev_ClientId elem)) events.
End entries.

(** stdpp's merge sort meets the contract. *)
Section sorting.
Context {V : Type}.

Definition byTime_le (a b : entry V) : Prop := byTime_Less b a = false.

#[export] Instance byTime_le_dec : RelDecision byTime_le.
Proof. intros a b. unfold byTime_le. apply _. Defined.

Lemma byTime_le_spec a b :
  byTime_le a b ↔ (e_time a < e_time b)%Z ∨
    (e_time a = e_time b ∧ (e_kind a = callEntry ∨ e_kind b = returnEntry)).
Proof.
  unfold byTime_le, byTime_Less. destruct (_ =? _)%Z eqn:E; b2p; simpl.
  - destruct (e_kind a), (e_kind b); simpl; intuition (done || lia || congruence).
  - rewrite Z.ltb_ge. lia.
Qed.

#[export] Instance byTime_le_trans : Transitive byTime_le.
Proof.
  intros a b c. rewrite !byTime_le_spec. destruct (e_kind a), (e_kind b), (e_kind c); intuition (lia || congruence).
Qed.

#[export] Instance byTime_le_total : Total byTime_le.
Proof.
  intros a b. rewrite !byTime_le_spec.
  destruct (Z.lt_trichotomy (e_time a) (e_time b)) as [?|[?|?]]; [by left; left| |by right; left].
  destruct (e_kind a); [left|right]; auto.
Qed.

Definition byTime_sort : list (entry V) → list (entry V) := merge_sort byTime_le.

Lemma byTime_sort_ok : sorts byTime_sort.
Proof. intros l. split; [apply merge_sort_Permutation|]. apply Sorted_merge_sort, _. Qed.

(** The order of entries in a sorted list is that of their times. *)
Lemma sorted_order (l : list (entry V)) x y :
  Sorted byTime_le l → [x; y] `sublist_of` l → byTime_le x y.
Proof.
  intros Hs%Sorted_StronglySorted; [|apply _].
  intros (k1 & k2 & -> & Hy%singleton_sublist_l)%sublist_cons_l.
  apply StronglySorted_app in Hs as (_ & _ & [Hf _]%StronglySorted_cons).
  rewrite list.Forall_forall in Hf. by apply Hf.
Qed.
End sorting.

(** ** Linearizations of entries *)

Section lin.
Context {V St : Type} (model : Model V St) (H : list (entry V)).

(** An order of all operations that respects real time and that the model can run. *)
Record entries_lin (l : list Z) : Prop := {
  el_nodup : NoDup l;
  el_all : ∀ i, i ∈ l ↔ ∃ e, e ∈ H ∧ e_id e = i;
  el_order : ∀ i j, [i; j] `sublist_of` l → ¬ precedes H j i;
  el_legal : ∃ ios, Forall2 (λ i io, op_of H i io.1 io.2) l ios ∧ is_Some (legal model (Init model) ios)
}.

Lemma extends_lin D s l D2 s2 :
  extends model H D s l D2 s2 →
  NoDup l ∧ (∀ i, i ∈ l → i ∉ D) ∧ (∀ i j, [i; j] `sublist_of` l → ¬ precedes H j i) ∧
  ∃ ios, Forall2 (λ i io, op_of H i io.1 io.2) l ios ∧ legal model s ios = Some s2.
Proof.
  induction 1 as [|D s i inp out s' l D2 s2 Hop [Hni Hen] Hst _ (Hnd & Hdis & Ho & ios & Hios & Hleg)].
  { split_and!; [constructor|set_solver|intros ?? Hs; inversion Hs|by exists []]. }
  split_and!.
  - apply list.NoDup_cons. split; [|done]. intros Hi. by apply (Hdis i Hi), elem_of_union; left; set_solver.
  - intros j [->|Hj]%elem_of_cons; [done|]. specialize (Hdis j Hj). set_solver.
  - intros a b (k1 & k2 & E & Hb%singleton_sublist_l)%sublist_cons_l Hp.
    destruct k1 as [|x k1]; injection E as -> ->.
    + apply (Hdis b Hb). apply elem_of_union. right. by apply Hen.
    + apply (Ho a b); [|done]. apply sublist_inserts_l, sublist_skip. by apply singleton_sublist_l.
  - exists ((inp, out) :: ios). split; [by constructor|]. simpl. by rewrite Hst.
Qed.

(** A run is closed under real-time predecessors. *)
Lemma extends_closed D s l D2 s2 i j :
  extends model H D s l D2 s2 → i ∈ l → precedes H j i → j ∈ l ∨ j ∈ D.
Proof.
  induction 1 as [|D s k inp out s' l D2 s2 _ [_ Hen] _ _ IH]; [set_solver|].
  intros [->|Hi]%elem_of_cons Hp; [right; by apply Hen|]. destruct (IH Hi Hp); set_solver.
Qed.

Lemma lin_extends n D s l ios s2 :
  wf_entries n H → NoDup l → (∀ i, i ∈ l → i ∉ D) → (∀ i j, [i; j] `sublist_of` l → ¬ precedes H j i) →
  (∀ e, e ∈ H → e_id e ∈ l ∨ e_id e ∈ D) →
  Forall2 (λ i io, op_of H i io.1 io.2) l ios → legal model s ios = Some s2 →
  extends model H D s l (list_to_set l ∪ D) s2.
Proof.
  intros Hwf. revert D s ios. induction l as [|i l IH]; intros D s ios Hnd Hdis Ho Hall Hios Hleg.
  { inversion Hios; subst. injection Hleg as <-. simpl. rewrite union_empty_l_L. constructor. }
  inversion Hios as [|? [inp out] ? ios' Hop Hios' E1 E2]; subst. simpl in *.
  destruct (Step model s inp out) as [[[] s']|] eqn:Hst; try done.
  apply list.NoDup_cons in Hnd as [Hni Hnd].
  assert (enabled H D i) as Hen.
  { split; [apply Hdis; set_solver|]. intros j Hp. pose proof Hp as (x & y & Hs & Hx & Hy).
    assert (e_id x = j) as Hxj by by injection Hx.
    destruct (Hall x) as [Hj|Hj]; rewrite ?Hxj in *; [eapply elem_of_sublist; [|done]; set_solver| |done].
    - apply elem_of_cons in Hj as [->|Hj].
      + exfalso. apply (sublist_pair_asym H y x (entries_nodup n H Hwf)); [|done].
        apply (wf_order n H Hwf); try (eapply elem_of_sublist; [|done]; set_solver); unfold key in *; congruence.
      + exfalso. apply (Ho i j); [|done]. apply sublist_skip. by apply singleton_sublist_l.
    }
  econstructor; [done|done|done|].
  replace ({[i]} ∪ list_to_set l ∪ D) with (list_to_set l ∪ ({[i]} ∪ D) : gset Z) by set_solver.
  apply (IH _ _ ios'); try done.
  - intros j Hj [->%elem_of_singleton|Hd]%elem_of_union; [done|]. apply (Hdis j); set_solver.
  - intros a b Hs. apply Ho. by apply sublist_cons.
  - intros e He. destruct (Hall e He) as [[->|?]%elem_of_cons|?]; set_solver.
Qed.

(** The runs that cover the history are its linearizations. *)
Lemma complete_iff n l : wf_entries n H → complete model H l ↔ entries_lin l.
Proof.
  intros Hwf. split.
  - intros (D & s & Hext & Hcov). destruct (extends_lin _ _ _ _ _ Hext) as (? & _ & ? & ios & ? & ?).
    pose proof (extends_dom _ _ _ _ _ _ _ Hext) as ->. split; try done.
    + intros i. split; [by apply (extends_ids _ _ _ _ _ _ _ i Hext)|]. intros (e & He & <-).
      specialize (Hcov e He). set_solver.
    + exists ios. eauto.
  - intros [Hnd Hall Ho (ios & Hios & [s Hleg])]. exists (list_to_set l ∪ ∅), s. split.
    + eapply lin_extends; try done. intros e He. left. apply Hall. eauto.
    + intros e He. apply elem_of_union. left. apply elem_of_list_to_set, Hall. eauto.
Qed.

Lemma completes_iff n : wf_entries n H → completes model H ∅ (Init model) ↔ ∃ l, entries_lin l.
Proof.
  intros Hwf. setoid_rewrite <- (complete_iff n _ Hwf). unfold completes, complete. done.
Qed.
End lin.

(** ** The entries of timed operations *)

Section ops.
Context {V : Type} (sort : list (entry V) → list (entry V)) (Hsort : sorts sort).
Context (ops : list (Operation V)) (Htimes : Forall (λ o, (op_Call o ≤ op_Return o)%Z) ops).

Definition call_entry (i : Z) (o : Operation V) : entry V :=
  Entry callEntry (op_Input o) i (op_Call o) (op_ClientId o).
Definition return_entry (i : Z) (o : Operation V) : entry V :=
  Entry returnEntry (op_Output o) i (op_Return o) (op_ClientId o).

Lemma elem_of_loop (l : list (Operation V)) k e :
  e ∈ makeEntries_loop l k ↔
    ∃ i o, l !! i = Some o ∧ (e = call_entry (k + Z.of_nat i) o ∨ e = return_entry (k + Z.of_nat i) o).
Proof.
  revert k. induction l as [|o l IH]; intros k; simpl.
  - split; [set_solver|]. by intros (i & o & ? & _).
  - rewrite !elem_of_cons, IH. split.
    + intros [->|[->|(i & o' & Hi & He)]].
      * exists 0, o. rewrite Z.add_0_r. auto.
      * exists 0, o. rewrite Z.add_0_r. auto.
      * exists (S i), o'. split; [done|]. by replace (k + Z.of_nat (S i))%Z with (k + 1 + Z.of_nat i)%Z by lia.
    + intros ([|i] & o' & Hi & He); simpl in Hi; simplify_eq.
      * rewrite Z.add_0_r in He. destruct He; auto.
      * right. right. exists i, o'. split; [done|].
        by replace (k + Z.of_nat (S i))%Z with (k + 1 + Z.of_nat i)%Z in He by lia.
Qed.

Lemma elem_of_entries e :
  e ∈ makeEntries sort ops ↔
    ∃ i o, ops !! i = Some o ∧ (e = call_entry (Z.of_nat i) o ∨ e = return_entry (Z.of_nat i) o).
Proof.
  unfold makeEntries. rewrite (proj1 (Hsort _)), elem_of_loop. done.
Qed.

Lemma loop_keys (l : list (Operation V)) k :
  (key <$> makeEntries_loop l k) ≡ₚ
    (pair callEntry <$> seqZ k (zlen l)) ++ (pair returnEntry <$> seqZ k (zlen l)).
Proof.
  revert k. induction l as [|o l IH]; intros k; [done|].
  cbn [makeEntries_loop]. rewrite !fmap_cons, IH, zlen_cons.
  rewrite (seqZ_cons k) by (pose proof (zlen_nonneg l); lia).
  rewrite !fmap_cons. replace (Z.pred (1 + zlen l)) with (zlen l) by lia.
  change (key (call_entry k o)) with (callEntry, k). rewrite <- app_comm_cons. constructor.
  rewrite <- Permutation_middle. constructor. done.
Qed.

(** The order of the entries is the order of the times, calls first. *)
Lemma entries_order x y :
  x ∈ makeEntries sort ops → y ∈ makeEntries sort ops → e_kind x = returnEntry → e_kind y = callEntry →
  [x; y] `sublist_of` makeEntries sort ops ↔ (e_time x < e_time y)%Z.
Proof.
  intros Hx Hy Kx Ky. pose proof (proj2 (Hsort (makeEntries_loop ops 0))) as Hs. split.
  - intros Hxy%(sorted_order _ _ _ Hs)%byTime_le_spec. rewrite Kx, Ky in Hxy. intuition (lia || done).
  - intros Hlt. destruct (sublist_pair_total _ x y Hx Hy) as [?|Hyx]; [congruence|done|].
    apply (sorted_order _ _ _ Hs) in Hyx. apply byTime_le_spec in Hyx. lia.
Qed.

Lemma makeEntries_wf : wf_entries (length ops) (makeEntries sort ops).
Proof.
  split.
  - unfold makeEntries. rewrite (proj1 (Hsort _)), loop_keys. done.
  - intros x y Hx Hy Kx Ky Hid. destruct (sublist_pair_total _ x y Hx Hy) as [?|Hyx]; [congruence|done|].
    apply entries_order in Hyx; try done. apply elem_of_entries in Hx as (i & o & Hi & Hx).
    apply elem_of_entries in Hy as (j & o' & Hj & Hy).
    destruct Hx as [->| ->]; [|done]. destruct Hy as [->| ->]; [done|]. simpl in *. simplify_eq.
    rewrite list.Forall_forall in Htimes. specialize (Htimes o ltac:(by eapply list_elem_of_lookup_2)). lia.
Qed.

Lemma op_of_entries i inp out :
  op_of (makeEntries sort ops) i inp out ↔
    ∃ o k, i = Z.of_nat k ∧ ops !! k = Some o ∧ inp = op_Input o ∧ out = op_Output o.
Proof.
  split.
  - intros (x & y & Hx & Hy & Kx & Ky & <- & <-).
    apply elem_of_entries in Hx as (a & o & Ha & Hx). apply elem_of_entries in Hy as (b & o' & Hb & Hy).
    destruct Hx as [->| ->]; [|done]. destruct Hy as [->| ->]; [done|].
    injection Kx as <-. injection Ky as Hab. simplify_eq. by exists o, a.
  - intros (o & k & -> & Ho & -> & ->).
    exists (call_entry (Z.of_nat k) o), (return_entry (Z.of_nat k) o).
    split_and!; try done; apply elem_of_entries; eauto.
Qed.

Lemma precedes_entries i j :
  precedes (makeEntries sort ops) (Z.of_nat j) (Z.of_nat i) ↔
    ∃ a b, ops !! i = Some a ∧ ops !! j = Some b ∧ (op_Return b < op_Call a)%Z.
Proof.
  split.
  - intros (x & y & Hs & Kx & Ky).
    assert (x ∈ makeEntries sort ops) as Hx by (eapply elem_of_sublist; [|done]; set_solver).
    assert (y ∈ makeEntries sort ops) as Hy by (eapply elem_of_sublist; [|done]; set_solver).
    injection Kx as Kx Ix. injection Ky as Ky Iy.
    apply entries_order in Hs; try done.
    apply elem_of_entries in Hx as (a & o & Ha & Hx). apply elem_of_entries in Hy as (b & o' & Hb & Hy).
    destruct Hx as [->| ->]; [done|]. destruct Hy as [->| ->]; [|done]. simpl in *. simplify_eq. eauto.
  - intros (a & b & Ha & Hb & Hlt).
    exists (return_entry (Z.of_nat j) b), (call_entry (Z.of_nat i) a). split_and!; try done.
    apply entries_order; try done; apply elem_of_entries; eauto.
Qed.

Context {St : Type} (model : Model V St).

Let io (o : Operation V) : V * V := (op_Input o, op_Output o).

Lemma ios_mapM (l : list nat) ios :
  Forall2 (λ i ab, op_of (makeEntries sort ops) i ab.1 ab.2) (Z.of_nat <$> l) ios ↔
  ∃ os, mapM (λ i, ops !! i) l = Some os ∧ ios = io <$> os.
Proof.
  setoid_rewrite mapM_Some. rewrite Forall2_fmap_l. split.
  - induction 1 as [|i [a b] l ios Hop _ (os & Hos & ->)]; [by exists []|]. simpl in Hop.
    apply op_of_entries in Hop as (o & k & Hk & Ho & -> & ->). simplify_eq.
    exists (o :: os). split; [by constructor|done].
  - intros (os & Hos & ->). induction Hos as [|i o l os Ho _ IH]; [constructor|].
    constructor; [|done]. apply op_of_entries. by exists o, i.
Qed.

Lemma entries_lin_iff (l : list nat) :
  entries_lin model (makeEntries sort ops) (Z.of_nat <$> l) ↔ linearization model ops l.
Proof.
  assert (∀ i, (∃ e, e ∈ makeEntries sort ops ∧ e_id e = Z.of_nat i) ↔ i < length ops) as Hids.
  { intros i. rewrite <- lookup_lt_is_Some. split.
    - intros (e & (j & o & Hj & [->| ->])%elem_of_entries & [= Hid]); simplify_eq; eauto.
    - intros [o Ho]. exists (call_entry (Z.of_nat i) o). split; [|done]. apply elem_of_entries. eauto. }
  assert (∀ i j, [i; j] `sublist_of` l → [Z.of_nat i; Z.of_nat j] `sublist_of` Z.of_nat <$> l) as Hsub.
  { intros i j Hs. by apply (fmap_sublist Z.of_nat [i; j]). }
  split.
  - intros [Hnd Hall Ho (ios & (os & Hos & ->)%ios_mapM & Hleg)]. split_and!.
    + apply NoDup_Permutation; [by eapply NoDup_fmap_1|apply NoDup_seq|]. intros i.
      rewrite elem_of_seq, <- (list_elem_of_fmap_inj Z.of_nat), Hall, Hids. lia.
    + intros i j a b Hs Ha Hb. destruct (decide (op_Call a ≤ op_Return b)%Z) as [|Hn]; [done|].
      exfalso. apply (Ho _ _ (Hsub i j Hs)). apply precedes_entries. exists a, b. split_and!; try done. lia.
    + by exists os.
  - intros (Hperm & Ho & os & Hos & Hleg). split.
    + apply NoDup_fmap_2; [apply _|]. rewrite Hperm. apply NoDup_seq.
    + intros i. rewrite list_elem_of_fmap. split.
      * intros (k & -> & Hk). apply Hids. rewrite Hperm, elem_of_seq in Hk. lia.
      * intros (e & He & Hi). pose proof He as (k & o & Hk & Hek)%elem_of_entries.
        assert (i = Z.of_nat k) as -> by (by destruct Hek as [->| ->]). exists k. split; [done|].
        rewrite Hperm, elem_of_seq. apply lookup_lt_Some in Hk. lia.
    + intros i j (x & y & Hxy & Hx & Hy)%sublist_pair Hp.
      rewrite list_lookup_fmap in Hx, Hy. apply fmap_Some in Hx as (i' & Hx & ->), Hy as (j' & Hy & ->).
      apply precedes_entries in Hp as (a & b & Ha & Hb & Hlt).
      specialize (Ho i' j' a b). rewrite sublist_pair in Ho. specialize (Ho ltac:(eauto) Ha Hb). lia.
    + exists (io <$> os). split; [|done]. apply ios_mapM. by exists os.
Qed.

Lemma ids_of_nat D s l D2 s2 :
  extends model (makeEntries sort ops) D s l D2 s2 → Z.of_nat <$> (Z.to_nat <$> l) = l.
Proof.
  intros Hext. rewrite <- list_fmap_compose. rewrite <- (list_fmap_id l) at 2. apply list_fmap_ext.
  intros k i Hi%list_elem_of_lookup_2. destruct (extends_ids _ _ _ _ _ _ _ _ Hext Hi) as (e & He & <-).
  pose proof (id_bounds _ _ makeEntries_wf e He). simpl. lia.
Qed.

(** The search on the entries of a history decides its linearizability. *)
Lemma completes_linearizable :
  completes model (makeEntries sort ops) ∅ (Init model) ↔ linearizable model ops.
Proof.
  rewrite (completes_iff _ _ _ makeEntries_wf). split.
  - intros [l Hl]. exists (Z.to_nat <$> l). apply entries_lin_iff.
    apply (complete_iff _ _ _ _ makeEntries_wf) in Hl. pose proof Hl as (D & s & Hext & _).
    rewrite (ids_of_nat _ _ _ _ _ Hext). by apply (complete_iff _ _ _ _ makeEntries_wf).
  - intros [l Hl%entries_lin_iff]. eauto.
Qed.

(** The runs of the search are partial linearizations of the operations. *)
Lemma partial_ops l :
  partial model (makeEntries sort ops) l → partial_linearization model ops (Z.to_nat <$> l).
Proof.
  intros (D & s & Hext). pose proof (ids_of_nat _ _ _ _ _ Hext) as El.
  destruct (extends_lin _ _ _ _ _ _ _ Hext) as (Hnd & _ & Ho & ios & Hios & Hleg).
  pose proof (λ i j, extends_closed _ _ _ _ _ _ _ i j Hext) as Hcl.
  rewrite <- El in Hnd, Ho, Hios, Hcl. revert Hnd Ho Hios Hcl. generalize (Z.to_nat <$> l). clear El Hext l.
  intros l Hnd Ho Hios Hcl. apply ios_mapM in Hios as (os & Hos & ->).
  split_and!; [by eapply NoDup_fmap_1| | |by exists os; eauto].
  - intros i j a b Hs Ha Hb. destruct (decide (op_Call a ≤ op_Return b)%Z) as [|Hn]; [done|].
    exfalso. apply (Ho _ _ (fmap_sublist Z.of_nat [i; j] _ Hs)). apply precedes_entries.
    exists a, b. split_and!; try done. lia.
  - intros i j a b Hi Ha Hb Hlt. apply (list_elem_of_fmap_inj Z.of_nat).
    destruct (Hcl (Z.of_nat i) (Z.of_nat j)) as [?|?]; [by apply list_elem_of_fmap_2| |done|set_solver].
    apply precedes_entries. eauto.
Qed.

Lemma complete_ops l :
  complete model (makeEntries sort ops) l → linearization model ops (Z.to_nat <$> l).
Proof.
  intros Hc. apply entries_lin_iff. pose proof Hc as (D & s & Hext & _).
  rewrite (ids_of_nat _ _ _ _ _ Hext). by apply (complete_iff _ _ _ _ makeEntries_wf).
Qed.
End ops.
