(* ===== verification/PorcupineCheck.v ===== *)
(** * The entry points of the checker (porcupine/checker.go, porcupine.go)

    [checkParallel] starts one goroutine per partition and waits for their
    answers, or for the timer.  What its [select] receives, round by round, is
    an argument ([arrivals]); a round for which nothing is left to receive
    waits ([Waiting]).  [kill] is stored only when the loop is left, so an
    answer received in the loop comes from a search that loaded 0 all along;
    the answers drained afterwards may come from a search that was stopped
    ([kills]).  [checkOperations_ok] is the check without a timer,
    [checkOperations_verbose] the one that reports with any timer.  The order in which Go iterates over a map is an argument too. *)

From S2P Require Import Prelude PorcupineModel PorcupineList PorcupineSpec PorcupineSearch PorcupineProof PorcupineHistory.

(** How a call ends: with a result, not (yet), or with a panic. *)
Inductive outcome (A : Type) := Done (a : A) | Waiting | Panic.
Arguments Done {A}.
Arguments Waiting {A}.
Arguments Panic {A}.

Definition outcome_bind {A B} (x : outcome A) (f : A → outcome B) : outcome B :=
  match x with Done a => f a | Waiting => Waiting | Panic => Panic end.

Notation "x ⇐ m ; k" := (outcome_bind m (λ x, k)) (at level 20, m at level 100, k at level 200) : go_scope.
Notation "' p ⇐ m ; k" := (outcome_bind m (λ p, k))
  (at level 20, p pattern, m at level 100, k at level 200) : go_scope.

Definition or_panic {A} (x : option A) : outcome A := match x with Some a => Done a | None => Panic end.

(** A round of the [select]: the answer of a goroutine, or the timer. *)
Inductive arrival := Answer (i : nat) | Timer.

Record linearizationInfo (V : Type) := LinearizationInfo {
  li_history : list (list (entry V));
  li_partialLinearizations : list (list (list Z))
}.
Arguments LinearizationInfo {V}.
Arguments li_history {V}.
Arguments li_partialLinearizations {V}.

Section check.
Context {V St : Type} `{!Interface V} (fuel : nat).
Context (sort : list (entry V) → list (entry V)) (order : list nat → list nat).

Local Open Scope go_scope.

(** The body of goroutine [i]; a search that has not returned yet sends nothing. *)
Definition single (model : Model V St) (history : list (list (entry V))) (computeInfo : bool)
    (kill : nat → Z) (i : nat) : outcome (bool * list ptr * list (list Z)) :=
  match history !! i with
  | None => Waiting
  | Some subhistory =>
      match checkSingle model fuel subhistory computeInfo kill with
      | None => Panic
      | Some (inl _) => Waiting
      | Some (inr a) => Done a
      end
  end.

(** The loop of [select]s: [ok], [timedOut], and the goroutines received. *)
Fixpoint select_loop (model : Model V St) (history : list (list (entry V))) (computeInfo : bool)
    (timeout : Z) (arrivals : list arrival) (ok : bool) (count : Z) (received : list nat) :
    outcome (bool * bool * list nat) :=
  match arrivals with
  | [] => Waiting
  | Timer :: _ => if (timeout >? 0)%Z then Done (ok, true, received) else Waiting
  | Answer i :: arrivals =>
      if bool_decide (i ∈ received) then Waiting
      else
        '(result, _, _) ⇐ single model history computeInfo (λ _, 0%Z) i;
        let count := (count + 1)%Z in
        let ok := ok && result in
        let received := received ++ [i] in
        if negb ok && negb computeInfo then Done (ok, false, received)
        else if (count >=? zlen history)%Z then Done (ok, false, received)
        else select_loop model history computeInfo timeout arrivals ok count received
  end.

(** The distinct sequences that [longest] points to, in the map's order. *)
Definition partials (longest : list ptr) (seqs : list (list Z)) : option (list (list Z)) :=
  mapM (λ a, seqs !! a) (order (remove_dups (omap id longest))).

(** The answers of all goroutines, drained or received before. *)
Fixpoint collect (model : Model V St) (history : list (list (entry V))) (kills : nat → nat → Z)
    (received todo : list nat) : outcome (list (list (list Z))) :=
  match todo with
  | [] => Done []
  | i :: todo =>
      let kill := if bool_decide (i ∈ received) then λ _, 0%Z else kills i in
      '(_, longest, seqs) ⇐ single model history true kill i;
      ps ⇐ or_panic (partials longest seqs);
      rest ⇐ collect model history kills received todo;
      Done (ps :: rest)
  end.

Definition checkParallel (model : Model V St) (history : list (list (entry V))) (computeInfo : bool)
    (timeout : Z) (arrivals : list arrival) (kills : nat → nat → Z) :
    outcome (CheckResult * linearizationInfo V) :=
  '(ok, timedOut, received) ⇐ select_loop model history computeInfo timeout arrivals true 0 [];
  info ⇐ (if computeInfo then
            ps ⇐ collect model history kills received (seq 0 (length history));
            Done (LinearizationInfo history ps)
          else Done (LinearizationInfo [] []));
  let result := if negb ok then Illegal else if timedOut : bool then Unknown else Ok in
  Done (result, info).

Definition checkOperations `{EqDecision St} (model : Model V St) (history : list (Operation V)) (verbose : bool)
    (timeout : Z) (arrivals : list arrival) (kills : nat → nat → Z) :
    outcome (CheckResult * linearizationInfo V) :=
  let model := fillDefault model in
  partitions ⇐ or_panic (f ← Partition model; f history);
  checkParallel model (makeEntries sort <$> partitions) verbose timeout arrivals kills.

Definition checkEvents `{EqDecision St} (model : Model V St) (history : list (Event V)) (verbose : bool)
    (timeout : Z) (arrivals : list arrival) (kills : nat → nat → Z) :
    outcome (CheckResult * linearizationInfo V) :=
  let model := fillDefault model in
  partitions ⇐ or_panic (f ← PartitionEvent model; f history);
  checkParallel model ((λ s, convertEntries (renumber s)) <$> partitions) verbose timeout arrivals kills.

(** porcupine.go *)
Definition CheckOperations `{EqDecision St} (model : Model V St) (history : list (Operation V))
    (arrivals : list arrival) (kills : nat → nat → Z) : outcome bool :=
  '(res, _) ⇐ checkOperations model history false 0 arrivals kills; Done (bool_decide (res = Ok)).

Definition CheckOperationsTimeout `{EqDecision St} (model : Model V St) (history : list (Operation V))
    (timeout : Z) (arrivals : list arrival) (kills : nat → nat → Z) : outcome CheckResult :=
  '(res, _) ⇐ checkOperations model history false timeout arrivals kills; Done res.

Definition CheckOperationsVerbose `{EqDecision St} (model : Model V St) (history : list (Operation V))
    (timeout : Z) (arrivals : list arrival) (kills : nat → nat → Z) :=
  checkOperations model history true timeout arrivals kills.

Definition CheckEvents `{EqDecision St} (model : Model V St) (history : list (Event V))
    (arrivals : list arrival) (kills : nat → nat → Z) : outcome bool :=
  '(res, _) ⇐ checkEvents model history false 0 arrivals kills; Done (bool_decide (res = Ok)).

Definition CheckEventsTimeout `{EqDecision St} (model : Model V St) (history : list (Event V))
    (timeout : Z) (arrivals : list arrival) (kills : nat → nat → Z) : outcome CheckResult :=
  '(res, _) ⇐ checkEvents model history false timeout arrivals kills; Done res.

Definition CheckEventsVerbose `{EqDecision St} (model : Model V St) (history : list (Event V))
    (timeout : Z) (arrivals : list arrival) (kills : nat → nat → Z) :=
  checkEvents model history true timeout arrivals kills.
End check.

(** ** Correctness *)

(** A duplicate-free list of as many numbers below [n] holds them all. *)
Lemma all_received (l : list nat) n j :
  NoDup l → (∀ i, i ∈ l → i < n) → n ≤ length l → j < n → j ∈ l.
Proof.
  intros Hnd Hlt Hlen Hj. assert (l ≡ₚ seq 0 n) as ->; [|rewrite elem_of_seq; lia].
  apply submseteq_length_Permutation; [|rewrite length_seq; lia].
  apply NoDup_submseteq; [done|]. intros i Hi. apply elem_of_seq. specialize (Hlt i Hi). lia.
Qed.

(** What a goroutine needs to decide its partition. *)
Definition part_ok {V St} (model : Model V St) (n : nat) (H : list (entry V)) : Prop :=
  wf_entries n H ∧ ∀ s i inp out, op_of H i inp out → is_Some (Step model s inp out).

Section correct.
Context {V St : Type} `{!Interface V}.
Context (model : Model V St) (eqf : St → St → bool).
Context (Heqf : Equal model = Some eqf) (Hsim : equal_ok model eqf).

(** There is a fuel that lets every goroutine return, with the right answer. *)
Lemma singles_spec (history : list (list (entry V))) (computeInfo : bool) :
  Forall (λ H, ∃ n, part_ok model n H) history →
  ∃ fuel, ∀ fuel' i H, fuel ≤ fuel' → history !! i = Some H →
    ∃ n a, wf_entries n H ∧ answer_ok model n H a ∧
      single fuel' model history computeInfo (λ _, 0%Z) i = Done a.
Proof.
  intros Hall.
  assert (∃ fuel, ∀ fuel' H, fuel ≤ fuel' → H ∈ history → ∃ n a, wf_entries n H ∧ answer_ok model n H a ∧
    checkSingle model fuel' H computeInfo (λ _, 0%Z) = Some (inr a)) as [fuel Hf].
  { induction Hall as [|H history (n & Hwf & Htot) _ [fuel IH]]; [exists 0; set_solver|].
    destruct (checkSingle_spec model eqf n H Hwf Heqf Hsim Htot computeInfo) as (f1 & a & Ha & Hf1).
    exists (Nat.max fuel f1). intros fuel' H' Hle [->|Hin]%elem_of_cons; [|apply IH; [lia|done]].
    exists n, a. split_and!; [done|done|]. apply Hf1. lia. }
  exists fuel. intros fuel' i H Hle Hi.
  destruct (Hf fuel' H Hle (list_elem_of_lookup_2 _ _ _ Hi)) as (n & a & Hwf & Ha & E).
  exists n, a. split_and!; [done|done|]. unfold single. by rewrite Hi, E.
Qed.

(** An answer that a goroutine gives is right about its partition. *)
Lemma answer_iff n H a : answer_ok model n H a → a.1.1 = true ↔ completes model H ∅ (Init model).
Proof. destruct a as [[[] longest] seqs]; simpl; [|by intros [_ ?]]. by intros (_ & ? & _). Qed.

Section loop.
Context (fuel : nat) (history : list (list (entry V))) (computeInfo : bool).
Context (Hsingle : ∀ i H, history !! i = Some H → ∃ n a, wf_entries n H ∧ answer_ok model n H a ∧
  single fuel model history computeInfo (λ _, 0%Z) i = Done a).

Definition good (i : nat) : Prop := ∀ H, history !! i = Some H → completes model H ∅ (Init model).

(** The loop with no timer, when every goroutine's answer is still to come or
    has come: it ends, and [ok] says whether all partitions are good. *)
Lemma select_loop_ok todo ok received :
  (received ++ todo) ≡ₚ seq 0 (length history) → todo ≠ [] →
  (ok = true → ∀ i, i ∈ received → good i) →
  (ok = false → computeInfo = true ∧ ∃ i, i ∈ received ∧ ¬ good i) →
  ∃ ok' received', select_loop fuel model history computeInfo 0 (Answer <$> todo) ok (zlen received) received =
      Done (ok', false, received') ∧
    (ok' = true → ∀ i, i < length history → good i) ∧
    (ok' = false → ∃ i, i < length history ∧ ¬ good i) ∧
    (computeInfo = true → received' ≡ₚ seq 0 (length history)).
Proof.
  revert ok received. induction todo as [|i todo IH]; intros ok received Hperm Hne Hok Hnok; [done|].
  cbn [select_loop fmap list_fmap].
  assert (NoDup (received ++ i :: todo)) as Hnd by (rewrite Hperm; apply NoDup_seq).
  assert (i ∉ received) as Hi.
  { apply list.NoDup_app in Hnd as (_ & Hd & _). intros Hin. apply (Hd i Hin). set_solver. }
  rewrite bool_decide_false by done.
  assert (∀ j, j ∈ received ++ i :: todo → j < length history) as Hlt.
  { intros j. rewrite Hperm, elem_of_seq. lia. }
  destruct (lookup_lt_is_Some_2 history i) as [H HH]; [apply Hlt; set_solver|].
  destruct (Hsingle i H HH) as (n & [[r lg] sq] & _ & Ha & ->). cbn [outcome_bind].
  pose proof (answer_iff _ _ _ Ha) as Hr. simpl in Hr.
  assert (r = true ↔ good i) as Hg by (unfold good; rewrite Hr, HH; naive_solver).
  clear Hr Ha. assert (zlen received + 1 = zlen (received ++ [i]))%Z as Ez by (rewrite (zlen_app _ [i]); done).
  assert (ok && r = true → ∀ j, j ∈ received ++ [i] → good j) as Hok'.
  { intros [Ho Hr]%andb_true_iff j [Hj| ->%list_elem_of_singleton]%elem_of_app; [by apply Hok|by apply Hg]. }
  assert (ok && r = false → ∃ j, j ∈ received ++ [i] ∧ ¬ good j) as Hnok'.
  { destruct ok; simpl; [intros ->; exists i; split; [set_solver|]; rewrite <- Hg; done|].
    intros _. destruct (Hnok eq_refl) as (_ & j & Hj & ?). exists j. split; [set_solver|done]. }
  assert (∀ j, j ∈ received ++ [i] → j < length history) as Hlt' by (intros; apply Hlt; set_solver).
  destruct (negb (ok && r) && negb computeInfo) eqn:Ebreak.
  { apply andb_true_iff in Ebreak as [E1%negb_true_iff E2%negb_true_iff]. eexists _, _. split; [done|]. split_and!; [congruence| |congruence].
    intros Hf. destruct (Hnok' Hf) as (j & Hj & ?). eauto. }
  apply andb_false_iff in Ebreak. rewrite !negb_false_iff in Ebreak.
  rewrite Ez. destruct (_ >=? _)%Z eqn:Ecount; rewrite Z.geb_leb in Ecount; b2p.
  - assert (todo = []) as ->.
    { apply Permutation_length in Hperm. rewrite length_app, length_seq in Hperm. simpl in Hperm.
      unfold zlen in Ecount. rewrite length_app in Ecount. simpl in Ecount.
      destruct todo; [done|]. simpl in Hperm. lia. }
    eexists _, _. split; [done|]. split_and!; [| |by intros].
    + intros Hf j Hj. apply (Hok' Hf). rewrite Hperm, elem_of_seq. lia.
    + intros Hf. destruct (Hnok' Hf) as (j & Hj & ?). eauto.
  - apply IH; [by rewrite <- app_assoc| |done|].
    + intros ->. apply Permutation_length in Hperm. rewrite length_seq in Hperm. unfold zlen in Ecount. lia.
    + intros Hf. split; [|by apply Hnok']. destruct Ebreak; congruence.
Qed.
End loop.

(** Whatever arrives, and with whatever fuel, an answer that is received is right. *)
Lemma single_sound fuel history computeInfo i a :
  Forall (λ H, ∃ n, part_ok model n H) history →
  single fuel model history computeInfo (λ _, 0%Z) i = Done a →
  ∃ H, history !! i = Some H ∧ (a.1.1 = true ↔ completes model H ∅ (Init model)).
Proof.
  intros Hall E. destruct (singles_spec history computeInfo Hall) as [fuel' Hf]. unfold single in *.
  destruct (history !! i) as [H|] eqn:Hi; [|done]. exists H. split; [done|].
  destruct (Hf (Nat.max fuel fuel') i H ltac:(lia) Hi) as (n & a' & _ & Ha & E'). rewrite Hi in E'.
  destruct (checkSingle model fuel H computeInfo (λ _, 0%Z)) as [[?|a'']|] eqn:Es; simplify_eq.
  apply (checkSingle_mono _ _ (Nat.max fuel fuel')) in Es; [|lia]. rewrite Es in E'. simplify_eq.
  by eapply answer_iff.
Qed.

Lemma select_loop_sound fuel history computeInfo timeout arrivals ok count received ok' t received' :
  Forall (λ H, ∃ n, part_ok model n H) history →
  (∀ i, i ∈ received → i < length history) → NoDup received → count = zlen received →
  (ok = true → ∀ i, i ∈ received → good history i) →
  (ok = false → ¬ Forall (λ H, completes model H ∅ (Init model)) history) →
  select_loop fuel model history computeInfo timeout arrivals ok count received = Done (ok', t, received') →
  (ok' = true → t = false → Forall (λ H, completes model H ∅ (Init model)) history) ∧
  (ok' = false → ¬ Forall (λ H, completes model H ∅ (Init model)) history) ∧
  (t = true → (0 < timeout)%Z ∧ Timer ∈ arrivals).
Proof.
  intros Hall. revert ok count received.
  induction arrivals as [|[i|] arrivals IH]; intros ok count received Hlt Hnd Hcnt Hok Hnok E; simpl in E; [done| |].
  - case_bool_decide as Hi; [done|].
    destruct (single fuel model history computeInfo _ i) as [[[r lg] sq]| |] eqn:Es; simpl in E; try done.
    destruct (single_sound _ _ _ _ _ Hall Es) as (H & HH & Hr). simpl in Hr.
    assert (NoDup (received ++ [i])) as Hnd' by (rewrite <- Permutation_cons_append; by apply NoDup_cons_2).
    assert (∀ j, j ∈ received ++ [i] → j < length history) as Hlt'.
    { intros j [?| ->%list_elem_of_singleton]%elem_of_app; [auto|by eapply lookup_lt_Some]. }
    assert (ok && r = true → ∀ j, j ∈ received ++ [i] → good history j) as Hok'.
    { intros [Ho Hr']%andb_true_iff j [Hj| ->%list_elem_of_singleton]%elem_of_app; [by apply Hok|].
      intros H' HH'. simplify_eq. by apply Hr. }
    assert (ok && r = false → ¬ Forall (λ H, completes model H ∅ (Init model)) history) as Hnok'.
    { intros [Ho|Hr']%andb_false_iff; [by apply Hnok|]. intros Hf.
      apply (list.Forall_lookup_1 _ _ _ _ Hf), Hr in HH. congruence. }
    assert (count + 1 = zlen (received ++ [i]))%Z as Hcnt' by (rewrite (zlen_app _ [i]), Hcnt; done).
    destruct (negb (ok && r) && negb computeInfo) eqn:Eb.
    { apply andb_true_iff in Eb as [E1%negb_true_iff _]. simplify_eq. split_and!; [congruence|auto|done]. }
    destruct (_ >=? _)%Z eqn:Ec; [|destruct (IH _ _ _ Hlt' Hnd' Hcnt' Hok' Hnok' E) as (? & ? & Ht);
      split_and!; try done; intros Htt; destruct (Ht Htt); split; set_solver].
    simplify_eq. split_and!; [|auto|done]. intros Ho _. apply list.Forall_lookup. intros j H' Hj.
    apply (Hok' Ho j); [|done]. apply all_received with (length history); try done.
    + unfold zlen in *. b2p. lia.
    + by eapply lookup_lt_Some.
  - destruct (timeout >? 0)%Z eqn:Et; [|done]. simplify_eq. b2p. split_and!; [done|auto|]. split; [done|set_solver].
Qed.

(** What a reported sequence is: a prefix of a linearization, and a whole one
    if there is one. *)
Definition reported (H : list (entry V)) (sq : list Z) : Prop :=
  partial model H sq ∧ (completes model H ∅ (Init model) → complete model H sq).

(** The sequences that the answer of a goroutine leads to. *)
Lemma partials_ok order n H r longest seqs :
  (∀ l, order l ≡ₚ l) → answer_ok model n H (r, longest, seqs) →
  ∃ ps, partials order longest seqs = Some ps ∧ Forall (reported H) ps.
Proof.
  intros Horder [[_ Hl] Hr]. unfold partials.
  assert (Forall (λ a, ∃ sq, seqs !! a = Some sq ∧ reported H sq) (order (remove_dups (omap id longest)))) as Hall.
  { rewrite Horder. apply list.Forall_forall. intros a Ha.
    rewrite elem_of_remove_dups, list_elem_of_omap in Ha. destruct Ha as (p & [i Hi]%list_elem_of_lookup & Hp). unfold id in Hp. subst.
    destruct (Hl _ _ Hi) as (sq & Hsq & ? & _). exists sq. split; [done|]. split; [done|]. intros Hc.
    destruct r; [|done]. destruct Hr as [_ Hr]. destruct (Hr _ _ Hi) as (b & sq' & ? & ? & ?). by simplify_eq. }
  induction Hall as [|a l (sq & E & Hsq) _ (ps & IH & Hps)]; [by exists []|].
  exists (sq :: ps). cbn [mapM]. rewrite E, IH. split; [done|by constructor].
Qed.

Lemma collect_ok fuel order history kills received (todo : list nat) :
  (∀ l, order l ≡ₚ l) →
  (∀ i H, history !! i = Some H → ∃ n a, wf_entries n H ∧ answer_ok model n H a ∧
     single fuel model history true (λ _, 0%Z) i = Done a) →
  (∀ i, i ∈ todo → i < length history ∧ i ∈ received) →
  ∃ pss, collect fuel order model history kills received todo = Done pss ∧
    Forall2 (λ i ps, ∃ H, history !! i = Some H ∧ Forall (reported H) ps) todo pss.
Proof.
  intros Horder Hs. induction todo as [|i todo IH]; intros Hin; [by exists []|].
  destruct IH as (pss & E & Hpss); [set_solver|]. destruct (Hin i) as [Hlt Hrec]; [set_solver|].
  destruct (lookup_lt_is_Some_2 history i Hlt) as [H HH].
  destruct (Hs i H HH) as (n & [[r lg] sq] & _ & Hlg & Hd).
  destruct (partials_ok order n H r lg sq Horder Hlg) as (ps & Eps & Hps).
  exists (ps :: pss). cbn [collect]. rewrite bool_decide_true, Hd by done. cbn [outcome_bind].
  rewrite Eps. cbn [or_panic outcome_bind]. rewrite E. split; [done|]. constructor; eauto.
Qed.

(** ** With a timer *)

(** The sequences that the goroutines have found, stopped or not. *)
Lemma partials_killed order n H longest seqs :
  (∀ l, order l ≡ₚ l) → longest_ok model n H longest seqs →
  ∃ ps, partials order longest seqs = Some ps ∧ Forall (partial model H) ps.
Proof.
  intros Horder [_ Hl]. unfold partials.
  assert (Forall (λ a, ∃ sq, seqs !! a = Some sq ∧ partial model H sq) (order (remove_dups (omap id longest)))) as Hall.
  { rewrite Horder. apply list.Forall_forall. intros a Ha.
    rewrite elem_of_remove_dups, list_elem_of_omap in Ha. destruct Ha as (p & [i Hi]%list_elem_of_lookup & Hp). unfold id in Hp. subst.
    destruct (Hl _ _ Hi) as (sq & Hsq & ? & _). eauto. }
  induction Hall as [|a l (sq & E & Hsq) _ (ps & IH & Hps)]; [by exists []|].
  exists (sq :: ps). cbn [mapM]. rewrite E, IH. split; [done|by constructor].
Qed.

Lemma singles_killed (history : list (list (entry V))) :
  Forall (λ H, ∃ n, part_ok model n H) history →
  ∃ fuel, ∀ fuel' kill i H, fuel ≤ fuel' → history !! i = Some H →
    ∃ n a, longest_ok model n H a.1.2 a.2 ∧ single fuel' model history true kill i = Done a.
Proof.
  intros Hall.
  assert (∃ fuel, ∀ fuel' kill H, fuel ≤ fuel' → H ∈ history → ∃ n a, longest_ok model n H a.1.2 a.2 ∧
    checkSingle model fuel' H true kill = Some (inr a)) as [fuel Hf].
  { induction Hall as [|H history (n & Hwf & Htot) _ [fuel IH]]; [exists 0; set_solver|].
    destruct (checkSingle_killed model eqf n H Hwf Heqf Hsim Htot true) as (f1 & Hf1).
    exists (Nat.max fuel f1). intros fuel' kill H' Hle [->|Hin]%elem_of_cons; [|apply IH; [lia|done]].
    destruct (Hf1 kill) as (a & Ha & E). exists n, a. split; [done|]. apply E. lia. }
  exists fuel. intros fuel' kill i H Hle Hi.
  destruct (Hf fuel' kill H Hle (list_elem_of_lookup_2 _ _ _ Hi)) as (n & a & Ha & E).
  exists n, a. split; [done|]. unfold single. by rewrite Hi, E.
Qed.

Lemma collect_killed fuel order history kills received (todo : list nat) :
  (∀ l, order l ≡ₚ l) →
  (∀ kill i H, history !! i = Some H → ∃ n a, longest_ok model n H a.1.2 a.2 ∧ single fuel model history true kill i = Done a) →
  (∀ i, i ∈ todo → i < length history) →
  ∃ pss, collect fuel order model history kills received todo = Done pss ∧
    Forall2 (λ i ps, ∃ H, history !! i = Some H ∧ Forall (partial model H) ps) todo pss.
Proof.
  intros Horder Hs. induction todo as [|i todo IH]; intros Hin; [by exists []|].
  destruct IH as (pss & E & Hpss); [set_solver|].
  destruct (lookup_lt_is_Some_2 history i) as [H HH]; [apply Hin; set_solver|]. cbn [collect].
  destruct (Hs (if bool_decide (i ∈ received) then λ _, 0%Z else kills i) i H HH) as (n & [[r lg] sq] & Hlg & Hd).
  destruct (partials_killed order n H lg sq Horder Hlg) as (ps & Eps & Hps).
  exists (ps :: pss). rewrite Hd. cbn [outcome_bind]. rewrite Eps. cbn [or_panic outcome_bind]. rewrite E.
  split; [done|]. constructor; eauto.
Qed.

(** What the loop of selects waits for: the answers of all [n] goroutines in
    some order, or those of some of them and then the timer. *)
Definition enough (timeout : Z) (n : nat) (arrivals : list arrival) : Prop :=
  ∃ todo rest, arrivals = (Answer <$> todo) ++ rest ∧ NoDup todo ∧ (∀ i, i ∈ todo → i < n) ∧
    (length todo = n ∨ ((0 < timeout)%Z ∧ head rest = Some Timer)).

Lemma select_loop_ends fuel history timeout (todo : list nat) rest ok received :
  (∀ i H, history !! i = Some H → ∃ a, single fuel model history true (λ _, 0%Z) i = Done a) →
  history ≠ [] → NoDup (received ++ todo) → (∀ i, i ∈ todo → i < length history) → length received < length history →
  (length received + length todo = length history ∨ ((0 < timeout)%Z ∧ head rest = Some Timer)) →
  ∃ res, select_loop fuel model history true timeout ((Answer <$> todo) ++ rest) ok (zlen received) received = Done res.
Proof.
  intros Hs Hne. revert ok received. induction todo as [|i todo IH]; intros ok received Hnd Hlt Hrec Hend.
  - simpl. destruct Hend as [Hl|[Ht Hr]]; [simpl in Hl; lia|]. destruct rest as [|[] rest]; simplify_eq. simpl.
    rewrite Z.gtb_ltb, (proj2 (Z.ltb_lt _ _)) by done. by eexists.
  - cbn [fmap list_fmap app select_loop]. rewrite bool_decide_false.
    2:{ apply list.NoDup_app in Hnd as (_ & Hd & _). intros Hin. apply (Hd i Hin). set_solver. }
    destruct (lookup_lt_is_Some_2 history i) as [H HH]; [apply Hlt; set_solver|].
    destruct (Hs i H HH) as [[[r lg] sq] ->]. cbn [outcome_bind]. rewrite andb_false_r.
    replace (zlen received + 1)%Z with (zlen (received ++ [i])) by (rewrite (zlen_app _ [i]); done).
    destruct (_ >=? _)%Z eqn:Ec; [by eexists|]. rewrite Z.geb_leb in Ec. b2p. unfold zlen in Ec.
    apply IH; [by rewrite <- app_assoc|set_solver|lia|].
    rewrite length_app. simpl in Hend |- *. destruct Hend; [left; lia|by right].
Qed.

(** The verbose check ends for whatever it waits for, with searches that were
    stopped at any time, and reports partial linearizations. *)
Lemma checkParallel_verbose history order :
  Forall (λ H, ∃ n, part_ok model n H) history → history ≠ [] → (∀ l, order l ≡ₚ l) →
  ∃ fuel, ∀ fuel' timeout arrivals kills, fuel ≤ fuel' → enough timeout (length history) arrivals → ∃ res info,
    checkParallel fuel' order model history true timeout arrivals kills = Done (res, info) ∧
    li_history info = history ∧ Forall2 (λ H ps, Forall (partial model H) ps) history (li_partialLinearizations info).
Proof.
  intros Hall Hne Horder. destruct (singles_killed history Hall) as [fuel Hf]. exists fuel.
  intros fuel' timeout arrivals kills Hle (todo & rest & -> & Hnd & Hlt & Hend).
  assert (0 < length history) as Hpos by (destruct history; [done|simpl; lia]).
  destruct (select_loop_ends fuel' history timeout todo rest true []) as [[[ok t] received] E]; try done.
  { intros i H HH. destruct (Hf fuel' (λ _, 0%Z) i H Hle HH) as (_ & a & _ & ?). by exists a. }
  destruct (collect_killed fuel' order history kills received (seq 0 (length history)) Horder) as (pss & Ec & Hps).
  { intros kill i H. by apply Hf. } { intros i. rewrite elem_of_seq. lia. }
  unfold checkParallel. change (zlen []) with 0%Z in E. rewrite E. cbn [outcome_bind]. rewrite Ec. cbn [outcome_bind].
  eexists _, _. split; [done|]. split; [done|]. simpl. apply Forall2_same_length_lookup.
  apply Forall2_same_length_lookup in Hps as [Hl Hps]. rewrite length_seq in Hl. split; [done|]. intros i H ps HH Hi.
  destruct (Hps i i ps) as (H' & ? & ?); [|done|by simplify_eq]. apply lookup_seq_lt. by eapply lookup_lt_Some.
Qed.

(** With every goroutine's answer received, in any order, and no timer. *)
Lemma checkParallel_ok history computeInfo order kills (todo : list nat) :
  Forall (λ H, ∃ n, part_ok model n H) history → history ≠ [] → (∀ l, order l ≡ₚ l) →
  todo ≡ₚ seq 0 (length history) →
  ∃ fuel, ∀ fuel', fuel ≤ fuel' → ∃ res info,
    checkParallel fuel' order model history computeInfo 0 (Answer <$> todo) kills = Done (res, info) ∧
    ((res = Ok ∧ Forall (λ H, completes model H ∅ (Init model)) history) ∨
     (res = Illegal ∧ ¬ Forall (λ H, completes model H ∅ (Init model)) history)) ∧
    (computeInfo = true → li_history info = history ∧
       Forall2 (λ H ps, Forall (reported H) ps) history (li_partialLinearizations info)).
Proof.
  intros Hall Hne Horder Hperm. destruct (singles_spec history computeInfo Hall) as [fuel Hf].
  exists fuel. intros fuel' Hle. specialize (λ i H, Hf fuel' i H Hle). rename Hf into Hs.
  destruct (select_loop_ok fuel' history computeInfo Hs todo true []) as (ok & received & E & Hok & Hnok & Hrec);
    [done| |set_solver|done|].
  { intros ->. apply Permutation_length in Hperm. rewrite length_seq in Hperm. by destruct history. }
  assert (∃ info, (if computeInfo then
      outcome_bind (collect fuel' order model history kills received (seq 0 (length history)))
        (λ ps, Done (LinearizationInfo history ps))
      else Done (LinearizationInfo [] [])) = Done info ∧
    (computeInfo = true → li_history info = history ∧
       Forall2 (λ H ps, Forall (reported H) ps) history (li_partialLinearizations info)))
    as (info & Einfo & Hinfo).
  { destruct computeInfo; [|by eexists]. specialize (Hrec eq_refl).
    destruct (collect_ok fuel' order history kills received (seq 0 (length history)) Horder Hs) as (pss & Ec & Hps).
    { intros i. rewrite Hrec, elem_of_seq. lia. }
    rewrite Ec. eexists. split; [done|]. intros _. split; [done|]. simpl.
    apply Forall2_same_length_lookup. apply Forall2_same_length_lookup in Hps as [Hl Hps].
    rewrite length_seq in Hl. split; [done|]. intros i H ps HH Hi.
    destruct (Hps i i ps) as (H' & ? & ?); [|done|by simplify_eq].
    apply lookup_seq_lt. by eapply lookup_lt_Some. }
  unfold checkParallel. change (zlen []) with 0%Z in E. rewrite E. cbn [outcome_bind]. rewrite Einfo.
  eexists _, info. split; [done|]. split; [|done]. rewrite list.Forall_lookup. destruct ok; [left|right].
  - split; [done|]. intros i H HH. apply (Hok eq_refl i); [by eapply lookup_lt_Some|done].
  - split; [done|]. destruct (Hnok eq_refl) as (i & Hi & Hg). intros Hc. apply Hg. intros H. apply Hc.
Qed.
End correct.

(** ** The entry points *)

Section entry_points.
Context {V St : Type} `{!Interface V} `{!EqDecision St}.
Context (sort : list (entry V) → list (entry V)) (Hsort : sorts sort).
Context (order : list nat → list nat) (Horder : ∀ l, order l ≡ₚ l).

Definition io_of (o : Operation V) : V * V := (op_Input o, op_Output o).

(** The partitions that the model makes of a history. *)
Definition partitions_of (model : Model V St) (history : list (Operation V)) : option (list (list (Operation V))) :=
  default (λ h, Some (NoPartition h)) (Partition model) history.

(** Calls come before returns and the model can run every operation. *)
Definition history_ok (model : Model V St) (ops : list (Operation V)) : Prop :=
  Forall (λ o, (op_Call o ≤ op_Return o)%Z) ops ∧ steps_total model (io_of <$> ops).

Lemma history_part_ok (model : Model V St) ops :
  history_ok model ops → part_ok (fillDefault model) (length ops) (makeEntries sort ops).
Proof.
  intros [Ht Hs]. split; [by apply makeEntries_wf|].
  intros s i inp out Hop. apply (op_of_entries sort Hsort ops Ht) in Hop as (o & k & _ & Ho & -> & ->). apply Hs.
  apply (list_elem_of_fmap_2 io_of). by eapply list_elem_of_lookup_2.
Qed.

(** checkOperations without a timer, whatever the order of the answers. *)
Lemma checkOperations_ok (model : Model V St) history parts verbose (todo : list nat) kills :
  partitions_of model history = Some parts → parts ≠ [] → Forall (history_ok model) parts →
  equal_ok model (default ShallowEqual (Equal model)) → todo ≡ₚ seq 0 (length parts) →
  ∃ fuel, ∀ fuel', fuel ≤ fuel' → ∃ res info,
    checkOperations fuel' sort order model history verbose 0 (Answer <$> todo) kills = Done (res, info) ∧
    ((res = Ok ∧ Forall (linearizable model) parts) ∨ (res = Illegal ∧ ¬ Forall (linearizable model) parts)) ∧
    (verbose = true → li_history info = makeEntries sort <$> parts ∧
       Forall2 (λ ops ps, Forall (λ sq, partial (fillDefault model) (makeEntries sort ops) sq ∧
         partial_linearization model ops (Z.to_nat <$> sq) ∧
         (linearizable model ops → linearization model ops (Z.to_nat <$> sq))) ps)
         parts (li_partialLinearizations info)).
Proof.
  intros Hparts Hne Hok Heq Hperm.
  assert (∀ ops, ops ∈ parts → completes (fillDefault model) (makeEntries sort ops) ∅ (Init model) ↔
    linearizable model ops) as Hiff.
  { intros ops Hin. rewrite list.Forall_forall in Hok. destruct (Hok ops Hin) as [Ht _].
    apply (completes_linearizable sort Hsort ops Ht (fillDefault model)). }
  destruct (checkParallel_ok (fillDefault model) (default ShallowEqual (Equal model)) eq_refl Heq
    (makeEntries sort <$> parts) verbose order kills todo) as [fuel Hf].
  { apply Forall_fmap, (list.Forall_impl _ _ _ Hok). intros ops H. eexists. by apply history_part_ok. }
  { by destruct parts. }
  { done. }
  { by rewrite length_fmap. }
  exists fuel. intros fuel' Hle. destruct (Hf fuel' Hle) as (res & info & E & Hres & Hinfo).
  exists res, info. split_and!.
  - unfold checkOperations. simpl. unfold partitions_of in Hparts. rewrite Hparts. simpl. apply E.
  - rewrite Forall_fmap in Hres.
    assert (Forall ((λ H, completes (fillDefault model) H ∅ (Init model)) ∘ makeEntries sort) parts ↔
      Forall (linearizable model) parts) as Ha by (rewrite !list.Forall_forall; set_solver).
    simpl in Hres. destruct Hres as [[-> ?]|[-> ?]]; [left|right]; tauto.
  - intros Hv. destruct (Hinfo Hv) as [Hh Hall]. split; [done|]. rewrite Forall2_fmap_l in Hall.
    apply Forall2_same_length_lookup in Hall as [Hlen Hall]. apply Forall2_same_length_lookup.
    split; [done|]. intros i ops ps Hops Hps. specialize (Hall i ops ps Hops Hps). simpl in Hall.
    apply list_elem_of_lookup_2 in Hops. apply (list.Forall_impl _ _ _ Hall).
    rewrite list.Forall_forall in Hok. destruct (Hok ops Hops) as [Ht _].
    intros sq [Hp Hc]. split; [done|]. split; [by apply (partial_ops sort Hsort ops Ht (fillDefault model))|].
    intros Hl. apply (complete_ops sort Hsort ops Ht (fillDefault model)), Hc. by apply Hiff.
Qed.

(** The verbose check with a timer that may end it at any time. *)
Lemma checkOperations_verbose (model : Model V St) history parts :
  partitions_of model history = Some parts → parts ≠ [] → Forall (history_ok model) parts →
  equal_ok model (default ShallowEqual (Equal model)) →
  ∃ fuel, ∀ fuel' timeout arrivals kills, fuel ≤ fuel' → enough timeout (length parts) arrivals → ∃ res info,
    checkOperations fuel' sort order model history true timeout arrivals kills = Done (res, info) ∧
    li_history info = makeEntries sort <$> parts ∧
    Forall2 (λ ops ps, Forall (partial (fillDefault model) (makeEntries sort ops)) ps) parts (li_partialLinearizations info).
Proof.
  intros Hparts Hne Hok Heq.
  destruct (checkParallel_verbose (fillDefault model) (default ShallowEqual (Equal model)) eq_refl Heq
    (makeEntries sort <$> parts) order) as [fuel Hf].
  { apply Forall_fmap, (list.Forall_impl _ _ _ Hok). intros ops H. eexists. by apply history_part_ok. }
  { by destruct parts. }
  { done. }
  exists fuel. intros fuel' timeout arrivals kills Hle Hen.
  destruct (Hf fuel' timeout arrivals kills Hle) as (res & info & E & Hh & Hps); [by rewrite length_fmap|].
  exists res, info. split_and!; [|done|by rewrite Forall2_fmap_l in Hps].
  unfold checkOperations. simpl. unfold partitions_of in Hparts. rewrite Hparts. simpl. apply E.
Qed.
End entry_points.
