(* ===== verification/KvModel.v ===== *)
(** * The porcupine model of the key/value store (models/kv.go)

    [KvModel] describes one key: [Partition] splits a history by key and the
    checker runs on each part.  [KvSpec] is the whole store, a map from keys
    to values.  The file shows that the two agree ([kv_local]): a history is
    linearizable for the store exactly when each key's part is linearizable,
    and concludes that the checker with this model decides linearizability of
    the store. *)

From stdpp Require Import sorting.
From S2P Require Import Prelude PorcupineModel PorcupineList PorcupineSpec PorcupineHistory PorcupineCheck.

(** [Op]: 0 get, 1 put, otherwise append (a [uint8]). *)
Record KvInput := mkKvInput { kvi_Op : Z; kvi_Key : string; kvi_Value : string }.
Record KvOutput := mkKvOutput { kvo_Value : string }.

(** The dynamic values in the interfaces of a history. *)
Inductive KvAny := AnyInput (i : KvInput) | AnyOutput (o : KvOutput) | AnyNil.

#[export] Instance KvAny_interface : Interface KvAny := AnyNil.

(** [v.(KvInput)] and [v.(KvOutput)] *)
Definition as_KvInput (v : KvAny) : option KvInput := match v with AnyInput i => Some i | _ => None end.
Definition as_KvOutput (v : KvAny) : option KvOutput := match v with AnyOutput o => Some o | _ => None end.

Fixpoint partition_loop (history : list (Operation KvAny)) (m : gmap string (list (Operation KvAny))) :
    option (gmap string (list (Operation KvAny))) :=
  match history with
  | [] => Some m
  | v :: history =>
      inp ← as_KvInput (op_Input v);
      let key := kvi_Key inp in
      partition_loop history (<[key := default [] (m !! key) ++ [v]]> m)
  end.

(** [sort.Strings]: strings are compared byte by byte. *)
Definition string_le (a b : string) : Prop := String.leb a b = true.

#[export] Instance string_le_dec : RelDecision string_le.
Proof. intros a b. unfold string_le. apply _. Defined.

Definition KvModel_Partition (history : list (Operation KvAny)) : option (list (list (Operation KvAny))) :=
  m ← partition_loop history ∅;
  let keys := merge_sort string_le (map_to_list m).*1 in
  Some ((λ k, default [] (m !! k)) <$> keys).

Definition KvModel_Step (st : string) (input output : KvAny) : option (bool * string) :=
  inp ← as_KvInput input;
  out ← as_KvOutput output;
  Some (if (kvi_Op inp =? 0)%Z then (bool_decide (kvo_Value out = st), st)
        else if (kvi_Op inp =? 1)%Z then (true, kvi_Value inp)
        else (true, String.append st (kvi_Value inp))).

(** [Equal] and [PartitionEvent] are nil. *)
Definition KvModel : Model KvAny string := MkModel (Some KvModel_Partition) None EmptyString KvModel_Step None.

(** ** The whole store *)

Definition value_of (m : gmap string string) (k : string) : string := default EmptyString (m !! k).

Definition KvSpec_Step (m : gmap string string) (input output : KvAny) : option (bool * gmap string string) :=
  match input, output with
  | AnyInput (mkKvInput op k v), AnyOutput out =>
      Some (if (op =? 0)%Z then (bool_decide (kvo_Value out = value_of m k), m)
            else if (op =? 1)%Z then (true, <[k := v]> m)
            else (true, <[k := String.append (value_of m k) v]> m))
  | _, _ => None
  end.

Definition KvSpec : Model KvAny (gmap string string) := MkModel None None ∅ KvSpec_Step None.

(** ** Linearizability as an order of the operations themselves *)

Section orders.
Context {V St : Type} (model : Model V St).

Definition in_order (l : list (Operation V)) : Prop :=
  ∀ a b, [a; b] `sublist_of` l → (op_Call a ≤ op_Return b)%Z.

Definition runs (s : St) (l : list (Operation V)) : Prop := is_Some (legal model s (io_of <$> l)).

Lemma omap_lookup_seq (p h : list (Operation V)) :
  omap (λ i, (p ++ h) !! i) (seq (length p) (length h)) = h.
Proof.
  revert p. induction h as [|o h IH]; intros p; [done|]. cbn [length seq]. cbn [omap list_omap].
  rewrite list_lookup_middle by done. f_equal. specialize (IH (p ++ [o])).
  rewrite <- app_assoc, length_app, Nat.add_comm in IH. apply IH.
Qed.

(** The operations of an order of positions are an order of the operations. *)
Lemma positions_ops (h os : list (Operation V)) l :
  l ≡ₚ seq 0 (length h) → mapM (λ i, h !! i) l = Some os → os ≡ₚ h.
Proof.
  rewrite mapM_Some. intros Hp Ho. assert (omap (λ i, h !! i) l = os) as <-.
  { clear Hp. induction Ho as [|i o l os Hi _ IH]; [done|]. simpl. rewrite Hi. by f_equal. }
  rewrite Hp. pose proof (omap_lookup_seq [] h) as E. simpl in E. by rewrite E.
Qed.

Lemma ops_positions (h os : list (Operation V)) :
  os ≡ₚ h → ∃ l, l ≡ₚ seq 0 (length h) ∧ mapM (λ i, h !! i) l = Some os.
Proof.
  intros (Hlen & f & Hf & Hlook)%Permutation_inj. exists (f <$> seq 0 (length os)). split.
  - apply submseteq_length_Permutation; [|rewrite length_fmap, !length_seq; lia].
    apply NoDup_submseteq; [apply NoDup_fmap_2; [done|apply NoDup_seq]|].
    intros j (i & -> & Hi)%list_elem_of_fmap. rewrite elem_of_seq in Hi |- *.
    destruct (lookup_lt_is_Some_2 os i) as [o Ho]; [lia|]. rewrite Hlook in Ho. apply lookup_lt_Some in Ho. lia.
  - apply mapM_Some. rewrite Forall2_fmap_l. apply Forall2_same_length_lookup.
    split; [by rewrite length_seq|]. intros i j o [-> _]%lookup_seq Ho. simpl. by rewrite <- Hlook.
Qed.

Lemma linearizable_order (h : list (Operation V)) :
  linearizable model h ↔ ∃ os, os ≡ₚ h ∧ in_order os ∧ runs (Init model) os.
Proof.
  split.
  - intros (l & Hp & Ho & os & Hos & Hleg). exists os. split_and!; [by eapply positions_ops| |done].
    intros a b (i & j & Hij & Ha & Hb)%sublist_pair. apply mapM_Some in Hos.
    destruct (Forall2_lookup_r _ _ _ _ _ Hos Ha) as (i' & Hi & Hi').
    destruct (Forall2_lookup_r _ _ _ _ _ Hos Hb) as (j' & Hj & Hj').
    apply (Ho i' j' a b); try done. apply sublist_pair. eauto.
  - intros (os & Hp & Ho & Hleg). destruct (ops_positions h os Hp) as (l & Hl & Hos).
    exists l. split_and!; [done| |by exists os].
    intros i j a b (x & y & Hxy & Hi & Hj)%sublist_pair Ha Hb. apply Ho, sublist_pair. apply mapM_Some in Hos.
    destruct (Forall2_lookup_l _ _ _ _ _ Hos Hi) as (a' & ? & ?).
    destruct (Forall2_lookup_l _ _ _ _ _ Hos Hj) as (b' & ? & ?). simplify_eq. eauto.
Qed.

Lemma in_order_sublist l1 l2 : l1 `sublist_of` l2 → in_order l2 → in_order l1.
Proof. intros Hs Ho a b Hab. apply Ho. by etrans. Qed.
End orders.

(** ** One key at a time *)

Definition kv_key (o : Operation KvAny) : string :=
  match op_Input o with AnyInput i => kvi_Key i | _ => EmptyString end.

Definition typed (o : Operation KvAny) : Prop :=
  is_Some (as_KvInput (op_Input o)) ∧ is_Some (as_KvOutput (op_Output o)).

(** The operations on one key. *)
Abbreviation on_key k l := (filter (λ o, kv_key o = k) l).

(** A step of the store is a step of its key, and changes no other key. *)
Lemma spec_model m o m' :
  KvSpec_Step m (op_Input o) (op_Output o) = Some (true, m') →
  KvModel_Step (value_of m (kv_key o)) (op_Input o) (op_Output o) = Some (true, value_of m' (kv_key o)) ∧
  ∀ k, k ≠ kv_key o → value_of m' k = value_of m k.
Proof.
  unfold KvSpec_Step, KvModel_Step, kv_key, value_of.
  destruct (op_Input o) as [[op k v]| |], (op_Output o) as [|[w]|]; try done. simpl.
  destruct (op =? 0)%Z; [intros [= Hw <-]; by rewrite Hw|].
  destruct (op =? 1)%Z; intros [= <-]; rewrite lookup_insert_eq;
    (split; [done|]; intros k' Hk; by rewrite lookup_insert_ne).
Qed.

Lemma model_spec m o s' :
  KvModel_Step (value_of m (kv_key o)) (op_Input o) (op_Output o) = Some (true, s') →
  ∃ m', KvSpec_Step m (op_Input o) (op_Output o) = Some (true, m') ∧ value_of m' (kv_key o) = s'.
Proof.
  unfold KvSpec_Step, KvModel_Step, kv_key, value_of.
  destruct (op_Input o) as [[op k v]| |], (op_Output o) as [|[w]|]; try done. simpl.
  destruct (op =? 0)%Z; [intros [= Hw <-]; rewrite Hw; by eexists|].
  destruct (op =? 1)%Z; intros [= <-]; (eexists; split; [done|]; by rewrite lookup_insert_eq).
Qed.

Lemma runs_on_key m os k : runs KvSpec m os → runs KvModel (value_of m k) (on_key k os).
Proof.
  unfold runs. revert m. induction os as [|o os IH]; intros m; [by eexists|].
  cbn [fmap list_fmap legal io_of Step KvSpec].
  destruct (KvSpec_Step m (op_Input o) (op_Output o)) as [[[] m']|] eqn:E; [|by intros []..].
  intros Hr%IH. destruct (spec_model _ _ _ E) as [Hm Hne]. rewrite filter_cons. destruct (decide _) as [<-|Hk].
  - cbn [fmap list_fmap legal io_of Step KvModel]. by rewrite Hm.
  - rewrite <- Hne by done. done.
Qed.

(** Of a non-empty list, an operation with the first return. *)
Lemma first_return (l : list (Operation KvAny)) :
  l ≠ [] → ∃ y, y ∈ l ∧ ∀ z, z ∈ l → (op_Return y ≤ op_Return z)%Z.
Proof.
  induction l as [|x l IH]; [done|]. intros _. destruct l as [|x' l]; [exists x; set_solver by lia|].
  destruct IH as (y & Hy & Hmin); [done|]. destruct (decide (op_Return x ≤ op_Return y)%Z) as [Hle|Hlt].
  - exists x. split; [set_solver|]. intros z [->|Hz]%elem_of_cons; [lia|]. specialize (Hmin z Hz). lia.
  - exists y. split; [set_solver|]. intros z [->|Hz]%elem_of_cons; [lia|]. by apply Hmin.
Qed.

(** The first operation on a key, taken out of a list. *)
Lemma on_key_first k l o t :
  on_key k l = o :: t →
  ∃ l1 l2, l = l1 ++ o :: l2 ∧ kv_key o = k ∧
    (∀ k', on_key k' (l1 ++ l2) = if decide (k' = k) then t else on_key k' l).
Proof.
  induction l as [|x l IH]; [done|]. rewrite filter_cons. destruct (decide (kv_key x = k)) as [Hx|Hx].
  - intros [= <- <-]. exists [], l. split_and!; [done|done|]. intros k'. simpl.
    destruct (decide (k' = k)) as [->|Hne]; [done|]. rewrite filter_cons_False; [done|congruence].
  - intros (l1 & l2 & -> & Hk & Hf)%IH. exists (x :: l1), l2. split_and!; [done|done|]. intros k'.
    rewrite <- app_comm_cons, !filter_cons, Hf. destruct (decide (k' = k)) as [->|].
    + by rewrite decide_False.
    + by destruct (decide _).
Qed.

(** Orders of the keys can be merged into one order of all operations: the
    next one is the first on the key of the operation that returns first. *)
Lemma merge_keys n : ∀ l m,
  length l = n → Forall (λ o, (op_Call o ≤ op_Return o)%Z) l →
  (∀ k, in_order (on_key k l) ∧ runs KvModel (value_of m k) (on_key k l)) →
  ∃ os, os ≡ₚ l ∧ in_order os ∧ runs KvSpec m os.
Proof.
  induction n as [|n IH]; intros l m Hn Ht Hk.
  { destruct l; [|done]. exists []. split_and!; [done|intros a b Hs; inversion Hs|by eexists]. }
  destruct (first_return l) as (y & Hy & Hmin); [by intros ->|].
  destruct (Hk (kv_key y)) as [Ho Hr]. destruct (on_key (kv_key y) l) as [|o t] eqn:E.
  { assert (y ∈ on_key (kv_key y) l) as Hin by by apply list_elem_of_filter. rewrite E in Hin. set_solver. }
  destruct (on_key_first _ _ _ _ E) as (l1 & l2 & -> & Hok & Hf).
  assert (op_Call o ≤ op_Return y)%Z as Hoy.
  { assert (y ∈ o :: t) as [->|Hyt]%elem_of_cons.
    - rewrite <- E. by apply list_elem_of_filter.
    - rewrite list.Forall_forall in Ht. apply Ht. set_solver.
    - apply Ho. apply sublist_skip. by apply singleton_sublist_l. }
  unfold runs in Hr. cbn [fmap list_fmap legal io_of Step KvModel] in Hr. rewrite <- Hok in Hr.
  destruct (KvModel_Step _ _ _) as [[[] s']|] eqn:Es; [|by destruct Hr..].
  destruct (model_spec _ _ _ Es) as (m' & Em & Hv). destruct (spec_model _ _ _ Em) as [_ Hne].
  destruct (IH (l1 ++ l2) m') as (os & Hp & Hos & Hrs).
  - rewrite length_app in *. simpl in Hn. lia.
  - rewrite list.Forall_forall in Ht |- *. intros z Hz. apply Ht. set_solver.
  - intros k. rewrite Hf. destruct (decide (k = kv_key y)) as [->|Hky].
    + rewrite <- Hok, Hv. split; [|done]. eapply in_order_sublist; [|done]. by apply sublist_cons.
    + rewrite Hne by congruence. apply Hk.
  - exists (o :: os). split_and!; [by rewrite Hp, Permutation_middle| |].
    + intros a b (k1 & k2 & Eq & Hb%singleton_sublist_l)%sublist_cons_l.
      destruct k1 as [|x k1]; injection Eq as -> ->.
      * etrans; [done|]. apply Hmin. rewrite Hp in Hb. set_solver.
      * apply Hos. apply sublist_inserts_l, sublist_skip. by apply singleton_sublist_l.
    + unfold runs. cbn [fmap list_fmap legal io_of Step KvSpec]. by rewrite Em.
Qed.

(** ** The partition *)

Lemma partition_loop_ok h m :
  Forall typed h →
  ∃ m', partition_loop h m = Some m' ∧
    (∀ k, default [] (m' !! k) = default [] (m !! k) ++ on_key k h) ∧
    (∀ k, is_Some (m' !! k) ↔ is_Some (m !! k) ∨ ∃ o, o ∈ h ∧ kv_key o = k).
Proof.
  revert m. induction h as [|o h IH]; intros m Hty.
  { exists m. split_and!; [done|intros; by rewrite app_nil_r|]. intros k. split; [by left|].
    intros [?|(? & ? & _)]; [done|set_solver]. }
  inversion Hty as [|? ? [[inp Hinp] _] Hty']; subst. cbn [partition_loop]. rewrite Hinp. cbn [mbind option_bind].
  assert (kvi_Key inp = kv_key o) as ->.
  { unfold kv_key. destruct (op_Input o); simpl in Hinp; by simplify_eq. }
  destruct (IH (<[kv_key o := default [] (m !! kv_key o) ++ [o]]> m) Hty') as (m' & E & Hd & Hs).
  exists m'. split_and!; [done| |].
  - intros k. rewrite Hd, filter_cons. destruct (decide (kv_key o = k)) as [<-|Hk].
    + rewrite lookup_insert_eq. simpl. by rewrite <- app_assoc.
    + by rewrite lookup_insert_ne.
  - intros k. rewrite Hs. destruct (decide (kv_key o = k)) as [<-|Hk].
    + rewrite lookup_insert_eq. split; intros _; [right; exists o; set_solver|left; by eexists].
    + rewrite lookup_insert_ne by done. set_solver.
Qed.

Lemma KvModel_Partition_ok h :
  Forall typed h →
  ∃ keys, KvModel_Partition h = Some ((λ k, on_key k h) <$> keys) ∧ NoDup keys ∧
    ∀ k, k ∈ keys ↔ ∃ o, o ∈ h ∧ kv_key o = k.
Proof.
  intros Hty. destruct (partition_loop_ok h ∅ Hty) as (m & E & Hd & Hs). unfold KvModel_Partition. rewrite E.
  cbn [mbind option_bind]. exists (merge_sort string_le (map_to_list m).*1). split_and!.
  - f_equal. apply list_fmap_ext. intros i k _. rewrite Hd, lookup_empty. done.
  - rewrite merge_sort_Permutation. apply NoDup_fst_map_to_list.
  - intros k. rewrite merge_sort_Permutation, list_elem_of_fmap. split.
    + intros ([k' v] & -> & Hk%elem_of_map_to_list). assert (is_Some (m !! k')) as Hm by (by eexists).
      apply Hs in Hm as [[? ?]|?]; [by rewrite lookup_empty in *|done].
    + intros Hk. destruct (proj2 (Hs k)) as [v Hv]; [by right|]. exists (k, v). split; [done|].
      by apply elem_of_map_to_list.
Qed.

Lemma on_key_none k l : (∀ o, o ∈ l → kv_key o ≠ k) → on_key k l = [].
Proof.
  intros Hl. destruct (on_key k l) as [|o t] eqn:E; [done|].
  assert (o ∈ on_key k l) as Ho by (rewrite E; set_solver).
  apply list_elem_of_filter in Ho as [Hk Ho]. by destruct (Hl o Ho).
Qed.

(** The orders of some keys, one after the other. *)
Lemma gather_keys h keys :
  NoDup keys → Forall (λ k, linearizable KvModel (on_key k h)) keys →
  ∃ l, l ≡ₚ filter (λ o, kv_key o ∈ keys) h ∧
    ∀ k, in_order (on_key k l) ∧ runs KvModel EmptyString (on_key k l).
Proof.
  intros Hnd. induction Hnd as [|k keys Hk Hnd IH]; intros Hall.
  { exists []. split; [|by intros k; split; [intros a b Hs; inversion Hs|by eexists]].
    clear. induction h as [|o h IH]; [done|]. rewrite filter_cons_False; [done|set_solver]. }
  inversion Hall as [|? ? Hlin Hall']; subst. destruct (IH Hall') as (l & Hl & Hkeys).
  apply linearizable_order in Hlin as (os & Hos & Hord & Hrun). exists (os ++ l).
  assert (∀ o, o ∈ os → kv_key o = k) as Hosk by (intros o; rewrite Hos, list_elem_of_filter; tauto).
  assert (∀ o, o ∈ l → kv_key o ∈ keys) as Hlk by (intros o; rewrite Hl, list_elem_of_filter; tauto).
  split.
  - rewrite Hos, Hl. clear -Hk. induction h as [|o h IH]; [done|]. rewrite !filter_cons.
    destruct (decide (kv_key o = k)) as [<-|Hne].
    + rewrite (decide_True (P := kv_key o ∈ kv_key o :: keys)), (decide_False (P := kv_key o ∈ keys)) by set_solver.
      simpl. by rewrite IH.
    + destruct (decide (kv_key o ∈ keys)).
      * rewrite decide_True by set_solver. by rewrite <- Permutation_middle, IH.
      * rewrite decide_False by set_solver. done.
  - intros k'. rewrite list.filter_app. destruct (decide (k' = k)) as [->|Hne].
    + rewrite (on_key_none k l), app_nil_r, filter_all by (try done; intros o Ho <-; by apply Hk, Hlk). done.
    + rewrite (on_key_none k' os) by (intros o Ho <-; by destruct Hne; apply Hosk). apply Hkeys.
Qed.

(** A history of the store is linearizable exactly when the part of each key is. *)
Lemma kv_local h :
  Forall typed h → Forall (λ o, (op_Call o ≤ op_Return o)%Z) h →
  ∃ parts, KvModel_Partition h = Some parts ∧ (parts = [] ↔ h = []) ∧
    (∀ part o, part ∈ parts → o ∈ part → o ∈ h) ∧
    (linearizable KvSpec h ↔ Forall (linearizable KvModel) parts).
Proof.
  intros Hty Ht. destruct (KvModel_Partition_ok h Hty) as (keys & E & Hnd & Hkeys). eexists. split; [done|].
  split_and!.
  - split; intros Hn.
    + destruct h as [|o h]; [done|]. apply fmap_nil_inv in Hn. exfalso.
      assert (kv_key o ∈ keys) as Hk by (apply Hkeys; exists o; set_solver). rewrite Hn in Hk. set_solver.
    + destruct keys as [|k keys]; [done|]. destruct (proj1 (Hkeys k)) as (o & Ho & _); set_solver.
  - intros part o (k & -> & _)%list_elem_of_fmap [_ ?]%list_elem_of_filter. done.
  - rewrite Forall_fmap. split.
    + intros (os & Hp & Ho & Hr)%linearizable_order. apply list.Forall_forall. intros k _. apply linearizable_order.
      exists (on_key k os). split_and!; [by rewrite Hp| |by apply (runs_on_key ∅ os k Hr)].
      eapply in_order_sublist; [apply sublist_filter|done].
    + intros Hall. destruct (gather_keys h keys Hnd Hall) as (l & Hl & Hk).
      rewrite filter_all in Hl by (intros o Ho; apply Hkeys; eauto).
      destruct (merge_keys (length l) l ∅ eq_refl) as (os & Hos & ? & ?); [by rewrite Hl|done|].
      apply linearizable_order. exists os. split_and!; [by etrans|done|done].
Qed.

Lemma KvModel_total ops : Forall typed ops → steps_total KvModel (io_of <$> ops).
Proof.
  intros Hty s i o (op & [= -> ->] & Hin)%list_elem_of_fmap. rewrite list.Forall_forall in Hty.
  destruct (Hty op Hin) as [[inp Hi] [out Ho]]. cbn [Step KvModel]. unfold KvModel_Step. rewrite Hi, Ho. by eexists.
Qed.

(** A history of two clients: a put and an append that overlap, then a get. *)
Definition kv_in (op : Z) (k v : string) : KvAny := AnyInput (mkKvInput op k v).
Definition kv_out (v : string) : KvAny := AnyOutput (mkKvOutput v).

Definition demo_history (seen : string) : list (Operation KvAny) :=
  [MkOperation 0 (kv_in 1 "x" "a") 0 (kv_out "") 3;
   MkOperation 1 (kv_in 2 "x" "b") 1 (kv_out "") 4;
   MkOperation 0 (kv_in 1 "y" "c") 4 (kv_out "") 6;
   MkOperation 1 (kv_in 0 "x" "") 5 (kv_out seen) 7].

Lemma demo_runs :
  CheckOperations 100 byTime_sort id KvModel (demo_history "ab") [Answer 1; Answer 0] (λ _ _, 0%Z) = Done true ∧
  CheckOperations 100 byTime_sort id KvModel (demo_history "a") [Answer 1; Answer 0] (λ _ _, 0%Z) = Done true ∧
  CheckOperations 100 byTime_sort id KvModel (demo_history "b") [Answer 1; Answer 0] (λ _ _, 0%Z) = Done false.
Proof. split_and!; vm_compute; reflexivity. Qed.

Lemma demo_typed seen : Forall typed (demo_history seen).
Proof. repeat constructor; by eexists. Qed.

Lemma demo_times seen : Forall (λ o, (op_Call o ≤ op_Return o)%Z) (demo_history seen).
Proof. repeat constructor; simpl; lia. Qed.

Lemma kv_decides sort order kills history parts todo :
  sorts sort → (∀ l, order l ≡ₚ l) → history ≠ [] →
  Forall typed history → Forall (λ o, (op_Call o ≤ op_Return o)%Z) history →
  KvModel_Partition history = Some parts → todo ≡ₚ seq 0 (length parts) →
  ∃ b fuel, (∀ fuel', fuel ≤ fuel' →
      CheckOperations fuel' sort order KvModel history (Answer <$> todo) kills = Done b) ∧
    (b = true ↔ linearizable KvSpec history).
Proof.
  intros Hsort Horder Hne Hty Ht Hparts Htodo.
  destruct (kv_local history Hty Ht) as (parts' & E & Hnil & Hin & Hiff). simplify_eq.
  assert (Forall (history_ok KvModel) parts) as Hok.
  { apply list.Forall_forall. intros part Hp. rewrite list.Forall_forall in Hty, Ht.
    split; [|apply KvModel_total]; apply list.Forall_forall; intros o Ho; eauto. }
  destruct (checkOperations_ok sort Hsort order Horder KvModel history parts false todo kills) as [fuel Hf];
    [done|by rewrite Hnil|done|apply ShallowEqual_ok|done|].
  destruct (Hf fuel ltac:(done)) as (res & _ & _ & Hres & _).
  exists (bool_decide (res = Ok)), fuel. split.
  - intros fuel' Hle. destruct (Hf fuel' Hle) as (res' & info & E' & Hres' & _).
    assert (res' = res) as -> by (destruct Hres as [[-> ?]|[-> ?]], Hres' as [[-> ?]|[-> ?]]; done).
    unfold CheckOperations. by rewrite E'.
  - rewrite Hiff, bool_decide_eq_true. destruct Hres as [[-> ?]|[-> ?]]; done.
Qed.

(** C14. The checker with KvModel decides linearizability of the key/value
    store.  For a non-empty history of key/value operations whose calls do not
    come after their returns, and whatever the order in which the goroutines
    answer, CheckOperations returns (it neither panics nor runs for ever), and
    it returns true exactly when the history is linearizable with respect to
    the whole store.  On the empty history, which has no partitions, it waits
    for ever ([empty_history_blocks]). *)
Theorem CheckOperations_kv sort order kills history parts todo :
  sorts sort → (∀ l, order l ≡ₚ l) → history ≠ [] →
  Forall typed history → Forall (λ o, (op_Call o ≤ op_Return o)%Z) history →
  KvModel_Partition history = Some parts → todo ≡ₚ seq 0 (length parts) →
  ∃ b fuel, (∀ fuel', fuel ≤ fuel' →
      CheckOperations fuel' sort order KvModel history (Answer <$> todo) kills = Done b) ∧
    (b = true ↔ linearizable KvSpec history).
Proof. apply kv_decides. Qed.

Lemma CheckOperations_kv_witness :
  ∃ b fuel, (∀ fuel', fuel ≤ fuel' →
      CheckOperations fuel' byTime_sort id KvModel (demo_history "ab") (Answer <$> [1; 0]) (λ _ _, 0%Z) = Done b) ∧
    (b = true ↔ linearizable KvSpec (demo_history "ab")).
Proof.
  destruct (KvModel_Partition (demo_history "ab")) as [parts|] eqn:E; [|vm_compute in E; discriminate].
  apply (CheckOperations_kv byTime_sort id (λ _ _, 0%Z) (demo_history "ab") parts [1; 0]).
  - apply byTime_sort_ok.
  - reflexivity.
  - discriminate.
  - apply demo_typed.
  - apply demo_times.
  - exact E.
  - vm_compute in E. injection E as <-. apply (Permutation_swap 0 1 []).
Defined.
