(* ===== verification/Linearizable.v ===== *)
(** * The replicated store is linearizable

    The history that the clerks of the tests record (kvraft/test_test.go), when
    the servers apply one log: every operation of the history is a request of
    the log, its output is what the clerk made of the reply that the state
    machine gave at some position of the request (a request can be logged more
    than once), and its call and return lie around the time at which that
    position was applied.  [service_linearizable]: such a history is
    linearizable for the whole store, and porcupine's CheckOperations with
    KvModel says so.  Together with KVReplica (every server is at a prefix of
    the log) this is what the tests of the service check. *)

From S2P Require Import Prelude KVServer KVMachine KVClerk PorcupineModel PorcupineList PorcupineSpec PorcupineHistory PorcupineCheck KvModel.
From stdpp Require Import strings sorting.

#[local] Arguments apply_op : simpl never.

(** ** Operations of a history *)

(** What the test records as input; DELETE has no counterpart in KvModel. *)
Definition kv_input (c : Op) : KvAny :=
  if bool_decide (op_Type c = "Get") then AnyInput (mkKvInput 0 (op_Key c) "")
  else AnyInput (mkKvInput (if bool_decide (op_Type c = "Put") then 1 else 2)%Z (op_Key c) (op_Value c)).

Definition modelled (c : Op) : Prop := op_Type c = "Get" ∨ op_Type c = "Put" ∨ op_Type c = "Append".

(** What the clerk returns on the reply of a server; [None] is another round. *)
Definition clerk_value (c : Op) (rep : OpReply) (leader : Z) (ck : Clerk) : option string :=
  if bool_decide (op_Type c = "Get") then (Get_iter (Some (Get_reply rep leader)) ck).2
  else (λ _, "") <$> (PutAppend_iter (Some (PutAppend_reply rep leader)) ck).2.

(** A request that was answered: from the entry of the log at [sv_pos]. *)
Record Served := mkServed {
  sv_client : Z;
  sv_pos : nat;
  sv_call : Z;
  sv_return : Z;
  sv_leader : Z;
  sv_clerk : Clerk
}.

Definition operation (L : list Op) (r : Served) : option (Operation KvAny) :=
  c ← L !! sv_pos r;
  rep ← outputs L empty_machine !! sv_pos r;
  v ← clerk_value c rep (sv_leader r) (sv_clerk r);
  Some (MkOperation (sv_client r) (kv_input c) (sv_call r) (kv_out v) (sv_return r)).

(** The request that was answered. *)
Definition sv_id (L : list Op) (r : Served) : option (Z * Z) := req_id <$> L !! sv_pos r.

(** ** The first positions *)

(** The positions at which a request is executed, with the replies. *)
Fixpoint fresh_pos (seen : gset (Z * Z)) (l : list Op) (n : nat) (s : Store) : list (nat * Op * OpReply) :=
  match l with
  | [] => []
  | c :: l =>
      if bool_decide (req_id c ∈ seen) then fresh_pos seen l (S n) s
      else (n, c, (applyToStateMachine c s).2) :: fresh_pos ({[req_id c]} ∪ seen) l (S n) (applyToStateMachine c s).1
  end.

(** A request that is new is executed, and its reply is the output. *)
Lemma apply_op_fresh seen c s r l :
  table_ok seen r → continues r (c :: l) → req_id c ∉ seen → (apply_op c (s, r)).2 = (applyToStateMachine c s).2.
Proof.
  intros [Hn Hs] Hc Hni. unfold apply_op. destruct (r !! KVServer.op_ClientId c) as [rec|] eqn:Hr.
  - destruct (Hs _ _ Hr) as [Hin Hmax]. pose proof (Hc c rec (list_elem_of_here _ _) Hr) as Hle.
    destruct (LastSeqId rec >=? op_SeqId c)%Z eqn:E; b2p; [|by destruct (applyToStateMachine c s)].
    assert (LastSeqId rec = op_SeqId c) as Heq by lia. rewrite Heq in Hin. by destruct Hni.
  - by destruct (applyToStateMachine c s).
Qed.

Lemma fresh_pos_ok l : ∀ s r seen n i c rep,
  session_ordered l → table_ok seen r → continues r l → (i, c, rep) ∈ fresh_pos seen l n s →
  ∃ k, i = n + k ∧ l !! k = Some c ∧ outputs l (s, r) !! k = Some rep.
Proof.
  induction l as [|d l IH]; intros s r seen n i c rep Hso Ht Hc Hin; [by apply not_elem_of_nil in Hin|].
  destruct (apply_op_spec seen d s r l Ht Hc) as (H1 & H2 & _).
  pose proof (table_ok_step seen d r (apply_op d (s, r)).2 l Ht Hc) as Ht'.
  pose proof (continues_step d r (apply_op d (s, r)).2 l Hso Hc) as Hc'.
  pose proof (apply_op_fresh seen d s r l Ht Hc) as Hf. apply StronglySorted_inv in Hso as [Hso _].
  assert (∀ seen', table_ok seen' (apply_op d (s, r)).1.2 → (i, c, rep) ∈ fresh_pos seen' l (S n) (apply_op d (s, r)).1.1 →
    ∃ k, i = n + k ∧ (d :: l) !! k = Some c ∧ outputs (d :: l) (s, r) !! k = Some rep) as Hrest.
  { intros seen' Hts Hin'. rewrite H2 in Hts. destruct (IH _ _ _ _ _ _ _ Hso Hts Hc' Hin') as (k & -> & Hk & Ho).
    exists (S k). split_and!; [lia|done|]. simpl. rewrite (surjective_pairing (apply_op d (s, r)).1), H2. done. }
  rewrite H1, H2 in Hrest. cbn [fresh_pos] in Hin. case_bool_decide as Hd.
  - apply (Hrest seen); [by eapply table_seen|done].
  - apply elem_of_cons in Hin as [[= -> -> ->]|Hin]; [|by eapply Hrest].
    exists 0. split_and!; [lia|done|]. simpl. by rewrite Hf.
Qed.

Lemma fresh_pos_bounds l : ∀ seen n s i c rep, (i, c, rep) ∈ fresh_pos seen l n s → n ≤ i ∧ req_id c ∉ seen.
Proof.
  induction l as [|d l IH]; intros seen n s i c rep Hin; [by apply not_elem_of_nil in Hin|]. cbn [fresh_pos] in Hin.
  case_bool_decide as Hd.
  - apply IH in Hin as [? ?]. split; [lia|done].
  - apply elem_of_cons in Hin as [[= -> -> _]|Hin]; [done|]. apply IH in Hin as [? ?]. split; [lia|set_solver].
Qed.

Lemma fresh_pos_reply l : ∀ seen n s i c rep, (i, c, rep) ∈ fresh_pos seen l n s → ∃ s', rep = (applyToStateMachine c s').2.
Proof.
  induction l as [|d l IH]; intros seen n s i c rep Hin; [by apply not_elem_of_nil in Hin|]. cbn [fresh_pos] in Hin.
  case_bool_decide; [by eapply IH|]. apply elem_of_cons in Hin as [[= _ -> ->]|Hin]; [by eexists|by eapply IH].
Qed.

Lemma outputs_length l : ∀ m, length (outputs l m) = length l.
Proof. induction l as [|c l IH]; intros m; [done|]. simpl. by rewrite IH. Qed.

(** In the order of the log, one position per request. *)
Lemma fresh_pos_sorted l : ∀ seen n s,
  StronglySorted (λ x y : nat * Op * OpReply, x.1.1 < y.1.1 ∧ req_id x.1.2 ≠ req_id y.1.2) (fresh_pos seen l n s).
Proof.
  induction l as [|d l IH]; intros seen n s; [constructor|]. cbn [fresh_pos]. case_bool_decide; [done|].
  constructor; [done|]. apply Forall_forall. intros [[i c] rep] [Hle Hc]%fresh_pos_bounds. simpl. split; [lia|]. intros E. apply Hc, elem_of_union_l, elem_of_singleton. by rewrite E.
Qed.

Lemma fresh_pos_cover l : ∀ seen n s i c,
  l !! i = Some c → req_id c ∈ seen ∨ ∃ j d rep, (j, d, rep) ∈ fresh_pos seen l n s ∧ j ≤ n + i ∧ req_id d = req_id c.
Proof.
  induction l as [|a l IH]; intros seen n s i c Hi; [done|]. cbn [fresh_pos]. destruct i as [|i]; simpl in Hi.
  - injection Hi as ->. case_bool_decide; [by left|]. right. eexists _, _, _. split; [apply list_elem_of_here|]. split; [lia|done].
  - case_bool_decide as Ha.
    + destruct (IH seen (S n) s i c Hi) as [?|(j & d & rep & Hin & Hle & E)]; [by left|]. right. exists j, d, rep. split_and!; [done|lia|done].
    + destruct (IH ({[req_id a]} ∪ seen) (S n) (applyToStateMachine a s).1 i c Hi) as [Hc|(j & d & rep & Hin & Hle & E)].
      * apply elem_of_union in Hc as [->%elem_of_singleton|Hc]; [|by left]. right. eexists _, _, _.
        split; [apply list_elem_of_here|]. split; [lia|done].
      * right. exists j, d, rep. split_and!; [by apply list_elem_of_further|lia|done].
Qed.

(** ** The linearization *)

(** A step of the state machine is a step of the specification. *)
Lemma machine_spec c s leader ck v :
  modelled c → clerk_value c (applyToStateMachine c s).2 leader ck = Some v →
  KvSpec_Step s (kv_input c) (kv_out v) = Some (true, (applyToStateMachine c s).1).
Proof.
  intros [Hc|[Hc|Hc]]; unfold clerk_value, applyToStateMachine, kv_input; rewrite Hc; simpl.
  - unfold getHandler, value_of, Store in *. destruct (s !! op_Key c) as [w|]; simpl; intros [= <-]; by rewrite bool_decide_true.
  - intros [= <-]. done.
  - intros [= <-]. done.
Qed.

Lemma clerk_value_total c s leader ck : modelled c → is_Some (clerk_value c (applyToStateMachine c s).2 leader ck).
Proof.
  intros [Hc|[Hc|Hc]]; unfold clerk_value, applyToStateMachine; rewrite Hc; simpl; [|by eexists..].
  unfold getHandler. destruct (s !! op_Key c); by eexists.
Qed.

Lemma nodup_key_inj {A B} (f : A → B) (l : list A) x y : NoDup (f <$> l) → x ∈ l → y ∈ l → f x = f y → x = y.
Proof.
  intros Hn [i Hi]%list_elem_of_lookup [j Hj]%list_elem_of_lookup E.
  assert (i = j) as ->; [|by simplify_eq]. eapply (NoDup_lookup _ i j (f x) Hn); rewrite list_lookup_fmap; [by rewrite Hi|].
  by rewrite Hj, E.
Qed.

Lemma list_choice {A B} (P : A → B → Prop) (l : list A) : (∀ x, x ∈ l → ∃ y, P x y) → ∃ l', Forall2 P l l'.
Proof.
  induction l as [|x l IH]; intros H; [by exists []|]. destruct (H x) as [y Hy]; [apply list_elem_of_here|].
  destruct IH as [l' Hl']; [intros z Hz; by apply H, list_elem_of_further|]. exists (y :: l'). by constructor.
Qed.

(** The operations at the first positions, in the order of the log. *)
Lemma fresh_runs l : ∀ seen n s os,
  Forall modelled l →
  Forall2 (λ (x : nat * Op * OpReply) o, ∃ leader ck v, clerk_value x.1.2 x.2 leader ck = Some v ∧ io_of o = (kv_input x.1.2, kv_out v))
    (fresh_pos seen l n s) os →
  runs KvSpec s os.
Proof.
  induction l as [|d l IH]; intros seen n s os Hm Hos; cbn [fresh_pos] in Hos; [by inversion Hos; eexists|].
  inversion Hm as [|? ? Hd Hm']; subst. case_bool_decide; [by eapply IH|].
  inversion Hos as [|? o ? os' (leader & ck & v & Hv & Hio) Hos']; subst. simpl in Hv, Hio. unfold runs.
  cbn [fmap list_fmap legal]. rewrite Hio. cbn [Step KvSpec]. rewrite (machine_spec d s leader ck v Hd Hv). by eapply IH.
Qed.

(** A request at its first position is answered by that position. *)
Lemma first_output L i c rep :
  session_ordered L → (i, c, rep) ∈ fresh_pos ∅ L 0 ∅ → L !! i = Some c ∧ outputs L empty_machine !! i = Some rep.
Proof.
  intros Hso Hin. destruct (fresh_pos_ok L ∅ ∅ ∅ 0 i c rep Hso empty_table) as (k & -> & Hk & Ho); [|done|done].
  intros d rec _. by rewrite no_record.
Qed.

(** The answered requests [rs] fit the log [L] whose position [i] was applied
    at time [at_ i]: a request was not applied before it was called, and an
    answer was not given before the position it comes from was applied.  Every
    request of the log was answered, once. *)
Record served_by (L : list Op) (at_ : nat → Z) (rs : list Served) : Prop := {
  sb_session : session_ordered L;
  sb_same : ∀ c d, c ∈ L → d ∈ L → req_id c = req_id d → c = d;
  sb_modelled : Forall modelled L;
  sb_mono : ∀ i j, i ≤ j → (at_ i ≤ at_ j)%Z;
  sb_pos : ∀ r, r ∈ rs → is_Some (L !! sv_pos r) ∧ (at_ (sv_pos r) ≤ sv_return r)%Z;
  sb_call : ∀ r i, r ∈ rs → sv_id L r = req_id <$> L !! i → (sv_call r ≤ at_ i)%Z;
  sb_once : NoDup (sv_id L <$> rs);
  sb_all : ∀ c, c ∈ L → Some (req_id c) ∈ sv_id L <$> rs
}.

Section history.
Context (L : list Op) (at_ : nat → Z) (rs : list Served) (H : served_by L at_ rs).

Abbreviation firsts := (fresh_pos ∅ L 0 ∅).

Lemma first_spec i c rep :
  (i, c, rep) ∈ firsts → L !! i = Some c ∧ outputs L empty_machine !! i = Some rep.
Proof. by apply first_output, (sb_session _ _ _ H). Qed.

(** Every answer comes from the first position of its request, or a later one with the same reply. *)
Lemma served_first r :
  r ∈ rs → ∃ i c rep, (i, c, rep) ∈ firsts ∧ i ≤ sv_pos r ∧ L !! sv_pos r = Some c ∧ outputs L empty_machine !! sv_pos r = Some rep.
Proof.
  intros Hr. destruct (sb_pos _ _ _ H r Hr) as [[c Hc] _].
  destruct (fresh_pos_cover L ∅ 0 ∅ _ c Hc) as [?|(i & d & rep & Hin & Hle & E)]; [set_solver|]. simpl in Hle.
  destruct (first_spec _ _ _ Hin) as [Hd Ho].
  assert (d = c) as -> by (eapply (sb_same _ _ _ H); eauto using list_elem_of_lookup_2).
  exists i, c, rep. split_and!; [done..|]. destruct (decide (i = sv_pos r)) as [->|Hne]; [done|].
  destruct (lookup_lt_is_Some_2 (outputs L empty_machine) (sv_pos r)) as [rep' Ho'].
  { rewrite outputs_length. by eapply lookup_lt_Some. }
  rewrite Ho'. f_equal. symmetry.
  exact (duplicate_reply L i (sv_pos r) c c rep rep' (sb_session _ _ _ H) ltac:(lia) Hd Hc eq_refl Ho Ho').
Qed.

(** The answer of a request at its first position. *)
Lemma first_served i c rep : (i, c, rep) ∈ firsts → ∃ r, r ∈ rs ∧ sv_id L r = Some (req_id c).
Proof.
  intros [Hc _]%first_spec. pose proof (sb_all _ _ _ H c (list_elem_of_lookup_2 _ _ _ Hc)) as Hin.
  apply list_elem_of_fmap in Hin as (r & E & Hr). by exists r.
Qed.

(** What was recorded of an answer. *)
Lemma operation_at r :
  r ∈ rs → ∃ i c rep v, (i, c, rep) ∈ firsts ∧ i ≤ sv_pos r ∧ sv_id L r = Some (req_id c) ∧
    clerk_value c rep (sv_leader r) (sv_clerk r) = Some v ∧
    operation L r = Some (MkOperation (sv_client r) (kv_input c) (sv_call r) (kv_out v) (sv_return r)).
Proof.
  intros Hr. destruct (served_first r Hr) as (i & c & rep & Hin & Hle & Hc & Ho).
  destruct (fresh_pos_reply _ _ _ _ _ _ _ Hin) as [s Hrep].
  assert (modelled c) as Hm.
  { pose proof (sb_modelled _ _ _ H) as Hall. rewrite list.Forall_forall in Hall. by eapply Hall, list_elem_of_lookup_2. }
  destruct (clerk_value_total c s (sv_leader r) (sv_clerk r) Hm) as [v Hv]. rewrite <- Hrep in Hv. exists i, c, rep, v.
  split_and!; [done..| |done|].
  - unfold sv_id. by rewrite Hc.
  - unfold operation. rewrite Hc. cbn [mbind option_bind]. rewrite Ho. cbn [mbind option_bind]. by rewrite Hv.
Qed.

(** Requests are told apart by their answers and by their first positions. *)
Lemma served_inj r r' : r ∈ rs → r' ∈ rs → sv_id L r = sv_id L r' → r = r'.
Proof. apply nodup_key_inj, (sb_once _ _ _ H). Qed.

Lemma firsts_ids : NoDup ((λ x : nat * Op * OpReply, req_id x.1.2) <$> firsts).
Proof.
  pose proof (fresh_pos_sorted L ∅ 0 ∅) as Hs. induction Hs as [|x l _ IH Hall]; [constructor|]. simpl. constructor; [|done].
  intros (y & E & Hy)%list_elem_of_fmap. rewrite list.Forall_forall in Hall. by destruct (Hall y Hy) as [_ []].
Qed.

(** The answers in the order of the first positions. *)
Lemma served_order :
  ∃ rs', rs' ≡ₚ rs ∧ Forall2 (λ (x : nat * Op * OpReply) r, r ∈ rs ∧ sv_id L r = Some (req_id x.1.2)) firsts rs'.
Proof.
  destruct (list_choice (λ (x : nat * Op * OpReply) r, r ∈ rs ∧ sv_id L r = Some (req_id x.1.2)) firsts) as [rs' Hrs].
  { intros [[i c] rep]. apply first_served. }
  exists rs'. split; [|done]. assert (sv_id L <$> rs' = Some <$> ((λ x : nat * Op * OpReply, req_id x.1.2) <$> firsts)) as Hids.
  { clear -Hrs. induction Hrs as [|x r l rs' [_ Hr] _ IH]; [done|]. by rewrite !fmap_cons, Hr, IH. }
  apply NoDup_Permutation.
  - eapply NoDup_fmap_1. rewrite Hids. apply NoDup_fmap_2; [apply _|apply firsts_ids].
  - eapply NoDup_fmap_1, (sb_once _ _ _ H).
  - intros r. split.
    + intros [k Hk]%list_elem_of_lookup. destruct (Forall2_lookup_r _ _ _ _ _ Hrs Hk) as (x & _ & Hr & _). done.
    + intros Hr. destruct (served_first r Hr) as (i & c & rep & Hin & _ & Hc & _).
      assert (sv_id L r ∈ sv_id L <$> rs') as Hr'.
      { rewrite Hids. unfold sv_id. rewrite Hc. simpl. apply list_elem_of_fmap_2.
        by apply (list_elem_of_fmap_2 (λ x : nat * Op * OpReply, req_id x.1.2) firsts (i, c, rep)). }
      apply list_elem_of_fmap in Hr' as (r' & E & Hr').
      pose proof Hr' as [k Hk]%list_elem_of_lookup. destruct (Forall2_lookup_r _ _ _ _ _ Hrs Hk) as (x & _ & Hin' & _).
      by rewrite (served_inj r r' Hr Hin' E).
Qed.

(** The recorded operation of an answer, and the first position it stands for. *)
Lemma operation_first i c rep r o :
  (i, c, rep) ∈ firsts → r ∈ rs → sv_id L r = Some (req_id c) → operation L r = Some o →
  (op_Call o ≤ at_ i)%Z ∧ (at_ i ≤ op_Return o)%Z ∧
  ∃ leader ck v, clerk_value c rep leader ck = Some v ∧ io_of o = (kv_input c, kv_out v).
Proof.
  intros Hin Hr Hid Ho. destruct (operation_at r Hr) as (j & d & rep' & v & Hin' & Hle & Hid' & Hv & E). rewrite E in Ho.
  injection Ho as <-. rewrite Hid in Hid'. injection Hid' as Hreq.
  assert ((i, c, rep) = (j, d, rep')) as [= -> -> ->].
  { apply (nodup_key_inj (λ x : nat * Op * OpReply, req_id x.1.2) firsts); [apply firsts_ids|done..|]. unfold req_id. simpl. congruence. }
  destruct (sb_pos _ _ _ H r Hr) as [_ Hret]. simpl. split_and!.
  - apply (sb_call _ _ _ H r _ Hr). destruct (first_spec _ _ _ Hin) as [-> _]. done.
  - etrans; [|exact Hret]. by apply (sb_mono _ _ _ H).
  - by eexists _, _, v.
Qed.
End history.

Lemma sorted_lookup {A} (R : A → A → Prop) (l : list A) k1 k2 x y :
  StronglySorted R l → k1 < k2 → l !! k1 = Some x → l !! k2 = Some y → R x y.
Proof.
  intros Hs. revert k1 k2. induction Hs as [|z l _ IH Hall]; intros k1 k2 Hk Hx Hy; [done|].
  destruct k2 as [|k2]; [lia|]. destruct k1 as [|k1]; simpl in *; [|by apply (IH k1 k2); [lia|..]].
  injection Hx as ->. rewrite list.Forall_forall in Hall. by eapply Hall, list_elem_of_lookup_2.
Qed.

Lemma operation_typed L r o : operation L r = Some o → typed o.
Proof.
  unfold operation. intros Ho. apply bind_Some in Ho as (c & _ & Ho). apply bind_Some in Ho as (rep & _ & Ho).
  apply bind_Some in Ho as (v & _ & [= <-]). split; simpl; [|by eexists]. unfold kv_input. case_bool_decide; by eexists.
Qed.

(** The history is linearizable: the order is that of the first positions. *)
Lemma served_linearizable L at_ rs :
  served_by L at_ rs → ∃ h, mapM (operation L) rs = Some h ∧ linearizable KvSpec h ∧ Forall (λ o, (op_Call o ≤ op_Return o)%Z) h.
Proof.
  intros H. destruct (served_order L at_ rs H) as (rs' & Hp & Hrs).
  set (op_of r := default (MkOperation 0 AnyNil 0 AnyNil 0) (operation L r)).
  assert (∀ r, r ∈ rs → operation L r = Some (op_of r)) as Hop.
  { intros r (i & c & rep & v & _ & _ & _ & _ & E)%(operation_at L at_ rs H). unfold op_of. by rewrite E. }
  exists (op_of <$> rs). split_and!.
  - apply mapM_Some, Forall2_fmap_r, Forall_Forall2_diag, list.Forall_forall. done.
  - apply linearizable_order. exists (op_of <$> rs'). split_and!; [by rewrite Hp| |].
    + intros a b (k1 & k2 & Hk & Ha & Hb)%sublist_pair. rewrite list_lookup_fmap in Ha, Hb.
      apply fmap_Some in Ha as (ra & Ha & ->). apply fmap_Some in Hb as (rb & Hb & ->).
      destruct (Forall2_lookup_r _ _ _ _ _ Hrs Ha) as ([[i c] rep] & Hi & Hra & Ea).
      destruct (Forall2_lookup_r _ _ _ _ _ Hrs Hb) as ([[j d] rep'] & Hj & Hrb & Eb).
      destruct (operation_first L at_ rs H _ _ _ _ _ (list_elem_of_lookup_2 _ _ _ Hi) Hra Ea (Hop _ Hra)) as (Hc & _).
      destruct (operation_first L at_ rs H _ _ _ _ _ (list_elem_of_lookup_2 _ _ _ Hj) Hrb Eb (Hop _ Hrb)) as (_ & Hr & _).
      destruct (sorted_lookup _ _ _ _ _ _ (fresh_pos_sorted L ∅ 0 ∅) Hk Hi Hj) as [Hij _]. simpl in Hij.
      pose proof (sb_mono _ _ _ H i j ltac:(lia)). lia.
    + apply (fresh_runs L ∅ 0 ∅); [apply (sb_modelled _ _ _ H)|]. apply Forall2_fmap_r.
      apply Forall2_same_length_lookup. split; [by eapply Forall2_length|]. intros k [[i c] rep] r Hi Hr.
      destruct (Forall2_lookup_lr _ _ _ _ _ _ Hrs Hi Hr) as [Hin Hid].
      by destruct (operation_first L at_ rs H _ _ _ _ _ (list_elem_of_lookup_2 _ _ _ Hi) Hin Hid (Hop _ Hin)) as (_ & _ & ?).
  - apply Forall_fmap, list.Forall_forall. intros r Hr. destruct (operation_at L at_ rs H r Hr) as (i & c & rep & v & Hin & _ & Hid & _).
    destruct (operation_first L at_ rs H _ _ _ _ _ Hin Hr Hid (Hop _ Hr)) as (? & ? & _). simpl. lia.
Qed.

(** C13. The replicated store is linearizable, and porcupine finds it so, when
    the log keeps the order of each client's requests.  For answers that fit a
    non-empty log ([served_by]) of gets, puts and appends, in which a request
    can be repeated but does not stand after a later-numbered one of its client,
    and of which every request was answered once, from any of its positions,
    after that position was applied, and was not applied before it was called:
    every clerk's loop ends with a value, the history of the operations is
    linearizable with respect to the whole store, and CheckOperations with
    KvModel returns true on it, whatever the order in which its goroutines
    answer.  Without the order of the sessions the servers lose or repeat
    requests; a log with deletes or with unanswered requests is not covered
    here. *)
Theorem service_linearizable L at_ rs sort order kills :
  served_by L at_ rs → L ≠ [] → sorts sort → (∀ l, order l ≡ₚ l) →
  ∃ h parts, mapM (operation L) rs = Some h ∧ linearizable KvSpec h ∧ KvModel_Partition h = Some parts ∧
    ∀ todo, todo ≡ₚ seq 0 (length parts) →
      ∃ fuel, ∀ fuel', fuel ≤ fuel' → CheckOperations fuel' sort order KvModel h (Answer <$> todo) kills = Done true.
Proof.
  intros H HL Hsort Horder. destruct (served_linearizable L at_ rs H) as (h & Hh & Hlin & Ht).
  assert (Forall typed h) as Hty.
  { apply list.Forall_forall. intros o [k Hk]%list_elem_of_lookup. apply mapM_Some in Hh.
    destruct (Forall2_lookup_r _ _ _ _ _ Hh Hk) as (r & _ & Ho). by eapply operation_typed. }
  destruct (KvModel_Partition_ok h Hty) as (keys & Hparts & _). exists h, ((λ k, filter (λ o, kv_key o = k) h) <$> keys).
  split_and!; [done..|]. intros todo Htodo.
  destruct (kv_decides sort order kills h ((λ k, filter (λ o, kv_key o = k) h) <$> keys) todo Hsort Horder)
    as (b & fuel & Hf & Hb); try done.
  { intros ->. apply mapM_Some, Forall2_nil_inv_r in Hh. subst. destruct L as [|c L]; [done|].
    pose proof (sb_all _ _ _ H c (list_elem_of_here _ _)) as Hin. by apply not_elem_of_nil in Hin. }
  exists fuel. intros fuel' Hle. rewrite Hf by done. by rewrite (proj2 Hb Hlin).
Qed.

(** ** Two clerks *)

Definition two_log : list Op :=
  [mkOp "Put" "x" "a" 1 1; mkOp "Append" "x" "b" 1 2; mkOp "Put" "x" "a" 1 1; mkOp "Get" "x" "" 2 1].

Definition two_clerk : Clerk := MakeClerk [0; 1; 2]%Z 7.

(** The first client's put was answered from its repetition. *)
Definition two_served : list Served :=
  [mkServed 1 2 0 25 0 two_clerk; mkServed 2 1 5 12 0 two_clerk; mkServed 1 3 26 31 0 two_clerk].

Lemma two_served_by : served_by two_log (λ i, 10 * Z.of_nat i)%Z two_served.
Proof.
  split.
  - repeat constructor; unfold in_session; simpl; lia.
  - unfold two_log. intros c d Hc Hd E. rewrite !elem_of_cons in Hc, Hd.
    destruct Hc as [->|[->|[->|[->|Hc]]]], Hd as [->|[->|[->|[->|Hd]]]]; try done; set_solver.
  - unfold two_log, modelled. rewrite !list.Forall_cons. split_and!; [simpl; auto..|constructor].
  - lia.
  - unfold two_served. intros r. rewrite !elem_of_cons. intros [->|[->|[->|Hr]]]; simpl; [split; [by eexists|lia]..|set_solver].
  - unfold two_served. intros r i. rewrite !elem_of_cons.
    intros [->|[->|[->|Hr]]]; [destruct i as [|[|[|[|i]]]]; (done || (simpl; lia))..|set_solver].
  - apply (bool_decide_unpack (NoDup _)). vm_compute. exact I.
  - apply list.Forall_forall. apply (bool_decide_unpack (Forall (λ c, Some (req_id c) ∈ sv_id two_log <$> two_served) two_log)).
    vm_compute. exact I.
Qed.

Lemma service_linearizable_witness :
  ∃ h parts, mapM (operation two_log) two_served = Some h ∧ linearizable KvSpec h ∧ KvModel_Partition h = Some parts ∧
    ∀ todo, todo ≡ₚ seq 0 (length parts) →
      ∃ fuel, ∀ fuel', fuel ≤ fuel' → CheckOperations fuel' byTime_sort id KvModel h (Answer <$> todo) (λ _ _, 0%Z) = Done true.
Proof.
  apply (service_linearizable two_log (λ i, 10 * Z.of_nat i)%Z two_served).
  - apply two_served_by.
  - discriminate.
  - apply byTime_sort_ok.
  - reflexivity.
Defined.

(** The get saw the put and the append, although the put was logged again between. *)
Lemma two_history : (λ h, op_Output <$> h) <$> mapM (operation two_log) two_served = Some [kv_out ""; kv_out ""; kv_out "ab"].
Proof. vm_compute. reflexivity. Qed.
