(* ===== verification/KVHistory.v ===== *)
(** * What the clients of the cluster see is linearizable

    The events of an execution of [KVCluster] in the order in which they happen
    at the servers, the clerks' operations among them, and the position of the
    one log from which each is answered.  [cluster_linearizable] composes the
    whole system: agreement of the peers, the servers on top of them, the record
    table and the clerks' loops make a linearizable store for Get, Put and
    Append, as long as the log of the execution keeps the order of each client's
    requests; a request that is in the log and has no answer yet counts as an
    operation that is still going on. *)

From S2P Require Import Prelude PorcupineModel PorcupineList PorcupineSpec PorcupineHistory PorcupineCheck KvModel Linearizable.
From S2P Require Import Persister RaftTypes RaftNet RaftInv RaftCommit RaftAgreement RaftStream.
From S2P Require Import KVServer KVMachine KVReplica KVCluster KVClerk.
From stdpp Require Import strings.

Section history.
Context `{!Gob (PersistentState Op)} `{!Gob Machine}.

(** ** When the positions of the log were reached *)

(** A return at event [e] is a refusal, or answers from a position that was
    reached before it. *)
Definition return_ok (G : list Op) (times : list nat) (e : nat) (req : Request) (reply : Reply) : Prop :=
  ∃ r leader, reply = fill_reply req r leader ∧
    (refusal r ∨ ∃ k c t, G !! k = Some c ∧ outputs G empty_machine !! k = Some r ∧
      times !! k = Some t ∧ t ≤ e ∧
      (c = command_of req ∨
       (op_ClientId c = op_ClientId (command_of req) ∧ (op_SeqId (command_of req) ≤ op_SeqId c)%Z))).

(** [times] gives for every position of [G] the number of events before it was
    reached: after a call of its command, and before any return that answers
    from it. *)
Record timed (evs : list KEvent) (G : list Op) (times : list nat) : Prop := {
  tm_len : length times = length G;
  tm_mono i j s t : i ≤ j → times !! i = Some s → times !! j = Some t → s ≤ t;
  tm_past k t : times !! k = Some t → t ≤ length evs;
  tm_call k c t : G !! k = Some c → times !! k = Some t →
    ∃ e req, e < t ∧ evs !! e = Some (Call req) ∧ command_of req = c;
  tm_return e req reply : evs !! e = Some (Return req reply) → return_ok G times e req reply
}.

Lemma sent_no_call hd req : Call req ∉ sent_reply hd.
Proof. destruct hd; simpl; set_solver. Qed.

(** A step adds its call, then at most a return. *)
Lemma kstep_events a kw kw' :
  kstep a kw = Some kw' →
  ∃ out, kw_events kw' = (kw_events kw ++ calls a) ++ out ∧ ∀ req, Call req ∉ out.
Proof.
  unfold kstep. intros H. apply bind_Some in H as (acts & _ & H).
  destruct (run acts (kw_raft kw)) as [| |w]; try done.
  destruct a as [a|i req|i k timeout|i|i|i|i now]; simpl in H |- *; rewrite ?app_nil_r.
  1: injection H as <-; exists []; rewrite app_nil_r; set_solver.
  all: apply bind_Some in H as (s & _ & H).
  - destruct (site_request req s) as [s' hd]. injection H as <-. exists (sent_reply hd). simpl.
    rewrite <- (assoc_L (++)). split; [done|]. apply sent_no_call.
  - apply bind_Some in H as ([s' hd] & _ & [= <-]). exists (sent_reply hd). split; [done|]. apply sent_no_call.
  - apply bind_Some in H as (s' & _ & [= <-]). exists []. set_solver.
  - apply bind_Some in H as (s' & _ & [= <-]). exists []. set_solver.
  - injection H as <-. exists []. set_solver.
  - injection H as <-. exists []. set_solver.
Qed.

(** The times of the new positions. *)
Definition grow_times (times : list nat) (G' : list Op) (now : nat) : list nat :=
  times ++ replicate (length G' - length times) now.

Lemma grow_times_Some times G' now k t :
  grow_times times G' now !! k = Some t →
  times !! k = Some t ∨ (length times ≤ k < length G' ∧ t = now).
Proof.
  unfold grow_times. intros [?|[Hk Hr]]%lookup_app_Some; [by left|right].
  apply lookup_replicate in Hr as [-> ?]. split; [lia|done].
Qed.

Lemma grow_times_le evs G times a G' k t :
  timed evs G times → grow_times times G' (length (evs ++ calls a)) !! k = Some t → t ≤ length (evs ++ calls a).
Proof.
  intros Ht [Hk|[_ ->]]%grow_times_Some; [|done]. apply (tm_past _ _ _ Ht) in Hk. rewrite length_app. lia.
Qed.

(** A new position is a command that was called before. *)
Lemma timed_call evs out G G' times a k c t :
  timed evs G times → G `prefix_of` G' → (∀ req, Call req ∉ out) →
  (∀ c, c ∈ G' → called ((evs ++ calls a) ++ out) c) →
  G' !! k = Some c → grow_times times G' (length (evs ++ calls a)) !! k = Some t →
  ∃ e req, e < t ∧ ((evs ++ calls a) ++ out) !! e = Some (Call req) ∧ command_of req = c.
Proof.
  intros Htm HG Hout Hcalled Hk [Ht|[_ ->]]%grow_times_Some.
  - destruct (tm_call _ _ _ Htm k c t) as (e & req & ? & He' & ?); [|done|].
    + destruct HG as [G2 ->]. apply lookup_lt_Some in Ht. rewrite (tm_len _ _ _ Htm) in Ht.
      by rewrite lookup_app_l in Hk by lia.
    + exists e, req. split_and!; [done| |done]. rewrite <- (assoc_L (++)). by apply lookup_app_l_Some.
  - destruct (Hcalled c (list_elem_of_lookup_2 _ _ _ Hk)) as (req & [e Hr]%list_elem_of_lookup & Hc).
    exists e, req. split_and!; try done. apply lookup_app_Some in Hr as [Hr|[_ Hr]].
    + by apply lookup_lt_Some in Hr.
    + by apply list_elem_of_lookup_2, Hout in Hr.
Qed.

(** A new return answers from a position that was reached before. *)
Lemma timed_return evs out G G' times a e req reply :
  let times' := grow_times times G' (length (evs ++ calls a)) in
  timed evs G times → G `prefix_of` G' →
  (∀ req reply, Return req reply ∈ (evs ++ calls a) ++ out → reply_ok G' req reply) →
  ((evs ++ calls a) ++ out) !! e = Some (Return req reply) → return_ok G' times' e req reply.
Proof.
  intros times' Htm HG Hrep Hr. destruct (decide (e < length evs)) as [Hlt|Hge].
  - rewrite <- (assoc_L (++)), lookup_app_l in Hr by done.
    destruct (tm_return _ _ _ Htm e req reply Hr) as (r & l & Heq & [?|(k & c & t & Hk & Ho & Ht & Hle & Hc)]);
      exists r, l; (split; [done|]); [by left|right]. exists k, c, t.
    split_and!; [by eapply prefix_lookup_Some|by eapply outputs_prefix|by apply lookup_app_l_Some|done..].
  - destruct (Hrep req reply (list_elem_of_lookup_2 _ _ _ Hr)) as (r & l & Heq & [?|(k & c & Hk & Ho & Hc)]);
      exists r, l; (split; [done|]); [by left|right].
    destruct (lookup_lt_is_Some_2 times' k) as [t Ht].
    { unfold times', grow_times. rewrite length_app, length_replicate. apply lookup_lt_Some in Hk. lia. }
    exists k, c, t. split_and!; try done. apply (grow_times_le evs G) in Ht; [|done]. etrans; [exact Ht|].
    apply lookup_app_Some in Hr as [Hr|[? _]]; [|done].
    rewrite lookup_app_r in Hr by lia. apply list_elem_of_lookup_2 in Hr. destruct a; set_solver.
Qed.

Lemma timed_step kw kw' a G G' times :
  timed (kw_events kw) G times → kstep a kw = Some kw' → G `prefix_of` G' → implements G' kw' →
  timed (kw_events kw') G' (grow_times times G' (length (kw_events kw ++ calls a))).
Proof.
  intros Htm Hs HG Him. destruct (kstep_events a kw kw' Hs) as (out & He & Hout).
  pose proof (prefix_length _ _ HG) as Hlen. pose proof (im_called _ _ Him) as Hcalled.
  pose proof (im_reply _ _ Him) as Hrep. rewrite He in *. split.
  - unfold grow_times. rewrite length_app, length_replicate, (tm_len _ _ _ Htm). lia.
  - intros i j s t Hij Hi Hj. pose proof (grow_times_le _ _ _ _ _ _ _ Htm Hi) as Hp.
    apply grow_times_Some in Hj as [Hj|[_ ->]]; [|done].
    apply grow_times_Some in Hi as [Hi|[Hi _]]; [by apply (tm_mono _ _ _ Htm i j)|]. apply lookup_lt_Some in Hj. lia.
  - intros k t Hk%(grow_times_le _ _ _ _ _ _ _ Htm). rewrite length_app. lia.
  - intros k c t. by apply (timed_call _ _ G).
  - intros e req reply. by apply (timed_return _ _ G).
Qed.

Lemma krun_timed n acts kw h g G times kw' :
  KInv n kw h g G → timed (kw_events kw) G times → kcareful acts kw = true → krun acts kw = Some kw' →
  implements (klog acts kw G) kw' ∧ ∃ times', timed (kw_events kw') (klog acts kw G) times'.
Proof.
  revert kw h g G times. induction acts as [|a acts IH]; intros kw h g G times HK Ht Hcf H; simpl in H, Hcf.
  - injection H as <-. split; [by eapply kinv_implements|by exists times].
  - apply bind_Some in H as (kw1 & Hs & H). rewrite Hs in Hcf. cbn [klog]. rewrite Hs.
    destruct (raft_part a kw) as [ra|] eqn:Hpart; [|done]. apply andb_true_iff in Hcf as [Hc1 Hc2].
    destruct (kstep_inv n kw h g G a ra kw1 HK Hpart Hc1 Hs) as (h1 & g1 & HG1 & HK1).
    eapply (IH kw1 h1 g1); eauto. eapply timed_step; eauto. by eapply kinv_implements.
Qed.

Lemma init_timed : timed [] [] [].
Proof. by split. Qed.

(** ** The clerks' operations *)

(** The requests that the tests record. *)
Definition tested (req : Request) : Prop :=
  match req with
  | RGet _ => True
  | RPutAppend args => paa_Op args = "Put" ∨ paa_Op args = "Append"
  | RDelete _ => False
  end.

(** What the clerk's loop makes of a reply; [None] is another round. *)
Definition reply_value (reply : Reply) (ck : Clerk) : option string :=
  match reply with
  | ReplyGet r => (Get_iter (Some r) ck).2
  | ReplyPutAppend r => (λ _, "") <$> (PutAppend_iter (Some r) ck).2
  | ReplyDelete _ => None
  end.

(** An operation: its request, the event of its first call, and the event of the
    reply that ended its loop. *)
Record ClerkOp := mkClerkOp {
  co_req : Request;
  co_call : nat;
  co_return : nat;
  co_reply : Reply;
  co_clerk : Clerk
}.

Definition co_command (d : ClerkOp) : Op := command_of (co_req d).

(** The operation in the history of the tests. *)
Definition co_operation (d : ClerkOp) : option (Operation KvAny) :=
  v ← reply_value (co_reply d) (co_clerk d);
  Some (MkOperation (op_ClientId (co_command d)) (kv_input (co_command d)) (Z.of_nat (co_call d))
          (kv_out v) (Z.of_nat (co_return d))).

(** The operation happened, and its client had not called a later one before. *)
Record happened (evs : list KEvent) (d : ClerkOp) : Prop := {
  hp_call : evs !! co_call d = Some (Call (co_req d));
  hp_return : evs !! co_return d = Some (Return (co_req d) (co_reply d));
  hp_value : is_Some (reply_value (co_reply d) (co_clerk d));
  hp_first e req : evs !! e = Some (Call req) → req_id (command_of req) = req_id (co_command d) → co_call d ≤ e;
  hp_next e req : e < co_return d → evs !! e = Some (Call req) →
    op_ClientId (command_of req) = op_ClientId (co_command d) →
    (op_SeqId (command_of req) ≤ op_SeqId (co_command d))%Z
}.

(** The requests: of the kinds the tests use, and numbered by their clients. *)
Record numbered (evs : list KEvent) : Prop := {
  nb_tested req : Call req ∈ evs → tested req;
  nb_same req req' : Call req ∈ evs → Call req' ∈ evs →
    req_id (command_of req) = req_id (command_of req') → command_of req = command_of req'
}.

Lemma tested_modelled req : tested req → modelled (command_of req).
Proof. unfold modelled. destruct req; simpl; auto. done. Qed.

(** The clerk never returns on a refusal. *)
Lemma refusal_value req r leader ck : refusal r → reply_value (fill_reply req r leader) ck = None.
Proof.
  unfold refusal. intros Hr. assert (or_Err r = "" ∨ or_Err r = ErrWrongLeader ∨ or_Err r = ErrTimeOut) as He by set_solver.
  destruct req; simpl; [|done|]; destruct He as [He|[He|He]]; by rewrite He.
Qed.

Lemma reply_value_clerk req r leader ck :
  tested req → reply_value (fill_reply req r leader) ck = clerk_value (command_of req) r leader ck.
Proof.
  intros Ht. unfold clerk_value. destruct req as [| |args]; simpl in *; [done..|].
  destruct Ht as [-> | ->]; done.
Qed.

(** ** The position of an operation *)

(** [r] is the answer of the log to [d]. *)
Record answers (G : list Op) (times : list nat) (d : ClerkOp) (r : Served) : Prop := {
  an_client : sv_client r = op_ClientId (co_command d);
  an_command : G !! sv_pos r = Some (co_command d);
  an_call : sv_call r = Z.of_nat (co_call d);
  an_return : sv_return r = Z.of_nat (co_return d);
  an_time : ∃ t, times !! sv_pos r = Some t ∧ t ≤ co_return d;
  an_operation : operation G r = co_operation d
}.

Lemma happened_answer evs G times d :
  timed evs G times → numbered evs → happened evs d → ∃ r, answers G times d r.
Proof.
  intros Htm [Htest Hsame] [Hc Hr Hv Hfst Hnext]. pose proof (Htest _ (list_elem_of_lookup_2 _ _ _ Hc)) as Ht.
  destruct (tm_return _ _ _ Htm _ _ _ Hr) as (rep & leader & Heq & [Href|(k & c & t & Hk & Ho & Htk & Hle & Hcmd)]).
  { rewrite Heq, refusal_value in Hv by done. by destruct Hv. }
  assert (c = co_command d) as ->.
  { destruct Hcmd as [->|[Hcl Hseq]]; [done|]. destruct (tm_call _ _ _ Htm k c t Hk Htk) as (e & req & He & Hreq & <-).
    pose proof (Hnext e req ltac:(lia) Hreq Hcl). apply (Hsame req (co_req d)); [by eapply list_elem_of_lookup_2..|].
    unfold req_id. rewrite Hcl. f_equal. unfold co_command in *. lia. }
  exists (mkServed (op_ClientId (co_command d)) k (Z.of_nat (co_call d)) (Z.of_nat (co_return d)) leader (co_clerk d)).
  split; simpl; try done; [by exists t|]. unfold operation, co_operation. simpl. rewrite Hk. simpl. rewrite Ho. simpl.
  by rewrite Heq, (reply_value_clerk _ _ _ _ Ht).
Qed.

(** The time of a position. *)
Definition at_time (evs : list KEvent) (times : list nat) (k : nat) : Z :=
  Z.of_nat (default (length evs) (times !! k)).

Lemma at_time_mono evs G times i j : timed evs G times → i ≤ j → (at_time evs times i ≤ at_time evs times j)%Z.
Proof.
  intros Htm Hij. unfold at_time. destruct (times !! i) as [s|] eqn:Hi, (times !! j) as [t|] eqn:Hj; simpl.
  - pose proof (tm_mono _ _ _ Htm i j s t Hij Hi Hj). lia.
  - pose proof (tm_past _ _ _ Htm i s Hi). lia.
  - apply lookup_lt_Some in Hj. apply lookup_ge_None in Hi. lia.
  - lia.
Qed.

(** An answer within the times of the log: called before every position of its
    request was reached, returned after the position it comes from. *)
Record fits (evs : list KEvent) (G : list Op) (times : list nat) (r : Served) : Prop := {
  ft_pos : ∃ c t, G !! sv_pos r = Some c ∧ times !! sv_pos r = Some t ∧ (Z.of_nat t ≤ sv_return r)%Z;
  ft_call e req : evs !! e = Some (Call req) → sv_id G r = Some (req_id (command_of req)) →
    (sv_call r ≤ Z.of_nat e)%Z
}.

Lemma answers_fit evs G times d r : happened evs d → answers G times d r → fits evs G times r.
Proof.
  intros Hd [Hcl Hc Hcall Hret (t & Ht & Hle) _]. split.
  - exists (co_command d), t. split_and!; [done..|lia].
  - intros e req He. unfold sv_id. rewrite Hc, Hcall. intros [= E1 E2].
    pose proof (hp_first _ _ Hd e req He ltac:(unfold req_id; congruence)). lia.
Qed.

Lemma served_by_log evs G times rs :
  timed evs G times → numbered evs → Forall (fits evs G times) rs → (∀ c, c ∈ G → called evs c) →
  session_ordered G → NoDup (sv_id G <$> rs) → (∀ c, c ∈ G → Some (req_id c) ∈ sv_id G <$> rs) →
  served_by G (at_time evs times) rs.
Proof.
  intros Htm [Htest Hsame] Hft Hcalled Hso Hnd Hall. rewrite list.Forall_forall in Hft. split; try done.
  - intros c d (req & Hr & <-)%Hcalled (req' & Hr' & <-)%Hcalled. by apply Hsame.
  - apply list.Forall_forall. intros c (req & Hr & <-)%Hcalled. by apply tested_modelled, Htest.
  - intros i j. by eapply at_time_mono.
  - intros r Hr. destruct (ft_pos _ _ _ _ (Hft r Hr)) as (c & t & Hc & Ht & Hle).
    split; [by eexists|]. unfold at_time. by rewrite Ht.
  - intros r i Hr Hid. destruct (ft_pos _ _ _ _ (Hft r Hr)) as (c & _ & Hc & _).
    unfold sv_id in Hid. rewrite Hc in Hid. destruct (G !! i) as [d|] eqn:Hi; [|done].
    destruct (lookup_lt_is_Some_2 times i) as [t Ht]; [rewrite (tm_len _ _ _ Htm); by eapply lookup_lt_Some|].
    destruct (tm_call _ _ _ Htm i d t Hi Ht) as (e & req & He & Hreq & <-).
    pose proof (ft_call _ _ _ _ (Hft r Hr) e req Hreq ltac:(unfold sv_id; by rewrite Hc)).
    unfold at_time. rewrite Ht. simpl. lia.
Qed.

(** ** Requests that have no answer yet *)

(** A request that is in the log and was not answered: it may have taken effect,
    and counts as an operation that lasts to the end of the execution. *)
Record PendingOp := mkPendingOp { po_req : Request; po_call : nat; po_value : string }.

Definition po_command (p : PendingOp) : Op := command_of (po_req p).

Definition po_operation (evs : list KEvent) (p : PendingOp) : Operation KvAny :=
  MkOperation (op_ClientId (po_command p)) (kv_input (po_command p)) (Z.of_nat (po_call p))
    (kv_out (po_value p)) (Z.of_nat (length evs)).

Record pending (evs : list KEvent) (G : list Op) (ds : list ClerkOp) (p : PendingOp) : Prop := {
  pd_call : evs !! po_call p = Some (Call (po_req p));
  pd_first e req : evs !! e = Some (Call req) → req_id (command_of req) = req_id (po_command p) → po_call p ≤ e;
  pd_logged : po_command p ∈ G;
  pd_unanswered : req_id (po_command p) ∉ req_id ∘ co_command <$> ds
}.

Lemma mapM_app_Some {A B} (f : A → option B) l l' k :
  mapM f (l ++ l') = Some k → ∃ k1 k2, mapM f l = Some k1 ∧ mapM f l' = Some k2 ∧ k = k1 ++ k2.
Proof.
  intros H%mapM_Some. apply Forall2_app_inv_l in H as (k1 & k2 & H1 & H2 & ->).
  exists k1, k2. by rewrite !mapM_Some.
Qed.

(** The first call of a request. *)
Lemma first_call evs c :
  called evs c → ∃ e req, evs !! e = Some (Call req) ∧ req_id (command_of req) = req_id c ∧
    ∀ e' req', evs !! e' = Some (Call req') → req_id (command_of req') = req_id c → e ≤ e'.
Proof.
  intros (req & Hin & <-). set (P ev := match ev with Call req' => req_id (command_of req') = req_id (command_of req) | _ => False end).
  assert (∀ ev, Decision (P ev)) as HP by (intros []; simpl; apply _).
  destruct (list_find_elem_of P evs (Call req) Hin eq_refl) as [[e ev] Hf].
  apply list_find_Some in Hf as (He & Hev & Hmin). destruct ev as [req1|]; [|done].
  exists e, req1. split_and!; [done..|]. intros e' req' He' Hid. destruct (decide (e ≤ e')); [done|].
  exfalso. apply (Hmin e' (Call req') He'); [lia|done].
Qed.

(** A position at which a request takes effect, as an answer. *)
Record stands (evs : list KEvent) (G : list Op) (times : list nat) (ds : list ClerkOp)
  (x : nat * Op * OpReply) (y : PendingOp * Served) : Prop := {
  sd_pending : pending evs G ds y.1;
  sd_command : po_command y.1 = x.1.2;
  sd_id : sv_id G y.2 = Some (req_id x.1.2);
  sd_fits : fits evs G times y.2;
  sd_operation : operation G y.2 = Some (po_operation evs y.1)
}.

Lemma fresh_stands evs G times ds x :
  timed evs G times → numbered evs → (∀ c, c ∈ G → called evs c) → session_ordered G →
  x ∈ fresh_pos ∅ G 0 ∅ → req_id x.1.2 ∉ req_id ∘ co_command <$> ds → ∃ y, stands evs G times ds x y.
Proof.
  intros Htm [Htest Hsame] Hcalled Hso Hx Hun. destruct x as [[i c] rep]. simpl in Hun.
  destruct (first_output G i c rep Hso Hx) as [Hc Ho]. destruct (fresh_pos_reply _ _ _ _ _ _ _ Hx) as [st Hrep].
  pose proof (list_elem_of_lookup_2 _ _ _ Hc) as Hin. pose proof (Hcalled c Hin) as Hcall.
  destruct (first_call evs c Hcall) as (e & req & He & Hid & Hfst). destruct Hcall as (req' & Hin' & Hr').
  assert (command_of req = c) as Hreq.
  { rewrite <- Hr'. apply Hsame; [by eapply list_elem_of_lookup_2|done|]. by rewrite Hr'. }
  assert (modelled c) as Hm by (rewrite <- Hreq; by eapply tested_modelled, Htest, list_elem_of_lookup_2).
  destruct (clerk_value_total c st 0 (MakeClerk [] 0) Hm) as [v Hv]. rewrite <- Hrep in Hv.
  destruct (lookup_lt_is_Some_2 times i) as [t Ht]; [rewrite (tm_len _ _ _ Htm); by eapply lookup_lt_Some|].
  exists (mkPendingOp req e v, mkServed (op_ClientId c) i (Z.of_nat e) (Z.of_nat (length evs)) 0 (MakeClerk [] 0)).
  split; unfold po_command; simpl; [split; unfold po_command; simpl; rewrite ?Hreq; done|done|unfold sv_id; simpl; by rewrite Hc| |].
  - split; simpl; [exists c, t; split_and!; [done..|apply (tm_past _ _ _ Htm) in Ht; lia]|].
    intros e' req1 He'. unfold sv_id. simpl. rewrite Hc. intros [= E1 E2].
    pose proof (Hfst e' req1 He' ltac:(unfold req_id; congruence)). lia.
  - unfold operation, po_operation, po_command. simpl. rewrite Hc. simpl. rewrite Ho. simpl. by rewrite Hv, Hreq.
Qed.

(** The log's answers are what the clerks record. *)
Lemma answers_operations G times ds rs :
  Forall2 (answers G times) ds rs → mapM co_operation ds = mapM (operation G) rs.
Proof.
  induction 1 as [|d r ds rs Ha _ IH]; [done|]. simpl. by rewrite (an_operation _ _ _ _ Ha), IH.
Qed.

Lemma answers_ids G times ds rs :
  Forall2 (answers G times) ds rs → sv_id G <$> rs = Some <$> (req_id ∘ co_command <$> ds).
Proof.
  induction 1 as [|d r ds rs Ha _ IH]; [done|]. rewrite !fmap_cons, IH. unfold sv_id. by rewrite (an_command _ _ _ _ Ha).
Qed.

Lemma stands_ids evs G times ds xs ys :
  Forall2 (stands evs G times ds) xs ys →
  sv_id G <$> ys.*2 = Some <$> ((λ x : nat * Op * OpReply, req_id x.1.2) <$> xs) ∧
  req_id ∘ po_command <$> ys.*1 = (λ x : nat * Op * OpReply, req_id x.1.2) <$> xs ∧
  mapM (operation G) ys.*2 = Some (po_operation evs <$> ys.*1).
Proof.
  induction 1 as [|x y xs ys Hy _ (IH1 & IH2 & IH3)]; [done|]. rewrite !fmap_cons. split_and!.
  - by rewrite IH1, (sd_id _ _ _ _ _ _ Hy).
  - rewrite IH2. unfold compose. by rewrite (sd_command _ _ _ _ _ _ Hy).
  - simpl. by rewrite (sd_operation _ _ _ _ _ _ Hy), IH3.
Qed.

(** The answered requests and the pending ones are those of the log. *)
Lemma served_with_pending evs G times ds rs ys :
  timed evs G times → numbered evs → (∀ c, c ∈ G → called evs c) → session_ordered G →
  Forall (happened evs) ds → NoDup (req_id ∘ co_command <$> ds) → Forall2 (answers G times) ds rs →
  Forall2 (stands evs G times ds)
    (filter (λ x, req_id x.1.2 ∉ req_id ∘ co_command <$> ds) (fresh_pos ∅ G 0 ∅)) ys →
  served_by G (at_time evs times) (rs ++ ys.*2).
Proof.
  intros Htm Hnb Hcalled Hso Hhp Hnd Han Hys. destruct (stands_ids _ _ _ _ _ _ Hys) as (Hid & _ & _).
  apply served_by_log; try done.
  - apply Forall_app. split; apply list.Forall_forall; intros r [k Hk]%list_elem_of_lookup.
    + destruct (Forall2_lookup_r _ _ _ _ _ Han Hk) as (d & Hd & Ha). rewrite Forall_lookup in Hhp.
      by eapply answers_fit; [eapply Hhp|].
    + rewrite list_lookup_fmap in Hk. apply fmap_Some in Hk as (y & Hy & ->).
      destruct (Forall2_lookup_r _ _ _ _ _ Hys Hy) as (x & _ & Hst). apply (sd_fits _ _ _ _ _ _ Hst).
  - rewrite fmap_app, (answers_ids _ _ _ _ Han), Hid, <- fmap_app. apply NoDup_fmap_2; [apply _|].
    apply NoDup_app. split_and!; [done| |].
    + intros id Hin (x & -> & [Hx _]%list_elem_of_filter)%list_elem_of_fmap. by apply Hx.
    + eapply sublist_NoDup; [apply (firsts_ids G)|]. apply fmap_sublist, sublist_filter.
  - intros c [k Hk]%list_elem_of_lookup. rewrite fmap_app, (answers_ids _ _ _ _ Han), Hid, <- fmap_app.
    apply list_elem_of_fmap_2, elem_of_app. destruct (decide (req_id c ∈ req_id ∘ co_command <$> ds)) as [?|Hn]; [by left|right].
    destruct (fresh_pos_cover G ∅ 0 ∅ k c Hk) as [?|(i & d & rep & Hin & _ & E)]; [set_solver|].
    rewrite <- E. apply (list_elem_of_fmap_2 (λ x : nat * Op * OpReply, req_id x.1.2) _ (i, d, rep)).
    apply list_elem_of_filter. split; [|done]. cbn [fst snd]. by rewrite E.
Qed.

(** C1. The cluster is linearizable, end to end.  Take an execution of the whole
    cluster (clients, servers, Raft peers, network, crashes and restarts; the
    peers' steps careful, no compaction) in which the clients send Get, Put and
    Append requests, number them, and wait for one before they number the next,
    and let [G] be its log [klog], the commands that the services have been
    given.  When [G] keeps the order of each client's requests, the operations
    [ds] that the clerks have recorded, any of those that ended, together with
    the logged requests that they do not account for (each once, called at its
    first call and lasting to the end of the execution), are a linearizable
    history of one key/value store. *)
Theorem cluster_linearizable n now acts kw ds :
  let G := klog acts (kinit n (-1) now) [] in
  (0 ≤ n)%Z → krun acts (kinit n (-1) now) = Some kw → kcareful acts (kinit n (-1) now) = true →
  numbered (kw_events kw) → Forall (happened (kw_events kw)) ds → NoDup (req_id ∘ co_command <$> ds) →
  session_ordered G →
  ∃ h ps, mapM co_operation ds = Some h ∧
    Forall (pending (kw_events kw) G ds) ps ∧ NoDup (req_id ∘ po_command <$> ps) ∧
    linearizable KvSpec (h ++ (po_operation (kw_events kw) <$> ps)).
Proof.
  intros G Hn H Hcf Hnb Hhp Hnd Hso.
  destruct (krun_timed n acts _ _ _ _ _ kw (kinit_inv n now Hn) init_timed Hcf H) as (Him & times & Htm).
  fold G in Him, Htm. pose proof (im_called _ _ Him) as Hcalled.
  destruct (list_choice (answers G times) ds) as [rs Han].
  { intros d Hd. rewrite list.Forall_forall in Hhp. eapply happened_answer; eauto. }
  destruct (list_choice (stands (kw_events kw) G times ds)
    (filter (λ x, req_id x.1.2 ∉ req_id ∘ co_command <$> ds) (fresh_pos ∅ G 0 ∅))) as [ys Hys].
  { intros x [Hx Hin]%list_elem_of_filter. by apply fresh_stands. }
  destruct (served_linearizable G (at_time (kw_events kw) times) (rs ++ ys.*2)) as (h & Hh & Hlin & _).
  { by eapply served_with_pending. }
  destruct (stands_ids _ _ _ _ _ _ Hys) as (_ & Hids & Hops).
  apply mapM_app_Some in Hh as (h1 & h2 & Hh1 & Hh2 & ->). rewrite Hops in Hh2. injection Hh2 as <-.
  exists h1, ys.*1. split_and!; [by rewrite (answers_operations G times ds rs)| | |done].
  - apply list.Forall_forall. intros p [k Hk]%list_elem_of_lookup. rewrite list_lookup_fmap in Hk.
    apply fmap_Some in Hk as (y & Hy & ->). destruct (Forall2_lookup_r _ _ _ _ _ Hys Hy) as (x & _ & Hst).
    apply (sd_pending _ _ _ _ _ _ Hst).
  - rewrite Hids. eapply sublist_NoDup; [apply (firsts_ids G)|]. apply fmap_sublist, sublist_filter.
Qed.
End history.

(** ** An execution

    A client puts a value and gets it back; another client's append has been
    given to the leader's service and is not answered yet. *)

Definition append_x : Request := RPutAppend (mkPutAppendArgs "x" "2" "Append" 1 8).

(** A request at server 0, handled by its handler [h]; the peers' goroutine [t]
    replicates its command and the next one gives it to the service. *)
Definition log_run (t h : nat) (req : Request) : list KAction :=
  [KRequest 0 req; KHandler 0 h false] ++ raft_goes t 4 ++ [KRaft (AApply 0)] ++ raft_goes (S t) 1.

Definition reply_run (h : nat) : list KAction :=
  [KTake 0; KApplier 0; KApplier 0] ++ replicate 3 (KHandler 0 h false).

Definition three_run : list KAction :=
  lead_run ++ log_run 1 0 put_x ++ reply_run 0 ++ log_run 2 1 get_x ++ reply_run 1 ++ log_run 3 2 append_x.

Definition three_w : KVWorld := kworld_of (krun three_run (kinit 3 (-1) 0)).

Definition test_clerk : Clerk := MakeClerk [0; 1; 2]%Z 7.
Definition put_op : ClerkOp := mkClerkOp put_x 0 1 (ReplyPutAppend (mkPutAppendReply OK 0)) test_clerk.
Definition get_op : ClerkOp := mkClerkOp get_x 2 3 (ReplyGet (mkGetReply OK "1" 0)) test_clerk.

Lemma three_events :
  kw_events three_w =
    [Call put_x; Return put_x (co_reply put_op); Call get_x; Return get_x (co_reply get_op); Call append_x].
Proof. vm_compute. reflexivity. Qed.

Lemma three_runs : krun three_run (kinit 3 (-1) 0) = Some three_w.
Proof.
  assert (bool_decide (is_Some (krun three_run (kinit 3 (-1) 0))) = true) as Hr by (vm_compute; reflexivity).
  apply bool_decide_eq_true in Hr as [kw Hr]. unfold three_w. by rewrite Hr.
Qed.

Lemma three_log : klog three_run (kinit 3 (-1) 0) [] = command_of <$> [put_x; get_x; append_x].
Proof. vm_compute. reflexivity. Qed.

Lemma three_calls e req :
  kw_events three_w !! e = Some (Call req) →
  (e = 0 ∧ req = put_x) ∨ (e = 2 ∧ req = get_x) ∨ (e = 4 ∧ req = append_x).
Proof.
  rewrite three_events. do 5 (destruct e as [|e]; [simpl; intros; simplify_eq; auto|]). done.
Qed.

Lemma three_numbered : numbered (kw_events three_w).
Proof.
  split.
  - intros req [e He]%list_elem_of_lookup. apply three_calls in He as [[_ ->]|[[_ ->]|[_ ->]]]; simpl; auto.
  - intros req req' [e He]%list_elem_of_lookup [e' He']%list_elem_of_lookup Hid.
    apply three_calls in He as [[_ ->]|[[_ ->]|[_ ->]]], He' as [[_ ->]|[[_ ->]|[_ ->]]]; done.
Qed.

Lemma three_happened : Forall (happened (kw_events three_w)) [put_op; get_op].
Proof.
  rewrite !list.Forall_cons. split_and!; [| |constructor].
  all: split; [by rewrite three_events..|by eexists| |].
  1,3: intros e req [[-> ->]|[[-> ->]|[-> ->]]]%three_calls; simpl in *; try done; lia.
  all: intros e req Hlt [[-> ->]|[[-> ->]|[-> ->]]]%three_calls; simpl in *; try done; lia.
Qed.

Lemma three_ordered : session_ordered (klog three_run (kinit 3 (-1) 0) []).
Proof. rewrite three_log. repeat constructor; unfold in_session; simpl; lia. Qed.

Lemma cluster_linearizable_witness :
  ∃ h ps, mapM co_operation [put_op; get_op] = Some h ∧
    Forall (pending (kw_events three_w) (klog three_run (kinit 3 (-1) 0) []) [put_op; get_op]) ps ∧
    NoDup (req_id ∘ po_command <$> ps) ∧ linearizable KvSpec (h ++ (po_operation (kw_events three_w) <$> ps)).
Proof.
  apply (cluster_linearizable 3 0 three_run three_w [put_op; get_op]).
  - lia.
  - apply three_runs.
  - vm_compute. reflexivity.
  - apply three_numbered.
  - apply three_happened.
  - apply (bool_decide_unpack (NoDup _)). vm_compute. exact I.
  - apply three_ordered.
Defined.
