(* ===== verification/PorcupineEvents.v ===== *)
(** * Histories of events (porcupine/checker.go, renumber and convertEntries)

    [renumber] gives the operations of an event history the numbers 0, 1, ...
    in the order of their first events.  The file shows that this is an
    injective renaming, so that the entries made from a well-formed history
    are well formed, and that the checker decides its linearizability. *)

From S2P Require Import Prelude PorcupineModel PorcupineList PorcupineSpec PorcupineProof PorcupineHistory.

(** [m] numbers its keys injectively with the numbers below [id]. *)
Record numbering (m : gmap Z Z) (id : Z) : Prop := {
  num_inj : ∀ i j a, m !! i = Some a → m !! j = Some a → i = j;
  num_range : ∀ a, (∃ i, m !! i = Some a) ↔ (0 ≤ a < id)%Z
}.

Definition with_id {V} (f : Z → Z) (e : Event V) : Event V :=
  MkEvent (ev_ClientId e) (ev_Kind e) (ev_Value e) (f (ev_Id e)).

Definition renaming (m : gmap Z Z) (i : Z) : Z := default 0%Z (m !! i).

Lemma numbering_add m id i :
  (0 ≤ id)%Z → m !! i = None → numbering m id → numbering (<[i := id]> m) (id + 1).
Proof.
  intros Hid Hi [Hinj Hr]. assert (∀ j, m !! j ≠ Some id) as Hno.
  { intros j Hj. assert (0 ≤ id < id)%Z; [apply Hr; eauto|lia]. }
  split.
  - intros j j' a. rewrite !lookup_insert_Some. naive_solver.
  - intros a. setoid_rewrite lookup_insert_Some. split.
    + intros (j & [[_ <-]|[_ Hj]]); [lia|]. assert (0 ≤ a < id)%Z; [apply Hr; eauto|lia].
    + intros Ha. destruct (decide (a = id)) as [->|Hne]; [eauto|].
      destruct (proj2 (Hr a)) as [j Hj]; [lia|]. exists j. right. split; [congruence|done].
Qed.

Lemma renumber_loop_ok {V} (es : list (Event V)) m id :
  (0 ≤ id)%Z → numbering m id →
  ∃ m' id', renumber_loop es m id = with_id (renaming m') <$> es ∧ m ⊆ m' ∧ numbering m' id' ∧ (0 ≤ id')%Z ∧
    ∀ i, is_Some (m' !! i) ↔ is_Some (m !! i) ∨ ∃ e, e ∈ es ∧ ev_Id e = i.
Proof.
  revert m id. induction es as [|e es IH]; intros m id Hid Hm.
  { exists m, id. split_and!; try done. intros i. split; [by left|]. intros [?|(? & ? & _)]; [done|set_solver]. }
  cbn [renumber_loop]. destruct (m !! ev_Id e) as [r|] eqn:Er.
  - destruct (IH m id Hid Hm) as (m' & id' & -> & Hsub & Hm' & Hid' & Hdom). exists m', id'. split_and!; try done.
    + cbn [fmap list_fmap]. f_equal. unfold with_id, renaming. f_equal.
      by rewrite (lookup_weaken _ _ _ _ Er Hsub).
    + intros i. rewrite Hdom. split; [set_solver|]. intros [?|(x & [->|Hx]%elem_of_cons & <-)]; [by left| |eauto].
      left. by eexists.
  - destruct (IH (<[ev_Id e := id]> m) (id + 1)%Z ltac:(lia) (numbering_add _ _ _ Hid Er Hm))
      as (m' & id' & -> & Hsub & Hm' & Hid' & Hdom). exists m', id'. split_and!; try done.
    + cbn [fmap list_fmap]. f_equal. unfold with_id, renaming. f_equal.
      by rewrite (lookup_weaken _ _ (ev_Id e) id (lookup_insert_eq _ _ _) Hsub).
    + etrans; [|done]. by apply insert_subseteq.
    + intros i. rewrite Hdom. destruct (decide (i = ev_Id e)) as [->|Hne].
      * rewrite lookup_insert_eq. split; intros _; [right; exists e; set_solver|left; by eexists].
      * rewrite lookup_insert_ne by done. set_solver.
Qed.

Section events.
Context {V : Type} (es : list (Event V)).

(** The entry made from the event at position [k], under a renaming. *)
Definition to_entry (f : Z → Z) (k : nat) (e : Event V) : entry V :=
  Entry (entry_kind (ev_Kind e)) (ev_Value e) (f (ev_Id e)) (Z.of_nat k) (ev_ClientId e).

Definition entries (f : Z → Z) : list (entry V) := imap (to_entry f) es.

Lemma convert_renumber :
  ∃ f (n : nat), convertEntries (renumber es) = entries f ∧
    (∀ x y, x ∈ es → y ∈ es → f (ev_Id x) = f (ev_Id y) → ev_Id x = ev_Id y) ∧
    (∀ a, (∃ e, e ∈ es ∧ f (ev_Id e) = a) ↔ (0 ≤ a < Z.of_nat n)%Z).
Proof.
  destruct (renumber_loop_ok es ∅ 0) as (m & id & E & _ & [Hinj Hr] & Hid & Hdom); [done|by split; set_solver by lia|].
  assert (∀ e, e ∈ es → m !! ev_Id e = Some (renaming m (ev_Id e))) as Hl.
  { intros e He. destruct (proj2 (Hdom (ev_Id e))) as [a Ha]; [right; eauto|]. unfold renaming. by rewrite Ha. }
  exists (renaming m), (Z.to_nat id). split_and!.
  - unfold convertEntries, renumber, entries. rewrite E, imap_fmap. done.
  - intros x y Hx Hy Hxy. eapply Hinj; [by apply Hl|]. rewrite Hxy. by apply Hl.
  - intros a. rewrite Z2Nat.id, <- Hr by done. split.
    + intros (e & He & <-). eauto.
    + intros (i & Hi). assert (is_Some (m !! i)) as Hs by by eexists.
      apply Hdom in Hs as [[? Hs]|(e & He & <-)]; [by rewrite lookup_empty in Hs|].
      exists e. split; [done|]. rewrite Hl in Hi by done. congruence.
Qed.

Lemma elem_of_event_entries f x : x ∈ entries f ↔ ∃ k e, es !! k = Some e ∧ x = to_entry f k e.
Proof.
  unfold entries. rewrite list_elem_of_lookup. setoid_rewrite list_lookup_imap_Some. naive_solver.
Qed.

Lemma event_pair f x y :
  [x; y] `sublist_of` entries f ↔
    ∃ i j a b, i < j ∧ es !! i = Some a ∧ es !! j = Some b ∧ x = to_entry f i a ∧ y = to_entry f j b.
Proof.
  rewrite sublist_pair. unfold entries. setoid_rewrite list_lookup_imap_Some. naive_solver.
Qed.

Context (f : Z → Z) (n : nat) (Hwf : wf_events es).
Context (Hinj : ∀ x y, x ∈ es → y ∈ es → f (ev_Id x) = f (ev_Id y) → ev_Id x = ev_Id y).
Context (Hrange : ∀ a, (∃ e, e ∈ es ∧ f (ev_Id e) = a) ↔ (0 ≤ a < Z.of_nat n)%Z).

Lemma event_pos i j a b : es !! i = Some a → es !! j = Some b →
  ev_Kind a = ev_Kind b → ev_Id a = ev_Id b → i = j.
Proof.
  intros Hi Hj Hk Hid. eapply NoDup_lookup; [apply (we_nodup _ Hwf)|..]; rewrite list_lookup_fmap.
  - by rewrite Hi.
  - rewrite Hj. simpl. congruence.
Qed.

Lemma entry_kind_inj k k' : entry_kind k = entry_kind k' → k = k'.
Proof. by destruct k, k'. Qed.

Lemma events_wf : wf_entries n (entries f).
Proof.
  assert (∀ k e, es !! k = Some e → e ∈ es) as Hin by (intros; by eapply list_elem_of_lookup_2). split.
  - apply NoDup_Permutation.
    + apply NoDup_alt. intros i j x Hi Hj. rewrite list_lookup_fmap, fmap_Some in Hi, Hj.
      destruct Hi as (u & (a & Ha & ->)%list_lookup_imap_Some & ->), Hj as (v & (b & Hb & ->)%list_lookup_imap_Some & Hk).
      injection Hk as Hk Hid. apply entry_kind_inj in Hk. eapply event_pos; [done..|]. symmetry. eauto.
    + apply list.NoDup_app. unfold keys_of. split_and!.
      * apply NoDup_fmap_2; [|apply NoDup_seqZ]. by intros ?? [= ->].
      * intros p [? _]%elem_of_keys_of [? _]%elem_of_keys_of. congruence.
      * apply NoDup_fmap_2; [|apply NoDup_seqZ]. by intros ?? [= ->].
    + intros [k a]. rewrite elem_of_app, !elem_of_keys_of, list_elem_of_fmap. setoid_rewrite elem_of_event_entries.
      simpl. rewrite <- Hrange. split.
      * intros (x & [= -> ->] & i & e & He & ->). assert (∃ e', e' ∈ es ∧ f (ev_Id e') = f (ev_Id e)) by eauto.
        simpl. destruct (ev_Kind e); auto.
      * intros Hk. assert (∃ e, e ∈ es ∧ f (ev_Id e) = a) as (e & He & <-) by tauto.
        destruct (we_pair _ Hwf e He) as (x & y & (i & j & _ & Hi & Hj)%sublist_pair & Kx & Ky & Ix & Iy).
        destruct k; [exists (to_entry f i x)|exists (to_entry f j y)];
          (split; [unfold key; simpl; by rewrite ?Kx, ?Ky, ?Ix, ?Iy|eauto]).
  - intros x y (i & a & Hi & ->)%elem_of_event_entries (j & b & Hj & ->)%elem_of_event_entries Kx Ky Hid.
    simpl in Kx, Ky, Hid. apply event_pair. exists i, j, a, b. split_and!; try done.
    destruct (we_pair _ Hwf a) as (u & v & (p & q & Hpq & Hp & Hq)%sublist_pair & Ku & Kv & Iu & Iv); [eauto|].
    assert (ev_Id a = ev_Id b) as Hab by eauto. destruct (ev_Kind a) eqn:Ea, (ev_Kind b) eqn:Eb; try done.
    rewrite (event_pos i p a u), (event_pos j q b v) by congruence. done.
Qed.

(** ** Linearizations under the renaming *)

Definition is_id (i : Z) : Prop := ∃ e, e ∈ es ∧ ev_Id e = i.

Lemma op_of_events i inp out : is_id i → op_of (entries f) (f i) inp out ↔ ev_op es i inp out.
Proof.
  intros (e & He & <-). split.
  - intros (x & y & (p & a & Hp & ->)%elem_of_event_entries & (q & b & Hq & ->)%elem_of_event_entries & Kx & Ky & <- & <-).
    injection Kx as Ka Ia. injection Ky as Kb Ib.
    apply list_elem_of_lookup_2 in Hp, Hq. exists a, b. split_and!; eauto.
    + by destruct (ev_Kind a).
    + by destruct (ev_Kind b).
  - intros (a & b & [p Hp]%list_elem_of_lookup & [q Hq]%list_elem_of_lookup & Ka & Kb & Ia & Ib & <- & <-).
    exists (to_entry f p a), (to_entry f q b). rewrite !elem_of_event_entries. unfold key. simpl.
    rewrite Ka, Kb, Ia, Ib. split_and!; eauto.
Qed.

Lemma precedes_events i j : is_id i → is_id j → precedes (entries f) (f j) (f i) ↔ ev_precedes es j i.
Proof.
  intros (e & He & <-) (e' & He' & <-). split.
  - intros (x & y & (p & q & a & b & Hpq & Hp & Hq & -> & ->)%event_pair & Kx & Ky).
    injection Kx as Ka Ia. injection Ky as Kb Ib. exists a, b. split; [apply sublist_pair; eauto 6|].
    apply list_elem_of_lookup_2 in Hp, Hq. split_and!; eauto; [by destruct (ev_Kind a)|by destruct (ev_Kind b)].
  - intros (a & b & (p & q & Hpq & Hp & Hq)%sublist_pair & Ka & Ia & Kb & Ib).
    exists (to_entry f p a), (to_entry f q b). rewrite event_pair. unfold key. simpl. rewrite Ka, Kb, Ia, Ib.
    split_and!; eauto 12.
Qed.

Context {St : Type} (model : Model V St).

Lemma entries_lin_events l :
  Forall is_id l → entries_lin model (entries f) (f <$> l) ↔ events_linearization model es l.
Proof.
  intros Hl. rewrite list.Forall_forall in Hl.
  assert (∀ i j, [i; j] `sublist_of` l → is_id i ∧ is_id j) as Hpair.
  { intros i j Hs. split; apply Hl; (eapply elem_of_sublist; [|done]; set_solver). }
  assert (∀ ios, Forall2 (λ i io, op_of (entries f) i io.1 io.2) (f <$> l) ios ↔
    Forall2 (λ i io, ev_op es i io.1 io.2) l ios) as Hios.
  { intros ios. rewrite Forall2_fmap_l, !Forall2_same_length_lookup. apply and_iff_compat_l.
    split; intros H i x io Hx Hio; specialize (H i x io Hx Hio); apply list_elem_of_lookup_2 in Hx;
      by apply op_of_events; [apply Hl|]. }
  assert (∀ i, is_id i → (f i ∈ f <$> l ↔ i ∈ l)) as Hmem.
  { intros i Hi. rewrite list_elem_of_fmap. split; [|eauto]. intros (j & Hij & Hj).
    destruct Hi as (e & He & <-), (Hl j Hj) as (e' & He' & <-). by rewrite (Hinj e e'). }
  split.
  - intros [Hnd Hall Ho (ios & Hi & Hleg)].
    split_and!; [by eapply NoDup_fmap_1| | |exists ios; split; [by apply Hios|done]].
    + intros i. split; [by apply Hl|]. intros Hid. apply Hmem; [done|]. apply Hall. destruct Hid as (e & He & <-).
      apply list_elem_of_lookup in He as [k Hk]. exists (to_entry f k e). split; [|done]. apply elem_of_event_entries. eauto.
    + intros i j Hs Hp. destruct (Hpair i j Hs). apply (Ho (f i) (f j)); [by apply (fmap_sublist f [i; j])|].
      by apply precedes_events.
  - intros (Hnd & Hall & Ho & ios & Hi & Hleg). split; [| | |exists ios; split; [by apply Hios|done]].
    + apply NoDup_fmap_2_strong; [|done]. intros i j Hi' Hj' Hij.
      destruct (Hl i Hi') as (e & He & <-), (Hl j Hj') as (e' & He' & <-). eauto.
    + intros a. rewrite list_elem_of_fmap. setoid_rewrite Hall. setoid_rewrite elem_of_event_entries. split.
      * intros (i & -> & e & [k Hk]%list_elem_of_lookup & <-). exists (to_entry f k e). split; [eauto|done].
      * intros (x & (k & e & Hk & ->) & <-). exists (ev_Id e). split; [done|]. apply list_elem_of_lookup_2 in Hk. eauto.
    + intros i j (x & y & Hxy & Hx & Hy)%sublist_pair Hp. rewrite list_lookup_fmap, fmap_Some in Hx, Hy.
      destruct Hx as (i' & Hx & ->), Hy as (j' & Hy & ->).
      assert ([i'; j'] `sublist_of` l) as Hs by (apply sublist_pair; eauto). destruct (Hpair _ _ Hs).
      apply (Ho i' j' Hs). by apply precedes_events.
Qed.

Lemma completes_events : completes model (entries f) ∅ (Init model) ↔ events_linearizable model es.
Proof.
  rewrite (completes_iff _ _ _ events_wf). split.
  - intros [l Hl]. assert (∃ l', l = f <$> l' ∧ Forall is_id l') as (l' & -> & Hids).
    { pose proof (λ i, proj1 (el_all _ _ _ Hl i)) as Hall. clear Hl. induction l as [|i l IH]; [by exists []|].
      destruct IH as (l' & -> & ?); [set_solver|].
      destruct (Hall i) as (x & (k & e & Hk%list_elem_of_lookup_2 & ->)%elem_of_event_entries & <-); [set_solver|].
      exists (ev_Id e :: l'). split; [done|]. constructor; [by exists e|done]. }
    exists l'. by apply entries_lin_events.
  - intros [l Hl]. exists (f <$> l). apply entries_lin_events; [|done].
    apply list.Forall_forall. intros i Hi. by apply (proj1 (proj2 Hl)).
Qed.
End events.
