(* ===== verification/PorcupineCorrect.v ===== *)
(** * What the linearizability checker guarantees

    The properties of the search, of the entry points and of the linked list
    for any model, with concrete instances, and two executions in which the
    entry points do not do what they are meant to. *)

From S2P Require Import Prelude Bitset PorcupineModel PorcupineList PorcupineSpec PorcupineSearch PorcupineProof PorcupineHistory PorcupineEvents PorcupineCheck KvModel.

(** ** The search *)

(** C15. checkSingle decides linearizability.  For the entries of any history
    whose calls do not come after their returns, any model whose Step does not
    panic on it and whose Equal only identifies states that behave alike, and
    a search that is not stopped, the loop ends after finitely many iterations
    without a panic, and its answer is true exactly when the history is
    linearizable. *)
Theorem checkSingle_decides {V St : Type} `{!Interface V} (model : Model V St) eqf sort ops computePartial :
  sorts sort → history_ok model ops → Equal model = Some eqf → equal_ok model eqf →
  ∃ fuel ok longest seqs,
    (∀ fuel', fuel ≤ fuel' →
       checkSingle model fuel' (makeEntries sort ops) computePartial (λ _, 0%Z) = Some (inr (ok, longest, seqs))) ∧
    (ok = true ↔ linearizable model ops).
Proof.
  intros Hsort [Ht Hs] Heq Hsim.
  destruct (checkSingle_spec model eqf (length ops) (makeEntries sort ops) (makeEntries_wf sort Hsort ops Ht)
    Heq Hsim) with (cp := computePartial) as (fuel & [[ok lg] sq] & Ha & Hf).
  { intros s i inp out Hop. apply (op_of_entries sort Hsort ops Ht) in Hop as (o & k & _ & Ho & -> & ->).
    apply Hs, (list_elem_of_fmap_2 io_of). by eapply list_elem_of_lookup_2. }
  exists fuel, ok, lg, sq. split; [done|].
  rewrite <- (completes_linearizable sort Hsort ops Ht model). by apply (answer_iff model _ _ _ Ha).
Qed.

(** ** The verbose entry point *)

(** CheckOperationsVerbose without a timeout returns Ok or Illegal,
    rightly, and every partial linearization it reports for a partition is a
    prefix of a linearization: distinct operations, in an order that respects
    real time and that the model can run, together with everything that had
    returned before; and it is a whole linearization when the partition has one. *)
Theorem CheckOperationsVerbose_correct {V St : Type} `{!Interface V} `{!EqDecision St} (model : Model V St)
    sort order history parts todo kills :
  sorts sort → (∀ l, order l ≡ₚ l) → partitions_of model history = Some parts → parts ≠ [] →
  Forall (history_ok model) parts → equal_ok model (default ShallowEqual (Equal model)) →
  todo ≡ₚ seq 0 (length parts) →
  ∃ fuel, ∀ fuel', fuel ≤ fuel' → ∃ res info,
    CheckOperationsVerbose fuel' sort order model history 0 (Answer <$> todo) kills = Done (res, info) ∧
    res ≠ Unknown ∧ (res = Ok ↔ Forall (linearizable model) parts) ∧
    Forall2 (λ ops ps, Forall (λ sq, partial_linearization model ops (Z.to_nat <$> sq) ∧
        (linearizable model ops → linearization model ops (Z.to_nat <$> sq))) ps)
      parts (li_partialLinearizations info).
Proof.
  intros Hsort Horder Hparts Hne Hok Heq Htodo.
  destruct (checkOperations_ok sort Hsort order Horder model history parts true todo kills) as [fuel Hf]; try done.
  exists fuel. intros fuel' Hle. destruct (Hf fuel' Hle) as (res & info & E & Hres & Hinfo).
  exists res, info. split; [done|]. destruct (Hinfo eq_refl) as [_ Hps].
  split; [|split]; [by destruct Hres as [[-> ?]|[-> ?]]..|].
  eapply list.Forall2_impl; [exact Hps|]. intros ops ps Hall.
  apply (list.Forall_impl _ _ _ Hall). by intros sq [_ ?].
Qed.

(** ** With a timeout *)

(** Whatever arrives, in whatever order, with the timer at any moment and
    goroutines still running: an answer Ok means that every partition is
    linearizable, an answer Illegal that some partition is not, and Unknown is
    given only after the timer of a positive timeout. *)
Theorem CheckOperationsTimeout_sound {V St : Type} `{!Interface V} `{!EqDecision St} (model : Model V St)
    sort order history parts timeout fuel arrivals kills res :
  sorts sort → partitions_of model history = Some parts →
  Forall (history_ok model) parts → equal_ok model (default ShallowEqual (Equal model)) →
  CheckOperationsTimeout fuel sort order model history timeout arrivals kills = Done res →
  match res with
  | Ok => Forall (linearizable model) parts
  | Illegal => ¬ Forall (linearizable model) parts
  | Unknown => (0 < timeout)%Z ∧ Timer ∈ arrivals
  end.
Proof.
  intros Hsort Hparts Hok Heq E. unfold CheckOperationsTimeout, checkOperations in E. simpl in E.
  unfold partitions_of in Hparts. rewrite Hparts in E. simpl in E. unfold checkParallel in E.
  destruct (select_loop _ _ _ _ _ _ _ _ _) as [[[ok t] received]| |] eqn:El; simpl in E; try done.
  assert (Forall (λ H, completes (fillDefault model) H ∅ (Init model)) (makeEntries sort <$> parts) ↔
    Forall (linearizable model) parts) as Hiff.
  { rewrite Forall_fmap, !list.Forall_forall. rewrite list.Forall_forall in Hok.
    apply forall_proper. intros ops. apply forall_proper. intros Hin. destruct (Hok ops Hin) as [Ht _].
    apply (completes_linearizable sort Hsort ops Ht (fillDefault model)). }
  assert (Forall (λ H, ∃ n, part_ok (fillDefault model) n H) (makeEntries sort <$> parts)) as Hp.
  { apply Forall_fmap, (list.Forall_impl _ _ _ Hok). intros ops H. eexists. by apply history_part_ok. }
  edestruct (select_loop_sound (fillDefault model) _ eq_refl Heq) as (H1 & H2 & H3);
    [exact Hp| | | | | |exact El|]; [by intros i ?%elem_of_nil|apply NoDup_nil_2|done|by intros _ i ?%elem_of_nil|done|].
  cbn [Init fillDefault] in H1, H2. rewrite Hiff in H1, H2. injection E as <-. destruct ok, t; simpl; auto.
Qed.

(** ** Histories of events *)

Definition events_ok {V St} (model : Model V St) (es : list (Event V)) : Prop :=
  wf_events es ∧ ∀ s i inp out, ev_op es i inp out → is_Some (Step model s inp out).

(** What the checker decides about the renumbered entries of a history. *)
Lemma events_decided {V St} (model : Model V St) es :
  events_ok model es →
  (∃ n, part_ok model n (convertEntries (renumber es))) ∧
  (completes model (convertEntries (renumber es)) ∅ (Init model) ↔ events_linearizable model es).
Proof.
  intros [Hwf Htot]. destruct (convert_renumber es) as (f & n & -> & Hinj & Hr). split.
  - exists n. split; [by apply events_wf|]. intros s i inp out Hop.
    assert (∃ i', is_id es i' ∧ f i' = i) as (i' & Hi' & <-).
    { destruct Hop as (x & _ & (k & e & Hk%list_elem_of_lookup_2 & ->)%elem_of_event_entries & _ & Hx & _).
      injection Hx as _ <-. exists (ev_Id e). split; [by exists e|done]. }
    apply op_of_events in Hop; eauto.
  - by apply (completes_events es f n Hwf Hinj Hr).
Qed.

(** C29. CheckEvents decides linearizability of event histories: when each
    identifier of a partition has one call and one later return, whatever the
    identifiers are and in whatever order the goroutines answer, it returns,
    and it returns true exactly when every partition has an order of its
    operations that respects real time and that the model can run. *)
Theorem CheckEvents_correct {V St : Type} `{!Interface V} `{!EqDecision St} (model : Model V St)
    order history parts todo kills :
  (∀ l, order l ≡ₚ l) → default (λ h, Some (NoPartitionEvent h)) (PartitionEvent model) history = Some parts →
  parts ≠ [] → Forall (events_ok model) parts → equal_ok model (default ShallowEqual (Equal model)) →
  todo ≡ₚ seq 0 (length parts) →
  ∃ b fuel, (∀ fuel', fuel ≤ fuel' → CheckEvents fuel' order model history (Answer <$> todo) kills = Done b) ∧
    (b = true ↔ Forall (events_linearizable model) parts).
Proof.
  intros Horder Hparts Hne Hok Heq Htodo. rewrite list.Forall_forall in Hok.
  destruct (checkParallel_ok (fillDefault model) (default ShallowEqual (Equal model)) eq_refl Heq
    ((λ s, convertEntries (renumber s)) <$> parts) false order kills todo) as [fuel Hf].
  { apply Forall_fmap, list.Forall_forall. intros es Hes. apply (events_decided (fillDefault model)). by apply Hok. }
  { by destruct parts. }
  { done. }
  { by rewrite length_fmap. }
  assert (Forall (λ H, completes (fillDefault model) H ∅ (Init model)) ((λ s, convertEntries (renumber s)) <$> parts) ↔
    Forall (events_linearizable model) parts) as Hiff.
  { rewrite Forall_fmap, !list.Forall_forall. apply forall_proper. intros es. apply forall_proper. intros Hes.
    exact (proj2 (events_decided (fillDefault model) es (Hok es Hes))). }
  destruct (Hf fuel ltac:(done)) as (res & _ & _ & Hres & _). cbn [Init fillDefault] in Hf, Hres. rewrite Hiff in Hres.
  exists (bool_decide (res = Ok)), fuel. split.
  - intros fuel' Hle. destruct (Hf fuel' Hle) as (res' & info & E & Hres' & _). rewrite Hiff in Hres'.
    assert (res' = res) as -> by (destruct Hres as [[-> ?]|[-> ?]], Hres' as [[-> ?]|[-> ?]]; done).
    unfold CheckEvents, checkEvents. cbn [PartitionEvent fillDefault]. cbn [mbind option_bind]. rewrite Hparts.
    cbn [or_panic outcome_bind]. by rewrite E.
  - rewrite bool_decide_eq_true. destruct Hres as [[-> ?]|[-> ?]]; done.
Qed.

(** ** The linked list *)

(** lift takes a call and its return out of the list of entries, and
    unlift of the same call puts both back exactly, whatever lies between them. *)
Theorem lift_unlift_roundtrip {V : Type} (h : heap V) before e between m after v i :
  before ≠ [] → NoDup (before ++ e :: between ++ m :: after) →
  dls h None (before ++ e :: between ++ m :: after) None → contents h e = Some (v, Some m, i) →
  ∃ h', lift h (Some e) = Some h' ∧ dls h' None (before ++ between ++ after) None ∧
    same_contents h h' ∧ unlift h' (Some e) = Some h.
Proof.
  intros Hne. destruct (exists_last Hne) as (A & b & ->). intros Hnd Hl Hc.
  destruct (lift_unlift h A b e between m after v i Hnd Hl Hc) as (h' & ? & ? & ? & ? & _). by exists h'.
Qed.

(** ** Instances *)

Lemma demo_part_ok seen : history_ok KvModel (demo_history seen).
Proof. split; [apply demo_times|]. apply KvModel_total, demo_typed. Qed.

(** The model without its partition. *)
Definition KvOneKey : Model KvAny string := MkModel None None EmptyString KvModel_Step (Some ShallowEqual).

Lemma checkSingle_decides_witness :
  ∃ fuel ok longest seqs,
    (∀ fuel', fuel ≤ fuel' →
       checkSingle KvOneKey fuel' (makeEntries byTime_sort (demo_history "ab")) true (λ _, 0%Z) =
         Some (inr (ok, longest, seqs))) ∧
    (ok = true ↔ linearizable KvOneKey (demo_history "ab")).
Proof.
  apply (checkSingle_decides KvOneKey ShallowEqual byTime_sort (demo_history "ab") true).
  - apply byTime_sort_ok.
  - apply demo_part_ok.
  - reflexivity.
  - apply ShallowEqual_ok.
Defined.

Lemma demo_partition seen :
  ∃ p1 p2, KvModel_Partition (demo_history seen) = Some [p1; p2] ∧ Forall (history_ok KvModel) [p1; p2].
Proof.
  eexists _, _. split; [reflexivity|].
  repeat constructor; simpl; try lia; apply KvModel_total; repeat constructor; by eexists.
Qed.

Lemma CheckOperationsVerbose_correct_witness :
  ∃ parts fuel, ∀ fuel', fuel ≤ fuel' → ∃ res info,
    CheckOperationsVerbose fuel' byTime_sort id KvModel (demo_history "b") 0 (Answer <$> [0; 1]) (λ _ _, 0%Z) =
      Done (res, info) ∧
    res ≠ Unknown ∧ (res = Ok ↔ Forall (linearizable KvModel) parts) ∧
    Forall2 (λ ops ps, Forall (λ sq, partial_linearization KvModel ops (Z.to_nat <$> sq) ∧
        (linearizable KvModel ops → linearization KvModel ops (Z.to_nat <$> sq))) ps)
      parts (li_partialLinearizations info).
Proof.
  destruct (demo_partition "b") as (p1 & p2 & E & Hok). exists [p1; p2].
  apply (CheckOperationsVerbose_correct KvModel byTime_sort id (demo_history "b") [p1; p2] [0; 1]).
  - apply byTime_sort_ok.
  - reflexivity.
  - exact E.
  - discriminate.
  - exact Hok.
  - apply ShallowEqual_ok.
  - reflexivity.
Defined.

Lemma CheckOperationsTimeout_sound_witness :
  ∃ parts, KvModel_Partition (demo_history "b") = Some parts ∧ ¬ Forall (linearizable KvModel) parts.
Proof.
  destruct (demo_partition "b") as (p1 & p2 & E & Hok). exists [p1; p2]. split; [exact E|].
  apply (CheckOperationsTimeout_sound KvModel byTime_sort id (demo_history "b") [p1; p2] 5 100
    [Answer 1; Answer 0; Timer] (λ _ _, 0%Z) Illegal).
  - apply byTime_sort_ok.
  - exact E.
  - exact Hok.
  - apply ShallowEqual_ok.
  - vm_compute. reflexivity.
Defined.

(** A put to one key, then a get of another, as events with arbitrary identifiers. *)
Definition two_keys : list (Event KvAny) :=
  [MkEvent 0 CallEvent (kv_in 1 "x" "a") 7; MkEvent 0 ReturnEvent (kv_out "") 7;
   MkEvent 1 CallEvent (kv_in 0 "y" "") 3; MkEvent 1 ReturnEvent (kv_out "") 3].

Lemma two_keys_ok : events_ok KvModel two_keys.
Proof.
  split; [split|].
  - apply (bool_decide_unpack _). vm_compute. exact I.
  - unfold two_keys. intros e He. rewrite !elem_of_cons, elem_of_nil in He.
    assert (ev_Id e = 7%Z ∨ ev_Id e = 3%Z) as [->| ->] by (destruct_or! He; subst; auto; done).
    + eexists _, _. split; [apply sublist_pair; exists 0, 1; split_and!; [lia|reflexivity..]|done].
    + eexists _, _. split; [apply sublist_pair; exists 2, 3; split_and!; [lia|reflexivity..]|done].
  - intros s i inp out (x & y & Hx & Hy & Kx & Ky & _ & _ & <- & <-). unfold two_keys in *.
    rewrite !elem_of_cons, elem_of_nil in Hx, Hy. destruct_or! Hx; destruct_or! Hy; subst; try done; by eexists.
Qed.

Lemma CheckEvents_correct_witness :
  ∃ b fuel, (∀ fuel', fuel ≤ fuel' →
      CheckEvents fuel' id KvModel two_keys (Answer <$> [0]) (λ _ _, 0%Z) = Done b) ∧
    (b = true ↔ Forall (events_linearizable KvModel) [two_keys]).
Proof.
  apply (CheckEvents_correct KvModel id two_keys [two_keys] [0]).
  - reflexivity.
  - reflexivity.
  - discriminate.
  - constructor; [apply two_keys_ok|constructor].
  - apply ShallowEqual_ok.
  - reflexivity.
Defined.

(** Head, two calls, their returns in the same order, as makeLinkedEntries builds them. *)
Lemma lift_unlift_roundtrip_witness :
  ∃ h h' : heap nat, lift h (Some 3) = Some h' ∧ dls h' None [4; 2; 0] None ∧ same_contents h h' ∧
    unlift h' (Some 3) = Some h.
Proof.
  exists [Node 0 None 1 None (Some 1); Node 0 None 0 (Some 0) (Some 2); Node 0 (Some 0) 1 (Some 1) (Some 3);
          Node 0 (Some 1) 0 (Some 2) (Some 4); Node 0 None (-1) (Some 3) None].
  apply (lift_unlift_roundtrip _ [4] 3 [2] 1 [0] 0 0).
  - discriminate.
  - apply (bool_decide_unpack _). vm_compute. exact I.
  - simpl. repeat (eexists; split_and!; [reflexivity..|]). exact I.
  - reflexivity.
Defined.

(** ** Executions that go wrong *)

(** A check of an empty history never returns: KvModel makes no partition
    of it, and checkParallel looks at the number of answers only after it has
    received one. *)
Theorem empty_history_blocks fuel sort order arrivals kills :
  CheckOperations fuel sort order KvModel [] arrivals kills = Waiting ∧
  CheckOperationsVerbose fuel sort order KvModel [] 0 arrivals kills = Waiting.
Proof. by destruct arrivals as [|[i|] arrivals]. Qed.

(** KvModel has no PartitionEvent, so CheckEvents runs the state of a
    single key over the operations of all keys: it rejects a history in which
    one client puts to "x" and then another reads the unset "y", although the
    history is linearizable for the store. *)
Theorem CheckEvents_mixes_keys :
  CheckEvents 100 id KvModel two_keys [Answer 0] (λ _ _, 0%Z) = Done false ∧
  events_linearizable KvSpec two_keys.
Proof.
  split; [vm_compute; reflexivity|]. exists [7; 3]%Z. unfold events_linearization. split_and!.
  - apply (bool_decide_unpack _). vm_compute. exact I.
  - intros i. rewrite !elem_of_cons, elem_of_nil. split.
    + intros [->|[->|[]]]; [exists (MkEvent 0 CallEvent (kv_in 1 "x" "a") 7)|exists (MkEvent 1 CallEvent (kv_in 0 "y" "") 3)];
        (split; [|done]); apply list_elem_of_lookup; [by exists 0|by exists 2].
    + intros (e & He & <-). unfold two_keys in He. rewrite !elem_of_cons, elem_of_nil in He.
      destruct_or! He; subst; auto; done.
  - intros i j Hs. assert (i = 7%Z ∧ j = 3%Z) as [-> ->].
    { apply sublist_pair in Hs as (a & b & Hab & Ha & Hb). destruct a as [|[|a]], b as [|[|b]]; simplify_eq/=; done || lia. }
    intros (x & y & (a & b & Hab & Ha & Hb)%sublist_pair & Kx & Ix & Ky & Iy).
    destruct a as [|[|[|[|a]]]]; simplify_eq/=; destruct b as [|[|[|[|b]]]]; simplify_eq/=; lia.
  - exists [(kv_in 1 "x" "a", kv_out ""); (kv_in 0 "y" "", kv_out "")]. split; [|by eexists].
    repeat constructor.
    + exists (MkEvent 0 CallEvent (kv_in 1 "x" "a") 7), (MkEvent 0 ReturnEvent (kv_out "") 7).
      split_and!; try done; apply list_elem_of_lookup; [by exists 0|by exists 1].
    + exists (MkEvent 1 CallEvent (kv_in 0 "y" "") 3), (MkEvent 1 ReturnEvent (kv_out "") 3).
      split_and!; try done; apply list_elem_of_lookup; [by exists 2|by exists 3].
Qed.
