(* ===== verification/Visualization.v ===== *)
(** * The data of the visualization (porcupine/visualization.go)

    [computeVisualizationData] runs the model once more over every reported
    partial linearization and panics if the model refuses one; maps give nil
    for operations they do not hold.  The two describing functions of the model
    (of which the first asserts dynamic types, so it can panic) and [sort.Slice]
    are arguments.  [sort.Slice] works in place, so the reported partial
    linearizations of the caller are reordered; they are part of the result.
    [visualization_correct]: on the information that CheckOperationsVerbose
    gives, with any timeout and with searches that its timer stopped, there is
    no panic, and the data describe the history. *)

From stdpp Require Import sorting strings pretty.
From S2P Require Import Prelude PorcupineModel PorcupineList PorcupineSpec PorcupineSearch PorcupineProof PorcupineHistory PorcupineCheck KvModel PorcupineCorrect.

Record historyElement := HistoryElement {
  he_ClientId : Z;
  he_Start : Z;
  he_End : Z;
  he_Description : string
}.

Record linearizationStep := LinearizationStep { ls_Index : Z; ls_StateDescription : string }.

Record partitionVisualizationData := PartitionVisualizationData {
  pv_History : list historyElement;
  pv_PartialLinearizations : list (list linearizationStep);
  pv_Largest : gmap Z Z
}.

(** [make([]historyElement, n)] *)
Definition empty_element : historyElement := HistoryElement 0 0 0 EmptyString.

Section visualization.
Context {V St : Type} `{!Interface V}.
Context (DescribeOperation : V → V → option string) (DescribeState : St → string).
Context (sortSlice : list (list Z) → list (list Z)).

(** A map of values, read at a key. *)
Definition value_at (m : gmap Z V) (i : Z) : V := default nil_value (m !! i).

Fixpoint history_loop (es : list (entry V)) (history : list historyElement) (callValue returnValue : gmap Z V) :
    option (list historyElement * gmap Z V * gmap Z V) :=
  match es with
  | [] => Some (history, callValue, returnValue)
  | elem :: es =>
      h ← go_nth history (e_id elem);
      match e_kind elem with
      | callEntry =>
          history' ← go_set history (e_id elem)
            (HistoryElement (e_clientId elem) (e_time elem) (he_End h) (he_Description h));
          history_loop es history' (<[e_id elem := e_value elem]> callValue) returnValue
      | returnEntry =>
          desc ← DescribeOperation (value_at callValue (e_id elem)) (e_value elem);
          history' ← go_set history (e_id elem) (HistoryElement (he_ClientId h) (he_Start h) (e_time elem) desc);
          history_loop es history' callValue (<[e_id elem := e_value elem]> returnValue)
      end
  end.

(** The steps of one partial linearization: partial number [i], of length [size]. *)
Fixpoint steps_loop (model : Model V St) (callValue returnValue : gmap Z V) (i size : Z) (l : list Z) (state : St)
    (largestSize largestIndex : gmap Z Z) : option (list linearizationStep * gmap Z Z * gmap Z Z) :=
  match l with
  | [] => Some ([], largestSize, largestIndex)
  | histId :: l =>
      '(ok, state) ← Step model state (value_at callValue histId) (value_at returnValue histId);
      if negb ok then None
      else
        let step := LinearizationStep histId (DescribeState state) in
        let '(largestSize, largestIndex) :=
          if (default 0 (largestSize !! histId) <? size)%Z
          then (<[histId := size]> largestSize, <[histId := i]> largestIndex)
          else (largestSize, largestIndex) in
        '(steps, largestSize, largestIndex) ←
          steps_loop model callValue returnValue i size l state largestSize largestIndex;
        Some (step :: steps, largestSize, largestIndex)
  end.

Fixpoint partials_loop (model : Model V St) (callValue returnValue : gmap Z V) (i : Z) (ps : list (list Z))
    (largestSize largestIndex : gmap Z Z) : option (list (list linearizationStep) * gmap Z Z) :=
  match ps with
  | [] => Some ([], largestIndex)
  | p :: ps =>
      '(steps, largestSize, largestIndex) ←
        steps_loop model callValue returnValue i (zlen p) p (Init model) largestSize largestIndex;
      '(linearizations, largestIndex) ←
        partials_loop model callValue returnValue (i + 1)%Z ps largestSize largestIndex;
      Some (steps :: linearizations, largestIndex)
  end.

Definition partition_data (model : Model V St) (es : list (entry V)) (ps : list (list Z)) :
    option (partitionVisualizationData * list (list Z)) :=
  let n := Nat.div2 (length es) in
  '(history, callValue, returnValue) ← history_loop es (replicate n empty_element) ∅ ∅;
  let ps := sortSlice ps in
  '(linearizations, largestIndex) ← partials_loop model callValue returnValue 0 ps ∅ ∅;
  Some (PartitionVisualizationData history linearizations largestIndex, ps).

Definition computeVisualizationData `{EqDecision St} (model : Model V St) (info : linearizationInfo V) :
    option (list partitionVisualizationData * linearizationInfo V) :=
  let model := fillDefault model in
  ds ← mapM (λ ip : nat * list (entry V),
         ps ← li_partialLinearizations info !! ip.1; partition_data model ip.2 ps)
       (imap pair (li_history info));
  Some (ds.*1, LinearizationInfo (li_history info) (ds.*2)).

(** [marshal] is json.Marshal on the data; [html] is the text of the template
    before and after its only verb; [write] is the writer's Write.  The second
    component of the result is the error. *)
Definition Visualize `{EqDecision St} {W} (marshal : list partitionVisualizationData → option string) (html : string * string)
    (write : string → W → W * option string) (model : Model V St) (info : linearizationInfo V) (output : W) :
    option (W * option string) :=
  '(data, _) ← computeVisualizationData model info;
  Some (match marshal data with
        | None => (output, Some "json")
        | Some jsonData => write (html.1 +:+ jsonData +:+ html.2) output
        end).

(** Writing to the file of a path: all of the text, or a part of it and an error. *)
Definition write_file (path : string) (short : option nat) (text : string) (fs : gmap string string) :
    gmap string string * option string :=
  let old := default EmptyString (fs !! path) in
  match short with
  | None => (<[path := old +:+ text]> fs, None)
  | Some k => (<[path := old +:+ String.substring 0 k text]> fs, Some "write")
  end.

(** [os.Create] gives an empty file, if it can. *)
Definition VisualizePath `{EqDecision St} (marshal : list partitionVisualizationData → option string) (html : string * string)
    (create_ok : bool) (short : option nat) (model : Model V St) (info : linearizationInfo V) (path : string)
    (fs : gmap string string) : option (gmap string string * option string) :=
  if negb create_ok then Some (fs, Some "create")
  else Visualize marshal html (write_file path short) model info (<[path := EmptyString]> fs).
End visualization.

(** ** Specification *)

(** The states of the model after each of the operations. *)
Fixpoint states_after {V St} (model : Model V St) (s : St) (ios : list (V * V)) : list St :=
  match ios with
  | [] => []
  | (inp, out) :: ios =>
      match Step model s inp out with Some (_, s') => s' :: states_after model s' ios | None => [] end
  end.

Section spec.
Context {V St : Type} `{!Interface V}.
Context (DescribeOperation : V → V → option string) (DescribeState : St → string).

(** The steps shown for one partial linearization. *)
Definition steps_ok (model : Model V St) (ops : list (Operation V)) (p : list Z) (steps : list linearizationStep) : Prop :=
  ls_Index <$> steps = p ∧
  ∃ done, mapM (λ i, ops !! Z.to_nat i) p = Some done ∧
    ls_StateDescription <$> steps = DescribeState <$> states_after model (Init model) (io_of <$> done).

(** The largest partial linearization of each operation. *)
Definition largest_ok (ps : list (list Z)) (largest : gmap Z Z) : Prop :=
  ∀ id, match largest !! id with
        | Some i => ∃ p, go_nth ps i = Some p ∧ id ∈ p ∧ ∀ q, q ∈ ps → id ∈ q → (zlen q ≤ zlen p)%Z
        | None => ∀ q, q ∈ ps → id ∉ q
        end.

Record data_ok (model : Model V St) (ops : list (Operation V)) (ps : list (list Z)) (d : partitionVisualizationData) : Prop := {
  do_history : Forall2 (λ o h, he_ClientId h = op_ClientId o ∧ he_Start h = op_Call o ∧ he_End h = op_Return o ∧
    DescribeOperation (op_Input o) (op_Output o) = Some (he_Description h)) ops (pv_History d);
  do_steps : Forall2 (steps_ok model ops) ps (pv_PartialLinearizations d);
  do_largest : largest_ok ps (pv_Largest d)
}.
End spec.

Lemma states_after_ext {V St} (m1 m2 : Model V St) s ios :
  Step m1 = Step m2 → states_after m1 s ios = states_after m2 s ios.
Proof.
  intros E. revert s. induction ios as [|[inp out] ios IH]; intros s; simpl; [done|]. rewrite E.
  destruct (Step m2 s inp out) as [[? ?]|]; [by rewrite IH|done].
Qed.

(** ** The history of a partition *)

Section history.
Context {V : Type} `{!Interface V} (DescribeOperation : V → V → option string).
Context (n : nat) (H : list (entry V)) (Hwf : wf_entries n H).
Context (Hdesc : ∀ i inp out, op_of H i inp out → is_Some (DescribeOperation inp out)).

(** What the entries in [before] have left. *)
Record filled (before : list (entry V)) (history : list historyElement) (cv rv : gmap Z V) : Prop := {
  fi_len : length history = n;
  fi_call : ∀ x, x ∈ before → e_kind x = callEntry →
    cv !! e_id x = Some (e_value x) ∧
    ∃ h, go_nth history (e_id x) = Some h ∧ he_ClientId h = e_clientId x ∧ he_Start h = e_time x;
  fi_return : ∀ y, y ∈ before → e_kind y = returnEntry →
    rv !! e_id y = Some (e_value y) ∧
    ∃ h, go_nth history (e_id y) = Some h ∧ he_End h = e_time y ∧
      ∀ x, x ∈ H → key x = (callEntry, e_id y) → DescribeOperation (e_value x) (e_value y) = Some (he_Description h)
}.

(** Reading a slice after a write. *)
Lemma go_nth_write {A} (l : list A) i j x :
  (0 ≤ i < zlen l)%Z → (0 ≤ j)%Z →
  go_nth (<[Z.to_nat i := x]> l) j = if decide (i = j) then Some x else go_nth l j.
Proof.
  intros Hi Hj. unfold go_nth, zlen in *. rewrite bool_decide_true by done. destruct (decide (i = j)) as [->|Hne].
  - apply list_lookup_insert_eq. lia.
  - apply list_lookup_insert_ne. lia.
Qed.

(** An entry of another operation or kind does not touch what is there. *)
Lemma filled_call before e history cv rv h :
  (∀ x, x ∈ before → x ∈ H ∧ key x ≠ key e) → e ∈ H → filled before history cv rv →
  e_kind e = callEntry → go_nth history (e_id e) = Some h →
  filled (before ++ [e])
    (<[Z.to_nat (e_id e) := HistoryElement (e_clientId e) (e_time e) (he_End h) (he_Description h)]> history)
    (<[e_id e := e_value e]> cv) rv.
Proof.
  intros Hb He [Hlen Hc Hr] Hk Hh. pose proof (go_nth_bounds _ _ _ Hh) as Hi. split; [by rewrite length_insert| |].
  - intros x [Hx| ->%list_elem_of_singleton]%elem_of_app Hkx.
    + destruct (Hb x Hx) as [HxH Hne]. assert (e_id e ≠ e_id x) by (unfold key in Hne; congruence).
      rewrite lookup_insert_ne by done. destruct (Hc x Hx Hkx) as (? & h' & ? & ?). split; [done|]. exists h'.
      rewrite go_nth_write, decide_False by (done || apply (id_bounds n H Hwf x HxH)). done.
    + rewrite lookup_insert_eq. split; [done|]. eexists. rewrite go_nth_write, decide_True by (done || lia). done.
  - intros y [Hy| ->%list_elem_of_singleton]%elem_of_app Hky; [|congruence]. destruct (Hb y Hy) as [HyH _].
    destruct (Hr y Hy Hky) as (? & h' & Hh' & Hend & Hd). split; [done|].
    rewrite go_nth_write by (done || apply (id_bounds n H Hwf y HyH)).
    destruct (decide (e_id e = e_id y)) as [E|]; [|by exists h']. rewrite E in Hh. simplify_eq. eauto.
Qed.

Lemma filled_return before e history cv rv h desc :
  (∀ x, x ∈ before → x ∈ H ∧ key x ≠ key e) → e ∈ H → filled before history cv rv →
  e_kind e = returnEntry → go_nth history (e_id e) = Some h →
  (∀ x, x ∈ H → key x = (callEntry, e_id e) → DescribeOperation (e_value x) (e_value e) = Some desc) →
  filled (before ++ [e])
    (<[Z.to_nat (e_id e) := HistoryElement (he_ClientId h) (he_Start h) (e_time e) desc]> history)
    cv (<[e_id e := e_value e]> rv).
Proof.
  intros Hb He [Hlen Hc Hr] Hk Hh Hd. pose proof (go_nth_bounds _ _ _ Hh) as Hi. split; [by rewrite length_insert| |].
  - intros x [Hx| ->%list_elem_of_singleton]%elem_of_app Hkx; [|congruence]. destruct (Hb x Hx) as [HxH _].
    destruct (Hc x Hx Hkx) as (? & h' & Hh' & ? & ?). split; [done|].
    rewrite go_nth_write by (done || apply (id_bounds n H Hwf x HxH)).
    destruct (decide (e_id e = e_id x)) as [E|]; [|by exists h']. rewrite E in Hh. simplify_eq. eauto.
  - intros y [Hy| ->%list_elem_of_singleton]%elem_of_app Hky.
    + destruct (Hb y Hy) as [HyH Hne]. assert (e_id e ≠ e_id y) by (unfold key in Hne; congruence).
      rewrite lookup_insert_ne by done. destruct (Hr y Hy Hky) as (? & h' & ? & ?). split; [done|]. exists h'.
      rewrite go_nth_write, decide_False by (done || apply (id_bounds n H Hwf y HyH)). done.
    + rewrite lookup_insert_eq. split; [done|]. eexists. rewrite go_nth_write, decide_True by (done || lia). done.
Qed.

Lemma history_loop_ok before after history cv rv :
  H = before ++ after → filled before history cv rv →
  ∃ history' cv' rv', history_loop DescribeOperation after history cv rv = Some (history', cv', rv') ∧ filled H history' cv' rv'.
Proof.
  revert before history cv rv. induction after as [|e after IH]; intros before history cv rv HH Hf.
  { rewrite app_nil_r in HH. subst. by eexists _, _, _. }
  assert (e ∈ H) as He by (rewrite HH; set_solver).
  assert (∀ x, x ∈ before → x ∈ H ∧ key x ≠ key e) as Hb.
  { intros x Hx. split; [rewrite HH; set_solver|]. pose proof (keys_nodup n H Hwf) as Hnd.
    rewrite HH, fmap_app in Hnd. simpl in Hnd. apply list.NoDup_app in Hnd as (_ & Hd & _). intros E.
    apply (Hd (key x)); [by apply list_elem_of_fmap_2|rewrite E; set_solver]. }
  pose proof (id_bounds n H Hwf e He) as Hid. pose proof (fi_len _ _ _ _ Hf) as Hlen.
  assert ((0 ≤ e_id e < zlen history)%Z) as Hid' by (unfold zlen; lia).
  destruct (go_nth_is_Some _ _ Hid') as [h Hh]. cbn [history_loop]. rewrite Hh. cbn [mbind option_bind].
  assert (∀ x, go_set history (e_id e) x = Some (<[Z.to_nat (e_id e) := x]> history)) as Hset
    by (intros; by apply go_set_Some).
  destruct (e_kind e) eqn:Hk.
  - rewrite Hset. cbn [mbind option_bind]. apply (IH (before ++ [e])); [by rewrite <- app_assoc|].
    by apply filled_call.
  - destruct (entry_of n H Hwf callEntry (e_id e) Hid) as (x & Hx & Kx). injection Kx as Kx1 Kx2.
    assert (x ∈ before) as Hxb.
    { pose proof (wf_order _ _ Hwf x e Hx He Kx1 Hk Kx2) as Ho. pose proof (entries_nodup n H Hwf) as Hnd.
      rewrite HH in Ho, Hnd. by eapply sublist_pair_before. }
    destruct (fi_call _ _ _ _ Hf x Hxb Kx1) as [Hcv _]. rewrite Kx2 in Hcv.
    destruct (Hdesc (e_id e) (e_value x) (e_value e)) as [desc Hde].
    { exists x, e. unfold key. rewrite Kx1, Kx2, Hk. done. }
    unfold value_at. rewrite Hcv. simpl default. rewrite Hde. cbn [mbind option_bind]. rewrite Hset. cbn [mbind option_bind].
    apply (IH (before ++ [e])); [by rewrite <- app_assoc|]. apply filled_return; try done.
    intros x' Hx' Kx'. by rewrite (key_inj n H Hwf x' x) by (done || rewrite Kx'; unfold key; congruence).
Qed.
End history.

(** ** The partial linearizations *)

Section linearizations.
Context {V St : Type} `{!Interface V} (DescribeState : St → string) (model : Model V St).
Context (H : list (entry V)) (cv rv : gmap Z V).
Context (Hval : ∀ i inp out, op_of H i inp out → value_at cv i = inp ∧ value_at rv i = out).

(** One entry of the two maps of sizes and indices after a partial linearization. *)
Definition bump (size : Z) (l : list Z) (id : Z) (old : option Z) (largestSize : gmap Z Z) (new : Z) : option Z :=
  if bool_decide (id ∈ l ∧ (default 0 (largestSize !! id) < size)%Z) then Some new else old.

Lemma steps_loop_ok i size l D s D2 s2 ls li :
  extends model H D s l D2 s2 →
  ∃ steps ls' li', steps_loop DescribeState model cv rv i size l s ls li = Some (steps, ls', li') ∧
    ls_Index <$> steps = l ∧
    (∃ ios, Forall2 (λ i io, op_of H i io.1 io.2) l ios ∧
       ls_StateDescription <$> steps = DescribeState <$> states_after model s ios) ∧
    (∀ id, ls' !! id = bump size l id (ls !! id) ls size ∧ li' !! id = bump size l id (li !! id) ls i).
Proof.
  intros He. revert ls li. induction He as [D s|D s k inp out s' l D2 s2 Hop _ Hst _ IH]; intros ls li.
  { exists [], ls, li. split; [done|]. split; [done|]. split; [by exists []|]. intros id. unfold bump.
    by rewrite !bool_decide_false by set_solver. }
  cbn [steps_loop]. destruct (Hval k inp out Hop) as [-> ->]. rewrite Hst. cbn [mbind option_bind negb].
  set (ls1 := if (default 0 (ls !! k) <? size)%Z then <[k := size]> ls else ls).
  set (li1 := if (default 0 (ls !! k) <? size)%Z then <[k := i]> li else li).
  destruct (IH ls1 li1) as (steps & ls' & li' & E & Hidx & (ios & Hios & Hstates) & Hmaps).
  exists (LinearizationStep k (DescribeState s') :: steps), ls', li'. split_and!.
  - subst ls1 li1. destruct (_ <? _)%Z; cbn zeta; rewrite E; done.
  - by rewrite fmap_cons, Hidx.
  - exists ((inp, out) :: ios). split; [by constructor|]. cbn [states_after]. by rewrite Hst, !fmap_cons, Hstates.
  - intros id. destruct (Hmaps id) as [-> ->]. unfold bump. subst ls1 li1.
    destruct (Z.ltb_spec (default 0 (ls !! k)) size)%Z as [Hlt|Hge].
    + destruct (decide (id = k)) as [->|Hne].
      * rewrite !lookup_insert_eq. cbn [default]. rewrite (bool_decide_true (k ∈ k :: l ∧ _)) by (split; [set_solver|done]).
        rewrite bool_decide_false by (simpl; lia). done.
      * rewrite !lookup_insert_ne by done.
        rewrite (bool_decide_ext (id ∈ l ∧ _) (id ∈ k :: l ∧ (default 0 (ls !! id) < size)%Z)) by set_solver. done.
    + rewrite (bool_decide_ext (id ∈ l ∧ _) (id ∈ k :: l ∧ (default 0 (ls !! id) < size)%Z)); [done|].
      rewrite elem_of_cons. split; [tauto|]. intros [[->|?] ?]; [lia|done].
Qed.

(** The two maps after the partial linearizations in [before]. *)
Definition maps_ok (before : list (list Z)) (ls li : gmap Z Z) : Prop :=
  ∀ id, match li !! id with
        | Some i => ∃ p, go_nth before i = Some p ∧ id ∈ p ∧ ls !! id = Some (zlen p) ∧
            ∀ q, q ∈ before → id ∈ q → (zlen q ≤ zlen p)%Z
        | None => ls !! id = None ∧ ∀ q, q ∈ before → id ∉ q
        end.

Lemma maps_ok_snoc before p ls li ls' li' :
  maps_ok before ls li →
  (∀ id, ls' !! id = bump (zlen p) p id (ls !! id) ls (zlen p) ∧
         li' !! id = bump (zlen p) p id (li !! id) ls (zlen before)) →
  maps_ok (before ++ [p]) ls' li'.
Proof.
  intros Hok Hmaps id. destruct (Hmaps id) as [-> ->]. specialize (Hok id). unfold bump. case_bool_decide as Hb.
  - destruct Hb as [Hin Hlt]. exists p. split_and!; [|done|done|].
    + rewrite go_nth_app_r by done. by rewrite Z.sub_diag.
    + intros q [Hq| ->%list_elem_of_singleton]%elem_of_app Hid; [|done]. destruct (li !! id) as [i|].
      * destruct Hok as (p' & _ & _ & E & Hmax). rewrite E in Hlt. simpl in Hlt. specialize (Hmax q Hq Hid). lia.
      * destruct Hok as [_ Hno]. by destruct (Hno q Hq).
  - destruct (li !! id) as [i|].
    + destruct Hok as (p' & Hp' & Hin & E & Hmax). exists p'. rewrite E in *. simpl in Hb. split_and!; [|done|done|].
      * rewrite go_nth_app_l; [done|]. by apply (go_nth_bounds _ _ _ Hp').
      * intros q [Hq| ->%list_elem_of_singleton]%elem_of_app Hid; [by apply Hmax|].
        destruct (decide (zlen p' < zlen p)%Z); [by destruct Hb|lia].
    + destruct Hok as [E Hno]. rewrite E in *. simpl in Hb. split; [done|].
      intros q [Hq| ->%list_elem_of_singleton]%elem_of_app Hid; [by apply (Hno q Hq)|]. apply Hb. split; [done|].
      destruct p; [set_solver|]. rewrite zlen_cons. pose proof (zlen_nonneg p). lia.
Qed.

(** The description of a run of the model. *)
Definition run_described (p : list Z) (steps : list linearizationStep) : Prop :=
  ls_Index <$> steps = p ∧
  ∃ ios, Forall2 (λ i io, op_of H i io.1 io.2) p ios ∧
    ls_StateDescription <$> steps = DescribeState <$> states_after model (Init model) ios.

Lemma partials_loop_ok before ps ls li :
  Forall (partial model H) ps → maps_ok before ls li →
  ∃ lins largest ls', partials_loop DescribeState model cv rv (zlen before) ps ls li = Some (lins, largest) ∧
    Forall2 run_described ps lins ∧ maps_ok (before ++ ps) ls' largest.
Proof.
  intros Hps. revert before ls li. induction Hps as [|p ps (D & s & He) _ IH]; intros before ls li Hok.
  { exists [], li, ls. rewrite app_nil_r. done. }
  destruct (steps_loop_ok (zlen before) (zlen p) p _ _ _ _ ls li He) as (steps & ls' & li' & E & Hidx & Hios & Hmaps).
  destruct (IH (before ++ [p]) ls' li') as (lins & largest & ls2 & E2 & Hl & Hok2); [by eapply maps_ok_snoc|].
  exists (steps :: lins), largest, ls2. rewrite <- app_assoc in Hok2. split_and!; [|by constructor|done].
  cbn [partials_loop]. rewrite E. cbn [mbind option_bind]. rewrite zlen_app in E2.
  replace (zlen before + 1)%Z with (zlen before + zlen [p])%Z by done. by rewrite E2.
Qed.
End linearizations.

(** ** The whole computation *)

Section whole.
Context {V St : Type} `{!Interface V} `{!EqDecision St}.
Context (sort : list (entry V) → list (entry V)) (Hsort : sorts sort).
Context (DescribeOperation : V → V → option string) (DescribeState : St → string).
Context (sortSlice : list (list Z) → list (list Z)) (Hslice : ∀ ps, sortSlice ps ≡ₚ ps).

(** The model can describe every operation. *)
Definition describable (ops : list (Operation V)) : Prop :=
  Forall (λ o, is_Some (DescribeOperation (op_Input o) (op_Output o))) ops.

Section partition.
Context (model : Model V St) (ops : list (Operation V)).
Context (Ht : Forall (λ o, (op_Call o ≤ op_Return o)%Z) ops) (Hdesc : describable ops).

Lemma history_described history cv rv :
  filled DescribeOperation (length ops) (makeEntries sort ops) (makeEntries sort ops) history cv rv →
  Forall2 (λ o h, he_ClientId h = op_ClientId o ∧ he_Start h = op_Call o ∧ he_End h = op_Return o ∧
    DescribeOperation (op_Input o) (op_Output o) = Some (he_Description h)) ops history.
Proof.
  intros [Hlen Hc Hr]. apply Forall2_same_length_lookup. split; [done|]. intros k o h Ho Hh.
  assert (call_entry (Z.of_nat k) o ∈ makeEntries sort ops) as Hx by (apply (elem_of_entries sort Hsort); eauto).
  assert (return_entry (Z.of_nat k) o ∈ makeEntries sort ops) as Hy by (apply (elem_of_entries sort Hsort); eauto).
  destruct (Hc _ Hx eq_refl) as (_ & h1 & Hh1 & ? & ?). destruct (Hr _ Hy eq_refl) as (_ & h2 & Hh2 & ? & Hd).
  simpl in Hh1, Hh2. rewrite go_nth_of_nat in Hh1, Hh2. simplify_eq. split_and!; try done. by apply (Hd _ Hx).
Qed.

Lemma steps_described p steps :
  partial (fillDefault model) (makeEntries sort ops) p →
  run_described DescribeState (fillDefault model) (makeEntries sort ops) p steps → steps_ok DescribeState model ops p steps.
Proof.
  intros (D & s & He) [Hidx (ios & Hios & Hst)]. split; [done|]. pose proof (ids_of_nat sort Hsort ops Ht _ _ _ _ _ _ He) as Hp.
  rewrite <- Hp in Hios. apply (ios_mapM sort Hsort ops Ht) in Hios as (os & Hos & ->). exists os. split; [|].
  - apply mapM_Some in Hos. apply mapM_Some. by rewrite Forall2_fmap_l in Hos.
  - rewrite Hst. f_equal. by apply states_after_ext.
Qed.

Lemma partition_data_ok ps :
  Forall (partial (fillDefault model) (makeEntries sort ops)) ps →
  ∃ d, partition_data DescribeOperation DescribeState sortSlice (fillDefault model) (makeEntries sort ops) ps =
         Some (d, sortSlice ps) ∧ data_ok DescribeOperation DescribeState model ops (sortSlice ps) d.
Proof.
  intros Hps. pose proof (makeEntries_wf sort Hsort ops Ht) as Hwf. set (H := makeEntries sort ops) in *.
  destruct (history_loop_ok DescribeOperation (length ops) H Hwf) with (before := @nil (entry V)) (after := H)
    (history := replicate (length ops) empty_element) (cv := ∅ : gmap Z V) (rv := ∅ : gmap Z V)
    as (history & cv & rv & E & Hf); [|done| |].
  { intros i inp out Hop. apply (op_of_entries sort Hsort ops Ht) in Hop as (o & k & _ & Ho & -> & ->).
    by apply (list.Forall_lookup_1 _ _ _ _ Hdesc Ho). }
  { split; [by rewrite length_replicate|set_solver..]. }
  assert (Forall (partial (fillDefault model) H) (sortSlice ps)) as Hps' by by rewrite Hslice.
  destruct (partials_loop_ok DescribeState (fillDefault model) H cv rv) with (before := @nil (list Z))
    (ps := sortSlice ps) (ls := ∅ : gmap Z Z) (li := ∅ : gmap Z Z) as (lins & largest & ls' & El & Hl & Hok).
  { intros i inp out (x & y & Hx & Hy & Kx & Ky & <- & <-). injection Kx as Kx1 <-. injection Ky as Ky1 Ky2. split.
    - unfold value_at. by rewrite (proj1 (fi_call _ _ _ _ _ _ _ Hf x Hx Kx1)).
    - unfold value_at. rewrite <- Ky2. by rewrite (proj1 (fi_return _ _ _ _ _ _ _ Hf y Hy Ky1)). }
  { done. }
  { intros id. rewrite !lookup_empty. set_solver. }
  eexists. split; [|split].
  - unfold partition_data. rewrite (wf_length _ _ Hwf). replace (Nat.div2 (length ops + length ops)) with (length ops).
    + rewrite E. cbn [mbind option_bind]. change 0%Z with (zlen (@nil (list Z))). rewrite El. done.
    + replace (length ops + length ops) with (2 * length ops) by lia. by rewrite Nat.div2_double.
  - by eapply history_described.
  - simpl. clear -Hl Hps' Ht Hsort. induction Hl as [|p steps ps' lins' Hp _ IH]; inversion_clear Hps'; constructor; [by apply steps_described|auto].
  - intros id. specialize (Hok id). simpl. destruct (largest !! id); [|tauto]. destruct Hok as (p & ? & ? & ? & ?). eauto.
Qed.
End partition.
Lemma compute_ok (model : Model V St) parts pss :
  Forall (history_ok model) parts → Forall describable parts →
  Forall2 (λ ops ps, Forall (partial (fillDefault model) (makeEntries sort ops)) ps) parts pss →
  ∃ data, computeVisualizationData DescribeOperation DescribeState sortSlice model
            (LinearizationInfo (makeEntries sort <$> parts) pss) =
          Some (data, LinearizationInfo (makeEntries sort <$> parts) (sortSlice <$> pss)) ∧
    length data = length parts ∧
    ∀ i ops ps d, parts !! i = Some ops → pss !! i = Some ps → data !! i = Some d →
      data_ok DescribeOperation DescribeState model ops (sortSlice ps) d.
Proof.
  intros Hok Hdesc Hps. apply Forall2_same_length_lookup in Hps as [Hlen Hps].
  assert (∀ i ops, parts !! i = Some ops → ∃ ps d, pss !! i = Some ps ∧
    partition_data DescribeOperation DescribeState sortSlice (fillDefault model) (makeEntries sort ops) ps =
      Some (d, sortSlice ps) ∧ data_ok DescribeOperation DescribeState model ops (sortSlice ps) d) as Hone.
  { intros i ops Hi. destruct (lookup_lt_is_Some_2 pss i) as [ps Hpi]; [rewrite <- Hlen; by eapply lookup_lt_Some|].
    destruct (partition_data_ok model ops) with (ps := ps) as (d & ? & ?); [..|by exists ps, d].
    - by apply (list.Forall_lookup_1 _ _ _ _ Hok Hi).
    - by apply (list.Forall_lookup_1 _ _ _ _ Hdesc Hi).
    - by eapply Hps. }
  assert (∃ ds, mapM (λ ip : nat * list (entry V), ps ← pss !! ip.1;
        partition_data DescribeOperation DescribeState sortSlice (fillDefault model) ip.2 ps)
      (imap pair (makeEntries sort <$> parts)) = Some ds) as [ds Hds].
  { apply mapM_is_Some. apply list.Forall_forall. intros [i H] (j & H' & [= -> ->] & HH)%elem_of_lookup_imap.
    rewrite list_lookup_fmap in HH. apply fmap_Some in HH as (ops & Hops & ->).
    destruct (Hone j ops Hops) as (ps & d & Hp & E & _). simpl. rewrite Hp. simpl. by rewrite E. }
  exists (ds.*1). unfold computeVisualizationData. cbn [li_history li_partialLinearizations]. rewrite Hds. cbn [mbind option_bind].
  apply mapM_Some, Forall2_same_length_lookup in Hds as [Hl Hds]. rewrite length_imap, length_fmap in Hl.
  assert (∀ i ops x, parts !! i = Some ops → ds !! i = Some x → ∃ ps d, pss !! i = Some ps ∧ x = (d, sortSlice ps) ∧
    data_ok DescribeOperation DescribeState model ops (sortSlice ps) d) as Hx.
  { intros i ops x Hi Hxi. destruct (Hone i ops Hi) as (ps & d & Hp & E & ?). exists ps, d. split; [done|]. split; [|done].
    specialize (Hds i (i, makeEntries sort ops) x). rewrite list_lookup_imap, list_lookup_fmap, Hi in Hds.
    specialize (Hds eq_refl Hxi). simpl in Hds. rewrite Hp in Hds. simpl in Hds. congruence. }
  split_and!; [|by rewrite length_fmap|].
  - do 3 f_equal. apply list_eq. intros i. rewrite !list_lookup_fmap. destruct (ds !! i) as [x|] eqn:Hxi; simpl.
    + destruct (lookup_lt_is_Some_2 parts i) as [ops Hi]; [rewrite Hl; by eapply lookup_lt_Some|].
      destruct (Hx i ops x Hi Hxi) as (ps & d & -> & -> & _). done.
    + apply lookup_ge_None in Hxi. rewrite (proj2 (lookup_ge_None pss i)); [done|lia].
  - intros i ops ps d Hi Hp Hd. rewrite list_lookup_fmap in Hd. apply fmap_Some in Hd as (x & Hxi & ->).
    destruct (Hx i ops x Hi Hxi) as (ps' & d & ? & -> & ?). by simplify_eq.
Qed.
End whole.

(** C34. The visualization never panics and shows the history, also when the
    check ran out of time.  CheckOperationsVerbose with any timeout is given
    the answers of all partitions in some order, or those of some partitions
    and then its timer, which stops the searches that still run at whatever
    iteration they have reached; then it returns, and on the information that
    it returns computeVisualizationData does not meet a partial linearization
    that the model refuses.  For each partition the data give client, times and
    description of every operation, for each reported partial linearization
    its operations with the states that the model goes through, and for each
    operation that occurs in one the index of a longest one.  VisualizePath
    leaves the template with these data in the file, which it replaces, and no
    other file changes.  The conditions: there is a partition (with none the
    check waits for ever if it has no timer), calls do not come after their
    returns, the model can run and describe every operation and its Equal does
    not separate states that behave differently (none panics), the JSON encoder
    accepts the data and the file can be written. *)
Theorem visualization_correct {V St : Type} `{!Interface V} `{!EqDecision St} (model : Model V St)
    DescribeOperation DescribeState sortSlice sort order history parts marshal html path fs :
  sorts sort → (∀ l, order l ≡ₚ l) → (∀ ps, sortSlice ps ≡ₚ ps) → (∀ data, is_Some (marshal data)) →
  partitions_of model history = Some parts → parts ≠ [] → Forall (history_ok model) parts →
  Forall (describable DescribeOperation) parts →
  equal_ok model (default ShallowEqual (Equal model)) →
  ∃ fuel, ∀ fuel' timeout arrivals kills, fuel ≤ fuel' → enough timeout (length parts) arrivals →
  ∃ res info data info',
    CheckOperationsVerbose fuel' sort order model history timeout arrivals kills = Done (res, info) ∧
    computeVisualizationData DescribeOperation DescribeState sortSlice model info = Some (data, info') ∧
    length data = length parts ∧
    (∀ i ops ps d, parts !! i = Some ops → li_partialLinearizations info !! i = Some ps → data !! i = Some d →
      data_ok DescribeOperation DescribeState model ops (sortSlice ps) d) ∧
    ∃ jsonData, marshal data = Some jsonData ∧
      VisualizePath DescribeOperation DescribeState sortSlice marshal html true None model info path fs =
        Some (<[path := html.1 +:+ jsonData +:+ html.2]> fs, None).
Proof.
  intros Hsort Horder Hslice Hmarshal Hparts Hne Hok Hdesc Heq.
  destruct (checkOperations_verbose sort Hsort order Horder model history parts) as [fuel Hf]; try done.
  exists fuel. intros fuel' timeout arrivals kills Hle Hen.
  destruct (Hf fuel' timeout arrivals kills Hle Hen) as (res & [hs pss] & E & Hh & Hps). simpl in Hh, Hps. subst hs.
  destruct (compute_ok sort Hsort DescribeOperation DescribeState sortSlice Hslice model parts pss) as (data & Ed & ? & ?); try done.
  eexists res, _, data, _. do 4 (split; [done|]). destruct (Hmarshal data) as [jsonData Hj]. exists jsonData. split; [done|].
  unfold VisualizePath, Visualize. cbn [negb]. rewrite Ed. cbn [mbind option_bind]. rewrite Hj. unfold write_file.
  rewrite lookup_insert_eq. by rewrite insert_insert_eq.
Qed.

(** ** The descriptions of KvModel (models/kv.go) *)

Definition KvModel_DescribeOperation (input output : KvAny) : option string :=
  inp ← as_KvInput input; out ← as_KvOutput output;
  Some (if (kvi_Op inp =? 0)%Z then "get('" +:+ kvi_Key inp +:+ "') -> '" +:+ kvo_Value out +:+ "'"
        else if (kvi_Op inp =? 1)%Z then "put('" +:+ kvi_Key inp +:+ "', '" +:+ kvi_Value inp +:+ "')"
        else if (kvi_Op inp =? 2)%Z then "append('" +:+ kvi_Key inp +:+ "', '" +:+ kvi_Value inp +:+ "')"
        else "<invalid>").

(** Longest first: stdpp's merge sort in place of sort.Slice. *)
Definition not_shorter (p q : list Z) : Prop := length q ≤ length p.

#[export] Instance not_shorter_dec : RelDecision not_shorter.
Proof. intros p q. unfold not_shorter. apply _. Defined.

Definition longest_first : list (list Z) → list (list Z) := merge_sort not_shorter.

(** With one second, where the second partition answers and then the timer
    fires, so that the first search is stopped in its sixth iteration of eleven. *)
Lemma visualization_correct_witness :
  ∃ parts fuel, ∀ fuel', fuel ≤ fuel' → ∃ res info data info',
    CheckOperationsVerbose fuel' byTime_sort id KvModel (demo_history "b") 1000000000 [Answer 1; Timer]
      (λ _ j, if decide (j < 5) then 0%Z else 1%Z) = Done (res, info) ∧
    computeVisualizationData KvModel_DescribeOperation id longest_first KvModel info = Some (data, info') ∧
    length data = length parts ∧
    (∀ i ops ps d, parts !! i = Some ops → li_partialLinearizations info !! i = Some ps → data !! i = Some d →
      data_ok KvModel_DescribeOperation id KvModel ops (longest_first ps) d) ∧
    ∃ jsonData, Some (pretty (length data)) = Some jsonData ∧
      VisualizePath KvModel_DescribeOperation id longest_first (λ data, Some (pretty (length data)))
        ("<script>const data = ", "</script>") true None KvModel info "out.html" {["out.html" := "old"]} =
        Some (<["out.html" := "<script>const data = " +:+ jsonData +:+ "</script>"]> {["out.html" := "old"]}, None).
Proof.
  destruct (demo_partition "b") as (p1 & p2 & E & Hok). exists [p1; p2].
  destruct (visualization_correct KvModel KvModel_DescribeOperation id longest_first byTime_sort id (demo_history "b") [p1; p2]
    (λ data, Some (pretty (length data))) ("<script>const data = ", "</script>") "out.html" {["out.html" := "old"]})
    as [fuel Hf].
  - apply byTime_sort_ok.
  - reflexivity.
  - intros ps. apply merge_sort_Permutation.
  - intros data. by eexists.
  - exact E.
  - discriminate.
  - exact Hok.
  - vm_compute in E. injection E as <- <-. repeat constructor; by eexists.
  - apply ShallowEqual_ok.
  - exists fuel. intros fuel' Hle. apply Hf; [done|]. exists [1], [Timer]. split_and!; [done|apply NoDup_singleton| |by right].
    intros i ->%list_elem_of_singleton. simpl. lia.
Defined.
