(* ===== verification/Labrpc.v ===== *)
(** * The simulated network (labrpc/labrpc.go)

    A [Network] routes calls from client ends to servers, and may lose or delay
    requests and replies.  A call is a state machine: the caller's goroutine,
    the goroutine of processReq and the goroutine that runs the handler share
    the channels [replyCh] and [ech], and the phases of [RpcCall] say where they
    are.  One action of [net_step] is the code between two points where another
    goroutine can run; random decisions are arguments of the actions.  A step
    that is not enabled, panics or ends the process (log.Fatalf) is [None].

    End and server names are Go interfaces: countable types.  Arguments and
    replies are values of a type [Val] with the codec [Gob]; a receiver's
    methods are functions on its state, and the run of a handler on its receiver
    is one action.

    [Call_ends]: every call returns and leaves no goroutine behind.
    [Call_executes_once]: a handler runs at most once per call, and a call that
    returns true got the reply of that run on its own argument.
    [deleted_never_answers]: what the comment in processReq promises about
    DeleteServer. *)

From Stdlib Require Import Ascii.
From S2P Require Import Prelude.

(** [atomic.AddInt32] *)
Definition add_int32 (x d : Z) : Z := ((x + d + 2 ^ 31) mod 2 ^ 32 - 2 ^ 31)%Z.
Definition add_int64 (x d : Z) : Z := ((x + d + 2 ^ 63) mod 2 ^ 64 - 2 ^ 63)%Z.

(** [strings.LastIndex(s, ".")] with the two parts around it. *)
Fixpoint split_last_dot (s : string) : option (string * string) :=
  match s with
  | EmptyString => None
  | String a s' =>
      match split_last_dot s' with
      | Some (l, r) => Some (String a l, r)
      | None => if Ascii.eqb a "."%char then Some (EmptyString, s') else None
      end
  end.

Record replyMsg := mkReplyMsg { rep_ok : bool; rep_reply : list byte }.

Definition no_reply : replyMsg := mkReplyMsg false [].

Section labrpc.
Context {EN SN : Type} `{Countable EN} `{Countable SN}.
Context {Val Rcvr : Type} `{!Gob Val} (zero : Val).

(** ** Services and servers *)

(** A method as reflection shows it. *)
Record Method := mkMethod {
  m_Name : string;
  m_PkgPath : string;
  m_NumIn : Z;
  m_In2_is_Ptr : bool;
  m_NumOut : Z;
  m_Func : Rcvr → Val → Rcvr * Val
}.

(** [svc_rcvr] is the address of the receiver. *)
Record Service := mkService {
  svc_name : string;
  svc_rcvr : nat;
  svc_methods : gmap string Method
}.

Fixpoint register (ms : list Method) (methods : gmap string Method) : gmap string Method :=
  match ms with
  | [] => methods
  | m :: ms =>
      if negb (bool_decide (m_PkgPath m = EmptyString)) || negb (m_NumIn m =? 3)%Z ||
         negb (m_In2_is_Ptr m) || negb (m_NumOut m =? 0)%Z
      then register ms methods
      else register ms (<[m_Name m := m]> methods)
  end.

Definition MakeService (name : string) (rcvr : nat) (ms : list Method) : Service :=
  mkService name rcvr (register ms ∅).

Record Server := mkServer { srv_services : gmap string Service; srv_count : Z }.

Definition MakeServer : Server := mkServer ∅ 0.

Definition AddService (svc : Service) (rs : Server) : Server :=
  mkServer (<[svc_name svc := svc]> (srv_services rs)) (srv_count rs).

Definition Server_GetCount (rs : Server) : Z := srv_count rs.

(** Service.dispatch: the argument is decoded (into a zero value, which it
    stays when decoding fails), the method runs, the reply is encoded. *)
Definition Service_dispatch (methname : string) (args : list byte) (svc : Service) (objects : list Rcvr) :
    option (list Rcvr * Val * Val * replyMsg) :=
  method ← svc_methods svc !! methname;
  obj ← objects !! svc_rcvr svc;
  let arg := default zero (gob_decode args) in
  let '(obj', reply) := m_Func method obj arg in
  Some (<[svc_rcvr svc := obj']> objects, arg, reply, mkReplyMsg true (gob_encode reply)).

(** Server.dispatch, with the receivers' states. *)
Definition Server_dispatch (svcMeth : string) (args : list byte) (rs : Server) (objects : list Rcvr) :
    option (Server * list Rcvr * Val * Val * replyMsg) :=
  let rs' := mkServer (srv_services rs) (srv_count rs + 1)%Z in
  '(serviceName, methodName) ← split_last_dot svcMeth;
  service ← srv_services rs !! serviceName;
  '(objects', arg, reply, rep) ← Service_dispatch methodName args service objects;
  Some (rs', objects', arg, reply, rep).

(** ** The network *)

Record Network := mkNetwork {
  reliable : bool;
  longDelays : bool;
  longReordering : bool;
  ends : gset EN;
  enabled : gmap EN bool;
  servers : gmap SN (option nat);
  connections : gmap EN (option SN);
  net_done : bool;
  net_count : Z;
  net_bytes : Z
}.

Definition MakeNetwork : Network := mkNetwork true false false ∅ ∅ ∅ ∅ false 0 0.

Definition Cleanup (rn : Network) : option Network :=
  if net_done rn then None
  else Some (mkNetwork (reliable rn) (longDelays rn) (longReordering rn) (ends rn) (enabled rn) (servers rn)
               (connections rn) true (net_count rn) (net_bytes rn)).

Definition Reliable (yes : bool) (rn : Network) : Network :=
  mkNetwork yes (longDelays rn) (longReordering rn) (ends rn) (enabled rn) (servers rn) (connections rn)
    (net_done rn) (net_count rn) (net_bytes rn).

Definition LongReordering (yes : bool) (rn : Network) : Network :=
  mkNetwork (reliable rn) (longDelays rn) yes (ends rn) (enabled rn) (servers rn) (connections rn)
    (net_done rn) (net_count rn) (net_bytes rn).

Definition LongDelays (yes : bool) (rn : Network) : Network :=
  mkNetwork (reliable rn) yes (longReordering rn) (ends rn) (enabled rn) (servers rn) (connections rn)
    (net_done rn) (net_count rn) (net_bytes rn).

Definition set_servers (s : gmap SN (option nat)) (rn : Network) : Network :=
  mkNetwork (reliable rn) (longDelays rn) (longReordering rn) (ends rn) (enabled rn) s (connections rn)
    (net_done rn) (net_count rn) (net_bytes rn).

Definition set_enabled (e : gmap EN bool) (rn : Network) : Network :=
  mkNetwork (reliable rn) (longDelays rn) (longReordering rn) (ends rn) e (servers rn) (connections rn)
    (net_done rn) (net_count rn) (net_bytes rn).

Definition set_connections (c : gmap EN (option SN)) (rn : Network) : Network :=
  mkNetwork (reliable rn) (longDelays rn) (longReordering rn) (ends rn) (enabled rn) (servers rn) c
    (net_done rn) (net_count rn) (net_bytes rn).

(** An end that exists already ends the process. *)
Definition MakeEnd (endname : EN) (rn : Network) : option Network :=
  if bool_decide (endname ∈ ends rn) then None
  else Some (mkNetwork (reliable rn) (longDelays rn) (longReordering rn) ({[endname]} ∪ ends rn)
               (<[endname := false]> (enabled rn)) (servers rn) (<[endname := None]> (connections rn))
               (net_done rn) (net_count rn) (net_bytes rn)).

Definition AddServer (servername : SN) (rs : nat) (rn : Network) : Network :=
  set_servers (<[servername := Some rs]> (servers rn)) rn.

Definition DeleteServer (servername : SN) (rn : Network) : Network :=
  set_servers (<[servername := None]> (servers rn)) rn.

Definition Connect (endname : EN) (servername : SN) (rn : Network) : Network :=
  set_connections (<[endname := Some servername]> (connections rn)) rn.

Definition Enable (endname : EN) (b : bool) (rn : Network) : Network :=
  set_enabled (<[endname := b]> (enabled rn)) rn.

(** Absent keys read as false and nil. *)
Definition is_enabled (rn : Network) (endname : EN) : bool := default false (enabled rn !! endname).
Definition server_at (rn : Network) (servername : SN) : option nat := default None (servers rn !! servername).

Definition readEndnameInfo (endname : EN) (rn : Network) : bool * option SN * option nat * bool * bool :=
  let servername := default None (connections rn !! endname) in
  let server := match servername with Some s => server_at rn s | None => None end in
  (is_enabled rn endname, servername, server, reliable rn, longReordering rn).

Definition isServerDead (endname : EN) (servername : SN) (server : nat) (rn : Network) : bool :=
  negb (is_enabled rn endname) || negb (bool_decide (server_at rn servername = Some server)).

(** The count of a server that was deleted, or was never there, is a nil dereference. *)
Definition GetCount (servername : SN) (heap : list Server) (rn : Network) : option Z :=
  svr ← server_at rn servername; rs ← heap !! svr; Some (Server_GetCount rs).

Definition GetTotalCount (rn : Network) : Z := net_count rn.
Definition GetTotalBytes (rn : Network) : Z := net_bytes rn.

Definition add_stats (calls bytes : Z) (rn : Network) : Network :=
  mkNetwork (reliable rn) (longDelays rn) (longReordering rn) (ends rn) (enabled rn) (servers rn)
    (connections rn) (net_done rn) (add_int32 (net_count rn) calls) (add_int64 (net_bytes rn) bytes).

(** ** Calls *)

(** What processReq read about the call's end. *)
Record Route := mkRoute { rt_name : SN; rt_server : nat; rt_reliable : bool; rt_longreordering : bool }.

Inductive CallPhase :=
| Sending                                   (* Call: select on e.ch and e.done *)
| Queued                                    (* go rn.processReq(xreq) *)
| Accepted (rt : Route)                     (* connected; before the request can be dropped *)
| Serving (rt : Route)                      (* the loop that waits for ech *)
| Served (rt : Route) (reply : option replyMsg)  (* the loop was left, with or without a reply *)
| Delayed (rep : replyMsg)                  (* the timer of a long reordering *)
| Answered (rep : replyMsg)                 (* about to send on replyCh *)
| Returned (reply : option Val).            (* Call has returned: the decoded reply, or false *)

(** The goroutine that runs server.dispatch and sends on ech. *)
Inductive HandlerState := HNone | HRunning (rt : Route) | HReplied (rep : replyMsg) | HReceived.

Record RpcCall := mkRpcCall {
  c_end : EN;
  c_svcMeth : string;
  c_args : list byte;
  c_phase : CallPhase;
  c_handler : HandlerState
}.

(** [w_running]: the goroutine of MakeNetwork has not returned.  [w_execs]: the handler executions so far: the call, the server, the
    argument the handler got and the reply it gave. *)
Record NetWorld := mkNetWorld {
  w_net : Network;
  w_running : bool;
  w_servers : list Server;
  w_objects : list Rcvr;
  w_calls : list RpcCall;
  w_execs : list (nat * nat * Val * Val)
}.

Definition set_net (rn : Network) (w : NetWorld) : NetWorld :=
  mkNetWorld rn (w_running w) (w_servers w) (w_objects w) (w_calls w) (w_execs w).

Definition set_call (c : nat) (k : RpcCall) (w : NetWorld) : NetWorld :=
  mkNetWorld (w_net w) (w_running w) (w_servers w) (w_objects w) (<[c := k]> (w_calls w)) (w_execs w).

Definition with_phase (p : CallPhase) (k : RpcCall) : RpcCall := mkRpcCall (c_end k) (c_svcMeth k) (c_args k) p (c_handler k).
Definition with_handler (h : HandlerState) (k : RpcCall) : RpcCall := mkRpcCall (c_end k) (c_svcMeth k) (c_args k) (c_phase k) h.

(** ClientEnd.Call up to its first select. *)
Definition Call_start (endname : EN) (svcMeth : string) (args : Val) (w : NetWorld) : NetWorld :=
  mkNetWorld (w_net w) (w_running w) (w_servers w) (w_objects w)
    (w_calls w ++ [mkRpcCall endname svcMeth (gob_encode args) Sending HNone]) (w_execs w).

(** The goroutine of MakeNetwork receives the request; it may do so once more
    after [done] was closed, since select chooses among the ready cases. *)
Definition net_receive (c : nat) (k : RpcCall) (w : NetWorld) : option NetWorld :=
  if w_running w
  then Some (set_call c (with_phase Queued k) (set_net (add_stats 1 (zlen (c_args k)) (w_net w)) w))
  else None.

(** [case <-rn.done: return] *)
Definition net_stop (w : NetWorld) : option NetWorld :=
  if w_running w && net_done (w_net w)
  then Some (mkNetWorld (w_net w) false (w_servers w) (w_objects w) (w_calls w) (w_execs w))
  else None.

(** [case <-e.done] *)
Definition Call_done (c : nat) (k : RpcCall) (w : NetWorld) : option NetWorld :=
  if net_done (w_net w) then Some (set_call c (with_phase (Returned None) k) w) else None.

(** processReq up to the sleep. *)
Definition process_read (c : nat) (k : RpcCall) (w : NetWorld) : NetWorld :=
  let '(en, servername, server, rel, lr) := readEndnameInfo (c_end k) (w_net w) in
  match en, servername, server with
  | true, Some sn, Some p => set_call c (with_phase (Accepted (mkRoute sn p rel lr)) k) w
  | _, _, _ => set_call c (with_phase (Answered no_reply) k) w
  end.

(** The request is dropped, or the handler is started. *)
Definition process_start (drop : bool) (c : nat) (k : RpcCall) (rt : Route) (w : NetWorld) : NetWorld :=
  if negb (rt_reliable rt) && drop then set_call c (with_phase (Answered no_reply) k) w
  else set_call c (with_handler (HRunning rt) (with_phase (Serving rt) k)) w.

(** The goroutine [r := server.dispatch(req)].  The handler runs in this one
    step, however late it is taken; a handler that does not return is one whose
    step is never taken, which labrpc's own promise that Call returns excepts. *)
Definition run_handler (c : nat) (k : RpcCall) (rt : Route) (w : NetWorld) : option NetWorld :=
  rs ← w_servers w !! rt_server rt;
  '(rs', objects, arg, reply, rep) ← Server_dispatch (c_svcMeth k) (c_args k) rs (w_objects w);
  Some (mkNetWorld (w_net w) (w_running w) (<[rt_server rt := rs']> (w_servers w)) objects
          (<[c := with_handler (HReplied rep) k]> (w_calls w))
          (w_execs w ++ [(c, rt_server rt, arg, reply)])).

(** [case <-time.After]: the loop goes on unless the server is dead. *)
Definition process_poll (c : nat) (k : RpcCall) (rt : Route) (w : NetWorld) : NetWorld :=
  if isServerDead (c_end k) (rt_name rt) (rt_server rt) (w_net w)
  then set_call c (with_phase (Served rt None) k) w else w.

(** [case reply = <-ech] *)
Definition process_receive (c : nat) (k : RpcCall) (rt : Route) (rep : replyMsg) (w : NetWorld) : NetWorld :=
  set_call c (with_handler HReceived (with_phase (Served rt (Some rep)) k)) w.

(** [go func() { <-ech }()], started when the server was found dead. *)
Definition drain (c : nat) (k : RpcCall) (w : NetWorld) : NetWorld := set_call c (with_handler HReceived k) w.

(** The reply is counted and sent on replyCh. *)
Definition send_reply (c : nat) (k : RpcCall) (rep : replyMsg) (w : NetWorld) : NetWorld :=
  set_call c (with_phase (Answered rep) k) (set_net (add_stats 0 (zlen (rep_reply rep)) (w_net w)) w).

(** After the loop. *)
Definition process_finish (drop delay : bool) (c : nat) (k : RpcCall) (rt : Route) (reply : option replyMsg) (w : NetWorld) : NetWorld :=
  let serverDead := isServerDead (c_end k) (rt_name rt) (rt_server rt) (w_net w) in
  match reply with
  | None => set_call c (with_phase (Answered no_reply) k) w
  | Some rep =>
      if serverDead then set_call c (with_phase (Answered no_reply) k) w
      else if negb (rt_reliable rt) && drop then set_call c (with_phase (Answered no_reply) k) w
      else if rt_longreordering rt && delay then set_call c (with_phase (Delayed rep) k) w
      else send_reply c k rep w
  end.

(** [rep := <-req.replyCh]; a reply that cannot be decoded ends the process. *)
Definition Call_return (c : nat) (k : RpcCall) (rep : replyMsg) (w : NetWorld) : option NetWorld :=
  if rep_ok rep then v ← gob_decode (rep_reply rep); Some (set_call c (with_phase (Returned (Some v)) k) w)
  else Some (set_call c (with_phase (Returned None) k) w).

Inductive action :=
| DoReliable (b : bool) | DoLongReordering (b : bool) | DoLongDelays (b : bool) | DoCleanup | NetStop
| DoMakeEnd (e : EN) | DoAddServer (s : SN) (p : nat) | DoDeleteServer (s : SN)
| DoConnect (e : EN) (s : SN) | DoEnable (e : EN) (b : bool)
| DoCall (e : EN) (svcMeth : string) (args : Val)
| CReceive (c : nat) | CDone (c : nat) | CRead (c : nat) | CBegin (c : nat) (drop : bool)
| CHandle (c : nat) | CPoll (c : nat) | CTake (c : nat) | CDrain (c : nat)
| CFinish (c : nat) (drop delay : bool) | CTimer (c : nat) | CReturn (c : nat).

Definition net_step (a : action) (w : NetWorld) : option NetWorld :=
  match a with
  | DoReliable b => Some (set_net (Reliable b (w_net w)) w)
  | DoLongReordering b => Some (set_net (LongReordering b (w_net w)) w)
  | DoLongDelays b => Some (set_net (LongDelays b (w_net w)) w)
  | DoCleanup => rn ← Cleanup (w_net w); Some (set_net rn w)
  | NetStop => net_stop w
  | DoMakeEnd e => rn ← MakeEnd e (w_net w); Some (set_net rn w)
  | DoAddServer s p => Some (set_net (AddServer s p (w_net w)) w)
  | DoDeleteServer s => Some (set_net (DeleteServer s (w_net w)) w)
  | DoConnect e s => Some (set_net (Connect e s (w_net w)) w)
  | DoEnable e b => Some (set_net (Enable e b (w_net w)) w)
  | DoCall e m args => Some (Call_start e m args w)
  | CReceive c => k ← w_calls w !! c; match c_phase k with Sending => net_receive c k w | _ => None end
  | CDone c => k ← w_calls w !! c; match c_phase k with Sending => Call_done c k w | _ => None end
  | CRead c => k ← w_calls w !! c; match c_phase k with Queued => Some (process_read c k w) | _ => None end
  | CBegin c drop =>
      k ← w_calls w !! c; match c_phase k with Accepted rt => Some (process_start drop c k rt w) | _ => None end
  | CHandle c =>
      k ← w_calls w !! c;
      match c_handler k with HRunning rt => run_handler c k rt w | _ => None end
  | CPoll c => k ← w_calls w !! c; match c_phase k with Serving rt => Some (process_poll c k rt w) | _ => None end
  | CTake c =>
      k ← w_calls w !! c;
      match c_phase k, c_handler k with
      | Serving rt, HReplied rep => Some (process_receive c k rt rep w)
      | _, _ => None
      end
  | CDrain c =>
      k ← w_calls w !! c;
      match c_phase k, c_handler k with
      | Serving _, _ => None
      | _, HReplied _ => Some (drain c k w)
      | _, _ => None
      end
  | CFinish c drop delay =>
      k ← w_calls w !! c;
      match c_phase k with Served rt reply => Some (process_finish drop delay c k rt reply w) | _ => None end
  | CTimer c => k ← w_calls w !! c; match c_phase k with Delayed rep => Some (send_reply c k rep w) | _ => None end
  | CReturn c => k ← w_calls w !! c; match c_phase k with Answered rep => Call_return c k rep w | _ => None end
  end.

Fixpoint net_run (acts : list action) (w : NetWorld) : option NetWorld :=
  match acts with [] => Some w | a :: acts => w' ← net_step a w; net_run acts w' end.

(** A network as MakeNetwork leaves it, over any servers and receivers. *)
Definition initial (w : NetWorld) : Prop := w_net w = MakeNetwork ∧ w_running w = true ∧ w_calls w = [] ∧ w_execs w = [].

(** ** What holds in every state *)

Definition exec_call (x : nat * nat * Val * Val) : nat := x.1.1.1.

(** The handler of call [c] ran, and gave this reply. *)
Definition executed (execs : list (nat * nat * Val * Val)) (c : nat) (rep : replyMsg) : Prop :=
  ∃ p arg v, (c, p, arg, v) ∈ execs ∧ rep = mkReplyMsg true (gob_encode v).

Record rpc_ok (execs : list (nat * nat * Val * Val)) (c : nat) (k : RpcCall) : Prop := {
  co_args : ∃ args, c_args k = gob_encode args;
  co_handler :
    match c_handler k with
    | HNone | HRunning _ => c ∉ exec_call <$> execs
    | HReplied rep => executed execs c rep
    | HReceived => True
    end;
  co_phase :
    match c_phase k with
    | Sending | Queued | Accepted _ => c_handler k = HNone
    | Serving rt => match c_handler k with HRunning rt' => rt' = rt | HReplied _ => True | _ => False end
    | Served rt (Some rep) => executed execs c rep
    | Served rt None => True
    | Delayed rep => executed execs c rep
    | Answered rep => rep_ok rep = true → executed execs c rep
    | Returned (Some v) => ∃ p arg, (c, p, arg, v) ∈ execs
    | Returned None => True
    end
}.

Record net_inv (w : NetWorld) : Prop := {
  ni_calls : ∀ c k, w_calls w !! c = Some k → rpc_ok (w_execs w) c k;
  ni_once : NoDup (exec_call <$> w_execs w);
  ni_args : ∀ c p arg v, (c, p, arg, v) ∈ w_execs w →
    ∃ k, w_calls w !! c = Some k ∧ c_args k = gob_encode arg
}.

Lemma rpc_set_net rn w : net_inv w → net_inv (set_net rn w).
Proof. by intros []. Qed.

Lemma rpc_set_call c k0 k w :
  net_inv w → w_calls w !! c = Some k0 → c_args k = c_args k0 → rpc_ok (w_execs w) c k →
  net_inv (set_call c k w).
Proof.
  intros [Hc Ho Ha] Hk Hargs Hok. pose proof (lookup_lt_Some _ _ _ Hk). split; simpl; [|done|].
  - intros c' k' Hk'. destruct (decide (c' = c)) as [->|Hne].
    + rewrite list_lookup_insert_eq in Hk' by done. by simplify_eq.
    + rewrite list_lookup_insert_ne in Hk' by done. by apply Hc.
  - intros c' p arg v Hin. destruct (Ha c' p arg v Hin) as (k' & Hk' & Hk'a). destruct (decide (c' = c)) as [->|Hne].
    + exists k. rewrite list_lookup_insert_eq by done. split; [done|]. congruence.
    + exists k'. by rewrite list_lookup_insert_ne.
Qed.

Lemma rpc_start e m args w : net_inv w → net_inv (Call_start e m args w).
Proof.
  intros [Hc Ho Ha]. split; simpl; [|done|].
  - intros c k [Hk|[Hl Hk]]%lookup_app_Some; [by apply Hc|].
    apply list_lookup_singleton_Some in Hk as [Hk <-]. split; simpl; [eauto| |done].
    intros ([[[c' p] arg] v] & -> & Hin)%list_elem_of_fmap. unfold exec_call in *. simpl in *.
    destruct (Ha c' p arg v Hin) as (k & Hk' & _). apply lookup_lt_Some in Hk'. lia.
  - intros c p arg v Hin. destruct (Ha c p arg v Hin) as (k & Hk & ?). exists k.
    split; [by apply lookup_app_l_Some|done].
Qed.

(** More executions keep what is known of a call. *)
Lemma rpc_ok_grow execs x c k :
  exec_call x ≠ c → rpc_ok execs c k → rpc_ok (execs ++ [x]) c k.
Proof.
  intros Hne [Ha Hh Hp]. assert (∀ rep, executed execs c rep → executed (execs ++ [x]) c rep) as Hex.
  { intros rep (p & arg & v & Hin & ->). exists p, arg, v. split; [set_solver|done]. }
  split; [done| |].
  - destruct (c_handler k); auto; rewrite fmap_app; set_solver.
  - destruct (c_phase k) as [| | | |? []| | |[]]; auto. destruct Hp as (p & arg & Hin). exists p, arg. set_solver.
Qed.

Lemma dispatch_spec m args rs objects rs' objects' arg reply rep a :
  Server_dispatch m args rs objects = Some (rs', objects', arg, reply, rep) → args = gob_encode a →
  arg = a ∧ rep = mkReplyMsg true (gob_encode reply).
Proof.
  unfold Server_dispatch, Service_dispatch. intros Hd ->. go_inv.
  destruct x as [sn mn]. go_inv. destruct x0 as [[[? ?] ?] ?]. go_inv.
  destruct (m_Func _ _ _). rewrite gob_roundtrip in *. simpl in *. by simplify_eq.
Qed.

Lemma executed_grow execs x c rep : executed execs c rep → executed (execs ++ [x]) c rep.
Proof. intros (p & arg & v & Hin & ->). exists p, arg, v. split; [set_solver|done]. Qed.

Lemma rpc_handler c k rt w w' :
  net_inv w → w_calls w !! c = Some k → c_handler k = HRunning rt → run_handler c k rt w = Some w' → net_inv w'.
Proof.
  intros [Hc Ho Ha] Hk Hh Hr. destruct (Hc c k Hk) as [[a Hargs] Hhk Hp]. rewrite Hh in Hhk, Hp.
  apply bind_Some in Hr as (rs & _ & Hr).
  apply bind_Some in Hr as ([[[[rs' objects'] arg] reply] rep] & Hd & [= <-]).
  destruct (dispatch_spec _ _ _ _ _ _ _ _ _ a Hd Hargs) as [-> ->].
  pose proof (lookup_lt_Some _ _ _ Hk) as Hlt. split; simpl.
  - intros c' k' Hk'. destruct (decide (c' = c)) as [->|Hne].
    + rewrite list_lookup_insert_eq in Hk' by done. simplify_eq. split; simpl; [eauto| |].
      * exists (rt_server rt), a, reply. split; [set_solver|done].
      * destruct (c_phase k) as [| | | |? []| | |[]]; auto using executed_grow; try done.
        destruct Hp as (p & arg & ?). exists p, arg. set_solver.
    + rewrite list_lookup_insert_ne in Hk' by done. apply rpc_ok_grow; [done|by apply Hc].
  - rewrite fmap_app. simpl. rewrite <- Permutation_cons_append. by apply NoDup_cons_2.
  - intros c' p arg v [Hin|Hin%list_elem_of_singleton]%elem_of_app.
    + destruct (Ha c' p arg v Hin) as (k' & Hk' & ?). destruct (decide (c' = c)) as [->|Hne].
      * simplify_eq. eexists. rewrite list_lookup_insert_eq by done. done.
      * exists k'. by rewrite list_lookup_insert_ne.
    + injection Hin as -> -> -> ->. eexists. rewrite list_lookup_insert_eq by done. done.
Qed.

(** The steps of one call that only move its phase. *)
Lemma rpc_phase c k p w :
  net_inv w → w_calls w !! c = Some k → rpc_ok (w_execs w) c (with_phase p k) →
  net_inv (set_call c (with_phase p k) w).
Proof. intros. by eapply rpc_set_call. Qed.

Lemma rpc_stop w w' : net_inv w → net_stop w = Some w' → net_inv w'.
Proof. unfold net_stop. destruct (_ && _); intros [] Hs; by simplify_eq. Qed.

Lemma rpc_step a w w' : net_inv w → net_step a w = Some w' → net_inv w'.
Proof.
  intros Hi. assert (∀ c k p, w_calls w !! c = Some k → rpc_ok (w_execs w) c (with_phase p k) →
    net_inv (set_call c (with_phase p k) w)) as Hph by (intros; by apply rpc_phase).
  destruct a as [| | | | | | | | | | |c|c|c|c drop|c|c|c|c|c drop delay|c|c]; simpl; intros Hs; go_inv;
    try (by apply rpc_set_net); try (by apply rpc_start); try (by eapply rpc_stop).
  all: match goal with H1 : w_calls _ !! _ = Some ?x, H2 : _ = Some ?w2 |- net_inv ?w2 =>
         rename x into k, H1 into Hk, H2 into Hs end; destruct (ni_calls _ Hi _ _ Hk) as [Hargs Hh Hp].
  - destruct (c_phase k) eqn:E; try done. unfold net_receive in Hs. destruct (w_running _); [|done]. go_inv.
    eapply (rpc_set_call c k); [by apply rpc_set_net|done|done|]. by split.
  - destruct (c_phase k) eqn:E; try done. unfold Call_done in Hs. destruct (net_done _); [|done]. go_inv.
    apply Hph; [done|]. by split.
  - destruct (c_phase k) eqn:E; try done. injection Hs as <-. unfold process_read.
    destruct (readEndnameInfo _ _) as [[[[[] [sn|]] [p|]] rel] lr]; apply Hph; try done; by split.
  - destruct (c_phase k) as [| |rt| | | | |] eqn:E; try done. injection Hs as <-. unfold process_start.
    destruct (_ && _); [apply Hph; [done|]; by split|]. rewrite Hp in Hh. eapply rpc_set_call; try done; by split.
  - destruct (c_handler k) as [|rt| |] eqn:E; try done. by eapply rpc_handler.
  - destruct (c_phase k) as [| | |rt| | | |] eqn:E; try done. injection Hs as <-. unfold process_poll.
    destruct (isServerDead _ _ _ _); [|done]. apply Hph; [done|]. by split.
  - destruct (c_phase k) as [| | |rt| | | |] eqn:E; try done. destruct (c_handler k) eqn:Eh; try done.
    injection Hs as <-. eapply rpc_set_call; try done; by split.
  - assert (rpc_ok (w_execs w) c (with_handler HReceived k) → net_inv w') as Hd.
    { intros Hok. assert (w' = drain c k w) as -> by (destruct (c_phase k), (c_handler k); congruence).
      by eapply rpc_set_call. }
    apply Hd. split; [done|done|]. simpl. destruct (c_phase k), (c_handler k); done.
  - destruct (c_phase k) as [| | | |rt reply| | |] eqn:E; try done. injection Hs as <-. unfold process_finish.
    destruct reply as [rep|]; [|apply Hph; [done|]; by split].
    destruct (isServerDead _ _ _ _); [apply Hph; [done|]; by split|].
    destruct (_ && _); [apply Hph; [done|]; by split|]. destruct (_ && _); [apply Hph; [done|]; by split|].
    eapply (rpc_set_call c k); [by apply rpc_set_net|done|done|]. split; simpl; auto.
  - destruct (c_phase k) as [| | | | |rep| |] eqn:E; try done. injection Hs as <-.
    eapply (rpc_set_call c k); [by apply rpc_set_net|done|done|]. split; simpl; auto.
  - destruct (c_phase k) as [| | | | | |rep|] eqn:E; try done. unfold Call_return in Hs.
    destruct (rep_ok rep) eqn:Er; go_inv; (apply Hph; [done|]); (split; [done|done|]); simpl; [|done].
    destruct (Hp eq_refl) as (p & arg & v & Hin & ->). simpl in *. rewrite gob_roundtrip in *. simplify_eq. eauto.
Qed.

Lemma rpc_initial w : initial w → net_inv w.
Proof.
  intros (_ & _ & Hc & He). split; rewrite ?Hc, ?He; simpl; [done|constructor|set_solver].
Qed.

Lemma rpc_run acts w w' : net_inv w → net_run acts w = Some w' → net_inv w'.
Proof.
  revert w. induction acts as [|a acts IH]; intros w Hi Hr; simpl in Hr; [by simplify_eq|].
  apply bind_Some in Hr as (w1 & Hs & Hr). eapply IH; [by eapply rpc_step|done].
Qed.

(** ** Every goroutine of a call ends *)

Definition acts_on (c : nat) (a : action) : Prop :=
  match a with
  | CReceive c' | CDone c' | CRead c' | CBegin c' _ | CHandle c' | CPoll c' | CTake c' | CDrain c'
  | CFinish c' _ _ | CTimer c' | CReturn c' => c' = c
  | _ => False
  end.

(** What is left of the call: of Call and processReq, and of the handler's goroutine. *)
Definition phase_rank (p : CallPhase) : nat :=
  match p with
  | Sending => 9 | Queued => 8 | Accepted _ => 7 | Serving _ => 4 | Served _ _ => 3
  | Delayed _ => 2 | Answered _ => 1 | Returned _ => 0
  end.

Definition handler_rank (h : HandlerState) : nat :=
  match h with HRunning _ => 2 | HReplied _ => 1 | HNone | HReceived => 0 end.

Definition rank (k : RpcCall) : nat := phase_rank (c_phase k) + handler_rank (c_handler k).

(** The handler's method is known and its receiver exists. *)
Definition can_serve (w : NetWorld) (k : RpcCall) (p : nat) : Prop :=
  ∃ rs, w_servers w !! p = Some rs ∧ is_Some (Server_dispatch (c_svcMeth k) (c_args k) rs (w_objects w)).

Lemma lookup_set_call c k0 k w : w_calls w !! c = Some k0 → w_calls (set_call c k w) !! c = Some k.
Proof. intros Hk. apply list_lookup_insert_eq. by eapply lookup_lt_Some. Qed.

(** What a step does to a call: nothing, or its own goroutines change it. *)
Lemma step_calls a w w' c k :
  net_step a w = Some w' → w_calls w !! c = Some k →
  w_calls w' !! c = Some k ∨ (acts_on c a ∧ ∃ k', w_calls w' = <[c := k']> (w_calls w)).
Proof.
  intros Hs Hk. assert (∀ c' k', acts_on c' a → w_calls w' = <[c' := k']> (w_calls w) →
    w_calls w' !! c = Some k ∨ (acts_on c a ∧ ∃ k', w_calls w' = <[c := k']> (w_calls w))) as Hcase.
  { intros c' k' Ha E. destruct (decide (c' = c)) as [->|Hne]; [by eauto|left; rewrite E].
    by rewrite list_lookup_insert_ne. }
  destruct a; simpl in Hs; go_inv; try (by left); try (left; by apply lookup_app_l_Some).
  all: unfold net_stop, net_receive, Call_done, process_read, process_start, process_poll, process_receive,
         process_finish, drain, send_reply, Call_return, run_handler in *; case_all; go_inv; case_all; go_inv; try (by left);
         (eapply Hcase; [reflexivity|simpl; reflexivity]).
Qed.

(** The call's own steps change nothing of it (the poll of a live server) or lower its rank. *)
Lemma own_step_rank a w w' c k k' :
  net_step a w = Some w' → acts_on c a → w_calls w !! c = Some k → w_calls w' !! c = Some k' →
  k' = k ∨ rank k' < rank k.
Proof.
  intros Hs Ha Hk Hk'. assert (∀ k1, <[c := k1]> (w_calls w) !! c = Some k' → k' = k1) as Hins.
  { intros k1 H1. rewrite list_lookup_insert_eq in H1 by (by eapply lookup_lt_Some). by simplify_eq. }
  destruct a; simpl in Ha; try done; subst; simpl in Hs; rewrite Hk in Hs; simpl in Hs.
  all: unfold rank, net_receive, Call_done, process_read, process_start, process_poll, process_receive,
         process_finish, drain, send_reply, Call_return, run_handler in *.
  all: destruct (c_phase k) eqn:Ep, (c_handler k) eqn:Eh; go_inv; case_all; go_inv; case_all; go_inv.
  all: first [by left; congruence | apply Hins in Hk' as ->; simpl; rewrite ?Ep, ?Eh; simpl; right; lia].
Qed.

Lemma step_rank a w w' c k :
  net_step a w = Some w' → w_calls w !! c = Some k →
  ∃ k', w_calls w' !! c = Some k' ∧ (k' = k ∨ rank k' < rank k).
Proof.
  intros Hs Hk. destruct (step_calls _ _ _ c k Hs Hk) as [Hk'|[Ha [k' E]]]; [eauto|].
  assert (w_calls w' !! c = Some k') as Hk' by (rewrite E; apply list_lookup_insert_eq; by eapply lookup_lt_Some).
  exists k'. split; [done|by eapply own_step_rank].
Qed.

(** The goroutine of MakeNetwork stops only after Cleanup. *)
Definition running_ok (w : NetWorld) : Prop := w_running w = false → net_done (w_net w) = true.

Lemma step_running a w w' : running_ok w → net_step a w = Some w' → running_ok w'.
Proof.
  intros Hr Hs. unfold running_ok in *. destruct a; simpl in Hs; go_inv; try done.
  all: unfold net_stop, Cleanup, MakeEnd, net_receive, Call_done, process_read, process_start, process_poll, process_receive,
         process_finish, drain, send_reply, Call_return, run_handler in *; case_all; go_inv; case_all; go_inv; try done.
  all: simpl; destruct (w_running w), (net_done (w_net w)); naive_solver.
Qed.

Lemma run_running acts w w' : running_ok w → net_run acts w = Some w' → running_ok w'.
Proof.
  revert w. induction acts as [|a acts IH]; intros w Hi Hr; simpl in Hr; [by simplify_eq|].
  apply bind_Some in Hr as (w1 & Hs & Hr). eapply IH; [by eapply step_running|done].
Qed.

(** A step of the call's goroutines that is enabled. *)
Definition own_action (w : NetWorld) (c : nat) (k : RpcCall) : action :=
  match c_phase k, c_handler k with
  | Sending, _ => if w_running w then CReceive c else CDone c
  | Queued, _ => CRead c
  | Accepted _, _ => CBegin c false
  | Serving _, HReplied _ => CTake c
  | Serving _, _ => CHandle c
  | Served _ _, _ => CFinish c false false
  | Delayed _, _ => CTimer c
  | Answered _, _ => CReturn c
  | Returned _, HReplied _ => CDrain c
  | Returned _, _ => CHandle c
  end.

Lemma run_handler_enabled w c k rt :
  can_serve w k (rt_server rt) → is_Some (run_handler c k rt w).
Proof.
  intros (rs & Hrs & [[[[[rs' objs] arg] reply] rep] Hd]). unfold run_handler. rewrite Hrs. simpl. rewrite Hd. by eexists.
Qed.

Lemma own_action_enabled w c k :
  net_inv w → running_ok w → w_calls w !! c = Some k → rank k ≠ 0 →
  (∀ rt, c_handler k = HRunning rt → can_serve w k (rt_server rt)) →
  is_Some (net_step (own_action w c k) w).
Proof.
  intros Hi Hrun Hk Hrank Hcs. destruct (ni_calls _ Hi c k Hk) as [_ _ Hok].
  unfold own_action, rank in *. destruct (c_phase k) as [| |rt|rt|rt reply|rep|rep|r] eqn:Hp.
  - destruct (w_running w) eqn:Er; simpl; rewrite Hk; simpl; rewrite Hp; unfold net_receive, Call_done.
    + rewrite Er. by eexists.
    + rewrite Hrun by done. by eexists.
  - simpl. rewrite Hk. simpl. rewrite Hp. by eexists.
  - simpl. rewrite Hk. simpl. rewrite Hp. by eexists.
  - destruct (c_handler k) as [|rt'|rep|] eqn:Hh; try done; simpl; rewrite Hk; simpl; rewrite ?Hp, Hh; [|by eexists].
    by apply run_handler_enabled, Hcs.
  - simpl. rewrite Hk. simpl. rewrite Hp. by eexists.
  - simpl. rewrite Hk. simpl. rewrite Hp. by eexists.
  - simpl. rewrite Hk. simpl. rewrite Hp. unfold Call_return. destruct (rep_ok rep); [|by eexists].
    destruct (Hok eq_refl) as (p & arg & v & _ & ->). simpl. rewrite gob_roundtrip. by eexists.
  - destruct (c_handler k) as [|rt'|rep|] eqn:Hh; try done; simpl; rewrite Hk; simpl; rewrite ?Hp, Hh; [|by eexists].
    by apply run_handler_enabled, Hcs.
Qed.

Lemma own_action_acts w c k : acts_on c (own_action w c k).
Proof. unfold own_action. by destruct (c_phase k), (c_handler k), (w_running w). Qed.

(** The chosen step is never an idle poll. *)
Lemma own_action_changes w w' c k k' :
  net_inv w → w_calls w !! c = Some k → net_step (own_action w c k) w = Some w' → w_calls w' !! c = Some k' → k' ≠ k.
Proof.
  intros Hi Hk Hs Hk' ->. destruct (ni_calls _ Hi c k Hk) as [_ _ Hok].
  assert (∀ k1, <[c := k1]> (w_calls w) !! c = Some k → k = k1) as Hins.
  { intros k1 H1. rewrite list_lookup_insert_eq in H1 by (by eapply lookup_lt_Some). by simplify_eq. }
  unfold own_action in Hs. destruct (c_phase k) eqn:Hp, (c_handler k) eqn:Hh, (w_running w) eqn:Er;
    simpl in Hs; rewrite Hk in Hs; simpl in Hs; rewrite ?Hp, ?Hh in Hs; try done.
  all: unfold net_receive, Call_done, process_read, process_start, process_receive,
         process_finish, drain, send_reply, Call_return, run_handler in *.
  all: go_inv; case_all; go_inv; case_all; go_inv.
  all: apply Hins in Hk'; apply (f_equal (λ x, (c_phase x, c_handler x))) in Hk'; simpl in Hk'; congruence.
Qed.

(** C30. Every call ends: in any state of an execution of the network (lossy,
    delayed, reconfigured or shut down), no step of anyone undoes progress of
    a call, a step of its own goroutines that makes progress is enabled until
    nothing is left of it (its handler, when started, being one that its server
    can run), at most nine such steps are left, and then Call has returned
    and the goroutines of processReq and of the handler have ended. *)
Theorem Call_ends w0 acts w c k :
  initial w0 → net_run acts w0 = Some w → w_calls w !! c = Some k →
  (∀ rt, c_handler k = HRunning rt → can_serve w k (rt_server rt)) →
  (∀ a w', net_step a w = Some w' → ∃ k', w_calls w' !! c = Some k' ∧ (k' = k ∨ rank k' < rank k)) ∧
  (rank k ≠ 0 → ∃ a w' k', acts_on c a ∧ net_step a w = Some w' ∧ w_calls w' !! c = Some k' ∧ rank k' < rank k) ∧
  rank k ≤ 9 ∧
  (rank k = 0 → (∃ r, c_phase k = Returned r) ∧ (c_handler k = HNone ∨ c_handler k = HReceived)).
Proof.
  intros Hi Hr Hk Hcs. pose proof (rpc_run _ _ _ (rpc_initial _ Hi) Hr) as Hw.
  assert (running_ok w) as Hrun by (eapply run_running; [|done]; destruct Hi as (_ & E & _); by unfold running_ok; rewrite E).
  destruct (ni_calls _ Hw c k Hk) as [_ _ Hok]. split_and!.
  - intros a w' Hs. by eapply step_rank.
  - intros Hne. destruct (own_action_enabled w c k Hw Hrun Hk Hne Hcs) as [w' Hs].
    destruct (step_rank _ _ _ _ _ Hs Hk) as (k' & Hk' & Hle). exists (own_action w c k), w', k'.
    pose proof (own_action_changes _ _ _ _ _ Hw Hk Hs Hk'). split_and!; [apply own_action_acts|done..|by destruct Hle].
  - unfold rank. destruct (c_phase k) eqn:Ep, (c_handler k); simpl in *; try done; lia.
  - unfold rank. destruct (c_phase k) eqn:Ep, (c_handler k); simpl in *; intros; try lia; eauto.
Qed.

(** C31. At most one execution per call, and exactly one for a call that
    returned true: the handler got the caller's argument and gave the reply
    that Call returned. *)
Theorem Call_executes_once w0 acts w c k :
  initial w0 → net_run acts w0 = Some w → w_calls w !! c = Some k →
  length (filter (λ x, exec_call x = c) (w_execs w)) ≤ 1 ∧
  ∀ v, c_phase k = Returned (Some v) →
    ∃ p arg, filter (λ x, exec_call x = c) (w_execs w) = [(c, p, arg, v)] ∧ c_args k = gob_encode arg.
Proof.
  intros Hi%rpc_initial Hr Hk. pose proof (rpc_run _ _ _ Hi Hr) as [Hc Ho Ha].
  assert (length (filter (λ x, exec_call x = c) (w_execs w)) ≤ 1) as Hlen.
  { destruct (filter _ _) as [|x [|y l]] eqn:E; simpl; [lia..|].
    assert (NoDup (exec_call <$> filter (λ x, exec_call x = c) (w_execs w))) as Hnd
      by (eapply sublist_NoDup; [done|apply fmap_sublist, sublist_filter]).
    rewrite E in Hnd. simpl in Hnd. apply list.NoDup_cons in Hnd as [Hx _].
    assert (∀ z, z ∈ x :: y :: l → exec_call z = c) as Hz by (intros z; rewrite <- E, list_elem_of_filter; tauto).
    rewrite (Hz x), (Hz y) in Hx by set_solver. set_solver. }
  split; [done|]. intros v Hp. destruct (Hc c k Hk) as [_ _ Hok]. rewrite Hp in Hok. destruct Hok as (p & arg & Hin).
  exists p, arg. destruct (Ha c p arg v Hin) as (k' & Hk' & Hargs). simplify_eq. split; [|done].
  assert ((c, p, arg, v) ∈ filter (λ x, exec_call x = c) (w_execs w)) as Hf by by apply list_elem_of_filter.
  destruct (filter _ _) as [|x [|y l]]; simpl in *; [set_solver| |lia]. apply list_elem_of_singleton in Hf. by subst.
Qed.

(** ** Deleted servers do not answer *)

(** The call is bound to server [p] under the name [s], or has failed. *)
Definition bound_or_failed (s : SN) (p : nat) (k : RpcCall) : Prop :=
  match c_phase k with
  | Accepted rt | Serving rt | Served rt _ => rt_name rt = s ∧ rt_server rt = p
  | Answered rep => rep_ok rep = false
  | Returned r => r = None
  | _ => False
  end.

Definition adds (s : SN) (a : action) : Prop := match a with DoAddServer s' _ => s' = s | _ => False end.

(** Only AddServer puts a server under a name. *)
Lemma step_server_at a w w' s p :
  net_step a w = Some w' → ¬ adds s a → server_at (w_net w) s ≠ Some p → server_at (w_net w') s ≠ Some p.
Proof.
  intros Hs Ha Hn. destruct a; simpl in Hs, Ha; go_inv; try done.
  all: try (unfold net_stop, net_receive, Call_done, process_read, process_start, process_poll, process_receive, process_finish, drain, send_reply,
         Call_return, run_handler in *; case_all; go_inv; case_all; by go_inv).
  - unfold Cleanup in *. case_all. by go_inv.
  - unfold MakeEnd in *. case_all. by go_inv.
  - unfold server_at. simpl. by rewrite lookup_insert_ne.
  - unfold server_at. simpl. destruct (decide (s0 = s)) as [->|]; [by rewrite lookup_insert_eq|by rewrite lookup_insert_ne].
Qed.

Lemma dead_server e s p rn : server_at rn s ≠ Some p → isServerDead e s p rn = true.
Proof. intros Hn. unfold isServerDead. rewrite bool_decide_false by done. by rewrite orb_true_r. Qed.

Lemma step_bound a w w' c k k' s p :
  net_step a w = Some w' → acts_on c a → w_calls w !! c = Some k → w_calls w' !! c = Some k' →
  server_at (w_net w) s ≠ Some p → bound_or_failed s p k → bound_or_failed s p k'.
Proof.
  intros Hs Ha Hk Hk' Hn Hb. assert (∀ k1, <[c := k1]> (w_calls w) !! c = Some k' → k' = k1) as Hins.
  { intros k1 H1. rewrite list_lookup_insert_eq in H1 by (by eapply lookup_lt_Some). by simplify_eq. }
  destruct a; simpl in Ha; try done; subst; simpl in Hs; rewrite Hk in Hs; simpl in Hs.
  - unfold bound_or_failed in Hb. by destruct (c_phase k).
  - unfold bound_or_failed in Hb. by destruct (c_phase k).
  - unfold bound_or_failed in Hb. by destruct (c_phase k).
  - unfold bound_or_failed in Hb. destruct (c_phase k) as [| |rt| | | | |]; try done. injection Hs as <-.
    unfold process_start in Hk'. destruct (_ && _); apply Hins in Hk' as ->; done.
  - destruct (c_handler k) as [|rt| |]; try done. apply bind_Some in Hs as (rs & _ & Hs).
    apply bind_Some in Hs as ([[[[rs' objects'] arg] reply] rep] & _ & [= <-]). by apply Hins in Hk' as ->.
  - unfold bound_or_failed in Hb. destruct (c_phase k) as [| | |rt| | | |] eqn:Hp; try done. injection Hs as <-.
    destruct Hb as [Hb1 Hb2]. unfold process_poll in Hk'. rewrite Hb1, Hb2, dead_server in Hk' by done.
    by apply Hins in Hk' as ->.
  - unfold bound_or_failed in Hb. destruct (c_phase k) as [| | |rt| | | |] eqn:Hp; try done.
    destruct (c_handler k); try done. injection Hs as <-. by apply Hins in Hk' as ->.
  - assert (w' = drain c k w) as -> by (destruct (c_phase k), (c_handler k); congruence). by apply Hins in Hk' as ->.
  - unfold bound_or_failed in Hb. destruct (c_phase k) as [| | | |rt reply| | |] eqn:Hp; try done. injection Hs as <-.
    destruct Hb as [Hb1 Hb2]. unfold process_finish in Hk'. rewrite Hb1, Hb2, dead_server in Hk' by done.
    destruct reply; by apply Hins in Hk' as ->.
  - unfold bound_or_failed in Hb. by destruct (c_phase k).
  - unfold bound_or_failed in Hb. destruct (c_phase k) as [| | | | | |rep|] eqn:Hp; try done.
    unfold Call_return in Hs. rewrite Hb in Hs. injection Hs as <-. by apply Hins in Hk' as ->.
Qed.

(** A deleted server never answers: once DeleteServer has taken away the
    server that a call was routed to, and nothing is added under its name
    again, the call cannot return true, even if the handler still runs and
    finishes afterwards. *)
Theorem deleted_never_answers acts w w' c k k' rt v :
  net_run acts w = Some w' → w_calls w !! c = Some k →
  (c_phase k = Accepted rt ∨ c_phase k = Serving rt ∨ ∃ reply, c_phase k = Served rt reply) →
  server_at (w_net w) (rt_name rt) = None → Forall (λ a, ¬ adds (rt_name rt) a) acts →
  w_calls w' !! c = Some k' → c_phase k' ≠ Returned (Some v).
Proof.
  intros Hr Hk Hp Hs Hadd Hk'.
  assert (bound_or_failed (rt_name rt) (rt_server rt) k) as Hb
    by (unfold bound_or_failed; by destruct Hp as [->|[->|[? ->]]]).
  assert (server_at (w_net w) (rt_name rt) ≠ Some (rt_server rt)) as Hn by congruence. clear Hp Hs.
  revert w k Hr Hk Hb Hn. induction Hadd as [|a acts Ha _ IH]; intros w k Hr Hk Hb Hn; simpl in Hr.
  - simplify_eq. intros Hp. unfold bound_or_failed in Hb. by rewrite Hp in Hb.
  - apply bind_Some in Hr as (w1 & Hs & Hr). pose proof (step_server_at _ _ _ _ _ Hs Ha Hn) as Hn1.
    destruct (step_calls _ _ _ c k Hs Hk) as [Hk1|[Hac [k1 E]]]; [by eapply IH|].
    assert (w_calls w1 !! c = Some k1) as Hk1 by (rewrite E; apply list_lookup_insert_eq; by eapply lookup_lt_Some).
    apply (IH w1 k1 Hr Hk1); [|done]. by eapply (step_bound a w).
Qed.
End labrpc.

(** ** A counter behind the network *)

Definition counter_server : Server (Val := Z) (Rcvr := Z) :=
  AddService (MakeService "Counter" 0
    [mkMethod "Add" "" 3 true 0 (λ s x, (s + x, s + x))%Z; mkMethod "internal" "counter" 3 true 0 (λ s x, (s, x))])
    MakeServer.

Definition counter_world : NetWorld (EN := string) (SN := Z) (Val := Z) (Rcvr := Z) :=
  mkNetWorld MakeNetwork true [counter_server] [10%Z] [] [].

(** One end connected to the server, and a call up to its handler. *)
Definition counter_setup : list (action (EN := string) (SN := Z) (Val := Z)) :=
  [DoMakeEnd "client"; DoConnect "client" 7%Z; DoEnable "client" true; DoAddServer 7%Z 0; DoReliable false;
   DoCall "client" "Counter.Add" 5%Z; CReceive 0; CRead 0; CBegin 0 false].

Definition counter_finish : list (action (EN := string) (SN := Z) (Val := Z)) :=
  [CHandle 0; CTake 0; CFinish 0 false false; CReturn 0].

Definition counter_route : Route := mkRoute 7%Z 0 false false.

Definition counter_call (p : CallPhase) (h : HandlerState) : RpcCall (EN := string) (SN := Z) (Val := Z) :=
  mkRpcCall "client" "Counter.Add" (gob_encode 5%Z) p h.

(** The world after some actions. *)
Definition counter_after (acts : list (action (EN := string) (SN := Z) (Val := Z))) : NetWorld (Rcvr := Z) :=
  default counter_world (net_run 0%Z acts counter_world).

Lemma counter_initial : initial counter_world.
Proof. by split_and!. Qed.

Lemma some_true {A} (x : option A) : (match x with Some _ => true | None => false end) = true → is_Some x.
Proof. destruct x; [eauto|done]. Qed.

Lemma counter_runs acts :
  (match net_run 0%Z acts counter_world with Some _ => true | None => false end) = true →
  net_run 0%Z acts counter_world = Some (counter_after acts).
Proof. intros [w E]%some_true. unfold counter_after. by rewrite E. Qed.

Lemma Call_ends_witness :
  let w := counter_after counter_setup in
  let k := counter_call (Serving counter_route) (HRunning counter_route) in
  ∃ a w' k', acts_on 0 a ∧ net_step 0%Z a w = Some w' ∧ w_calls w' !! 0 = Some k' ∧ rank k' < rank k.
Proof.
  apply (Call_ends 0%Z counter_world counter_setup (counter_after counter_setup) 0 _ counter_initial).
  - apply counter_runs. vm_compute. reflexivity.
  - vm_compute. reflexivity.
  - intros rt Hrt. injection Hrt as <-. exists counter_server. split; [vm_compute; reflexivity|].
    apply some_true. vm_compute. reflexivity.
  - discriminate.
Defined.

Lemma Call_executes_once_witness :
  let w := counter_after (counter_setup ++ counter_finish) in
  ∃ p arg, filter (λ x, exec_call x = 0) (w_execs w) = [(0, p, arg, 15%Z)] ∧ gob_encode 5%Z = gob_encode arg.
Proof.
  apply (Call_executes_once 0%Z counter_world (counter_setup ++ counter_finish) (counter_after (counter_setup ++ counter_finish)) 0
    (counter_call (Returned (Some 15%Z)) HReceived) counter_initial).
  - apply counter_runs. vm_compute. reflexivity.
  - vm_compute. reflexivity.
  - reflexivity.
Defined.

(** The server is deleted while the handler runs. *)
Definition counter_delete : list (action (EN := string) (SN := Z) (Val := Z)) := counter_setup ++ [DoDeleteServer 7%Z].

Lemma net_run_app acts1 acts2 (w w1 w2 : NetWorld (EN := string) (SN := Z) (Val := Z) (Rcvr := Z)) :
  net_run 0%Z acts1 w = Some w1 → net_run 0%Z (acts1 ++ acts2) w = Some w2 → net_run 0%Z acts2 w1 = Some w2.
Proof.
  revert w. induction acts1 as [|a acts1 IH]; intros w H1 H2; simpl in *; [by simplify_eq|].
  destruct (net_step 0%Z a w) as [w'|]; simpl in *; [by eapply IH|done].
Qed.

Lemma deleted_never_answers_witness :
  ∃ k', w_calls (counter_after (counter_delete ++ counter_finish)) !! 0 = Some k' ∧ c_phase k' ≠ Returned (Some 15%Z).
Proof.
  exists (counter_call (Returned None) HReceived). split; [vm_compute; reflexivity|].
  apply (deleted_never_answers 0%Z counter_finish (counter_after counter_delete)
    (counter_after (counter_delete ++ counter_finish)) 0
    (counter_call (Serving counter_route) (HRunning counter_route))
    (counter_call (Returned None) HReceived) counter_route 15%Z).
  - apply (net_run_app counter_delete counter_finish counter_world); apply counter_runs; vm_compute; reflexivity.
  - vm_compute. reflexivity.
  - right. left. reflexivity.
  - vm_compute. reflexivity.
  - repeat constructor; by intros [].
  - vm_compute. reflexivity.
Defined.
