(* ===== verification/Cluster.v ===== *)
(** * The cluster runtime (kvraft/runtime/cluster.go)

    [NewCluster] builds [n] key/value servers on one simulated network: every
    server gets one end per peer, called raft-i-to-j, and one labrpc server
    with the services of the key/value server and of its Raft peer.  Servers,
    labrpc servers and HTTP servers are objects with identity; the slices of
    [Cluster] hold their addresses.  The persister in [saved] and the
    persister of the peer are one object, which is in the peer.  The methods
    that reflection finds in the two receivers are arguments, and so are the
    times at which the peers start.  [None] is log.Fatalf or a panic.

    [NewCluster_wired]: nothing is fatal, and a call on end i-to-j reaches
    exactly the services of server j.  [Shutdown_stops] and
    [Shutdown_twice_panics] say what Shutdown does the first and second time. *)

From Stdlib Require Import Ascii.
From stdpp Require Import pretty.
From S2P Require Import Prelude Persister RaftTypes KVServer Labrpc.

(** [fmt.Sprintf("raft-%d-to-%d", i, j)] *)
Definition endname (i j : nat) : string := "raft-" +:+ pretty i +:+ "-to-" +:+ pretty j.

Section cluster.
Context `{!Gob (PersistentState Op)} `{!Gob Machine}.
Context {Val Rcvr : Type} (kvMethods rfMethods : list (Method (Val := Val) (Rcvr := Rcvr))).

(** An HTTP server: its address, and whether it is still open. *)
Record HTTPServer := mkHTTPServer { hs_addr : string; hs_open : bool }.

Record Cluster := mkCluster {
  cl_net : Network (EN := string) (SN := nat);
  cl_n : nat;
  cl_kv : list (option nat);
  cl_http : list (option nat);
  cl_saved : list (option nat);
  cl_names : list (list string);
  cl_httpAddrs : list string;
  obj_kv : list KVServer;
  obj_http : list HTTPServer;
  obj_rpc : list (Server (Val := Val) (Rcvr := Rcvr))
}.

Definition set_cl_net net (c : Cluster) : Cluster :=
  mkCluster net (cl_n c) (cl_kv c) (cl_http c) (cl_saved c) (cl_names c) (cl_httpAddrs c) (obj_kv c) (obj_http c) (obj_rpc c).

(** The loop over [j] of startServer. *)
Fixpoint make_ends (row : list string) (js : list nat) (net : Network (EN := string) (SN := nat)) :
    option (Network (EN := string) (SN := nat)) :=
  match js with
  | [] => Some net
  | j :: js =>
      name ← row !! j;
      net1 ← MakeEnd name net;
      make_ends row js (Connect name j net1)
  end.

(** The receivers of server [k]: address [2k] is the key/value server, [2k+1] its peer. *)
Definition server_of (k : nat) : Server :=
  AddService (MakeService "Raft" (2 * k + 1) rfMethods) (AddService (MakeService "KVServer" (2 * k) kvMethods) MakeServer).

Definition startServer (i : nat) (maxRaftState now : Z) (c : Cluster) : option Cluster :=
  row ← cl_names c !! i;
  net ← make_ends row (seq 0 (cl_n c)) (cl_net c);
  addr ← cl_httpAddrs c !! i;
  let kv := (StartKVServer (Z.of_nat (cl_n c)) (Z.of_nat i) MakePersister maxRaftState now).1 in
  let k := length (obj_kv c) in
  Some (mkCluster (AddServer i (length (obj_rpc c)) net) (cl_n c)
          (<[i := Some k]> (cl_kv c)) (<[i := Some (length (obj_http c))]> (cl_http c)) (<[i := Some k]> (cl_saved c))
          (cl_names c) (cl_httpAddrs c)
          (obj_kv c ++ [kv]) (obj_http c ++ [mkHTTPServer addr true]) (obj_rpc c ++ [server_of k])).

Fixpoint start_servers (ids : list nat) (maxRaftState : Z) (now : nat → Z) (c : Cluster) : option Cluster :=
  match ids with
  | [] => Some c
  | i :: ids => c1 ← startServer i maxRaftState (now i) c; start_servers ids maxRaftState now c1
  end.

(** [c.net.Enable(c.names[i][j], true); c.net.Enable(c.names[j][i], true)] *)
Definition connect_pair (c : Cluster) (ij : nat * nat) : option Cluster :=
  row ← cl_names c !! ij.1; name ← row !! ij.2;
  row' ← cl_names c !! ij.2; name' ← row' !! ij.1;
  Some (set_cl_net (Enable name' true (Enable name true (cl_net c))) c).

Fixpoint connect_pairs (l : list (nat * nat)) (c : Cluster) : option Cluster :=
  match l with [] => Some c | ij :: l => c1 ← connect_pair c ij; connect_pairs l c1 end.

Definition connectAll (c : Cluster) : option Cluster :=
  connect_pairs (i ← seq 0 (cl_n c); pair i <$> seq 0 (cl_n c)) c.

(** An error, or the cluster. *)
Definition NewCluster (n : Z) (httpAddrs : list string) (maxRaftState : Z) (now : nat → Z) : option (string + Cluster) :=
  if negb (zlen httpAddrs =? n)%Z
  then Some (inl ("need " +:+ pretty n +:+ " http addresses, got " +:+ pretty (zlen httpAddrs)))
  else
    let n := Z.to_nat n in
    let names := (λ i, endname i <$> seq 0 n) <$> seq 0 n in
    c ← start_servers (seq 0 n) maxRaftState now
          (mkCluster MakeNetwork n (replicate n None) (replicate n None) (replicate n None) names httpAddrs [] [] []);
    c ← connectAll c;
    Some (inr c).

(** The body of the loop of Shutdown. *)
Definition stop_server (i : nat) (c : Cluster) : option Cluster :=
  h ← cl_http c !! i;
  k ← cl_kv c !! i;
  let https := match h with Some p => alter (λ s, mkHTTPServer (hs_addr s) false) p (obj_http c) | None => obj_http c end in
  let kvs := match k with Some p => alter KVKill p (obj_kv c) | None => obj_kv c end in
  Some (mkCluster (cl_net c) (cl_n c) (<[i := None]> (cl_kv c)) (<[i := None]> (cl_http c)) (cl_saved c) (cl_names c)
          (cl_httpAddrs c) kvs https (obj_rpc c)).

Fixpoint stop_servers (ids : list nat) (c : Cluster) : option Cluster :=
  match ids with [] => Some c | i :: ids => c1 ← stop_server i c; stop_servers ids c1 end.

Definition Shutdown (c : Cluster) : option Cluster :=
  c ← stop_servers (seq 0 (cl_n c)) c;
  net ← Cleanup (cl_net c);
  Some (set_cl_net net c).

(** [c.kv[i]]: nil, or the server *)
Definition KV (i : nat) (c : Cluster) : option (option KVServer) :=
  k ← cl_kv c !! i; match k with None => Some None | Some p => Some <$> obj_kv c !! p end.
End cluster.

(** ** The names of the ends are distinct *)

Fixpoint dash_free (s : string) : Prop :=
  match s with EmptyString => True | String a s => a ≠ "-"%char ∧ dash_free s end.

Lemma pretty_go_dash_free x s : dash_free s → dash_free (pretty_N_go x s).
Proof.
  revert s. induction (N.lt_wf_0 x) as [x _ IH]; intros s Hs.
  assert (x = 0 ∨ 0 < x)%N as [->|Hx] by lia; [by rewrite pretty_N_go_0|].
  rewrite pretty_N_go_step by done. apply IH; [by apply N.div_lt|]. split; [|done].
  unfold pretty_N_char. by repeat case_match.
Qed.

Lemma pretty_dash_free (i : nat) : dash_free (pretty i).
Proof.
  unfold pretty, pretty_nat, pretty, pretty_N. case_decide; [done|]. by apply pretty_go_dash_free.
Qed.

Lemma split_at_dash a b x y :
  dash_free a → dash_free b → a +:+ String "-" x = b +:+ String "-" y → a = b ∧ x = y.
Proof.
  revert b. induction a as [|c a IH]; intros [|d b] Ha Hb E; simpl in *.
  - by injection E.
  - injection E as <- _. by destruct Hb.
  - injection E as -> _. by destruct Ha.
  - injection E as -> E. destruct Ha as [_ Ha], Hb as [_ Hb]. by destruct (IH b Ha Hb E) as [-> ->].
Qed.

Lemma endname_inj i j i' j' : endname i j = endname i' j' → i = i' ∧ j = j'.
Proof.
  unfold endname. intros E. simpl in E. injection E as E.
  apply split_at_dash in E as [Hi Hj]; [|apply pretty_dash_free..].
  injection Hj as Hj. split; by apply (inj pretty).
Qed.

(** ** Starting the servers *)

Section proofs.
Context `{!Gob (PersistentState Op)} `{!Gob Machine}.
Context {Val Rcvr : Type} (kvMethods rfMethods : list (Method (Val := Val) (Rcvr := Rcvr))).
Context (n : nat) (addrs : list string) (Haddrs : length addrs = n) (maxRaftState : Z) (now : nat → Z).

Lemma make_ends_ok i js net :
  NoDup js → (∀ j, j ∈ js → j < n ∧ endname i j ∉ ends net) →
  ∃ net', make_ends (endname i <$> seq 0 n) js net = Some net' ∧
    ends net' = list_to_set (endname i <$> js) ∪ ends net ∧
    (∀ j, j ∈ js → connections net' !! endname i j = Some (Some j)) ∧
    (∀ e, e ∉ endname i <$> js → connections net' !! e = connections net !! e) ∧
    servers net' = servers net ∧ reliable net' = reliable net ∧ longReordering net' = longReordering net ∧
    net_done net' = net_done net.
Proof.
  revert net. induction js as [|j js IH]; intros net Hnd Hj.
  { exists net. split_and!; try done; set_solver. }
  apply list.NoDup_cons in Hnd as [Hnj Hnd]. destruct (Hj j ltac:(set_solver)) as [Hjn Hje].
  cbn [make_ends]. rewrite list_lookup_fmap, lookup_seq_lt by done. cbn [fmap option_fmap option_map mbind option_bind].
  unfold MakeEnd. rewrite bool_decide_false by done. cbn [mbind option_bind].
  assert (∀ j', endname i j' = endname i j → j' = j) as Hinj by (intros j' E; by apply endname_inj in E as [_ ?]).
  match goal with |- context [make_ends _ js ?net1] =>
    destruct (IH net1) as (net' & E & He & Hc & Ho & Hrest); [done| |] end.
  { intros j' Hj'. destruct (Hj j' ltac:(set_solver)) as [? Hn]. split; [done|]. simpl.
    rewrite elem_of_union, elem_of_singleton. intros [E|?]; [|done]. apply Hinj in E as ->. done. }
  exists net'. rewrite E. split; [done|]. split; [rewrite He; set_solver|]. split_and!; try apply Hrest.
  - intros j' [->|Hj']%elem_of_cons; [|by apply Hc]. rewrite Ho; [by apply lookup_insert_eq|].
    intros (j' & E'%eq_sym & Hj')%list_elem_of_fmap. apply Hinj in E' as ->. done.
  - intros e Hne. rewrite fmap_cons, not_elem_of_cons in Hne. destruct Hne as [Hne Hne'].
    rewrite Ho by done. simpl. by rewrite !lookup_insert_ne.
Qed.

(** The cluster after the first [k] servers were started. *)
Record started (k : nat) (c : Cluster (Val := Val) (Rcvr := Rcvr)) : Prop := {
  st_n : cl_n c = n;
  st_names : cl_names c = (λ i, endname i <$> seq 0 n) <$> seq 0 n;
  st_addrs : cl_httpAddrs c = addrs;
  st_ends : ∀ e, e ∈ ends (cl_net c) → ∃ i j, i < k ∧ e = endname i j;
  st_conn : ∀ i j, i < k → j < n → connections (cl_net c) !! endname i j = Some (Some j);
  st_servers : ∀ i, i < k → servers (cl_net c) !! i = Some (Some i);
  st_net : reliable (cl_net c) = true ∧ longReordering (cl_net c) = false ∧ net_done (cl_net c) = false;
  st_len : length (cl_kv c) = n ∧ length (cl_http c) = n;
  st_kv : ∀ i, i < k → cl_kv c !! i = Some (Some i) ∧ cl_http c !! i = Some (Some i);
  st_obj : obj_kv c = (λ i, (StartKVServer (Z.of_nat n) (Z.of_nat i) MakePersister maxRaftState (now i)).1) <$> seq 0 k;
  st_http : obj_http c = (λ a, mkHTTPServer a true) <$> take k addrs;
  st_rpc : obj_rpc c = server_of kvMethods rfMethods <$> seq 0 k
}.

Lemma startServer_ok k c :
  started k c → k < n → ∃ c', startServer kvMethods rfMethods k maxRaftState (now k) c = Some c' ∧ started (S k) c'.
Proof.
  intros [] Hk. destruct (make_ends_ok k (seq 0 n) (cl_net c)) as (net' & E & He & Hc & Ho & Hsv & Hr & Hlr & Hd).
  { apply NoDup_seq. }
  { intros j Hj. split; [apply elem_of_seq in Hj; lia|]. intros (i & j' & Hi & Ee)%st_ends0.
    apply endname_inj in Ee as [-> _]. lia. }
  destruct (lookup_lt_is_Some_2 addrs k) as [a Ha]; [lia|].
  assert (length (obj_kv c) = k ∧ length (obj_http c) = k ∧ length (obj_rpc c) = k) as (Lk & Lh & Lr).
  { rewrite st_obj0, st_http0, st_rpc0, !length_fmap, !length_seq, length_take. lia. }
  eexists. split.
  - unfold startServer. rewrite st_names0, list_lookup_fmap, lookup_seq_lt by done.
    rewrite st_n0. simpl. rewrite E. simpl. rewrite st_addrs0, Ha. done.
  - rewrite Lk, Lh, Lr. destruct st_len0 as [Lkv Lhttp].
    split; cbn [cl_net cl_n cl_kv cl_http cl_saved cl_names cl_httpAddrs obj_kv obj_http obj_rpc AddServer set_servers ends
      connections servers reliable longReordering net_done]; try done; rewrite ?length_insert; try done.
    + rewrite He. intros e [Hin|Hin]%elem_of_union.
      * apply elem_of_list_to_set, list_elem_of_fmap in Hin as (j & -> & _). exists k, j. split; [lia|done].
      * destruct (st_ends0 e Hin) as (i & j & ? & ->). exists i, j. split; [lia|done].
    + intros i j Hi Hj. destruct (decide (i = k)) as [->|Hne]; [apply Hc, elem_of_seq; lia|].
      rewrite Ho; [apply st_conn0; lia|]. intros (j' & Ee & _)%list_elem_of_fmap. apply endname_inj in Ee as [? _]. lia.
    + intros i Hi. destruct (decide (i = k)) as [->|Hne]; [by rewrite lookup_insert_eq|].
      rewrite lookup_insert_ne by done. rewrite Hsv. apply st_servers0. lia.
    + by rewrite Hr, Hlr, Hd.
    + intros i Hi. destruct (decide (i = k)) as [->|Hne]; [by rewrite !list_lookup_insert_eq by lia|].
      rewrite !list_lookup_insert_ne by done. apply st_kv0. lia.
    + by rewrite st_obj0, seq_S, fmap_app.
    + rewrite st_http0. by rewrite (take_S_r _ _ _ Ha), fmap_app.
    + by rewrite st_rpc0, seq_S, fmap_app.
Qed.

Lemma start_servers_ok m k c :
  started k c → k + m ≤ n →
  ∃ c', start_servers kvMethods rfMethods (seq k m) maxRaftState now c = Some c' ∧ started (k + m) c'.
Proof.
  revert k c. induction m as [|m IH]; intros k c Hc Hle; simpl.
  { exists c. by rewrite Nat.add_0_r. }
  destruct (startServer_ok k c Hc) as (c1 & E & Hc1); [lia|]. rewrite E. simpl.
  rewrite <- Nat.add_succ_comm. apply IH; [done|lia].
Qed.

(** ** Connecting them *)

Lemma name_at i j (c : Cluster (Val := Val) (Rcvr := Rcvr)) :
  cl_names c = (λ i, endname i <$> seq 0 n) <$> seq 0 n → i < n → j < n →
  ∃ row, cl_names c !! i = Some row ∧ row !! j = Some (endname i j).
Proof.
  intros -> Hi Hj. exists (endname i <$> seq 0 n). by rewrite !list_lookup_fmap, !lookup_seq_lt by done.
Qed.

Lemma connect_pairs_ok l (c : Cluster (Val := Val) (Rcvr := Rcvr)) :
  cl_names c = (λ i, endname i <$> seq 0 n) <$> seq 0 n → (∀ i j, (i, j) ∈ l → i < n ∧ j < n) →
  ∃ en, connect_pairs l c = Some (set_cl_net (set_enabled en (cl_net c)) c) ∧
    (∀ i j, (i, j) ∈ l → en !! endname i j = Some true) ∧
    (∀ e, enabled (cl_net c) !! e = Some true → en !! e = Some true).
Proof.
  revert c. induction l as [|[i j] l IH]; intros c Hn Hl.
  { exists (enabled (cl_net c)). split_and!; [|set_solver|done]. simpl. by destruct c as [[] ? ? ? ? ? ? ? ? ?]. }
  destruct (Hl i j) as [Hi Hj]; [set_solver|].
  destruct (name_at i j c Hn Hi Hj) as (row & Hr & Hname). destruct (name_at j i c Hn Hj Hi) as (row' & Hr' & Hname').
  cbn [connect_pairs]. unfold connect_pair. cbn [fst snd].
  rewrite Hr, Hr'. cbn [mbind option_bind]. rewrite Hname, Hname'. cbn [mbind option_bind].
  match goal with |- context [connect_pairs l ?c1] => destruct (IH c1) as (en & E & Hin & Hold) end; [done|set_solver|].
  exists en. rewrite E. split; [done|]. simpl in Hold.
  assert (∀ e, e = endname i j ∨ e = endname j i ∨ enabled (cl_net c) !! e = Some true → en !! e = Some true) as Hall.
  { intros e He. apply Hold. destruct (decide (e = endname j i)) as [->|]; [by rewrite lookup_insert_eq|].
    rewrite lookup_insert_ne by done. destruct (decide (e = endname i j)) as [->|]; [by rewrite lookup_insert_eq|].
    rewrite lookup_insert_ne by done. tauto. }
  split; [|auto]. intros i' j' [[= -> ->]|?]%elem_of_cons; auto.
Qed.

Lemma start_state :
  started 0 (mkCluster MakeNetwork n (replicate n None) (replicate n None) (replicate n None)
    ((λ i, endname i <$> seq 0 n) <$> seq 0 n) addrs [] [] []).
Proof. split; simpl; rewrite ?length_replicate; try done; lia. Qed.

(** A cluster as NewCluster leaves it: the servers started, every end enabled. *)
Lemma NewCluster_ok :
  ∃ c, NewCluster kvMethods rfMethods (Z.of_nat n) addrs maxRaftState now = Some (inr c) ∧ started n c ∧
    ∀ i j, i < n → j < n → enabled (cl_net c) !! endname i j = Some true.
Proof.
  unfold NewCluster, zlen. rewrite Haddrs, Z.eqb_refl, Nat2Z.id. cbn [negb].
  destruct (start_servers_ok n 0 _ start_state) as (c & E & Hc); [lia|]. rewrite E. cbn [mbind option_bind]. simpl in Hc.
  destruct (connect_pairs_ok (i ← seq 0 n; pair i <$> seq 0 n) c) as (en & E2 & Hen & _); [apply Hc| |].
  { intros i j (i' & (j' & [= -> ->] & Hj')%list_elem_of_fmap & Hi')%list_elem_of_bind.
    rewrite elem_of_seq in *. lia. }
  eexists. split; [unfold connectAll; rewrite (st_n _ _ Hc), E2; done|]. split.
  - destruct Hc. by split.
  - intros i j Hi Hj. simpl. apply Hen, list_elem_of_bind. exists i. rewrite elem_of_seq, list_elem_of_fmap.
    split; [|lia]. exists j. rewrite elem_of_seq. split; [done|lia].
Qed.
End proofs.

Section theorems.
Context `{!Gob (PersistentState Op)} `{!Gob Machine} {Val Rcvr : Type} `{!Gob Val}.

(** C33. NewCluster wires the cluster.  With one address per server it ends
    without a fatal error; server [i] is a fresh key/value server, and a call
    on the end i-to-j, whatever method and argument, is accepted by the network
    for the labrpc server of server [j], where the services KVServer and Raft
    are those of server [j]. *)
Theorem NewCluster_wired (kvMethods rfMethods : list (Method (Val := Val) (Rcvr := Rcvr))) n addrs maxRaftState now :
  zlen addrs = Z.of_nat n →
  ∃ c, NewCluster kvMethods rfMethods (Z.of_nat n) addrs maxRaftState now = Some (inr c) ∧
    (∀ i, i < n → KV i c = Some (Some (StartKVServer (Z.of_nat n) (Z.of_nat i) MakePersister maxRaftState (now i)).1)) ∧
    (∀ i j (w : NetWorld (Val := Val) (Rcvr := Rcvr)) call k, i < n → j < n → w_net w = cl_net c → c_end k = endname i j →
       process_read call k w = set_call call (with_phase (Accepted (mkRoute j j true false)) k) w) ∧
    (∀ j, j < n → ∃ srv, obj_rpc c !! j = Some srv ∧
       srv_services srv !! "KVServer" = Some (MakeService "KVServer" (2 * j) kvMethods) ∧
       srv_services srv !! "Raft" = Some (MakeService "Raft" (2 * j + 1) rfMethods)).
Proof.
  intros Hlen. assert (length addrs = n) as Haddrs by (unfold zlen in Hlen; lia).
  destruct (NewCluster_ok kvMethods rfMethods n addrs Haddrs maxRaftState now) as (c & E & Hc & Hen).
  exists c. split; [done|]. destruct Hc as [_ _ _ _ Hconn Hsrv Hnet _ Hkv Hobj _ Hrpc]. split_and!.
  - intros i Hi. unfold KV. rewrite (proj1 (Hkv i Hi)). simpl. rewrite Hobj, list_lookup_fmap, lookup_seq_lt by done. done.
  - intros i j w call k Hi Hj Hw Hk. unfold process_read, readEndnameInfo, is_enabled, server_at. rewrite Hw, Hk.
    rewrite Hen, Hconn by done. simpl. rewrite Hsrv by done. simpl. by destruct Hnet as (-> & -> & _).
  - intros j Hj. exists (server_of kvMethods rfMethods j). rewrite Hrpc, list_lookup_fmap, lookup_seq_lt by done.
    split_and!; [done|reflexivity..].
Qed.

(** The cluster while Shutdown has stopped the first [k] servers. *)
Definition stopped (c0 : Cluster (Val := Val) (Rcvr := Rcvr)) (k : nat) (c : Cluster (Val := Val) (Rcvr := Rcvr)) : Prop :=
  cl_net c = cl_net c0 ∧ cl_n c = cl_n c0 ∧
  length (cl_kv c) = length (cl_kv c0) ∧ length (cl_http c) = length (cl_http c0) ∧
  length (obj_kv c) = length (obj_kv c0) ∧ length (obj_http c) = length (obj_http c0) ∧
  (∀ i, cl_kv c !! i = if decide (i < k ∧ i < length (cl_kv c0)) then Some None else cl_kv c0 !! i) ∧
  (∀ i, cl_http c !! i = if decide (i < k ∧ i < length (cl_http c0)) then Some None else cl_http c0 !! i) ∧
  (∀ i, obj_kv c !! i = if decide (i < k) then KVKill <$> obj_kv c0 !! i else obj_kv c0 !! i) ∧
  (∀ i, obj_http c !! i = if decide (i < k) then (λ s, mkHTTPServer (hs_addr s) false) <$> obj_http c0 !! i else obj_http c0 !! i).

Lemma alter_stopped {A} (f : A → A) (l l0 : list A) k :
  (∀ i, l !! i = if decide (i < k) then f <$> l0 !! i else l0 !! i) →
  ∀ i, alter f k l !! i = if decide (i < S k) then f <$> l0 !! i else l0 !! i.
Proof.
  intros Hl i. destruct (decide (i = k)) as [->|Hne].
  - rewrite list_lookup_alter_eq, Hl, decide_False, decide_True by lia. done.
  - rewrite list_lookup_alter_ne, Hl by done. by repeat case_decide; try lia.
Qed.

Lemma insert_stopped {A} (l l0 : list (option A)) k :
  length l = length l0 → k < length l0 →
  (∀ i, l !! i = if decide (i < k ∧ i < length l0) then Some None else l0 !! i) →
  ∀ i, <[k := None]> l !! i = if decide (i < S k ∧ i < length l0) then Some None else l0 !! i.
Proof.
  intros Hlen Hk Hl i. destruct (decide (i = k)) as [->|Hne].
  - rewrite list_lookup_insert_eq, decide_True by lia. done.
  - rewrite list_lookup_insert_ne, Hl by done. by repeat case_decide; try lia.
Qed.

Lemma stop_servers_ok c0 m k c :
  (∀ i, i < k + m → cl_kv c0 !! i = Some (Some i) ∧ cl_http c0 !! i = Some (Some i)) →
  stopped c0 k c → ∃ c', stop_servers (seq k m) c = Some c' ∧ stopped c0 (k + m) c'.
Proof.
  revert k c. induction m as [|m IH]; intros k c Hptr Hc; simpl.
  { exists c. by rewrite Nat.add_0_r. }
  destruct Hc as (Hnet & Hn & Lk & Lh & L1 & L2 & Hk & Hh & Ok & Oh). destruct (Hptr k) as [Pk Ph]; [lia|].
  pose proof (lookup_lt_Some _ _ _ Pk). pose proof (lookup_lt_Some _ _ _ Ph).
  unfold stop_server. rewrite Hh, decide_False, Ph by lia. cbn [mbind option_bind].
  rewrite Hk, decide_False, Pk by lia. cbn [mbind option_bind]. rewrite <- Nat.add_succ_comm. apply IH.
  - intros i Hi. apply Hptr. lia.
  - split_and!; simpl; rewrite ?length_insert, ?length_alter; try done; by auto using alter_stopped, insert_stopped.
Qed.

Lemma stop_servers_net ids (c c' : Cluster (Val := Val) (Rcvr := Rcvr)) :
  stop_servers ids c = Some c' → cl_net c' = cl_net c.
Proof.
  revert c. induction ids as [|i ids IH]; intros c E; simpl in E; [by simplify_eq|].
  apply bind_Some in E as (c1 & E1 & E). rewrite (IH c1 E). unfold stop_server in E1. by go_inv.
Qed.

(** Shutdown of a started cluster kills every key/value server with its
    Raft peer, closes every HTTP server, forgets the servers and ends the
    network; a second Shutdown panics, because the network is not forgotten
    and its channel is closed again. *)
Theorem Shutdown_stops (kvMethods rfMethods : list (Method (Val := Val) (Rcvr := Rcvr))) n addrs maxRaftState now c :
  NewCluster kvMethods rfMethods (Z.of_nat n) addrs maxRaftState now = Some (inr c) →
  ∃ c', Shutdown c = Some c' ∧ length (obj_kv c') = n ∧ length (obj_http c') = n ∧
    Forall (λ kv, kv_killed kv = true ∧ killed (kv_rf kv) = true) (obj_kv c') ∧
    Forall (λ h, hs_open h = false) (obj_http c') ∧
    (∀ i, i < n → KV i c' = Some None) ∧ net_done (cl_net c') = true ∧
    Shutdown c' = None.
Proof.
  intros HN. assert (length addrs = n) as Haddrs.
  { unfold NewCluster, zlen in HN. destruct (_ =? _)%Z eqn:E; simpl in HN; [b2p; lia|done]. }
  destruct (NewCluster_ok kvMethods rfMethods n addrs Haddrs maxRaftState now) as (c1 & E & Hc & _). rewrite E in HN.
  simplify_eq. destruct Hc as [Hn _ _ _ _ _ (_ & _ & Hd) [Lkv Lhttp] Hptr Hobj Hhttp _].
  assert (length (obj_kv c) = length addrs) as Lok by (by rewrite Hobj, length_fmap, length_seq).
  assert (length (obj_http c) = length addrs) as Loh by (rewrite Hhttp, length_fmap, length_take; lia).
  destruct (stop_servers_ok c (length addrs) 0 c) as (c2 & E2 & Hnet & Hn2 & Lk2 & Lh2 & L1 & L2 & Hk & Hh & Ok & Oh).
  { done. }
  { split_and!; try done; intros i; by rewrite decide_False by lia. }
  simpl in *. unfold Shutdown at 1. rewrite Hn, E2. cbn [mbind option_bind]. unfold Cleanup at 1. rewrite Hnet, Hd.
  eexists. split; [done|]. simpl.
  split_and!; [congruence..| | | |done|].
  - apply list.Forall_lookup. intros i s. rewrite Ok. case_decide; intros Hs.
    + apply fmap_Some in Hs as (s0 & _ & ->). done.
    + apply lookup_lt_Some in Hs. lia.
  - apply list.Forall_lookup. intros i s. rewrite Oh. case_decide; intros Hs.
    + apply fmap_Some in Hs as (s0 & _ & ->). done.
    + apply lookup_lt_Some in Hs. lia.
  - intros i Hi. unfold KV. simpl. rewrite Hk, decide_True by lia. done.
  - unfold Shutdown. clear E2. match goal with |- context [stop_servers ?l ?c] =>
      destruct (stop_servers l c) as [c3|] eqn:E3; simpl; [|done] end.
    apply stop_servers_net in E3. unfold Cleanup. by rewrite E3.
Qed.
End theorems.

(** ** A cluster of three *)

Lemma NewCluster_wired_witness :
  ∃ c, NewCluster (Val := Z) (Rcvr := Z) [] [] 3 [":8001"; ":8002"; ":8003"] (-1) (λ _, 0%Z) = Some (inr c) ∧
    (∀ i, i < 3 → KV i c = Some (Some (StartKVServer 3 (Z.of_nat i) MakePersister (-1) 0).1)) ∧
    (∀ i j (w : NetWorld (Val := Z) (Rcvr := Z)) call k, i < 3 → j < 3 → w_net w = cl_net c → c_end k = endname i j →
       process_read call k w = set_call call (with_phase (Accepted (mkRoute j j true false)) k) w) ∧
    (∀ j, j < 3 → ∃ srv, obj_rpc c !! j = Some srv ∧
       srv_services srv !! "KVServer" = Some (MakeService "KVServer" (2 * j) []) ∧
       srv_services srv !! "Raft" = Some (MakeService "Raft" (2 * j + 1) [])).
Proof. apply (NewCluster_wired [] [] 3 [":8001"; ":8002"; ":8003"] (-1) (λ _, 0%Z)). reflexivity. Defined.

Definition three : option (string + Cluster (Val := Z) (Rcvr := Z)) :=
  NewCluster [] [] 3 [":8001"; ":8002"; ":8003"] (-1) (λ _, 0%Z).

Lemma Shutdown_stops_witness :
  ∃ c c', three = Some (inr c) ∧ Shutdown c = Some c' ∧ net_done (cl_net c') = true ∧ Shutdown c' = None.
Proof.
  destruct (NewCluster_ok (Val := Z) (Rcvr := Z) [] [] 3 [":8001"; ":8002"; ":8003"] eq_refl (-1) (λ _, 0%Z)) as (c & E & _).
  destruct (Shutdown_stops [] [] 3 [":8001"; ":8002"; ":8003"] (-1)%Z (λ _, 0%Z) c E) as (c' & H1 & _ & _ & _ & _ & _ & H2 & H3).
  exists c, c'. split; [exact E|]. split; [exact H1|]. split; [exact H2|exact H3].
Defined.
