(* ===== verification/Programs.v ===== *)
(** * The programs that start the servers (cmd/kvcluster, cmd/controller, cmd/gateway)

    What the mains build from their flags, up to the signal that ends them; the
    worker program is in Http.  Log lines are left out, and so is the shutdown
    of an http.Server, which is net/http's.

    [programs_meet]: a controller that is given the URLs the cluster program
    prints talks to exactly the servers which that program started. *)

From Stdlib Require Import Ascii.
From S2P Require Import Prelude Persister RaftTypes KVServer KVHttp KVClerk KVService Labrpc Cluster Models Json Controller Gateway Http System.
From stdpp Require Import strings pretty.

(** ** cmd/kvcluster *)

Section kvcluster.
Context `{!Gob (PersistentState Op)} `{!Gob Machine}.
Context {Val Rcvr : Type} (kvMethods rfMethods : list (Method (Val := Val) (Rcvr := Rcvr))).

(** The listen addresses; [make] panics on a negative length. *)
Definition kvcluster_addrs (n basePort : Z) : option (list string) :=
  if (n <? 0)%Z then None else Some ((λ i, String.append ":" (pretty (basePort + i)%Z)) <$> seqZ 0 n).

(** main: [running] is what the cluster does until the signal; [inl] is log.Fatal. *)
Definition kvcluster_main (n basePort maxState : Z) (now : nat → Z)
    (running : Cluster (Val := Val) (Rcvr := Rcvr) → Cluster (Val := Val) (Rcvr := Rcvr)) : option (string + Cluster * Cluster) :=
  addrs ← kvcluster_addrs n basePort;
  res ← NewCluster kvMethods rfMethods n addrs maxState now;
  match res with
  | inl err => Some (inl err)
  | inr cluster => stopped ← Shutdown (running cluster); Some (inr (cluster, stopped))
  end.
End kvcluster.

(** The URL that main prints for an address. *)
Definition node_url (addr : string) : string := String.append "http://127.0.0.1" addr.

(** ** cmd/controller and cmd/gateway *)

(** [connect] is the service behind the client; [now] seeds the client's number. *)
Definition controller_main {S} (connect : Client → S) (kvAddrs : string) (now : Z) : Controller (S := S) :=
  NewController (connect (New (ParseKVAddrs kvAddrs) now)).

(** The gateway, and the base URL that its pickWorker uses. *)
Definition gateway_main (controllerURL : string) (connPool dispatchPool : Z) : Gateway * string :=
  (NewGateway connPool dispatchPool, controllerURL).

(** The defaults of the flags. *)
Definition kvcluster_flags : Z * Z * Z := (3, 8001, 1000)%Z.
Definition controller_flag_kv : string := "http://127.0.0.1:8001,http://127.0.0.1:8002,http://127.0.0.1:8003".

(** ** Text without separators *)

Definition all_chars (p : ascii → bool) (s : string) : bool := forallb p (String.list_ascii_of_string s).

Lemma list_ascii_app a b :
  String.list_ascii_of_string (String.append a b) = String.list_ascii_of_string a ++ String.list_ascii_of_string b.
Proof. induction a as [|x a IH]; [done|]. exact (f_equal (cons x) IH). Qed.

Lemma all_chars_app p a b : all_chars p (String.append a b) = all_chars p a && all_chars p b.
Proof. unfold all_chars. by rewrite list_ascii_app, forallb_app. Qed.

Definition is_digit (a : ascii) : bool := existsb (Ascii.eqb a) (String.list_ascii_of_string "0123456789").

Lemma pretty_go_digits x s : all_chars is_digit s = true → all_chars is_digit (pretty_N_go x s) = true.
Proof.
  revert s. induction (N.lt_wf_0 x) as [x _ IH]; intros s Hs.
  assert (x = 0 ∨ 0 < x)%N as [->|Hx] by lia; [by rewrite pretty_N_go_0|].
  rewrite pretty_N_go_step by done. apply IH; [by apply N.div_lt|]. unfold all_chars. simpl. rewrite andb_true_iff.
  split; [|done]. unfold pretty_N_char. by repeat case_match.
Qed.

Lemma pretty_digits (z : Z) : (0 ≤ z)%Z → all_chars is_digit (pretty z) = true.
Proof.
  intros Hz. destruct z as [|q|q]; [done| |lia]. change (pretty (Z.pos q)) with (pretty (N.pos q)). unfold pretty, pretty_N.
  case_decide; [done|]. by apply pretty_go_digits.
Qed.

Lemma all_chars_impl (p q : ascii → bool) s : (∀ a, p a = true → q a = true) → all_chars p s = true → all_chars q s = true.
Proof. unfold all_chars. rewrite !forallb_forall. auto. Qed.

Lemma drop_while_none p l : forallb (λ a, negb (p a)) l = true → drop_while p l = l.
Proof. destruct l as [|a l]; [done|]. simpl. rewrite andb_true_iff, negb_true_iff. by intros [-> _]. Qed.

Lemma TrimSpace_none s : all_chars (λ a, negb (is_space a)) s = true → TrimSpace s = s.
Proof.
  unfold all_chars. intros H. unfold TrimSpace, TrimLeftFunc, TrimRightFunc.
  rewrite (drop_while_none _ _ H), String.string_of_list_ascii_of_string.
  rewrite drop_while_none, reverse_involutive, String.string_of_list_ascii_of_string; [done|].
  rewrite forallb_forall in *. intros a Ha. apply H. rewrite <- list_elem_of_In in *. by apply elem_of_reverse.
Qed.

(** A text that ends in something without slashes keeps its end. *)
Lemma TrimRight_slash_none a b :
  b ≠ EmptyString → all_chars (λ c, negb (bool_decide (c = "/"%char))) b = true →
  TrimRight_slash (String.append a b) = String.append a b.
Proof.
  intros Hb H. unfold TrimRight_slash, TrimRightFunc.
  rewrite <- (String.string_of_list_ascii_of_string (String.append a b)) at 2. f_equal. rewrite list_ascii_app, reverse_app.
  assert (∃ c l, reverse (String.list_ascii_of_string b) = c :: l ∧ c ≠ "/"%char) as (c & l & E & Hc).
  { destruct (reverse (String.list_ascii_of_string b)) as [|c l] eqn:E.
    - apply (f_equal reverse) in E. rewrite reverse_involutive in E. by destruct b.
    - exists c, l. split; [done|]. unfold all_chars in H. rewrite forallb_forall in H.
      specialize (H c). rewrite <- list_elem_of_In, <- elem_of_reverse, E in H.
      specialize (H (list_elem_of_here c l)). by apply negb_true_iff, bool_decide_eq_false in H. }
  rewrite E. simpl. rewrite bool_decide_false by done.
  rewrite app_comm_cons, <- E, reverse_app. by rewrite !reverse_involutive.
Qed.

Lemma is_digit_impl p c : all_chars p "0123456789" = true → is_digit c = true → p c = true.
Proof. unfold all_chars, is_digit. rewrite forallb_forall, existsb_exists. intros H (d & Hd & ->%Ascii.eqb_eq). by apply H. Qed.

Lemma no_slash_chars s : all_chars (λ a, negb (Ascii.eqb a "/")) s = true → no_slash s = true.
Proof. induction s as [|a s IH]; [done|]. unfold all_chars. simpl. rewrite !andb_true_iff. by intros [? ?%IH]. Qed.

(** ** Lists of URLs *)

(** [strings.Join(l, ",")] *)
Fixpoint Join_comma (l : list string) : string :=
  match l with
  | [] => EmptyString
  | [x] => x
  | x :: l => String.append x (String "," (Join_comma l))
  end.

Definition no_comma (a : ascii) : bool := negb (Ascii.eqb a ",").

Lemma Split_comma_one x : all_chars no_comma x = true → Split_comma x = [x].
Proof.
  induction x as [|a x IH]; [done|]. unfold all_chars, no_comma. simpl. intros [Ha%negb_true_iff%Ascii.eqb_neq Hx]%andb_true_iff.
  by rewrite bool_decide_false, IH.
Qed.

Lemma Split_comma_app x s : all_chars no_comma x = true → Split_comma (String.append x (String "," s)) = x :: Split_comma s.
Proof.
  induction x as [|a x IH]; [done|].
  unfold all_chars, no_comma. simpl. intros [Ha%negb_true_iff%Ascii.eqb_neq Hx]%andb_true_iff.
  by rewrite bool_decide_false, IH.
Qed.

Lemma Split_Join l : l ≠ [] → Forall (λ x, all_chars no_comma x = true) l → Split_comma (Join_comma l) = l.
Proof.
  intros Hne H. induction H as [|x l Hx Hl IH]; [done|]. destruct l as [|y l]; [by apply Split_comma_one|].
  change (Join_comma (x :: y :: l)) with (String.append x (String "," (Join_comma (y :: l)))).
  by rewrite Split_comma_app, IH.
Qed.

(** ** The programs together *)

Section meet.
Context (n : nat) (basePort : Z) (Hport : (0 ≤ basePort)%Z).

(** What the cluster program listens on. *)
Definition ports : list string := (λ i, String.append ":" (pretty (basePort + i)%Z)) <$> seqZ 0 (Z.of_nat n).

Lemma kvcluster_addrs_ok : kvcluster_addrs (Z.of_nat n) basePort = Some ports.
Proof. unfold kvcluster_addrs. by rewrite (proj2 (Z.ltb_ge _ _)) by lia. Qed.

Lemma ports_elem a : a ∈ ports → ∃ z, (0 ≤ z)%Z ∧ a = String.append ":" (pretty z).
Proof. intros (i & -> & Hi%elem_of_seqZ)%list_elem_of_fmap. exists (basePort + i)%Z. split; [lia|done]. Qed.

Lemma node_url_chars p a :
  all_chars p "http://127.0.0.1:0123456789" = true → a ∈ ports → all_chars p (node_url a) = true.
Proof.
  change "http://127.0.0.1:0123456789" with (String.append "http://127.0.0.1:" "0123456789").
  rewrite all_chars_app, andb_true_iff. intros [Hp Hd] (z & Hz & ->)%ports_elem. change (node_url _) with (String.append "http://127.0.0.1:" (pretty z)).
  rewrite all_chars_app, Hp. apply (all_chars_impl is_digit), pretty_digits; [|done].
  intros c. by apply is_digit_impl.
Qed.

(** A URL of the cluster is a text that trimming leaves alone. *)
Lemma node_url_trimmed a : a ∈ ports → TrimSpace (node_url a) = node_url a ∧ TrimRight_slash (node_url a) = node_url a.
Proof.
  intros Ha. split.
  - by apply TrimSpace_none, node_url_chars.
  - apply ports_elem in Ha as (z & Hz & ->). apply (TrimRight_slash_none "http://127.0.0.1" (String ":" (pretty z))); [done|].
    change (String ":" (pretty z)) with (String.append ":" (pretty z)). rewrite all_chars_app.
    apply (all_chars_impl is_digit), pretty_digits; [|done]. intros c Hc.
    exact (is_digit_impl (λ c, negb (bool_decide (c = "/"%char))) c eq_refl Hc).
Qed.

(** The client that the controller makes of the joined URLs. *)
Lemma New_urls now : n ≠ 0 → addrs (New (ParseKVAddrs (Join_comma (node_url <$> ports))) now) = node_url <$> ports.
Proof.
  intros Hn. unfold New, ParseKVAddrs. cbn [addrs]. rewrite Split_Join; cycle 1.
  { intros E%(f_equal length). rewrite length_fmap in E. unfold ports in E. rewrite length_fmap, length_seqZ in E. simpl in E. lia. }
  { apply Forall_fmap, Forall_forall. intros a Ha. by apply node_url_chars. }
  assert (∀ f (l : list string), (∀ a, a ∈ l → f (node_url a) = node_url a) → f <$> (node_url <$> l) = node_url <$> l) as Hmap.
  { intros f l Hf. rewrite <- list_fmap_compose. apply list_fmap_ext. intros i a Hi. apply Hf. by eapply list_elem_of_lookup_2. }
  assert (∀ l : list string, filter (λ p, p ≠ "") (node_url <$> l) = node_url <$> l) as Hfil.
  { intros l. induction l as [|a l IH]; [done|]. cbn [fmap list_fmap]. rewrite filter_cons_True by done. by rewrite IH. }
  rewrite Hmap by (intros a Ha; by apply node_url_trimmed). rewrite Hfil.
  rewrite Hmap; [apply Hfil|]. intros a Ha. destruct (node_url_trimmed a Ha) as [-> ->]. done.
Qed.
End meet.

(** The cluster program and the controller meet: started with [n] servers
    from a port on, the cluster program has no error, serves one address per
    server, and can be shut down; a controller whose -kv flag holds the printed
    URLs, joined by commas, has a client with exactly these URLs in order, and
    a request to the i-th of them goes to the host and port of server i.
    Shutting the cluster down closes all of them. *)
Theorem programs_meet {S} `{!Gob (PersistentState Op)} `{!Gob Machine} {Val Rcvr : Type}
    (kvMethods rfMethods : list (Method (Val := Val) (Rcvr := Rcvr))) n basePort maxState now (connect : Client → S) now' :
  (0 ≤ basePort)%Z → n ≠ 0 →
  ∃ cluster stopped c, kvcluster_main kvMethods rfMethods (Z.of_nat n) basePort maxState now id = Some (inr (cluster, stopped)) ∧
    controller_main connect (Join_comma ((λ srv, node_url (hs_addr srv)) <$> obj_http cluster)) now' = NewController (connect c) ∧
    length (addrs c) = n ∧
    (∀ i srv, obj_http cluster !! i = Some srv → hs_open srv = true ∧ addrs c !! i = Some (node_url (hs_addr srv)) ∧
       parse_url (String.append (node_url (hs_addr srv)) "/kv") = Some (String.append "127.0.0.1" (hs_addr srv), "/kv")) ∧
    (∀ i srv, obj_http stopped !! i = Some srv → hs_open srv = false).
Proof.
  intros Hport Hn.
  assert (length (ports n basePort) = n) as Hlen by (unfold ports; rewrite length_fmap, length_seqZ; lia).
  destruct (NewCluster_ok kvMethods rfMethods n (ports n basePort) Hlen maxState now) as (c & E & Hc & Hen).
  destruct (Shutdown_stops kvMethods rfMethods n _ maxState now c E) as (c' & Es & _ & _ & _ & Hclosed & _).
  destruct Hc as [_ _ _ _ _ _ _ _ _ _ Hhttp _]. rewrite take_ge in Hhttp by lia.
  exists c, c', (New (ParseKVAddrs (Join_comma (node_url <$> ports n basePort))) now').
  assert ((λ srv, node_url (hs_addr srv)) <$> obj_http c = node_url <$> ports n basePort) as Hurl.
  { rewrite Hhttp. by rewrite <- list_fmap_compose. }
  split_and!.
  - unfold kvcluster_main. rewrite kvcluster_addrs_ok. cbn [mbind option_bind]. rewrite E. cbn [mbind option_bind]. unfold id. by rewrite Es.
  - by rewrite Hurl.
  - by rewrite New_urls, length_fmap.
  - intros i srv Hi. rewrite New_urls, <- Hurl, list_lookup_fmap, Hi by done.
    rewrite Hhttp, list_lookup_fmap in Hi. apply fmap_Some in Hi as (a & Ha & ->). split_and!; [done..|].
    apply list_elem_of_lookup_2, ports_elem in Ha as (z & Hz & ->); [|done].
    apply (parse_url_host (String.append "127.0.0.1:" (pretty z)) "kv").
    apply no_slash_chars. rewrite all_chars_app. apply (all_chars_impl is_digit), pretty_digits; [|done].
    intros b Hb. exact (is_digit_impl (λ a, negb (Ascii.eqb a "/")) b eq_refl Hb).
  - intros i srv Hi. rewrite list.Forall_lookup in Hclosed. by apply (Hclosed i).
Qed.

Lemma default_urls : Join_comma (node_url <$> ports 3 8001) = controller_flag_kv.
Proof. reflexivity. Qed.

(** With the default flags. *)
Lemma programs_meet_witness :
  ∃ cluster stopped c,
    kvcluster_main (Val := Z) (Rcvr := Z) [] [] kvcluster_flags.1.1 kvcluster_flags.1.2 kvcluster_flags.2 (λ _, 0%Z) id =
      Some (inr (cluster, stopped)) ∧
    controller_main (λ c, (c, (∅, ∅)) : Local) (Join_comma ((λ srv, node_url (hs_addr srv)) <$> obj_http cluster)) 7 =
      NewController ((c, (∅, ∅)) : Local) ∧
    length (addrs c) = 3.
Proof.
  destruct (programs_meet (Val := Z) (Rcvr := Z) [] [] 3 8001 1000 (λ _, 0%Z) (λ c, (c, (∅, ∅)) : Local) 7)
    as (cluster & stopped & c & H1 & H2 & H3 & _); [lia|lia|].
  exists cluster, stopped, c. split_and!; [exact H1|exact H2|exact H3].
Defined.
