(* ===== verification/KVConfig.v ===== *)
(** * The test bench of the key/value service (kvraft/config.go)

    [config] runs key/value servers on the simulated network, cuts and heals
    connections, and crashes and restarts servers.  Servers and labrpc servers
    are objects with identity.  A persister is either in the peer of a server
    ([OfServer], the pointer that server and bench share) or a copy that only
    the bench holds ([Copied]): this is how the bench keeps an old instance
    from writing into the storage of its successor.  Random names, the random
    choices of random_handles and start times are arguments.  [None] is a
    panic or log.Fatalf.

    [partition_isolates], [make_partition_majority] and
    [restart_last_persisted] are what the tests rely on.  The mutex is left
    out: connect, disconnect, ConnectClient and DisconnectClient are their
    Unlocked versions. *)

From S2P Require Import Prelude Persister RaftTypes KVServer Labrpc Cluster.

Inductive Saved := OfServer (k : nat) | Copied (ps : Persister).

(** ** random_handles *)

(** [sa[i], sa[j] = sa[j], sa[i]] *)
Definition swap {A} (i j : nat) (sa : list A) : option (list A) :=
  x ← sa !! i; y ← sa !! j; Some (<[j := x]> (<[i := y]> sa)).

(** [rnd i] is [rand.Intn(i + 1)]. *)
Fixpoint shuffle {A} (rnd : nat → nat) (ids : list nat) (sa : list A) : option (list A) :=
  match ids with [] => Some sa | i :: ids => sa ← swap i (rnd i) sa; shuffle rnd ids sa end.

Definition random_handles {A} (rnd : nat → nat) (kvh : list A) : option (list A) :=
  shuffle rnd (seq 0 (length kvh)) kvh.

Section config.
Context `{!Gob (PersistentState Op)} `{!Gob Machine}.
Context {Val Rcvr : Type} (kvMethods rfMethods : list (Method (Val := Val) (Rcvr := Rcvr))).

(** Times in nanoseconds, and the counters of begin and end. *)
Record Stats := mkStats { st_start : Z; st_t0 : Z; st_rpcs0 : Z; st_ops : Z }.

Record config := mkConfig {
  cfg_net : Network (EN := string) (SN := nat);
  cfg_n : nat;
  cfg_kvservers : list (option nat);
  cfg_saved : list (option Saved);
  cfg_endnames : list (option (list string));
  cfg_clerks : gmap nat (list string);
  cfg_nextClientId : Z;
  cfg_maxraftstate : Z;
  cfg_kv : list KVServer;
  cfg_rpc : list (Server (Val := Val) (Rcvr := Rcvr));
  cfg_stats : Stats
}.

Definition set_cfg_net net (cfg : config) : config :=
  mkConfig net (cfg_n cfg) (cfg_kvservers cfg) (cfg_saved cfg) (cfg_endnames cfg) (cfg_clerks cfg) (cfg_nextClientId cfg)
    (cfg_maxraftstate cfg) (cfg_kv cfg) (cfg_rpc cfg) (cfg_stats cfg).

Definition set_cfg_stats stats (cfg : config) : config :=
  mkConfig (cfg_net cfg) (cfg_n cfg) (cfg_kvservers cfg) (cfg_saved cfg) (cfg_endnames cfg) (cfg_clerks cfg)
    (cfg_nextClientId cfg) (cfg_maxraftstate cfg) (cfg_kv cfg) (cfg_rpc cfg) stats.

(** What a persister holds now. *)
Definition saved_contents (cfg : config) (s : Saved) : option Persister :=
  match s with OfServer k => (λ kv, persister (kv_rf kv)) <$> cfg_kv cfg !! k | Copied ps => Some ps end.

(** ** Sizes *)

(** The loops of LogSize and SnapshotSize. *)
Fixpoint max_size (size : Persister → Z) (cfg : config) (saved : list (option Saved)) (m : Z) : option Z :=
  match saved with
  | [] => Some m
  | s :: saved =>
      ps ← (s ← s; saved_contents cfg s);
      max_size size cfg saved (if (size ps >? m)%Z then size ps else m)
  end.

Definition cfg_LogSize (cfg : config) : option Z := max_size RaftStateSize cfg (take (cfg_n cfg) (cfg_saved cfg)) 0.
Definition cfg_SnapshotSize (cfg : config) : option Z := max_size SnapshotSize cfg (take (cfg_n cfg) (cfg_saved cfg)) 0.

(** ** Connections *)

(** [cfg.endnames[i][j]] *)
Definition end_at (cfg : config) (i j : nat) : option string :=
  row ← cfg_endnames cfg !! i; row ← row; row !! j.

(** One of the loops of connectUnlocked: [name j] is the end of round [j]. *)
Fixpoint enable_ends (b : bool) (names : list (option string)) (cfg : config) : option config :=
  match names with
  | [] => Some cfg
  | name :: names => name ← name; enable_ends b names (set_cfg_net (Enable name b (cfg_net cfg)) cfg)
  end.

Definition connectUnlocked (i : nat) (to : list nat) (cfg : config) : option config :=
  cfg ← enable_ends true ((λ t, end_at cfg i t) <$> to) cfg;
  enable_ends true ((λ t, end_at cfg t i) <$> to) cfg.

(** The ends that the second loop of disconnectUnlocked disables: round [j] looks
    whether the names of server [j], not of [from[j]], are there. *)
Fixpoint incoming (cfg : config) (i j : nat) (from : list nat) : option (list (option string)) :=
  match from with
  | [] => Some []
  | f :: from =>
      row ← cfg_endnames cfg !! j;
      rest ← incoming cfg i (S j) from;
      Some (match row with Some _ => end_at cfg f i :: rest | None => rest end)
  end.

Definition disconnectUnlocked (i : nat) (from : list nat) (cfg : config) : option config :=
  row ← cfg_endnames cfg !! i;
  cfg ← enable_ends false (match row with Some row => (λ f, row !! f) <$> from | None => [] end) cfg;
  names ← incoming cfg i 0 from;
  enable_ends false names cfg.

(** With the lock of the bench. *)
Definition connect (i : nat) (to : list nat) (cfg : config) : option config := connectUnlocked i to cfg.
Definition disconnect (i : nat) (from : list nat) (cfg : config) : option config := disconnectUnlocked i from cfg.

Definition All (cfg : config) : list nat := seq 0 (cfg_n cfg).

Fixpoint each (f : nat → config → option config) (ids : list nat) (cfg : config) : option config :=
  match ids with [] => Some cfg | i :: ids => cfg ← f i cfg; each f ids cfg end.

Definition ConnectAll (cfg : config) : option config := each (λ i, connectUnlocked i (All cfg)) (All cfg) cfg.

(** One of the loops of partition: servers of the side [p], cut off from [q]. *)
Definition one_side (p q : list nat) : config → option config :=
  each (λ i cfg, cfg ← disconnectUnlocked i q cfg; connectUnlocked i p cfg) p.

Definition partition (p1 p2 : list nat) (cfg : config) : option config :=
  cfg ← one_side p1 p2 cfg; one_side p2 p1 cfg.

(** ** Clients *)

Definition ConnectClientUnlocked (ck : nat) (to : list nat) (cfg : config) : option config :=
  let endnames := default [] (cfg_clerks cfg !! ck) in
  enable_ends true ((λ t, endnames !! t) <$> to) cfg.

Definition DisconnectClientUnlocked (ck : nat) (from : list nat) (cfg : config) : option config :=
  let endnames := default [] (cfg_clerks cfg !! ck) in
  enable_ends false ((λ f, endnames !! f) <$> from) cfg.

Definition ConnectClient (ck : nat) (to : list nat) (cfg : config) : option config := ConnectClientUnlocked ck to cfg.
Definition DisconnectClient (ck : nat) (from : list nat) (cfg : config) : option config := DisconnectClientUnlocked ck from cfg.

(** Fresh ends with these names, connected to servers [j], [j+1], ... *)
Fixpoint make_client_ends (j : nat) (names : list string) (net : Network (EN := string) (SN := nat)) :
    option (Network (EN := string) (SN := nat)) :=
  match names with
  | [] => Some net
  | name :: names => net ← MakeEnd name net; make_client_ends (S j) names (Connect name j net)
  end.

(** makeClient: [ck] is the address of the new clerk, which gets the ends in random order. *)
Definition makeClient (ck : nat) (to : list nat) (names : list string) (rnd : nat → nat) (cfg : config) :
    option (config * list string) :=
  net ← make_client_ends 0 names (cfg_net cfg);
  handles ← random_handles rnd names;
  let cfg := mkConfig net (cfg_n cfg) (cfg_kvservers cfg) (cfg_saved cfg) (cfg_endnames cfg) (<[ck := names]> (cfg_clerks cfg))
               (cfg_nextClientId cfg + 1)%Z (cfg_maxraftstate cfg) (cfg_kv cfg) (cfg_rpc cfg) (cfg_stats cfg) in
  cfg ← ConnectClientUnlocked ck to cfg;
  Some (cfg, handles).

Definition deleteClient (ck : nat) (cfg : config) : config :=
  mkConfig (cfg_net cfg) (cfg_n cfg) (cfg_kvservers cfg) (cfg_saved cfg) (cfg_endnames cfg) (delete ck (cfg_clerks cfg))
    (cfg_nextClientId cfg) (cfg_maxraftstate cfg) (cfg_kv cfg) (cfg_rpc cfg) (cfg_stats cfg).

(** ** Crash and restart *)

Definition ShutdownServer (i : nat) (cfg : config) : option config :=
  cfg ← disconnectUnlocked i (All cfg) cfg;
  saved ← cfg_saved cfg !! i;
  saved' ← match saved with None => Some None | Some s => (λ ps, Some (Copied (Copy ps))) <$> saved_contents cfg s end;
  kv ← cfg_kvservers cfg !! i;
  Some (mkConfig (DeleteServer i (cfg_net cfg)) (cfg_n cfg)
          (match kv with Some _ => <[i := None]> (cfg_kvservers cfg) | None => cfg_kvservers cfg end)
          (<[i := saved']> (cfg_saved cfg)) (cfg_endnames cfg) (cfg_clerks cfg) (cfg_nextClientId cfg) (cfg_maxraftstate cfg)
          (match kv with Some k => alter KVKill k (cfg_kv cfg) | None => cfg_kv cfg end) (cfg_rpc cfg) (cfg_stats cfg)).

(** The receivers of server object [k]: [2k] the key/value server, [2k+1] its peer. *)
Definition rpc_server (k : nat) : Server :=
  AddService (MakeService "Raft" (2 * k + 1) rfMethods) (AddService (MakeService "KVServer" (2 * k) kvMethods) MakeServer).

Definition StartServer (i : nat) (names : list string) (now : Z) (cfg : config) : option config :=
  net ← make_client_ends 0 names (cfg_net cfg);
  saved ← cfg_saved cfg !! i;
  ps ← match saved with None => Some MakePersister | Some s => Copy <$> saved_contents cfg s end;
  let k := length (cfg_kv cfg) in
  let kv := (StartKVServer (Z.of_nat (cfg_n cfg)) (Z.of_nat i) ps (cfg_maxraftstate cfg) now).1 in
  if bool_decide (i < length (cfg_endnames cfg)) then
    Some (mkConfig (AddServer i (length (cfg_rpc cfg)) net) (cfg_n cfg) (<[i := Some k]> (cfg_kvservers cfg))
            (<[i := Some (OfServer k)]> (cfg_saved cfg)) (<[i := Some names]> (cfg_endnames cfg)) (cfg_clerks cfg)
            (cfg_nextClientId cfg) (cfg_maxraftstate cfg) (cfg_kv cfg ++ [kv]) (cfg_rpc cfg ++ [rpc_server k])
            (cfg_stats cfg))
  else None.

(** ** Leaders and partitions *)

(** A nil server is a nil dereference. *)
Fixpoint find_leader (cfg : config) (ids : list nat) : option (bool * nat) :=
  match ids with
  | [] => Some (false, 0)
  | i :: ids =>
      p ← cfg_kvservers cfg !! i; k ← p; kv ← cfg_kv cfg !! k;
      if (GetState (kv_rf kv)).2 then Some (true, i) else find_leader cfg ids
  end.

Definition cfg_Leader (cfg : config) : option (bool * nat) := find_leader cfg (seq 0 (cfg_n cfg)).

(** The loop of make_partition. *)
Fixpoint split_servers (l : nat) (ids : list nat) (j : nat) (p1 p2 : list nat) : option (nat * list nat * list nat) :=
  match ids with
  | [] => Some (j, p1, p2)
  | i :: ids =>
      if bool_decide (i ≠ l) then
        if bool_decide (j < length p1) then split_servers l ids (S j) (<[j := i]> p1) p2
        else
          if bool_decide (j - length p1 < length p2)
          then split_servers l ids (S j) p1 (<[j - length p1 := i]> p2)
          else None
      else split_servers l ids j p1 p2
  end.

Definition make_partition (cfg : config) : option (list nat * list nat) :=
  '(_, l) ← cfg_Leader cfg;
  let n := cfg_n cfg in
  '(_, p1, p2) ← split_servers l (seq 0 n) 0 (replicate (n / 2 + 1) 0) (replicate (n / 2) 0);
  p2 ← go_set p2 (zlen p2 - 1) l;
  Some (p1, p2).

(** ** Set-up *)

(** The loop of make_config that starts the servers, with their random names. *)
Fixpoint start_all (names : nat → list string) (now : nat → Z) (ids : list nat) (cfg : config) : option config :=
  match ids with
  | [] => Some cfg
  | i :: ids => cfg ← StartServer i (names i) (now i) cfg; start_all names now ids cfg
  end.

Definition make_config (n : nat) (unreliable : bool) (maxraftstate : Z) (names : nat → list string) (now : nat → Z)
    (start : Z) : option config :=
  let cfg := mkConfig MakeNetwork n (replicate n None) (replicate n None) (replicate n None) ∅ (Z.of_nat n + 1000)%Z
               maxraftstate [] [] (mkStats start 0 0 0) in
  cfg ← start_all names now (seq 0 n) cfg;
  cfg ← ConnectAll cfg;
  Some (set_cfg_net (Reliable (negb unreliable) (cfg_net cfg)) cfg).

(** ** Time limit and statistics *)

(** The limit of two minutes; [failed] is [t.Failed()]. *)
Definition checkTimeout (failed : bool) (now : Z) (cfg : config) : option () :=
  if negb failed && (now - st_start (cfg_stats cfg) >? 120 * 10 ^ 9)%Z then None else Some ().

Definition rpcTotal (cfg : config) : Z := GetTotalCount (cfg_net cfg).

Definition begin (now : Z) (cfg : config) : config :=
  set_cfg_stats (mkStats (st_start (cfg_stats cfg)) now (rpcTotal cfg) 0) cfg.

(** The counter has 32 bits. *)
Definition op (cfg : config) : config :=
  let st := cfg_stats cfg in
  set_cfg_stats (mkStats (st_start st) (st_t0 st) (st_rpcs0 st) (add_int32 (st_ops st) 1)) cfg.

(** The numbers that [end] prints: time, peers, RPCs, operations of clerks. *)
Definition end_ (failed : bool) (now : Z) (cfg : config) : option (option (Z * nat * Z * Z)) :=
  _ ← checkTimeout failed now cfg;
  Some (if failed then None
        else Some (now - st_t0 (cfg_stats cfg), cfg_n cfg, rpcTotal cfg - st_rpcs0 (cfg_stats cfg), st_ops (cfg_stats cfg)))%Z.

Definition cleanup (failed : bool) (now : Z) (cfg : config) : option config :=
  let kvs := foldl (λ kvs p, match p with Some k => alter KVKill k kvs | None => kvs end) (cfg_kv cfg) (cfg_kvservers cfg) in
  net ← Cleanup (cfg_net cfg);
  let cfg := mkConfig net (cfg_n cfg) (cfg_kvservers cfg) (cfg_saved cfg) (cfg_endnames cfg) (cfg_clerks cfg)
               (cfg_nextClientId cfg) (cfg_maxraftstate cfg) kvs (cfg_rpc cfg) (cfg_stats cfg) in
  _ ← checkTimeout failed now cfg;
  Some cfg.
End config.

(** ** What is connected *)

Section connections.
Context `{!Gob (PersistentState Op)} `{!Gob Machine} {Val Rcvr : Type}.
Implicit Types (cfg : config (Val := Val) (Rcvr := Rcvr)).

(** Every server has an end to every server, all different. *)
Record wired cfg : Prop := {
  wi_len : length (cfg_endnames cfg) = cfg_n cfg;
  wi_rows : ∀ i, i < cfg_n cfg → ∃ row, cfg_endnames cfg !! i = Some (Some row) ∧ length row = cfg_n cfg;
  wi_inj : ∀ i j i' j' e, end_at cfg i j = Some e → end_at cfg i' j' = Some e → i = i' ∧ j = j'
}.

(** Server [i] can call server [j]. *)
Definition linked cfg (i j : nat) : bool :=
  match end_at cfg i j with Some e => is_enabled (cfg_net cfg) e | None => false end.

Definition upd (en : gmap string bool) cfg : config := set_cfg_net (set_enabled en (cfg_net cfg)) cfg.

(** The connections change by [f], and nothing else. *)
Definition relinks (f : nat → nat → bool → bool) cfg cfg' : Prop :=
  ∃ en, cfg' = upd en cfg ∧ ∀ a b, a < cfg_n cfg → b < cfg_n cfg → linked cfg' a b = f a b (linked cfg a b).

Lemma relinks_trans f g cfg cfg1 cfg2 :
  relinks f cfg cfg1 → relinks g cfg1 cfg2 → relinks (λ a b x, g a b (f a b x)) cfg cfg2.
Proof.
  intros (en1 & -> & H1) (en2 & -> & H2). exists en2. split; [done|]. intros a b Ha Hb.
  rewrite H2 by done. by rewrite H1.
Qed.

Lemma relinks_ext f g cfg cfg' :
  (∀ a b x, a < cfg_n cfg → b < cfg_n cfg → f a b x = g a b x) → relinks f cfg cfg' → relinks g cfg cfg'.
Proof. intros Hfg (en & -> & H). exists en. split; [done|]. intros a b Ha Hb. by rewrite H, Hfg. Qed.

Lemma relinks_wired f cfg cfg' : relinks f cfg cfg' → wired cfg → wired cfg' ∧ cfg_n cfg' = cfg_n cfg.
Proof. intros (en & -> & _) []. by split. Qed.

Lemma end_exists cfg i j : wired cfg → i < cfg_n cfg → j < cfg_n cfg → ∃ e, end_at cfg i j = Some e.
Proof.
  intros Hw Hi Hj. destruct (wi_rows _ Hw i Hi) as (row & E & Hl). unfold end_at. rewrite E. simpl.
  apply lookup_lt_is_Some. by rewrite Hl.
Qed.

Lemma enable_pairs b (pairs : list (nat * nat)) cfg :
  wired cfg → (∀ i j, (i, j) ∈ pairs → i < cfg_n cfg ∧ j < cfg_n cfg) →
  ∃ cfg', enable_ends b ((λ ij, end_at cfg ij.1 ij.2) <$> pairs) cfg = Some cfg' ∧
    relinks (λ i j x, if decide ((i, j) ∈ pairs) then b else x) cfg cfg'.
Proof.
  revert cfg. induction pairs as [|[i j] pairs IH]; intros cfg Hw Hp.
  { exists cfg. split; [done|]. exists (enabled (cfg_net cfg)). split; [by destruct cfg as [[] ? ? ? ? ? ? ? ? ?]|done]. }
  destruct (Hp i j) as [Hi Hj]; [set_solver|]. destruct (end_exists cfg i j Hw Hi Hj) as [e He].
  cbn [fmap list_fmap enable_ends fst snd]. rewrite He. cbn [mbind option_bind].
  set (cfg1 := set_cfg_net (Enable e b (cfg_net cfg)) cfg).
  assert (relinks (λ a c x, if decide ((a, c) = (i, j)) then b else x) cfg cfg1) as H1.
  { exists (<[e := b]> (enabled (cfg_net cfg))). split; [done|]. intros a c Ha Hc. unfold linked, is_enabled.
    destruct (end_exists cfg a c Hw Ha Hc) as [e' He']. change (end_at cfg1 a c) with (end_at cfg a c). rewrite He'. simpl.
    case_decide as Hac.
    - simplify_eq. by rewrite lookup_insert_eq.
    - rewrite lookup_insert_ne; [done|]. intros ->. apply Hac. by destruct (wi_inj _ Hw _ _ _ _ _ He He') as [-> ->]. }
  destruct (relinks_wired _ _ _ H1 Hw) as [Hw1 Hn1].
  destruct (IH cfg1 Hw1) as (cfg2 & E2 & H2); [set_solver|]. exists cfg2. split; [done|].
  eapply relinks_ext; [|by eapply relinks_trans]. intros a c x _ _. simpl.
  repeat case_decide; try done; set_solver.
Qed.

Lemma connect_ok i to cfg :
  wired cfg → i < cfg_n cfg → (∀ t, t ∈ to → t < cfg_n cfg) →
  ∃ cfg', connectUnlocked i to cfg = Some cfg' ∧
    relinks (λ a b x, if decide ((a = i ∧ b ∈ to) ∨ (b = i ∧ a ∈ to)) then true else x) cfg cfg'.
Proof.
  intros Hw Hi Hto. unfold connectUnlocked.
  destruct (enable_pairs true ((λ t, (i, t)) <$> to) cfg Hw) as (cfg1 & E1 & H1).
  { intros a b (t & [= -> ->] & Ht)%list_elem_of_fmap. auto. }
  rewrite <- list_fmap_compose in E1. unfold compose in E1. simpl in E1. rewrite E1. cbn [mbind option_bind].
  destruct (relinks_wired _ _ _ H1 Hw) as [Hw1 Hn1].
  destruct (enable_pairs true ((λ t, (t, i)) <$> to) cfg1 Hw1) as (cfg2 & E2 & H2).
  { intros a b (t & [= -> ->] & Ht)%list_elem_of_fmap. rewrite Hn1. auto. }
  rewrite <- list_fmap_compose in E2. unfold compose in E2. simpl in E2.
  exists cfg2. split; [done|]. eapply relinks_ext; [|by eapply relinks_trans]. intros a b x _ _. simpl.
  repeat case_decide; rewrite ?list_elem_of_fmap in *; try done; naive_solver.
Qed.

Lemma incoming_ok cfg i from j :
  wired cfg → j + length from ≤ cfg_n cfg → incoming cfg i j from = Some ((λ f, end_at cfg f i) <$> from).
Proof.
  intros Hw. revert j. induction from as [|f from IH]; intros j Hj; [done|]. simpl in Hj.
  destruct (wi_rows _ Hw j) as (row & E & _); [lia|]. cbn [incoming]. rewrite E. cbn [mbind option_bind].
  by rewrite IH by lia.
Qed.

Lemma disconnect_ok i from cfg :
  wired cfg → i < cfg_n cfg → (∀ t, t ∈ from → t < cfg_n cfg) → length from ≤ cfg_n cfg →
  ∃ cfg', disconnectUnlocked i from cfg = Some cfg' ∧
    relinks (λ a b x, if decide ((a = i ∧ b ∈ from) ∨ (b = i ∧ a ∈ from)) then false else x) cfg cfg'.
Proof.
  intros Hw Hi Hfrom Hlen. unfold disconnectUnlocked. destruct (wi_rows _ Hw i Hi) as (row & E & _). rewrite E.
  cbn [mbind option_bind].
  destruct (enable_pairs false ((λ t, (i, t)) <$> from) cfg Hw) as (cfg1 & E1 & H1).
  { intros a b (t & [= -> ->] & Ht)%list_elem_of_fmap. auto. }
  rewrite <- list_fmap_compose in E1. unfold compose in E1. simpl in E1.
  assert ((λ f, row !! f) <$> from = (λ f, end_at cfg i f) <$> from) as ->.
  { apply list_fmap_ext. intros _ f _. unfold end_at. by rewrite E. }
  rewrite E1. cbn [mbind option_bind]. destruct (relinks_wired _ _ _ H1 Hw) as [Hw1 Hn1].
  rewrite incoming_ok by (done || lia). cbn [mbind option_bind].
  destruct (enable_pairs false ((λ t, (t, i)) <$> from) cfg1 Hw1) as (cfg2 & E2 & H2).
  { intros a b (t & [= -> ->] & Ht)%list_elem_of_fmap. rewrite Hn1. auto. }
  rewrite <- list_fmap_compose in E2. unfold compose in E2. simpl in E2.
  exists cfg2. split; [done|]. eapply relinks_ext; [|by eapply relinks_trans]. intros a b x _ _. simpl.
  repeat case_decide; rewrite ?list_elem_of_fmap in *; try done; naive_solver.
Qed.

(** What one loop of partition does, after the servers in [l]. *)
Definition side (p q l : list nat) (a b : nat) (x : bool) : bool :=
  if decide ((a ∈ l ∧ b ∈ p) ∨ (b ∈ l ∧ a ∈ p)) then true
  else if decide ((a ∈ l ∧ b ∈ q) ∨ (b ∈ l ∧ a ∈ q)) then false else x.

Lemma one_side_ok p q l cfg :
  (∀ i, i ∈ l → i ∈ p) → (∀ i, i ∈ p → i ∈ q → False) → (∀ i, i ∈ p → i < cfg_n cfg) → (∀ i, i ∈ q → i < cfg_n cfg) →
  length q ≤ cfg_n cfg → wired cfg →
  ∃ cfg', each (λ i cfg, cfg ← disconnectUnlocked i q cfg; connectUnlocked i p cfg) l cfg = Some cfg' ∧
    relinks (side p q l) cfg cfg'.
Proof.
  intros Hl Hd Hp Hq Hlen Hw. revert cfg Hp Hq Hlen Hw. induction l as [|i l IH]; intros cfg Hp Hq Hlen Hw.
  { exists cfg. split; [done|]. exists (enabled (cfg_net cfg)). split; [by destruct cfg as [[] ? ? ? ? ? ? ? ? ?]|].
    intros a b _ _. unfold side. by rewrite !decide_False by set_solver. }
  assert (i ∈ p) as Hi by (apply Hl; set_solver). cbn [each].
  destruct (disconnect_ok i q cfg Hw) as (cfg1 & E1 & H1); [auto|done|done|].
  destruct (relinks_wired _ _ _ H1 Hw) as [Hw1 Hn1].
  destruct (connect_ok i p cfg1 Hw1) as (cfg2 & E2 & H2); [rewrite Hn1; auto|rewrite Hn1; auto|].
  destruct (relinks_wired _ _ _ H2 Hw1) as [Hw2 Hn2]. rewrite E1. cbn [mbind option_bind]. rewrite E2. cbn [mbind option_bind].
  destruct (IH (λ j Hj, Hl j ltac:(set_solver)) cfg2) as (cfg3 & E3 & H3); try (rewrite Hn2, Hn1); try done.
  exists cfg3. split; [done|]. eapply relinks_ext; [|eapply relinks_trans; [eapply relinks_trans|]; done].
  intros a b x _ _. unfold side. specialize (Hd i Hi). repeat case_decide; try done; exfalso; set_solver.
Qed.

(** partition isolates the two sides.  When every server has its ends and
    the two lists split the servers, partition succeeds; afterwards two servers
    can call each other exactly when they are on the same side, and nothing
    but these connections has changed. *)
Theorem partition_isolates p1 p2 cfg :
  wired cfg → p1 ++ p2 ≡ₚ seq 0 (cfg_n cfg) →
  ∃ cfg', partition p1 p2 cfg = Some cfg' ∧ (∃ en, cfg' = upd en cfg) ∧
    ∀ a b, a < cfg_n cfg → b < cfg_n cfg → linked cfg' a b = bool_decide (a ∈ p1 ↔ b ∈ p1).
Proof.
  intros Hw Hperm. assert (∀ i, i < cfg_n cfg ↔ i ∈ p1 ∨ i ∈ p2) as Hin.
  { intros i. rewrite <- elem_of_app, Hperm, elem_of_seq. lia. }
  assert (∀ i, i ∈ p1 → i ∈ p2 → False) as Hd.
  { assert (NoDup (p1 ++ p2)) as Hnd by (rewrite Hperm; apply NoDup_seq). apply list.NoDup_app in Hnd as (_ & ? & _). auto. }
  assert (length p1 + length p2 = cfg_n cfg) as Hlen by (by rewrite <- length_app, Hperm, length_seq).
  unfold partition, one_side. destruct (one_side_ok p1 p2 p1 cfg) as (cfg1 & E1 & H1); try done; [set_solver..|lia|].
  destruct (relinks_wired _ _ _ H1 Hw) as [Hw1 Hn1]. rewrite E1. cbn [mbind option_bind].
  destruct (one_side_ok p2 p1 p2 cfg1) as (cfg2 & E2 & H2); rewrite ?Hn1; try done; [set_solver..|lia|].
  exists cfg2. split; [done|]. destruct (relinks_trans _ _ _ _ _ H1 H2) as (en & -> & Hlk). split; [by exists en|].
  intros a b Ha Hb. rewrite Hlk by done. apply Hin in Ha, Hb. unfold side.
  repeat case_decide; case_bool_decide; try done; exfalso; naive_solver.
Qed.
End connections.

(** ** The partition that puts the leader in the minority *)

(** A slice of [m] zeros whose first elements are those of [d]. *)
Definition padded (m : nat) (d : list nat) : list nat := take m d ++ replicate (m - length d) 0.

Lemma padded_length m d : length (padded m d) = m.
Proof. unfold padded. rewrite length_app, length_take, length_replicate. lia. Qed.

Lemma padded_nil m : padded m [] = replicate m 0.
Proof. unfold padded. by rewrite take_nil, Nat.sub_0_r. Qed.

Lemma padded_insert m d i : length d < m → <[length d := i]> (padded m d) = padded m (d ++ [i]).
Proof.
  intros Hd. unfold padded. rewrite !take_ge by (rewrite ?length_app; simpl; lia).
  replace (m - length d) with (S (m - length (d ++ [i]))) by (rewrite length_app; simpl; lia).
  rewrite insert_app_r_alt by done. rewrite Nat.sub_diag. simpl. by rewrite <- app_assoc.
Qed.

Lemma padded_full m d i : m ≤ length d → padded m (d ++ [i]) = padded m d.
Proof.
  intros Hd. unfold padded. rewrite take_app_le by done. f_equal. rewrite length_app. simpl.
  by replace (m - (length d + 1)) with (m - length d) by lia.
Qed.

Lemma split_servers_ok l ids m1 m2 d :
  length d + length (filter (.≠ l) ids) ≤ m1 + m2 →
  split_servers l ids (length d) (padded m1 d) (padded m2 (drop m1 d)) =
    Some (length (d ++ filter (.≠ l) ids), padded m1 (d ++ filter (.≠ l) ids), padded m2 (drop m1 (d ++ filter (.≠ l) ids))).
Proof.
  revert d. induction ids as [|i ids IH]; intros d Hle; cbn [split_servers]; [by rewrite filter_nil, app_nil_r|].
  case_bool_decide as Hi.
  2: { rewrite filter_cons_False in Hle |- * by tauto. by apply IH. }
  rewrite filter_cons_True in Hle |- * by done. simpl in Hle. rewrite !padded_length.
  replace (d ++ i :: filter (.≠ l) ids) with ((d ++ [i]) ++ filter (.≠ l) ids) by by rewrite <- app_assoc.
  rewrite <- IH by (rewrite length_app; simpl; lia). rewrite length_app, Nat.add_1_r. case_bool_decide as Hj.
  - rewrite padded_insert by done. by rewrite !(drop_ge _ m1) by (rewrite ?length_app; simpl; lia).
  - rewrite bool_decide_true by lia. rewrite padded_full by lia. rewrite drop_app_le by lia.
    rewrite <- padded_insert by (rewrite length_drop; lia). by rewrite length_drop.
Qed.

(** Everyone but the leader, in order. *)
Lemma others n l : l < n → filter (.≠ l) (seq 0 n) ++ [l] ≡ₚ seq 0 n.
Proof.
  intros Hl. apply NoDup_Permutation; [|apply NoDup_seq|].
  - apply list.NoDup_app. split_and!; [apply list.NoDup_filter, NoDup_seq| |apply NoDup_singleton].
    intros x. rewrite list_elem_of_filter, list_elem_of_singleton. tauto.
  - intros x. rewrite elem_of_app, list_elem_of_filter, list_elem_of_singleton, elem_of_seq.
    destruct (decide (x = l)); lia.
Qed.

Section partitions.
Context `{!Gob (PersistentState Op)} `{!Gob Machine} {Val Rcvr : Type}.
Implicit Types (cfg : config (Val := Val) (Rcvr := Rcvr)).

(** With an odd number of servers, at least three, make_partition splits
    them into a majority and a minority, and the leader that it found (server 0
    when there was none) is in the minority. *)
Theorem make_partition_majority m cfg found l :
  cfg_n cfg = 2 * m + 1 → 1 ≤ m → cfg_Leader cfg = Some (found, l) → l < cfg_n cfg →
  ∃ p1 p2, make_partition cfg = Some (p1, p2) ∧ p1 ++ p2 ≡ₚ seq 0 (cfg_n cfg) ∧
    length p1 = m + 1 ∧ length p2 = m ∧ l ∈ p2.
Proof.
  intros Hn Hm HL Hl. set (d := filter (.≠ l) (seq 0 (cfg_n cfg))). pose proof (others _ _ Hl) as Hperm. fold d in Hperm.
  assert (length d = 2 * m) as Hd.
  { apply Permutation_length in Hperm. rewrite length_app, length_seq in Hperm. simpl in Hperm. lia. }
  assert (cfg_n cfg / 2 = m) as Hhalf by (rewrite Hn; symmetry; apply (Nat.div_unique _ _ _ 1); lia).
  unfold make_partition. rewrite HL. cbn [mbind option_bind]. rewrite Hhalf.
  pose proof (split_servers_ok l (seq 0 (cfg_n cfg)) (m + 1) m []) as E. fold d in E. simpl app in E. simpl length in E.
  rewrite drop_nil, !padded_nil in E. rewrite E by lia. clear E. cbn [mbind option_bind].
  assert (padded (m + 1) d = take (m + 1) d) as ->.
  { unfold padded. replace (m + 1 - length d) with 0 by lia. by rewrite app_nil_r. }
  assert (padded m (drop (m + 1) d) = drop (m + 1) d ++ [0]) as ->.
  { unfold padded. rewrite take_ge by (rewrite length_drop; lia). rewrite length_drop, Hd.
    by replace (m - (2 * m - (m + 1))) with 1 by lia. }
  assert (go_set (drop (m + 1) d ++ [0]) (zlen (drop (m + 1) d ++ [0]) - 1) l = Some (drop (m + 1) d ++ [l])) as ->.
  { apply go_set_Some. unfold zlen. rewrite length_app. simpl. split; [lia|].
    replace (Z.to_nat _) with (length (drop (m + 1) d) + 0) by lia. by rewrite insert_app_r. }
  cbn [mbind option_bind]. eexists _, _. split; [done|]. split_and!.
  - by rewrite app_assoc, take_drop.
  - rewrite length_take. lia.
  - rewrite length_app, length_drop. simpl. lia.
  - set_solver.
Qed.

(** ** Crash and restart *)

(** C32. Storage across a crash.  ShutdownServer kills server [i], takes it off
    the network and cuts its connections; whatever the old instance still
    does (to its own state, its storage included) or other servers do
    afterwards, StartServer starts the new instance from what the old one had
    persisted when it was shut down. *)
Theorem restart_last_persisted (kvMethods rfMethods : list (Method (Val := Val) (Rcvr := Rcvr)))
    i k kv cfg cfg1 cfg2 cfg3 names now :
  wired cfg → i < cfg_n cfg → cfg_kvservers cfg !! i = Some (Some k) → cfg_saved cfg !! i = Some (Some (OfServer k)) →
  cfg_kv cfg !! k = Some kv → ShutdownServer i cfg = Some cfg1 →
  cfg_saved cfg2 !! i = cfg_saved cfg1 !! i → length (cfg_kvservers cfg2) = length (cfg_kvservers cfg1) →
  StartServer kvMethods rfMethods i names now cfg2 = Some cfg3 →
  (cfg_kv cfg1 !! k = Some (KVKill kv) ∧ server_at (cfg_net cfg1) i = None ∧
   (∀ j, j < cfg_n cfg → linked cfg1 i j = false ∧ linked cfg1 j i = false)) ∧
  ∃ k', cfg_kvservers cfg3 !! i = Some (Some k') ∧ k' = length (cfg_kv cfg2) ∧
    cfg_kv cfg3 !! k' = Some (StartKVServer (Z.of_nat (cfg_n cfg2)) (Z.of_nat i) (persister (kv_rf kv)) (cfg_maxraftstate cfg2) now).1 ∧
    cfg_saved cfg3 !! i = Some (Some (OfServer k')) ∧ server_at (cfg_net cfg3) i = Some (length (cfg_rpc cfg2)).
Proof.
  intros Hw Hi Hkv Hsv Hk HS Hsame Hlen HR. unfold ShutdownServer in HS.
  destruct (disconnect_ok i (All cfg) cfg Hw Hi) as (cfg' & E & (en & -> & Hlk)).
  { intros t. unfold All. rewrite elem_of_seq. lia. }
  { unfold All. by rewrite length_seq. }
  rewrite E in HS. cbn [mbind option_bind] in HS. simpl in HS. rewrite Hsv in HS. simpl in HS. rewrite Hk in HS. simpl in HS.
  rewrite Hkv in HS. simpl in HS. injection HS as <-. split.
  - split_and!; simpl.
    + by rewrite list_lookup_alter_eq, Hk.
    + unfold server_at. simpl. by rewrite lookup_insert_eq.
    + intros j Hj. pose proof (Hlk i j Hi Hj) as H1. pose proof (Hlk j i Hj Hi) as H2.
      rewrite decide_True in H1 by (left; unfold All; rewrite elem_of_seq; lia).
      rewrite decide_True in H2 by (right; unfold All; rewrite elem_of_seq; lia). done.
  - simpl in Hsame. rewrite list_lookup_insert_eq in Hsame by (by eapply lookup_lt_Some). unfold StartServer in HR.
    apply bind_Some in HR as (net & En & HR). rewrite Hsame in HR. simpl in HR. case_bool_decide; [|done]. injection HR as <-.
    exists (length (cfg_kv cfg2)). simpl. split_and!; [|done| | |].
    + apply list_lookup_insert_eq. simpl in Hlen. rewrite Hlen, length_insert. by eapply lookup_lt_Some.
    + rewrite lookup_app_r, Nat.sub_diag by done. simpl. by destruct (persister (kv_rf kv)).
    + apply list_lookup_insert_eq. by eapply lookup_lt_Some.
    + unfold server_at. simpl. by rewrite lookup_insert_eq.
Qed.
End partitions.

(** ** A bench as make_config leaves it *)

Section setup.
Context `{!Gob (PersistentState Op)} `{!Gob Machine}.
Context {Val Rcvr : Type} (kvMethods rfMethods : list (Method (Val := Val) (Rcvr := Rcvr))).
Context (n : nat) (names : nat → list string) (now : nat → Z) (maxst : Z).
Context (Hlen : ∀ i, i < n → length (names i) = n).
Context (Hinj : ∀ i j i' j' e, i < n → i' < n → names i !! j = Some e → names i' !! j' = Some e → i = i' ∧ j = j').

Lemma make_client_ends_ok ns j net :
  NoDup ns → (∀ e, e ∈ ns → e ∉ ends net) →
  ∃ net', make_client_ends j ns net = Some net' ∧ ends net' = list_to_set ns ∪ ends net.
Proof.
  revert j net. induction ns as [|e ns IH]; intros j net Hnd He; [exists net; split; [done|set_solver]|].
  apply list.NoDup_cons in Hnd as [Hne Hnd]. cbn [make_client_ends]. unfold MakeEnd. rewrite bool_decide_false by set_solver.
  cbn [mbind option_bind]. match goal with |- context [make_client_ends _ ns ?net1] =>
    destruct (IH (S j) net1) as (net' & E & Hends); [done| |] end.
  { intros e' He'. simpl. rewrite not_elem_of_union, not_elem_of_singleton. split; [set_solver|]. apply He. set_solver. }
  exists net'. split; [done|]. rewrite Hends. set_solver.
Qed.

(** The first [k] servers were started. *)
Record started_cfg (k : nat) (cfg : config (Val := Val) (Rcvr := Rcvr)) : Prop := {
  sc_n : cfg_n cfg = n;
  sc_max : cfg_maxraftstate cfg = maxst;
  sc_len : length (cfg_endnames cfg) = n ∧ length (cfg_saved cfg) = n ∧ length (cfg_kvservers cfg) = n;
  sc_names : ∀ i, i < k → cfg_endnames cfg !! i = Some (Some (names i));
  sc_ends : ∀ e, e ∈ ends (cfg_net cfg) → ∃ i, i < k ∧ e ∈ names i;
  sc_old : ∀ i, i < k → cfg_kvservers cfg !! i = Some (Some i) ∧ cfg_saved cfg !! i = Some (Some (OfServer i));
  sc_new : ∀ i, k ≤ i → i < n → cfg_saved cfg !! i = Some None;
  sc_kv : cfg_kv cfg = (λ i, (StartKVServer (Z.of_nat n) (Z.of_nat i) MakePersister maxst (now i)).1) <$> seq 0 k
}.

Lemma StartServer_ok k cfg :
  started_cfg k cfg → k < n →
  ∃ cfg', StartServer kvMethods rfMethods k (names k) (now k) cfg = Some cfg' ∧ started_cfg (S k) cfg'.
Proof.
  intros [Hn Hmax (L1 & L2 & L3) Hnames Hends Hold Hnew Hkv] Hk.
  destruct (make_client_ends_ok (names k) 0 (cfg_net cfg)) as (net' & E & He).
  { apply NoDup_alt. intros a b e Ha Hb. by destruct (Hinj k a k b e Hk Hk Ha Hb). }
  { intros e [j Hj]%list_elem_of_lookup (i & Hi & [j' Hj']%list_elem_of_lookup)%Hends.
    destruct (Hinj k j i j' e) as [-> _]; try done; lia. }
  eexists. split.
  - unfold StartServer. rewrite E. cbn [mbind option_bind]. rewrite Hnew by done. cbn [mbind option_bind].
    rewrite bool_decide_true by lia. done.
  - rewrite Hn, Hmax. assert (length (cfg_kv cfg) = k) as Lk by (by rewrite Hkv, length_fmap, length_seq).
    split; cbn [cfg_n cfg_maxraftstate cfg_endnames cfg_saved cfg_kvservers cfg_net cfg_kv AddServer set_servers ends];
      rewrite ?length_insert; try done.
    + intros i Hi. destruct (decide (i = k)) as [->|]; [by rewrite list_lookup_insert_eq by lia|].
      rewrite list_lookup_insert_ne by done. apply Hnames. lia.
    + intros e. rewrite He. intros [?%elem_of_list_to_set|(i & ? & ?)%Hends]%elem_of_union; [exists k|exists i]; split; done || lia.
    + intros i Hi. rewrite Lk. destruct (decide (i = k)) as [->|]; [by rewrite !list_lookup_insert_eq by lia|].
      rewrite !list_lookup_insert_ne by done. apply Hold. lia.
    + intros i Hi Hi'. rewrite list_lookup_insert_ne by lia. apply Hnew; lia.
    + by rewrite Hkv, seq_S, fmap_app.
Qed.

Lemma start_all_ok m k cfg :
  started_cfg k cfg → k + m ≤ n →
  ∃ cfg', start_all kvMethods rfMethods names now (seq k m) cfg = Some cfg' ∧ started_cfg (k + m) cfg'.
Proof.
  revert k cfg. induction m as [|m IH]; intros k cfg Hc Hle; simpl.
  { exists cfg. by rewrite Nat.add_0_r. }
  destruct (StartServer_ok k cfg Hc) as (cfg1 & E & Hc1); [lia|]. rewrite E. simpl.
  rewrite <- Nat.add_succ_comm. apply IH; [done|lia].
Qed.

Lemma started_wired (cfg : config (Val := Val) (Rcvr := Rcvr)) : started_cfg n cfg → wired cfg.
Proof.
  intros [Hn _ (L1 & _) Hnames _ _ _ _]. split; rewrite ?Hn; [done| |].
  - intros i Hi. exists (names i). split; [by apply Hnames|by apply Hlen].
  - assert (∀ i j e, end_at cfg i j = Some e → i < n ∧ names i !! j = Some e) as Hat.
    { intros i j e He. unfold end_at in He. destruct (cfg_endnames cfg !! i) as [row|] eqn:Ei; [|done].
      assert (i < n) as Hi by (apply lookup_lt_Some in Ei; lia). split; [done|]. rewrite Hnames in Ei by done. by simplify_eq. }
    intros i j i' j' e [Hi He]%Hat [Hi' He']%Hat. by apply (Hinj i j i' j' e).
Qed.

Lemma ConnectAll_ok (cfg : config (Val := Val) (Rcvr := Rcvr)) :
  wired cfg → ∃ cfg', ConnectAll cfg = Some cfg' ∧
    relinks (λ a b x, if decide (a ∈ All cfg ∧ b ∈ All cfg) then true else x) cfg cfg'.
Proof.
  intros Hw. unfold ConnectAll.
  assert (∀ l all, (∀ i, i ∈ l → i < cfg_n cfg) → (∀ i, i ∈ all → i < cfg_n cfg) →
    ∃ cfg', each (λ i, connectUnlocked i all) l cfg = Some cfg' ∧
      relinks (λ a b x, if decide ((a ∈ l ∧ b ∈ all) ∨ (b ∈ l ∧ a ∈ all)) then true else x) cfg cfg') as Hloop.
  { intros l all. revert cfg Hw. induction l as [|i l IH]; intros cfg Hw Hl Hall.
    { exists cfg. split; [done|]. exists (enabled (cfg_net cfg)). split; [by destruct cfg as [[] ? ? ? ? ? ? ? ? ?]|].
      intros a b _ _. by rewrite decide_False by set_solver. }
    cbn [each]. destruct (connect_ok i all cfg Hw) as (cfg1 & E1 & H1); [apply Hl; set_solver|done|].
    destruct (relinks_wired _ _ _ H1 Hw) as [Hw1 Hn1]. rewrite E1. cbn [mbind option_bind].
    destruct (IH cfg1 Hw1) as (cfg2 & E2 & H2); [rewrite Hn1; set_solver|by rewrite Hn1|].
    exists cfg2. split; [done|]. eapply relinks_ext; [|by eapply relinks_trans]. intros a b x _ _. simpl.
    repeat case_decide; try done; exfalso; set_solver. }
  destruct (Hloop (All cfg) (All cfg)) as (cfg' & E & H); [intros i; unfold All; rewrite elem_of_seq; lia..|].
  exists cfg'. split; [done|]. eapply relinks_ext; [|exact H]. intros a b x _ _. simpl. repeat case_decide; try done; tauto.
Qed.

(** make_config starts [n] servers, every one connected to every one. *)
Lemma make_config_ok unreliable start :
  ∃ cfg, make_config kvMethods rfMethods n unreliable maxst names now start = Some cfg ∧ cfg_n cfg = n ∧ wired cfg ∧
    (∀ a b, a < n → b < n → linked cfg a b = true) ∧ reliable (cfg_net cfg) = negb unreliable ∧
    (∀ i, i < n → cfg_kvservers cfg !! i = Some (Some i) ∧ cfg_saved cfg !! i = Some (Some (OfServer i)) ∧
       cfg_kv cfg !! i = Some (StartKVServer (Z.of_nat n) (Z.of_nat i) MakePersister maxst (now i)).1).
Proof.
  unfold make_config. match goal with |- context [start_all _ _ _ _ _ ?c] => set (cfg0 := c) end.
  assert (started_cfg 0 cfg0) as H0.
  { split; simpl; rewrite ?length_replicate; try done; try lia; try set_solver. intros i _ Hi. by apply lookup_replicate_2. }
  destruct (start_all_ok n 0 cfg0 H0) as (cfg1 & E1 & H1); [lia|]. rewrite E1. cbn [mbind option_bind]. simpl in H1.
  destruct (ConnectAll_ok cfg1 (started_wired _ H1)) as (cfg2 & E2 & (en & -> & Hlk)). rewrite E2. cbn [mbind option_bind].
  pose proof (started_wired _ H1) as Hw. destruct H1 as [Hn _ _ _ _ Hold _ Hkv]. eexists. split; [done|]. split_and!; try done.
  - destruct Hw. by split.
  - intros a b Ha Hb. specialize (Hlk a b). rewrite Hn in Hlk. specialize (Hlk Ha Hb).
    rewrite decide_True in Hlk by (unfold All; rewrite Hn, !elem_of_seq; lia). exact Hlk.
  - intros i Hi. destruct (Hold i Hi) as [??]. split_and!; try done. simpl. by rewrite Hkv, list_lookup_fmap, lookup_seq_lt.
Qed.
End setup.

(** ** Handles in random order *)

Lemma replaced {A} (l : list A) i x y : l !! i = Some x → x :: <[i := y]> l ≡ₚ y :: l.
Proof.
  intros (l1 & l2 & -> & ->)%list_elem_of_split_length. rewrite <- (Nat.add_0_r (length l1)), insert_app_r. simpl.
  rewrite <- !Permutation_middle. constructor.
Qed.

Lemma swap_perm {A} (l : list A) i j x y : l !! i = Some x → l !! j = Some y → <[j := x]> (<[i := y]> l) ≡ₚ l.
Proof.
  intros Hi Hj. assert (<[i := y]> l !! j = Some y) as Hj'.
  { destruct (decide (i = j)) as [->|]; [apply list_lookup_insert_eq; by eapply lookup_lt_Some|by rewrite list_lookup_insert_ne]. }
  apply (Permutation_cons_inv (a := y)). rewrite (replaced _ j y x Hj'). by apply replaced.
Qed.

(** random_handles gives a client all its ends, in some order. *)
Lemma random_handles_perm {A} (rnd : nat → nat) (kvh : list A) :
  (∀ i, rnd i ≤ i) → ∃ sa, random_handles rnd kvh = Some sa ∧ sa ≡ₚ kvh.
Proof.
  intros Hrnd. unfold random_handles.
  assert (∀ ids (sa : list A), (∀ i, i ∈ ids → i < length sa) → ∃ sa', shuffle rnd ids sa = Some sa' ∧ sa' ≡ₚ sa) as Hloop.
  { intros ids. induction ids as [|i ids IH]; intros sa Hin; [by exists sa|]. cbn [shuffle]. unfold swap.
    assert (i < length sa) as Hi by (apply Hin; set_solver). specialize (Hrnd i).
    destruct (lookup_lt_is_Some_2 sa i Hi) as [x Hx]. destruct (lookup_lt_is_Some_2 sa (rnd i)) as [y Hy]; [lia|].
    rewrite Hx. cbn [mbind option_bind]. rewrite Hy. cbn [mbind option_bind].
    destruct (IH (<[rnd i := x]> (<[i := y]> sa))) as (sa' & E & Hp); [rewrite !length_insert; set_solver|].
    exists sa'. split; [done|]. rewrite Hp. by apply swap_perm. }
  apply Hloop. intros i. rewrite elem_of_seq. lia.
Qed.

(** ** A bench of three servers *)

Definition bench_names (i : nat) : list string := endname i <$> seq 0 3.

Definition bench (n : nat) : option (config (Val := Z) (Rcvr := Z)) :=
  make_config [] [] n false (-1) bench_names (λ _, 0%Z) 0.

Lemma bench_ok :
  ∃ cfg, bench 3 = Some cfg ∧ cfg_n cfg = 3 ∧ wired cfg ∧
    (∀ i, i < 3 → cfg_kvservers cfg !! i = Some (Some i) ∧ cfg_saved cfg !! i = Some (Some (OfServer i)) ∧
       cfg_kv cfg !! i = Some (StartKVServer 3 (Z.of_nat i) MakePersister (-1) 0).1).
Proof.
  destruct (make_config_ok (Val := Z) (Rcvr := Z) [] [] 3 bench_names (λ _, 0%Z) (-1)) with (unreliable := false) (start := 0%Z)
    as (cfg & E & Hn & Hw & _ & _ & Hs).
  - intros i _. unfold bench_names. by rewrite length_fmap, length_seq.
  - intros i j i' j' e _ _ (a & -> & Ha)%list_lookup_fmap_Some (b & E & Hb)%list_lookup_fmap_Some.
    apply endname_inj in E as [-> ->]. split; [done|]. apply lookup_seq in Ha as [-> _], Hb as [? _]. lia.
  - exists cfg. exact (conj E (conj Hn (conj Hw Hs))).
Qed.

Lemma partition_isolates_witness :
  ∃ cfg cfg', bench 3 = Some cfg ∧ partition [0; 2] [1] cfg = Some cfg' ∧
    linked cfg' 0 2 = true ∧ linked cfg' 0 1 = false ∧ linked cfg' 1 2 = false.
Proof.
  destruct bench_ok as (cfg & E & Hn & Hw & _). exists cfg.
  destruct (partition_isolates [0; 2] [1] cfg Hw) as (cfg' & Ep & _ & Hl).
  - rewrite Hn. simpl. apply perm_skip, perm_swap.
  - exists cfg'. rewrite Hn in Hl. split; [exact E|]. split; [exact Ep|].
    rewrite !Hl by lia. split_and!; reflexivity.
Defined.

Lemma make_partition_majority_witness :
  ∃ cfg p1 p2, bench 3 = Some cfg ∧ make_partition cfg = Some (p1, p2) ∧ p1 ++ p2 ≡ₚ seq 0 3 ∧ length p1 = 2 ∧ 0 ∈ p2.
Proof.
  destruct bench_ok as (cfg & E & Hn & _ & Hs). exists cfg.
  destruct (make_partition_majority 1 cfg false 0) as (p1 & p2 & Ep & Hperm & H1 & _ & H2).
  - rewrite Hn. reflexivity.
  - lia.
  - unfold cfg_Leader. rewrite Hn. cbn [seq find_leader].
    destruct (Hs 0 ltac:(lia)) as (-> & _ & K0), (Hs 1 ltac:(lia)) as (-> & _ & K1), (Hs 2 ltac:(lia)) as (-> & _ & K2).
    cbn [mbind option_bind]. rewrite K0, K1, K2. reflexivity.
  - rewrite Hn. lia.
  - rewrite Hn in Hperm. exists p1, p2. split_and!; done.
Defined.

(** With an even number of servers a slot of the minority keeps its zero. *)
Example make_partition_even :
  (cfg ← make_config (Val := Z) (Rcvr := Z) [] [] 4 false (-1) (λ i, endname i <$> seq 0 4) (λ _, 0%Z) 0; make_partition cfg) =
    Some ([1; 2; 3], [0; 0]).
Proof. vm_compute. reflexivity. Qed.

Lemma restart_last_persisted_witness :
  ∃ cfg cfg1 cfg3 k', bench 3 = Some cfg ∧ ShutdownServer 1 cfg = Some cfg1 ∧
    StartServer [] [] 1 ["a"; "b"; "c"] 0 cfg1 = Some cfg3 ∧ cfg_kvservers cfg3 !! 1 = Some (Some k') ∧
    cfg_saved cfg3 !! 1 = Some (Some (OfServer k')).
Proof.
  destruct bench_ok as (cfg & E & Hn & Hw & Hs). destruct (Hs 1 ltac:(lia)) as (H1 & H2 & H3).
  assert (is_Some (cfg ← bench 3; ShutdownServer 1 cfg)) as [cfg1 E1] by (apply some_true; vm_compute; reflexivity).
  rewrite E in E1. simpl in E1.
  assert (is_Some (cfg ← bench 3; cfg ← ShutdownServer 1 cfg; StartServer [] [] 1 ["a"; "b"; "c"] 0 cfg)) as [cfg3 E3]
    by (apply some_true; vm_compute; reflexivity).
  rewrite E in E3. simpl in E3. rewrite E1 in E3. simpl in E3.
  destruct (restart_last_persisted [] [] 1 1 (StartKVServer 3 (Z.of_nat 1) MakePersister (-1) 0).1 cfg cfg1 cfg1 cfg3 ["a"; "b"; "c"] 0 Hw) as (_ & k' & Hk' & _ & _ & Hs' & _).
  - rewrite Hn. lia.
  - exact H1.
  - exact H2.
  - exact H3.
  - exact E1.
  - reflexivity.
  - reflexivity.
  - exact E3.
  - exists cfg, cfg1, cfg3, k'. split_and!; assumption.
Defined.
