(* ===== verification/RaftConfig.v ===== *)
(** * The test bench of the Raft peers (raft/config.go)

    [config] runs peers on the simulated network, connects and disconnects
    them, crashes and restarts them, and records what their services receive.
    Peers are objects with identity ([cfg_peers]); a persister is either in a
    peer ([OfPeer], the pointer that peer and bench share) or a copy that only
    the bench holds ([Copied]).  Random names and clock readings are arguments.

    An operation gives a value, ends the test ([Failed]: t.Fatal, or log.Fatalf,
    which ends the process, so the [applyErr] after it is never set), or panics.
    One message of an applier goroutine is one operation.

    This file has the operations on servers and connections, and the readers of
    applyCh; [RaftVerdict] has the checks the tests call. *)

From Stdlib Require Import Ascii.
From S2P Require Import Prelude Persister RaftTypes RaftHandlers Labrpc.

(** ** Outcomes *)

Inductive Failure :=
| DuplicateEnd
| CommitMismatch (index : Z) (i j : nat)
| ApplyOutOfOrder (i : nat) (index : Z)
| NilSnapshot
| SnapshotDecode
| SnapshotMismatch (i : nat)
| TestTooLong
| TwoLeaders (term : Z) (count : nat)
| ExpectedOneLeader
| TermsDisagree
| UnexpectedLeader (i : nat)
| ValuesDiffer (index : Z)
| TooFewDecided (nd : nat) (index : Z) (n : nat)
| NoAgreement.

(** [Spent]: the fuel of a loop was not enough. *)
Inductive Res (A : Type) := Ok (a : A) | Failed (f : Failure) | Panic | Spent.
Arguments Ok {A} a.
Arguments Failed {A} f.
Arguments Panic {A}.
Arguments Spent {A}.

#[export] Instance Failure_eq_dec : EqDecision Failure.
Proof. solve_decision. Defined.

#[export] Instance Res_ret : MRet Res := λ A a, Ok a.
#[export] Instance Res_bind : MBind Res := λ A B f m,
  match m with Ok a => f a | Failed e => Failed e | Panic => Panic | Spent => Spent end.

(** A nil dereference or an index out of range. *)
Definition must {A} (o : option A) : Res A := match o with Some a => Ok a | None => Panic end.

(** [if err != "" { Fatal }] *)
Definition fatal_if (err : option Failure) : Res unit := match err with Some f => Failed f | None => Ok () end.

Lemma bind_Ok {A B} (m : Res A) (f : A → Res B) b : m ≫= f = Ok b ↔ ∃ a, m = Ok a ∧ f a = Ok b.
Proof. destruct m; simpl; split; try done; [by exists a|by intros (? & [= ->] & ?)|by intros (? & ? & ?)..]. Qed.

Lemma must_Ok {A} (o : option A) a : must o = Ok a ↔ o = Some a.
Proof. destruct o; simpl; split; congruence. Qed.

Lemma fatal_if_Ok err u : fatal_if err = Ok u → err = None.
Proof. by destruct err. Qed.

(** Invert a sequence of operations that returned. *)
Ltac res_inv :=
  repeat match goal with
  | H : mbind _ _ = Ok _ |- _ => apply bind_Ok in H as (? & ? & ?)
  | H : (_ ≫= _) = Ok _ |- _ => apply bind_Ok in H as (? & ? & ?)
  | H : must _ = Ok _ |- _ => apply must_Ok in H
  | H : fatal_if _ = Ok _ |- _ => apply fatal_if_Ok in H
  | H : Ok _ = Ok _ |- _ => injection H as H; subst
  | H : Failed _ = Ok _ |- _ => discriminate H
  | H : Panic = Ok _ |- _ => discriminate H
  | H : Spent = Ok _ |- _ => discriminate H
  end.

(** ** Random names *)

(** base64.URLEncoding: a sextet as a character, and groups of three bytes. *)
Definition b64_alphabet : string := "ABCDEFGHIJKLMNOPQRSTUVWXYZabcdefghijklmnopqrstuvwxyz0123456789-_".

Definition b64_char (x : Z) : Ascii.ascii := default "="%char (String.get (Z.to_nat x) b64_alphabet).

Fixpoint EncodeToString (b : list Z) : string :=
  match b with
  | [] => EmptyString
  | [x] => String (b64_char (x / 4)) (String (b64_char (x mod 4 * 16)) "==")
  | [x; y] =>
      String (b64_char (x / 4)) (String (b64_char (x mod 4 * 16 + y / 16))
        (String (b64_char (y mod 16 * 4)) "="))
  | x :: y :: z :: b =>
      String (b64_char (x / 4)) (String (b64_char (x mod 4 * 16 + y / 16))
        (String (b64_char (y mod 16 * 4 + z / 64)) (String (b64_char (z mod 64)) (EncodeToString b))))
  end.

(** [b] is what crand.Read put into the [2*n] bytes; [s[0:n]] can be out of range. *)
Definition randstring (n : nat) (b : list Z) : option string :=
  let s := EncodeToString b in
  if bool_decide (n ≤ String.length s) then Some (String.substring 0 n s) else None.

(** [big.NewInt(1 << 62)] bounds the value of crand.Int. *)
Definition makeSeed (bigx : Z) : Z := (bigx mod 2 ^ 62)%Z.

(** ** The bench *)

Inductive Saved := OfPeer (k : nat) | Copied (ps : Persister).

Section config.
Context {Cmd : Type} `{EqDecision Cmd} `{!Gob (PersistentState Cmd)} `{!Gob (Z * list (option Cmd))}.
Context {Val Rcvr : Type} (rfMethods : list (Method (Val := Val) (Rcvr := Rcvr))).

(** The last two fields are the objects: every peer that was made, and the
    labrpc servers. *)
Record config := mkConfig {
  cfg_finished : Z;
  cfg_net : Network (EN := string) (SN := nat);
  cfg_n : nat;
  cfg_rafts : list (option nat);
  cfg_applyErr : list (option Failure);
  cfg_connected : list bool;
  cfg_saved : list (option Saved);
  cfg_endnames : list (option (list string));
  cfg_logs : list (gmap Z (option Cmd));
  cfg_lastApplied : list Z;
  cfg_start : Z;
  cfg_t0 : Z;
  cfg_rpcs0 : Z;
  cfg_cmds0 : Z;
  cfg_bytes0 : Z;
  cfg_maxIndex : Z;
  cfg_maxIndex0 : Z;
  cfg_peers : list (Raft Cmd);
  cfg_rpc : list (Server (Val := Val) (Rcvr := Rcvr))
}.

(** *** Field updates *)

Definition set_cfg_net net (c : config) : config :=
  mkConfig (cfg_finished c) net (cfg_n c) (cfg_rafts c) (cfg_applyErr c) (cfg_connected c) (cfg_saved c) (cfg_endnames c)
    (cfg_logs c) (cfg_lastApplied c) (cfg_start c) (cfg_t0 c) (cfg_rpcs0 c) (cfg_cmds0 c) (cfg_bytes0 c) (cfg_maxIndex c)
    (cfg_maxIndex0 c) (cfg_peers c) (cfg_rpc c).
Definition set_cfg_connected l (c : config) : config :=
  mkConfig (cfg_finished c) (cfg_net c) (cfg_n c) (cfg_rafts c) (cfg_applyErr c) l (cfg_saved c) (cfg_endnames c)
    (cfg_logs c) (cfg_lastApplied c) (cfg_start c) (cfg_t0 c) (cfg_rpcs0 c) (cfg_cmds0 c) (cfg_bytes0 c) (cfg_maxIndex c)
    (cfg_maxIndex0 c) (cfg_peers c) (cfg_rpc c).
Definition set_cfg_servers rafts saved endnames (c : config) : config :=
  mkConfig (cfg_finished c) (cfg_net c) (cfg_n c) rafts (cfg_applyErr c) (cfg_connected c) saved endnames
    (cfg_logs c) (cfg_lastApplied c) (cfg_start c) (cfg_t0 c) (cfg_rpcs0 c) (cfg_cmds0 c) (cfg_bytes0 c) (cfg_maxIndex c)
    (cfg_maxIndex0 c) (cfg_peers c) (cfg_rpc c).
Definition set_cfg_logs logs lastApplied maxIndex (c : config) : config :=
  mkConfig (cfg_finished c) (cfg_net c) (cfg_n c) (cfg_rafts c) (cfg_applyErr c) (cfg_connected c) (cfg_saved c)
    (cfg_endnames c) logs lastApplied (cfg_start c) (cfg_t0 c) (cfg_rpcs0 c) (cfg_cmds0 c) (cfg_bytes0 c) maxIndex
    (cfg_maxIndex0 c) (cfg_peers c) (cfg_rpc c).
Definition set_cfg_stats t0 rpcs0 cmds0 bytes0 maxIndex0 (c : config) : config :=
  mkConfig (cfg_finished c) (cfg_net c) (cfg_n c) (cfg_rafts c) (cfg_applyErr c) (cfg_connected c) (cfg_saved c)
    (cfg_endnames c) (cfg_logs c) (cfg_lastApplied c) (cfg_start c) t0 rpcs0 cmds0 bytes0 (cfg_maxIndex c)
    maxIndex0 (cfg_peers c) (cfg_rpc c).
Definition set_cfg_finished z (c : config) : config :=
  mkConfig z (cfg_net c) (cfg_n c) (cfg_rafts c) (cfg_applyErr c) (cfg_connected c) (cfg_saved c)
    (cfg_endnames c) (cfg_logs c) (cfg_lastApplied c) (cfg_start c) (cfg_t0 c) (cfg_rpcs0 c) (cfg_cmds0 c) (cfg_bytes0 c)
    (cfg_maxIndex c) (cfg_maxIndex0 c) (cfg_peers c) (cfg_rpc c).
Definition set_cfg_objects peers rpc (c : config) : config :=
  mkConfig (cfg_finished c) (cfg_net c) (cfg_n c) (cfg_rafts c) (cfg_applyErr c) (cfg_connected c) (cfg_saved c)
    (cfg_endnames c) (cfg_logs c) (cfg_lastApplied c) (cfg_start c) (cfg_t0 c) (cfg_rpcs0 c) (cfg_cmds0 c) (cfg_bytes0 c)
    (cfg_maxIndex c) (cfg_maxIndex0 c) peers rpc.

(** What a persister holds now. *)
Definition saved_contents (cfg : config) (s : Saved) : option Persister :=
  match s with OfPeer k => persister <$> cfg_peers cfg !! k | Copied ps => Some ps end.

(** ** Connections *)

(** [cfg.endnames[i][j]] *)
Definition end_at (cfg : config) (i j : nat) : option string :=
  row ← cfg_endnames cfg !! i; row ← row; row !! j.

Definition is_connected (cfg : config) (j : nat) : bool := default false (cfg_connected cfg !! j).

(** A loop of [cfg.net.Enable] over these ends. *)
Fixpoint enable_ends (b : bool) (names : list (option string)) (cfg : config) : Res config :=
  match names with
  | [] => Ok cfg
  | name :: names => name ← must name; enable_ends b names (set_cfg_net (Enable name b (cfg_net cfg)) cfg)
  end.

(** [cfg.connected[i] = b] *)
Definition set_connected (i : nat) (b : bool) (cfg : config) : Res config :=
  _ ← must (cfg_connected cfg !! i);
  Ok (set_cfg_connected (<[i := b]> (cfg_connected cfg)) cfg).

Definition connect (i : nat) (cfg : config) : Res config :=
  cfg ← set_connected i true cfg;
  let js := filter (λ j, is_connected cfg j = true) (seq 0 (cfg_n cfg)) in
  cfg ← enable_ends true ((λ j, end_at cfg i j) <$> js) cfg;
  enable_ends true ((λ j, end_at cfg j i) <$> js) cfg.

(** [cfg.endnames[j] != nil] *)
Definition has_names (cfg : config) (j : nat) : bool :=
  match cfg_endnames cfg !! j with Some (Some _) => true | _ => false end.

Definition disconnect (i : nat) (cfg : config) : Res config :=
  cfg ← set_connected i false cfg;
  cfg ← enable_ends false (if has_names cfg i then (λ j, end_at cfg i j) <$> seq 0 (cfg_n cfg) else []) cfg;
  enable_ends false ((λ j, end_at cfg j i) <$> filter (λ j, has_names cfg j = true) (seq 0 (cfg_n cfg))) cfg.

Definition rpcCount (server : nat) (cfg : config) : Res Z := must (GetCount server (cfg_rpc cfg) (cfg_net cfg)).
Definition rpcTotal (cfg : config) : Z := GetTotalCount (cfg_net cfg).
Definition setunreliable (unrel : bool) (cfg : config) : config := set_cfg_net (Reliable (negb unrel) (cfg_net cfg)) cfg.
Definition bytesTotal (cfg : config) : Z := GetTotalBytes (cfg_net cfg).
Definition setlongreordering (longrel : bool) (cfg : config) : config :=
  set_cfg_net (LongReordering longrel (cfg_net cfg)) cfg.

(** ** Readers of applyCh *)

(** The loop of checkLogs: a mismatch found later replaces one found before. *)
Fixpoint find_mismatch (i : nat) (index : Z) (v : option Cmd) (j : nat) (logs : list (gmap Z (option Cmd)))
    (err_msg : option Failure) : option Failure :=
  match logs with
  | [] => err_msg
  | l :: logs =>
      find_mismatch i index v (S j) logs
        (match l !! index with
         | Some old => if bool_decide (old = v) then err_msg else Some (CommitMismatch index i j)
         | None => err_msg
         end)
  end.

Definition checkLogs (i : nat) (m : ApplyMsg Cmd) (cfg : config) : Res (config * (option Failure * bool)) :=
  let index := CommandIndex m in
  let err_msg := find_mismatch i index (MsgCommand m) 0 (cfg_logs cfg) None in
  l ← must (cfg_logs cfg !! i);
  let prevok := bool_decide (is_Some (l !! (index - 1)%Z)) in
  Ok (set_cfg_logs (<[i := <[index := MsgCommand m]> l]> (cfg_logs cfg)) (cfg_lastApplied cfg)
        (if (index >? cfg_maxIndex cfg)%Z then index else cfg_maxIndex cfg) cfg,
      (err_msg, prevok)).

(** [if m.CommandIndex > 1 && prevok == false] *)
Definition order_error (i : nat) (index : Z) (prevok : bool) (err_msg : option Failure) : option Failure :=
  if (index >? 1)%Z && negb prevok then Some (ApplyOutOfOrder i index) else err_msg.

(** One message of applier, and the messages of a channel. *)
Definition applier_msg (i : nat) (m : ApplyMsg Cmd) (cfg : config) : Res config :=
  if negb (CommandValid m) then Ok cfg
  else
    '(cfg, (err_msg, prevok)) ← checkLogs i m cfg;
    _ ← fatal_if (order_error i (CommandIndex m) prevok err_msg);
    Ok cfg.

Fixpoint applier (i : nat) (applyCh : list (ApplyMsg Cmd)) (cfg : config) : Res config :=
  match applyCh with [] => Ok cfg | m :: applyCh => cfg ← applier_msg i m cfg; applier i applyCh cfg end.

(** [cfg.logs[i][j] = xlog[j]] into a new map. *)
Definition log_of (xlog : list (option Cmd)) : gmap Z (option Cmd) :=
  list_to_map (zip (seqZ 0 (zlen xlog)) xlog).

(** An empty snapshot that is not nil fails as well, when it is decoded. *)
Definition ingestSnap (i : nat) (snapshot : list byte) (index : Z) (cfg : config) : Res (config * option Failure) :=
  if bool_decide (snapshot = []) then Failed NilSnapshot
  else
    match gob_decode (A := Z * list (option Cmd)) snapshot with
    | None => Failed SnapshotDecode
    | Some (lastIncludedIndex, xlog) =>
        if negb (index =? -1)%Z && negb (index =? lastIncludedIndex)%Z then Ok (cfg, Some (SnapshotMismatch i))
        else
          _ ← must (cfg_logs cfg !! i);
          _ ← must (cfg_lastApplied cfg !! i);
          Ok (set_cfg_logs (<[i := log_of xlog]> (cfg_logs cfg))
                (<[i := lastIncludedIndex]> (cfg_lastApplied cfg)) (cfg_maxIndex cfg) cfg, None)
    end.

Definition SnapShotInterval : Z := 10.

(** The entries [0 .. index] of a copied log; an absent one reads as nil. *)
Definition xlog_upto (index : Z) (l : gmap Z (option Cmd)) : list (option Cmd) :=
  (λ j, default None (l !! j)) <$> seqZ 0 (index + 1).

(** The bytes of the snapshot that applierSnap makes. *)
Definition make_snapshot (index : Z) (l : gmap Z (option Cmd)) : list byte := gob_encode (index, xlog_upto index l).

(** [cfg.lastApplied[i] = index] *)
Definition set_lastApplied_at (i : nat) (index : Z) (cfg : config) : config :=
  set_cfg_logs (cfg_logs cfg) (<[i := index]> (cfg_lastApplied cfg)) (cfg_maxIndex cfg) cfg.

(** The checks of a command that applierSnap receives. *)
Definition snap_check (i : nat) (m : ApplyMsg Cmd) (cfg : config) : Res (config * option Failure) :=
  la ← must (cfg_lastApplied cfg !! i);
  if negb (CommandIndex m =? la + 1)%Z then Ok (cfg, Some (ApplyOutOfOrder i (CommandIndex m)))
  else
    '(cfg, (err_msg, prevok)) ← checkLogs i m cfg;
    Ok (cfg, order_error i (CommandIndex m) prevok err_msg).

(** Every tenth command the service compacts the log of its peer [k]. *)
Definition snap_compact (i k : nat) (index : Z) (cfg : config) : Res config :=
  if (Z.rem (index + 1) SnapShotInterval =? 0)%Z then
    l ← must (cfg_logs cfg !! i);
    rf ← must (cfg_peers cfg !! k);
    rf ← must (Snapshot index (make_snapshot index l) rf);
    Ok (set_cfg_objects (<[k := rf]> (cfg_peers cfg)) (cfg_rpc cfg) cfg)
  else Ok cfg.

(** One message of applierSnap; [k] is the peer it read when it started. *)
Definition applierSnap_msg (i k : nat) (m : ApplyMsg Cmd) (cfg : config) : Res config :=
  rf ← must (cfg_peers cfg !! k);
  '(cfg, err_msg) ←
    (if SnapshotValid m then
       if CondInstallSnapshot (SnapshotTerm m) (SnapshotIndex m) (Snapshot_ m) rf
       then ingestSnap i (Snapshot_ m) (SnapshotIndex m) cfg
       else Ok (cfg, None)
     else if CommandValid m then
       '(cfg, err_msg) ← snap_check i m cfg;
       cfg ← snap_compact i k (CommandIndex m) (set_lastApplied_at i (CommandIndex m) cfg);
       Ok (cfg, err_msg)
     else Ok (cfg, None));
  _ ← fatal_if err_msg;
  Ok cfg.

Fixpoint applierSnap (i k : nat) (applyCh : list (ApplyMsg Cmd)) (cfg : config) : Res config :=
  match applyCh with [] => Ok cfg | m :: applyCh => cfg ← applierSnap_msg i k m cfg; applierSnap i k applyCh cfg end.

(** ** Crash and restart *)

Definition copy_saved (cfg : config) (i : nat) : Res (option Persister) :=
  saved ← must (cfg_saved cfg !! i);
  match saved with None => Ok None | Some s => ps ← must (saved_contents cfg s); Ok (Some (Copy ps)) end.

Definition crash1 (i : nat) (cfg : config) : Res config :=
  cfg ← disconnect i cfg;
  let cfg := set_cfg_net (DeleteServer i (cfg_net cfg)) cfg in
  ps ← copy_saved cfg i;
  rf ← must (cfg_rafts cfg !! i);
  let saved := (λ ps, Copied (SaveStateAndSnapshot (ReadRaftState ps) (ReadSnapshot ps) (mkPersister [] []))) <$> ps in
  let peers := match rf with Some k => alter (Kill (Cmd := Cmd)) k (cfg_peers cfg) | None => cfg_peers cfg end in
  Ok (set_cfg_objects peers (cfg_rpc cfg)
        (set_cfg_servers (match rf with Some _ => <[i := None : option nat]> (cfg_rafts cfg) | None => cfg_rafts cfg end)
           (<[i := (saved : option Saved)]> (cfg_saved cfg)) (cfg_endnames cfg) cfg)).

(** Fresh ends with these names, connected to servers [j], [j+1], ... *)
Fixpoint make_ends (j : nat) (names : list string) (net : Network (EN := string) (SN := nat)) :
    Res (Network (EN := string) (SN := nat)) :=
  match names with
  | [] => Ok net
  | name :: names =>
      match MakeEnd name net with Some net => make_ends (S j) names (Connect name j net) | None => Failed DuplicateEnd end
  end.

Definition rpc_server (k : nat) : Server := AddService (MakeService "Raft" k rfMethods) MakeServer.

(** start1: [names j] is the j-th random name.  Also the message that the new
    peer's first goroutine sends on applyCh. *)
Definition start1 (i : nat) (names : nat → string) (now : Z) (cfg : config) : Res (config * option (ApplyMsg Cmd)) :=
  cfg ← crash1 i cfg;
  _ ← must (cfg_endnames cfg !! i);
  let row := names <$> seq 0 (cfg_n cfg) in
  net ← make_ends 0 row (cfg_net cfg);
  _ ← must (cfg_lastApplied cfg !! i);
  let cfg := set_lastApplied_at i 0 (set_cfg_servers (cfg_rafts cfg) (cfg_saved cfg) (<[i := Some row]> (cfg_endnames cfg))
               (set_cfg_net net cfg)) in
  ps ← copy_saved cfg i;
  '(cfg, err) ←
    match ps with
    | Some ps =>
        if bool_decide (0 < length (ReadSnapshot ps)) then ingestSnap i (ReadSnapshot ps) (-1) cfg else Ok (cfg, None)
    | None => Ok (cfg, None)
    end;
  _ ← fatal_if err;
  let k := length (cfg_peers cfg) in
  let '(rf, msg) := Make (Z.of_nat (cfg_n cfg)) (Z.of_nat i) (default MakePersister ps) now in
  let cfg := set_cfg_objects (cfg_peers cfg ++ [rf]) (cfg_rpc cfg ++ [rpc_server k])
               (set_cfg_servers (<[i := Some k]> (cfg_rafts cfg)) (<[i := Some (OfPeer k)]> (cfg_saved cfg))
                  (cfg_endnames cfg) cfg) in
  Ok (set_cfg_net (AddServer i (length (cfg_rpc cfg) - 1) (cfg_net cfg)) cfg, msg).

(** ** Set-up and the frame of a test *)

Fixpoint start_all (names : nat → nat → string) (now : nat → Z) (ids : list nat) (cfg : config) : Res config :=
  match ids with
  | [] => Ok cfg
  | i :: ids => '(cfg, _) ← start1 i (names i) (now i) cfg; start_all names now ids cfg
  end.

Fixpoint connect_all (ids : list nat) (cfg : config) : Res config :=
  match ids with [] => Ok cfg | i :: ids => cfg ← connect i cfg; connect_all ids cfg end.

(** Which applier runs is seen in the operations that follow. *)
Definition make_config (n : nat) (unreliable : bool) (names : nat → nat → string) (start : Z) (now : nat → Z) : Res config :=
  let cfg := mkConfig 0 MakeNetwork n (replicate n None) (replicate n None) (replicate n false) (replicate n None)
               (replicate n None) (replicate n ∅) (replicate n 0%Z) start 0 0 0 0 0 0 [] [] in
  let cfg := setunreliable unreliable cfg in
  let cfg := set_cfg_net (LongDelays true (cfg_net cfg)) cfg in
  cfg ← start_all names now (seq 0 n) cfg;
  connect_all (seq 0 n) cfg.

(** In nanoseconds; [failed] is [t.Failed()]. *)
Definition checkTimeout (failed : bool) (now : Z) (cfg : config) : Res unit :=
  if negb failed && (now - cfg_start cfg >? 120 * 10 ^ 9)%Z then Failed TestTooLong else Ok ().

Definition checkFinished (cfg : config) : bool := negb (cfg_finished cfg =? 0)%Z.

Definition cleanup (failed : bool) (now : Z) (cfg : config) : Res config :=
  let cfg := set_cfg_finished 1 cfg in
  let peers := foldl (λ ps p, match p with Some k => alter Kill k ps | None => ps end) (cfg_peers cfg) (cfg_rafts cfg) in
  net ← must (Cleanup (cfg_net cfg));
  let cfg := set_cfg_net net (set_cfg_objects peers (cfg_rpc cfg) cfg) in
  _ ← checkTimeout failed now cfg;
  Ok cfg.

Definition begin (now : Z) (cfg : config) : config :=
  set_cfg_stats now (rpcTotal cfg) 0 (bytesTotal cfg) (cfg_maxIndex cfg) cfg.

(** The numbers that [end] prints: time, peers, RPCs, bytes, agreements. *)
Definition end_ (failed : bool) (now : Z) (cfg : config) : Res (option (Z * nat * Z * Z * Z)) :=
  _ ← checkTimeout failed now cfg;
  Ok (if failed then None
      else Some (now - cfg_t0 cfg, cfg_n cfg, rpcTotal cfg - cfg_rpcs0 cfg, bytesTotal cfg - cfg_bytes0 cfg,
                 cfg_maxIndex cfg - cfg_maxIndex0 cfg))%Z.

Fixpoint max_state_size (cfg : config) (saved : list (option Saved)) (logsize : Z) : Res Z :=
  match saved with
  | [] => Ok logsize
  | s :: saved =>
      s ← must s; ps ← must (saved_contents cfg s);
      max_state_size cfg saved (if (RaftStateSize ps >? logsize)%Z then RaftStateSize ps else logsize)
  end.

Definition LogSize (cfg : config) : Res Z := max_state_size cfg (take (cfg_n cfg) (cfg_saved cfg)) 0.
End config.
