(* ===== verification/RaftWiring.v ===== *)
(** * Connections, crashes and restarts of the Raft test bench

    What the tests of raft/ rely on when they cut, heal, crash and restart:
    in every state that the bench can reach, a call from server [i] gets to
    server [j] exactly when both are connected ([bench_links]), it gets to the
    present instance of [j], only ends of connected servers can send, an
    instance that start1 has replaced is cut off for ever, and a restarted peer
    starts from what its predecessor had last persisted
    ([start1_last_persisted]).  (An instance that was only crashed keeps its
    ends until start1: [connect] enables them again, as
    [crashed_end_reconnects] shows.) *)

From Stdlib Require Import Ascii.
From S2P Require Import Prelude Persister RaftTypes RaftHandlers Labrpc Cluster RaftConfig.

Section wiring.
Context {Cmd : Type} `{EqDecision Cmd} `{!Gob (PersistentState Cmd)} `{!Gob (Z * list (option Cmd))}.
Context {Val Rcvr : Type} (rfMethods : list (Method (Val := Val) (Rcvr := Rcvr))).
Implicit Types (cfg : config (Cmd := Cmd) (Val := Val) (Rcvr := Rcvr)) (net : Network (EN := string) (SN := nat)).

(** Server [i] can call server [j]. *)
Definition linked cfg (i j : nat) : bool :=
  match end_at cfg i j with Some e => is_enabled (cfg_net cfg) e | None => false end.

(** The labrpc server [p] of the bench hands calls to peer [k]. *)
Definition serves cfg (p k : nat) : Prop :=
  ∃ rs, cfg_rpc cfg !! p = Some rs ∧ srv_services rs = srv_services (rpc_server rfMethods k).

(** All ends are different. *)
Definition inj_ends cfg : Prop :=
  ∀ i j i' j' e, end_at cfg i j = Some e → end_at cfg i' j' = Some e → i = i' ∧ j = j'.

Record wired cfg : Prop := {
  wr_len : length (cfg_endnames cfg) = cfg_n cfg ∧ length (cfg_connected cfg) = cfg_n cfg ∧
           length (cfg_rafts cfg) = cfg_n cfg ∧ length (cfg_saved cfg) = cfg_n cfg;
  wr_rows : ∀ i row, cfg_endnames cfg !! i = Some (Some row) → length row = cfg_n cfg;
  wr_ends : ∀ i j e, end_at cfg i j = Some e → e ∈ ends (cfg_net cfg) ∧ connections (cfg_net cfg) !! e = Some (Some j);
  wr_inj : inj_ends cfg;
  wr_links : ∀ i j, i < cfg_n cfg → j < cfg_n cfg → linked cfg i j = is_connected cfg i && is_connected cfg j;
  wr_only : ∀ e, is_enabled (cfg_net cfg) e = true → ∃ i j, end_at cfg i j = Some e;
  wr_run : ∀ i k, cfg_rafts cfg !! i = Some (Some k) →
    cfg_saved cfg !! i = Some (Some (OfPeer k)) ∧ (∃ rf, cfg_peers cfg !! k = Some rf ∧ me rf = Z.of_nat i) ∧
    ∃ p, server_at (cfg_net cfg) i = Some p ∧ serves cfg p k;
  wr_down : ∀ i, cfg_rafts cfg !! i = Some None →
    server_at (cfg_net cfg) i = None ∧ ∀ k, cfg_saved cfg !! i ≠ Some (Some (OfPeer k))
}.

Lemma end_at_lt cfg i j e : wired cfg → end_at cfg i j = Some e → i < cfg_n cfg ∧ j < cfg_n cfg.
Proof.
  intros Hw He. unfold end_at in He. destruct (cfg_endnames cfg !! i) as [[row|]|] eqn:Ei; try done. simpl in He.
  split; [|rewrite <- (wr_rows _ Hw i row Ei); by eapply lookup_lt_Some].
  destruct (wr_len _ Hw) as [<- _]. by eapply lookup_lt_Some.
Qed.

(** ** Enabling ends *)

Lemma enable_ends_ok b names cfg cfg' :
  enable_ends b names cfg = Ok cfg' →
  ∃ es en, names = Some <$> es ∧ cfg' = set_cfg_net (set_enabled en (cfg_net cfg)) cfg ∧
    ∀ e, is_enabled (cfg_net cfg') e = if decide (e ∈ es) then b else is_enabled (cfg_net cfg) e.
Proof.
  revert cfg. induction names as [|name names IH]; intros cfg HE; simpl in HE.
  { res_inv. exists [], (enabled (cfg_net cfg')). split_and!; [done|by destruct cfg' as [? [] ? ? ? ? ? ? ? ? ? ? ? ? ? ? ? ? ?]|done]. }
  apply bind_Ok in HE as (x & Hx%must_Ok & HE). destruct (IH _ HE) as (es & en & -> & -> & Hen). exists (x :: es), en. split_and!; [by subst|done|].
  intros e. rewrite Hen. destruct (decide (e ∈ es)) as [He|He].
  - by rewrite decide_True by set_solver.
  - unfold is_enabled. simpl. destruct (decide (e = x)) as [->|]; [rewrite decide_True by set_solver; by rewrite lookup_insert_eq|].
    rewrite decide_False by set_solver. by rewrite lookup_insert_ne by done.
Qed.

(** Two loops over ends, as connect and disconnect have them. *)
Lemma enable_twice b (f g : nat → nat * nat) (js ks : list nat) cfg cfg' :
  (cfg1 ← enable_ends b ((λ j, end_at cfg (f j).1 (f j).2) <$> js) cfg;
   enable_ends b ((λ j, end_at cfg1 (g j).1 (g j).2) <$> ks) cfg1) = Ok cfg' → inj_ends cfg →
  ∃ en, cfg' = set_cfg_net (set_enabled en (cfg_net cfg)) cfg ∧
    (∀ e, is_enabled (cfg_net cfg') e = true → is_enabled (cfg_net cfg) e = true ∨ ∃ i j, end_at cfg i j = Some e) ∧
    (∀ i j, (∃ m, m ∈ js ∧ f m = (i, j)) ∨ (∃ m, m ∈ ks ∧ g m = (i, j)) → linked cfg' i j = b) ∧
    (∀ i j, (¬ ∃ m, m ∈ js ∧ f m = (i, j)) → (¬ ∃ m, m ∈ ks ∧ g m = (i, j)) → linked cfg' i j = linked cfg i j).
Proof.
  intros (cfg1 & (es1 & en1 & E1 & -> & H1)%enable_ends_ok & (es2 & en2 & E2 & -> & H2)%enable_ends_ok)%bind_Ok Hw.
  exists en2. simpl in H1, H2.
  assert (∀ e, e ∈ es1 ↔ ∃ m, m ∈ js ∧ end_at cfg (f m).1 (f m).2 = Some e) as M1.
  { intros e. rewrite <- (list_elem_of_fmap_inj Some), <- E1, list_elem_of_fmap. naive_solver. }
  assert (∀ e, e ∈ es2 ↔ ∃ m, m ∈ ks ∧ end_at cfg (g m).1 (g m).2 = Some e) as M2.
  { intros e. rewrite <- (list_elem_of_fmap_inj Some), <- E2, list_elem_of_fmap. naive_solver. }
  split_and!; [done| | |].
  - intros e. simpl. rewrite H2, H1. destruct (decide (e ∈ es2)) as [(m & _ & ?)%M2|]; [eauto|].
    destruct (decide (e ∈ es1)) as [(m & _ & ?)%M1|]; eauto.
  - intros i j Hm. unfold linked. change (end_at _ i j) with (end_at cfg i j). simpl.
    assert (∃ e, end_at cfg i j = Some e ∧ (e ∈ es1 ∨ e ∈ es2)) as (e & -> & He).
    { destruct Hm as [(m & Hm & Ef)|(m & Hm & Ef)].
      - assert (end_at cfg i j ∈ Some <$> es1) as (e & -> & ?)%list_elem_of_fmap; [|eauto].
        rewrite <- E1. apply list_elem_of_fmap. exists m. by rewrite Ef.
      - assert (end_at cfg i j ∈ Some <$> es2) as (e & -> & ?)%list_elem_of_fmap; [|eauto].
        rewrite <- E2. apply list_elem_of_fmap. exists m. by rewrite Ef. }
    rewrite H2, H1. repeat case_decide; try done. tauto.
  - intros i j N1 N2. unfold linked. change (end_at (set_cfg_net _ _) i j) with (end_at cfg i j).
    destruct (end_at cfg i j) as [e|] eqn:Ee; [|done]. simpl. rewrite H2, H1, !decide_False; [done| |].
    + intros (m & Hm & He)%M1. apply N1. exists m. split; [done|].
      destruct (Hw _ _ _ _ _ Ee He) as [-> ->]. by destruct (f m).
    + intros (m & Hm & He)%M2. apply N2. exists m. split; [done|].
      destruct (Hw _ _ _ _ _ Ee He) as [-> ->]. by destruct (g m).
Qed.

(** Only who is connected, and the ends that are enabled, change. *)
Lemma relink_wired cfg i b en :
  wired cfg →
  let cfg' := set_cfg_net (set_enabled en (cfg_net cfg)) (set_cfg_connected (<[i := b]> (cfg_connected cfg)) cfg) in
  (∀ a c, a < cfg_n cfg → c < cfg_n cfg → linked cfg' a c = is_connected cfg' a && is_connected cfg' c) →
  (∀ e, is_enabled (cfg_net cfg') e = true → is_enabled (cfg_net cfg) e = true ∨ ∃ i j, end_at cfg i j = Some e) →
  wired cfg'.
Proof.
  intros [L R E I K O U D] cfg' Hl Ho. subst cfg'. split; try done.
  - simpl. by rewrite length_insert.
  - intros e [He|He]%Ho; [by apply O|done].
Qed.

Lemma is_connected_insert cfg i b j :
  i < length (cfg_connected cfg) →
  is_connected (set_cfg_connected (<[i := b]> (cfg_connected cfg)) cfg) j = if decide (j = i) then b else is_connected cfg j.
Proof.
  intros Hi. unfold is_connected. simpl. case_decide; [subst; by rewrite list_lookup_insert_eq|by rewrite list_lookup_insert_ne].
Qed.

Lemma is_connected_lt cfg j : is_connected cfg j = true → j < length (cfg_connected cfg).
Proof. unfold is_connected. destruct (_ !! j) eqn:E; [intros _; by eapply lookup_lt_Some|done]. Qed.

(** What connect and disconnect leave alone. *)
Definition only_links (i : nat) (b : bool) cfg cfg' : Prop :=
  ∃ en, cfg' = set_cfg_net (set_enabled en (cfg_net cfg)) (set_cfg_connected (<[i := b]> (cfg_connected cfg)) cfg) ∧
    i < length (cfg_connected cfg).

Lemma set_connected_Ok i b cfg cfg' :
  set_connected i b cfg = Ok cfg' →
  cfg' = set_cfg_connected (<[i := b]> (cfg_connected cfg)) cfg ∧ i < length (cfg_connected cfg).
Proof. unfold set_connected. intros HS. res_inv. split; [done|by eapply lookup_lt_Some]. Qed.

Lemma connect_wired i cfg cfg' : connect i cfg = Ok cfg' → wired cfg → wired cfg' ∧ only_links i true cfg cfg'.
Proof.
  unfold connect. intros HC Hw. apply bind_Ok in HC as (cfg1 & [-> Hi]%set_connected_Ok & HC).
  set (cfg1 := set_cfg_connected _ _) in HC. set (js := filter _ _) in HC.
  destruct (enable_twice true (λ j, (i, j)) (λ j, (j, i)) js js cfg1 cfg' HC (wr_inj _ Hw)) as (en & -> & Ho & Hin & Hout).
  split; [|by exists en]. apply (relink_wired cfg); [done| |exact Ho]. intros a c Ha Hc.
  assert (∀ m, m ∈ js ↔ is_connected cfg1 m = true ∧ m < cfg_n cfg) as Hjs.
  { intros m. unfold js. rewrite list_elem_of_filter, elem_of_seq. simpl. split; intros [? ?]; split; done || lia. }
  change (is_connected (set_cfg_net _ _) ?x) with (is_connected cfg1 x).
  pose proof (wr_links _ Hw a c Ha Hc) as Hl. change (linked cfg a c) with (linked cfg1 a c) in Hl.
  pose proof (is_connected_insert cfg i true a Hi) as Ea. pose proof (is_connected_insert cfg i true c Hi) as Ec. fold cfg1 in Ea, Ec.
  destruct (decide (a = i ∧ is_connected cfg1 c = true ∨ c = i ∧ is_connected cfg1 a = true)) as [Hd|Hd].
  - rewrite Hin by (destruct Hd as [[-> ?]|[-> ?]]; [left; exists c|right; exists a]; rewrite Hjs; done).
    destruct Hd as [[-> Hd]|[-> Hd]]; rewrite Hd; [rewrite Ea|rewrite Ec]; by rewrite decide_True.
  - rewrite Hout, Hl.
    + rewrite Ea, Ec in Hd |- *. destruct (decide (a = i)), (decide (c = i)), (is_connected cfg a), (is_connected cfg c); tauto.
    + intros (m & [? ?]%Hjs & [= ? ?]). subst. tauto.
    + intros (m & [? ?]%Hjs & [= ? ?]). subst. tauto.
Qed.

Lemma disconnect_wired i cfg cfg' : disconnect i cfg = Ok cfg' → wired cfg → wired cfg' ∧ only_links i false cfg cfg'.
Proof.
  unfold disconnect. intros HC Hw. apply bind_Ok in HC as (cfg1 & [-> Hi]%set_connected_Ok & HC).
  set (cfg1 := set_cfg_connected _ _) in HC.
  set (js := if has_names cfg1 i then seq 0 (cfg_n cfg1) else []).
  replace (if has_names cfg1 i then (λ j, end_at cfg1 i j) <$> seq 0 (cfg_n cfg1) else [])
    with ((λ j, end_at cfg1 i j) <$> js) in HC by (unfold js; by destruct (has_names cfg1 i)).
  set (ks := filter (λ j, has_names cfg1 j = true) (seq 0 (cfg_n cfg1))).
  destruct (enable_twice false (λ j, (i, j)) (λ j, (j, i)) js ks cfg1 cfg') as (en & -> & Ho & Hin & Hout); [|exact (wr_inj _ Hw)|].
  { apply bind_Ok in HC as (cfg2 & E2 & HC). apply bind_Ok. exists cfg2. split; [done|].
    destruct (enable_ends_ok _ _ _ _ E2) as (? & ? & _ & -> & _). exact HC. }
  split; [|by exists en]. apply (relink_wired cfg); [done| |exact Ho]. intros a c Ha Hc.
  change (is_connected (set_cfg_net _ _) ?x) with (is_connected cfg1 x).
  pose proof (wr_links _ Hw a c Ha Hc) as Hl. change (linked cfg a c) with (linked cfg1 a c) in Hl.
  pose proof (is_connected_insert cfg i false a Hi) as Ea. pose proof (is_connected_insert cfg i false c Hi) as Ec. fold cfg1 in Ea, Ec.
  assert (∀ m, has_names cfg1 m = false → ∀ m', is_connected cfg m && is_connected cfg m' = true → m < cfg_n cfg → m' < cfg_n cfg → False) as Hno.
  { intros m Hm m' Hc' Hl1 Hl2. rewrite <- (wr_links _ Hw) in Hc' by done. unfold linked, end_at in Hc'. unfold has_names in Hm. simpl in Hm.
    by destruct (cfg_endnames cfg !! m) as [[?|]|]. }
  destruct (decide ((a = i ∧ has_names cfg1 i = true) ∨ (c = i ∧ has_names cfg1 a = true))) as [Hd|Hd].
  - rewrite Hin, Ea, Ec; [destruct (decide (a = i)), (decide (c = i)), (is_connected cfg a), (is_connected cfg c); tauto|].
    destruct Hd as [[-> Hd]|[-> Hd]]; [left; exists c; unfold js; rewrite Hd|right; exists a; unfold ks; rewrite list_elem_of_filter];
      rewrite elem_of_seq; simpl; repeat split; done || lia.
  - rewrite Hout, Hl, Ea, Ec.
    + destruct (is_connected cfg a && is_connected cfg c) eqn:Eac; [|destruct (decide (a = i)), (decide (c = i)), (is_connected cfg a), (is_connected cfg c); done].
      assert (has_names cfg1 a = true) as Hna by (destruct (has_names cfg1 a) eqn:E; [done|by destruct (Hno a E c)]).
      rewrite !decide_False; [done|naive_solver..].
    + intros (m & Hm & [= ? ?]). subst. unfold js in Hm. destruct (has_names cfg1 a); [tauto|set_solver].
    + intros (m & Hm & [= ? ?]). subst. unfold ks in Hm. apply list_elem_of_filter in Hm as [Hm _]. tauto.
Qed.

(** ** Crash *)

Lemma copy_saved_Ok cfg i ps :
  copy_saved cfg i = Ok ps →
  (cfg_saved cfg !! i = Some None ∧ ps = None) ∨
  ∃ s p, cfg_saved cfg !! i = Some (Some s) ∧ saved_contents cfg s = Some p ∧ ps = Some (Copy p).
Proof. unfold copy_saved. intros HC. res_inv. destruct x; res_inv; eauto 10. Qed.

(** Killing a peer keeps its place. *)
Lemma kill_lookup (ps : list (Raft Cmd)) k k' rf :
  ps !! k' = Some rf → ∃ rf', alter Kill k ps !! k' = Some rf' ∧ me rf' = me rf ∧ persister rf' = persister rf.
Proof.
  intros Hk. destruct (decide (k = k')) as [->|].
  - exists (Kill rf). by rewrite list_lookup_alter_eq, Hk.
  - exists rf. by rewrite list_lookup_alter_ne.
Qed.

Lemma killed_lookup (rf : option nat) (ps : list (Raft Cmd)) k' r :
  ps !! k' = Some r →
  ∃ r', match rf with Some k => alter Kill k ps | None => ps end !! k' = Some r' ∧ me r' = me r ∧ persister r' = persister r.
Proof. intros Hk. destruct rf; [by apply kill_lookup|eauto]. Qed.

(** The state after crash1: server [i] is off the net, and the bench has its own copy of the persister. *)
Lemma crash1_wired i cfg cfg' :
  crash1 i cfg = Ok cfg' → wired cfg →
  wired cfg' ∧ cfg_n cfg' = cfg_n cfg ∧ is_connected cfg' i = false ∧ cfg_rafts cfg' !! i = Some None ∧
  i < cfg_n cfg ∧ cfg_endnames cfg' = cfg_endnames cfg ∧ cfg_logs cfg' = cfg_logs cfg.
Proof.
  unfold crash1. intros HC Hw. apply bind_Ok in HC as (cfg1 & H1 & HC).
  apply disconnect_wired in H1 as [Hw1 (en & E1 & Hi)]; [|done].
  assert (i < cfg_n cfg) as Hin by (destruct (wr_len _ Hw) as (_ & <- & _); done).
  assert (is_connected cfg1 i = false) as Hci by (subst; unfold is_connected; simpl; by rewrite list_lookup_insert_eq).
  assert (cfg_n cfg1 = cfg_n cfg ∧ cfg_endnames cfg1 = cfg_endnames cfg ∧ cfg_logs cfg1 = cfg_logs cfg) as (En & Ee & Elg) by (by subst).
  clear E1. apply bind_Ok in HC as (ps & _ & HC). apply bind_Ok in HC as (rf & Hrf%must_Ok & HC). injection HC as <-. simpl in Hrf.
  destruct Hw1 as [(L1 & L2 & L3 & L4) R E I K O U D]. rewrite En in *.
  assert ((match rf with Some _ => <[i:=None]> (cfg_rafts cfg1) | None => cfg_rafts cfg1 end) !! i = Some None) as Hnone.
  { destruct rf; [apply list_lookup_insert_eq; lia|done]. }
  assert (∀ j, j ≠ i → (match rf with Some _ => <[i:=None]> (cfg_rafts cfg1) | None => cfg_rafts cfg1 end) !! j = cfg_rafts cfg1 !! j) as Hother.
  { intros j Hj. destruct rf; [by apply list_lookup_insert_ne|done]. }
  split_and!; try done. split; simpl; rewrite ?En; try done.
  - rewrite length_insert. by destruct rf; rewrite ?length_insert.
  - intros j k Hk. destruct (decide (j = i)) as [->|Hj]; [congruence|]. rewrite Hother in Hk by done.
    destruct (U j k Hk) as (S & (r & Hr & Hme) & p & Hp & Hs). rewrite list_lookup_insert_ne by done. split_and!; [done| |].
    + destruct (killed_lookup rf _ _ _ Hr) as (r' & Er & Em & _). exists r'. split; [exact Er|congruence].
    + exists p. split; [|done]. unfold server_at. simpl. by rewrite lookup_insert_ne.
  - intros j Hj. destruct (decide (j = i)) as [->|Hne].
    + split; [unfold server_at; simpl; by rewrite lookup_insert_eq|]. rewrite list_lookup_insert_eq by lia. by destruct ps.
    + rewrite Hother in Hj by done. destruct (D j Hj) as [D1 D2]. rewrite list_lookup_insert_ne by done.
      split; [|done]. unfold server_at. simpl. by rewrite lookup_insert_ne.
Qed.

(** ** Restart *)

Lemma bench_ends_ok names : ∀ j net net',
  make_ends j names net = Ok net' →
  NoDup names ∧ (∀ e, e ∈ names → e ∉ ends net) ∧ ends net' = list_to_set names ∪ ends net ∧ servers net' = servers net ∧
  (∀ e, e ∉ names → connections net' !! e = connections net !! e ∧ is_enabled net' e = is_enabled net e) ∧
  (∀ m e, names !! m = Some e → connections net' !! e = Some (Some (j + m)) ∧ is_enabled net' e = false).
Proof.
  induction names as [|e names IH]; intros j net net' HM; cbn [make_ends] in HM.
  { injection HM as <-. split_and!; try done; [constructor|set_solver..]. }
  unfold MakeEnd in HM. case_bool_decide as He; [done|].
  apply IH in HM as (Hnd & Hfr & Hends & Hsrv & Hold & Hnew). simpl in Hfr, Hends.
  assert (e ∉ names) as Hen by (intros H0%Hfr; set_solver). split_and!.
  - by apply list.NoDup_cons.
  - intros e' [->|H0%Hfr]%elem_of_cons; set_solver.
  - rewrite Hends. set_solver.
  - done.
  - intros e' [Hne Hn]%not_elem_of_cons. destruct (Hold e' Hn) as [-> ->]. unfold is_enabled. simpl.
    by rewrite !lookup_insert_ne by done.
  - intros [|m] e' Hm; simpl in Hm.
    + simplify_eq. destruct (Hold e' Hen) as [-> ->]. unfold is_enabled. simpl. rewrite !lookup_insert_eq. by rewrite Nat.add_0_r.
    + rewrite Nat.add_succ_r. exact (Hnew m e' Hm).
Qed.

(** A down server gets a new row of ends. *)
Lemma new_row_wired i row net' cfg :
  wired cfg → i < cfg_n cfg → is_connected cfg i = false → length row = cfg_n cfg → make_ends 0 row (cfg_net cfg) = Ok net' →
  wired (set_cfg_servers (cfg_rafts cfg) (cfg_saved cfg) (<[i := Some row]> (cfg_endnames cfg)) (set_cfg_net net' cfg)).
Proof.
  intros Hw Hi Hci Hrow (Hnd & Hfr & Hends & Hsrv & Hold & Hnew)%bench_ends_ok.
  set (cfg' := set_cfg_servers _ _ _ _). pose proof Hw as [(L1 & L2 & L3 & L4) R E I K O U D].
  assert (∀ j, end_at cfg' i j = row !! j) as Erow.
  { intros j. unfold end_at. simpl. rewrite list_lookup_insert_eq by lia. done. }
  assert (∀ a j, a ≠ i → end_at cfg' a j = end_at cfg a j) as Eother.
  { intros a j Ha. unfold end_at. simpl. by rewrite list_lookup_insert_ne. }
  assert (∀ a j e, end_at cfg a j = Some e → e ∉ row) as Hdis by (intros a j e [He _]%E Hin; by apply (Hfr e)).
  split; simpl; try done.
  - by rewrite length_insert.
  - intros a r Ha. destruct (decide (a = i)) as [->|]; [|rewrite list_lookup_insert_ne in Ha by done; by apply (R a)].
    rewrite list_lookup_insert_eq in Ha by lia. by simplify_eq.
  - intros a j e He. rewrite Hends. destruct (decide (a = i)) as [->|Ha].
    + rewrite Erow in He. split; [apply list_elem_of_lookup_2 in He; set_solver|]. by destruct (Hnew j e He).
    + rewrite Eother in He by done. destruct (E _ _ _ He) as [? Hc]. split; [set_solver|].
      destruct (Hold e) as [-> _]; [by eapply Hdis|done].
  - intros a j a' j' e He He'. destruct (decide (a = i)) as [->|Ha], (decide (a' = i)) as [->|Ha'].
    + rewrite Erow in He, He'. split; [done|]. by eapply (NoDup_lookup row).
    + rewrite Erow in He. rewrite Eother in He' by done. exfalso. apply (Hdis _ _ _ He'). by eapply list_elem_of_lookup_2.
    + rewrite Erow in He'. rewrite Eother in He by done. exfalso. apply (Hdis _ _ _ He). by eapply list_elem_of_lookup_2.
    + rewrite Eother in He, He' by done. by apply (I a j a' j' e).
  - intros a j Ha Hj. unfold linked. destruct (decide (a = i)) as [->|Hne].
    + rewrite Erow. change (is_connected cfg' ?x) with (is_connected cfg x). rewrite Hci. simpl.
      destruct (row !! j) as [e|] eqn:Ej; [|done]. by destruct (Hnew j e Ej).
    + rewrite Eother by done. change (is_connected cfg' ?x) with (is_connected cfg x). rewrite <- (K a j) by done. unfold linked.
      destruct (end_at cfg a j) as [e|] eqn:Ej; [|done]. by destruct (Hold e (Hdis _ _ _ Ej)).
  - intros e He. destruct (decide (e ∈ row)) as [[j Hj]%list_elem_of_lookup|Hn].
    + destruct (Hnew j e Hj) as [_ Hf]. by rewrite Hf in He.
    + destruct (Hold e Hn) as [_ Hf]. rewrite Hf in He. destruct (O e He) as (a & j & Haj). exists a, j.
      destruct (decide (a = i)) as [->|]; [|by rewrite Eother].
      destruct (end_at_lt _ _ _ _ Hw Haj) as [_ Hj]. pose proof (K i j Hi Hj) as Hl. unfold linked in Hl.
      rewrite Haj, Hci in Hl. simpl in Hl. congruence.
  - intros a k Hk. destruct (U a k Hk) as (S & Hr & q & Hq & Hs). split_and!; [done..|]. exists q. split; [|done].
    unfold server_at in *. by rewrite Hsrv.
  - intros a Ha. destruct (D a Ha) as [D1 D2]. split; [|done]. unfold server_at in *. by rewrite Hsrv.
Qed.

(** The copied logs do not matter for the wiring. *)
Lemma wired_logs logs la mi cfg : wired cfg → wired (set_cfg_logs logs la mi cfg).
Proof. intros []. by split. Qed.

Lemma ingestSnap_frame i snap index cfg cfg' err :
  ingestSnap i snap index cfg = Ok (cfg', err) → ∃ logs la, cfg' = set_cfg_logs logs la (cfg_maxIndex cfg) cfg.
Proof.
  unfold ingestSnap. intros HI. case_bool_decide; [done|]. destruct (gob_decode snap) as [[lii xlog]|]; [|done].
  case_match.
  - injection HI as <- <-. exists (cfg_logs cfg), (cfg_lastApplied cfg). by destruct cfg.
  - apply bind_Ok in HI as (? & _ & HI). apply bind_Ok in HI as (? & _ & HI). injection HI as <- _. by do 2 eexists.
Qed.

(** A new peer takes the place of server [i], which is down. *)
Lemma new_peer_wired i rf cfg :
  wired cfg → i < cfg_n cfg → me rf = Z.of_nat i →
  wired (set_cfg_net (AddServer i (length (cfg_rpc cfg)) (cfg_net cfg))
    (set_cfg_objects (cfg_peers cfg ++ [rf]) (cfg_rpc cfg ++ [rpc_server rfMethods (length (cfg_peers cfg))])
      (set_cfg_servers (<[i := Some (length (cfg_peers cfg))]> (cfg_rafts cfg))
         (<[i := Some (OfPeer (length (cfg_peers cfg)))]> (cfg_saved cfg)) (cfg_endnames cfg) cfg))).
Proof.
  intros [(L1 & L2 & L3 & L4) R E I K O U D] Hi Hme. split; simpl; try done.
  - by rewrite !length_insert.
  - intros a k Hk. destruct (decide (a = i)) as [->|Ha].
    + rewrite list_lookup_insert_eq in Hk by lia. injection Hk as <-. rewrite list_lookup_insert_eq by lia. split_and!; [done| |].
      * exists rf. by rewrite lookup_app_r, Nat.sub_diag by done.
      * exists (length (cfg_rpc cfg)). split; [unfold server_at; simpl; by rewrite lookup_insert_eq|]. eexists.
        split; [|done]. simpl. by rewrite lookup_app_r, Nat.sub_diag by done.
    + rewrite list_lookup_insert_ne in Hk by done. rewrite list_lookup_insert_ne by done. destruct (U a k Hk) as (S & (r & Hr & Hm) & p & Hp & rs & Hrs & Hs).
      split_and!; [done|exists r; split; [by apply lookup_app_l_Some|done]|]. exists p.
      split; [unfold server_at in *; simpl; by rewrite lookup_insert_ne|]. exists rs. split; [|done]. simpl. by apply lookup_app_l_Some.
  - intros a Ha. destruct (decide (a = i)) as [->|Hne]; [by rewrite list_lookup_insert_eq in Ha by lia|].
    rewrite list_lookup_insert_ne in Ha by done. rewrite list_lookup_insert_ne by done. destruct (D a Ha) as [D1 D2]. split; [|done].
    unfold server_at in *. simpl. by rewrite lookup_insert_ne.
Qed.

Lemma Make_me n i ps now : me (Make (Cmd := Cmd) n i ps now).1 = i.
Proof. unfold Make, readPersist. simpl. by case_all. Qed.

(** start1 as a crash, a new row of ends, and a new peer. *)
Lemma start1_inv i names now cfg cfg' msg :
  start1 rfMethods i names now cfg = Ok (cfg', msg) →
  ∃ cfg1 net' logs la mi ps,
    let row := names <$> seq 0 (cfg_n cfg1) in
    let cfg2 := set_cfg_logs logs la mi (set_cfg_servers (cfg_rafts cfg1) (cfg_saved cfg1) (<[i := Some row]> (cfg_endnames cfg1))
                  (set_cfg_net net' cfg1)) in
    let peer := Make (Z.of_nat (cfg_n cfg2)) (Z.of_nat i) (default MakePersister ps) now in
    crash1 i cfg = Ok cfg1 ∧ make_ends 0 row (cfg_net cfg1) = Ok net' ∧ copy_saved cfg1 i = Ok ps ∧ msg = peer.2 ∧
    cfg' = set_cfg_net (AddServer i (length (cfg_rpc cfg2)) (cfg_net cfg2))
      (set_cfg_objects (cfg_peers cfg2 ++ [peer.1]) (cfg_rpc cfg2 ++ [rpc_server rfMethods (length (cfg_peers cfg2))])
        (set_cfg_servers (<[i := Some (length (cfg_peers cfg2))]> (cfg_rafts cfg2))
          (<[i := Some (OfPeer (length (cfg_peers cfg2)))]> (cfg_saved cfg2)) (cfg_endnames cfg2) cfg2)).
Proof.
  unfold start1. intros HS. apply bind_Ok in HS as (cfg1 & H1 & HS). apply bind_Ok in HS as (? & _ & HS).
  apply bind_Ok in HS as (net' & H2 & HS). apply bind_Ok in HS as (? & _ & HS). cbv zeta in HS.
  apply bind_Ok in HS as (ps & H3 & HS). apply bind_Ok in HS as ([cfg2 err] & H4 & HS). apply bind_Ok in HS as (u & _ & HS).
  assert (∃ logs la mi, cfg2 = set_cfg_logs logs la mi (set_cfg_servers (cfg_rafts cfg1) (cfg_saved cfg1)
    (<[i := Some (names <$> seq 0 (cfg_n cfg1))]> (cfg_endnames cfg1)) (set_cfg_net net' cfg1))) as (logs & la & mi & E).
  { destruct ps as [ps|]; [case_bool_decide|]; [|injection H4 as <- _; by do 3 eexists..].
    destruct (ingestSnap_frame _ _ _ _ _ _ H4) as (logs & la & ->). by do 3 eexists. }
  exists cfg1, net', logs, la, mi, ps. cbv zeta. rewrite <- E. destruct (Make _ _ _ _) as [rf msg'] eqn:EM. injection HS as <- <-.
  split_and!; [done| done| |done|].
  - exact H3.
  - cbn [cfg_rpc cfg_net set_cfg_objects set_cfg_servers fst]. rewrite length_app. simpl. by rewrite Nat.add_sub.
Qed.

Lemma start1_wired i names now cfg cfg' msg : start1 rfMethods i names now cfg = Ok (cfg', msg) → wired cfg → wired cfg' ∧ cfg_n cfg' = cfg_n cfg.
Proof.
  intros (cfg1 & net' & logs & la & mi & ps & H1 & H2 & _ & _ & ->)%start1_inv Hw.
  destruct (crash1_wired _ _ _ H1 Hw) as (Hw1 & En & Hc & _ & Hi & _ & _). split; [|exact En].
  apply new_peer_wired; [|simpl; lia|apply Make_me]. apply wired_logs.
  apply new_row_wired; [done|lia|done| |exact H2]. by rewrite length_fmap, length_seq.
Qed.

(** ** The other operations *)

(** Peers that do not change their number, labrpc servers that keep their services. *)
Lemma wired_objects ps rs cfg :
  wired cfg → Forall2 (λ rf rf', me rf' = me rf) (cfg_peers cfg) ps →
  Forall2 (λ r r', srv_services r' = srv_services r) (cfg_rpc cfg) rs → wired (set_cfg_objects ps rs cfg).
Proof.
  intros [L R E I K O U D] Hp Hr. split; try done. intros i k Hk. simpl. destruct (U i k Hk) as (S & (rf & Hrf & Hm) & p & Hs & r & Hrs & Hsv).
  split_and!; [done| |].
  - destruct (Forall2_lookup_l _ _ _ _ _ Hp Hrf) as (rf' & ? & Hm'). exists rf'. split; [done|congruence].
  - exists p. split; [done|]. destruct (Forall2_lookup_l _ _ _ _ _ Hr Hrs) as (r' & ? & Hr'). exists r'. split; [done|congruence].
Qed.

(** The network's settings and statistics. *)
Lemma wired_net net' cfg :
  wired cfg → ends net' = ends (cfg_net cfg) → enabled net' = enabled (cfg_net cfg) → servers net' = servers (cfg_net cfg) →
  connections net' = connections (cfg_net cfg) → wired (set_cfg_net net' cfg).
Proof.
  intros [L R E I K O U D] H1 H2 H3 H4. split; try done; unfold linked, server_at, is_enabled in *; simpl; rewrite ?H1, ?H2, ?H3, ?H4; done.
Qed.

Lemma checkLogs_frame i m cfg cfg' r : checkLogs i m cfg = Ok (cfg', r) → ∃ logs la mi, cfg' = set_cfg_logs logs la mi cfg.
Proof. unfold checkLogs. intros (? & _ & [= <- _])%bind_Ok. by do 3 eexists. Qed.

Lemma applier_msg_frame i m cfg cfg' : applier_msg i m cfg = Ok cfg' → ∃ logs la mi, cfg' = set_cfg_logs logs la mi cfg.
Proof.
  unfold applier_msg. intros HA. case_match; [injection HA as <-; exists (cfg_logs cfg), (cfg_lastApplied cfg), (cfg_maxIndex cfg); by destruct cfg|].
  apply bind_Ok in HA as ([cfg1 [err prevok]] & H1 & HA). res_inv. by eapply checkLogs_frame.
Qed.

Lemma Snapshot_me index snap (rf rf' : Raft Cmd) : Snapshot index snap rf = Some rf' → me rf' = me rf.
Proof. unfold Snapshot. case_match; [by intros [= <-]|]. intros HS. go_inv. by case_all. Qed.

Lemma snap_check_frame i m cfg cfg' err : snap_check i m cfg = Ok (cfg', err) → ∃ logs la mi, cfg' = set_cfg_logs logs la mi cfg.
Proof.
  unfold snap_check. intros HA. apply bind_Ok in HA as (la & _ & HA). case_match.
  - injection HA as <- _. exists (cfg_logs cfg), (cfg_lastApplied cfg), (cfg_maxIndex cfg). by destruct cfg.
  - apply bind_Ok in HA as ([cfg1 [? ?]] & H1 & HA). injection HA as <- _. by eapply checkLogs_frame.
Qed.

Lemma snap_compact_wired i k index cfg cfg' : snap_compact i k index cfg = Ok cfg' → wired cfg → wired cfg'.
Proof.
  unfold snap_compact. intros HS Hw. case_match; [|by res_inv]. res_inv. apply wired_objects; [done| |by apply Forall_Forall2_diag, list.Forall_forall].
  apply Forall2_same_length_lookup. split; [by rewrite length_insert|]. intros a rf rf' Ha Ha'.
  destruct (decide (a = k)) as [->|]; [|rewrite list_lookup_insert_ne in Ha' by done; congruence].
  rewrite list_lookup_insert_eq in Ha' by (by eapply lookup_lt_Some). simplify_eq. by eapply Snapshot_me.
Qed.

Lemma applierSnap_msg_wired i k m cfg cfg' : applierSnap_msg i k m cfg = Ok cfg' → wired cfg → wired cfg' ∧ cfg_n cfg' = cfg_n cfg.
Proof.
  unfold applierSnap_msg. intros HA Hw. apply bind_Ok in HA as (rf & _ & HA). apply bind_Ok in HA as ([cfg1 err] & H1 & HA).
  assert (wired cfg1 ∧ cfg_n cfg1 = cfg_n cfg) as Hw1; [|by res_inv]. clear HA. repeat case_match; try (by injection H1 as <- _).
  - destruct (ingestSnap_frame _ _ _ _ _ _ H1) as (? & ? & ->). split; [by apply wired_logs|done].
  - apply bind_Ok in H1 as ([cfg2 err2] & (logs & la & mi & ->)%snap_check_frame & H1).
    apply bind_Ok in H1 as (cfg3 & H3 & H1). injection H1 as <- _. split.
    + eapply snap_compact_wired; [exact H3|]. by apply wired_logs, wired_logs.
    + unfold snap_compact in H3. case_match; res_inv; done.
Qed.

(** ** The states of the bench *)

(** What the test and the other goroutines can do: [step_running] is the peers
    and the network at work. *)
Inductive bench_step cfg : config → Prop :=
| step_start1 i names now cfg' msg : start1 rfMethods i names now cfg = Ok (cfg', msg) → bench_step cfg cfg'
| step_crash1 i cfg' : crash1 i cfg = Ok cfg' → bench_step cfg cfg'
| step_connect i cfg' : connect i cfg = Ok cfg' → bench_step cfg cfg'
| step_disconnect i cfg' : disconnect i cfg = Ok cfg' → bench_step cfg cfg'
| step_unreliable b : bench_step cfg (setunreliable b cfg)
| step_longreordering b : bench_step cfg (setlongreordering b cfg)
| step_begin now : bench_step cfg (begin now cfg)
| step_applier i m cfg' : applier_msg i m cfg = Ok cfg' → bench_step cfg cfg'
| step_applierSnap i k m cfg' : applierSnap_msg i k m cfg = Ok cfg' → bench_step cfg cfg'
| step_running ps rs calls bytes :
    Forall2 (λ rf rf', me rf' = me rf) (cfg_peers cfg) ps →
    Forall2 (λ r r', srv_services r' = srv_services r) (cfg_rpc cfg) rs →
    bench_step cfg (set_cfg_net (add_stats calls bytes (cfg_net cfg)) (set_cfg_objects ps rs cfg)).

Inductive bench_reachable (n : nat) : config → Prop :=
| reach_make unreliable names start now cfg :
    make_config rfMethods n unreliable names start now = Ok cfg → bench_reachable n cfg
| reach_bench cfg cfg' : bench_reachable n cfg → bench_step cfg cfg' → bench_reachable n cfg'.

Lemma bench_step_wired cfg cfg' : bench_step cfg cfg' → wired cfg → wired cfg' ∧ cfg_n cfg' = cfg_n cfg.
Proof.
  intros [] Hw.
  - by eapply start1_wired.
  - by eapply crash1_wired in Hw as (? & ? & _).
  - destruct (connect_wired _ _ _ H Hw) as (? & ? & E & _). split; [done|by rewrite E].
  - destruct (disconnect_wired _ _ _ H Hw) as (? & ? & E & _). split; [done|by rewrite E].
  - split; [|done]. by apply wired_net.
  - split; [|done]. by apply wired_net.
  - split; [|done]. by destruct Hw.
  - apply applier_msg_frame in H as (? & ? & ? & ->). split; [by apply wired_logs|done].
  - by eapply applierSnap_msg_wired.
  - split; [|done]. apply wired_net; try done. by apply wired_objects.
Qed.

Lemma start_all_wired names now ids : ∀ cfg cfg',
  start_all rfMethods names now ids cfg = Ok cfg' → wired cfg → wired cfg' ∧ cfg_n cfg' = cfg_n cfg.
Proof.
  induction ids as [|i ids IH]; intros cfg cfg' HS Hw; cbn [start_all] in HS; [by res_inv|].
  apply bind_Ok in HS as ([cfg1 msg] & H1 & HS). destruct (start1_wired _ _ _ _ _ _ H1 Hw) as [Hw1 <-]. by apply IH.
Qed.

Lemma connect_all_wired ids : ∀ cfg cfg', connect_all ids cfg = Ok cfg' → wired cfg → wired cfg' ∧ cfg_n cfg' = cfg_n cfg.
Proof.
  induction ids as [|i ids IH]; intros cfg cfg' HS Hw; cbn [connect_all] in HS; [by res_inv|].
  apply bind_Ok in HS as (cfg1 & H1 & HS). destruct (connect_wired _ _ _ H1 Hw) as (Hw1 & ? & E & _). destruct (IH _ _ HS Hw1) as [? ->]. split; [done|by rewrite E].
Qed.

Lemma make_config_wired n unreliable names start now cfg :
  make_config rfMethods n unreliable names start now = Ok cfg → wired cfg ∧ cfg_n cfg = n.
Proof.
  unfold make_config. cbv zeta. intros HM. apply bind_Ok in HM as (cfg1 & H1 & HM).
  eapply start_all_wired in H1 as [Hw1 E1]; [eapply connect_all_wired in HM as [Hw E]; [split; [done|by rewrite E]|done]|].
  assert (∀ i j, end_at (set_cfg_net (LongDelays true (Reliable (negb unreliable) MakeNetwork))
    (mkConfig (Cmd := Cmd) (Val := Val) (Rcvr := Rcvr) 0 MakeNetwork n (replicate n None) (replicate n None) (replicate n false) (replicate n None)
       (replicate n None) (replicate n ∅) (replicate n 0%Z) start 0 0 0 0 0 0 [] [])) i j = None) as Hno.
  { intros i j. unfold end_at. simpl. destruct (replicate n None !! i) as [r|] eqn:Er; [|done].
    apply lookup_replicate in Er as [-> _]. done. }
  split; simpl; rewrite ?length_replicate; try done.
  - intros i row Hr%lookup_replicate. by destruct Hr.
  - intros i j e He. by rewrite Hno in He.
  - intros i j i' j' e He. by rewrite Hno in He.
  - intros i j Hi Hj. unfold linked. rewrite Hno. unfold is_connected. simpl. by rewrite !lookup_replicate_2 by done.
  - intros i k Hk%lookup_replicate. by destruct Hk.
  - intros i Hi%lookup_replicate. split; [done|]. intros k Hk%lookup_replicate. by destruct Hk.
Qed.

Lemma bench_reachable_wired n cfg : bench_reachable n cfg → wired cfg ∧ cfg_n cfg = n.
Proof.
  induction 1 as [? ? ? ? ? HM|cfg cfg' _ [IH <-] HS]; [by eapply make_config_wired|by apply bench_step_wired].
Qed.

(** ** Ends that have been replaced *)

(** [e] was made and is no server's end any more. *)
Definition replaced cfg (e : string) : Prop := e ∈ ends (cfg_net cfg) ∧ ∀ a b, end_at cfg a b ≠ Some e.

(** The step makes no ends and keeps the names. *)
Definition same_ends cfg cfg' : Prop := cfg_endnames cfg' = cfg_endnames cfg ∧ ends (cfg_net cfg') = ends (cfg_net cfg).

Lemma same_ends_replaced cfg cfg' e : same_ends cfg cfg' → replaced cfg e → replaced cfg' e.
Proof. intros [E1 E2] [H1 H2]. split; [by rewrite E2|]. intros a b. unfold end_at in *. rewrite E1. apply H2. Qed.

Lemma only_links_ends i b cfg cfg' : only_links i b cfg cfg' → same_ends cfg cfg'.
Proof. by intros (en & -> & _). Qed.

Lemma crash1_ends i cfg cfg' : crash1 i cfg = Ok cfg' → wired cfg → same_ends cfg cfg'.
Proof.
  unfold crash1. intros HC Hw. apply bind_Ok in HC as (cfg1 & H1 & HC).
  apply disconnect_wired in H1 as [_ [E1 E2]%only_links_ends]; [|done].
  apply bind_Ok in HC as (ps & _ & HC). apply bind_Ok in HC as (rf & _ & HC). injection HC as <-. by split.
Qed.

(** start1 gives server [i] new ends: its old ones are replaced. *)
Lemma start1_replaces i names now cfg cfg' msg e :
  start1 rfMethods i names now cfg = Ok (cfg', msg) → wired cfg →
  (replaced cfg e ∨ ∃ j, end_at cfg i j = Some e) → replaced cfg' e.
Proof.
  intros (cfg1 & net' & logs & la & mi & ps & H1 & H2 & _ & _ & ->)%start1_inv Hw He.
  destruct (crash1_wired _ _ _ H1 Hw) as (Hw1 & _ & _ & _ & Hi & _ & _).
  pose proof (crash1_ends _ _ _ H1 Hw) as [E1 E2].
  assert (e ∈ ends (cfg_net cfg1) ∧ ∀ a b, a ≠ i → end_at cfg1 a b ≠ Some e) as [Hin Hno].
  { unfold end_at. rewrite E1, E2. destruct He as [[Hin Hno]|[j Hj]].
    - split; [done|]. intros a b _. apply Hno.
    - split; [by apply (wr_ends _ Hw _ _ _ Hj)|]. intros a b Ha Hab. destruct (wr_inj _ Hw _ _ _ _ _ Hab Hj). congruence. }
  apply bench_ends_ok in H2 as (_ & Hfr & Hends & _). split; [simpl; rewrite Hends; set_solver|].
  intros a b. unfold end_at. simpl. destruct (decide (a = i)) as [->|Ha].
  - destruct (wr_len _ Hw1) as (L1 & _). destruct (decide (i < length (cfg_endnames cfg1))).
    + rewrite list_lookup_insert_eq by done. simpl. intros Hr%list_elem_of_lookup_2. by apply (Hfr e).
    + rewrite list_insert_ge by lia. rewrite lookup_ge_None_2 by lia. done.
  - rewrite list_lookup_insert_ne by done. by apply Hno.
Qed.

Lemma applierSnap_msg_ends i k m cfg cfg' : applierSnap_msg i k m cfg = Ok cfg' → same_ends cfg cfg'.
Proof.
  unfold applierSnap_msg. intros HA. apply bind_Ok in HA as (rf & _ & HA). apply bind_Ok in HA as ([cfg1 err] & H1 & HA).
  assert (same_ends cfg cfg1) as Hw1; [|by res_inv]. clear HA. repeat case_match; try (by injection H1 as <- _).
  - destruct (ingestSnap_frame _ _ _ _ _ _ H1) as (? & ? & ->). done.
  - apply bind_Ok in H1 as ([cfg2 err2] & (logs & la & mi & ->)%snap_check_frame & H1).
    apply bind_Ok in H1 as (cfg3 & H3 & H1). injection H1 as <- _. unfold snap_compact in H3. case_match; res_inv; done.
Qed.

Lemma bench_step_replaced cfg cfg' e : bench_step cfg cfg' → wired cfg → replaced cfg e → replaced cfg' e.
Proof.
  intros [] Hw He.
  - eapply start1_replaces; eauto.
  - eapply same_ends_replaced; [by eapply crash1_ends|done].
  - destruct (connect_wired _ _ _ H Hw) as [_ ?%only_links_ends]. by eapply same_ends_replaced.
  - destruct (disconnect_wired _ _ _ H Hw) as [_ ?%only_links_ends]. by eapply same_ends_replaced.
  - done.
  - done.
  - done.
  - apply applier_msg_frame in H as (? & ? & ? & ->). done.
  - eapply same_ends_replaced; [|done]. by eapply applierSnap_msg_ends.
  - done.
Qed.

(** It never sends again. *)
Lemma replaced_silent cfg cfg' e : rtc bench_step cfg cfg' → wired cfg → replaced cfg e → is_enabled (cfg_net cfg') e = false.
Proof.
  induction 1 as [cfg|cfg cfg1 cfg' HS _ IH]; intros Hw He.
  - destruct (is_enabled (cfg_net cfg) e) eqn:En; [|done]. destruct (wr_only _ Hw e En) as (a & b & Hab).
    destruct He as [_ Hno]. by apply Hno in Hab.
  - apply IH; [by eapply bench_step_wired|by eapply bench_step_replaced].
Qed.

(** C36. In every state that the bench reaches: a call from server [i] to server
    [j] gets through exactly when both are connected; if [j] is running it then
    gets to the present peer of [j], which knows itself as [j] and whose
    persister is the one the bench keeps; if [j] is down it gets nowhere; every
    end that can send is a present end of two servers that are both connected;
    and once start1 has replaced the instance of a server, the ends of the old
    instance never send again, whatever the bench does later. *)
Theorem bench_links n cfg i j :
  bench_reachable n cfg → i < n → j < n →
  linked cfg i j = is_connected cfg i && is_connected cfg j ∧
  (is_connected cfg i = true → is_connected cfg j = true →
   ∃ e, end_at cfg i j = Some e ∧
     match cfg_rafts cfg !! j with
     | Some (Some k) => ∃ p rf, (readEndnameInfo e (cfg_net cfg)).1.1 = (true, Some j, Some p) ∧ serves cfg p k ∧
         cfg_peers cfg !! k = Some rf ∧ me rf = Z.of_nat j ∧ cfg_saved cfg !! j = Some (Some (OfPeer k))
     | _ => (readEndnameInfo e (cfg_net cfg)).1.1 = (true, Some j, None)
     end) ∧
  (∀ e, is_enabled (cfg_net cfg) e = true →
     ∃ a b, end_at cfg a b = Some e ∧ is_connected cfg a = true ∧ is_connected cfg b = true) ∧
  (∀ e names now cfg1 msg cfg', end_at cfg i j = Some e → start1 rfMethods i names now cfg = Ok (cfg1, msg) →
     rtc bench_step cfg1 cfg' → is_enabled (cfg_net cfg') e = false).
Proof.
  intros [Hw <-]%bench_reachable_wired Hi Hj. split_and!.
  - by apply wr_links.
  - intros Hci Hcj. pose proof (wr_links _ Hw i j Hi Hj) as Hl. rewrite Hci, Hcj in Hl. unfold linked in Hl.
    destruct (end_at cfg i j) as [e|] eqn:Ee; [|done]. exists e. split; [done|]. simpl in *.
    destruct (wr_ends _ Hw _ _ _ Ee) as [_ Hc]. unfold readEndnameInfo. rewrite Hc, Hl. simpl.
    destruct (wr_len _ Hw) as (_ & _ & Lr & _). destruct (lookup_lt_is_Some_2 (cfg_rafts cfg) j) as [[k|] Hk]; [lia|..]; rewrite Hk.
    + destruct (wr_run _ Hw j k Hk) as (S & (rf & Hrf & Hm) & p & -> & Hs). by exists p, rf.
    + by destruct (wr_down _ Hw j Hk) as [-> _].
  - intros e He. destruct (wr_only _ Hw e He) as (a & b & Hab). exists a, b. split; [done|].
    destruct (end_at_lt _ _ _ _ Hw Hab) as [Ha Hb]. pose proof (wr_links _ Hw a b Ha Hb) as Hl. unfold linked in Hl.
    rewrite Hab, He in Hl. symmetry in Hl. by apply andb_true_iff in Hl.
  - intros e names now cfg1 msg cfg' He HS Hrtc. eapply replaced_silent; [exact Hrtc|by eapply start1_wired|].
    eapply start1_replaces; eauto.
Qed.

(** What the bench would give to a new instance of server [i]. *)
Definition persisted cfg (i : nat) : Persister :=
  match cfg_saved cfg !! i with Some (Some s) => default MakePersister (saved_contents cfg s) | _ => MakePersister end.

Lemma saved_contents_killed (rf : option nat) cfg cfg1 s ps :
  saved_contents cfg s = Some ps →
  cfg_peers cfg1 = match rf with Some k => alter Kill k (cfg_peers cfg) | None => cfg_peers cfg end →
  saved_contents cfg1 s = Some ps.
Proof.
  destruct s as [k|]; [|done]. simpl. intros (r & Hr & ->)%fmap_Some ->.
  destruct (killed_lookup rf _ _ _ Hr) as (r' & -> & _ & E). simpl. by rewrite E.
Qed.

(** A crash kills the running instance and loses nothing of what it persisted. *)
Lemma crash1_keeps i cfg cfg' :
  crash1 i cfg = Ok cfg' →
  i < length (cfg_saved cfg) → (∃ ps, copy_saved cfg' i = Ok ps ∧ default MakePersister ps = persisted cfg i) ∧
  cfg_peers cfg' = match cfg_rafts cfg !! i with Some (Some k) => alter Kill k (cfg_peers cfg) | _ => cfg_peers cfg end.
Proof.
  unfold crash1. intros HC Hi. apply bind_Ok in HC as (cfg1 & H1 & HC).
  assert (cfg_saved cfg1 = cfg_saved cfg ∧ cfg_peers cfg1 = cfg_peers cfg ∧ cfg_rafts cfg1 = cfg_rafts cfg) as (Es & Ep & Er).
  { unfold disconnect in H1. apply bind_Ok in H1 as (c & [-> _]%set_connected_Ok & H1).
    apply bind_Ok in H1 as (c & (? & ? & _ & -> & _)%enable_ends_ok & (? & ? & _ & -> & _)%enable_ends_ok). done. }
  apply bind_Ok in HC as (ps & Hps%copy_saved_Ok & HC). apply bind_Ok in HC as (rf & Hrf%must_Ok & HC). injection HC as <-.
  simpl in Hps, Hrf. rewrite Es in Hps. rewrite Er in Hrf. rewrite Hrf. simpl. split; [|by rewrite Ep; destruct rf].
  unfold copy_saved, persisted. simpl. rewrite Es, list_lookup_insert_eq by done.
  destruct Hps as [[-> ->]|(s & p & -> & Hp & ->)]; [by exists None|]. simpl. eexists. split; [done|]. simpl.
  assert (saved_contents cfg s = Some p) as -> by (destruct s; [unfold saved_contents in *; simpl in *; by rewrite <- Ep|done]).
  unfold ReadSnapshot, ReadRaftState, Copy. simpl. rewrite !clone_eq. by destruct p.
Qed.

(** Restarting server [i] kills the instance that was running, if there was
    one, and makes a new peer from exactly what the last instance had persisted:
    the contents of its persister at this moment, or the copy the bench took at a
    crash before.  The new instance is disconnected, and shares its persister
    with the bench. *)
Theorem start1_last_persisted n i names now cfg cfg' msg :
  bench_reachable n cfg → start1 rfMethods i names now cfg = Ok (cfg', msg) →
  let k' := length (cfg_peers cfg) in
  let peer := Make (Z.of_nat n) (Z.of_nat i) (persisted cfg i) now in
  cfg_rafts cfg' !! i = Some (Some k') ∧ cfg_saved cfg' !! i = Some (Some (OfPeer k')) ∧
  cfg_peers cfg' !! k' = Some peer.1 ∧ msg = peer.2 ∧ is_connected cfg' i = false ∧
  (∀ k rf, cfg_rafts cfg !! i = Some (Some k) → cfg_peers cfg !! k = Some rf →
     persisted cfg i = persister rf ∧ cfg_peers cfg' !! k = Some (Kill rf)).
Proof.
  intros [Hw <-]%bench_reachable_wired HS. cbv zeta.
  destruct (start1_inv _ _ _ _ _ _ HS) as (cfg1 & net' & logs & la & mi & ps & H1 & H2 & H3 & -> & ->).
  destruct (crash1_wired _ _ _ H1 Hw) as (Hw1 & En & Hc & _ & Hi & _ & _). destruct (wr_len _ Hw) as (_ & _ & _ & Ls).
  destruct (wr_len _ Hw1) as (_ & _ & Lr1 & Ls1).
  destruct (crash1_keeps _ _ _ H1) as [(ps' & E3 & Eps) Epeers]; [lia|]. rewrite H3 in E3. injection E3 as <-. simpl. rewrite Eps, En.
  assert (length (cfg_peers cfg1) = length (cfg_peers cfg)) as Lp by (rewrite Epeers; case_all; rewrite ?length_alter; done).
  rewrite Lp. split_and!; try done.
  - apply list_lookup_insert_eq. lia.
  - apply list_lookup_insert_eq. lia.
  - rewrite lookup_app_r, Lp, Nat.sub_diag by lia. done.
  - intros k rf Hk Hrf. destruct (wr_run _ Hw i k Hk) as (S & _). unfold persisted. rewrite S. simpl. rewrite Hrf. simpl. split; [done|].
    apply lookup_app_l_Some. rewrite Epeers, Hk. by rewrite list_lookup_alter_eq, Hrf.
Qed.

(** ** Snapshots of the bench *)

Lemma log_of_lookup (xlog : list (option Cmd)) (j : Z) : log_of xlog !! j = go_nth xlog j.
Proof.
  unfold log_of. apply option_eq. intros v. rewrite <- elem_of_list_to_map.
  - rewrite go_nth_Some, list_elem_of_lookup. setoid_rewrite lookup_zip_Some. split.
    + intros (m & Hm & Hv). apply lookup_seqZ in Hm as [-> Hm]. split; [lia|]. by rewrite Z.add_0_l, Nat2Z.id.
    + intros [Hj Hv]. exists (Z.to_nat j). split; [|done]. apply lookup_seqZ. apply lookup_lt_Some in Hv. unfold zlen. lia.
  - rewrite fst_zip by (rewrite length_seqZ; unfold zlen; lia). apply NoDup_seqZ.
Qed.

(** The copied log that a snapshot made at [index] stands for. *)
Definition restored (index : Z) (l l' : gmap Z (option Cmd)) : Prop :=
  ∀ j, l' !! j = if bool_decide (0 ≤ j ≤ index)%Z then Some (default None (l !! j)) else None.

(** Reading a snapshot that applierSnap made gives the copied log back. *)
Lemma ingest_made i index index' l cfg :
  (-1 ≤ index)%Z → index' = (-1)%Z ∨ index' = index → i < length (cfg_logs cfg) → i < length (cfg_lastApplied cfg) →
  ∃ cfg' l', ingestSnap i (make_snapshot index l) index' cfg = Ok (cfg', None) ∧
    cfg_logs cfg' !! i = Some l' ∧ restored index l l' ∧ cfg_lastApplied cfg' !! i = Some index.
Proof.
  intros Hge Hix Hi Hi'. unfold ingestSnap, make_snapshot. rewrite bool_decide_false by apply gob_nonempty. rewrite gob_roundtrip.
  assert (negb (index' =? -1)%Z && negb (index' =? index)%Z = false) as -> by (destruct Hix as [->| ->]; rewrite Z.eqb_refl; [done|by rewrite andb_false_r]).
  destruct (lookup_lt_is_Some_2 _ _ Hi) as [l0 ->]. destruct (lookup_lt_is_Some_2 _ _ Hi') as [z ->]. cbn [must mbind Res_bind].
  eexists _, _. split; [done|]. simpl. rewrite !list_lookup_insert_eq by done. split_and!; [done| |done].
  intros j. rewrite log_of_lookup. unfold xlog_upto, go_nth. case_bool_decide as Hj; [|by rewrite bool_decide_false by lia].
  rewrite list_lookup_fmap. case_bool_decide.
  - rewrite (proj2 (lookup_seqZ 0 (index + 1) (Z.to_nat j) j)) by lia. done.
  - rewrite lookup_ge_None_2 by (rewrite length_seqZ; lia). done.
Qed.

(** The tenth command makes the peer persist the copied log. *)
Lemma snap_compact_persists i k index cfg cfg' l rf :
  snap_compact i k index cfg = Ok cfg' → Z.rem (index + 1) SnapShotInterval = 0%Z → cfg_logs cfg !! i = Some l →
  cfg_peers cfg !! k = Some rf → (lastIncludedIndex rf < index)%Z →
  ∃ rf', cfg_peers cfg' !! k = Some rf' ∧ snapshot (persister rf') = make_snapshot index l ∧ lastIncludedIndex rf' = index.
Proof.
  unfold snap_compact. intros HS Hrem Hl Hk Hlt. rewrite Hrem, Hl, Hk in HS. cbn in HS.
  apply bind_Ok in HS as (rf' & HS%must_Ok & HC). injection HC as <-. exists rf'. simpl.
  rewrite list_lookup_insert_eq by (by eapply lookup_lt_Some). split; [done|]. unfold Snapshot in HS.
  rewrite (proj2 (Z.leb_gt _ _) Hlt) in HS. go_inv. simpl. by rewrite clone_eq.
Qed.

(** Snapshots of the bench survive a crash: when server [i], whose peer had
    persisted the snapshot that applierSnap made of the copied log [l] at
    [index], is restarted, the bench's copied log of [i] is [l] up to [index]
    again (with nil where [l] had nothing) and the next command expected is the
    one after [index]. *)
Theorem snapshot_survives_restart n i names now cfg cfg' msg index l :
  bench_reachable n cfg → start1 rfMethods i names now cfg = Ok (cfg', msg) →
  length (cfg_logs cfg) = n → length (cfg_lastApplied cfg) = n →
  snapshot (persisted cfg i) = make_snapshot index l → (-1 ≤ index)%Z →
  ∃ l', cfg_logs cfg' !! i = Some l' ∧ restored index l l' ∧ cfg_lastApplied cfg' !! i = Some index.
Proof.
  intros [Hw <-]%bench_reachable_wired HS Hl1 Hl2 Hsnap Hge. unfold start1 in HS. apply bind_Ok in HS as (cfg1 & H1 & HS).
  destruct (crash1_wired _ _ _ H1 Hw) as (_ & _ & _ & _ & Hi & _ & Elg). destruct (wr_len _ Hw) as (_ & _ & _ & Ls).
  destruct (crash1_keeps _ _ _ H1) as [(ps & H3 & Eps) _]; [lia|].
  apply bind_Ok in HS as (? & _ & HS). apply bind_Ok in HS as (net' & H2 & HS). apply bind_Ok in HS as (z & Hz%must_Ok & HS). cbv zeta in HS.
  apply bind_Ok in HS as (ps' & H3' & HS). change (copy_saved _ i) with (copy_saved cfg1 i) in H3'. rewrite H3 in H3'. injection H3' as <-.
  apply bind_Ok in HS as ([cfg2 err] & H4 & HS). apply bind_Ok in HS as (u & _ & HS).
  rewrite <- Eps in Hsnap. destruct ps as [ps|]; [|exfalso; by apply (gob_nonempty (index, xlog_upto index l))].
  simpl in Hsnap. unfold ReadSnapshot in H4. rewrite clone_eq, Hsnap, bool_decide_true in H4.
  2:{ unfold make_snapshot. destruct (gob_encode (index, xlog_upto index l)) eqn:E; [by apply gob_nonempty in E|simpl; lia]. }
  match type of H4 with ingestSnap _ _ _ ?c = _ => destruct (ingest_made i index (-1) l c) as (cfg3 & l' & E & Hl' & Hr & Hla) end;
    [done|by left|simpl; rewrite Elg; lia|simpl; rewrite length_insert; by eapply lookup_lt_Some|].
  rewrite E in H4. injection H4 as <- <-. exists l'. destruct (Make _ _ _ _) as [rf msg']. injection HS as <- _. done.
Qed.

(** A test that makes a bench, disconnects server [i] and crashes server [j]. *)
Definition cut_and_crash (n : nat) (unreliable : bool) (names : nat → nat → string) (start : Z) (now : nat → Z) (i j : nat) : Res config :=
  cfg ← make_config rfMethods n unreliable names start now; cfg ← disconnect i cfg; crash1 j cfg.

Lemma cut_and_crash_reachable n unreliable names start now i j cfg :
  cut_and_crash n unreliable names start now i j = Ok cfg → bench_reachable n cfg.
Proof.
  unfold cut_and_crash. intros (cfg0 & E0 & (cfg1 & E1 & E)%bind_Ok)%bind_Ok.
  eapply reach_bench; [eapply reach_bench; [by eapply reach_make|by eapply step_disconnect]|by eapply step_crash1].
Qed.
End wiring.

(** ** A bench of three servers *)

Definition is_ok {A} (r : Res A) : bool := match r with Ok _ => true | _ => false end.

Lemma is_ok_true {A} (r : Res A) : is_ok r = true → ∃ a, r = Ok a.
Proof. destruct r; [eauto|done..]. Qed.

Local Abbreviation bench_trace := (cut_and_crash (Cmd := Z) (Val := Z) (Rcvr := Z) [] 3 false endname 0 (λ _, 0%Z) 0 2).

Lemma bench_trace_ok : is_ok bench_trace = true.
Proof. vm_compute. reflexivity. Qed.

Definition observed {A} (f : config (Cmd := Z) (Val := Z) (Rcvr := Z) → A) (r : Res config) : option A :=
  match r with Ok cfg => Some (f cfg) | _ => None end.

Lemma bench_trace_reachable : ∃ cfg, bench_trace = Ok cfg ∧ bench_reachable [] 3 cfg.
Proof.
  destruct (is_ok_true _ bench_trace_ok) as [cfg E]. exists cfg. split; [exact E|].
  by apply cut_and_crash_reachable in E.
Qed.

Lemma bench_links_witness :
  ∃ cfg, bench_trace = Ok cfg ∧ linked cfg 0 1 = false ∧ linked cfg 1 2 = false ∧ linked cfg 1 1 = true.
Proof.
  destruct bench_trace_reachable as (cfg & E & Hr). exists cfg.
  assert (observed (λ c, (is_connected c 0, is_connected c 1, is_connected c 2)) bench_trace = Some (false, true, false)) as Hc
    by (vm_compute; reflexivity).
  rewrite E in Hc. cbn [observed] in Hc. injection Hc as C0 C1 C2.
  destruct (bench_links [] 3 cfg 0 1 Hr ltac:(lia) ltac:(lia)) as [L01 _].
  destruct (bench_links [] 3 cfg 1 2 Hr ltac:(lia) ltac:(lia)) as [L12 _].
  destruct (bench_links [] 3 cfg 1 1 Hr ltac:(lia) ltac:(lia)) as [L11 _].
  rewrite L01, L12, L11, C0, C1, C2. split; [exact E|]. split_and!; reflexivity.
Defined.

(** crash1 keeps the names of the ends: a [connect] before the restart enables
    the ends of the crashed server 2 again. *)
Example crashed_end_reconnects :
  observed (λ c, (cfg_rafts c !! 2, linked c 2 0))
    (cfg ← make_config (Cmd := Z) (Val := Z) (Rcvr := Z) [] 3 false endname 0 (λ _, 0%Z); cfg ← crash1 2 cfg; connect 2 cfg) =
  Some (Some None, true).
Proof. vm_compute. reflexivity. Qed.

Lemma start1_last_persisted_witness :
  ∃ cfg cfg' msg, bench_trace = Ok cfg ∧ start1 [] 2 (endname 5) 7 cfg = Ok (cfg', msg) ∧
    cfg_rafts cfg' !! 2 = Some (Some (length (cfg_peers cfg))) ∧ is_connected cfg' 2 = false.
Proof.
  destruct bench_trace_reachable as (cfg & E & Hr). exists cfg.
  destruct (is_ok_true (cfg ← bench_trace; start1 [] 2 (endname 5) 7 cfg)) as [[cfg' msg] E']; [vm_compute; reflexivity|].
  rewrite E in E'. cbn [mbind Res_bind] in E'. exists cfg', msg.
  destruct (start1_last_persisted [] 3 2 (endname 5) 7 cfg cfg' msg Hr E') as (H1 & _ & _ & _ & H2 & _).
  split; [exact E|]. split; [exact E'|]. split; [exact H1|exact H2].
Defined.

Definition ten_log : gmap Z (option Z) := list_to_map ((λ j, (j, Some (j * 11)%Z)) <$> seqZ 1 9).

(** Peer 0 has persisted a snapshot of ten entries. *)
Definition with_snapshot (cfg : config (Cmd := Z) (Val := Z) (Rcvr := Z)) : config :=
  set_cfg_net (add_stats 0 0 (cfg_net cfg))
    (set_cfg_objects (alter (set_persister (mkPersister [] (make_snapshot 9 ten_log))) 0 (cfg_peers cfg)) (cfg_rpc cfg) cfg).

Lemma with_snapshot_reachable cfg : bench_reachable [] 3 cfg → bench_reachable [] 3 (with_snapshot cfg).
Proof.
  intros Hr. eapply reach_bench; [exact Hr|]. apply step_running; [|by apply Forall_Forall2_diag, list.Forall_forall].
  apply Forall2_same_length_lookup. split; [by rewrite length_alter|]. intros i rf rf' Hi Hi'.
  destruct (decide (i = 0)) as [->|]; [|rewrite list_lookup_alter_ne in Hi' by done; by simplify_eq].
  rewrite list_lookup_alter_eq, Hi in Hi'. simpl in Hi'. by simplify_eq.
Qed.

Lemma snapshot_survives_restart_witness :
  ∃ cfg cfg' msg (l' : gmap Z (option Z)), bench_trace = Ok cfg ∧ start1 [] 0 (endname 5) 7 (with_snapshot cfg) = Ok (cfg', msg) ∧
    cfg_logs cfg' !! 0 = Some l' ∧ l' !! 3%Z = Some (Some 33%Z) ∧ cfg_lastApplied cfg' !! 0 = Some 9%Z.
Proof.
  destruct bench_trace_reachable as (cfg & E & Hr). exists cfg.
  destruct (is_ok_true (cfg ← bench_trace; start1 [] 0 (endname 5) 7 (with_snapshot cfg))) as [[cfg' msg] E']; [vm_compute; reflexivity|].
  rewrite E in E'. cbn [mbind Res_bind] in E'.
  assert (observed (λ c, (length (cfg_logs (with_snapshot c)), length (cfg_lastApplied (with_snapshot c)),
    snapshot (persisted (with_snapshot c) 0))) bench_trace = Some (3, 3, make_snapshot 9 ten_log)) as Hc
    by (vm_compute; reflexivity).
  rewrite E in Hc. cbn [observed] in Hc. injection Hc as L1 L2 Hs.
  destruct (snapshot_survives_restart [] 3 0 (endname 5) 7 (with_snapshot cfg) cfg' msg 9 ten_log) as (l' & Hl & Hr' & Hla).
  - apply with_snapshot_reachable. exact Hr.
  - exact E'.
  - exact L1.
  - exact L2.
  - exact Hs.
  - lia.
  - exists cfg', msg, l'. split; [exact E|]. split; [exact E'|]. split; [exact Hl|]. split; [|exact Hla]. rewrite Hr'. vm_compute. reflexivity.
Defined.

(** ** Random names *)

Lemma EncodeToString_length k b : length b ≤ k → length b ≤ String.length (EncodeToString b).
Proof.
  revert b. induction k as [|k IH]; intros b Hb; [destruct b; simpl in *; lia|].
  destruct b as [|x [|y [|z b]]]; simpl; [lia..|]. simpl in Hb. specialize (IH b). lia.
Qed.

Lemma substring_length n : ∀ s, n ≤ String.length s → String.length (String.substring 0 n s) = n.
Proof. induction n as [|n IH]; intros [|a s] Hn; simpl in *; [done..|lia|]. f_equal. apply IH. lia. Qed.

(** The slice of randstring is never out of range: a name has [n] characters. *)
Lemma randstring_ok n b : length b = 2 * n → ∃ s, randstring n b = Some s ∧ String.length s = n.
Proof.
  intros Hb. pose proof (EncodeToString_length (length b) b (le_n _)) as Hl. unfold randstring.
  rewrite bool_decide_true by lia. eexists. split; [done|]. apply substring_length. lia.
Qed.
