(* ===== verification/RaftVerdict.v ===== *)
(** * The checks of the Raft tests (raft/config.go)

    The checks run beside the peers and the readers of applyCh.  A [Moment] is
    the state of the bench together with the clock, in nanoseconds; [pause] is a
    point where the test goroutine sleeps or takes a lock: the other goroutines
    do anything ([others]), and any time passes ([delay]) on top of what was
    slept.  The order in which Go ranges over a map is an argument.

    - [applier_accepts]: the readers of applyCh let a test go on exactly when
      the peers agreed on every index and delivered in order.
    - [checkOneLeader_correct]: on every execution of the cluster, with the
      states read one after another while the cluster moves on, checkOneLeader
      never sees two leaders of a term, and returns a server that led the
      highest term seen.
    - [nCommitted_correct], [one_agreement], [one_ends]: what it means that
      [one] returned, and that it does return. *)

From S2P Require Import Prelude Persister RaftTypes RaftHandlers RaftNet RaftInv RaftSafety RaftTraces Labrpc Cluster RaftConfig RaftWiring.

Section checks.
Context {Cmd : Type} `{EqDecision Cmd} `{!Gob (PersistentState Cmd)} `{!Gob (Z * list (option Cmd))}.
Context {Val Rcvr : Type}.
Local Abbreviation Config := (config (Cmd := Cmd) (Val := Val) (Rcvr := Rcvr)).
Context (others : nat → Config → Config) (delay : nat → nat).

Record Moment := mkMoment { m_tick : nat; m_now : Z; m_cfg : Config }.

(** The goroutine sleeps for [d], or waits for a lock ([d = 0]). *)
Definition pause (d : Z) (m : Moment) : Moment :=
  mkMoment (S (m_tick m)) (m_now m + d + Z.of_nat (delay (m_tick m))) (others (m_tick m) (m_cfg m)).

Definition Millisecond : Z := 1000000.
Definition Second : Z := 1000 * Millisecond.

(** ** Leaders and terms *)

(** [cfg.rafts[i]], which must not be nil. *)
Definition raft_at (i : nat) (cfg : Config) : Res (nat * Raft Cmd) :=
  p ← must (cfg_rafts cfg !! i); k ← must p; rf ← must (cfg_peers cfg !! k); Ok (k, rf).

(** [cfg.rafts[i].GetState()], once its lock is taken. *)
Definition get_state (i : nat) (m : Moment) : Res ((Z * bool) * Moment) :=
  let m := pause 0 m in
  '(_, rf) ← raft_at i (m_cfg m);
  Ok (GetState rf, m).

(** The servers that claim to lead, by term. *)
Fixpoint collect_leaders (ids : list nat) (leaders : gmap Z (list nat)) (m : Moment) : Res (gmap Z (list nat) * Moment) :=
  match ids with
  | [] => Ok (leaders, m)
  | i :: ids =>
      if is_connected (m_cfg m) i then
        '((term, leader), m) ← get_state i m;
        collect_leaders ids (if (leader : bool) then <[term := default [] (leaders !! term) ++ [i]]> leaders else leaders) m
      else collect_leaders ids leaders m
  end.

Fixpoint last_term (leaders : list (Z * list nat)) (lastTermWithLeader : Z) : Res Z :=
  match leaders with
  | [] => Ok lastTermWithLeader
  | (term, ls) :: leaders =>
      if bool_decide (1 < length ls) then Failed (TwoLeaders term (length ls))
      else last_term leaders (if (term >? lastTermWithLeader)%Z then term else lastTermWithLeader)
  end.

Section ordered.
(** How Go ranges over the map, and what rand.Int63 gives in each round. *)
Context (order : gmap Z (list nat) → list (Z * list nat)) (rnd : nat → nat).

Fixpoint checkOneLeader_from (iters : nat) (m : Moment) : Res (nat * Moment) :=
  match iters with
  | 0 => Failed ExpectedOneLeader
  | S iters =>
      let m := pause ((450 + Z.of_nat (rnd iters) mod 100) * Millisecond) m in
      '(leaders, m) ← collect_leaders (seq 0 (cfg_n (m_cfg m))) ∅ m;
      lastTermWithLeader ← last_term (order leaders) (-1);
      if bool_decide (leaders ≠ ∅)
      then l ← must (default [] (leaders !! lastTermWithLeader) !! 0); Ok (l, m)
      else checkOneLeader_from iters m
  end.

Definition checkOneLeader : Moment → Res (nat * Moment) := checkOneLeader_from 10.
End ordered.

Fixpoint checkTerms_from (ids : list nat) (term : Z) (m : Moment) : Res (Z * Moment) :=
  match ids with
  | [] => Ok (term, m)
  | i :: ids =>
      if is_connected (m_cfg m) i then
        '((xterm, _), m) ← get_state i m;
        if (term =? -1)%Z then checkTerms_from ids xterm m
        else if negb (term =? xterm)%Z then Failed TermsDisagree
        else checkTerms_from ids term m
      else checkTerms_from ids term m
  end.

Definition checkTerms (m : Moment) : Res (Z * Moment) := checkTerms_from (seq 0 (cfg_n (m_cfg m))) (-1) m.

Fixpoint checkNoLeader_from (ids : list nat) (m : Moment) : Res Moment :=
  match ids with
  | [] => Ok m
  | i :: ids =>
      if is_connected (m_cfg m) i then
        '((_, is_leader), m) ← get_state i m;
        if (is_leader : bool) then Failed (UnexpectedLeader i) else checkNoLeader_from ids m
      else checkNoLeader_from ids m
  end.

Definition checkNoLeader (m : Moment) : Res Moment := checkNoLeader_from (seq 0 (cfg_n (m_cfg m))) m.

(** ** Agreement *)

(** The loop of nCommitted; [cmd] is an interface value, nil at first. *)
Fixpoint count_committed (index : Z) (ids : list nat) (count : nat) (cmd : option Cmd) (m : Moment) :
    Res ((nat * option Cmd) * Moment) :=
  match ids with
  | [] => Ok ((count, cmd), m)
  | i :: ids =>
      err ← must (cfg_applyErr (m_cfg m) !! i);
      _ ← fatal_if err;
      let m := pause 0 m in
      l ← must (cfg_logs (m_cfg m) !! i);
      match l !! index with
      | Some cmd1 =>
          if bool_decide (0 < count) && negb (bool_decide (cmd = cmd1)) then Failed (ValuesDiffer index)
          else count_committed index ids (count + 1) cmd1 m
      | None => count_committed index ids count cmd m
      end
  end.

Definition nCommitted (index : Z) (m : Moment) : Res ((nat * option Cmd) * Moment) :=
  count_committed index (seq 0 (length (cfg_rafts (m_cfg m)))) 0 None m.

(** [for _, r := range cfg.rafts { if t, _ := r.GetState(); t > startTerm ... }] *)
Fixpoint moved_on (startTerm : Z) (ids : list nat) (m : Moment) : Res (bool * Moment) :=
  match ids with
  | [] => Ok (false, m)
  | i :: ids =>
      '((t, _), m) ← get_state i m;
      if (t >? startTerm)%Z then Ok (true, m) else moved_on startTerm ids m
  end.

(** The result of wait: a command, or the -1 of a term that has passed. *)
Inductive Waited := Decided (cmd : option Cmd) | MovedOn.

Definition wait_last (index : Z) (n : nat) (m : Moment) : Res (Waited * Moment) :=
  '((nd, cmd), m) ← nCommitted index m;
  if bool_decide (nd < n) then Failed (TooFewDecided nd index n) else Ok (Decided cmd, m).

Fixpoint wait_from (iters : nat) (to : Z) (index : Z) (n : nat) (startTerm : Z) (m : Moment) : Res (Waited * Moment) :=
  match iters with
  | 0 => wait_last index n m
  | S iters =>
      '((nd, _), m) ← nCommitted index m;
      if bool_decide (n ≤ nd) then wait_last index n m
      else
        let m := pause to m in
        let to := if (to <? Second)%Z then (to * 2)%Z else to in
        if (startTerm >? -1)%Z then
          '(gone, m) ← moved_on startTerm (seq 0 (length (cfg_rafts (m_cfg m)))) m;
          if (gone : bool) then Ok (MovedOn, m) else wait_from iters to index n startTerm m
        else wait_from iters to index n startTerm m
  end.

Definition wait (index : Z) (n : nat) (startTerm : Z) (m : Moment) : Res (Waited * Moment) :=
  wait_from 30 (10 * Millisecond) index n startTerm m.

(** One try of [one] at server [starts]: a connected peer is asked to start. *)
Definition try_start (cmd : Cmd) (starts : nat) (m : Moment) : Res (option Z * Moment) :=
  let m := pause 0 m in
  p ← must (cfg_rafts (m_cfg m) !! starts);
  match (if is_connected (m_cfg m) starts then p else None) with
  | None => Ok (None, m)
  | Some k =>
      let m := pause 0 m in
      rf ← must (cfg_peers (m_cfg m) !! k);
      let '(rf, (index1, _, ok)) := Start cmd rf in
      Ok (if (ok : bool) then Some index1 else None,
          mkMoment (m_tick m) (m_now m) (set_cfg_objects (<[k := rf]> (cfg_peers (m_cfg m))) (cfg_rpc (m_cfg m)) (m_cfg m)))
  end.

(** [for si := 0; si < cfg.n; si++]: the index, or -1, and where the search stopped. *)
Fixpoint try_all (cmd : Cmd) (rounds : nat) (starts : nat) (m : Moment) : Res ((Z * nat) * Moment) :=
  match rounds with
  | 0 => Ok ((-1, starts)%Z, m)
  | S rounds =>
      let starts := ((starts + 1) mod cfg_n (m_cfg m))%nat in
      '(index1, m) ← try_start cmd starts m;
      match index1 with Some index => Ok ((index, starts), m) | None => try_all cmd rounds starts m end
  end.

(** [for time.Since(t1).Seconds() < 2]: whether our command was committed there. *)
Fixpoint await (fuel : nat) (cmd : Cmd) (expectedServers : nat) (index t1 : Z) (m : Moment) : Res (bool * Moment) :=
  match fuel with
  | 0 => Spent
  | S fuel =>
      if (m_now m - t1 <? 2 * Second)%Z then
        '((nd, cmd1), m) ← nCommitted index m;
        if bool_decide (0 < nd) && bool_decide (expectedServers ≤ nd) && bool_decide (cmd1 = Some cmd) then Ok (true, m)
        else await fuel cmd expectedServers index t1 (pause (20 * Millisecond) m)
      else Ok (false, m)
  end.

(** The outer loop of [one]. *)
Fixpoint one_from (fuel : nat) (cmd : Cmd) (expectedServers : nat) (retry : bool) (t0 : Z) (starts : nat) (m : Moment) :
    Res (Z * Moment) :=
  match fuel with
  | 0 => Spent
  | S fuel' =>
      if (m_now m - t0 <? 10 * Second)%Z && negb (checkFinished (m_cfg m)) then
        '((index, starts), m) ← try_all cmd (cfg_n (m_cfg m)) starts m;
        if negb (index =? -1)%Z then
          '(done, m) ← await fuel cmd expectedServers index (m_now m) m;
          if (done : bool) then Ok (index, m)
          else if negb retry then Failed NoAgreement
          else one_from fuel' cmd expectedServers retry t0 starts m
        else one_from fuel' cmd expectedServers retry t0 starts (pause (50 * Millisecond) m)
      else if negb (checkFinished (m_cfg m)) then Failed NoAgreement
      else Ok ((-1)%Z, m)
  end.

Definition one (fuel : nat) (cmd : Cmd) (expectedServers : nat) (retry : bool) (m : Moment) : Res (Z * Moment) :=
  one_from fuel cmd expectedServers retry (m_now m) 0 m.
End checks.

(** ** What the readers of applyCh accept *)

Section readers.
Context {Cmd : Type} `{EqDecision Cmd} {Val Rcvr : Type}.
Implicit Types (cfg : config (Cmd := Cmd) (Val := Val) (Rcvr := Rcvr)) (ds : list (nat * ApplyMsg Cmd)).

(** The messages of all servers in the order in which they are handled. *)
Fixpoint deliver ds cfg : Res config :=
  match ds with [] => Ok cfg | (i, m) :: ds => cfg ← applier_msg i m cfg; deliver ds cfg end.

(** Server [i] was told command [v] at [index]. *)
Definition told ds (i : nat) (index : Z) (v : option Cmd) : Prop :=
  ∃ m, (i, m) ∈ ds ∧ CommandValid m = true ∧ CommandIndex m = index ∧ MsgCommand m = v.

Definition agree ds : Prop := ∀ i j index v v', told ds i index v → told ds j index v' → v = v'.

Definition in_order ds : Prop :=
  ∀ ds1 i m ds2, ds = ds1 ++ (i, m) :: ds2 → CommandValid m = true → (1 < CommandIndex m)%Z →
    ∃ v, told ds1 i (CommandIndex m - 1) v.

(** The copies of the bench are what the servers were told. *)
Definition recorded (n : nat) ds cfg : Prop :=
  length (cfg_logs cfg) = n ∧
  ∀ i l, cfg_logs cfg !! i = Some l → ∀ index v, l !! index = Some v ↔ told ds i index v.

Lemma told_app ds1 ds2 i index v : told (ds1 ++ ds2) i index v ↔ told ds1 i index v ∨ told ds2 i index v.
Proof. unfold told. setoid_rewrite elem_of_app. naive_solver. Qed.

Lemma told_one i m j index v :
  told [(i, m)] j index v ↔ j = i ∧ CommandValid m = true ∧ CommandIndex m = index ∧ MsgCommand m = v.
Proof. unfold told. setoid_rewrite list_elem_of_singleton. naive_solver. Qed.

Lemma find_mismatch_None i index (v : option Cmd) logs : ∀ j err,
  find_mismatch i index v j logs err = None ↔ err = None ∧ ∀ k l old, logs !! k = Some l → l !! index = Some old → old = v.
Proof.
  induction logs as [|l logs IH]; intros j err; simpl; [naive_solver|]. rewrite IH. split.
  - intros [He Hr]. destruct (l !! index) as [old|] eqn:El; [case_bool_decide; [|done]|]; (split; [done|]); intros [|k] l' old' Hk; naive_solver.
  - intros [-> Hr]. split; [|intros k; exact (Hr (S k))]. destruct (l !! index) as [old|] eqn:El; [|done].
    by rewrite bool_decide_true by (by eapply (Hr 0)).
Qed.

(** The condition under which a message is accepted. *)
Definition acceptable ds (i : nat) (m : ApplyMsg Cmd) : Prop :=
  CommandValid m = true →
  (∀ j v, told ds j (CommandIndex m) v → v = MsgCommand m) ∧
  ((1 < CommandIndex m)%Z → ∃ v, told ds i (CommandIndex m - 1) v).

Lemma recorded_ext n ds ds' cfg : (∀ i index v, told ds i index v ↔ told ds' i index v) → recorded n ds cfg → recorded n ds' cfg.
Proof. intros Ht [Hl Hr]. split; [done|]. intros i l Hi index v. rewrite <- Ht. by apply Hr. Qed.

Lemma applier_msg_verdict n ds i m cfg :
  recorded n ds cfg → agree ds → i < n → (∀ j index v, told ds j index v → j < n) →
  match applier_msg i m cfg with
  | Ok cfg' => acceptable ds i m ∧ recorded n (ds ++ [(i, m)]) cfg'
  | Failed _ => ¬ acceptable ds i m
  | _ => False
  end.
Proof.
  intros [Hlen Hrec] Hag Hi Hlt. unfold applier_msg, acceptable. destruct (CommandValid m) eqn:Hv; simpl.
  2:{ split; [done|]. eapply recorded_ext; [|by split]. intros j index v. rewrite told_app, told_one.
      split; [by left|]. intros [?|(_ & ? & _)]; [done|congruence]. }
  unfold checkLogs. destruct (lookup_lt_is_Some_2 (cfg_logs cfg) i) as [l Hl]; [lia|]. rewrite Hl. simpl.
  assert (bool_decide (is_Some (l !! (CommandIndex m - 1)%Z)) = true ↔ ∃ v, told ds i (CommandIndex m - 1) v) as Hprev.
  { rewrite bool_decide_eq_true. split; intros [v Hx]; exists v; by apply (Hrec i l Hl). }
  destruct (find_mismatch i (CommandIndex m) (MsgCommand m) 0 (cfg_logs cfg) None) as [f|] eqn:Ef.
  - assert (¬ ∀ j v, told ds j (CommandIndex m) v → v = MsgCommand m) as Hno.
    { intros Hall. assert (find_mismatch i (CommandIndex m) (MsgCommand m) 0 (cfg_logs cfg) None = None) as E; [|congruence].
      apply find_mismatch_None. split; [done|]. intros k l' old Hk Ho. apply (Hall k). by apply (Hrec k l' Hk). }
    unfold order_error. destruct (_ && _); simpl; naive_solver.
  - apply find_mismatch_None in Ef as [_ Hall]. unfold order_error. destruct ((CommandIndex m >? 1)%Z && _) eqn:Eo; simpl.
    + b2p. intros Ha. destruct (Ha eq_refl) as [_ Hp]. specialize (Hp ltac:(lia)). apply Hprev in Hp. by b2p.
    + split.
      * intros _. split.
        -- intros j v Ht. pose proof (Hlt _ _ _ Ht) as Hj. destruct (lookup_lt_is_Some_2 (cfg_logs cfg) j) as [l' Hj']; [lia|].
           apply (Hall j l' v Hj'). by apply (Hrec j l').
        -- intros H1. apply Hprev. apply andb_false_iff in Eo as [Eo|Eo]; [b2p; lia|by apply negb_false_iff in Eo].
      * split; simpl; [by rewrite length_insert|]. intros j l' Hj index v. rewrite told_app, told_one.
        destruct (decide (j = i)) as [->|]; [|rewrite list_lookup_insert_ne in Hj by done; rewrite (Hrec j l' Hj); naive_solver].
        rewrite list_lookup_insert_eq in Hj by lia. injection Hj as <-. destruct (decide (index = CommandIndex m)) as [->|].
        -- rewrite lookup_insert_eq. split; [intros [= <-]; by right|]. intros [Ht|(_ & _ & _ & ->)]; [|done].
           apply (Hrec i l Hl) in Ht. by rewrite (Hall i l v Hl Ht).
        -- rewrite lookup_insert_ne by done. rewrite (Hrec i l Hl). naive_solver.
Qed.

Lemma deliver_app ds1 : ∀ ds2 cfg, deliver (ds1 ++ ds2) cfg = deliver ds1 cfg ≫= deliver ds2.
Proof.
  induction ds1 as [|[i m] ds1 IH]; intros ds2 cfg; simpl; [done|]. destruct (applier_msg i m cfg); simpl; [apply IH|done..].
Qed.

Lemma agree_snoc ds i m : agree (ds ++ [(i, m)]) ↔ agree ds ∧ (CommandValid m = true → ∀ j v, told ds j (CommandIndex m) v → v = MsgCommand m).
Proof.
  split.
  - intros Ha. split; [intros a b x v v' H1 H2; apply (Ha a b x); apply told_app; by left|]. intros Hv j v Ht.
    apply (Ha j i (CommandIndex m)); apply told_app; [by left|right]. by apply told_one.
  - intros [Ha Hm] a b x v v' [H1|(-> & V1 & <- & <-)%told_one]%told_app [H2|(-> & V2 & E2 & <-)%told_one]%told_app; [by eapply Ha| | |done].
    + subst x. by eapply Hm.
    + symmetry. by eapply Hm.
Qed.

Lemma in_order_snoc ds i m :
  in_order (ds ++ [(i, m)]) ↔
  in_order ds ∧ (CommandValid m = true → (1 < CommandIndex m)%Z → ∃ v, told ds i (CommandIndex m - 1) v).
Proof.
  split.
  - intros Ho. split; [|by apply Ho with (ds2 := [])]. intros ds1 a m' ds2 ->. apply Ho with (ds2 := ds2 ++ [(i, m)]).
    by rewrite <- app_assoc.
  - intros [Ho Hm] ds1 a m' ds2 E. destruct ds2 as [|d ds2 _] using rev_ind.
    + apply app_inj_tail in E as [-> [= -> ->]]. done.
    + rewrite app_comm_cons, app_assoc in E. apply app_inj_tail in E as [-> _]. by apply Ho with (ds2 := ds2).
Qed.

(** The readers of applyCh as the judge of agreement: whatever the order in
    which the messages of the servers are handled, a test that starts with
    empty copies goes on exactly when no two servers were told different
    commands at an index and every server was told its commands without a gap;
    the copies are then what the servers were told.  Otherwise the test fails. *)
Theorem applier_accepts n ds cfg :
  cfg_logs cfg = replicate n ∅ → (∀ i m, (i, m) ∈ ds → i < n) →
  match deliver ds cfg with
  | Ok cfg' => agree ds ∧ in_order ds ∧ recorded n ds cfg'
  | Failed _ => ¬ (agree ds ∧ in_order ds)
  | _ => False
  end.
Proof.
  intros Hcfg. induction ds as [|[i m] ds IH] using rev_ind; intros Hin.
  { simpl. split_and!; [by intros ? ? ? ? ? (? & ?%not_elem_of_nil & _)|by intros [|? ?] ? ? ? [=]|]. unfold recorded. rewrite Hcfg.
    split; [apply length_replicate|]. intros i l [-> _]%lookup_replicate index v. rewrite lookup_empty.
    split; [done|]. by intros (? & ?%not_elem_of_nil & _). }
  assert (i < n) as Hi by (eapply Hin, elem_of_app; right; by apply list_elem_of_singleton).
  assert (∀ j index v, told ds j index v → j < n) as Hlt by (intros j index v (m' & Hj & _); eapply Hin, elem_of_app; by left).
  rewrite deliver_app. specialize (IH (λ i m H, Hin i m (proj2 (elem_of_app _ _ _) (or_introl H)))).
  destruct (deliver ds cfg) as [cfg1|f| |]; cbn [mbind Res_bind]; [|rewrite agree_snoc, in_order_snoc; tauto|done|done].
  destruct IH as (Ha & Ho & Hr). pose proof (applier_msg_verdict n ds i m cfg1 Hr Ha Hi Hlt) as Hm. cbn [deliver].
  unfold acceptable in Hm. destruct (applier_msg i m cfg1) as [cfg2|f| |]; cbn [mbind Res_bind]; rewrite ?agree_snoc, ?in_order_snoc; naive_solver.
Qed.
End readers.

(** ** One leader per term, seen from the bench *)

Section leaders.
Context {Cmd : Type} `{EqDecision Cmd} `{!Gob (PersistentState Cmd)} {Val Rcvr : Type}.
Local Abbreviation Config := (config (Cmd := Cmd) (Val := Val) (Rcvr := Rcvr)).
Local Abbreviation moment := (Moment (Cmd := Cmd) (Val := Val) (Rcvr := Rcvr)).
Context (others : nat → Config → Config) (delay : nat → nat).
Implicit Types (cfg : Config) (m : moment).

(** The peers of the bench are the nodes of the cluster. *)
Definition views cfg (w : World Cmd) : Prop :=
  ∀ i k, cfg_rafts cfg !! i = Some (Some k) → ∃ rf, cfg_peers cfg !! k = Some rf ∧ nodes w !! Z.of_nat i = Some rf.

(** The servers that a check asks are running. *)
Definition asked_run cfg : Prop := ∀ i, is_connected cfg i = true → ∃ k, cfg_rafts cfg !! i = Some (Some k).

(** An execution of the cluster of [n] servers, and a bench beside it: while a
    check runs, the other goroutines do not start, crash or disconnect servers. *)
Record beside (n : Z) (ws : nat → World Cmd) : Prop := {
  be_n : (0 ≤ n)%Z;
  be_reach : reachable n (ws 0);
  be_run : ∀ t, ∃ acts, run acts (ws t) = Next (ws (S t));
  be_views : ∀ t cfg, views cfg (ws t) → views (others t cfg) (ws (S t));
  be_same : ∀ t cfg, cfg_rafts (others t cfg) = cfg_rafts cfg ∧ cfg_connected (others t cfg) = cfg_connected cfg ∧
              cfg_n (others t cfg) = cfg_n cfg
}.

Context (n : Z) (ws : nat → World Cmd) (Hbe : beside n ws).

Lemma run_app acts1 : ∀ acts2 (w w1 : World Cmd) w2, run acts1 w = Next w1 → run acts2 w1 = w2 → run (acts1 ++ acts2) w = w2.
Proof.
  induction acts1 as [|a acts1 IH]; intros acts2 w w1 w2 H1 H2; simpl in *; [congruence|].
  destruct (step a w); try done. by eapply IH.
Qed.

Lemma ws_run t d : ∃ acts, run acts (ws t) = Next (ws (t + d)).
Proof.
  induction d as [|d (acts & IH)]; [exists []; by rewrite Nat.add_0_r|]. destruct (be_run _ _ Hbe (t + d)) as [acts' H'].
  exists (acts ++ acts'). rewrite Nat.add_succ_r. by eapply run_app.
Qed.

Lemma ws_reach t : reachable n (ws t).
Proof. destruct (ws_run 0 t) as [acts Hr]. eapply run_reachable; [apply (be_reach _ _ Hbe)|exact Hr]. Qed.

(** At whatever times they are asked, two leaders of a term are one server. *)
Lemma ws_leader t t' i j term : leader_of (ws t) i term → leader_of (ws t') j term → i = j.
Proof.
  intros Hi Hj. destruct (decide (t ≤ t')) as [Hle|Hgt].
  - destruct (ws_run t (t' - t)) as [acts Hr]. replace (t + (t' - t)) with t' in Hr by lia.
    exact (leaders_agree n _ _ _ _ _ _ (be_n _ _ Hbe) (ws_reach t) Hr Hi Hj).
  - destruct (ws_run t' (t - t')) as [acts Hr]. replace (t' + (t - t')) with t in Hr by lia.
    exact (eq_sym (leaders_agree n _ _ _ _ _ _ (be_n _ _ Hbe) (ws_reach t') Hr Hj Hi)).
Qed.

(** The moments of a check that started in [m]. *)
Record during (m m' : moment) : Prop := {
  du_views : views (m_cfg m') (ws (m_tick m'));
  du_rafts : cfg_rafts (m_cfg m') = cfg_rafts (m_cfg m);
  du_conn : cfg_connected (m_cfg m') = cfg_connected (m_cfg m);
  du_n : cfg_n (m_cfg m') = cfg_n (m_cfg m);
  du_later : m_tick m ≤ m_tick m'
}.

Lemma during_pause m m' d : during m m' → during m (pause others delay d m').
Proof.
  intros [V R C N L]. destruct (be_same _ _ Hbe (m_tick m') (m_cfg m')) as (E1 & E2 & E3).
  split; simpl; [by apply (be_views _ _ Hbe)|congruence..|lia].
Qed.

Lemma get_state_spec m m' i k :
  during m m' → cfg_rafts (m_cfg m) !! i = Some (Some k) →
  ∃ rf m'', get_state others delay i m' = Ok (GetState rf, m'') ∧ during m m'' ∧ m_tick m' < m_tick m'' ∧
    nodes (ws (m_tick m'')) !! Z.of_nat i = Some rf.
Proof.
  intros Hd Hi. unfold get_state. pose proof (during_pause m m' 0 Hd) as Hd'. set (m'' := pause others delay 0 m') in *.
  rewrite <- (du_rafts _ _ Hd') in Hi. destruct (du_views _ _ Hd' i k Hi) as (rf & Hk & Hn). exists rf, m''.
  unfold raft_at. rewrite Hi. cbn [must mbind Res_bind]. rewrite Hk. split_and!; [done|done|simpl; lia|done].
Qed.

(** What was collected from the servers [done], asked after time [t0]. *)
Record collected (m : moment) (t0 : nat) (asked : list nat) (leaders : gmap Z (list nat)) (m' : moment) : Prop := {
  co_nodup : ∀ term ls, leaders !! term = Some ls → ls ≠ [] ∧ NoDup ls;
  co_sound : ∀ term ls i, leaders !! term = Some ls → i ∈ ls →
    i ∈ asked ∧ is_connected (m_cfg m) i = true ∧ ∃ t, t0 < t ≤ m_tick m' ∧ leader_of (ws t) (Z.of_nat i) term;
  co_complete : ∀ i, i ∈ asked → is_connected (m_cfg m) i = true →
    ∃ t, t0 < t ≤ m_tick m' ∧ ∀ term, leader_of (ws t) (Z.of_nat i) term → ∃ ls, leaders !! term = Some ls ∧ i ∈ ls
}.

(** One more server was asked. *)
Lemma collected_snoc m t0 asked leaders m' m'' i rf :
  collected m t0 asked leaders m' → t0 ≤ m_tick m' → m_tick m' < m_tick m'' → i ∉ asked → is_connected (m_cfg m) i = true →
  nodes (ws (m_tick m'')) !! Z.of_nat i = Some rf →
  collected m t0 (asked ++ [i])
    (if (GetState rf).2 then <[currTerm rf := default [] (leaders !! currTerm rf) ++ [i]]> leaders else leaders) m''.
Proof.
  intros [Nd So Co] Ht0 Ht Hni Hc Hrf. unfold GetState. simpl.
  assert (∀ term, leader_of (ws (m_tick m'')) (Z.of_nat i) term ↔ (state rf =? Leader)%Z = true ∧ term = currTerm rf) as Hlead.
  { intros term. rewrite Z.eqb_eq. split; [intros (rf' & E & ? & ?); simplify_eq; done|]. intros [? ->]. by exists rf. }
  destruct (state rf =? Leader)%Z eqn:Es.
  - set (old := default [] (leaders !! currTerm rf)).
    assert (∀ j, j ∈ old → j ∈ asked) as Hold.
    { intros j Hj. unfold old in Hj. destruct (leaders !! currTerm rf) eqn:E; [|set_solver]. by destruct (So _ _ _ E Hj). }
    assert (NoDup old) as Hnd by (unfold old; destruct (leaders !! currTerm rf) eqn:E; [by apply (Nd _ _ E)|constructor]).
    split.
    + intros term ls [[<- <-]|[_ E]]%lookup_insert_Some; [|by apply (Nd term)]. split; [by destruct old|].
      apply list.NoDup_app. split_and!; [done| |apply NoDup_singleton]. intros j Hj ->%list_elem_of_singleton. by apply Hni, Hold.
    + intros term ls j [[<- <-]|[_ E]]%lookup_insert_Some Hj.
      * apply elem_of_app in Hj as [Hj| ->%list_elem_of_singleton].
        -- unfold old in Hj. destruct (leaders !! currTerm rf) as [ls|] eqn:E; [|set_solver].
           destruct (So _ _ _ E Hj) as (? & ? & t & ? & ?). split_and!; [set_solver|done|]. exists t. split; [lia|done].
        -- split_and!; [set_solver|done|]. exists (m_tick m''). split; [lia|]. by apply Hlead.
      * destruct (So _ _ _ E Hj) as (? & ? & t & ? & ?). split_and!; [set_solver|done|]. exists t. split; [lia|done].
    + intros j [Hj| ->%list_elem_of_singleton]%elem_of_app Hcj.
      * destruct (Co j Hj Hcj) as (t & ? & Hl). exists t. split; [lia|]. intros term (ls & E & Hin)%Hl.
        destruct (decide (term = currTerm rf)) as [->|]; [|exists ls; by rewrite lookup_insert_ne].
        exists (old ++ [i]). rewrite lookup_insert_eq. split; [done|]. unfold old. rewrite E. set_solver.
      * exists (m_tick m''). split; [lia|]. intros term [_ ->]%Hlead. exists (old ++ [i]). rewrite lookup_insert_eq. set_solver.
  - split; [done| |].
    + intros term ls j E Hj. destruct (So _ _ _ E Hj) as (? & ? & t & ? & ?). split_and!; [set_solver|done|]. exists t. split; [lia|done].
    + intros j [Hj| ->%list_elem_of_singleton]%elem_of_app Hcj.
      * destruct (Co j Hj Hcj) as (t & ? & Hl). exists t. split; [lia|done].
      * exists (m_tick m''). split; [lia|]. by intros term [? _]%Hlead.
Qed.

Lemma collect_leaders_spec m ids : ∀ asked leaders m' t0,
  asked_run (m_cfg m) → during m m' → NoDup (asked ++ ids) → t0 ≤ m_tick m' → collected m t0 asked leaders m' →
  ∃ leaders' m'', collect_leaders others delay ids leaders m' = Ok (leaders', m'') ∧ during m m'' ∧
    m_tick m' ≤ m_tick m'' ∧ collected m t0 (asked ++ ids) leaders' m''.
Proof.
  induction ids as [|i ids IH]; intros asked leaders m' t0 Hrun Hd Hnd Ht Hc; cbn [collect_leaders].
  { exists leaders, m'. rewrite app_nil_r. split_and!; done || lia. }
  rewrite (cons_middle i asked ids), app_assoc in Hnd |- *.
  assert (i ∉ asked) as Hni by (apply list.NoDup_app in Hnd as (Hnd & _ & _); apply list.NoDup_app in Hnd as (_ & Hx & _); set_solver).
  assert (is_connected (m_cfg m') i = is_connected (m_cfg m) i) as Ec by (unfold is_connected; by rewrite (du_conn _ _ Hd)).
  rewrite Ec. destruct (is_connected (m_cfg m) i) eqn:Ei.
  - destruct (Hrun i Ei) as [k Hk]. destruct (get_state_spec m m' i k Hd Hk) as (rf & m1 & -> & Hd1 & Hlt & Hrf).
    cbn [mbind Res_bind]. pose proof (collected_snoc _ _ _ _ _ _ _ _ Hc Ht Hlt Hni Ei Hrf) as Hc1.
    destruct (IH (asked ++ [i]) _ m1 t0 Hrun Hd1 Hnd ltac:(lia) Hc1) as (ls & m2 & E & Hd2 & Hle & Hc2).
    exists ls, m2. split_and!; [exact E|done|lia|done].
  - apply (IH (asked ++ [i])); try done. destruct Hc as [Nd So Co]. split; [done| |].
    + intros term ls j E Hj. destruct (So _ _ _ E Hj) as (? & ?). split; [set_solver|done].
    + intros j [Hj| ->%list_elem_of_singleton]%elem_of_app Hcj; [by apply Co|congruence].
Qed.

(** No term has two leaders. *)
Lemma collected_one m t0 asked leaders m' term ls :
  collected m t0 asked leaders m' → leaders !! term = Some ls → ∃ i, ls = [i].
Proof.
  intros [Nd So _] E. destruct (Nd _ _ E) as [Hne Hnd]. destruct ls as [|i [|j ls]]; [done|by exists i|].
  destruct (So _ _ i E) as (_ & _ & t & _ & Hi); [set_solver|]. destruct (So _ _ j E) as (_ & _ & t' & _ & Hj); [set_solver|].
  pose proof (ws_leader _ _ _ _ _ Hi Hj) as Eij. apply Nat2Z.inj in Eij as ->.
  apply list.NoDup_cons in Hnd as [Hx _]. set_solver.
Qed.

Lemma last_term_spec l : ∀ d,
  (∀ term ls, (term, ls) ∈ l → length ls ≤ 1) →
  ∃ r, last_term l d = Ok r ∧ (d ≤ r)%Z ∧ (∀ term ls, (term, ls) ∈ l → (term ≤ r)%Z) ∧ (r = d ∨ ∃ ls, (r, ls) ∈ l).
Proof.
  induction l as [|[term ls] l IH]; intros d Hl; cbn [last_term].
  { exists d. split_and!; [done|lia|set_solver|by left]. }
  rewrite bool_decide_false by (specialize (Hl term ls ltac:(set_solver)); lia).
  destruct (IH (if (term >? d)%Z then term else d)) as (r & -> & H1 & H2 & H3); [set_solver|]. exists r.
  destruct (Z.gtb_spec term d); split_and!; [done|lia| | |done|lia| |];
    try (intros term' ls' [[= -> ->]|?]%elem_of_cons; [lia|by eapply H2]);
    destruct H3 as [->|[ls' ?]]; [right; exists ls|right; exists ls'|left|right; exists ls']; set_solver.
Qed.

Section check.
Context (order : gmap Z (list nat) → list (Z * list nat)) (rnd : nat → nat).
Context (Horder : ∀ leaders, order leaders ≡ₚ map_to_list leaders).

(** What one round of the check shows. *)
Definition led_highest (m : moment) (l : nat) (m' : moment) : Prop :=
  ∃ t term, m_tick m < t ≤ m_tick m' ∧ leader_of (ws t) (Z.of_nat l) term ∧
    ∀ i, i < cfg_n (m_cfg m) → is_connected (m_cfg m) i = true →
      ∃ t', m_tick m < t' ≤ m_tick m' ∧ ∀ term', leader_of (ws t') (Z.of_nat i) term' → (term' ≤ term)%Z.

Definition none_led (m : moment) (t0 : nat) : Prop :=
  ∀ i, i < cfg_n (m_cfg m) → is_connected (m_cfg m) i = true → ∃ t, t0 < t ∧ ¬ ∃ term, leader_of (ws t) (Z.of_nat i) term.

Lemma checkOneLeader_rounds m iters : ∀ m',
  asked_run (m_cfg m) → during m m' →
  match checkOneLeader_from others delay order rnd iters m' with
  | Ok (l, m'') => l < cfg_n (m_cfg m) ∧ is_connected (m_cfg m) l = true ∧ led_highest m l m''
  | Failed f => f = ExpectedOneLeader ∧ (0 < iters → none_led m (m_tick m'))
  | _ => False
  end.
Proof.
  induction iters as [|iters IH]; intros m' Hrun Hd; cbn [checkOneLeader_from]; [split; [done|lia]|].
  match goal with |- context [pause others delay ?d m'] => pose proof (during_pause m m' d Hd) as Hd1; set (m1 := pause others delay d m') in * end.
  assert (m_tick m' < m_tick m1) as Hlt by (simpl; lia).
  destruct (collect_leaders_spec m (seq 0 (cfg_n (m_cfg m1))) [] ∅ m1 (m_tick m1) Hrun Hd1) as (ls & m2 & E & Hd2 & Hle & Hc);
    [apply NoDup_seq|lia|by split; set_solver|].
  rewrite E. cbn [mbind Res_bind]. cbn [app] in Hc. rewrite (du_n _ _ Hd1) in Hc. pose proof (du_later _ _ Hd1) as Hm1.
  destruct (last_term_spec (order ls) (-1)) as (r & -> & Hr1 & Hr2 & Hr3).
  { intros term l. rewrite Horder, elem_of_map_to_list. intros El. by destruct (collected_one _ _ _ _ _ _ _ Hc El) as [? ->]. }
  cbn [mbind Res_bind]. case_bool_decide as Hne.
  - assert (∃ term l, ls !! term = Some l ∧ (0 ≤ term)%Z) as (term & l & El & Hge).
    { destruct (map_choose ls Hne) as (term & l & El). exists term, l. split; [done|].
      destruct (collected_one _ _ _ _ _ _ _ Hc El) as [i ->].
      destruct (co_sound _ _ _ _ _ Hc _ _ i El) as (_ & _ & t & _ & rf & Hrf & _ & <-); [set_solver|].
      exact (reachable_term n _ _ _ (be_n _ _ Hbe) (ws_reach t) Hrf). }
    assert (∃ i, ls !! r = Some [i]) as (i & Ei).
    { destruct Hr3 as [->|[l' Hl']].
      - exfalso. specialize (Hr2 term l). rewrite Horder, elem_of_map_to_list in Hr2. specialize (Hr2 El). lia.
      - rewrite Horder, elem_of_map_to_list in Hl'. destruct (collected_one _ _ _ _ _ _ _ Hc Hl') as [i ->]. by exists i. }
    rewrite Ei. cbn [default list_lookup lookup must mbind Res_bind].
    destruct (co_sound _ _ _ _ _ Hc _ _ i Ei) as (Hin & Hci & t & Ht & Hl); [set_solver|]. rewrite elem_of_seq in Hin.
    split_and!; [simpl in Hin; lia|done|]. exists t, r. split; [lia|]. split; [done|]. intros j Hj Hcj.
    destruct (co_complete _ _ _ _ _ Hc j) as (t' & Ht' & Hall); [rewrite elem_of_seq; simpl; lia|done|].
    exists t'. split; [lia|]. intros term' (ls' & El' & _)%Hall. specialize (Hr2 term' ls').
    rewrite Horder, elem_of_map_to_list in Hr2. by apply Hr2.
  - specialize (IH m2 Hrun Hd2).
    destruct (checkOneLeader_from others delay order rnd iters m2) as [[l m3]|f| |]; [done| |done|done].
    split; [by destruct IH|]. intros _ i Hi Hci. destruct (co_complete _ _ _ _ _ Hc i) as (t & Ht & Hall); [rewrite elem_of_seq; simpl; lia|done|].
    exists t. split; [lia|]. intros (term & (l & El & _)%Hall). by rewrite Hne, lookup_empty in El.
Qed.

(** C37. checkOneLeader on the real cluster: its ten rounds ask the connected
    servers one after another while the cluster goes on, and whatever the
    cluster does in between, it never reports two leaders of one term and never
    panics.  It returns a connected server that led, when asked, a term that no
    connected server asked in the same check exceeded; it fails only with
    "expected one leader", and then every connected server was once asked while
    it was not leader. *)
Theorem checkOneLeader_correct m :
  asked_run (m_cfg m) → views (m_cfg m) (ws (m_tick m)) →
  match checkOneLeader others delay order rnd m with
  | Ok (l, m') => l < cfg_n (m_cfg m) ∧ is_connected (m_cfg m) l = true ∧ led_highest m l m'
  | Failed f => f = ExpectedOneLeader ∧ none_led m (m_tick m)
  | _ => False
  end.
Proof.
  intros Hrun Hv. pose proof (checkOneLeader_rounds m 10 m Hrun) as HR. unfold checkOneLeader.
  destruct (checkOneLeader_from others delay order rnd 10 m) as [[l m']|f| |]; try (apply HR; by split).
  destruct HR as [-> HR]; [by split|]. split; [done|]. apply HR. lia.
Qed.
End check.
End leaders.

(** ** Agreement, seen from the bench *)

Section agreement.
Context {Cmd : Type} `{EqDecision Cmd} `{!Gob (PersistentState Cmd)} {Val Rcvr : Type}.
Local Abbreviation Config := (config (Cmd := Cmd) (Val := Val) (Rcvr := Rcvr)).
Local Abbreviation moment := (Moment (Cmd := Cmd) (Val := Val) (Rcvr := Rcvr)).
Context (others : nat → Config → Config) (delay : nat → nat).
Implicit Types (cfg : Config) (m : moment) (index : Z).

(** Server [i] has told its service a command at [index]. *)
Definition has_index cfg index (i : nat) : Prop := ∃ l v, cfg_logs cfg !! i = Some l ∧ l !! index = Some v.

#[export] Instance has_index_dec cfg index i : Decision (has_index cfg index i).
Proof.
  refine (match cfg_logs cfg !! i as o return cfg_logs cfg !! i = o → _ with
          | Some l => λ E, match l !! index as o return l !! index = o → _ with
                           | Some v => λ E', left (ex_intro _ l (ex_intro _ v (conj E E')))
                           | None => λ E', right _
                           end eq_refl
          | None => λ E, right _
          end eq_refl); intros (? & ? & ? & ?); congruence.
Defined.

(** How many of the servers [ids] have. *)
Definition having cfg index (ids : list nat) : nat := length (filter (has_index cfg index) ids).

(** The copied logs agree: the readers of applyCh see to it ([applier_accepts]). *)
Definition agreed cfg : Prop :=
  ∀ i j li lj index v v', cfg_logs cfg !! i = Some li → cfg_logs cfg !! j = Some lj →
    li !! index = Some v → lj !! index = Some v' → v = v'.

Definition grows cfg cfg' : Prop :=
  (∀ i l, cfg_logs cfg !! i = Some l → ∃ l', cfg_logs cfg' !! i = Some l' ∧ l ⊆ l') ∧
  length (cfg_peers cfg) ≤ length (cfg_peers cfg').

(** A bench of [n] servers whose test goes well so far. *)
Record fine (n : nat) cfg : Prop := {
  fi_n : cfg_n cfg = n;
  fi_len : length (cfg_rafts cfg) = n ∧ length (cfg_logs cfg) = n;
  fi_err : cfg_applyErr cfg = replicate n None;
  fi_peers : ∀ i k, cfg_rafts cfg !! i = Some (Some k) → k < length (cfg_peers cfg);
  fi_agreed : agreed cfg
}.

Context (n : nat) (Hothers : ∀ t cfg, fine n cfg → fine n (others t cfg) ∧ grows cfg (others t cfg)).

#[export] Instance grows_po : PreOrder grows.
Proof.
  split; [intros cfg; split; [intros i l Hl; by exists l|lia]|].
  intros c1 c2 c3 [H12 L12] [H23 L23]. split; [|lia]. intros i l (l2 & H2 & S2)%H12. destruct (H23 i l2 H2) as (l3 & H3 & S3). exists l3. split; [done|by etrans].
Qed.

Lemma has_index_grows cfg cfg' index i : grows cfg cfg' → has_index cfg index i → has_index cfg' index i.
Proof. intros [Hg _] (l & v & Hl & Hv). destruct (Hg i l Hl) as (l' & Hl' & Hs). exists l', v. split; [done|by eapply lookup_weaken]. Qed.

Lemma having_grows cfg cfg' index ids : grows cfg cfg' → having cfg index ids ≤ having cfg' index ids.
Proof.
  intros Hg. unfold having. induction ids as [|i ids IH]; [done|]. rewrite !filter_cons.
  destruct (decide (has_index cfg index i)) as [H1|H1].
  - rewrite decide_True by (by eapply has_index_grows). simpl. lia.
  - case_decide; simpl; lia.
Qed.

(** A moment later in the same test. *)
Record on_from m m' : Prop := { on_fine : fine n (m_cfg m'); on_grows : grows (m_cfg m) (m_cfg m'); on_now : (m_now m ≤ m_now m')%Z }.

Lemma on_refl m : fine n (m_cfg m) → on_from m m.
Proof. intros Hf. split; [done|reflexivity|lia]. Qed.

Lemma on_trans m1 m2 m3 : on_from m1 m2 → on_from m2 m3 → on_from m1 m3.
Proof. intros [_ G1 N1] [F2 G2 N2]. split; [done|by etrans|lia]. Qed.

Lemma on_pause m d : (0 ≤ d)%Z → fine n (m_cfg m) → on_from m (pause others delay d m) ∧ (m_now m + d ≤ m_now (pause others delay d m))%Z.
Proof. intros Hd Hf. destruct (Hothers (m_tick m) _ Hf) as [H1 H2]. split; [split|]; simpl; done || lia. Qed.

Lemma count_committed_spec index ids : ∀ count cmd m,
  fine n (m_cfg m) → (∀ i, i ∈ ids → i < n) →
  (0 < count → ∃ i l, cfg_logs (m_cfg m) !! i = Some l ∧ l !! index = Some cmd) →
  ∃ nd cmd' m', count_committed others delay index ids count cmd m = Ok ((nd, cmd'), m') ∧ on_from m m' ∧
    count + having (m_cfg m) index ids ≤ nd ∧ nd ≤ count + having (m_cfg m') index ids ∧
    (0 < nd → ∃ i l, cfg_logs (m_cfg m') !! i = Some l ∧ l !! index = Some cmd').
Proof.
  induction ids as [|i ids IH]; intros count cmd m Hf Hin Hcmd; cbn [count_committed].
  { exists count, cmd, m. split_and!; [done|by apply on_refl|unfold having; simpl; lia..|done]. }
  assert (i < n) as Hi by (apply Hin; set_solver).
  rewrite (fi_err _ _ Hf), lookup_replicate_2 by done. cbn [must mbind Res_bind fatal_if].
  destruct (on_pause m 0 ltac:(lia) Hf) as [Hon _]. set (m1 := pause others delay 0 m) in *. pose proof (on_fine _ _ Hon) as Hf1.
  destruct (fi_len _ _ Hf1) as [_ Hl1]. destruct (lookup_lt_is_Some_2 (cfg_logs (m_cfg m1)) i) as [l Hl]; [lia|]. rewrite Hl. cbn [must mbind Res_bind].
  assert (∀ i0 l0, cfg_logs (m_cfg m) !! i0 = Some l0 → ∃ l1, cfg_logs (m_cfg m1) !! i0 = Some l1 ∧ l0 ⊆ l1) as Hg by apply Hon.
  pose proof (having_grows _ _ index ids (on_grows _ _ Hon)) as Hh.
  destruct (l !! index) as [cmd1|] eqn:Ev.
  - assert (bool_decide (0 < count) && negb (bool_decide (cmd = cmd1)) = false) as ->.
    { case_bool_decide as Hc; [|done]. rewrite bool_decide_true; [done|]. destruct (Hcmd Hc) as (j & lj & Hj & Hv).
      destruct (Hg j lj Hj) as (lj' & Hj' & Hs). exact (fi_agreed _ _ Hf1 j i _ _ index _ _ Hj' Hl (lookup_weaken _ _ _ _ Hv Hs) Ev). }
    destruct (IH (count + 1) cmd1 m1 Hf1 ltac:(set_solver)) as (nd & cmd' & m' & E & Hon' & H1 & H2 & H3); [by eauto|].
    exists nd, cmd', m'. split_and!; [done|by eapply on_trans| | |done].
    + unfold having in *. rewrite filter_cons. case_decide; simpl; lia.
    + unfold having in *. rewrite filter_cons, decide_True; [simpl; lia|].
      eapply has_index_grows; [apply Hon'|]. by exists l, cmd1.
  - destruct (IH count cmd m1 Hf1 ltac:(set_solver)) as (nd & cmd' & m' & E & Hon' & H1 & H2 & H3).
    { intros Hc. destruct (Hcmd Hc) as (j & lj & Hj & Hv). destruct (Hg j lj Hj) as (lj' & Hj' & Hs).
      exists j, lj'. split; [done|by eapply lookup_weaken]. }
    exists nd, cmd', m'. split_and!; [done|by eapply on_trans| | |done].
    + unfold having in *. rewrite filter_cons, decide_False; [lia|]. intros (l0 & v & H0 & Hv). destruct (Hg i l0 H0) as (l1 & Hl1' & Hs).
      assert (l1 = l) as -> by congruence. assert (l !! index = Some v) by (by eapply lookup_weaken). congruence.
    + unfold having in *. rewrite filter_cons. case_decide; simpl; lia.
Qed.

(** nCommitted does not fail in a test that goes well; it counts at least the
    servers that had the index when it began and at most those that have it
    when it ends, and gives the command they all have. *)
Lemma nCommitted_spec index m :
  fine n (m_cfg m) →
  ∃ nd cmd m', nCommitted others delay index m = Ok ((nd, cmd), m') ∧ on_from m m' ∧
    having (m_cfg m) index (seq 0 n) ≤ nd ≤ having (m_cfg m') index (seq 0 n) ∧
    (0 < nd → ∀ i l v, cfg_logs (m_cfg m') !! i = Some l → l !! index = Some v → v = cmd).
Proof.
  intros Hf. unfold nCommitted. destruct (fi_len _ _ Hf) as [-> _].
  destruct (count_committed_spec index (seq 0 n) 0 None m Hf) as (nd & cmd & m' & E & Hon & H1 & H2 & H3);
    [intros i; rewrite elem_of_seq; lia|lia|].
  exists nd, cmd, m'. split_and!; [done|done|lia|lia|]. intros Hnd i l v Hl Hv. destruct (H3 Hnd) as (j & lj & Hj & Hvj).
  exact (fi_agreed _ _ (on_fine _ _ Hon) i j _ _ index _ _ Hl Hj Hv Hvj).
Qed.

(** ** one *)

Lemma fine_peers (ps : list (Raft Cmd)) cfg : fine n cfg → length ps = length (cfg_peers cfg) → fine n (set_cfg_objects ps (cfg_rpc cfg) cfg).
Proof. intros [] Hl. split; try done. simpl. by rewrite Hl. Qed.

Lemma try_start_spec cmd starts m :
  fine n (m_cfg m) → starts < n → ∃ r m', try_start others delay cmd starts m = Ok (r, m') ∧ on_from m m'.
Proof.
  intros Hf Hs. unfold try_start. destruct (on_pause m 0 ltac:(lia) Hf) as [Hon _]. set (m1 := pause others delay 0 m) in *.
  pose proof (on_fine _ _ Hon) as Hf1. destruct (fi_len _ _ Hf1) as [Hr _].
  destruct (lookup_lt_is_Some_2 (cfg_rafts (m_cfg m1)) starts) as [p Hp]; [lia|]. rewrite Hp. cbn [must mbind Res_bind].
  destruct (is_connected (m_cfg m1) starts); [|by exists None, m1]. destruct p as [k|]; [|by exists None, m1].
  destruct (on_pause m1 0 ltac:(lia) Hf1) as [Hon2 _]. set (m2 := pause others delay 0 m1) in *.
  pose proof (on_fine _ _ Hon2) as Hf2. pose proof (fi_peers _ _ Hf1 starts k Hp) as Hk.
  destruct (lookup_lt_is_Some_2 (cfg_peers (m_cfg m2)) k) as [rf Hrf]; [destruct (on_grows _ _ Hon2); lia|]. rewrite Hrf. cbn [must mbind Res_bind].
  destruct (Start cmd rf) as [rf' [[index1 term] ok]]. eexists _, _. split; [done|]. eapply on_trans; [exact Hon|].
  destruct Hon2 as [_ [G2 L2] N2]. split; simpl; [|split; [exact G2|simpl; rewrite length_insert; exact L2]|done].
  apply fine_peers; [done|apply length_insert].
Qed.

Lemma try_all_spec cmd rounds : ∀ starts m,
  fine n (m_cfg m) → (rounds = 0 ∨ 0 < n) → ∃ r m', try_all others delay cmd rounds starts m = Ok (r, m') ∧ on_from m m'.
Proof.
  induction rounds as [|rounds IH]; intros starts m Hf Hn; cbn [try_all]; [eexists _, _; split; [done|by apply on_refl]|].
  destruct Hn as [?|Hn]; [lia|]. rewrite (fi_n _ _ Hf).
  destruct (try_start_spec cmd ((starts + 1) mod n) m Hf) as (r & m1 & -> & Hon); [apply Nat.mod_upper_bound; lia|].
  cbn [mbind Res_bind]. destruct r as [index|]; [by eexists _, _|].
  destruct (IH ((starts + 1) mod n) m1 (on_fine _ _ Hon) (or_intror Hn)) as (r & m2 & E & Hon2).
  exists r, m2. split; [exact E|by eapply on_trans].
Qed.

(** At least [expected] servers, and at least one, told their service [cmd] at [index]. *)
Definition agreement_at (cmd : Cmd) (expected : nat) index cfg : Prop :=
  0 < having cfg index (seq 0 n) ∧ expected ≤ having cfg index (seq 0 n) ∧
  ∀ i l v, cfg_logs cfg !! i = Some l → l !! index = Some v → v = Some cmd.

Lemma await_spec cmd expected index t1 fuel : ∀ m,
  fine n (m_cfg m) → 1 ≤ fuel → (t1 + 2 * Second - m_now m ≤ 20 * Millisecond * (Z.of_nat fuel - 1))%Z →
  ∃ b m', await others delay fuel cmd expected index t1 m = Ok (b, m') ∧ on_from m m' ∧
    if b then agreement_at cmd expected index (m_cfg m') else (2 * Second ≤ m_now m' - t1)%Z.
Proof.
  induction fuel as [|fuel IH]; intros m Hf Hfu Ht; [lia|]. cbn [await].
  destruct (Z.ltb_spec (m_now m - t1) (2 * Second)) as [Hlt|Hge]; [|exists false, m; split_and!; [done|by apply on_refl|lia]].
  destruct (nCommitted_spec index m Hf) as (nd & cmd1 & m1 & -> & Hon & [H1 H2] & H3). cbn [mbind Res_bind].
  destruct (bool_decide (0 < nd) && bool_decide (expected ≤ nd) && bool_decide (cmd1 = Some cmd)) eqn:Eb.
  - b2p. exists true, m1. unfold agreement_at. split_and!; [done|done|lia|lia|]. intros i l v Hl Hv. rewrite (H3 ltac:(done) i l v Hl Hv). done.
  - destruct (on_pause m1 (20 * Millisecond) ltac:(done) (on_fine _ _ Hon)) as [Hon2 Hadv].
    set (m2 := pause others delay (20 * Millisecond) m1) in *. pose proof (on_now _ _ Hon) as Hn1.
    unfold Second, Millisecond in *.
    destruct (IH m2 (on_fine _ _ Hon2)) as (b & m3 & E & Hon3 & Hb); [lia|lia|].
    exists b, m3. split_and!; [exact E|eapply on_trans; [exact Hon|by eapply on_trans]|exact Hb].
Qed.

Lemma one_from_spec cmd expected retry t0 fuel : ∀ starts m,
  fine n (m_cfg m) → 102 ≤ fuel → (t0 + 10 * Second - m_now m ≤ 50 * Millisecond * (Z.of_nat fuel - 102))%Z →
  match one_from others delay fuel cmd expected retry t0 starts m with
  | Ok (index, m') => (index = (-1)%Z ∧ checkFinished (m_cfg m') = true) ∨ agreement_at cmd expected index (m_cfg m')
  | Failed f => f = NoAgreement
  | _ => False
  end.
Proof.
  induction fuel as [|fuel IH]; intros starts m Hf Hfu Ht; [lia|]. cbn [one_from].
  destruct (Z.ltb_spec (m_now m - t0) (10 * Second)) as [Hlt|Hge]; cbn [andb];
    [|destruct (checkFinished (m_cfg m)) eqn:Efin; cbn [negb]; [by left|done]].
  destruct (checkFinished (m_cfg m)) eqn:Efin; cbn [negb]; [by left|].
  rewrite (fi_n _ _ Hf). destruct (try_all_spec cmd n starts m Hf ltac:(lia)) as ([index starts'] & m1 & -> & Hon). cbn [mbind Res_bind].
  pose proof (on_now _ _ Hon) as Hn1. pose proof (on_fine _ _ Hon) as Hf1. unfold Second, Millisecond in *.
  destruct (index =? -1)%Z eqn:Ei; cbn [negb].
  - destruct (on_pause m1 (50 * 1000000) ltac:(done) Hf1) as [Hon2 Hadv]. apply IH; [apply Hon2|lia|lia].
  - destruct (await_spec cmd expected index (m_now m1) (S fuel) m1 Hf1) as (b & m2 & -> & Hon2 & Hb);
      [lia|unfold Second, Millisecond; lia|]. cbn [mbind Res_bind]. destruct b; [by right|].
    destruct retry; cbn [negb]; [|done]. unfold Second, Millisecond in *. apply IH; [apply Hon2|lia|lia].
Qed.

(** [one] in a test that goes well: with 302 rounds of fuel its loops end
    (they sleep, so time passes), and it does not panic.  If it returns an index,
    at least [expectedServers] servers, and at least one, have by then told
    their services a command at that index, and it is [cmd] at every server that
    has; it returns -1 only when the test is over, and fails only with "failed to
    reach agreement". *)
Theorem one_agreement fuel cmd expectedServers retry m :
  fine n (m_cfg m) → 302 ≤ fuel →
  match one others delay fuel cmd expectedServers retry m with
  | Ok (index, m') => (index = (-1)%Z ∧ checkFinished (m_cfg m') = true) ∨ agreement_at cmd expectedServers index (m_cfg m')
  | Failed f => f = NoAgreement
  | _ => False
  end.
Proof. intros Hf Hfu. unfold one. apply one_from_spec; [done|lia|]. unfold Second, Millisecond. lia. Qed.
End agreement.

(** ** Instances *)

Local Abbreviation ZConfig := (config (Cmd := Z) (Val := Z) (Rcvr := Z)).

(** Three connected servers: the peers of [RaftTraces.wit_w], with these copied logs. *)
Definition small_bench (logs : list (gmap Z (option Z))) : ZConfig :=
  mkConfig 0 MakeNetwork 3 [Some 0; Some 1; Some 2] [None; None; None] [true; true; true] [None; None; None] [None; None; None]
    logs [0; 0; 0]%Z 0 0 0 0 0 0 0 [the_node 0 wit_w; the_node 1 wit_w; the_node 2 wit_w] [].

Definition told_msg (index c : Z) : ApplyMsg Z := mkApplyMsg true (Some c) index false [] 0 0.

Definition good_deliveries : list (nat * ApplyMsg Z) := [(0, told_msg 1 7); (1, told_msg 1 7); (0, told_msg 2 8); (2, told_msg 1 7)].

Lemma applier_accepts_witness :
  is_ok (deliver good_deliveries (small_bench (replicate 3 ∅))) = true ∧ agree good_deliveries ∧
  is_ok (deliver (good_deliveries ++ [(1, told_msg 2 9)]) (small_bench (replicate 3 ∅))) = false.
Proof.
  pose proof (applier_accepts 3 good_deliveries (small_bench (replicate 3 ∅)) eq_refl) as Ha.
  assert (is_ok (deliver good_deliveries (small_bench (replicate 3 ∅))) = true) as Hok by (vm_compute; reflexivity).
  split; [exact Hok|]. split; [|vm_compute; reflexivity].
  destruct (deliver good_deliveries (small_bench (replicate 3 ∅))) as [cfg'| | |]; [|discriminate Hok..].
  apply Ha. intros i m Hin. unfold good_deliveries in Hin. rewrite !elem_of_cons in Hin. 
  destruct Hin as [[= -> _]|[[= -> _]|[[= -> _]|[[= -> _]|Hin]]]]; [lia..|by apply not_elem_of_nil in Hin].
Defined.

Definition small_moment (logs : list (gmap Z (option Z))) : Moment := mkMoment 0 0 (small_bench logs).

Lemma small_bench_views logs : views (small_bench logs) wit_w.
Proof.
  intros i k Hi. destruct i as [|[|[|i]]]; simpl in Hi; try done; injection Hi as <-;
    [exists (the_node 0 wit_w)|exists (the_node 1 wit_w)|exists (the_node 2 wit_w)]; (split; [reflexivity|]); apply wit_nodes; set_solver.
Qed.

Lemma small_beside : beside (Val := Z) (Rcvr := Z) (λ _ cfg, cfg) 3 (λ _, wit_w).
Proof. split; [lia|apply wit_reachable|intros t; by exists []|done|done]. Qed.

Lemma checkOneLeader_correct_witness :
  ∃ l m', checkOneLeader (λ _ cfg, cfg) (λ _, 0) map_to_list (λ _, 0) (small_moment (replicate 3 ∅)) = Ok (l, m') ∧ l < 3 ∧
    ∃ term, leader_of wit_w (Z.of_nat l) term.
Proof.
  pose proof (checkOneLeader_correct (λ _ cfg, cfg) (λ _, 0) 3 (λ _, wit_w) small_beside map_to_list (λ _, 0) (λ _, reflexivity _)
    (small_moment (replicate 3 ∅))) as Hc.
  assert (is_ok (checkOneLeader (λ _ cfg, cfg) (λ _, 0) map_to_list (λ _, 0) (small_moment (replicate 3 ∅))) = true) as Hok
    by (vm_compute; reflexivity).
  destruct (checkOneLeader (λ _ cfg, cfg) (λ _, 0) map_to_list (λ _, 0) (small_moment (replicate 3 ∅))) as [[l m']| | |]; [|discriminate Hok..].
  exists l, m'. split; [reflexivity|].
  destruct Hc as (Hl & _ & t & term & _ & Hlead & _); [|apply small_bench_views|split; [exact Hl|by exists term]].
  intros i Hi. destruct i as [|[|[|i]]]; [by eexists..|discriminate Hi].
Defined.

Definition committed_logs : list (gmap Z (option Z)) := replicate 3 {[1%Z := Some 100%Z]}.

Lemma small_fine : fine 3 (small_bench committed_logs).
Proof.
  split; [done|done|done| |].
  - intros i k Hi. destruct i as [|[|[|i]]]; simpl in Hi; try done; injection Hi as <-; simpl; lia.
  - intros i j li lj index v v' [-> _]%lookup_replicate [-> _]%lookup_replicate. congruence.
Qed.

Lemma one_agreement_witness :
  ∃ m', one (λ _ cfg, cfg) (λ _, 0) 302 100%Z 3 false (small_moment committed_logs) = Ok (1%Z, m') ∧
    agreement_at 3 100%Z 3 1 (m_cfg m').
Proof.
  pose proof (one_agreement (λ _ cfg, cfg) (λ _, 0) 3 (λ _ cfg H, conj H (reflexivity cfg)) 302 100%Z 3 false (small_moment committed_logs)
    small_fine (le_n _)) as Ho.
  assert (match one (λ _ cfg, cfg) (λ _, 0) 302 100%Z 3 false (small_moment committed_logs) with Ok (i, _) => (i =? 1)%Z | _ => false end = true) as Hok
    by (vm_compute; reflexivity).
  destruct (one (λ _ cfg, cfg) (λ _, 0) 302 100%Z 3 false (small_moment committed_logs)) as [[i m']| | |]; [|discriminate Hok..].
  apply Z.eqb_eq in Hok. subst i. exists m'. split; [reflexivity|]. by destruct Ho as [[? _]|Ho].
Defined.
