(* ===== verification/RaftRpc.v ===== *)
(** * Raft's calls over the simulated network

    sendRequestVote, sendAppendEntries and sendInstallSnapshot (raft/raft.go)
    are calls of labrpc on the caller's end to the other server; the service of
    a peer has the methods that MakeService takes for handlers.  Here the two
    are put together: the receivers of the network are peers, and the methods
    are the handlers of RaftHandlers.

    [send_runs_handler]: a call that returns true was carried out by the peer
    that the end was connected to when the network looked, in one atomic run of
    the handler on the arguments that were sent, and its reply is the reply
    that comes back.  This is what the transition system of RaftNet takes for
    granted of a call; that a call may also be lost before or after the handler,
    or delayed, is the freedom both have. *)

From stdpp Require Import relations.
From S2P Require Import Prelude Persister RaftTypes RaftHandlers Labrpc RaftConfig.

Section rpc.
Context {Cmd : Type} `{!Gob (PersistentState Cmd)}.

(** What the calls carry; [MNone] is a value that could not be decoded. *)
Inductive RaftMsg :=
| MNone
| MVoteArgs (a : RequestVoteArgs) | MVoteReply (r : RequestVoteReply)
| MAppendArgs (a : AppendEntriesArgs Cmd) | MAppendReply (r : AppendEntriesReply)
| MInstallArgs (a : InstallSnapshotArgs) | MInstallReply (r : InstallSnapshotReply).

Context `{!Gob RaftMsg}.

(** A peer as the receiver of calls: its state ([None] after a panic, which
    ends its process), the time it reads, and the snapshots that goroutines of
    InstallSnapshot are sending on applyCh. *)
Record Peer := mkPeer { p_rf : option (Raft Cmd); p_now : Z; p_sending : list (ApplyMsg Cmd) }.

(** The three handlers, as methods. *)
Definition on_vote (o : Peer) (v : RaftMsg) : Peer * RaftMsg :=
  match p_rf o, v with
  | Some rf, MVoteArgs a =>
      match RequestVote (p_now o) a rf with
      | Some (rf', r) => (mkPeer (Some rf') (p_now o) (p_sending o), MVoteReply r)
      | None => (mkPeer None (p_now o) (p_sending o), MNone)
      end
  | _, _ => (o, MNone)
  end.

Definition on_append (o : Peer) (v : RaftMsg) : Peer * RaftMsg :=
  match p_rf o, v with
  | Some rf, MAppendArgs a =>
      match AppendEntries (p_now o) a rf with
      | Some (rf', r) => (mkPeer (Some rf') (p_now o) (p_sending o), MAppendReply r)
      | None => (mkPeer None (p_now o) (p_sending o), MNone)
      end
  | _, _ => (o, MNone)
  end.

Definition on_install (o : Peer) (v : RaftMsg) : Peer * RaftMsg :=
  match p_rf o, v with
  | Some rf, MInstallArgs a =>
      match InstallSnapshot (p_now o) a rf with
      | Some (rf', r, msg) =>
          (mkPeer (Some rf') (p_now o) (p_sending o ++ match msg with Some m => [m] | None => [] end), MInstallReply r)
      | None => (mkPeer None (p_now o) (p_sending o), MNone)
      end
  | _, _ => (o, MNone)
  end.

(** The exported methods of Raft as reflection shows them; what the others do
    does not matter, since MakeService does not take them. *)
Definition raft_methods : list (Method (Val := RaftMsg) (Rcvr := Peer)) :=
  let other name ins ptr outs := mkMethod name EmptyString ins ptr outs (λ o v, (o, v)) in
  [mkMethod "AppendEntries" EmptyString 3 true 0 on_append;
   other "CondInstallSnapshot" 4%Z false 1%Z;
   other "GetState" 1%Z false 2%Z;
   mkMethod "InstallSnapshot" EmptyString 3 true 0 on_install;
   other "Kill" 1%Z false 0%Z;
   other "Persist" 1%Z false 0%Z;
   mkMethod "RequestVote" EmptyString 3 true 0 on_vote;
   other "Snapshot" 3%Z false 0%Z;
   other "Start" 2%Z false 3%Z].

(** ** The calls *)

Abbreviation World := (NetWorld (EN := string) (SN := nat) (Val := RaftMsg) (Rcvr := Peer)).

Definition sendRequestVote (server : string) (args : RequestVoteArgs) (w : World) : World :=
  Call_start server "Raft.RequestVote" (MVoteArgs args) w.
Definition sendAppendEntries (server : string) (args : AppendEntriesArgs Cmd) (w : World) : World :=
  Call_start server "Raft.AppendEntries" (MAppendArgs args) w.
Definition sendInstallSnapshot (server : string) (args : InstallSnapshotArgs) (w : World) : World :=
  Call_start server "Raft.InstallSnapshot" (MInstallArgs args) w.

(** The three of them: what is sent, and the handler that is meant. *)
Inductive RaftCall := CallVote (a : RequestVoteArgs) | CallAppend (a : AppendEntriesArgs Cmd) | CallInstall (a : InstallSnapshotArgs).

Definition send (e : string) (q : RaftCall) : World → World :=
  match q with
  | CallVote a => sendRequestVote e a
  | CallAppend a => sendAppendEntries e a
  | CallInstall a => sendInstallSnapshot e a
  end.

Definition handle (q : RaftCall) (o : Peer) : Peer * RaftMsg :=
  match q with
  | CallVote a => on_vote o (MVoteArgs a)
  | CallAppend a => on_append o (MAppendArgs a)
  | CallInstall a => on_install o (MInstallArgs a)
  end.

Definition call_meth (q : RaftCall) : string :=
  match q with CallVote _ => "RequestVote" | CallAppend _ => "AppendEntries" | CallInstall _ => "InstallSnapshot" end.
Definition call_arg (q : RaftCall) : RaftMsg :=
  match q with CallVote a => MVoteArgs a | CallAppend a => MAppendArgs a | CallInstall a => MInstallArgs a end.

(** ** The moves of the network and of the peers *)

(** Between the actions of the network the peers go on by themselves (timers,
    goroutines, services) and new servers are started. *)
Inductive move (w : World) : World → Prop :=
| move_net a w' : net_step MNone a w = Some w' → move w w'
| move_peers objects : length (w_objects w) ≤ length objects →
    move w (mkNetWorld (w_net w) (w_running w) (w_servers w) objects (w_calls w) (w_execs w))
| move_start k : k < length (w_objects w) →
    move w (mkNetWorld (w_net w) (w_running w) (w_servers w ++ [rpc_server raft_methods k]) (w_objects w) (w_calls w) (w_execs w)).

(** Server object [p] is the service of peer [k]. *)
Definition serves (w : World) (p k : nat) : Prop :=
  ∃ srv, w_servers w !! p = Some srv ∧ srv_services srv = srv_services (rpc_server raft_methods k) ∧ k < length (w_objects w).

Definition raft_servers (w : World) : Prop := ∀ p, p < length (w_servers w) → ∃ k, serves w p k.

(** ** One run of a handler *)

Lemma raft_method q :
  ∃ m, register raft_methods ∅ !! call_meth q = Some m ∧ (∀ o, m_Func m o (call_arg q) = handle q o).
Proof. destruct q; eexists; (split; [reflexivity|done]). Qed.

Lemma send_eq e q w :
  send e q w = Call_start e (String.append "Raft." (call_meth q)) (call_arg q) w.
Proof. by destruct q. Qed.

Lemma split_call q : split_last_dot (String.append "Raft." (call_meth q)) = Some ("Raft", call_meth q).
Proof. by destruct q. Qed.

(** What the handler's goroutine does when it runs on the server of peer [j]. *)
Lemma run_handler_raft c k rt q (w w' : World) p j :
  serves w p j → rt_server rt = p → c_svcMeth k = String.append "Raft." (call_meth q) → c_args k = gob_encode (call_arg q) →
  run_handler MNone c k rt w = Some w' →
  ∃ o, w_objects w !! j = Some o ∧ w_objects w' = <[j := (handle q o).1]> (w_objects w) ∧
    w_execs w' = w_execs w ++ [(c, p, call_arg q, (handle q o).2)].
Proof.
  intros (srv & Hsrv & Hsvc & Hj) <- Hm Ha Hr. unfold run_handler in Hr. rewrite Hsrv in Hr. cbn [mbind option_bind] in Hr.
  unfold Server_dispatch in Hr. rewrite Hm, split_call, Hsvc in Hr. cbn [mbind option_bind] in Hr.
  change (srv_services (rpc_server raft_methods j) !! "Raft") with (Some (MakeService "Raft" j raft_methods)) in Hr.
  cbn [mbind option_bind] in Hr. unfold Service_dispatch in Hr. destruct (raft_method q) as (m & Hq & Hf).
  change (svc_methods (MakeService "Raft" j raft_methods)) with (register raft_methods ∅) in Hr. rewrite Hq in Hr.
  cbn [mbind option_bind svc_rcvr MakeService] in Hr. destruct (lookup_lt_is_Some_2 (w_objects w) j Hj) as [o Ho].
  rewrite Ho in Hr. cbn [mbind option_bind] in Hr. rewrite Ha, gob_roundtrip in Hr. cbn [default] in Hr. rewrite Hf in Hr.
  destruct (handle q o) as [o' v] eqn:E. injection Hr as <-. exists o. by rewrite E.
Qed.

Lemma run_handler_frame c k rt (w w' : World) :
  run_handler MNone c k rt w = Some w' →
  ∃ rs, w_servers w !! rt_server rt = Some rs ∧ length (w_objects w') = length (w_objects w) ∧
    w_servers w' = <[rt_server rt := mkServer (srv_services rs) (srv_count rs + 1)%Z]> (w_servers w).
Proof.
  unfold run_handler, Server_dispatch, Service_dispatch. intros Hr. apply bind_Some in Hr as (rs & Hrs & Hr). exists rs.
  split; [done|]. apply bind_Some in Hr as ([[[[rs' objects] arg] reply] rep] & Hd & [= <-]). cbn [w_objects w_servers].
  apply bind_Some in Hd as ([sn mn] & _ & Hd). apply bind_Some in Hd as (svc & _ & Hd).
  apply bind_Some in Hd as ([[[objects' arg'] reply'] rep'] & Hd & [= <- <- <- <- <-]).
  apply bind_Some in Hd as (m & _ & Hd). apply bind_Some in Hd as (o & _ & Hd).
  destruct (m_Func _ _ _). injection Hd as <- <- <- <-. by rewrite length_insert.
Qed.

(** An action of the network leaves servers and peers alone, or runs one handler. *)
Lemma net_servers a (w w' : World) :
  net_step MNone a w = Some w' →
  w_servers w' = w_servers w ∧ w_objects w' = w_objects w ∧ w_execs w' = w_execs w ∨
  ∃ c k rt, a = CHandle c ∧ w_calls w !! c = Some k ∧ c_handler k = HRunning rt ∧ run_handler MNone c k rt w = Some w'.
Proof.
  intros Hs. destruct a; simpl in Hs; go_inv; try (by left).
  all: unfold net_stop, net_receive, Call_done, process_read, process_start, process_poll, process_receive, process_finish,
         drain, send_reply, Call_return in *; case_all; go_inv; case_all; go_inv; try (by left).
  right. by eauto 10.
Qed.

(** A server stays the service of its peer. *)
Lemma serves_move w w' p k : move w w' → serves w p k → serves w' p k.
Proof.
  intros Hm (srv & Hsrv & Hsvc & Hk). destruct Hm as [a w' Hs|objects Hl|k' Hk'].
  - destruct (net_servers _ _ _ Hs) as [(E1 & E2 & _)|(c & kc & rt & _ & _ & _ & Hr)].
    + exists srv. by rewrite E1, E2.
    + apply run_handler_frame in Hr as (rs & Hp & Hl & E1). unfold serves. rewrite E1, Hl.
      destruct (decide (rt_server rt = p)) as [<-|Hne].
      * rewrite list_lookup_insert_eq by (by eapply lookup_lt_Some). eexists. split; [done|]. simpl. rewrite Hp in Hsrv. by simplify_eq.
      * rewrite list_lookup_insert_ne by done. by exists srv.
  - exists srv. simpl. split_and!; [done..|lia].
  - exists srv. simpl. split_and!; [by apply lookup_app_l_Some|done..].
Qed.

Lemma raft_servers_move w w' : move w w' → raft_servers w → raft_servers w'.
Proof.
  intros Hm Hw p Hp. assert (p < length (w_servers w) → ∃ k, serves w' p k) as Hold.
  { intros [k Hk]%Hw. exists k. by eapply serves_move. }
  destruct Hm as [a w' Hs|objects Hl|k' Hk']; [| |].
  - apply Hold. destruct (net_servers _ _ _ Hs) as [(E1 & _)|(c & kc & rt & _ & _ & _ & Hr)]; [by rewrite <- E1|].
    apply run_handler_frame in Hr as (rs & _ & _ & E1). rewrite E1, length_insert in Hp. done.
  - by apply Hold.
  - simpl in *. rewrite length_app in Hp. simpl in Hp. destruct (decide (p < length (w_servers w))) as [Hlt|Hge]; [by apply Hold|].
    exists k', (rpc_server raft_methods k'). simpl. replace p with (length (w_servers w)) by lia.
    by rewrite list_lookup_middle.
Qed.

Lemma rpc_inv_move w w' : move w w' → net_inv w → net_inv w'.
Proof. intros [a w'' Hs|objects _|k _] Hi; [by eapply rpc_step|by destruct Hi..]. Qed.

(** ** Following one call *)

(** What one step does to a call that it leaves in place. *)
Definition steps_to (w : World) (k k' : RpcCall (EN := string) (SN := nat) (Val := RaftMsg)) : Prop :=
  c_end k' = c_end k ∧ c_svcMeth k' = c_svcMeth k ∧ c_args k' = c_args k ∧
  (∀ rt, c_phase k' = Accepted rt → c_phase k = Accepted rt ∨
     (readEndnameInfo (c_end k) (w_net w)).1.1 = (true, Some (rt_name rt), Some (rt_server rt))) ∧
  (∀ rt, c_handler k' = HRunning rt → c_handler k = HRunning rt ∨ c_phase k = Accepted rt).

Lemma own_steps_to a w w' c k k' :
  net_step MNone a w = Some w' → acts_on c a → w_calls w !! c = Some k → w_calls w' !! c = Some k' → steps_to w k k'.
Proof.
  intros Hs Ha Hk Hk'. assert (∀ k1, <[c := k1]> (w_calls w) !! c = Some k' → k' = k1) as Hins.
  { intros k1 H1. rewrite list_lookup_insert_eq in H1 by (by eapply lookup_lt_Some). by simplify_eq. }
  destruct a; simpl in Ha; try done; subst; simpl in Hs; rewrite Hk in Hs; simpl in Hs.
  all: unfold net_receive, Call_done, process_start, process_poll, process_receive,
         process_finish, drain, send_reply, Call_return, run_handler in *.
  all: try (unfold process_read in Hs; destruct (readEndnameInfo (c_end k) (w_net w)) as [[[[en sn] srv] rel] lr] eqn:Er).
  all: destruct (c_phase k) eqn:Ep, (c_handler k) eqn:Eh; go_inv; case_all; go_inv; case_all; go_inv.
  all: try first [apply Hins in Hk' as -> | assert (k' = k) as -> by congruence]; unfold steps_to; rewrite ?Er; simpl; rewrite ?Ep, ?Eh; split_and!;
         naive_solver.
Qed.

Lemma move_steps_to w w' c k : move w w' → w_calls w !! c = Some k → ∃ k', w_calls w' !! c = Some k' ∧ steps_to w k k'.
Proof.
  assert (steps_to w k k) as Hrefl by (unfold steps_to; naive_solver).
  intros [a w'' Hs|objects _|j _] Hk; [|by exists k..].
  destruct (step_calls _ _ _ _ c k Hs Hk) as [Hk'|[Ha [k' E]]]; [by exists k|].
  assert (w_calls w'' !! c = Some k') as Hk' by (rewrite E; apply list_lookup_insert_eq; by eapply lookup_lt_Some).
  exists k'. split; [done|by eapply own_steps_to].
Qed.

Section call.
Context (e : string) (q : RaftCall) (c : nat) (ws : World).

(** The network read where the end leads to. *)
Definition read_at (rt : Route) (w : World) : Prop :=
  ∃ wr, rtc move ws wr ∧ (readEndnameInfo e (w_net wr)).1.1 = (true, Some (rt_name rt), Some (rt_server rt)) ∧ rtc move wr w.

(** The handler ran once, on peer [j], after that. *)
Definition handled (v : RaftMsg) (w : World) : Prop :=
  ∃ wr wh wh' sn p j o, rtc move ws wr ∧ (readEndnameInfo e (w_net wr)).1.1 = (true, Some sn, Some p) ∧
    rtc move wr wh ∧ net_step MNone (CHandle c) wh = Some wh' ∧ rtc move wh' w ∧
    serves wh p j ∧ w_objects wh !! j = Some o ∧ w_objects wh' = <[j := (handle q o).1]> (w_objects wh) ∧ v = (handle q o).2.

Record tracked (w : World) (k : RpcCall (EN := string) (SN := nat) (Val := RaftMsg)) : Prop := {
  tk_end : c_end k = e;
  tk_meth : c_svcMeth k = String.append "Raft." (call_meth q);
  tk_args : c_args k = gob_encode (call_arg q);
  tk_route : ∀ rt, c_phase k = Accepted rt ∨ c_handler k = HRunning rt → read_at rt w;
  tk_execs : ∀ p arg v, (c, p, arg, v) ∈ w_execs w → handled v w
}.

Lemma read_at_move rt w w' : move w w' → read_at rt w → read_at rt w'.
Proof. intros Hm (wr & H1 & H2 & H3). exists wr. split_and!; [done..|]. by eapply rtc_r. Qed.

Lemma handled_move v w w' : move w w' → handled v w → handled v w'.
Proof.
  intros Hm (wr & wh & wh' & sn & p & j & o & H1 & H2 & H3 & H4 & H5 & H6 & H7 & H8 & H9). exists wr, wh, wh', sn, p, j, o.
  split_and!; try done. by eapply rtc_r.
Qed.

(** A handler that a step ran was the one of this call, or the executions of the call are as before. *)
Lemma new_exec w w' k p arg v :
  move w w' → raft_servers w → w_calls w !! c = Some k → rtc move ws w → tracked w k →
  (c, p, arg, v) ∈ w_execs w' → (c, p, arg, v) ∈ w_execs w ∨ handled v w'.
Proof.
  intros Hm Hsrv Hk Hreach [He Hme Ha Hrt _] Hin. destruct Hm as [a w' Hs|objects _|j _]; [|by left..].
  destruct (net_servers _ _ _ Hs) as [(_ & _ & E)|(c' & k' & rt & -> & Hk' & Hh & Hr)]; [left; by rewrite <- E|].
  destruct (decide (c' = c)) as [->|Hne].
  - rewrite Hk in Hk'. injection Hk' as <-. destruct (Hrt rt (or_intror Hh)) as (wr & H1 & H2 & H3).
    destruct (run_handler_frame _ _ _ _ _ Hr) as (rs & Hrs & _). destruct (Hsrv (rt_server rt)) as [j Hj]; [by eapply lookup_lt_Some|].
    destruct (run_handler_raft c k rt q w w' _ j Hj eq_refl Hme Ha Hr) as (o & Ho & Ho' & E). rewrite E in Hin.
    apply elem_of_app in Hin as [Hin|Hin%list_elem_of_singleton]; [by left|]. injection Hin as -> -> ->. right.
    exists wr, w, w', (rt_name rt), (rt_server rt), j, o. by split_and!.
  - left. unfold run_handler in Hr. apply bind_Some in Hr as (rs & _ & Hr).
    apply bind_Some in Hr as ([[[[rs' objects] arg'] reply] rep] & _ & [= <-]). simpl in Hin.
    apply elem_of_app in Hin as [Hin|Hin%list_elem_of_singleton]; [done|]. by simplify_eq.
Qed.

Lemma tracked_move w w' k :
  move w w' → raft_servers w → rtc move ws w → w_calls w !! c = Some k → tracked w k → ∃ k', w_calls w' !! c = Some k' ∧ tracked w' k'.
Proof.
  intros Hm Hsrv Hreach Hk Ht. destruct (move_steps_to _ _ _ _ Hm Hk) as (k' & Hk' & Se & Sm & Sa & Sp & Sh).
  exists k'. split; [done|]. pose proof Ht as [He Hme Ha Hrt Hex]. split; [congruence..| |].
  - intros rt [Hp|Hh].
    + destruct (Sp rt Hp) as [Hp'|Hr]; [eapply read_at_move; [done|]; eauto|]. rewrite He in Hr. exists w. split_and!; [done..|].
      by apply rtc_once.
    + eapply read_at_move; [done|]. apply Hrt. destruct (Sh rt Hh); auto.
  - intros p arg v Hin. destruct (new_exec _ _ _ _ _ _ Hm Hsrv Hk Hreach Ht Hin) as [Hold|]; [|done].
    eapply handled_move; eauto.
Qed.
End call.

Lemma key_once {A B} `{EqDecision B} (f : A → B) (l : list A) x :
  NoDup (f <$> l) → x ∈ l → filter (λ y, f y = f x) l = [x].
Proof.
  intros Hn Hx. induction l as [|y l IH]; [by apply not_elem_of_nil in Hx|]. simpl in Hn. apply list.NoDup_cons in Hn as [Hy Hn].
  apply elem_of_cons in Hx as [->|Hx].
  - rewrite filter_cons_True by done. f_equal. apply elem_of_nil_inv. intros z [E Hz]%list_elem_of_filter. apply Hy. rewrite <- E. by apply list_elem_of_fmap_2.
  - rewrite filter_cons_False; [by apply IH|]. intros E. apply Hy. rewrite E. by apply list_elem_of_fmap_2.
Qed.

Lemma moves_inv w w' : rtc move w w' → net_inv w → raft_servers w → net_inv w' ∧ raft_servers w'.
Proof. induction 1 as [|w w1 w' Hm _ IH]; [done|]. intros. apply IH; [by eapply rpc_inv_move|by eapply raft_servers_move]. Qed.

Lemma tracked_moves e q c ws k0 w :
  net_inv ws → raft_servers ws → w_calls ws !! c = Some k0 → tracked e q c ws ws k0 → rtc move ws w →
  ∃ k, w_calls w !! c = Some k ∧ tracked e q c ws w k.
Proof.
  intros Hi Hs Hk0 H0. apply (rtc_ind_r (λ w, ∃ k, w_calls w !! c = Some k ∧ tracked e q c ws w k)); [by eauto|].
  intros w1 w2 Hr Hm (k & Hk & Ht). destruct (moves_inv _ _ Hr Hi Hs) as [_ Hs1]. by eapply tracked_move.
Qed.

(** A call that was just sent. *)
Lemma tracked_sent e q w :
  net_inv w → ∃ k, w_calls (send e q w) !! length (w_calls w) = Some k ∧ tracked e q (length (w_calls w)) (send e q w) (send e q w) k.
Proof.
  intros Hi. rewrite send_eq. eexists. split; [by apply list_lookup_middle|]. split; try done.
  - intros rt [?|?]; done.
  - intros p arg v Hin. destruct (ni_args _ Hi _ _ _ _ Hin) as (k & Hk%lookup_lt_Some & _). lia.
Qed.

(** C16. The network carries out Raft's calls.  When sendRequestVote,
    sendAppendEntries or sendInstallSnapshot on end [e] has returned true,
    whatever happened on the network and to the peers meanwhile: the network
    found the end enabled and connected to a server, after that the handler
    that was meant ran, once for this call, on a peer [j] of that server, on the
    arguments that were sent, in one step that changed that peer only; and the
    reply that the caller has is the one that the handler gave. *)
Theorem send_runs_handler e q w0 w w' k v :
  initial w0 → raft_servers w0 → rtc move w0 w → rtc move (send e q w) w' →
  w_calls w' !! length (w_calls w) = Some k → c_phase k = Returned (Some v) →
  handled e q (length (w_calls w)) (send e q w) v w' ∧
  ∃ p arg, filter (λ x, exec_call x = length (w_calls w)) (w_execs w') = [(length (w_calls w), p, arg, v)].
Proof.
  intros Hi0 Hs0 H1 H2 Hk Hp. destruct (moves_inv _ _ H1 (rpc_initial w0 Hi0) Hs0) as [Hi Hs].
  assert (move w (send e q w)) as Hm.
  { rewrite send_eq. by eapply (move_net _ (DoCall e _ (call_arg q))). }
  pose proof (rpc_inv_move _ _ Hm Hi) as Hi1. pose proof (raft_servers_move _ _ Hm Hs) as Hs1.
  destruct (tracked_sent e q w Hi) as (k0 & Hk0 & Ht0).
  destruct (tracked_moves e q _ _ _ _ Hi1 Hs1 Hk0 Ht0 H2) as (k' & Hk' & Ht). rewrite Hk in Hk'. injection Hk' as <-.
  destruct (moves_inv _ _ H2 Hi1 Hs1) as [Hi2 _]. destruct (ni_calls _ Hi2 _ _ Hk) as [_ _ Hph]. rewrite Hp in Hph.
  destruct Hph as (p & arg & Hin). split; [by eapply tk_execs|]. exists p, arg.
  exact (key_once exec_call _ _ (ni_once _ Hi2) Hin).
Qed.
End rpc.

Arguments RaftMsg : clear implicits.
Arguments Peer : clear implicits.

(** ** A vote between two peers *)

(** The messages as tuples of integers, texts and entries. *)
Definition msg_tuple {Cmd} (v : RaftMsg Cmd) : nat * (list Z * list (LogEntry Cmd) * string) :=
  let b (x : bool) : Z := if x then 1%Z else 0%Z in
  match v with
  | MNone => (0, ([], [], EmptyString))
  | MVoteArgs a => (1, ([rva_Term a; rva_CandidateId a; rva_LastLogIndex a; rva_LastLogTerm a], [], EmptyString))
  | MVoteReply r => (2, ([rvr_Term r; b (rvr_VoteGranted r)], [], EmptyString))
  | MAppendArgs a =>
      (3, ([aea_Term a; aea_LeaderId a; aea_PrevLogIndex a; aea_PrevLogTerm a; aea_LeaderCommit a], aea_Entries a, EmptyString))
  | MAppendReply r => (4, ([b (aer_Success r); aer_Term r; aer_ConflictIndex r; aer_ConflictTerm r], [], EmptyString))
  | MInstallArgs a =>
      (5, ([isa_Term a; isa_LeaderId a; isa_LastIncludedIndex a; isa_LastIncludedTerm a; isa_Offset a; b (isa_Done a)], [],
           String.string_of_list_byte (isa_Data a)))
  | MInstallReply r => (6, ([isr_Term r], [], EmptyString))
  end.

Definition tuple_msg {Cmd} (t : nat * (list Z * list (LogEntry Cmd) * string)) : RaftMsg Cmd :=
  let b (x : Z) : bool := (x =? 1)%Z in
  match t with
  | (1, ([t; c; i; lt], _, _)) => MVoteArgs (mkRequestVoteArgs t c i lt)
  | (2, ([t; g], _, _)) => MVoteReply (mkRequestVoteReply t (b g))
  | (3, ([t; l; p; pt; lc], es, _)) => MAppendArgs (mkAppendEntriesArgs t l p pt es lc)
  | (4, ([s; t; ci; ct], _, _)) => MAppendReply (mkAppendEntriesReply (b s) t ci ct)
  | (5, ([t; l; i; it; o; d], _, s)) => MInstallArgs (mkInstallSnapshotArgs t l i it o (String.list_byte_of_string s) (b d))
  | (6, ([t], _, _)) => MInstallReply (mkInstallSnapshotReply t)
  | _ => MNone
  end.

Lemma tuple_msg_tuple {Cmd} (v : RaftMsg Cmd) : tuple_msg (msg_tuple v) = v.
Proof.
  destruct v as [|[]|[? []]|[]|[[]]|[? ? ? ? ? ? []]|[]]; simpl; try done; by rewrite String.list_byte_of_string_of_list_byte.
Qed.

#[export] Instance RaftMsg_eq `{Countable Cmd} : EqDecision (RaftMsg Cmd).
Proof.
  intros x y. destruct (decide (msg_tuple x = msg_tuple y)) as [E|E]; [left|right; congruence].
  by rewrite <- (tuple_msg_tuple x), <- (tuple_msg_tuple y), E.
Defined.

#[export] Instance RaftMsg_countable `{Countable Cmd} : Countable (RaftMsg Cmd) := inj_countable' msg_tuple tuple_msg tuple_msg_tuple.

Definition vote_peer (i : Z) : Peer Z := mkPeer (Some (Make 2 i MakePersister 0).1) 5 [].

Definition vote_world : NetWorld (EN := string) (SN := nat) (Val := RaftMsg Z) (Rcvr := Peer Z) :=
  mkNetWorld MakeNetwork true [rpc_server raft_methods 0; rpc_server raft_methods 1] [vote_peer 0; vote_peer 1] [] [].

Definition vote_call : RaftCall (Cmd := Z) := CallVote (mkRequestVoteArgs 1 0 0 0).

Definition vote_setup : list (action (EN := string) (SN := nat) (Val := RaftMsg Z)) :=
  [DoAddServer 0 0; DoAddServer 1 1; DoMakeEnd "0-1"; DoConnect "0-1" 1; DoEnable "0-1" true].
Definition vote_run : list (action (EN := string) (SN := nat) (Val := RaftMsg Z)) :=
  [CReceive 0; CRead 0; CBegin 0 false; CHandle 0; CTake 0; CFinish 0 false false; CReturn 0].

Definition vote_ready := default vote_world (net_run MNone vote_setup vote_world).
Definition vote_done := default vote_world (net_run MNone vote_run (send "0-1" vote_call vote_ready)).

Lemma net_run_moves acts (w w' : NetWorld (EN := string) (SN := nat) (Val := RaftMsg Z) (Rcvr := Peer Z)) :
  net_run MNone acts w = Some w' → rtc move w w'.
Proof.
  revert w. induction acts as [|a acts IH]; intros w Hr; simpl in Hr; [by simplify_eq|].
  apply bind_Some in Hr as (w1 & Hs & Hr). eapply rtc_l; [by eapply move_net|by apply IH].
Qed.

Lemma vote_runs acts w :
  (match net_run MNone acts w with Some _ => true | None => false end) = true →
  rtc move w (default vote_world (net_run MNone acts w)).
Proof. intros [w' E]%some_true. rewrite E. by eapply net_run_moves. Qed.

Lemma vote_servers : raft_servers vote_world.
Proof.
  intros [|[|p]] Hp; simpl in Hp; [exists 0|exists 1|lia]; (eexists; split; [reflexivity|]; split; [reflexivity|simpl; lia]).
Qed.

(** The reply of the second peer to the first. *)
Definition vote_value : RaftMsg Z := MVoteReply (mkRequestVoteReply 1 true).

Lemma send_runs_handler_witness :
  length (w_calls vote_ready) = 0 ∧ handled "0-1" vote_call 0 (send "0-1" vote_call vote_ready) vote_value vote_done.
Proof.
  split; [vm_compute; reflexivity|].
  assert (∃ k, w_calls vote_done !! 0 = Some k ∧ c_phase k = Returned (Some vote_value)) as (k & Hk & Hp).
  { eexists. split; [vm_compute; reflexivity|reflexivity]. }
  destruct (send_runs_handler "0-1" vote_call vote_world vote_ready vote_done k vote_value) as [H _].
  - by split_and!.
  - apply vote_servers.
  - apply vote_runs. vm_compute. reflexivity.
  - apply vote_runs. vm_compute. reflexivity.
  - exact Hk.
  - exact Hp.
  - exact H.
Defined.
