(* ===== verification/Labgob.v ===== *)
(** * The checks around the encoder (labgob/labgob.go)

    The wrapper of encoding/gob looks at the types and values that are encoded
    and decoded: it warns about fields that gob leaves out because they are not
    capitalized, and about decoding into variables that are not empty.  A type
    is what reflection shows of it, an element of a countable type with its
    kind; types can be recursive.  reflect.TypeOf and reflect.ValueOf, and
    unicode.IsUpper of the first rune of a name, are arguments; the codec is
    the class [Gob].  The state is the package's [checked] and [errorCount],
    and what has been printed.

    checkType recurses over a graph; its fuel is enough when it exceeds the
    number of types that are not checked yet ([checkType_ok]).
    [checkTypes_exact]: each lower-case field of each type that can be reached
    is reported exactly once, whatever is checked in whatever order.
    [checkDefault_exact]: when decoding warns, and when it panics. *)

From Stdlib Require Import SpecFloat.
From S2P Require Import Prelude.

(** ** Types *)

Inductive TypeDesc (T : Type) :=
| TStruct (name : string) (fields : list (string * T))
| TElem (elem : T)                        (* reflect.Slice, reflect.Array, reflect.Ptr *)
| TMap (elem key : T)
| TOther.
Arguments TStruct {T}.
Arguments TElem {T}.
Arguments TMap {T}.
Arguments TOther {T}.

Inductive Message :=
| LowerCase (field type : string)
| NonDefault (what : string).

Record LabState (T : Type) `{Countable T} := mkLabState {
  checked : gset T;
  errorCount : Z;
  printed : list Message
}.
Arguments mkLabState {T _ _}.
Arguments checked {T _ _}.
Arguments errorCount {T _ _}.
Arguments printed {T _ _}.

(** ** Values *)

Inductive Scalar :=
| SBool (b : bool) | SInt (z : Z) | SUint (n : N) | SFloat (f : spec_float) | SString (s : string).

(** [reflect.DeepEqual(reflect.Zero(t).Interface(), value.Interface())]; 0.0 equals -0.0 and NaN equals nothing. *)
Definition is_zero (v : Scalar) : bool :=
  match v with
  | SBool b => negb b
  | SInt z => (z =? 0)%Z
  | SUint n => (n =? 0)%N
  | SFloat (S754_zero _) => true
  | SFloat _ => false
  | SString s => bool_decide (s = EmptyString)
  end.

(** [VNil] is a nil pointer; [VOther] are the kinds that checkDefault1 ignores;
    a field has its name, whether it is embedded, and its value. *)
#[warnings="-register-all"] Inductive GoValue :=
| VStruct (fields : list (string * bool * GoValue))
| VNil
| VPtr (elem : GoValue)
| VBasic (type : string) (v : Scalar)
| VOther.

(** How a reflect.Value was reached: through exported fields only, through an
    embedded field that is not exported, or through another such field. *)
Inductive Access := Exported | EmbedRO | StickyRO.

#[export] Instance Access_eq_dec : EqDecision Access.
Proof. solve_decision. Defined.

Section labgob.
Context {T : Type} `{Countable T} (desc : T → TypeDesc T) (capital : string → bool).

Definition mark_checked (t : T) (s : LabState T) : LabState T := mkLabState ({[t]} ∪ checked s) (errorCount s) (printed s).

Definition report (m : Message) (s : LabState T) : LabState T := mkLabState (checked s) (errorCount s + 1)%Z (printed s ++ [m]).

Section step.
Context (rec : T → LabState T → option (LabState T)).

Fixpoint check_fields (tname : string) (fields : list (string * T)) (s : LabState T) : option (LabState T) :=
  match fields with
  | [] => Some s
  | (fname, ftype) :: fields =>
      let s := if capital fname then s else report (LowerCase fname tname) s in
      s ← rec ftype s;
      check_fields tname fields s
  end.
End step.

Fixpoint checkType (fuel : nat) (t : T) (s : LabState T) : option (LabState T) :=
  match fuel with
  | 0 => None
  | S fuel =>
      if bool_decide (t ∈ checked s) then Some s
      else
        let s := mark_checked t s in
        match desc t with
        | TStruct tname fields => check_fields (checkType fuel) tname fields s
        | TElem elem => checkType fuel elem s
        | TMap elem key => s ← checkType fuel elem s; checkType fuel key s
        | TOther => Some s
        end
  end.

Definition depth_name (name field : string) : string :=
  if bool_decide (name = EmptyString) then field else name +:+ "." +:+ field.

(** [value.Field(i)]: what is not exported stays so below it, an embedded struct
    apart, whose own fields count. *)
Definition field_access (ro : Access) (name : string) (embedded : bool) : Access :=
  match ro with
  | StickyRO => StickyRO
  | _ => if capital name then Exported else if embedded then EmbedRO else StickyRO
  end.

(** checkDefault1; [more] is 4 less the depth.  [None] is the panic of
    [value.Interface()] on a scalar that was reached through a field that is not
    exported. *)
Fixpoint checkDefault1 (more : nat) (ro : Access) (value : GoValue) (name : string) (s : LabState T) : option (LabState T) :=
  match more with
  | 0 => Some s
  | S more =>
      match value with
      | VStruct fields =>
          foldl (λ acc '(f, emb, v), s ← acc; checkDefault1 more (field_access ro f emb) v (depth_name name f) s) (Some s) fields
      | VNil => Some s
      | VPtr elem => checkDefault1 more ro elem name s
      | VBasic tname v =>
          if negb (bool_decide (ro = Exported)) then None
          else if is_zero v then Some s
          else Some (mkLabState (checked s) (errorCount s + 1)%Z
                 (if (errorCount s <? 1)%Z
                  then printed s ++ [NonDefault (if bool_decide (name = EmptyString) then tname else name)]
                  else printed s))
      | VOther => Some s
      end
  end.

Definition checkDefault (value : option GoValue) (s : LabState T) : option (LabState T) :=
  match value with None => Some s | Some v => checkDefault1 3 Exported v EmptyString s end.

(** The type of nil has no kind: a panic. *)
Definition checkValue (fuel : nat) (t : option T) (s : LabState T) : option (LabState T) :=
  t ← t; checkType fuel t s.

(** ** The encoder and the decoder *)

Section codec.
Context {Val : Type} `{!Gob Val} (TypeOf : Val → option T) (ValueOf : Val → option GoValue).

Definition Encode (fuel : nat) (e : Val) (s : LabState T) : option (LabState T * list byte) :=
  s ← checkValue fuel (TypeOf e) s; Some (s, gob_encode e).

(** Decoding into [e]: the new value, or an error. *)
Definition Decode (fuel : nat) (e : Val) (data : list byte) (s : LabState T) : option (LabState T * option Val) :=
  s ← checkValue fuel (TypeOf e) s;
  s ← checkDefault (ValueOf e) s;
  Some (s, gob_decode data).
End codec.

(** ** What is reported *)

Definition succs (t : T) : list T :=
  match desc t with
  | TStruct _ fields => fields.*2
  | TElem elem => [elem]
  | TMap elem key => [elem; key]
  | TOther => []
  end.

(** A type that checkType comes to from [t]. *)
Definition reach : T → T → Prop := rtc (λ x y, y ∈ succs x).

Definition lower_fields (tname : string) (fields : list (string * T)) : list Message :=
  omap (λ f, if capital f.1 then None else Some (LowerCase f.1 tname)) fields.

(** The fields of a type that are to be reported. *)
Definition complaints (t : T) : list Message :=
  match desc t with TStruct tname fields => lower_fields tname fields | _ => [] end.

(** From [s] to [s'] the types in [roots] were checked, and the messages [own] printed besides. *)
Record visits (roots : list T) (own : list Message) (s s' : LabState T) : Prop := {
  vi_mono : checked s ⊆ checked s';
  vi_roots : ∀ t, t ∈ roots → t ∈ checked s';
  vi_reach : ∀ x, x ∈ checked s' → x ∉ checked s → ∃ t, t ∈ roots ∧ reach t x;
  vi_closed : ∀ x y, x ∈ checked s' → x ∉ checked s → y ∈ succs x → y ∈ checked s';
  vi_print : ∃ l, printed s' = printed s ++ l ∧ errorCount s' = (errorCount s + zlen l)%Z ∧
    l ≡ₚ own ++ (elements (checked s' ∖ checked s) ≫= complaints)
}.

Lemma visits_refl roots s : (∀ t, t ∈ roots → t ∈ checked s) → visits roots [] s s.
Proof.
  intros Hr. split; try done. exists []. rewrite app_nil_r, difference_diag_L, elements_empty. split_and!; [done|rewrite zlen_nil; lia|done].
Qed.

Lemma visits_report m s : visits [] [m] s (report m s).
Proof.
  split; simpl; try done; [set_solver|]. exists [m]. rewrite difference_diag_L, elements_empty. done.
Qed.

Lemma visits_trans roots1 roots2 own1 own2 s s1 s2 :
  visits roots1 own1 s s1 → visits roots2 own2 s1 s2 → visits (roots1 ++ roots2) (own1 ++ own2) s s2.
Proof.
  intros [M1 R1 Re1 C1 (l1 & P1 & E1 & L1)] [M2 R2 Re2 C2 (l2 & P2 & E2 & L2)]. split.
  - set_solver.
  - intros t [?|?]%elem_of_app; auto.
  - intros x Hx Hn. destruct (decide (x ∈ checked s1)) as [H1|H1].
    + destruct (Re1 x H1 Hn) as (t & ? & ?). exists t. set_solver.
    + destruct (Re2 x Hx H1) as (t & ? & ?). exists t. set_solver.
  - intros x y Hx Hn Hy. destruct (decide (x ∈ checked s1)) as [H1|H1]; [|eauto]. by apply M2, (C1 x).
  - exists (l1 ++ l2). split_and!; [by rewrite P2, P1, app_assoc|rewrite E2, E1, zlen_app; lia|].
    assert (checked s2 ∖ checked s = (checked s1 ∖ checked s) ∪ (checked s2 ∖ checked s1)) as ->.
    { apply set_eq. intros x. rewrite elem_of_union, !elem_of_difference.
      destruct (decide (x ∈ checked s1)); split; try tauto; set_solver. }
    rewrite elements_disj_union by set_solver. rewrite bind_app, L1, L2. solve_Permutation.
Qed.

(** The types below [t] were checked after [t] was marked. *)
Lemma visits_mark t s s' :
  t ∉ checked s → visits (succs t) (complaints t) (mark_checked t s) s' → visits [t] [] s s'.
Proof.
  intros Ht [M R Re C (l & P & E & L)]. simpl in *. split.
  - set_solver.
  - set_solver.
  - intros x Hx Hn. exists t. split; [set_solver|]. destruct (decide (x = t)) as [->|Hne]; [apply rtc_refl|].
    destruct (Re x Hx) as (t' & Ht' & Hr); [set_solver|]. by apply (rtc_l _ _ t').
  - intros x y Hx Hn Hy. destruct (decide (x = t)) as [->|Hne]; [by apply R|]. apply (C x); set_solver.
  - exists l. split_and!; [done|done|]. rewrite L.
    assert (checked s' ∖ checked s = {[t]} ∪ (checked s' ∖ ({[t]} ∪ checked s))) as ->.
    { apply set_eq. intros x. rewrite elem_of_union, !elem_of_difference, elem_of_singleton.
      destruct (decide (x = t)) as [->|]; set_solver. }
    rewrite elements_union_singleton by set_solver. done.
Qed.

(** ** checkType terminates and reports each field once *)

Section universe.
Context (U : gset T) (HU : ∀ x y, x ∈ U → y ∈ succs x → y ∈ U).

Definition unchecked (s : LabState T) : nat := size (U ∖ checked s).

Lemma unchecked_mono s s' : checked s ⊆ checked s' → unchecked s' ≤ unchecked s.
Proof. intros Hs. unfold unchecked. apply subseteq_size. set_solver. Qed.

Lemma unchecked_mark t s : t ∈ U → t ∉ checked s → S (unchecked (mark_checked t s)) = unchecked s.
Proof.
  intros HtU Ht. unfold unchecked. simpl.
  assert (U ∖ checked s = {[t]} ∪ (U ∖ ({[t]} ∪ checked s))) as ->.
  { apply set_eq. intros x. rewrite elem_of_union, !elem_of_difference, elem_of_singleton.
    destruct (decide (x = t)) as [->|]; set_solver. }
  unfold size, set_size. simpl. rewrite elements_union_singleton by set_solver. done.
Qed.

(** What a recursive call does. *)
Definition rec_ok (rec : T → LabState T → option (LabState T)) (k : nat) : Prop :=
  ∀ t s, t ∈ U → unchecked s < k → ∃ s', rec t s = Some s' ∧ visits [t] [] s s'.

Lemma check_fields_ok rec k tname fields s :
  rec_ok rec k → unchecked s < k → (∀ t, t ∈ fields.*2 → t ∈ U) →
  ∃ s', check_fields rec tname fields s = Some s' ∧ visits fields.*2 (lower_fields tname fields) s s'.
Proof.
  intros Hrec. revert s. induction fields as [|[f t] fields IH]; intros s Hk Hf; cbn [check_fields].
  { exists s. split; [done|]. by apply visits_refl; set_solver. }
  set (s1 := if capital f then s else report (LowerCase f tname) s).
  assert (visits [] (lower_fields tname [(f, t)]) s s1) as V1.
  { subst s1. unfold lower_fields. simpl. destruct (capital f); [by apply visits_refl; set_solver|apply visits_report]. }
  destruct (Hrec t s1) as (s2 & E2 & V2); [set_solver| |].
  { pose proof (unchecked_mono s s1 (vi_mono _ _ _ _ V1)). lia. }
  rewrite E2. cbn [mbind option_bind]. destruct (IH s2) as (s3 & E3 & V3); [|set_solver|].
  { pose proof (unchecked_mono s s1 (vi_mono _ _ _ _ V1)). pose proof (unchecked_mono s1 s2 (vi_mono _ _ _ _ V2)). lia. }
  exists s3. split; [done|]. pose proof (visits_trans _ _ _ _ _ _ _ (visits_trans _ _ _ _ _ _ _ V1 V2) V3) as V.
  rewrite app_nil_r in V. unfold lower_fields in *. simpl in V |- *. by destruct (capital f).
Qed.

Lemma checkType_ok fuel : rec_ok (checkType fuel) fuel.
Proof.
  induction fuel as [|fuel IH]; intros t s HtU Hk; [lia|]. cbn [checkType]. case_bool_decide as Ht.
  { exists s. split; [done|]. apply visits_refl. set_solver. }
  pose proof (unchecked_mark t s HtU Ht) as Hm. pose proof (HU t) as Hsucc.
  assert (∀ s', visits (succs t) (complaints t) (mark_checked t s) s' → visits [t] [] s s') as Hv by (intros; by apply visits_mark).
  unfold succs, complaints in *. destruct (desc t) as [tname fields|elem|elem key|].
  - destruct (check_fields_ok (checkType fuel) fuel tname fields (mark_checked t s)) as (s' & E & V); [done|lia|set_solver|eauto].
  - destruct (IH elem (mark_checked t s)) as (s' & E & V); [set_solver|lia|eauto].
  - destruct (IH elem (mark_checked t s)) as (s1 & E1 & V1); [set_solver|lia|]. rewrite E1. cbn [mbind option_bind].
    destruct (IH key s1) as (s2 & E2 & V2); [set_solver| |].
    { pose proof (unchecked_mono _ _ (vi_mono _ _ _ _ V1)). lia. }
    exists s2. split; [done|]. apply Hv. apply (visits_trans _ _ _ _ _ _ _ V1 V2).
  - exists (mark_checked t s). split; [done|]. apply Hv, visits_refl. set_solver.
Qed.
End universe.

(** ** A sequence of checks *)

(** What Encode, Decode and Register check in the course of a program. *)
Fixpoint check_all (fuel : nat) (ts : list T) (s : LabState T) : option (LabState T) :=
  match ts with [] => Some s | t :: ts => s ← checkType fuel t s; check_all fuel ts s end.

Definition nothing_checked : LabState T := mkLabState ∅ 0 [].

Lemma check_all_ok (U : gset T) fuel ts s :
  (∀ x y, x ∈ U → y ∈ succs x → y ∈ U) → (∀ t, t ∈ ts → t ∈ U) → size U < fuel →
  ∃ s', check_all fuel ts s = Some s' ∧ visits ts [] s s'.
Proof.
  intros HU. revert s. induction ts as [|t ts IH]; intros s Hts Hf; cbn [check_all].
  { exists s. split; [done|]. apply visits_refl. set_solver. }
  destruct (checkType_ok U HU fuel t s) as (s1 & E1 & V1); [set_solver| |].
  { apply Nat.le_lt_trans with (size U); [|done]. unfold unchecked. apply subseteq_size. set_solver. }
  rewrite E1. cbn [mbind option_bind]. destruct (IH s1) as (s2 & E2 & V2); [set_solver|done|].
  exists s2. split; [done|]. apply (visits_trans _ _ _ _ _ _ _ V1 V2).
Qed.

(** C35. checkType terminates on recursive types and complains exactly once.
    Over a finite universe of types, with more fuel than it has types, any
    sequence of checks ends; the checked types are then exactly those that can
    be reached from the given ones through fields, elements and keys, and what
    was printed and counted is each lower-case field of each of them, once. *)
Theorem checkTypes_exact (U : gset T) fuel ts :
  (∀ x y, x ∈ U → y ∈ succs x → y ∈ U) → (∀ t, t ∈ ts → t ∈ U) → size U < fuel →
  ∃ s, check_all fuel ts nothing_checked = Some s ∧
    (∀ x, x ∈ checked s ↔ ∃ t, t ∈ ts ∧ reach t x) ∧
    printed s ≡ₚ (elements (checked s) ≫= complaints) ∧ errorCount s = zlen (printed s).
Proof.
  intros HU Hts Hf. destruct (check_all_ok U fuel ts nothing_checked HU Hts Hf) as (s & E & [_ R Re C (l & P & Ec & L)]).
  exists s. split; [done|]. simpl in *. split_and!.
  - intros x. split; [intros Hx; apply Re; [done|set_solver]|]. intros (t & Ht & Hr). apply R in Ht.
    induction Hr as [|x y z Hxy _ IH]; [done|]. apply IH. apply (C x); [done|set_solver|done].
  - rewrite P, L. by rewrite difference_empty_L.
  - rewrite Ec, P. lia.
Qed.

(** ** Decoding into a variable that is not empty *)

(** At depth [d] of [value], under the name [w], there is the scalar [v]. *)
Inductive holds : nat → GoValue → string → string → Scalar → Prop :=
| holds_basic name tname v :
    holds 1 (VBasic tname v) name (if bool_decide (name = EmptyString) then tname else name) v
| holds_ptr d elem name w v : holds d elem name w v → holds (S d) (VPtr elem) name w v
| holds_field d fields f emb x name w v :
    (f, emb, x) ∈ fields → holds d x (depth_name name f) w v → holds (S d) (VStruct fields) name w v.

(** The names that are counted, in order. *)
Fixpoint nondefault (more : nat) (value : GoValue) (name : string) : list string :=
  match more with
  | 0 => []
  | S more =>
      match value with
      | VStruct fields => fields ≫= λ fv, nondefault more fv.2 (depth_name name fv.1.1)
      | VPtr elem => nondefault more elem name
      | VBasic tname v => if is_zero v then [] else [if bool_decide (name = EmptyString) then tname else name]
      | _ => []
      end
  end.

Lemma elem_of_nondefault more value name w :
  w ∈ nondefault more value name ↔ ∃ d v, d ≤ more ∧ holds d value name w v ∧ is_zero v = false.
Proof.
  revert value name. induction more as [|more IH]; intros value name; cbn [nondefault].
  { split; [set_solver|]. intros (d & v & Hd & Hh & _). inversion Hh; lia. }
  destruct value as [fields| |elem|tname v|]; try (split; [set_solver|intros (d & v & _ & Hh & _); inversion Hh]).
  - rewrite list_elem_of_bind. setoid_rewrite IH. split.
    + intros ([[f emb] x] & (d & v & Hd & Hh & Hz) & Hin). exists (S d), v. split_and!; [lia| |done]. by apply (holds_field _ _ f emb x).
    + intros (d & v & Hd & Hh & Hz). inversion Hh; subst. exists (f, emb, x). split; [|done]. eexists _, v. split_and!; [|done..]. lia.
  - rewrite IH. split; [intros (d & v & Hd & Hh & Hz); exists (S d), v; split_and!; [lia|by constructor|done]|].
    intros (d & v & Hd & Hh & Hz). inversion Hh; subst. eexists _, v. split_and!; [|done..]. lia.
  - split.
    + destruct (is_zero v) eqn:Ez; [set_solver|]. intros ->%list_elem_of_singleton. exists 1, v. split_and!; [lia|constructor|done].
    + intros (d & v' & Hd & Hh & Hz). inversion Hh; subst. rewrite Hz. set_solver.
Qed.

(** One warning is printed, for the first of the names, when nothing was counted before. *)
Definition warn_all (ws : list string) (s : LabState T) : LabState T :=
  mkLabState (checked s) (errorCount s + zlen ws)%Z
    (printed s ++ match ws with w :: _ => if (errorCount s <? 1)%Z then [NonDefault w] else [] | [] => [] end).

Lemma warn_all_nil s : warn_all [] s = s.
Proof. destruct s. unfold warn_all. simpl. by rewrite app_nil_r, zlen_nil, Z.add_0_r. Qed.

Lemma warn_all_app ws1 ws2 s : (0 ≤ errorCount s)%Z → warn_all ws2 (warn_all ws1 s) = warn_all (ws1 ++ ws2) s.
Proof.
  intros Hs. destruct ws1 as [|w ws1]; [by rewrite warn_all_nil|]. unfold warn_all. cbn [checked errorCount printed app].
  rewrite !zlen_cons, zlen_app. pose proof (zlen_nonneg ws1).
  rewrite (proj2 (Z.ltb_ge (errorCount s + (1 + zlen ws1)) 1)) by lia. f_equal; [lia|].
  destruct ws2; by rewrite app_nil_r.
Qed.

(** A scalar within [more] levels was reached through a field that is not
    exported. *)
Fixpoint hidden_scalar (more : nat) (ro : Access) (value : GoValue) : bool :=
  match more with
  | 0 => false
  | S more =>
      match value with
      | VStruct fields => existsb (λ '(f, emb, v), hidden_scalar more (field_access ro f emb) v) fields
      | VPtr elem => hidden_scalar more ro elem
      | VBasic _ _ => negb (bool_decide (ro = Exported))
      | _ => false
      end
  end.

Lemma checkDefault1_warns more ro value name s :
  (0 ≤ errorCount s)%Z →
  checkDefault1 more ro value name s =
    if hidden_scalar more ro value then None else Some (warn_all (nondefault more value name) s).
Proof.
  revert ro value name s. induction more as [|more IH]; intros ro value name s Hs; cbn [checkDefault1 nondefault hidden_scalar].
  { by rewrite warn_all_nil. }
  destruct value as [fields| |elem|tname v|]; rewrite ?warn_all_nil; auto.
  - revert s Hs. induction fields as [|[[f emb] x] fields IHf]; intros s Hs; [simpl; by rewrite warn_all_nil|].
    cbn [foldl existsb]. cbn [mbind option_bind]. rewrite IH by done.
    destruct (hidden_scalar more (field_access ro f emb) x).
    { cbn [orb]. clear. induction fields as [|[[? ?] ?] fields IHf]; [done|]. simpl. apply IHf. }
    rewrite IHf.
    + cbn [orb]. destruct (existsb _ fields); [done|]. f_equal. by rewrite warn_all_app.
    + simpl. pose proof (zlen_nonneg (nondefault more x (depth_name name f))). lia.
  - destruct (negb _); [done|]. f_equal. destruct (is_zero v); [by rewrite warn_all_nil|]. f_equal. unfold warn_all. f_equal.
    destruct (_ <? _)%Z; [done|by rewrite app_nil_r].
Qed.

(** When Decode warns: it panics exactly when some scalar at a depth of at most
    three (pointers and fields count) is only reached through a field that is
    not exported; otherwise the count grows exactly when the variable holds a
    scalar other than zero at such a depth, and exactly one warning, naming such
    a scalar, is printed if nothing had been counted before. *)
Theorem checkDefault_exact value s :
  (0 ≤ errorCount s)%Z →
  let bad w := ∃ d v, d ≤ 3 ∧ holds d value EmptyString w v ∧ is_zero v = false in
  match checkDefault (Some value) s with
  | None => hidden_scalar 3 Exported value = true
  | Some s' =>
      hidden_scalar 3 Exported value = false ∧ checked s' = checked s ∧
      ((∀ w, ¬ bad w) → s' = s) ∧
      ((∃ w, bad w) → (errorCount s < errorCount s')%Z ∧
         (errorCount s = 0%Z → ∃ w, bad w ∧ printed s' = printed s ++ [NonDefault w]) ∧
         (errorCount s ≠ 0%Z → printed s' = printed s))
  end.
Proof.
  intros Hs. cbn zeta. unfold checkDefault. rewrite checkDefault1_warns by done.
  destruct (hidden_scalar 3 Exported value); [done|]. split; [done|].
  pose proof (λ w, elem_of_nondefault 3 value EmptyString w) as Hel. destruct (nondefault 3 value EmptyString) as [|w0 ws] eqn:E.
  - rewrite warn_all_nil. split_and!; [done|done|]. intros [w Hw%Hel]. set_solver.
  - split; [done|]. split; [intros Hno; destruct (Hno w0); apply Hel; set_solver|]. intros _. simpl.
    rewrite zlen_cons. pose proof (zlen_nonneg ws). split_and!; [lia| |].
    + intros Hz. exists w0. split; [apply Hel; set_solver|]. by rewrite Hz.
    + intros Hz. rewrite (proj2 (Z.ltb_ge _ _)) by lia. by rewrite app_nil_r.
Qed.
End labgob.

(** ** A recursive type with a lower-case field *)

(** The first rune is a capital letter, for names in ASCII. *)
Definition ascii_capital (s : string) : bool :=
  match s with
  | EmptyString => false
  | String a _ => let n := Ascii.nat_of_ascii a in (65 <=? n) && (n <=? 90)
  end.

(** Node: a struct with the fields Next, a pointer to Node, and value, an int. *)
Definition node_desc (t : nat) : TypeDesc nat :=
  match t with 0 => TStruct "Node" [("Next", 1); ("value", 2)] | 1 => TElem 0 | _ => TOther end.

Lemma checkTypes_exact_witness :
  ∃ s, check_all node_desc ascii_capital 4 [1; 0] nothing_checked = Some s ∧
    (∀ x, x ∈ checked s ↔ ∃ t, t ∈ [1; 0] ∧ reach node_desc t x) ∧
    printed s ≡ₚ (elements (checked s) ≫= complaints node_desc ascii_capital) ∧ errorCount s = zlen (printed s).
Proof.
  apply (checkTypes_exact node_desc ascii_capital ({[0; 1; 2]} : gset nat) 4 [1; 0]).
  - intros x y Hx Hy. rewrite !elem_of_union, !elem_of_singleton in Hx. destruct Hx as [[->| ->]| ->]; simpl in Hy; set_solver.
  - set_solver.
  - vm_compute. lia.
Defined.

Example node_checked :
  printed <$> check_all node_desc ascii_capital 4 [1; 0; 1] nothing_checked = Some [LowerCase "value" "Node"].
Proof. vm_compute. reflexivity. Qed.

(** Decoding into a struct with a lower-case int field panics, although
    checkType has only printed its complaint about the field. *)
Example lower_case_panics :
  checkDefault (T := nat) ascii_capital (Some (VPtr (VStruct [("Next", false, VNil); ("value", false, VBasic "int" (SInt 0))])))
    nothing_checked = None ∧
  errorCount <$> checkDefault (T := nat) ascii_capital (Some (VPtr (VStruct [("Value", false, VBasic "int" (SInt 5))])))
    nothing_checked = Some 1%Z.
Proof. split; vm_compute; reflexivity. Qed.
